(* ===== verification/_CoqProject ===== *)
-Q . S2P
Prelude.v
RustStd.v
Extern.v
Reference.v
Errors.v
Command.v
Parser.v
Value.v
Storage.v
Response.v
Metrics.v
Config.v
Open.v
ServerState.v
Handler.v
Connection.v
Examples.v
ParserFacts.v
ParserProps.v
StorageFacts.v
StorageProps.v
Spec.v
HandlerProps.v
Interleave.v
InterleaveFacts.v
InterleaveLinear.v
InterleaveProps.v
OpenProps.v
ConnectionFacts.v
Script.v
ScriptFacts.v
Trace.v
Relaxed.v
RelaxedFacts.v
ConnectionProps.v
TraceProps.v
Server.v
ScriptTrace.v
Actions.v
Concurrent.v
ConcurrentFacts.v
Rounds.v
Accounts.v
ServerProps.v
ConcurrentProps.v
Shutdown.v
Health.v
Main.v
MainProps.v
UnitTests.v
