(* ===== verification/Prelude.v ===== *)
(** * PetraCache: a verification of the cache server

    PetraCache is a memcached-compatible cache server on RocksDB.  A client
    connection delivers bytes; the protocol parser turns them into commands;
    the handlers run each command against the storage backend and write the
    replies, which the connection sends back.  This library models these
    parts as they are in src/src and proves what makes them correct.

    ** The parts of the program and the files that model them

    - src/protocol/parser.rs, command.rs: [Command.v] (commands, key validity),
      [Parser.v] (the parser).  Facts in [ParserFacts.v], properties in
      [ParserProps.v].
    - src/error.rs: [Errors.v], the error types and their texts.
    - src/protocol/response.rs: [Response.v], [Module ResponseWriter] and the
      client's reader of replies.
    - src/storage/value.rs: [Value.v], the binary format and expiry.
    - src/storage/rocks.rs: [Storage.v], the record [Store] with the globals of
      the process, the TTL compaction filter and [Module RocksStorage].  Facts
      in [StorageFacts.v], properties in [StorageProps.v].  Opening the
      database is in [Open.v], its properties in [OpenProps.v].
    - src/metrics.rs: [Metrics.v].  src/config.rs: [Config.v].  src/health.rs:
      [Health.v].
    - src/server/mod.rs: [ServerState.v] (the shared state and its creation),
      [Server.v] (the beginning of [run] and the admission of a connection) and
      [Concurrent.v] (the loop of [run] with all tasks).
    - src/server/handler.rs: [Handler.v].  src/server/connection.rs:
      [Connection.v], one connection whose commands nobody interrupts.  Facts
      in [ConnectionFacts.v], properties in [ConnectionProps.v] and
      [TraceProps.v].
    - src/main.rs: [Main.v], the start of all components, signals and the end
      of the process by return or abort; properties in [MainProps.v].
    - src/storage/rocks.rs and src/server/handler.rs again: [Interleave.v], the
      same commands cut into their calls to the database, the clock and the
      metrics, which a pool of parallel commands interleaves.  Facts in
      [InterleaveFacts.v] and [InterleaveLinear.v], properties in
      [InterleaveProps.v].
    - src/server/connection.rs again: [Script.v], a round of a connection as a
      script of commands that others may interrupt; alone it is the round of
      [Connection.v] ([script_run_turn] in [ScriptFacts.v]).  [ScriptTrace.v]
      says what every script leaves, whatever the replies.
    - the whole server: in [Concurrent.v] all tasks advance one call at a
      time, end, and panic as the build profile says.  [ConcurrentFacts.v] has
      the steps of one task, [Rounds.v] bounds their number, and [Accounts.v]
      is the invariant that accounts for every world with a run of the relaxed
      cache.  Properties in [ServerProps.v] (safety and admission),
      [ConcurrentProps.v] (refinement, linearizability, termination of rounds)
      and [Shutdown.v].
    - the [tests] modules of these files: [UnitTests.v], the tests as
      computations that pass on the definitions.

    [RustStd.v] holds what these files use of the Rust standard library
    (decimal parsing and printing, UTF-8, whitespace), [Extern.v] the
    interfaces of the third-party crates as classes of operations with
    classes of the laws their documentation states (memchr, itoa, bytes,
    rocksdb, prometheus, tokio's semaphore and streams), [Reference.v]
    concrete instances of these interfaces with proofs of the laws, and
    [Examples.v] the concrete states on which the witnesses evaluate.
    [Spec.v] is the abstract cache, [Trace.v] the logs of its runs.
    [Relaxed.v] is the weaker cache that interleaved commands implement - a
    get replies from a snapshot, a delete decides when it looks, a lazy
    expiration removes whatever its key holds by then - with the condition
    under which it is no weaker ([race_free]); facts in [RelaxedFacts.v], and
    in [Actions.v] that every call of a command is an action of it or none.

    ** How the code is represented

    A computation that may panic has a value in [outcome]; [Result] is
    [result].  Machine integers are integers in range; an addition on [usize]
    is written [a +[pf] b] and, on overflow, panics in the profile [Debug] and
    wraps in [Release].  A [usize] has 64 bits.  A byte slice is a list of
    bytes no longer than [isize_max] ([slice_ok]), which Rust guarantees of
    every allocation.  The state a function mutates - the store with its
    globals and its clock, the server, the local variables of a connection -
    is passed and returned explicitly.  The clock is a function from the
    number of a read to a time, so that no theorem assumes that two reads
    agree.  Most theorems about a cache do assume that the seconds it shows
    never go back ([clock_mono], a part of [represents]): this is an
    assumption on the machine, which [std] does not promise of [SystemTime];
    the theorems that need it say so.  The database is abstract: any reads and writes that satisfy its
    laws, failures included.  A panic of a task unwinds in the profile [Debug], which
    drops the task with its permit and its stream and leaves the others alone,
    and aborts the process in [Release] (Cargo.toml).

    ** What the theorems show

    - [ParserProps]: the parser is stable under more input, inverts the wire
      form of every command, returns only well-formed commands, waits for more
      on exactly the inputs of [parse_waits], and panics on exactly the inputs
      described by [bad_bytes] (release) or by an overflow of the data block
      (debug).
    - [Value], [StorageProps]: the storage format round-trips; lookups return
      exactly the live values ([live]) at the time of the lookup; set, delete,
      batched lookup, lazy expiration and compaction agree with each other.
    - [Response]: a client reads back exactly the replies written.
    - [HandlerProps]: [execute] refines the abstract cache of [Spec.v]: each
      command is one [cache_step], and errors are reported exactly when the
      database fails.
    - [ConnectionProps]: the loop terminates, keeps its invariant [ready] and
      never panics on other than the parser's crash inputs; a session cut
      into arbitrary chunks executes exactly its commands and sends exactly
      their replies; error recovery; the ends of a connection.
    - [TraceProps]: on arbitrary input, a connection is explained by a log: the
      events the parser reads off the bytes received, a run of the cache
      ([history]), and the replies shown for them, which a client reads back.
    - [ServerProps]: an invariant of every interleaving of the calls of all
      connections, compactions, panics and the shutdown: the connection limit,
      the permits, the gauge, the state of every task and of the storage; and
      the admission of a connection.
    - [Shutdown]: after the token is set, every fair run drains all tasks,
      unless a release build is aborted.
    - [InterleaveProps]: the commands cut into calls agree with [Handler.v];
      what any interleaving of them preserves, and that all of them finish;
      while nothing expires and nobody deletes a pool is a run of the abstract
      cache; and the two races there are otherwise: of a lazy expiration with
      a set, and of two deletes.
    - [ConcurrentProps]: the whole server, one call at a time, refines the
      relaxed cache, with every connection explained by its part of the run,
      those in the middle of a round and those that have panicked included;
      the executions in which no removal races, and those of one worker
      thread, are linearizable; every round ends within a bound on its steps.
    - [MainProps]: every branch of startup, and the invariant of the process
      from its start to its return or abort.
    - [Metrics], [Config], [OpenProps], [Health]: startup of the metrics and
      their page, the configuration from the environment, every branch of
      opening the database, the responses of the health endpoint.

    ** Fuel

    Only the inner loop of a connection ([Connection.process], and
    [Script.process], its rendering as a script) has fuel: one more than the
    bytes in the buffer.  It is enough because each round that does not end
    the loop consumes at least two bytes; more fuel makes no difference
    ([ConnectionProps.process_terminates]), and a task that had run out would
    be stuck for ever in [Concurrent.v], which [ServerProps.server_invariant]
    and [ConcurrentProps.rounds_terminate] exclude.

    ** What is not modelled

    Logging, allocation failure and capacities of buffers, socket options and
    the text forms of addresses are left out.  The steps of [Concurrent.v] are
    the single calls to the database, the clock and the metrics; the admission
    of a connection, the choice of an arm of the [select!] with its read, a
    write to the stream and a compaction are one step each.  When [main]
    returns, the runtime drops what tasks are left; nothing is said of them.
    A write to a client that does not read is a write that fails or ends,
    never one that blocks; the fairness assumed by [Shutdown] excludes the
    blocked one.  The encoders of the metrics page and of TOML files, the
    runtime builder and the listener are parameters. *)

From Stdlib Require Export ZArith Lia.
From Stdlib Require Import Strings.Byte.
From Stdlib Require Strings.String.
From stdpp Require Export base tactics decidable option countable numbers strings.
From stdpp Require Export list sets gmap.

Export Stdlib.Init.Byte.

#[global] Open Scope Z_scope.
Declare Scope petra_scope.
Delimit Scope petra_scope with petra.

(** ** Bytes and byte strings *)

Abbreviation bytes := (list byte).

#[export] Instance byte_eq_dec : EqDecision byte := Byte.byte_eq_dec.

#[export] Program Instance byte_countable : Countable byte :=
  inj_countable Byte.to_N Byte.of_N _.
Next Obligation. intros b. apply Byte.of_to_N. Qed.

(** The value of a [u8], and the [u8] of an integer taken modulo 256. *)
Definition u8 (b : byte) : Z := Z.of_N (Byte.to_N b).

Definition to_u8 (z : Z) : byte :=
  match Byte.of_N (Z.to_N (z mod 256)) with
  | Some b => b
  | None => x00
  end.

(** Byte-string literals: [str "GET"] is the Rust literal [b"GET"]. *)
Definition str (s : string) : bytes := String.list_byte_of_string s.

Definition CR : byte := x0d.
Definition LF : byte := x0a.
Definition CRLF : bytes := [CR; LF].
Definition SP : byte := x20.

(** ** Panics

    A Rust computation returns a value or panics; [Panic] is the value of a
    failed bounds check, of an overflowing addition when overflow checks are
    on, and of an explicit panic. *)
Inductive outcome (A : Type) : Type :=
| Ret (a : A)
| Panic.
Arguments Ret {A} a.
Arguments Panic {A}.

#[export] Instance outcome_ret : MRet outcome := @Ret.
#[export] Instance outcome_bind : MBind outcome := fun A B f m =>
  match m with
  | Ret a => f a
  | Panic => Panic
  end.
#[export] Instance outcome_fmap : FMap outcome := fun A B f m =>
  match m with
  | Ret a => Ret (f a)
  | Panic => Panic
  end.

(** Rust's [Result<A, E>]. *)
Inductive result (A E : Type) : Type :=
| Ok (a : A)
| Err (e : E).
Arguments Ok {A E} a.
Arguments Err {A E} e.

(** ** Machine integers

    [u32], [u64] and [usize] values are integers kept in range; [usize] is 64
    bits wide, the width of the targets the server is built for.  Additions
    in the source are [usize_add]: in a build with overflow checks (Cargo's
    dev profile) an overflow panics, in a release build it wraps around. *)
Inductive profile := Debug | Release.

#[export] Instance profile_eq_dec : EqDecision profile.
Proof. solve_decision. Defined.

Definition u32_max : Z := 2 ^ 32 - 1.
Definition u64_max : Z := 2 ^ 64 - 1.
Definition isize_max : Z := 2 ^ 63 - 1.

Definition wrap64 (z : Z) : Z := z mod 2 ^ 64.

Definition usize_add (pf : profile) (a b : Z) : outcome Z :=
  if a + b <=? u64_max then Ret (a + b)
  else match pf with
       | Debug => Panic
       | Release => Ret (wrap64 (a + b))
       end.

Notation "a +[ pf ] b" := (usize_add pf a b)
  (at level 50, left associativity, format "a  +[ pf ]  b") : petra_scope.

(** [u64::saturating_add]. *)
Definition u64_saturating_add (a b : Z) : Z := Z.min (a + b) u64_max.

(** ** Slices

    A slice is never longer than [isize::MAX] bytes, which Rust guarantees
    of every allocation: [slice_ok]. *)
Definition len {A} (s : list A) : Z := Z.of_nat (length s).

Definition slice_ok (s : bytes) : Prop := len s <= isize_max.

(** [s.get(i)], [s[i]], [&s[..b]], [&s[a..b]] and [&s[a..]]. *)
Definition slice_get (s : bytes) (i : Z) : option byte :=
  if (0 <=? i) && (i <? len s) then s !! Z.to_nat i else None.

Definition slice_index (s : bytes) (i : Z) : outcome byte :=
  match slice_get s i with
  | Some b => Ret b
  | None => Panic
  end.

Definition slice_range (s : bytes) (a b : Z) : outcome bytes :=
  if (0 <=? a) && (a <=? b) && (b <=? len s)
  then Ret (take (Z.to_nat (b - a)) (drop (Z.to_nat a) s))
  else Panic.

Definition slice_to (s : bytes) (b : Z) : outcome bytes := slice_range s 0 b.
Definition slice_from (s : bytes) (a : Z) : outcome bytes :=
  slice_range s a (len s).

(** [s.split(|&b| b == sep)] and [iter.next()] on the resulting iterator,
    which is the list of the parts still to be yielded. *)
Fixpoint slice_split (sep : byte) (s : bytes) : list bytes :=
  match s with
  | [] => [[]]
  | b :: s' =>
      if bool_decide (b = sep) then [] :: slice_split sep s'
      else match slice_split sep s' with
           | p :: ps => (b :: p) :: ps
           | [] => [[b]]
           end
  end.

Definition iter_next {A} (it : list A) : option A * list A :=
  match it with
  | [] => (None, [])
  | x :: it' => (Some x, it')
  end.

(** ** Little-endian integers: [to_le_bytes] and [from_le_bytes] *)
Fixpoint to_le_bytes (n : nat) (z : Z) : bytes :=
  match n with
  | O => []
  | S n' => to_u8 z :: to_le_bytes n' (z / 256)
  end.

Fixpoint from_le_bytes (s : bytes) : Z :=
  match s with
  | [] => 0
  | b :: s' => u8 b + 256 * from_le_bytes s'
  end.

(** ** Tactics *)

(** Turn boolean comparisons on [Z] into propositions. *)
Ltac zbool :=
  repeat match goal with
  | H : (_ <? _) = true |- _ => apply Z.ltb_lt in H
  | H : (_ <? _) = false |- _ => apply Z.ltb_ge in H
  | H : (_ <=? _) = true |- _ => apply Z.leb_le in H
  | H : (_ <=? _) = false |- _ => apply Z.leb_gt in H
  | H : (_ =? _) = true |- _ => apply Z.eqb_eq in H
  | H : (_ =? _) = false |- _ => apply Z.eqb_neq in H
  | H : _ && _ = true |- _ => apply andb_true_iff in H as [? ?]
  | H : _ || _ = false |- _ => apply orb_false_iff in H as [? ?]
  | H : negb _ = true |- _ => apply negb_true_iff in H
  | H : negb _ = false |- _ => apply negb_false_iff in H
  end.

(** Invert the successful binds and equations of outcomes in the context. *)
Ltac outcome_inv :=
  repeat match goal with
  | H : Ret _ = Ret _ |- _ => injection H as H
  | H : Panic = Ret _ |- _ => discriminate H
  | H : Ret _ = Panic |- _ => discriminate H
  | H : mret _ = _ |- _ => progress unfold mret, outcome_ret in H
  | H : mbind _ ?m = Ret _ |- _ =>
      let E := fresh "E" in
      destruct m eqn:E; cbn [mbind outcome_bind] in H; [|discriminate H]
  end; simplify_eq.

(** Split on the head [if] of the goal, with the test as a proposition. *)
Ltac zcase :=
  match goal with
  | |- context [if ?c then _ else _] => destruct c eqn:?; zbool
  end.

(** Decide a closed proposition by evaluation. *)
Ltac by_compute :=
  match goal with
  | |- ?P => refine (@bool_decide_eq_true_1 P ltac:(apply _) _); vm_compute; reflexivity
  end.

Ltac unfold_max := unfold slice_ok in *; unfold u32_max, u64_max, isize_max in *.

Create HintDb petra discriminated.
Create Rewrite HintDb slices.
Create Rewrite HintDb replies.

(** ** Bytes *)

Lemma u8_range b : 0 <= u8 b < 256.
Proof.
  unfold u8. pose proof (Byte.to_N_bounded b). lia.
Qed.

Lemma u8_inj a b : u8 a = u8 b -> a = b.
Proof.
  unfold u8. intros H%N2Z.inj.
  pose proof (Byte.of_to_N a). pose proof (Byte.of_to_N b). congruence.
Qed.

Lemma u8_to_u8 z : u8 (to_u8 z) = z mod 256.
Proof.
  unfold to_u8. pose proof (Z.mod_pos_bound z 256 ltac:(lia)).
  destruct (Byte.of_N _) as [b|] eqn:E.
  - apply Byte.to_of_N in E. unfold u8. lia.
  - apply Byte.of_N_None_iff in E. lia.
Qed.

Lemma to_u8_u8 b : to_u8 (u8 b) = b.
Proof.
  apply u8_inj. rewrite u8_to_u8. apply Z.mod_small, u8_range.
Qed.

Lemma to_u8_mod z : to_u8 (z mod 256) = to_u8 z.
Proof. apply u8_inj. by rewrite !u8_to_u8, Z.mod_mod. Qed.

(** ** Little-endian integers *)

Lemma length_to_le_bytes n z : length (to_le_bytes n z) = n.
Proof. revert z. induction n; intros; simpl; auto. Qed.

Lemma from_to_le_bytes n z :
  from_le_bytes (to_le_bytes n z) = z mod 2 ^ (8 * Z.of_nat n).
Proof.
  revert z. induction n as [|n IH]; intros z; simpl.
  - by rewrite Z.mod_1_r.
  - rewrite IH, u8_to_u8.
    replace (8 * Z.of_nat (S n)) with (8 + 8 * Z.of_nat n) by lia.
    rewrite Z.pow_add_r by lia. change (2 ^ 8) with 256.
    rewrite Z.rem_mul_r by lia. lia.
Qed.

Lemma from_le_bytes_range s : 0 <= from_le_bytes s < 2 ^ (8 * len s).
Proof.
  unfold len. induction s as [|b s IH]; simpl length; cbn [from_le_bytes].
  - lia.
  - pose proof (u8_range b).
    replace (8 * Z.of_nat (S (length s))) with (8 + 8 * Z.of_nat (length s)) by lia.
    rewrite Z.pow_add_r by lia. change (2 ^ 8) with 256. lia.
Qed.

Lemma to_from_le_bytes s : to_le_bytes (length s) (from_le_bytes s) = s.
Proof.
  induction s as [|b s IH]; simpl; [done|]. pose proof (u8_range b).
  rewrite (Z.mul_comm 256), Z.div_add, (Z.div_small (u8 b)), Z.add_0_l, IH by lia.
  f_equal. rewrite <- to_u8_mod, Z.mod_add, (Z.mod_small (u8 b)) by lia.
  apply to_u8_u8.
Qed.

(** ** Lengths, additions and slices *)

Lemma len_nonneg {A} (s : list A) : 0 <= len s.
Proof. unfold len. lia. Qed.

Lemma len_app {A} (s t : list A) : len (s ++ t) = len s + len t.
Proof. unfold len. rewrite length_app. lia. Qed.

Lemma len_nil {A} : len (@nil A) = 0.
Proof. done. Qed.

Lemma len_zero {A} (s : list A) : len s = 0 <-> s = [].
Proof. unfold len. by destruct s. Qed.

Lemma len_cons {A} (x : A) s : len (x :: s) = 1 + len s.
Proof. unfold len. simpl length. lia. Qed.

Lemma len_CRLF : len CRLF = 2.
Proof. done. Qed.

Lemma to_nat_len {A} (s : list A) : Z.to_nat (len s) = length s.
Proof. unfold len. lia. Qed.

#[export] Hint Rewrite @len_app @len_nil @len_cons len_CRLF @to_nat_len : slices.
#[export] Hint Resolve len_nonneg : petra.

Lemma slice_ok_app_l s t : slice_ok (s ++ t) -> slice_ok s.
Proof. unfold slice_ok. rewrite len_app. pose proof (len_nonneg t). lia. Qed.

#[export] Hint Resolve slice_ok_app_l : petra.

Lemma usize_add_ok pf a b : a + b <= u64_max -> usize_add pf a b = Ret (a + b).
Proof. intros H. unfold usize_add. by rewrite (proj2 (Z.leb_le _ _) H). Qed.

Lemma usize_add_inv pf a b c :
  usize_add pf a b = Ret c ->
  (a + b <= u64_max /\ c = a + b) \/
  (pf = Release /\ u64_max < a + b /\ c = wrap64 (a + b)).
Proof.
  unfold usize_add. zcase; intros; outcome_inv; [by left|].
  right. by destruct pf; outcome_inv.
Qed.

Lemma usize_add_debug a b : u64_max < a + b -> usize_add Debug a b = Panic.
Proof. intros H. unfold usize_add. by rewrite (proj2 (Z.leb_gt _ _) H). Qed.

Lemma usize_add_wraps a b :
  u64_max < a + b -> usize_add Release a b = Ret (wrap64 (a + b)).
Proof. intros H. unfold usize_add. by rewrite (proj2 (Z.leb_gt _ _) H). Qed.

(** An addition of two [usize] values wraps at most once. *)
Lemma wrap64_sub z : 2 ^ 64 <= z < 2 * 2 ^ 64 -> wrap64 z = z - 2 ^ 64.
Proof.
  intros Hz. unfold wrap64. symmetry. apply (Z.mod_unique _ _ 1); lia.
Qed.

Lemma slice_get_lookup s i :
  0 <= i -> slice_get s i = s !! Z.to_nat i.
Proof.
  intros Hi. unfold slice_get, len.
  destruct (Z.ltb_spec i (Z.of_nat (length s))); destruct (Z.leb_spec 0 i);
    simpl; try lia; [done|].
  symmetry. apply lookup_ge_None. lia.
Qed.

Lemma slice_index_inv s i b :
  slice_index s i = Ret b -> 0 <= i < len s /\ s !! Z.to_nat i = Some b.
Proof.
  unfold slice_index, slice_get. intros H.
  destruct (_ && _) eqn:E; [|discriminate]. zbool.
  destruct (s !! _) eqn:E'; outcome_inv. auto.
Qed.

Lemma slice_index_app s t i :
  0 <= i -> slice_index (s ++ t) (len s + i) = slice_index t i.
Proof.
  intros Hi. unfold slice_index. pose proof (len_nonneg s).
  rewrite !slice_get_lookup by lia. unfold len.
  rewrite lookup_app_r by lia.
  by replace (_ - length s)%nat with (Z.to_nat i) by lia.
Qed.

Lemma slice_index_panic s i : len s <= i -> slice_index s i = Panic.
Proof.
  intros H. unfold slice_index, slice_get.
  by rewrite (proj2 (Z.ltb_ge _ _) H), andb_false_r.
Qed.

Lemma slice_range_panic s a b : b < a -> slice_range s a b = Panic.
Proof.
  intros H. unfold slice_range.
  by rewrite (proj2 (Z.leb_gt _ _) H), andb_false_r.
Qed.

Lemma slice_range_ok s a b :
  0 <= a <= b -> b <= len s ->
  slice_range s a b = Ret (take (Z.to_nat (b - a)) (drop (Z.to_nat a) s)).
Proof.
  intros [] ?. unfold slice_range.
  by rewrite (proj2 (Z.leb_le 0 a)), (proj2 (Z.leb_le a b)),
    (proj2 (Z.leb_le b (len s))).
Qed.

Lemma slice_to_app s t : slice_to (s ++ t) (len s) = Ret s.
Proof.
  unfold slice_to. pose proof (len_nonneg s). pose proof (len_nonneg t).
  rewrite slice_range_ok by (rewrite ?len_app; lia).
  rewrite Z.sub_0_r, to_nat_len, drop_0. by rewrite take_app_length.
Qed.

Lemma slice_range_app s t n :
  0 <= n <= len t ->
  slice_range (s ++ t) (len s) (len s + n) = Ret (take (Z.to_nat n) t).
Proof.
  intros Hn. pose proof (len_nonneg s).
  rewrite slice_range_ok by (rewrite ?len_app; lia).
  rewrite to_nat_len, drop_app_length. do 3 f_equal. lia.
Qed.

(** ** Splitting *)

Lemma slice_split_nonempty sep s : slice_split sep s <> [].
Proof. destruct s as [|b s]; simpl; repeat case_match; done. Qed.

(** The parts are separator-free, and joining them gives the slice back. *)
Fixpoint join (sep : byte) (ps : list bytes) : bytes :=
  match ps with
  | [] => []
  | [p] => p
  | p :: ps' => p ++ sep :: join sep ps'
  end.

Lemma join_slice_split sep s : join sep (slice_split sep s) = s.
Proof.
  induction s as [|b s IH]; simpl; [done|].
  pose proof (slice_split_nonempty sep s).
  case_bool_decide; destruct (slice_split sep s) as [|p ps]; simpl in *; try done.
  - by rewrite IH; subst.
  - rewrite <- IH. by destruct ps.
Qed.

Lemma slice_split_no_sep sep p : sep ∉ p -> slice_split sep p = [p].
Proof.
  induction p as [|b p IH]; intros Hp; simpl; [done|].
  apply not_elem_of_cons in Hp as [? Hp].
  rewrite bool_decide_false by done. by rewrite IH.
Qed.

Lemma slice_split_cons sep p s :
  sep ∉ p -> slice_split sep (p ++ sep :: s) = p :: slice_split sep s.
Proof.
  induction p as [|b p IH]; intros Hp; simpl.
  - by rewrite bool_decide_true.
  - apply not_elem_of_cons in Hp as [? Hp].
    rewrite bool_decide_false by done. by rewrite IH.
Qed.

Lemma slice_split_elem sep s p b :
  p ∈ slice_split sep s -> b ∈ p -> b ∈ s.
Proof.
  revert p. induction s as [|c s IH]; intros p Hp Hb; simpl in *.
  - apply list_elem_of_singleton in Hp. by subst.
  - pose proof (slice_split_nonempty sep s). case_bool_decide.
    + apply elem_of_cons in Hp as [->|Hp]; [by apply elem_of_nil in Hb|].
      right. eauto.
    + destruct (slice_split sep s) as [|q qs] eqn:E; [done|].
      apply elem_of_cons in Hp as [->|Hp].
      * apply elem_of_cons in Hb as [->|Hb]; [by left|].
        right. eapply IH; [by left|done].
      * right. eapply IH; [by right|done].
Qed.
