(* ===== verification/RustStd.v ===== *)
(** * The Rust standard library, as far as the server uses it

    ASCII case folding, decimal parsing and printing of unsigned integers,
    UTF-8 validation ([std::str::from_utf8]), lossy conversion
    ([String::from_utf8_lossy]), [str::trim] and [str::split_whitespace].
    A [str] is the list of its UTF-8 bytes. *)

From S2P Require Import Prelude.
#[local] Open Scope petra_scope.

(** ** ASCII *)

Definition in_range (lo hi : Z) (b : byte) : bool :=
  (lo <=? u8 b) && (u8 b <=? hi).

(** [u8::to_ascii_lowercase]: 'A'..='Z' move up by 32. *)
Definition to_ascii_lowercase (b : byte) : byte :=
  if in_range 65 90 b then to_u8 (u8 b + 32) else b.

(** ** Decimal numbers *)

Definition is_digit (b : byte) : bool := in_range 48 57 b.
Definition digit_value (b : byte) : Z := u8 b - 48.
Definition digit (d : Z) : byte := to_u8 (48 + d).

(** The digit loop of [from_str_radix(_, 10)] for an unsigned type with
    maximum [max]: a checked multiplication, the digit test, a checked
    addition. *)
Fixpoint parse_digits (max acc : Z) (s : bytes) : option Z :=
  match s with
  | [] => Some acc
  | b :: s' =>
      if acc * 10 <=? max then
        if is_digit b then
          if acc * 10 + digit_value b <=? max
          then parse_digits max (acc * 10 + digit_value b) s'
          else None
        else None
      else None
  end.

(** [s.parse::<uN>().ok()]: empty strings and a lone sign are rejected, one
    leading '+' is accepted. *)
Definition parse_unsigned (max : Z) (s : bytes) : option Z :=
  match s with
  | [] => None
  | [b] => if bool_decide (b = x2b) || bool_decide (b = x2d) then None
           else parse_digits max 0 s
  | b :: s' => if bool_decide (b = x2b) then parse_digits max 0 s'
               else parse_digits max 0 s
  end.

(** [n.to_string()] for [n] of at most 20 digits, the length of
    [u64::MAX]. *)
Fixpoint dec_digits (fuel : nat) (n : Z) : bytes :=
  match fuel with
  | O => []
  | S fuel' =>
      if n <? 10 then [digit n]
      else dec_digits fuel' (n / 10) ++ [digit (n mod 10)]
  end.

Definition dec (n : Z) : bytes := dec_digits 20 n.

(** ** UTF-8 *)

Definition is_cont (b : byte) : bool := in_range 128 191 b.

(** What the decoder finds at the front of a slice: a character of [n]
    bytes, or an ill-formed sequence of [n] bytes to be replaced as one. *)
Inductive utf8_chunk := Char (n : nat) | Bad (n : nat).

(** The second byte allowed after a three- or four-byte lead. *)
Definition second_ok (b0 b1 : byte) : bool :=
  if u8 b0 =? 224 then in_range 160 191 b1
  else if u8 b0 =? 237 then in_range 128 159 b1
  else if u8 b0 =? 240 then in_range 144 191 b1
  else if u8 b0 =? 244 then in_range 128 143 b1
  else is_cont b1.

Definition utf8_step (b0 : byte) (s : bytes) : utf8_chunk :=
  if u8 b0 <? 128 then Char 1
  else if in_range 194 223 b0 then
    match s with
    | b1 :: _ => if is_cont b1 then Char 2 else Bad 1
    | [] => Bad 1
    end
  else if in_range 224 239 b0 then
    match s with
    | b1 :: s1 =>
        if second_ok b0 b1 then
          match s1 with
          | b2 :: _ => if is_cont b2 then Char 3 else Bad 2
          | [] => Bad 2
          end
        else Bad 1
    | [] => Bad 1
    end
  else if in_range 240 244 b0 then
    match s with
    | b1 :: s1 =>
        if second_ok b0 b1 then
          match s1 with
          | b2 :: s2 =>
              if is_cont b2 then
                match s2 with
                | b3 :: _ => if is_cont b3 then Char 4 else Bad 3
                | [] => Bad 3
                end
              else Bad 2
          | [] => Bad 2
          end
        else Bad 1
    | [] => Bad 1
    end
  else Bad 1.

(** The chunks of a slice; the fuel is its length, and each chunk takes at
    least one byte. *)
Fixpoint utf8_chunks (fuel : nat) (s : bytes) : list (bool * bytes) :=
  match fuel, s with
  | S fuel', b0 :: s' =>
      match utf8_step b0 s' with
      | Char n => (true, take n s) :: utf8_chunks fuel' (drop n s)
      | Bad n => (false, take n s) :: utf8_chunks fuel' (drop n s)
      end
  | _, _ => []
  end.

(** U+FFFD REPLACEMENT CHARACTER. *)
Definition replacement : bytes := [xef; xbf; xbd].

Definition from_utf8_lossy (s : bytes) : bytes :=
  concat (map (fun c : bool * bytes => if fst c then snd c else replacement)
              (utf8_chunks (length s) s)).

Definition utf8_valid (s : bytes) : bool :=
  forallb fst (utf8_chunks (length s) s).

(** [std::str::from_utf8(s).ok()]. *)
Definition from_utf8 (s : bytes) : option bytes :=
  if utf8_valid s then Some s else None.

(** ** White space

    The UTF-8 encodings of the characters with the White_Space property. *)
Definition char_is_whitespace (c : bytes) : bool :=
  match c with
  | [b] => in_range 9 13 b || bool_decide (b = SP)
  | [b0; b1] => bool_decide (b0 = xc2) && (bool_decide (b1 = x85) || bool_decide (b1 = xa0))
  | [b0; b1; b2] =>
      (bool_decide (b0 = xe1) && bool_decide (b1 = x9a) && bool_decide (b2 = x80))
      || (bool_decide (b0 = xe2) && bool_decide (b1 = x80)
          && (in_range 128 138 b2 || in_range 168 169 b2 || bool_decide (b2 = xaf)))
      || (bool_decide (b0 = xe2) && bool_decide (b1 = x81) && bool_decide (b2 = x9f))
      || (bool_decide (b0 = xe3) && bool_decide (b1 = x80) && bool_decide (b2 = x80))
  | _ => false
  end.

Definition str_chars (s : bytes) : list bytes :=
  map snd (utf8_chunks (length s) s).

Fixpoint skip_whitespace (cs : list bytes) : list bytes :=
  match cs with
  | c :: cs' => if char_is_whitespace c then skip_whitespace cs' else cs
  | [] => []
  end.

(** [s.trim()]. *)
Definition str_trim (s : bytes) : bytes :=
  concat (rev (skip_whitespace (rev (skip_whitespace (str_chars s))))).

(** [s.split_whitespace().collect()]: the maximal runs of other characters. *)
Fixpoint split_ws (cur : bytes) (cs : list bytes) : list bytes :=
  match cs with
  | [] => match cur with [] => [] | _ => [cur] end
  | c :: cs' =>
      if char_is_whitespace c
      then match cur with
           | [] => split_ws [] cs'
           | _ => cur :: split_ws [] cs'
           end
      else split_ws (cur ++ c) cs'
  end.

Definition split_whitespace (s : bytes) : list bytes :=
  split_ws [] (str_chars s).

(** ** Decimal numbers: facts *)

(** The number a digit string denotes, read after [acc]. *)
Definition digits_value (acc : Z) (s : bytes) : Z :=
  fold_left (fun a b => a * 10 + digit_value b) s acc.

Lemma is_digit_range b : is_digit b = true <-> 0 <= digit_value b <= 9.
Proof.
  unfold is_digit, in_range, digit_value.
  rewrite andb_true_iff, !Z.leb_le. lia.
Qed.

Lemma digits_value_ge acc s :
  0 <= acc -> Forall (fun b => is_digit b = true) s -> acc <= digits_value acc s.
Proof.
  intros Hacc Hs. revert acc Hacc. induction Hs as [|b s Hb _ IH]; intros; cbn.
  - lia.
  - apply is_digit_range in Hb. unfold digits_value in IH.
    specialize (IH (acc * 10 + digit_value b)). lia.
Qed.

Lemma parse_digits_spec max acc s v :
  0 <= acc <= max ->
  parse_digits max acc s = Some v <->
  Forall (fun b => is_digit b = true) s /\ v = digits_value acc s /\ v <= max.
Proof.
  revert acc. induction s as [|b s IH]; intros acc Hacc; cbn.
  - split; [intros [= <-]; split_and!; auto with lia|by intros (_ & -> & _)].
  - rewrite Forall_cons. split.
    + repeat case_match; intros Hp; try discriminate Hp. zbool.
      pose proof (proj1 (is_digit_range b) ltac:(done)).
      apply IH in Hp as (? & ? & ?); [|lia]. eauto.
    + intros ([Hb Hs] & -> & Hmax). rewrite Hb.
      pose proof (proj1 (is_digit_range b) Hb).
      pose proof (digits_value_ge (acc * 10 + digit_value b) s ltac:(lia) Hs).
      unfold digits_value in *. rewrite !(proj2 (Z.leb_le _ max)) by lia.
      by apply IH; [lia|].
Qed.

Lemma u8_digit d : 0 <= d <= 9 -> u8 (digit d) = 48 + d.
Proof. intros. unfold digit. rewrite u8_to_u8, Z.mod_small; lia. Qed.

Lemma digit_value_digit d : 0 <= d <= 9 -> digit_value (digit d) = d.
Proof. intros. unfold digit_value. rewrite u8_digit by lia. lia. Qed.

Lemma is_digit_digit d : 0 <= d <= 9 -> is_digit (digit d) = true.
Proof. intros. apply is_digit_range. rewrite digit_value_digit; lia. Qed.

Lemma dec_digits_all_digits fuel n :
  0 <= n -> Forall (fun b => is_digit b = true) (dec_digits fuel n).
Proof.
  revert n. induction fuel as [|fuel IH]; intros n Hn; cbn; [constructor|].
  zcase.
  - repeat constructor. apply is_digit_digit. lia.
  - apply Forall_app. split; [apply IH; apply Z.div_pos; lia|].
    repeat constructor. apply is_digit_digit.
    pose proof (Z.mod_pos_bound n 10). lia.
Qed.

Lemma dec_digits_value fuel n :
  0 <= n < 10 ^ Z.of_nat fuel -> digits_value 0 (dec_digits fuel n) = n.
Proof.
  revert n. induction fuel as [|fuel IH]; intros n Hn; cbn -[Z.pow] in *.
  - change (10 ^ 0) with 1 in Hn. lia.
  - zcase; unfold digits_value.
    + cbn. rewrite digit_value_digit; lia.
    + rewrite fold_left_app. cbn. fold (digits_value 0 (dec_digits fuel (n / 10))).
      rewrite Nat2Z.inj_succ, Z.pow_succ_r in Hn by lia.
      rewrite IH; [|split; [apply Z.div_pos|apply Z.div_lt_upper_bound]; lia].
      pose proof (Z.mod_pos_bound n 10). rewrite digit_value_digit by lia.
      pose proof (Z.div_mod n 10). lia.
Qed.

Lemma dec_digits_nonempty fuel n : dec_digits (S fuel) n <> [].
Proof. cbn. case_match; [done|]. by destruct (dec_digits _ _). Qed.

Lemma dec_all_digits n :
  0 <= n -> Forall (fun b => is_digit b = true) (dec n).
Proof. apply dec_digits_all_digits. Qed.

Lemma dec_value n : 0 <= n <= u64_max -> digits_value 0 (dec n) = n.
Proof.
  intros H. apply dec_digits_value. change (10 ^ Z.of_nat 20) with 100000000000000000000.
  unfold u64_max in H. lia.
Qed.

Lemma dec_nonempty n : dec n <> [].
Proof. apply (dec_digits_nonempty 19). Qed.

Lemma digit_not_sign b : is_digit b = true -> b <> x2b /\ b <> x2d.
Proof. intros Hb. split; intros ->; discriminate Hb. Qed.

(** A printed number parses back to itself. *)
Lemma parse_unsigned_dec max n :
  0 <= n <= max -> max <= u64_max -> parse_unsigned max (dec n) = Some n.
Proof.
  intros Hn Hmax. pose proof (dec_nonempty n). pose proof (dec_all_digits n ltac:(lia)).
  assert (Hp : parse_digits max 0 (dec n) = Some n).
  { apply parse_digits_spec; [lia|]. rewrite dec_value by lia. split_and!; auto; lia. }
  destruct (dec n) as [|b [|b' s]]; [done| |];
    apply Forall_cons in H0 as [[? ?]%digit_not_sign _]; simpl;
    by rewrite !bool_decide_false.
Qed.

Lemma parse_unsigned_spec max s v :
  0 <= max ->
  parse_unsigned max s = Some v <->
  exists ds, ds <> [] /\ (s = ds \/ s = x2b :: ds) /\
    Forall (fun b => is_digit b = true) ds /\ v = digits_value 0 ds /\ v <= max.
Proof.
  intros Hmax. split.
  - intros Hp.
    assert (exists ds, ds <> [] /\ (s = ds \/ s = x2b :: ds) /\
      parse_digits max 0 ds = Some v) as (ds & ? & ? & Hd).
    { destruct s as [|b [|b' s]]; [discriminate| |]; cbn [parse_unsigned] in Hp.
      - destruct (_ || _); [discriminate|]. exists [b]; auto.
      - case_bool_decide; [subst; exists (b' :: s)|exists (b :: b' :: s)]; auto. }
    apply parse_digits_spec in Hd; [|lia]. eauto 10.
  - intros (ds & Hne & Hs & Hd). apply parse_digits_spec in Hd as Hp; [|lia].
    destruct Hd as [Hd _]. destruct ds as [|b ds]; [done|].
    apply Forall_cons in Hd as [[? ?]%digit_not_sign _].
    destruct Hs as [->| ->]; cbn [parse_unsigned].
    + destruct ds; by rewrite !bool_decide_false.
    + by rewrite bool_decide_true.
Qed.

Lemma parse_unsigned_range max s v :
  0 <= max -> parse_unsigned max s = Some v -> 0 <= v <= max.
Proof.
  intros Hmax (ds & _ & _ & Hd & -> & Hv)%parse_unsigned_spec; [|done].
  pose proof (digits_value_ge 0 ds). auto with lia.
Qed.

Lemma digits_no_byte b s :
  is_digit b = false -> Forall (fun b => is_digit b = true) s -> b ∉ s.
Proof.
  intros Hb Hs Hin. rewrite Forall_forall in Hs. specialize (Hs b Hin). congruence.
Qed.

(** ** UTF-8: facts *)

Ltac utf8_cases :=
  repeat match goal with
  | H : context [match ?s with [] => _ | _ :: _ => _ end] |- _ =>
      is_var s; destruct s
  | H : context [if ?c then _ else _] |- _ => destruct c eqn:?
  end; try discriminate; simplify_eq.

Lemma utf8_step_char b0 s n :
  utf8_step b0 s = Char n -> (1 <= n <= S (length s))%nat.
Proof. unfold utf8_step. intros. utf8_cases; simpl; lia. Qed.

Lemma utf8_step_bad b0 s n :
  utf8_step b0 s = Bad n -> (1 <= n <= S (length s))%nat.
Proof. unfold utf8_step. intros. utf8_cases; simpl; lia. Qed.

(** Whether a character starts a slice depends on its own bytes only. *)
Lemma utf8_step_app b0 s n t :
  utf8_step b0 s = Char n -> utf8_step b0 (take (n - 1) s ++ t) = Char n.
Proof.
  unfold utf8_step. intros. utf8_cases; simpl;
    repeat match goal with H : ?c = _ |- context [?c] => rewrite H end; done.
Qed.

Lemma utf8_chunks_fuel fuel s :
  (length s <= fuel)%nat -> utf8_chunks fuel s = utf8_chunks (length s) s.
Proof.
  revert s. induction fuel as [fuel IH] using lt_wf_ind. intros [|b s] Hf.
  - by destruct fuel.
  - destruct fuel as [|fuel]; cbn [length] in Hf; [lia|]. cbn [utf8_chunks length].
    destruct (utf8_step b s) as [n|n] eqn:E;
      (apply utf8_step_char in E || apply utf8_step_bad in E);
      f_equal; rewrite (IH fuel), (IH (length s)); rewrite ?length_drop;
      cbn [length]; auto; lia.
Qed.

(** The chunks of a slice, with enough fuel. *)
Lemma utf8_chunks_cons b s fuel :
  (length s <= fuel)%nat ->
  utf8_chunks (S fuel) (b :: s) =
  match utf8_step b s with
  | Char n => (true, take n (b :: s)) ::
      utf8_chunks (length (drop n (b :: s))) (drop n (b :: s))
  | Bad n => (false, take n (b :: s)) ::
      utf8_chunks (length (drop n (b :: s))) (drop n (b :: s))
  end.
Proof.
  intros Hf. cbn [utf8_chunks].
  destruct (utf8_step b s) as [n|n] eqn:E;
    (apply utf8_step_char in E || apply utf8_step_bad in E);
    f_equal; apply utf8_chunks_fuel; rewrite length_drop; cbn [length]; lia.
Qed.

(** Induction on the chunks of a slice. *)
Lemma utf8_ind (P : bytes -> Prop) :
  P [] ->
  (forall b s n, utf8_step b s = Char n -> P (drop n (b :: s)) -> P (b :: s)) ->
  (forall b s n, utf8_step b s = Bad n -> P (drop n (b :: s)) -> P (b :: s)) ->
  forall s, P s.
Proof.
  intros Hnil Hc Hb s. induction s as [s IH] using (induction_ltof1 _ (@length _)).
  unfold ltof in IH. destruct s as [|b s]; [done|].
  destruct (utf8_step b s) as [n|n] eqn:E; [eapply Hc|eapply Hb]; eauto;
    (apply utf8_step_char in E || apply utf8_step_bad in E);
    apply IH; rewrite length_drop; cbn [length]; lia.
Qed.

Ltac utf8_unfold E :=
  cbn [length]; rewrite utf8_chunks_cons by lia; rewrite E.

(** Nothing is lost or reordered by the chunking. *)
Lemma utf8_chunks_concat s :
  concat (map snd (utf8_chunks (length s) s)) = s.
Proof.
  induction s as [|b s n E IH|b s n E IH] using utf8_ind; [done| |];
    utf8_unfold E; cbn [map concat snd]; rewrite IH; apply take_drop.
Qed.

Lemma from_utf8_lossy_cons_char b s n :
  utf8_step b s = Char n ->
  from_utf8_lossy (b :: s) =
  take n (b :: s) ++ from_utf8_lossy (drop n (b :: s)).
Proof. intros E. unfold from_utf8_lossy. by utf8_unfold E. Qed.

Lemma from_utf8_lossy_cons_bad b s n :
  utf8_step b s = Bad n ->
  from_utf8_lossy (b :: s) = replacement ++ from_utf8_lossy (drop n (b :: s)).
Proof. intros E. unfold from_utf8_lossy. by utf8_unfold E. Qed.

Lemma utf8_valid_cons_char b s n :
  utf8_step b s = Char n -> utf8_valid (b :: s) = utf8_valid (drop n (b :: s)).
Proof. intros E. unfold utf8_valid. by utf8_unfold E. Qed.

Lemma utf8_valid_cons_bad b s n :
  utf8_step b s = Bad n -> utf8_valid (b :: s) = false.
Proof. intros E. unfold utf8_valid. by utf8_unfold E. Qed.

(** A character in front of a slice keeps its validity. *)
Lemma utf8_valid_app_char b s n t :
  utf8_step b s = Char n -> utf8_valid (take n (b :: s) ++ t) = utf8_valid t.
Proof.
  intros E. pose proof (utf8_step_char _ _ _ E).
  apply (utf8_step_app _ _ _ t) in E. destruct n as [|n]; [lia|].
  cbn [take app]. replace (S n - 1)%nat with n in E by lia.
  rewrite (utf8_valid_cons_char _ _ _ E). cbn [drop].
  by rewrite drop_app_length' by (rewrite length_take; lia).
Qed.

(** [from_utf8_lossy] changes nothing in well-formed input and always
    produces well-formed output. *)
Lemma from_utf8_lossy_id s : utf8_valid s = true -> from_utf8_lossy s = s.
Proof.
  induction s as [|b s n E IH|b s n E IH] using utf8_ind; [done| |]; intros Hv.
  - rewrite (utf8_valid_cons_char _ _ _ E) in Hv.
    rewrite (from_utf8_lossy_cons_char _ _ _ E), IH by done. apply take_drop.
  - by rewrite (utf8_valid_cons_bad _ _ _ E) in Hv.
Qed.

Lemma from_utf8_lossy_is_valid s : utf8_valid (from_utf8_lossy s) = true.
Proof.
  induction s as [|b s n E IH|b s n E IH] using utf8_ind; [done| |].
  - by rewrite (from_utf8_lossy_cons_char _ _ _ E), (utf8_valid_app_char _ _ _ _ E).
  - rewrite (from_utf8_lossy_cons_bad _ _ _ E).
    change replacement with (take 3 (xef :: [xbf; xbd])).
    by rewrite (utf8_valid_app_char xef [xbf; xbd] 3) by done.
Qed.

(** Every byte of the output comes from the input or from U+FFFD. *)
Lemma from_utf8_lossy_elem s b :
  b ∈ from_utf8_lossy s -> b ∈ s \/ b ∈ replacement.
Proof.
  induction s as [|c s n E IH|c s n E IH] using utf8_ind; [by left| |].
  - rewrite (from_utf8_lossy_cons_char _ _ _ E), elem_of_app.
    intros [H|[H|H]%IH]; [left|left|by right].
    + rewrite <- (take_drop n (c :: s)). set_solver.
    + rewrite <- (take_drop n (c :: s)). set_solver.
  - rewrite (from_utf8_lossy_cons_bad _ _ _ E), elem_of_app.
    intros [H|[H|H]%IH]; [by right|left|by right].
    rewrite <- (take_drop n (c :: s)). set_solver.
Qed.

Lemma utf8_valid_ascii s :
  Forall (fun b => u8 b < 128) s -> utf8_valid s = true.
Proof.
  induction 1 as [|b s Hb _ IH]; [done|].
  rewrite (utf8_valid_cons_char _ _ 1); [done|].
  unfold utf8_step. by rewrite (proj2 (Z.ltb_lt _ _) Hb).
Qed.

Lemma digits_utf8_valid s :
  Forall (fun b => is_digit b = true) s -> utf8_valid s = true.
Proof.
  intros Hs. apply utf8_valid_ascii. eapply Forall_impl; [done|].
  intros b Hb%is_digit_range. unfold digit_value in Hb. lia.
Qed.

Lemma str_chars_ascii s :
  Forall (fun b => u8 b < 128) s -> str_chars s = map (fun b => [b]) s.
Proof.
  induction 1 as [|b s Hb _ IH]; [done|]. unfold str_chars in *.
  assert (E : utf8_step b s = Char 1)
    by (unfold utf8_step; by rewrite (proj2 (Z.ltb_lt _ _) Hb)).
  utf8_unfold E. cbn [map snd]. change (drop 1 (b :: s)) with s. by rewrite IH.
Qed.

Lemma dec_no_byte n b : 0 <= n -> is_digit b = false -> b ∉ dec n.
Proof. intros. by eapply digits_no_byte, dec_all_digits. Qed.
