(* ===== verification/Extern.v ===== *)
(** * Interfaces of the third-party crates

    The code of these crates is not part of the repository.  Each interface
    is a class of operations, which the definitions of the server take as an
    argument, with a class of laws that states what the crate documents and
    the server relies on.  [Reference.v] shows that the laws can hold. *)

From Stdlib Require QArith.QArith_base Sorting.Sorted.
From S2P Require Import Prelude RustStd.

(** ** memchr *)

Class Memchr := memchr : byte -> bytes -> option Z.

(** "Search for the first occurrence of a byte in a slice." *)
Class MemchrSpec {M : Memchr} : Prop := {
  memchr_Some c s i :
    memchr c s = Some i ->
    0 <= i /\ s !! Z.to_nat i = Some c /\ c ∉ take (Z.to_nat i) s;
  memchr_None c s : memchr c s = None -> c ∉ s;
}.

(** ** itoa: [Buffer::format] prints an integer in decimal *)

Class Itoa := itoa_format : Z -> bytes.

Class ItoaSpec {I : Itoa} : Prop :=
  itoa_format_dec n : 0 <= n <= u64_max -> itoa_format n = dec n.

(** ** bytes: [BytesMut], a growable buffer

    [bm_bytes] is the slice it dereferences to; [bm_split_to] removes and
    returns the first bytes, [None] standing for its panic. *)

Class BytesMut (B : Type) := {
  bm_with_capacity : Z -> B;
  bm_default : B;
  bm_bytes : B -> bytes;
  bm_extend_from_slice : B -> bytes -> B;
  bm_clear : B -> B;
  bm_is_empty : B -> bool;
  bm_split_to : B -> Z -> option (B * B);
}.

Class BytesMutSpec (B : Type) {M : BytesMut B} : Prop := {
  bm_bytes_with_capacity n : bm_bytes (bm_with_capacity (B := B) n) = [];
  bm_bytes_default : bm_bytes (bm_default (B := B)) = [];
  bm_bytes_extend (b : B) s : bm_bytes (bm_extend_from_slice b s) = bm_bytes b ++ s;
  bm_bytes_clear (b : B) : bm_bytes (bm_clear b) = [];
  bm_is_empty_spec (b : B) : bm_is_empty b = bool_decide (bm_bytes b = []);
  bm_split_to_ok (b : B) s t :
    bm_bytes b = s ++ t ->
    exists front rest, bm_split_to b (len s) = Some (front, rest) /\
      bm_bytes front = s /\ bm_bytes rest = t;
}.

(** ** rust-rocksdb

    Every call takes the database and returns it: a read may fill caches.
    [WO] is the type of write options. *)

Inductive CompactionDecision := Keep | Remove.

#[export] Instance CompactionDecision_eq_dec : EqDecision CompactionDecision.
Proof. solve_decision. Defined.

(** A compaction filter with the state [S] it reads and updates: the level,
    the key and the value of an entry to a decision. *)
Definition CompactionFilter (S : Type) : Type :=
  S -> Z -> bytes -> bytes -> S * CompactionDecision.

(** The state after the filter has been called on some entries in turn. *)
Definition run_filter {S} (g : CompactionFilter S) (s : S)
    (calls : list (Z * bytes * bytes)) : S :=
  fold_left (fun s '(lvl, k, v) => fst (g s lvl k v)) calls s.

Class RocksDB (DB WO E : Type) := {
  wo_default : WO;
  wo_disable_wal : WO -> bool -> WO;
  db_get : DB -> bytes -> DB * result (option bytes) E;
  db_multi_get : DB -> list bytes -> DB * list (result (option bytes) E);
  db_put_opt : DB -> bytes -> bytes -> WO -> DB * result unit E;
  db_delete_opt : DB -> bytes -> WO -> DB * result unit E;
  db_compact_range {S} : option (CompactionFilter S) -> S -> DB -> S * DB;
  db_property_int_value : DB -> bytes -> result (option Z) E;
  db_error_display : E -> bytes;
}.

(** [db_view] is the content of the database.  Reads return it and leave it
    alone; a successful write changes the one key, a failed one has either
    taken effect or not; a compaction calls its filter on some entries and
    removes only entries for which the filter has answered [Remove]. *)
Class RocksDBSpec (DB WO E : Type) {R : RocksDB DB WO E} := {
  db_view : DB -> gmap bytes bytes;
  db_get_view (d : DB) k d' r :
    db_get d k = (d', r) ->
    db_view d' = db_view d /\ (forall v, r = Ok v -> v = db_view d !! k);
  db_multi_get_view (d : DB) ks d' rs :
    db_multi_get d ks = (d', rs) ->
    db_view d' = db_view d /\
    Forall2 (fun k r => forall v, r = Ok v -> v = db_view d !! k) ks rs;
  db_put_view (d : DB) k v w d' r :
    db_put_opt d k v w = (d', r) ->
    db_view d' = <[k := v]> (db_view d) \/ (db_view d' = db_view d /\ r <> Ok tt);
  db_delete_view (d : DB) k w d' r :
    db_delete_opt d k w = (d', r) ->
    db_view d' = delete k (db_view d) \/ (db_view d' = db_view d /\ r <> Ok tt);
  db_compact_none {S} (s : S) (d : DB) s' d' :
    db_compact_range None s d = (s', d') -> s' = s /\ db_view d' = db_view d;
  db_compact_view {S} (g : CompactionFilter S) s s' (d d' : DB) :
    db_compact_range (Some g) s d = (s', d') ->
    exists calls, s' = run_filter g s calls /\
    forall k, db_view d' !! k = db_view d !! k \/
      (db_view d' !! k = None /\ exists pre lvl v post,
         calls = pre ++ (lvl, k, v) :: post /\ db_view d !! k = Some v /\
         snd (g (run_filter g s pre) lvl k v) = Remove);
}.

(** ** prometheus

    A metric is created from its name and help text and registered once
    under its name; a counter is a 64-bit atomic, a gauge a signed one.
    Creation and registration answer [None] for their errors.
    [text_encode] is the text exposition of what a registry gathers, given
    the current state of the registered metrics. *)

Class Prometheus := {
  counter : Type;
  gauge : Type;
  histogram : Type;
  registry : Type;
  counter_new : bytes -> bytes -> option counter;
  counter_inc : counter -> counter;
  counter_inc_by : counter -> Z -> counter;
  gauge_new : bytes -> bytes -> option gauge;
  gauge_inc : gauge -> gauge;
  gauge_dec : gauge -> gauge;
  histogram_with_opts : bytes -> bytes -> list QArith_base.Q -> option histogram;
  registry_new : registry;
  registry_register : registry -> counter + gauge + histogram -> option registry;
  text_encode : registry -> list (counter + gauge + histogram) -> option bytes;
}.

(** The signed 64-bit integer of an integer. *)
Definition wrap_i64 (z : Z) : Z := (z + 2 ^ 63) mod 2 ^ 64 - 2 ^ 63.

(** Metric names match [a-zA-Z_:][a-zA-Z0-9_:]*. *)
Definition valid_metric_name (name : bytes) : bool :=
  let start b :=
    in_range 97 122 b || in_range 65 90 b || (u8 b =? 95) || (u8 b =? 58) in
  match name with
  | [] => false
  | b :: s => start b && forallb (fun b => start b || in_range 48 57 b) s
  end.

Class PrometheusSpec {P : Prometheus} := {
  counter_get : counter -> Z;
  gauge_get : gauge -> Z;
  metric_name : counter + gauge + histogram -> bytes;
  registered : registry -> list bytes;
  counter_new_ok name help :
    valid_metric_name name = true -> help <> [] ->
    exists c, counter_new name help = Some c /\ counter_get c = 0 /\
      metric_name (inl (inl c)) = name;
  gauge_new_ok name help :
    valid_metric_name name = true -> help <> [] ->
    exists g, gauge_new name help = Some g /\ gauge_get g = 0 /\
      metric_name (inl (inr g)) = name;
  histogram_with_opts_ok name help buckets :
    valid_metric_name name = true -> help <> [] -> Sorted.Sorted QArith_base.Qlt buckets ->
    exists h, histogram_with_opts name help buckets = Some h /\ metric_name (inr h) = name;
  registered_new : registered registry_new = [];
  registry_register_ok r m :
    metric_name m ∉ registered r ->
    exists r', registry_register r m = Some r' /\ registered r' = metric_name m :: registered r;
  registry_register_twice r m :
    metric_name m ∈ registered r -> registry_register r m = None;
  text_encode_ok r ms :
    Forall (fun m => metric_name m ∈ registered r) ms ->
    exists s, text_encode r ms = Some s /\ utf8_valid s = true;
  counter_inc_name c : metric_name (inl (inl (counter_inc c))) = metric_name (inl (inl c));
  counter_inc_by_name c n :
    metric_name (inl (inl (counter_inc_by c n))) = metric_name (inl (inl c));
  gauge_inc_name g : metric_name (inl (inr (gauge_inc g))) = metric_name (inl (inr g));
  gauge_dec_name g : metric_name (inl (inr (gauge_dec g))) = metric_name (inl (inr g));
  counter_inc_get c : counter_get (counter_inc c) = wrap64 (counter_get c + 1);
  counter_inc_by_get c n : counter_get (counter_inc_by c n) = wrap64 (counter_get c + n);
  gauge_inc_get g : gauge_get (gauge_inc g) = wrap_i64 (gauge_get g + 1);
  gauge_dec_get g : gauge_get (gauge_dec g) = wrap_i64 (gauge_get g - 1);
}.

(** ** tokio: the semaphore that bounds the connections

    [sem_new] panics ([None]) above [MAX_PERMITS]; [sem_try_acquire] is
    [try_acquire_owned]; [sem_release] is the drop of a permit. *)

Definition MAX_PERMITS : Z := u64_max / 8.

Class Semaphore (S : Type) := {
  sem_new : Z -> option S;
  sem_try_acquire : S -> option S;
  sem_release : S -> S;
}.

Class SemaphoreSpec (S : Type) {M : Semaphore S} := {
  sem_permits : S -> Z;
  sem_new_ok n :
    0 <= n <= MAX_PERMITS -> exists s, sem_new n = Some s /\ sem_permits s = n;
  sem_new_panic n : MAX_PERMITS < n -> sem_new n = None;
  sem_try_acquire_Some s s' :
    sem_try_acquire s = Some s' -> 0 < sem_permits s /\ sem_permits s' = sem_permits s - 1;
  sem_try_acquire_None s : sem_try_acquire s = None -> sem_permits s <= 0;
  sem_release_permits s : sem_permits (sem_release s) = sem_permits s + 1;
}.

(** ** tokio: the stream of a connection

    A read appends the bytes it received to the buffer, none at the end of
    the stream.  [write_all] either writes everything or fails, and then it
    may have written a part.  [stream_sent] and [stream_got] are the bytes
    that have gone out and come in so far. *)

Class TcpStream (T IO : Type) := {
  stream_read : T -> T * result bytes IO;
  stream_write_all : T -> bytes -> T * result unit IO;
}.

Class TcpStreamSpec (T IO : Type) {M : TcpStream T IO} := {
  stream_sent : T -> bytes;
  stream_got : T -> bytes;
  stream_read_sent t t' r : stream_read t = (t', r) -> stream_sent t' = stream_sent t;
  stream_write_sent t s t' r :
    stream_write_all t s = (t', r) ->
    exists part, stream_sent t' = stream_sent t ++ part /\ part `prefix_of` s /\
      (r = Ok tt -> part = s);
  stream_read_got t t' r :
    stream_read t = (t', r) ->
    stream_got t' = stream_got t ++ match r with Ok chunk => chunk | Err _ => [] end;
  stream_write_got t s t' r : stream_write_all t s = (t', r) -> stream_got t' = stream_got t;
}.
