(* ===== verification/Reference.v ===== *)
(** * Concrete instances of the interfaces of [Extern.v]

    They show that the laws are satisfiable and let concrete inputs be
    evaluated: a list for a buffer, a [gmap] with a failure switch for the
    database, a counter for the semaphore. *)

From S2P Require Import Prelude RustStd Extern.

(** ** Operations *)

Fixpoint ref_memchr_go (c : byte) (s : bytes) (i : Z) : option Z :=
  match s with
  | [] => None
  | b :: s' => if bool_decide (b = c) then Some i else ref_memchr_go c s' (i + 1)
  end.

#[export] Instance ref_memchr : Memchr := fun c s => ref_memchr_go c s 0.

#[export] Instance ref_itoa : Itoa := dec.

#[export] Instance ref_bytes_mut : BytesMut bytes := {|
  bm_with_capacity _ := [];
  bm_default := [];
  bm_bytes b := b;
  bm_extend_from_slice b s := b ++ s;
  bm_clear _ := [];
  bm_is_empty b := bool_decide (b = []);
  bm_split_to b n :=
    if n <=? len b then Some (take (Z.to_nat n) b, drop (Z.to_nat n) b) else None;
|}.

(** The content, and whether every call fails. *)
Record RefDB := { rd_map : gmap bytes bytes; rd_down : bool }.

Definition ref_read {A} (d : RefDB) (a : A) : result A bytes :=
  if rd_down d then Err (str "IO error") else Ok a.

Definition ref_write (d : RefDB) (m : gmap bytes bytes) : RefDB * result unit bytes :=
  if rd_down d then (d, Err (str "IO error"))
  else ({| rd_map := m; rd_down := false |}, Ok tt).

Definition ref_compact {S} (g : CompactionFilter S) (s : S) (m : gmap bytes bytes) :
    S * gmap bytes bytes :=
  fold_left (fun '(s, m') '(k, v) =>
      let '(s, d) := g s 0 k v in
      (s, match d with Remove => delete k m' | Keep => m' end))
    (map_to_list m) (s, m).

#[export] Instance ref_rocksdb : RocksDB RefDB bool bytes := {|
  wo_default := false;
  wo_disable_wal _ b := b;
  db_get d k := (d, ref_read d (rd_map d !! k));
  db_multi_get d ks := (d, map (fun k => ref_read d (rd_map d !! k)) ks);
  db_put_opt d k v _ := ref_write d (<[k := v]> (rd_map d));
  db_delete_opt d k _ := ref_write d (delete k (rd_map d));
  db_compact_range S f s d :=
    match f with
    | Some g =>
        let '(s, m) := ref_compact g s (rd_map d) in
        (s, {| rd_map := m; rd_down := rd_down d |})
    | None => (s, d)
    end;
  db_property_int_value d _ := Ok (Some (Z.of_nat (size (rd_map d))));
  db_error_display e := filter (fun b => b <> CR) e;
|}.

#[export] Instance ref_semaphore : Semaphore Z := {|
  sem_new n := if n <=? MAX_PERMITS then Some n else None;
  sem_try_acquire s := if 0 <? s then Some (s - 1) else None;
  sem_release s := s + 1;
|}.

(** A metric with its name; a histogram is its name. *)
Record RefMetric := { rm_name : bytes; rm_value : Z }.

Definition ref_metric_new (name help : bytes) : option RefMetric :=
  if valid_metric_name name && bool_decide (help <> [])
  then Some {| rm_name := name; rm_value := 0 |} else None.

Definition ref_metric_set (m : RefMetric) (v : Z) : RefMetric :=
  {| rm_name := rm_name m; rm_value := v |}.

Definition ref_metric_name (m : RefMetric + RefMetric + bytes) : bytes :=
  match m with
  | inl (inl m) | inl (inr m) => rm_name m
  | inr name => name
  end.

#[export] Instance ref_prometheus : Prometheus := {|
  counter := RefMetric;
  gauge := RefMetric;
  histogram := bytes;
  registry := list bytes;
  counter_new := ref_metric_new;
  counter_inc c := ref_metric_set c (wrap64 (rm_value c + 1));
  counter_inc_by c n := ref_metric_set c (wrap64 (rm_value c + n));
  gauge_new := ref_metric_new;
  gauge_inc g := ref_metric_set g (wrap_i64 (rm_value g + 1));
  gauge_dec g := ref_metric_set g (wrap_i64 (rm_value g - 1));
  histogram_with_opts name help _ := fmap rm_name (ref_metric_new name help);
  registry_new := [];
  registry_register r m :=
    if bool_decide (ref_metric_name m ∈ r) then None else Some (ref_metric_name m :: r);
  text_encode r ms := Some (str "# metrics" ++ [LF]);
|}.

(** A stream: the chunks still to be received, the bytes received and sent,
    and how many more writes succeed. *)
Record RefStream := {
  rs_input : list bytes; rs_got : bytes; rs_sent : bytes; rs_writes : nat
}.

#[export] Instance ref_stream : TcpStream RefStream bytes := {|
  stream_read t :=
    match rs_input t with
    | [] => (t, Ok [])
    | c :: cs => ({| rs_input := cs; rs_got := rs_got t ++ c; rs_sent := rs_sent t;
                     rs_writes := rs_writes t |}, Ok c)
    end;
  stream_write_all t s :=
    match rs_writes t with
    | O => (t, Err (str "broken pipe"))
    | S n => ({| rs_input := rs_input t; rs_got := rs_got t; rs_sent := rs_sent t ++ s;
                rs_writes := n |}, Ok tt)
    end;
|}.

(** ** Laws *)

Lemma ref_memchr_go_Some c s i j :
  ref_memchr_go c s i = Some j ->
  i <= j /\ s !! Z.to_nat (j - i) = Some c /\ c ∉ take (Z.to_nat (j - i)) s.
Proof.
  revert i. induction s as [|b s IH]; intros i; cbn; [done|].
  case_bool_decide; intros Hj.
  - simplify_eq. rewrite Z.sub_diag. split_and!; [lia|done|set_solver].
  - apply IH in Hj as (Hle & Hl & Hn).
    replace (Z.to_nat (j - i)) with (S (Z.to_nat (j - (i + 1)))) by lia.
    split_and!; [lia|done|]. cbn. apply not_elem_of_cons. by split.
Qed.

Lemma ref_memchr_go_None c s i : ref_memchr_go c s i = None -> c ∉ s.
Proof.
  revert i. induction s as [|b s IH]; intros i; cbn; [set_solver|].
  case_bool_decide; [done|]. intros ?%IH. apply not_elem_of_cons. by split.
Qed.

#[export] Instance ref_memchr_spec : MemchrSpec.
Proof.
  split.
  - intros c s i H%ref_memchr_go_Some. by rewrite Z.sub_0_r in H.
  - intros c s H. by eapply ref_memchr_go_None.
Qed.

#[export] Instance ref_itoa_spec : ItoaSpec.
Proof. done. Qed.

#[export] Instance ref_bytes_mut_spec : BytesMutSpec bytes.
Proof.
  split; try done. intros b s t H. cbn in *. subst.
  exists s, t. rewrite len_app, to_nat_len. pose proof (len_nonneg t).
  by rewrite (proj2 (Z.leb_le _ _)), take_app_length, drop_app_length by lia.
Qed.

Lemma ref_write_view d m d' r :
  ref_write d m = (d', r) -> rd_map d' = m \/ (rd_map d' = rd_map d /\ r <> Ok tt).
Proof. unfold ref_write. destruct (rd_down d); intros [= <- <-]; auto. Qed.

Definition ref_calls (l : list (bytes * bytes)) : list (Z * bytes * bytes) :=
  map (fun '(k, v) => (0, k, v)) l.

Lemma ref_compact_fold {S} (g : CompactionFilter S) (m : gmap bytes bytes) s0 l pre :
  (forall k v, (k, v) ∈ l -> m !! k = Some v) ->
  forall (m0 : gmap bytes bytes) s' (m' : gmap bytes bytes),
  fold_left (fun '(s, m') '(k, v) =>
      let '(s, d) := g s 0 k v in
      (s, match d with Remove => delete k m' | Keep => m' end)) l
    (run_filter g s0 (ref_calls pre), m0) = (s', m') ->
  s' = run_filter g s0 (ref_calls (pre ++ l)) /\
  forall k, m' !! k = m0 !! k \/
    (m' !! k = None /\ exists pre' v post, ref_calls (pre ++ l) = pre' ++ (0, k, v) :: post /\
       m !! k = Some v /\ snd (g (run_filter g s0 pre') 0 k v) = Remove).
Proof.
  revert pre. induction l as [|[k v] l IH]; intros pre Hl m0 s' m' Hc; cbn in Hc.
  - rewrite app_nil_r. simplify_eq. auto.
  - assert (Hrun : run_filter g s0 (ref_calls (pre ++ [(k, v)])) =
      fst (g (run_filter g s0 (ref_calls pre)) 0 k v)).
    { unfold run_filter, ref_calls. by rewrite map_app, fold_left_app. }
    destruct (g (run_filter g s0 (ref_calls pre)) 0 k v) as [s1 d] eqn:Eg.
    cbn in Hrun. rewrite <- Hrun in Hc. rewrite cons_middle, app_assoc.
    apply IH in Hc as [-> Hk]; [|intros; apply Hl; by right].
    split; [done|]. intros k'. destruct (Hk k') as [Hk'|]; [|by right].
    rewrite Hk'. destruct d; [by left|].
    destruct (decide (k' = k)) as [->|Hne]; [right|left; by rewrite lookup_delete_ne].
    rewrite lookup_delete_eq. split; [done|].
    exists (ref_calls pre), v, (ref_calls l). rewrite Eg. split_and!; [|apply Hl; by left|done].
    unfold ref_calls. by rewrite !map_app, <- app_assoc.
Qed.

#[export] Instance ref_rocksdb_spec : RocksDBSpec RefDB bool bytes.
Proof.
  refine {| db_view := rd_map |}.
  - cbn. unfold ref_read. intros d k d' r [= <- <-]. split; [done|].
    destruct (rd_down d); congruence.
  - cbn. unfold ref_read. intros d ks d' rs [= <- <-]. split; [done|].
    induction ks as [|k ks IH]; constructor; [|done]. destruct (rd_down d); congruence.
  - cbn. intros d k v w d' r. apply ref_write_view.
  - cbn. intros d k w d' r. apply ref_write_view.
  - cbn. intros S s d s' d' [= <- <-]. done.
  - cbn. intros S g s s' d d' Hc. unfold ref_compact in Hc.
    destruct (fold_left _ _ _) as [s1 m1] eqn:E. simplify_eq. cbn.
    exists (ref_calls (map_to_list (rd_map d))).
    apply (ref_compact_fold g (rd_map d) s _ []) in E as [-> Hk].
    + split; [done|]. intros k. destruct (Hk k) as [?|(? & pre & v & post & ?)]; [by left|].
      right. split; [done|]. by exists pre, 0, v, post.
    + intros k v. by rewrite elem_of_map_to_list.
Defined.

#[export] Instance ref_semaphore_spec : SemaphoreSpec Z.
Proof.
  refine {| sem_permits s := s |}; cbn.
  - intros n [_ Hn]. rewrite (proj2 (Z.leb_le _ _) Hn). eauto.
  - intros n Hn. by rewrite (proj2 (Z.leb_gt _ _) Hn).
  - intros s s'. case_match; intros; simplify_eq; zbool; lia.
  - intros s. case_match; intros; simplify_eq; zbool; lia.
  - done.
Defined.

Lemma ref_metric_new_ok name help :
  valid_metric_name name = true -> help <> [] ->
  exists m, ref_metric_new name help = Some m /\ rm_value m = 0 /\ rm_name m = name.
Proof.
  intros Hn Hh. unfold ref_metric_new. rewrite Hn, bool_decide_true by done. by eexists.
Qed.

#[export] Instance ref_prometheus_spec : PrometheusSpec.
Proof.
  refine {| counter_get := rm_value; gauge_get := rm_value; metric_name := ref_metric_name;
            registered r := r |}; try done; cbn.
  - apply ref_metric_new_ok.
  - apply ref_metric_new_ok.
  - intros name help _ Hn Hh _. destruct (ref_metric_new_ok name help Hn Hh) as (m & -> & _ & ?).
    by eexists.
  - intros r m Hm. rewrite bool_decide_false by done. by eexists.
  - intros r m Hm. by rewrite bool_decide_true.
  - intros r ms _. by eexists.
Defined.

#[export] Instance ref_stream_spec : TcpStreamSpec RefStream bytes.
Proof.
  refine {| stream_sent := rs_sent; stream_got := rs_got |}; cbn.
  - intros t t' r. case_match; intros [= <- <-]; done.
  - intros t s t' r. case_match; intros [= <- <-]; cbn.
    + exists []. rewrite app_nil_r. split_and!; [done|apply prefix_nil|done].
    + by exists s.
  - intros t t' r. case_match; intros [= <- <-]; cbn; by rewrite ?app_nil_r.
  - intros t s t' r. case_match; intros [= <- <-]; done.
Defined.
