(* ===== verification/Errors.v ===== *)
(** * Error types (src/error.rs)

    The error enumerations and their [Display] texts, which the connection
    handler and the command handlers send to the client. *)

From S2P Require Import Prelude RustStd Extern.

(** Protocol parsing errors; a [String] payload is its UTF-8 bytes. *)
Inductive ProtocolError :=
| InvalidCommand (s : bytes)
| InvalidKey (s : bytes)
| InvalidValue (s : bytes)
| InvalidFlags
| InvalidExptime
| InvalidBytesLength
| InvalidNumericValue
| KeyTooLong
| ValueTooLarge
| UnexpectedData
| IncompleteCommand.

#[export] Instance ProtocolError_eq_dec : EqDecision ProtocolError.
Proof. solve_decision. Defined.

(** [ProtocolError::to_string]. *)
Definition ProtocolError_display (e : ProtocolError) : bytes :=
  match e with
  | InvalidCommand s => str "Invalid command: " ++ s
  | InvalidKey s => str "Invalid key: " ++ s
  | InvalidValue s => str "Invalid value: " ++ s
  | InvalidFlags => str "Invalid flags"
  | InvalidExptime => str "Invalid exptime"
  | InvalidBytesLength => str "Invalid bytes length"
  | InvalidNumericValue => str "Invalid numeric value"
  | KeyTooLong => str "Key too long (max 250 bytes)"
  | ValueTooLarge => str "Value too large"
  | UnexpectedData => str "Unexpected data"
  | IncompleteCommand => str "Incomplete command"
  end.

(** Storage layer errors; [E] is the error type of the database. *)
Inductive StorageError (E : Type) :=
| RocksDb (e : E)
| Internal (s : bytes)
| Encoding (s : bytes)
| Decoding (s : bytes)
| NotFound
| AlreadyExists
| NotNumeric
| NumericOverflow
| NumericUnderflow.
Arguments RocksDb {E}.
Arguments Internal {E}.
Arguments Encoding {E}.
Arguments Decoding {E}.
Arguments NotFound {E}.
Arguments AlreadyExists {E}.
Arguments NotNumeric {E}.
Arguments NumericOverflow {E}.
Arguments NumericUnderflow {E}.

(** [StorageError::to_string]. *)
Definition StorageError_display `{RocksDB DB WO E} (e : StorageError E) : bytes :=
  match e with
  | RocksDb e => str "RocksDB error: " ++ db_error_display e
  | Internal s => str "Internal error: " ++ s
  | Encoding s => str "Value encoding error: " ++ s
  | Decoding s => str "Value decoding error: " ++ s
  | NotFound => str "Key not found"
  | AlreadyExists => str "Key already exists"
  | NotNumeric => str "Not a numeric value"
  | NumericOverflow => str "Numeric overflow"
  | NumericUnderflow => str "Numeric underflow"
  end.

(** The top-level error type; [IO] is [std::io::Error]. *)
Inductive PetraCacheError (E IO : Type) :=
| Protocol (e : ProtocolError)
| Storage (e : StorageError E)
| Io (e : IO)
| ConfigError (s : bytes).
Arguments Protocol {E IO}.
Arguments Storage {E IO}.
Arguments Io {E IO}.
Arguments ConfigError {E IO}.

(** [PetraCacheError::to_string]. *)
Definition PetraCacheError_display `{RocksDB DB WO E} {IO} (io_display : IO -> bytes)
    (e : PetraCacheError E IO) : bytes :=
  match e with
  | Protocol e => str "Protocol error: " ++ ProtocolError_display e
  | Storage e => str "Storage error: " ++ StorageError_display e
  | Io e => str "IO error: " ++ io_display e
  | ConfigError s => str "Configuration error: " ++ s
  end.
