(* ===== verification/Command.v ===== *)
(** * Commands (src/protocol/command.rs)

    The parsed commands and the validity of keys.  A [Cow<'a, [u8]>] is the
    byte slice it holds, borrowed or owned. *)

From S2P Require Import Prelude RustStd.

Definition MAX_KEY_LENGTH : Z := 250.

Inductive Command :=
| Get (keys : list bytes)
| Set_ (key : bytes) (flags exptime : Z) (data : bytes) (noreply : bool)
| Delete (key : bytes) (noreply : bool)
| Version
| Quit.

#[export] Instance Command_eq_dec : EqDecision Command.
Proof. solve_decision. Defined.

Definition is_noreply (c : Command) : bool :=
  match c with
  | Set_ _ _ _ _ noreply | Delete _ noreply => noreply
  | _ => false
  end.

Definition is_valid_key (key : bytes) : bool :=
  if bool_decide (key = []) || (MAX_KEY_LENGTH <? len key) then false
  else forallb (fun b => (32 <? u8 b) && (u8 b <? 127)) key.

(** ** What a command is, as a type invariant *)

(** A key has 1 to 250 bytes, all printable and none of them a space. *)
Definition wf_key (key : bytes) : Prop :=
  1 <= len key <= MAX_KEY_LENGTH /\ Forall (fun b => 33 <= u8 b <= 126) key.

(** A command the parser may produce.  The data come from a buffer that also
    holds the command line, so there is room for the 12 bytes they are stored
    with. *)
Definition wf_command (c : Command) : Prop :=
  match c with
  | Get keys => keys <> [] /\ Forall wf_key keys
  | Set_ key flags exptime data _ =>
      wf_key key /\ 0 <= flags <= u32_max /\ 0 <= exptime <= u64_max /\ len data + 12 <= isize_max
  | Delete key _ => wf_key key
  | Version | Quit => True
  end.

#[export] Instance wf_key_dec key : Decision (wf_key key).
Proof. unfold wf_key. apply _. Defined.

#[export] Instance wf_command_dec c : Decision (wf_command c).
Proof. destruct c; cbn [wf_command]; apply _. Defined.

Lemma is_valid_key_spec key : is_valid_key key = true <-> wf_key key.
Proof.
  unfold is_valid_key, wf_key. destruct (_ || _) eqn:E.
  - split; [done|]. intros [Hl _]. apply orb_true_iff in E as [E|E]; zbool; [|lia].
    apply bool_decide_eq_true in E as ->. rewrite len_nil in Hl. lia.
  - zbool. apply bool_decide_eq_false in H.
    assert (1 <= len key) by (destruct key; [done|rewrite len_cons; pose proof (len_nonneg key); lia]).
    rewrite forallb_forall, Forall_forall. setoid_rewrite list_elem_of_In. split.
    + intros Hall. split; [lia|]. intros b Hb. specialize (Hall b Hb). zbool. lia.
    + intros [_ Hall] b Hb. specialize (Hall b Hb).
      rewrite andb_true_iff, !Z.ltb_lt. lia.
Qed.

(** The bytes that separate tokens and lines do not occur in a key. *)
Lemma wf_key_no_byte key b : wf_key key -> u8 b <= 32 -> b ∉ key.
Proof.
  intros [_ Hk] Hb Hin. rewrite Forall_forall in Hk. specialize (Hk b Hin). simpl in Hk. lia.
Qed.

Lemma wf_key_nonempty key : wf_key key -> key <> [].
Proof. intros [Hl _] ->. rewrite len_nil in Hl. lia. Qed.

#[export] Hint Resolve wf_key_nonempty : petra.
