(* ===== verification/Parser.v ===== *)
(** * The protocol parser (src/protocol/parser.rs)

    [parse], [parse_storage_command_line] and [parse_storage_data] with their
    helpers, in the build profile [pf]: the [usize] additions panic on
    overflow in a debug build and wrap in a release build, and an
    out-of-range index or slice panics in both. *)

From S2P Require Import Prelude RustStd Extern Errors Command.
#[local] Open Scope petra_scope.

Inductive ParseResult :=
| Complete (cmd : Command) (consumed : Z)
| NeedMoreData
| Error (e : ProtocolError).

#[export] Instance ParseResult_eq_dec : EqDecision ParseResult.
Proof. solve_decision. Defined.

Record PendingStorageCommand := {
  p_key : bytes;
  p_flags : Z;
  p_exptime : Z;
  p_bytes : Z;
  p_noreply : bool;
  p_command_line_end : Z;
}.

(** ** Helpers *)

Definition cmd_eq (cmd expected : bytes) : bool :=
  (len cmd =? len expected)
  && forallb (fun '(a, b) => bool_decide (to_ascii_lowercase a = b)) (zip cmd expected).

Definition parse_u32 (s : bytes) : option Z :=
  s ← from_utf8 s; parse_unsigned u32_max s.

Definition parse_u64 (s : bytes) : option Z :=
  s ← from_utf8 s; parse_unsigned u64_max s.

Definition parse_usize (s : bytes) : option Z :=
  s ← from_utf8 s; parse_unsigned u64_max s.

(** [parts.next().is_some_and(|s| s == b"noreply")]. *)
Definition is_noreply_token (p : option bytes) : bool :=
  match p with
  | Some s => bool_decide (s = str "noreply")
  | None => false
  end.

(** ** get and delete *)

Fixpoint parse_get_loop (parts : list bytes) (keys : list bytes) :
    result (list bytes) ProtocolError :=
  match parts with
  | [] => Ok keys
  | part :: parts =>
      if bool_decide (part = []) then parse_get_loop parts keys
      else if negb (is_valid_key part) then
        if MAX_KEY_LENGTH <? len part then Err KeyTooLong
        else Err (InvalidKey (from_utf8_lossy part))
      else parse_get_loop parts (keys ++ [part])
  end.

Definition parse_get (parts : list bytes) (consumed : Z) : ParseResult :=
  match parse_get_loop parts [] with
  | Err e => Error e
  | Ok keys =>
      if bool_decide (keys = [])
      then Error (InvalidCommand (str "get requires at least one key"))
      else Complete (Get keys) consumed
  end.

Fixpoint parse_delete_loop (parts : list bytes) (noreply : bool) : bool :=
  match parts with
  | [] => noreply
  | part :: parts =>
      if bool_decide (part = []) then parse_delete_loop parts noreply
      else parse_delete_loop parts
             (if bool_decide (part = str "noreply") then true else noreply)
  end.

Definition parse_delete (parts : list bytes) (consumed : Z) : ParseResult :=
  let missing := Error (InvalidCommand (str "delete requires a key")) in
  let '(key, parts) := iter_next parts in
  match key with
  | None => missing
  | Some key =>
      if bool_decide (key = []) then missing
      else if negb (is_valid_key key) then
        if MAX_KEY_LENGTH <? len key then Error KeyTooLong
        else Error (InvalidKey (from_utf8_lossy key))
      else Complete (Delete key (parse_delete_loop parts false)) consumed
  end.

Section parser.
Context (pf : profile) {MC : Memchr}.

Definition find_crlf (buf : bytes) : outcome (option Z) :=
  match memchr CR buf with
  | None => mret None
  | Some i =>
      j ← i +[pf] 1;
      mret (if bool_decide (slice_get buf j = Some LF) then Some i else None)
  end.

(** ** set *)

Definition parse_set (parts : list bytes) (buf : bytes) (line_end : Z) :
    outcome ParseResult :=
  let missing := mret (Error (InvalidCommand (str "missing key"))) in
  let '(key, parts) := iter_next parts in
  match key with
  | None => missing
  | Some key =>
    if bool_decide (key = []) then missing
    else if negb (is_valid_key key) then
      if MAX_KEY_LENGTH <? len key then mret (Error KeyTooLong)
      else mret (Error (InvalidKey (from_utf8_lossy key)))
    else
    let '(p, parts) := iter_next parts in
    match p ≫= parse_u32 with
    | None => mret (Error InvalidFlags)
    | Some flags =>
    let '(p, parts) := iter_next parts in
    match p ≫= parse_u64 with
    | None => mret (Error InvalidExptime)
    | Some exptime =>
    let '(p, parts) := iter_next parts in
    match p ≫= parse_usize with
    | None => mret (Error InvalidBytesLength)
    | Some nbytes =>
    let noreply := is_noreply_token (fst (iter_next parts)) in
    data_start ← line_end +[pf] 2;
    data_end ← data_start +[pf] nbytes;
    total_needed ← data_end +[pf] 2;
    if len buf <? total_needed then mret NeedMoreData
    else
    b0 ← slice_index buf data_end;
    if bool_decide (b0 <> CR) then mret (Error UnexpectedData)
    else
    i1 ← data_end +[pf] 1;
    b1 ← slice_index buf i1;
    if bool_decide (b1 <> LF) then mret (Error UnexpectedData)
    else
    data ← slice_range buf data_start data_end;
    mret (Complete (Set_ key flags exptime data noreply) total_needed)
    end
    end
    end
  end.

Definition parse_storage_command_line (buf : bytes) :
    outcome (result (option PendingStorageCommand) ProtocolError) :=
  crlf ← find_crlf buf;
  match crlf with
  | None => mret (Ok None)
  | Some line_end =>
    line ← slice_to buf line_end;
    let parts := slice_split SP line in
    let empty := mret (Err (InvalidCommand (str "empty command"))) in
    let '(name, parts) := iter_next parts in
    match name with
    | None => empty
    | Some cmd_name =>
      if bool_decide (cmd_name = []) then empty
      else if negb (cmd_eq cmd_name (str "set")) then mret (Ok None)
      else
      let missing := mret (Err (InvalidCommand (str "missing key"))) in
      let '(key, parts) := iter_next parts in
      match key with
      | None => missing
      | Some key =>
        if bool_decide (key = []) then missing
        else if negb (is_valid_key key) then
          if MAX_KEY_LENGTH <? len key then mret (Err KeyTooLong)
          else mret (Err (InvalidKey (from_utf8_lossy key)))
        else
        let '(p, parts) := iter_next parts in
        match p ≫= parse_u32 with
        | None => mret (Err InvalidFlags)
        | Some flags =>
        let '(p, parts) := iter_next parts in
        match p ≫= parse_u64 with
        | None => mret (Err InvalidExptime)
        | Some exptime =>
        let '(p, parts) := iter_next parts in
        match p ≫= parse_usize with
        | None => mret (Err InvalidBytesLength)
        | Some nbytes =>
        let noreply := is_noreply_token (fst (iter_next parts)) in
        mret (Ok (Some {| p_key := key; p_flags := flags; p_exptime := exptime;
                          p_bytes := nbytes; p_noreply := noreply;
                          p_command_line_end := line_end |}))
        end
        end
        end
      end
    end
  end.

Definition parse_storage_data (buf : bytes) (pending : PendingStorageCommand) :
    outcome ParseResult :=
  data_start ← p_command_line_end pending +[pf] 2;
  data_end ← data_start +[pf] p_bytes pending;
  total_needed ← data_end +[pf] 2;
  if len buf <? total_needed then mret NeedMoreData
  else
  b0 ← slice_index buf data_end;
  if bool_decide (b0 <> CR) then mret (Error UnexpectedData)
  else
  i1 ← data_end +[pf] 1;
  b1 ← slice_index buf i1;
  if bool_decide (b1 <> LF) then mret (Error UnexpectedData)
  else
  data ← slice_range buf data_start data_end;
  mret (Complete (Set_ (p_key pending) (p_flags pending) (p_exptime pending) data
                       (p_noreply pending)) total_needed).

(** ** The entry point *)

Definition parse (buf : bytes) : outcome ParseResult :=
  crlf ← find_crlf buf;
  match crlf with
  | None => mret NeedMoreData
  | Some line_end =>
    line ← slice_to buf line_end;
    let '(name, parts) := iter_next (slice_split SP line) in
    let empty := mret (Error (InvalidCommand (str "empty command"))) in
    match name with
    | None => empty
    | Some cmd_name =>
      if bool_decide (cmd_name = []) then empty
      else if cmd_eq cmd_name (str "get") then
        consumed ← line_end +[pf] 2; mret (parse_get parts consumed)
      else if cmd_eq cmd_name (str "set") then parse_set parts buf line_end
      else if cmd_eq cmd_name (str "delete") then
        consumed ← line_end +[pf] 2; mret (parse_delete parts consumed)
      else if cmd_eq cmd_name (str "version") then
        consumed ← line_end +[pf] 2; mret (Complete Version consumed)
      else if cmd_eq cmd_name (str "quit") then
        consumed ← line_end +[pf] 2; mret (Complete Quit consumed)
      else mret (Error (InvalidCommand (from_utf8_lossy cmd_name)))
    end
  end.

End parser.
