(* ===== verification/Value.v ===== *)
(** * Stored values (src/storage/value.rs)

    The binary format of a value, the expiry rules and the numeric view.
    The system clock is read through [Clock]: the [n]-th read of the process
    returns [now_at n], in nanoseconds since the Unix epoch. *)

From S2P Require Import Prelude RustStd Errors.
#[local] Open Scope petra_scope.

(** ** The clock *)

Record Clock := { now_at : nat -> Z; reads : nat }.

(** [SystemTime::now()]. *)
Definition system_time_now (c : Clock) : Z * Clock :=
  (now_at c (reads c), {| now_at := now_at c; reads := S (reads c) |}).

(** [t.duration_since(UNIX_EPOCH).map(|d| d.as_secs()).unwrap_or(0)]: a time
    before the epoch is an error and counts as 0. *)
Definition unix_secs (now : Z) : Z := if now <? 0 then 0 else now / 10 ^ 9.

Definition current_timestamp (c : Clock) : Z * Clock :=
  let '(now, c) := system_time_now c in (unix_secs now, c).

(** ** Values *)

Definition MAX_RELATIVE_TTL : Z := 2592000.

Record StoredValue := {
  sv_expire_at : Z;
  sv_flags : Z;
  sv_data : bytes;
}.

#[export] Instance StoredValue_eq_dec : EqDecision StoredValue.
Proof. solve_decision. Defined.

Definition calculate_expire_at (c : Clock) (exptime : Z) : Z * Clock :=
  if exptime =? 0 then (0, c)
  else if exptime <=? MAX_RELATIVE_TTL then
    let '(now, c) := current_timestamp c in (u64_saturating_add now exptime, c)
  else (exptime, c).

(** [StoredValue::new]. *)
Definition stored_value_new (c : Clock) (flags exptime : Z) (data : bytes) :
    StoredValue * Clock :=
  let '(expire_at, c) := calculate_expire_at c exptime in
  ({| sv_expire_at := expire_at; sv_flags := flags; sv_data := data |}, c).

Definition with_expire_at (flags expire_at : Z) (data : bytes) : StoredValue :=
  {| sv_expire_at := expire_at; sv_flags := flags; sv_data := data |}.

Definition encode (v : StoredValue) : bytes :=
  to_le_bytes 8 (sv_expire_at v) ++ to_le_bytes 4 (sv_flags v) ++ sv_data v.

(** [<[u8; N]>::try_from(s)]. *)
Definition try_into_array (n : Z) (s : bytes) : option bytes :=
  if len s =? n then Some s else None.

Definition decode {E} (s : bytes) : outcome (result StoredValue (StorageError E)) :=
  if len s <? 12 then mret (Err (Decoding (str "Value too short to decode")))
  else
  s0 ← slice_range s 0 8;
  match try_into_array 8 s0 with
  | None => mret (Err (Decoding (str "Invalid expire_at")))
  | Some a0 =>
  s1 ← slice_range s 8 12;
  match try_into_array 4 s1 with
  | None => mret (Err (Decoding (str "Invalid flags")))
  | Some a1 =>
  data ← slice_from s 12;
  mret (Ok {| sv_expire_at := from_le_bytes a0; sv_flags := from_le_bytes a1;
              sv_data := data |})
  end
  end.

Definition is_expired (c : Clock) (v : StoredValue) : bool * Clock :=
  if sv_expire_at v =? 0 then (false, c)
  else let '(now, c) := current_timestamp c in (sv_expire_at v <=? now, c).

Definition touch (c : Clock) (v : StoredValue) (exptime : Z) : StoredValue * Clock :=
  let '(expire_at, c) := calculate_expire_at c exptime in
  ({| sv_expire_at := expire_at; sv_flags := sv_flags v; sv_data := sv_data v |}, c).

Definition as_u64 {E} (v : StoredValue) : result Z (StorageError E) :=
  match from_utf8 (sv_data v) with
  | None => Err NotNumeric
  | Some s =>
      match parse_unsigned u64_max (str_trim s) with
      | None => Err NotNumeric
      | Some n => Ok n
      end
  end.

Definition set_numeric (v : StoredValue) (value : Z) : StoredValue :=
  {| sv_expire_at := sv_expire_at v; sv_flags := sv_flags v; sv_data := dec value |}.

(** ** Specification vocabulary *)

(** A value whose fields fit their types and whose encoding fits a [Vec]. *)
Definition wf_value (v : StoredValue) : Prop :=
  0 <= sv_expire_at v <= u64_max /\ 0 <= sv_flags v <= u32_max /\
  len (sv_data v) + 12 <= isize_max.

(** The clock as the program sees it: seconds, at the next read. *)
Definition timestamp (c : Clock) : Z := unix_secs (now_at c (reads c)).

(** The seconds shown by the clock never run backwards - an assumption on the
    machine the program runs on, which [std] does not promise of
    [SystemTime]: where the clock is set back, an item that has expired lives
    again -; and a clock that shows the same second [t] throughout. *)
Definition clock_mono (c : Clock) : Prop :=
  forall i j, (i <= j)%nat -> unix_secs (now_at c i) <= unix_secs (now_at c j).

Definition clock_frozen (c : Clock) (t : Z) : Prop :=
  forall i, unix_secs (now_at c i) = t.

(** Expiry at a given time, and the expiry time the memcached rules give an
    item stored at a given time. *)
Definition expired_at (t : Z) (v : StoredValue) : bool :=
  negb (sv_expire_at v =? 0) && (sv_expire_at v <=? t).

Definition expiry_rule (now exptime : Z) : Z :=
  if exptime =? 0 then 0
  else if exptime <=? MAX_RELATIVE_TTL then Z.min (now + exptime) u64_max
  else exptime.

(** The decoded form of an encoded value; [None] when it is too short. *)
Definition decode_spec (s : bytes) : option StoredValue :=
  if len s <? 12 then None
  else Some {| sv_expire_at := from_le_bytes (take 8 s);
               sv_flags := from_le_bytes (take 4 (drop 8 s));
               sv_data := drop 12 s |}.

(** ** Clock facts *)

Lemma unix_secs_nonneg now : 0 <= unix_secs now.
Proof. unfold unix_secs. zcase; [lia|]. apply Z.div_pos; lia. Qed.

Lemma unix_secs_mono a b : a <= b -> unix_secs a <= unix_secs b.
Proof.
  intros H. unfold unix_secs. pose proof (unix_secs_nonneg b).
  repeat zcase; try lia.
  - apply Z.div_pos; lia.
  - apply Z.div_le_mono; lia.
Qed.

Lemma timestamp_nonneg c : 0 <= timestamp c.
Proof. apply unix_secs_nonneg. Qed.

#[export] Hint Resolve timestamp_nonneg unix_secs_nonneg : petra.

Lemma clock_frozen_mono c t : clock_frozen c t -> clock_mono c.
Proof. intros H i j _. rewrite !H. lia. Qed.

Lemma clock_frozen_timestamp c t : clock_frozen c t -> timestamp c = t.
Proof. intros H. apply H. Qed.

#[export] Hint Resolve clock_frozen_mono : petra.

(** ** Facts about the format *)

Lemma decode_eq {E} s :
  decode (E := E) s =
  Ret match decode_spec s with
      | Some v => Ok v
      | None => Err (Decoding (str "Value too short to decode"))
      end.
Proof.
  unfold decode, decode_spec. zcase; [done|].
  assert (slice_range s 0 8 = Ret (take 8 s)) as -> by by rewrite slice_range_ok by lia.
  assert (slice_range s 8 12 = Ret (take 4 (drop 8 s))) as -> by by rewrite slice_range_ok by lia.
  assert (slice_from s 12 = Ret (drop 12 s)) as ->.
  { unfold slice_from. rewrite slice_range_ok by lia. f_equal.
    apply take_ge. rewrite length_drop. unfold len. lia. }
  cbn [mbind outcome_bind]. unfold try_into_array, len in *.
  rewrite (proj2 (Z.eqb_eq (Z.of_nat (length (take 8 s))) 8)) by (rewrite length_take; lia).
  cbn [mbind outcome_bind].
  by rewrite (proj2 (Z.eqb_eq (Z.of_nat (length (take 4 (drop 8 s)))) 4))
    by (rewrite length_take, length_drop; lia).
Qed.

Lemma len_encode v : len (encode v) = 12 + len (sv_data v).
Proof. unfold encode, len. rewrite !length_app, !length_to_le_bytes. lia. Qed.

Lemma encode_expire_at v :
  0 <= sv_expire_at v <= u64_max -> from_le_bytes (take 8 (encode v)) = sv_expire_at v.
Proof.
  intros H. unfold encode. rewrite take_app_length' by by rewrite length_to_le_bytes.
  rewrite from_to_le_bytes. apply Z.mod_small. unfold u64_max in H. lia.
Qed.

Lemma drop_8_encode v : drop 8 (encode v) = to_le_bytes 4 (sv_flags v) ++ sv_data v.
Proof. unfold encode. by rewrite drop_app_length' by by rewrite length_to_le_bytes. Qed.

Lemma drop_12_encode v : drop 12 (encode v) = sv_data v.
Proof.
  change (drop 12 (encode v)) with (drop (8 + 4) (encode v)).
  rewrite <- drop_drop, drop_8_encode.
  by rewrite drop_app_length' by by rewrite length_to_le_bytes.
Qed.

Lemma decode_spec_encode v : wf_value v -> decode_spec (encode v) = Some v.
Proof.
  intros (He & Hf & _). unfold decode_spec. rewrite len_encode.
  pose proof (len_nonneg (sv_data v)). rewrite (proj2 (Z.ltb_ge _ _)) by lia.
  rewrite encode_expire_at, drop_12_encode, drop_8_encode by done.
  rewrite take_app_length' by by rewrite length_to_le_bytes.
  rewrite from_to_le_bytes, Z.mod_small by (unfold u32_max in Hf; lia).
  by destruct v.
Qed.

Lemma encode_decode_spec s v :
  slice_ok s -> decode_spec s = Some v -> encode v = s /\ wf_value v.
Proof.
  intros Hok. unfold decode_spec. zcase; [done|]. intros [= <-]. unfold encode, wf_value, len in *.
  cbn [sv_expire_at sv_flags sv_data].
  assert (length (take 8 s) = 8%nat) as H8 by (rewrite length_take; lia).
  assert (length (take 4 (drop 8 s)) = 4%nat) as H4
    by (rewrite length_take, length_drop; lia).
  pose proof (from_le_bytes_range (take 8 s)) as R8.
  pose proof (from_le_bytes_range (take 4 (drop 8 s))) as R4.
  unfold len in R8, R4. rewrite H8 in R8. rewrite H4 in R4. split.
  2:{ unfold_max. unfold len in *. rewrite length_drop. lia. }
  pose proof (to_from_le_bytes (take 8 s)) as E8. rewrite H8 in E8.
  pose proof (to_from_le_bytes (take 4 (drop 8 s))) as E4. rewrite H4 in E4.
  rewrite E8, E4.
  replace (drop 12 s) with (drop 4 (drop 8 s)) by (by rewrite drop_drop).
  by rewrite !take_drop.
Qed.

(** ** Facts about expiry *)

Lemma is_expired_spec c v :
  fst (is_expired c v) = expired_at (timestamp c) v /\
  now_at (snd (is_expired c v)) = now_at c /\
  (reads c <= reads (snd (is_expired c v)) <= S (reads c))%nat.
Proof.
  unfold is_expired, expired_at, timestamp. zcase; cbn; repeat split; lia.
Qed.

Lemma expired_at_mono t t' v : t <= t' -> expired_at t v = true -> expired_at t' v = true.
Proof.
  unfold expired_at. rewrite !andb_true_iff, !Z.leb_le. lia.
Qed.

Lemma calculate_expire_at_spec c exptime :
  fst (calculate_expire_at c exptime) = expiry_rule (timestamp c) exptime /\
  now_at (snd (calculate_expire_at c exptime)) = now_at c /\
  (reads c <= reads (snd (calculate_expire_at c exptime)) <= S (reads c))%nat.
Proof.
  unfold calculate_expire_at, expiry_rule, timestamp, u64_saturating_add.
  repeat zcase; cbn; repeat split; lia.
Qed.

Lemma stored_value_new_spec c flags exptime data :
  fst (stored_value_new c flags exptime data) =
    with_expire_at flags (expiry_rule (timestamp c) exptime) data /\
  now_at (snd (stored_value_new c flags exptime data)) = now_at c /\
  (reads c <= reads (snd (stored_value_new c flags exptime data)) <= S (reads c))%nat.
Proof.
  unfold stored_value_new. pose proof (calculate_expire_at_spec c exptime) as H.
  destruct (calculate_expire_at c exptime) as [e c']. cbn in *. destruct H as (-> & ? & ?).
  auto.
Qed.

Lemma expiry_rule_range now exptime :
  0 <= now -> 0 <= exptime <= u64_max -> 0 <= expiry_rule now exptime <= u64_max.
Proof. intros. unfold expiry_rule, u64_max in *. repeat zcase; lia. Qed.

Lemma wf_with_expire_at flags now exptime data :
  0 <= flags <= u32_max -> 0 <= exptime <= u64_max -> 0 <= now ->
  len data + 12 <= isize_max ->
  wf_value (with_expire_at flags (expiry_rule now exptime) data).
Proof. intros. unfold wf_value. cbn. split; [by apply expiry_rule_range|done]. Qed.

(** ** Facts about numeric values *)

Lemma skip_whitespace_none cs :
  Forall (fun c => char_is_whitespace c = false) cs -> skip_whitespace cs = cs.
Proof. by destruct 1 as [|c cs Hc]; cbn; [|rewrite Hc]. Qed.

Lemma str_trim_digits s : Forall (fun b => is_digit b = true) s -> str_trim s = s.
Proof.
  intros Hs. assert (Ha : Forall (fun b => u8 b < 128) s).
  { eapply Forall_impl; [done|]. intros b Hb%is_digit_range. unfold digit_value in Hb. lia. }
  unfold str_trim. rewrite str_chars_ascii by done.
  assert (Hw : Forall (fun c => char_is_whitespace c = false) (map (fun b => [b]) s)).
  { clear Ha. induction Hs as [|b s Hb _ IH]; cbn; constructor; [|done].
    apply is_digit_range in Hb. unfold digit_value in Hb. cbn.
    rewrite bool_decide_false by (intros ->; destruct Hb as [Hb _]; by apply Hb).
    unfold in_range. rewrite (proj2 (Z.leb_gt (u8 b) 13)) by lia. by rewrite andb_false_r. }
  rewrite (skip_whitespace_none (map _ _)) by done.
  rewrite (skip_whitespace_none (rev _)) by by apply Forall_rev.
  rewrite rev_involutive. clear. induction s as [|b s IH]; cbn; [done|]. by rewrite IH.
Qed.

(** ** The properties *)

(** C23 Round trip of the storage format, in both directions: decoding an
    encoded value gives the value back, every slice of at least 12 bytes is
    the encoding of exactly the value it decodes to, and a shorter slice is
    a decoding error; the decoder never panics and its two other errors
    cannot occur. *)
Theorem decode_encode {E} :
  (forall v, wf_value v -> decode (E := E) (encode v) = Ret (Ok v)) /\
  (forall s v, slice_ok s -> decode (E := E) s = Ret (Ok v) -> encode v = s /\ wf_value v) /\
  (forall s, len s < 12 <->
     decode (E := E) s = Ret (Err (Decoding (str "Value too short to decode")))) /\
  (forall s, 12 <= len s -> exists v, decode (E := E) s = Ret (Ok v)).
Proof.
  split_and!.
  - intros v Hv. by rewrite decode_eq, decode_spec_encode.
  - intros s v Hok. rewrite decode_eq. destruct (decode_spec s) eqn:E'; intros; simplify_eq.
    by apply encode_decode_spec.
  - intros s. rewrite decode_eq. unfold decode_spec. zcase; split; done || lia.
  - intros s Hs. rewrite decode_eq. unfold decode_spec.
    rewrite (proj2 (Z.ltb_ge _ _)) by lia. eauto.
Qed.

(** Expiry follows the memcached rules: a new value never expires when
    its exptime is 0; it is expired from exptime seconds after the time of
    the request on when exptime is at most 30 days (as long as that time fits
    64 bits), and from the absolute time exptime on otherwise; before that
    moment it is live. *)
Theorem expiry_rules c flags exptime data c' :
  let v := fst (stored_value_new c flags exptime data) in
  sv_flags v = flags /\ sv_data v = data /\
  (exptime = 0 -> fst (is_expired c' v) = false) /\
  (1 <= exptime <= 2592000 -> timestamp c + exptime <= u64_max ->
     fst (is_expired c' v) = true <-> timestamp c + exptime <= timestamp c') /\
  (2592000 < exptime -> fst (is_expired c' v) = true <-> exptime <= timestamp c').
Proof.
  cbn zeta. destruct (stored_value_new_spec c flags exptime data) as [-> _].
  rewrite (proj1 (is_expired_spec c' _)).
  unfold expired_at, expiry_rule, MAX_RELATIVE_TTL. cbn.
  pose proof (timestamp_nonneg c).
  split_and!; [done|done|intros ->; done|intros ? ?|intros ?];
    repeat zcase; rewrite ?andb_true_iff, ?negb_true_iff, ?Z.eqb_neq, ?Z.leb_le; lia.
Qed.

(** The numeric view of a value inverts [set_numeric] for every 64-bit
    number, and leaves flags and expiry alone. *)
Theorem as_u64_set_numeric {E} v n :
  0 <= n <= u64_max ->
  as_u64 (E := E) (set_numeric v n) = Ok n /\
  sv_flags (set_numeric v n) = sv_flags v /\
  sv_expire_at (set_numeric v n) = sv_expire_at v.
Proof.
  intros Hn. split; [|done]. unfold as_u64, set_numeric. cbn [sv_data].
  pose proof (dec_all_digits n ltac:(lia)) as Hd. unfold from_utf8.
  rewrite digits_utf8_valid, str_trim_digits, parse_unsigned_dec by (done || lia). done.
Qed.

(** ** Witnesses *)

Lemma as_u64_set_numeric_witness :
  as_u64 (E := unit) (set_numeric (with_expire_at 7 0 (str "abc")) 456) = Ok 456.
Proof.
  apply (as_u64_set_numeric (with_expire_at 7 0 (str "abc")) 456). unfold u64_max. lia.
Defined.
