(* ===== verification/Storage.v ===== *)
(** * The RocksDB storage backend (src/storage/rocks.rs)

    Every operation takes the storage and the process-wide state and returns
    them with the result; the database is the interface [RocksDB].  The
    static counters [EXPIRED_KEYS_REMOVED] and [TTL_COMPACTION_REMOVED] and
    the clock are fields of [Store], because the compaction filter, a plain
    function, reaches them too. *)

From S2P Require Import Prelude RustStd Extern Errors Value.
#[local] Open Scope petra_scope.

(** The [RocksStorage] ([st_db], [st_write_opts]), whether [open] installed
    the TTL compaction filter, and the globals of the process. *)
Record Store (DB WO : Type) := {
  st_db : DB;
  st_write_opts : WO;
  st_ttl_filter : bool;
  st_clock : Clock;
  EXPIRED_KEYS_REMOVED : Z;
  TTL_COMPACTION_REMOVED : Z;
}.
Arguments st_db {DB WO}.
Arguments st_write_opts {DB WO}.
Arguments st_ttl_filter {DB WO}.
Arguments st_clock {DB WO}.
Arguments EXPIRED_KEYS_REMOVED {DB WO}.
Arguments TTL_COMPACTION_REMOVED {DB WO}.

Record MemoryUsage := { block_cache_usage : Z; total : Z }.
Record TtlStats := { stats_expired_removed : Z; stats_compaction_removed : Z }.

Definition set_db {DB WO} (s : Store DB WO) (d : DB) : Store DB WO :=
  {| st_db := d; st_write_opts := st_write_opts s; st_ttl_filter := st_ttl_filter s;
     st_clock := st_clock s; EXPIRED_KEYS_REMOVED := EXPIRED_KEYS_REMOVED s;
     TTL_COMPACTION_REMOVED := TTL_COMPACTION_REMOVED s |}.

Definition set_clock {DB WO} (s : Store DB WO) (c : Clock) : Store DB WO :=
  {| st_db := st_db s; st_write_opts := st_write_opts s; st_ttl_filter := st_ttl_filter s;
     st_clock := c; EXPIRED_KEYS_REMOVED := EXPIRED_KEYS_REMOVED s;
     TTL_COMPACTION_REMOVED := TTL_COMPACTION_REMOVED s |}.

(** [EXPIRED_KEYS_REMOVED.fetch_add(n, Ordering::Relaxed)]. *)
Definition add_expired {DB WO} (s : Store DB WO) (n : Z) : Store DB WO :=
  {| st_db := st_db s; st_write_opts := st_write_opts s; st_ttl_filter := st_ttl_filter s;
     st_clock := st_clock s;
     EXPIRED_KEYS_REMOVED := wrap64 (EXPIRED_KEYS_REMOVED s + n);
     TTL_COMPACTION_REMOVED := TTL_COMPACTION_REMOVED s |}.

(** ** The compaction filter

    Its state is the clock and [TTL_COMPACTION_REMOVED]. *)
Definition ttl_compaction_filter : CompactionFilter (Clock * Z) :=
  fun '(c, removed) _level _key value =>
    if 8 <=? len value then
      let expire_at := from_le_bytes
        match slice_range value 0 8 with
        | Ret s => match try_into_array 8 s with Some a => a | None => replicate 8 x00 end
        | Panic => replicate 8 x00
        end in
      if negb (expire_at =? 0) then
        let '(now, c) := current_timestamp c in
        if expire_at <=? now then ((c, wrap64 (removed + 1)), Remove)
        else ((c, removed), Keep)
      else ((c, removed), Keep)
    else ((c, removed), Keep).

Module RocksStorage.
Section storage.
Context `{R : RocksDB DB WO E}.

Abbreviation store := (Store DB WO).
Abbreviation error := (StorageError E).

(** ** get *)

Definition get (s : store) (key : bytes) :
    outcome (store * result (option StoredValue) error) :=
  let '(d, r) := db_get (st_db s) key in
  let s := set_db s d in
  match r with
  | Err e => mret (s, Err (RocksDb e))
  | Ok None => mret (s, Ok None)
  | Ok (Some raw) =>
    dec ← decode raw;
    match dec with
    | Err e => mret (s, Err e)
    | Ok value =>
      let '(expired, c) := is_expired (st_clock s) value in
      let s := set_clock s c in
      if expired then
        let s := add_expired s 1 in
        let '(d, _) := db_delete_opt (st_db s) key (st_write_opts s) in
        mret (set_db s d, Ok None)
      else mret (s, Ok (Some value))
    end
  end.

(** ** get_multi *)

(** The loop over the keys and the raw results: the clock, the results and
    the expired keys so far. *)
Fixpoint get_multi_loop (c : Clock) (l : list (bytes * result (option bytes) E))
    (results : list (bytes * option StoredValue)) (expired_keys : list bytes) :
    outcome (Clock * result (list (bytes * option StoredValue) * list bytes) error) :=
  match l with
  | [] => mret (c, Ok (results, expired_keys))
  | (key, raw) :: l =>
    match raw with
    | Ok (Some raw) =>
      dec ← decode raw;
      match dec with
      | Err e => mret (c, Err e)
      | Ok value =>
        let '(expired, c) := is_expired c value in
        if expired
        then get_multi_loop c l (results ++ [(key, None)]) (expired_keys ++ [key])
        else get_multi_loop c l (results ++ [(key, Some value)]) expired_keys
      end
    | Ok None => get_multi_loop c l (results ++ [(key, None)]) expired_keys
    | Err e => mret (c, Err (RocksDb e))
    end
  end.

(** [for key in &expired_keys { let _ = self.db.delete_opt(..); }]. *)
Definition delete_all (d : DB) (keys : list bytes) (w : WO) : DB :=
  fold_left (fun d key => fst (db_delete_opt d key w)) keys d.

Definition get_multi (s : store) (keys : list bytes) :
    outcome (store * result (list (bytes * option StoredValue)) error) :=
  let '(d, raw_results) := db_multi_get (st_db s) keys in
  let s := set_db s d in
  '(c, r) ← get_multi_loop (st_clock s) (zip keys raw_results) [] [];
  let s := set_clock s c in
  match r with
  | Err e => mret (s, Err e)
  | Ok (results, expired_keys) =>
    if bool_decide (expired_keys <> []) then
      let s := add_expired s (len expired_keys) in
      mret (set_db s (delete_all (st_db s) expired_keys (st_write_opts s)), Ok results)
    else mret (s, Ok results)
  end.

(** ** set and delete *)

Definition set (s : store) (key : bytes) (value : StoredValue) : store * result unit error :=
  let encoded := encode value in
  let '(d, r) := db_put_opt (st_db s) key encoded (st_write_opts s) in
  (set_db s d, match r with Ok _ => Ok tt | Err e => Err (RocksDb e) end).

Definition delete (s : store) (key : bytes) : store * result bool error :=
  let '(d, r) := db_get (st_db s) key in
  let s := set_db s d in
  match r with
  | Err e => (s, Err (RocksDb e))
  | Ok v =>
    let existed := bool_decide (is_Some v) in
    let '(d, r) := db_delete_opt (st_db s) key (st_write_opts s) in
    (set_db s d, match r with Ok _ => Ok existed | Err e => Err (RocksDb e) end)
  end.

(** ** Statistics and compaction *)

Definition memory_usage (s : store) : MemoryUsage :=
  let block_cache_usage :=
    match db_property_int_value (st_db s) (str "rocksdb.block-cache-usage") with
    | Ok (Some n) => n
    | _ => 0
    end in
  {| block_cache_usage := block_cache_usage; total := block_cache_usage |}.

Definition ttl_stats (s : store) : TtlStats :=
  {| stats_expired_removed := EXPIRED_KEYS_REMOVED s;
     stats_compaction_removed := TTL_COMPACTION_REMOVED s |}.

Definition compact (s : store) : store :=
  let '((c, removed), d) :=
    db_compact_range (if st_ttl_filter s then Some ttl_compaction_filter else None)
      (st_clock s, TTL_COMPACTION_REMOVED s) (st_db s) in
  {| st_db := d; st_write_opts := st_write_opts s; st_ttl_filter := st_ttl_filter s;
     st_clock := c; EXPIRED_KEYS_REMOVED := EXPIRED_KEYS_REMOVED s;
     TTL_COMPACTION_REMOVED := removed |}.

End storage.
End RocksStorage.
