(* ===== verification/Response.v ===== *)
(** * Responses (src/protocol/response.rs)

    [ResponseWriter] builds the text of the replies in a [BytesMut].  The
    reader of a memcached client is the specification: what the writer
    appends is read back as the replies that were written. *)

From S2P Require Import Prelude RustStd Extern Reference Errors Command.
#[local] Open Scope petra_scope.

Module ResponseWriter.

Record t (B : Type) := { buf : B }.
Arguments buf {B}.
Arguments Build_t {B}.

Section writer.
Context `{BM : BytesMut B} {IT : Itoa}.

Definition new (capacity : Z) : t B := {| buf := bm_with_capacity capacity |}.

Definition default : t B := new 4096.

Definition buffer (w : t B) : bytes := bm_bytes (buf w).

(** [std::mem::take]: the buffer, and the writer with an empty one. *)
Definition take (w : t B) : B * t B := (buf w, {| buf := bm_default |}).

Definition clear (w : t B) : t B := {| buf := bm_clear (buf w) |}.

Definition is_empty (w : t B) : bool := bm_is_empty (buf w).

(** [self.buf.extend_from_slice(s)]. *)
Definition extend (w : t B) (s : bytes) : t B := {| buf := bm_extend_from_slice (buf w) s |}.

Definition value (w : t B) (key : bytes) (flags : Z) (data : bytes) : t B :=
  let w := extend w (str "VALUE ") in
  let w := extend w key in
  let w := extend w (str " ") in
  let w := extend w (itoa_format flags) in
  let w := extend w (str " ") in
  let w := extend w (itoa_format (len data)) in
  let w := extend w CRLF in
  let w := extend w data in
  extend w CRLF.

Definition end_ (w : t B) : t B := extend w (str "END" ++ CRLF).
Definition stored (w : t B) : t B := extend w (str "STORED" ++ CRLF).
Definition not_found (w : t B) : t B := extend w (str "NOT_FOUND" ++ CRLF).
Definition deleted (w : t B) : t B := extend w (str "DELETED" ++ CRLF).

Definition version (w : t B) (version : bytes) : t B :=
  extend (extend (extend w (str "VERSION ")) version) CRLF.

Definition client_error (w : t B) (message : bytes) : t B :=
  extend (extend (extend w (str "CLIENT_ERROR ")) message) CRLF.

Definition server_error (w : t B) (message : bytes) : t B :=
  extend (extend (extend w (str "SERVER_ERROR ")) message) CRLF.

End writer.
End ResponseWriter.

(** ** Specification vocabulary: replies, their text, and a client's reader *)

Inductive reply :=
| RValue (key : bytes) (flags : Z) (data : bytes)
| REnd
| RStored
| RDeleted
| RNotFound
| RVersion (v : bytes)
| RClientError (msg : bytes)
| RServerError (msg : bytes).

#[export] Instance reply_eq_dec : EqDecision reply.
Proof. solve_decision. Defined.

Definition print_reply (r : reply) : bytes :=
  match r with
  | RValue key flags data =>
      str "VALUE " ++ key ++ str " " ++ dec flags ++ str " " ++ dec (len data) ++ CRLF
      ++ data ++ CRLF
  | REnd => str "END" ++ CRLF
  | RStored => str "STORED" ++ CRLF
  | RDeleted => str "DELETED" ++ CRLF
  | RNotFound => str "NOT_FOUND" ++ CRLF
  | RVersion v => str "VERSION " ++ v ++ CRLF
  | RClientError m => str "CLIENT_ERROR " ++ m ++ CRLF
  | RServerError m => str "SERVER_ERROR " ++ m ++ CRLF
  end.

Definition print_replies (rs : list reply) : bytes := concat (map print_reply rs).

(** The writer's method for a reply. *)
Definition write_reply `{BytesMut B} {IT : Itoa} (w : ResponseWriter.t B) (r : reply) :
    ResponseWriter.t B :=
  match r with
  | RValue key flags data => ResponseWriter.value w key flags data
  | REnd => ResponseWriter.end_ w
  | RStored => ResponseWriter.stored w
  | RDeleted => ResponseWriter.deleted w
  | RNotFound => ResponseWriter.not_found w
  | RVersion v => ResponseWriter.version w v
  | RClientError m => ResponseWriter.client_error w m
  | RServerError m => ResponseWriter.server_error w m
  end.

(** A reply a client can read: the key has no separator, the numbers fit
    their types and the texts are one line. *)
Definition wf_reply (r : reply) : Prop :=
  match r with
  | RValue key flags data => wf_key key /\ 0 <= flags <= u32_max /\ slice_ok data
  | RVersion v => CR ∉ v
  | RClientError m | RServerError m => CR ∉ m
  | _ => True
  end.

(** What the writer needs of a reply: the numbers fit their types. *)
Definition reply_fits (r : reply) : Prop :=
  match r with
  | RValue _ flags data => 0 <= flags <= u32_max /\ slice_ok data
  | _ => True
  end.

Fixpoint read_line (s : bytes) : option (bytes * bytes) :=
  match s with
  | [] => None
  | b :: s' =>
      match s' with
      | c :: s'' =>
          if bool_decide (b = CR) && bool_decide (c = LF) then Some ([], s'')
          else '(l, r) ← read_line s'; Some (b :: l, r)
      | [] => None
      end
  end.

(** The message after the word [w] and a space. *)
Definition strip_word (w line : bytes) : option bytes :=
  if bool_decide (firstn (length w) line = w) && bool_decide (line !! length w = Some SP)
  then Some (drop (S (length w)) line) else None.

Definition read_data (rest : bytes) (n : Z) : option (bytes * bytes) :=
  let k := Z.to_nat n in
  if (n + 2 <=? len rest) && bool_decide (firstn 2 (drop k rest) = CRLF)
  then Some (firstn k rest, drop (k + 2) rest) else None.

Definition read_reply (s : bytes) : option (reply * bytes) :=
  '(line, rest) ← read_line s;
  match slice_split SP line with
  | [word; key; flags; n] =>
      if bool_decide (word = str "VALUE") then
        flags ← parse_unsigned u32_max flags;
        n ← parse_unsigned u64_max n;
        '(data, rest) ← read_data rest n;
        Some (RValue key flags data, rest)
      else None
  | _ => None
  end ∪
  (if bool_decide (line = str "END") then Some (REnd, rest) else None) ∪
  (if bool_decide (line = str "STORED") then Some (RStored, rest) else None) ∪
  (if bool_decide (line = str "DELETED") then Some (RDeleted, rest) else None) ∪
  (if bool_decide (line = str "NOT_FOUND") then Some (RNotFound, rest) else None) ∪
  (v ← strip_word (str "VERSION") line; Some (RVersion v, rest)) ∪
  (m ← strip_word (str "CLIENT_ERROR") line; Some (RClientError m, rest)) ∪
  (m ← strip_word (str "SERVER_ERROR") line; Some (RServerError m, rest)).

(** All replies of a text, and what is left when a reply is incomplete. *)
Fixpoint read_replies (fuel : nat) (s : bytes) : list reply * bytes :=
  match fuel with
  | O => ([], s)
  | S fuel =>
      match read_reply s with
      | Some (r, s) => let '(rs, s) := read_replies fuel s in (r :: rs, s)
      | None => ([], s)
      end
  end.

(** ** Facts *)

Section facts.
Context `{BMS : BytesMutSpec B} `{ITS : ItoaSpec}.

(** The text the writer has accumulated. *)
Abbreviation text w := (ResponseWriter.buffer w).

Lemma text_extend (w : ResponseWriter.t B) s : text (ResponseWriter.extend w s) = text w ++ s.
Proof. apply bm_bytes_extend. Qed.

Lemma text_new n : text (ResponseWriter.new (B := B) n) = [].
Proof. apply bm_bytes_with_capacity. Qed.

Lemma text_clear (w : ResponseWriter.t B) : text (ResponseWriter.clear w) = [].
Proof. apply bm_bytes_clear. Qed.

Lemma text_take (w : ResponseWriter.t B) :
  bm_bytes (fst (ResponseWriter.take w)) = text w /\ text (snd (ResponseWriter.take w)) = [].
Proof. split; [done|]. apply bm_bytes_default. Qed.

Lemma is_empty_text (w : ResponseWriter.t B) :
  ResponseWriter.is_empty w = bool_decide (text w = []).
Proof. apply bm_is_empty_spec. Qed.

Lemma wf_reply_fits r : wf_reply r -> reply_fits r.
Proof. destruct r; cbn; tauto. Qed.

Lemma text_write_reply (w : ResponseWriter.t B) r :
  reply_fits r -> text (write_reply w r) = text w ++ print_reply r.
Proof.
  intros Hr. destruct r; cbn [write_reply print_reply];
    unfold ResponseWriter.value, ResponseWriter.version, ResponseWriter.client_error,
      ResponseWriter.server_error, ResponseWriter.end_, ResponseWriter.stored,
      ResponseWriter.deleted, ResponseWriter.not_found; rewrite !text_extend, ?app_assoc; try done.
  destruct Hr as (Hf & Hd). pose proof (len_nonneg data).
  rewrite !itoa_format_dec, <- ?app_assoc by (unfold_max; lia). done.
Qed.

Lemma text_write_replies (w : ResponseWriter.t B) rs :
  Forall reply_fits rs -> text (fold_left write_reply rs w) = text w ++ print_replies rs.
Proof.
  intros Hrs. revert w. induction Hrs as [|r rs Hr Hrs IH]; intros w; cbn [fold_left].
  - by rewrite app_nil_r.
  - rewrite IH, text_write_reply by done. by rewrite <- app_assoc.
Qed.

End facts.

(** *** Reading back *)

Lemma read_line_app l rest : CR ∉ l -> read_line (l ++ CRLF ++ rest) = Some (l, rest).
Proof.
  induction l as [|b l IH]; intros Hl; [done|]. apply not_elem_of_cons in Hl as [Hb Hl].
  specialize (IH Hl). cbn [app].
  destruct (l ++ CRLF ++ rest) as [|c s] eqn:E; [by destruct l|].
  change (read_line (b :: c :: s)) with
    (if bool_decide (b = CR) && bool_decide (c = LF) then Some ([], s)
     else '(l, r) ← read_line (c :: s); Some (b :: l, r)).
  rewrite bool_decide_false by done. cbn [andb]. by rewrite IH.
Qed.

Lemma strip_word_app w m : strip_word w (w ++ SP :: m) = Some m.
Proof.
  unfold strip_word. rewrite take_app_length, bool_decide_true by done.
  rewrite lookup_app_r, Nat.sub_diag, bool_decide_true by done. cbn [andb].
  by rewrite cons_middle, app_assoc, drop_app_length' by (rewrite length_app; cbn; lia).
Qed.

Lemma read_data_app data rest : read_data (data ++ CRLF ++ rest) (len data) = Some (data, rest).
Proof.
  unfold read_data. rewrite !len_app, len_CRLF. pose proof (len_nonneg rest).
  rewrite (proj2 (Z.leb_le _ _)) by lia.
  rewrite to_nat_len, drop_app_length, take_app_length. cbn [andb].
  rewrite bool_decide_true by done.
  by rewrite app_assoc, drop_app_length' by (rewrite length_app; done).
Qed.

Lemma text_no_cr (s : string) m : CR ∉ str s -> CR ∉ m -> CR ∉ str s ++ m.
Proof. rewrite elem_of_app. tauto. Qed.

(** A status line that starts with a word other than [VALUE]. *)
Lemma read_reply_line w m rest :
  (SP ∉ w) -> (CR ∉ w ++ SP :: m) -> w <> str "VALUE" ->
  read_reply ((w ++ SP :: m) ++ CRLF ++ rest) =
  (v ← strip_word (str "VERSION") (w ++ SP :: m); Some (RVersion v, rest)) ∪
  (v ← strip_word (str "CLIENT_ERROR") (w ++ SP :: m); Some (RClientError v, rest)) ∪
  (v ← strip_word (str "SERVER_ERROR") (w ++ SP :: m); Some (RServerError v, rest)).
Proof.
  intros Hw Hcr Hv. unfold read_reply. rewrite read_line_app by done.
  cbn [mbind option_bind]. rewrite slice_split_cons by done.
  assert (Hne : forall s : string, SP ∉ str s -> w ++ SP :: m <> str s).
  { intros s Hs E. apply Hs. rewrite <- E. set_solver. }
  rewrite !(bool_decide_false (w ++ SP :: m = _)) by (apply Hne; by_compute).
  destruct (slice_split SP m) as [|? [|? [|? [|? ?]]]];
    rewrite ?(bool_decide_false (w = _)) by done; by rewrite !(left_id_L None union).
Qed.

Lemma read_reply_value key flags data rest :
  wf_reply (RValue key flags data) ->
  read_reply (print_reply (RValue key flags data) ++ rest) = Some (RValue key flags data, rest).
Proof.
  intros (Hk & Hf & Hd). pose proof (len_nonneg data) as Hl. unfold read_reply, print_reply.
  set (line := str "VALUE" ++ SP :: key ++ SP :: dec flags ++ SP :: dec (len data)).
  assert (Hcr : CR ∉ line).
  { unfold line. repeat first [rewrite not_elem_of_app | rewrite not_elem_of_cons].
    split_and!; first [discriminate | by apply (wf_key_no_byte _ _ Hk)
      | apply dec_no_byte; [lia|done] | by_compute]. }
  replace ((_ ++ _) ++ rest) with (line ++ CRLF ++ data ++ CRLF ++ rest)
    by (unfold line; change (str "VALUE ") with (str "VALUE" ++ [SP]);
        change (str " ") with [SP]; by repeat (rewrite <- !app_assoc; cbn [app])).
  rewrite read_line_app by done. cbn [mbind option_bind]. unfold line.
  rewrite slice_split_cons by by_compute.
  rewrite slice_split_cons by by apply (wf_key_no_byte _ _ Hk).
  rewrite slice_split_cons by (apply dec_no_byte; [lia|done]).
  rewrite slice_split_no_sep by (apply dec_no_byte; [lia|done]).
  rewrite bool_decide_true by done.
  rewrite !parse_unsigned_dec by (unfold_max; lia). cbn [mbind option_bind].
  by rewrite read_data_app.
Qed.

(** A status line whose message is one line. *)
Ltac status_line w m rest :=
  change (str w ++ SP :: m ++ CRLF) with (str w ++ (SP :: m) ++ CRLF);
  rewrite (app_assoc (str w)), <- (app_assoc _ CRLF rest), read_reply_line;
  [by rewrite strip_word_app|by_compute| |done];
  apply not_elem_of_app; split; [by_compute|by apply not_elem_of_cons].

Lemma read_reply_print r rest :
  wf_reply r -> read_reply (print_reply r ++ rest) = Some (r, rest).
Proof.
  intros Hr. destruct r as [key flags data| | | | |v|m|m]; [by apply read_reply_value|done..| | |].
  - change (print_reply _) with (str "VERSION" ++ SP :: v ++ CRLF).
    status_line "VERSION"%string v rest.
  - change (print_reply _) with (str "CLIENT_ERROR" ++ SP :: m ++ CRLF).
    status_line "CLIENT_ERROR"%string m rest.
  - change (print_reply _) with (str "SERVER_ERROR" ++ SP :: m ++ CRLF).
    status_line "SERVER_ERROR"%string m rest.
Qed.

Lemma print_reply_nonempty r : 0 < len (print_reply r).
Proof.
  destruct r; cbn [print_reply]; rewrite !len_app;
    repeat match goal with |- context [len ?s] => is_var s; pose proof (len_nonneg s); generalize dependent s end;
    intros; rewrite ?len_CRLF; unfold len in *; lia.
Qed.

Lemma read_replies_print rs rest fuel :
  Forall wf_reply rs -> (length rs <= fuel)%nat -> read_reply rest = None ->
  read_replies fuel (print_replies rs ++ rest) = (rs, rest).
Proof.
  intros Hrs Hf Hrest. revert fuel Hf. unfold print_replies.
  induction Hrs as [|r rs Hr Hrs IH]; intros [|fuel] Hf;
    cbn [length read_replies map concat app] in *; [done|by rewrite Hrest|lia|].
  rewrite <- app_assoc, read_reply_print, IH by (done || lia). done.
Qed.

(** As many as there are, whatever follows them. *)
Lemma read_replies_front rs rest :
  Forall wf_reply rs -> read_replies (length rs) (print_replies rs ++ rest) = (rs, rest).
Proof.
  intros Hrs. unfold print_replies.
  induction Hrs as [|r rs Hr Hrs IH]; cbn [length read_replies map concat app]; [done|].
  by rewrite <- app_assoc, read_reply_print, IH.
Qed.

Lemma print_replies_app rs1 rs2 : print_replies (rs1 ++ rs2) = print_replies rs1 ++ print_replies rs2.
Proof. unfold print_replies. by rewrite map_app, concat_app. Qed.

#[export] Hint Rewrite @text_extend @text_new @text_clear : replies.

(** ** The properties *)

(** C24 Responses are unambiguous: whatever the writer held before, the
    replies written to it are appended in order, and a memcached client that
    reads the appended text gets back exactly those replies - keys, flags
    and data of every VALUE included, even when the data contain line ends
    or look like other replies - followed by whatever comes after them. *)
Theorem replies_roundtrip `{BMS : BytesMutSpec B} `{ITS : ItoaSpec}
    (w : ResponseWriter.t B) rs rest fuel :
  Forall wf_reply rs -> (length rs <= fuel)%nat -> read_reply rest = None ->
  exists text, ResponseWriter.buffer (fold_left write_reply rs w) =
      ResponseWriter.buffer w ++ text /\
    read_replies fuel (text ++ rest) = (rs, rest).
Proof.
  intros Hrs Hf Hrest. exists (print_replies rs). split.
  - apply text_write_replies. by eapply Forall_impl; [|apply wf_reply_fits].
  - by apply read_replies_print.
Qed.

(** ** Witness *)

Lemma replies_roundtrip_witness :
  read_replies 3 (str "VALUE k 7 5" ++ CRLF ++ str "END" ++ CRLF ++ CRLF ++ str "END" ++ CRLF) =
    ([RValue (str "k") 7 (str "END" ++ CRLF); REnd], []) /\
  exists text, read_replies 2 (text ++ str "STO") =
    ([RValue (str "k") 7 (str "END" ++ CRLF); REnd], str "STO").
Proof.
  split; [by vm_compute|].
  destruct (replies_roundtrip (ResponseWriter.new (B := bytes) 16)
    [RValue (str "k") 7 (str "END" ++ CRLF); REnd] (str "STO") 2) as (text & _ & Hr).
  - repeat constructor; by_compute.
  - done.
  - by vm_compute.
  - by exists text.
Defined.
