(* ===== verification/Metrics.v ===== *)
(** * Metrics (src/metrics.rs)

    The [Metrics] record, its creation and registration, and the
    [AtomicCounters].  The record holds the current value of every metric;
    the registry holds the names, each clone registered in it being another
    handle on the same metric. *)

From Stdlib Require QArith.QArith_base.
From S2P Require Import Prelude RustStd Extern Reference.
#[local] Open Scope petra_scope.

(** [Result::unwrap]. *)
Definition unwrap {A} (o : option A) : outcome A :=
  match o with Some a => Ret a | None => Panic end.

(** ** AtomicCounters *)

Module AtomicCounters.

Record t := {
  cmd_get : Z;
  cmd_set : Z;
  get_hits : Z;
  get_misses : Z;
  bytes_read : Z;
  bytes_written : Z;
}.

Definition new : t :=
  {| cmd_get := 0; cmd_set := 0; get_hits := 0; get_misses := 0; bytes_read := 0;
     bytes_written := 0 |}.

(** [Default]. *)
Definition default : t := new.

Definition inc_cmd_get (a : t) : t :=
  {| cmd_get := wrap64 (cmd_get a + 1); cmd_set := cmd_set a; get_hits := get_hits a;
     get_misses := get_misses a; bytes_read := bytes_read a; bytes_written := bytes_written a |}.

Definition inc_cmd_set (a : t) : t :=
  {| cmd_get := cmd_get a; cmd_set := wrap64 (cmd_set a + 1); get_hits := get_hits a;
     get_misses := get_misses a; bytes_read := bytes_read a; bytes_written := bytes_written a |}.

Definition inc_get_hits (a : t) : t :=
  {| cmd_get := cmd_get a; cmd_set := cmd_set a; get_hits := wrap64 (get_hits a + 1);
     get_misses := get_misses a; bytes_read := bytes_read a; bytes_written := bytes_written a |}.

Definition inc_get_misses (a : t) : t :=
  {| cmd_get := cmd_get a; cmd_set := cmd_set a; get_hits := get_hits a;
     get_misses := wrap64 (get_misses a + 1); bytes_read := bytes_read a;
     bytes_written := bytes_written a |}.

Definition add_bytes_read (a : t) (n : Z) : t :=
  {| cmd_get := cmd_get a; cmd_set := cmd_set a; get_hits := get_hits a;
     get_misses := get_misses a; bytes_read := wrap64 (bytes_read a + n);
     bytes_written := bytes_written a |}.

Definition add_bytes_written (a : t) (n : Z) : t :=
  {| cmd_get := cmd_get a; cmd_set := cmd_set a; get_hits := get_hits a;
     get_misses := get_misses a; bytes_read := bytes_read a;
     bytes_written := wrap64 (bytes_written a + n) |}.

End AtomicCounters.

(** ** Metrics *)

Module Metrics.

(** The counters of [Metrics], by the name of their field. *)
Inductive field :=
| Cmd_get | Cmd_set | Cmd_add | Cmd_replace | Cmd_delete | Cmd_incr | Cmd_decr | Cmd_touch
| Cmd_flush | Get_hits | Get_misses | Total_connections | Rejected_connections
| Bytes_read | Bytes_written | Protocol_errors | Storage_errors.

#[global] Instance field_eq_dec : EqDecision field.
Proof. solve_decision. Defined.

Section metrics.
Context {PR : Prometheus}.

Record t := {
  registry : Extern.registry;
  cmd_get : counter;
  cmd_set : counter;
  cmd_add : counter;
  cmd_replace : counter;
  cmd_delete : counter;
  cmd_incr : counter;
  cmd_decr : counter;
  cmd_touch : counter;
  cmd_flush : counter;
  get_hits : counter;
  get_misses : counter;
  active_connections : gauge;
  total_connections : counter;
  rejected_connections : counter;
  bytes_read : counter;
  bytes_written : counter;
  cmd_latency : histogram;
  protocol_errors : counter;
  storage_errors : counter;
}.

(** [self.<field>]. *)
Definition get (m : t) (f : field) : counter :=
  match f with
  | Cmd_get => cmd_get m | Cmd_set => cmd_set m | Cmd_add => cmd_add m
  | Cmd_replace => cmd_replace m | Cmd_delete => cmd_delete m | Cmd_incr => cmd_incr m
  | Cmd_decr => cmd_decr m | Cmd_touch => cmd_touch m | Cmd_flush => cmd_flush m
  | Get_hits => get_hits m | Get_misses => get_misses m
  | Total_connections => total_connections m | Rejected_connections => rejected_connections m
  | Bytes_read => bytes_read m | Bytes_written => bytes_written m
  | Protocol_errors => protocol_errors m | Storage_errors => storage_errors m
  end.

(** The effect of a method call on one field of the record. *)
Definition modify (m : t) (f : field) (g : counter -> counter) : t :=
  let at_field f' c := if decide (f = f') then g c else c in
  {| registry := registry m; cmd_get := at_field Cmd_get (cmd_get m);
     cmd_set := at_field Cmd_set (cmd_set m); cmd_add := at_field Cmd_add (cmd_add m);
     cmd_replace := at_field Cmd_replace (cmd_replace m);
     cmd_delete := at_field Cmd_delete (cmd_delete m);
     cmd_incr := at_field Cmd_incr (cmd_incr m); cmd_decr := at_field Cmd_decr (cmd_decr m);
     cmd_touch := at_field Cmd_touch (cmd_touch m);
     cmd_flush := at_field Cmd_flush (cmd_flush m);
     get_hits := at_field Get_hits (get_hits m);
     get_misses := at_field Get_misses (get_misses m);
     active_connections := active_connections m;
     total_connections := at_field Total_connections (total_connections m);
     rejected_connections := at_field Rejected_connections (rejected_connections m);
     bytes_read := at_field Bytes_read (bytes_read m);
     bytes_written := at_field Bytes_written (bytes_written m);
     cmd_latency := cmd_latency m;
     protocol_errors := at_field Protocol_errors (protocol_errors m);
     storage_errors := at_field Storage_errors (storage_errors m) |}.

(** [self.<field>.inc()] and [self.<field>.inc_by(n)]. *)
Definition inc (m : t) (f : field) : t := modify m f counter_inc.
Definition inc_by (m : t) (f : field) (n : Z) : t := modify m f (fun c => counter_inc_by c n).

(** [self.active_connections.inc()] and [.dec()]. *)
Definition modify_active (m : t) (g : gauge -> gauge) : t :=
  {| registry := registry m; cmd_get := cmd_get m; cmd_set := cmd_set m; cmd_add := cmd_add m;
     cmd_replace := cmd_replace m; cmd_delete := cmd_delete m; cmd_incr := cmd_incr m;
     cmd_decr := cmd_decr m; cmd_touch := cmd_touch m; cmd_flush := cmd_flush m;
     get_hits := get_hits m; get_misses := get_misses m;
     active_connections := g (active_connections m);
     total_connections := total_connections m;
     rejected_connections := rejected_connections m; bytes_read := bytes_read m;
     bytes_written := bytes_written m; cmd_latency := cmd_latency m;
     protocol_errors := protocol_errors m; storage_errors := storage_errors m |}.

Definition inc_active (m : t) : t := modify_active m gauge_inc.
Definition dec_active (m : t) : t := modify_active m gauge_dec.

Definition latency_buckets : list QArith_base.Q :=
  map (fun '(n, d) => QArith_base.Qmake (Zpos n) d)
    [(1, 10000); (5, 10000); (1, 1000); (2, 1000); (5, 1000); (1, 100); (25, 1000); (5, 100);
     (1, 10); (25, 100); (5, 10); (1, 1)]%positive.

(** The registrations of [new], in order. *)
Fixpoint register_all (r : Extern.registry) (ms : list (counter + gauge + histogram)) :
    outcome Extern.registry :=
  match ms with
  | [] => mret r
  | m :: ms => r ← unwrap (registry_register r m); register_all r ms
  end.

Definition new : outcome t :=
  let registry := registry_new in
  cmd_get ← unwrap (counter_new (str "petracache_cmd_get_total") (str "Total GET commands"));
  cmd_set ← unwrap (counter_new (str "petracache_cmd_set_total") (str "Total SET commands"));
  cmd_add ← unwrap (counter_new (str "petracache_cmd_add_total") (str "Total ADD commands"));
  cmd_replace ← unwrap
    (counter_new (str "petracache_cmd_replace_total") (str "Total REPLACE commands"));
  cmd_delete ← unwrap
    (counter_new (str "petracache_cmd_delete_total") (str "Total DELETE commands"));
  cmd_incr ← unwrap (counter_new (str "petracache_cmd_incr_total") (str "Total INCR commands"));
  cmd_decr ← unwrap (counter_new (str "petracache_cmd_decr_total") (str "Total DECR commands"));
  cmd_touch ← unwrap
    (counter_new (str "petracache_cmd_touch_total") (str "Total TOUCH commands"));
  cmd_flush ← unwrap
    (counter_new (str "petracache_cmd_flush_total") (str "Total FLUSH_ALL commands"));
  get_hits ← unwrap (counter_new (str "petracache_get_hits_total") (str "Total GET hits"));
  get_misses ← unwrap (counter_new (str "petracache_get_misses_total") (str "Total GET misses"));
  active_connections ← unwrap
    (gauge_new (str "petracache_active_connections") (str "Current active connections"));
  total_connections ← unwrap
    (counter_new (str "petracache_connections_total") (str "Total connections accepted"));
  rejected_connections ← unwrap
    (counter_new (str "petracache_rejected_connections_total") (str "Total connections rejected"));
  bytes_read ← unwrap (counter_new (str "petracache_bytes_read_total") (str "Total bytes read"));
  bytes_written ← unwrap
    (counter_new (str "petracache_bytes_written_total") (str "Total bytes written"));
  cmd_latency ← unwrap
    (histogram_with_opts (str "petracache_cmd_latency_seconds") (str "Command latency in seconds")
       latency_buckets);
  protocol_errors ← unwrap
    (counter_new (str "petracache_protocol_errors_total") (str "Total protocol errors"));
  storage_errors ← unwrap
    (counter_new (str "petracache_storage_errors_total") (str "Total storage errors"));
  registry ← register_all registry
    [inl (inl cmd_get); inl (inl cmd_set); inl (inl cmd_add); inl (inl cmd_replace);
     inl (inl cmd_delete); inl (inl cmd_incr); inl (inl cmd_decr); inl (inl cmd_touch);
     inl (inl cmd_flush); inl (inl get_hits); inl (inl get_misses);
     inl (inr active_connections); inl (inl total_connections);
     inl (inl rejected_connections); inl (inl bytes_read); inl (inl bytes_written);
     inr cmd_latency; inl (inl protocol_errors); inl (inl storage_errors)];
  mret {| registry := registry; cmd_get := cmd_get; cmd_set := cmd_set; cmd_add := cmd_add;
          cmd_replace := cmd_replace; cmd_delete := cmd_delete; cmd_incr := cmd_incr;
          cmd_decr := cmd_decr; cmd_touch := cmd_touch; cmd_flush := cmd_flush;
          get_hits := get_hits; get_misses := get_misses;
          active_connections := active_connections; total_connections := total_connections;
          rejected_connections := rejected_connections; bytes_read := bytes_read;
          bytes_written := bytes_written; cmd_latency := cmd_latency;
          protocol_errors := protocol_errors; storage_errors := storage_errors |}.

(** The registered metrics, whose state the encoder sees. *)
Definition collectors (m : t) : list (counter + gauge + histogram) :=
  [inl (inl (cmd_get m)); inl (inl (cmd_set m)); inl (inl (cmd_add m));
   inl (inl (cmd_replace m)); inl (inl (cmd_delete m)); inl (inl (cmd_incr m));
   inl (inl (cmd_decr m)); inl (inl (cmd_touch m)); inl (inl (cmd_flush m));
   inl (inl (get_hits m)); inl (inl (get_misses m)); inl (inr (active_connections m));
   inl (inl (total_connections m)); inl (inl (rejected_connections m));
   inl (inl (bytes_read m)); inl (inl (bytes_written m)); inr (cmd_latency m);
   inl (inl (protocol_errors m)); inl (inl (storage_errors m))].

(** The lines [gather] adds for one of the static counters. *)
Definition static_counter (name help : bytes) (v : Z) : bytes :=
  [LF] ++ str "# HELP " ++ name ++ str " " ++ help ++ [LF]
  ++ str "# TYPE " ++ name ++ str " counter" ++ [LF]
  ++ name ++ str " " ++ dec v ++ [LF].

(** [gather]; the arguments are the values of [EXPIRED_KEYS_REMOVED] and
    [TTL_COMPACTION_REMOVED]. *)
Definition gather (m : t) (expired_removed compaction_removed : Z) : outcome bytes :=
  buffer ← unwrap (text_encode (registry m) (collectors m));
  output ← unwrap (from_utf8 buffer);
  let output := output ++
    static_counter (str "petracache_expired_keys_removed_total")
      (str "Keys removed by lazy expiration or background scan") expired_removed in
  mret (output ++
    static_counter (str "petracache_ttl_compaction_removed_total")
      (str "Keys removed by TTL compaction filter") compaction_removed).

End metrics.
End Metrics.

(** ** Facts *)

Section facts.
Context `{PRS : PrometheusSpec}.

Lemma get_modify (m : Metrics.t) f g f' :
  Metrics.get (Metrics.modify m f g) f' =
  if decide (f = f') then g (Metrics.get m f') else Metrics.get m f'.
Proof. by destruct f'. Qed.

Lemma get_modify_active (m : Metrics.t) g f :
  Metrics.get (Metrics.modify_active m g) f = Metrics.get m f.
Proof. by destruct f. Qed.

Lemma register_all_ok r (ms : list (counter + gauge + histogram)) :
  NoDup (map metric_name ms) -> (forall m, m ∈ ms -> metric_name m ∉ registered r) ->
  exists r', Metrics.register_all r ms = Ret r' /\
    registered r' = rev (map metric_name ms) ++ registered r.
Proof.
  revert r. induction ms as [|m ms IH]; intros r Hnd Hr; cbn [Metrics.register_all].
  { by exists r. }
  cbn [map] in Hnd. apply NoDup_cons in Hnd as [Hm Hnd].
  destruct (registry_register_ok r m) as (r1 & -> & Hr1); [apply Hr; by left|].
  cbn [unwrap mbind outcome_bind]. destruct (IH r1 Hnd) as (r' & -> & Hr').
  - intros m' Hm'. rewrite Hr1, not_elem_of_cons. split.
    + intros E. apply Hm. rewrite <- E. by apply list_elem_of_fmap_2.
    + apply Hr. by right.
  - exists r'. split; [done|]. rewrite Hr', Hr1. cbn. by rewrite <- app_assoc.
Qed.

(** Every metric of the record is registered. *)
Definition registered_ok (m : Metrics.t) : Prop :=
  Forall (fun c => metric_name c ∈ registered (Metrics.registry m)) (Metrics.collectors m).

Lemma modify_registered m f g :
  (forall c, metric_name (inl (inl (g c))) = metric_name (inl (inl c))) ->
  registered_ok m -> registered_ok (Metrics.modify m f g).
Proof.
  intros Hg.
  assert (Hif : forall f' c, metric_name (inl (inl (if decide (f = f') then g c else c))) =
    metric_name (inl (inl c))) by (intros; by case_decide).
  assert (Hname : map metric_name (Metrics.collectors (Metrics.modify m f g)) =
    map metric_name (Metrics.collectors m)).
  { unfold Metrics.collectors, Metrics.modify. cbn -[decide]. by rewrite !Hif. }
  unfold registered_ok. intros H.
  rewrite <- (Forall_map metric_name (fun n => n ∈ registered (Metrics.registry m))) in *.
  change (Metrics.registry (Metrics.modify m f g)) with (Metrics.registry m). by rewrite Hname.
Qed.

Lemma modify_active_registered m g :
  (forall c, metric_name (inl (inr (g c))) = metric_name (inl (inr c))) ->
  registered_ok m -> registered_ok (Metrics.modify_active m g).
Proof.
  intros Hg. unfold registered_ok, Metrics.collectors. rewrite !Forall_cons.
  cbn. rewrite Hg. tauto.
Qed.

Lemma gather_eq m e c :
  registered_ok m ->
  exists s, text_encode (Metrics.registry m) (Metrics.collectors m) = Some s /\
    utf8_valid s = true /\
    Metrics.gather m e c = Ret (s
      ++ Metrics.static_counter (str "petracache_expired_keys_removed_total")
           (str "Keys removed by lazy expiration or background scan") e
      ++ Metrics.static_counter (str "petracache_ttl_compaction_removed_total")
           (str "Keys removed by TTL compaction filter") c).
Proof.
  intros Hm. destruct (text_encode_ok (Metrics.registry m) (Metrics.collectors m) Hm)
    as (s & Hs & Hv).
  exists s. split; [done|]. split; [done|]. unfold Metrics.gather. rewrite Hs.
  cbn [unwrap mbind outcome_bind]. unfold from_utf8. rewrite Hv.
  cbn [unwrap mbind outcome_bind mret outcome_ret]. by rewrite <- app_assoc.
Qed.

Lemma wrap_i64_add a b : wrap_i64 (wrap_i64 a + b) = wrap_i64 (a + b).
Proof.
  unfold wrap_i64. f_equal.
  replace ((a + 2 ^ 63) mod 2 ^ 64 - 2 ^ 63 + b + 2 ^ 63) with ((a + 2 ^ 63) mod 2 ^ 64 + b) by lia.
  rewrite Z.add_mod_idemp_l by done. f_equal. lia.
Qed.

End facts.

(** The names of the metrics, in the order of their registration. *)
Definition metric_names : list bytes :=
  map (fun s => str (String.append "petracache_" s))
    ["cmd_get_total"; "cmd_set_total"; "cmd_add_total"; "cmd_replace_total";
     "cmd_delete_total"; "cmd_incr_total"; "cmd_decr_total"; "cmd_touch_total";
     "cmd_flush_total"; "get_hits_total"; "get_misses_total"; "active_connections";
     "connections_total"; "rejected_connections_total"; "bytes_read_total";
     "bytes_written_total"; "cmd_latency_seconds"; "protocol_errors_total";
     "storage_errors_total"]%string.

Lemma metrics_new_spec `{PRS : PrometheusSpec} :
  exists m, Metrics.new = Ret m /\ (forall f, counter_get (Metrics.get m f) = 0) /\
    gauge_get (Metrics.active_connections m) = 0 /\
    rev (registered (Metrics.registry m)) = metric_names /\ registered_ok m.
Proof.
  unfold Metrics.new.
  repeat match goal with
  | |- context [counter_new ?n ?h] =>
      let c := fresh "c" in let H := fresh "Hc" in let H0 := fresh "Hz" in let Hn := fresh "Hn" in
      destruct (counter_new_ok n h) as (c & H & H0 & Hn); [by vm_compute|done|];
      rewrite H; clear H; cbn [unwrap mbind outcome_bind]
  | |- context [gauge_new ?n ?h] =>
      let c := fresh "g" in let H := fresh "Hc" in let H0 := fresh "Hz" in let Hn := fresh "Hn" in
      destruct (gauge_new_ok n h) as (c & H & H0 & Hn); [by vm_compute|done|];
      rewrite H; clear H; cbn [unwrap mbind outcome_bind]
  | |- context [histogram_with_opts ?n ?h ?b] =>
      let c := fresh "h" in let H := fresh "Hc" in let Hn := fresh "Hn" in
      destruct (histogram_with_opts_ok n h b) as (c & H & Hn);
      [by vm_compute|done|by repeat constructor|];
      rewrite H; clear H; cbn [unwrap mbind outcome_bind]
  end.
  match goal with |- context [Metrics.register_all ?r ?ms] =>
    destruct (register_all_ok r ms) as (r' & -> & Hr') end.
  - cbn [map]. repeat match goal with H : metric_name _ = _ |- _ => rewrite H; clear H end.
    by_compute.
  - intros m _. rewrite registered_new. apply not_elem_of_nil.
  - cbn [mbind outcome_bind]. rewrite registered_new, app_nil_r in Hr'.
    eexists. split; [done|]. split; [by intros []|]. split; [done|].
    cbn [Metrics.registry]. split.
    2:{ apply Forall_forall. intros x Hx. cbn [Metrics.registry]. rewrite Hr'.
        apply list_elem_of_In. rewrite <- in_rev. apply list_elem_of_In.
        by apply list_elem_of_fmap_2. }
    rewrite Hr', rev_involutive. cbn [map]. repeat match goal with H : metric_name _ = _ |- _ => rewrite H; clear H end. done.
Qed.

(** ** The properties *)

(** C36 Startup does not panic on its metrics: every name is a valid metric
    name, no two are equal, the histogram buckets increase, so none of the
    [unwrap]s of [Metrics::new] fails; all counters and the gauge start at
    zero and exactly the 19 metrics are registered. *)
Theorem metrics_new_ok `{PRS : PrometheusSpec} :
  exists m, Metrics.new = Ret m /\ (forall f, counter_get (Metrics.get m f) = 0) /\
    gauge_get (Metrics.active_connections m) = 0 /\
    rev (registered (Metrics.registry m)) = metric_names /\ registered_ok m.
Proof. apply metrics_new_spec. Qed.

(** The metrics page never fails: whatever the counters have been updated
    to since [Metrics::new], [gather] returns the exposition of the registry
    followed by the two static TTL counters with their current values in
    decimal. *)
Theorem gather_ok `{PRS : PrometheusSpec} (m : Metrics.t) :
  registered_ok m ->
  (forall f n, registered_ok (Metrics.inc m f) /\ registered_ok (Metrics.inc_by m f n)) /\
  registered_ok (Metrics.inc_active m) /\ registered_ok (Metrics.dec_active m) /\
  forall e c, 0 <= e <= u64_max -> 0 <= c <= u64_max -> exists s rest1 rest2 n1 n2,
    Metrics.gather m e c = Ret (s ++ rest1 ++ n1 ++ rest2 ++ n2 ++ [LF]) /\
    text_encode (Metrics.registry m) (Metrics.collectors m) = Some s /\
    (exists pre, rest1 = pre ++ str "petracache_expired_keys_removed_total ") /\
    parse_unsigned u64_max n1 = Some e /\
    (exists pre, rest2 = [LF] ++ pre ++ str "petracache_ttl_compaction_removed_total ") /\
    parse_unsigned u64_max n2 = Some c.
Proof.
  intros Hm. split; [|split; [|split]].
  - intros f n. split; apply modify_registered; [apply counter_inc_name| |
      intros; apply counter_inc_by_name|]; done.
  - apply modify_active_registered; [apply gauge_inc_name|done].
  - apply modify_active_registered; [apply gauge_dec_name|done].
  - intros e c He Hc. destruct (gather_eq m e c Hm) as (s & Hs & _ & ->).
    unfold Metrics.static_counter.
    set (name1 := str "petracache_expired_keys_removed_total").
    set (name2 := str "petracache_ttl_compaction_removed_total").
    exists s, (([LF] ++ str "# HELP " ++ name1 ++ str " "
      ++ str "Keys removed by lazy expiration or background scan" ++ [LF]
      ++ str "# TYPE " ++ name1 ++ str " counter" ++ [LF]) ++ name1 ++ str " ").
    exists ([LF] ++ ([LF] ++ str "# HELP " ++ name2 ++ str " "
      ++ str "Keys removed by TTL compaction filter" ++ [LF]
      ++ str "# TYPE " ++ name2 ++ str " counter" ++ [LF]) ++ name2 ++ str " ").
    exists (dec e), (dec c). split; [by rewrite <- !app_assoc|].
    split; [done|]. split; [by eexists|]. split; [by apply parse_unsigned_dec|].
    split; [by eexists|]. by apply parse_unsigned_dec.
Qed.

(** ** Witness *)

Lemma metrics_new_ok_witness :
  exists m : Metrics.t (PR := ref_prometheus), Metrics.new = Ret m /\ length (Metrics.registry m) = 19%nat.
Proof.
  destruct (metrics_new_ok (PRS := ref_prometheus_spec)) as (m & Hm & _ & _ & Hr & _).
  exists m. split; [done|]. cbn in Hr. rewrite <- rev_length, Hr. done.
Defined.

Lemma gather_ok_witness :
  exists m : Metrics.t (PR := ref_prometheus), Metrics.new = Ret m /\
    registered_ok (PRS := ref_prometheus_spec) (Metrics.inc m Metrics.Cmd_get).
Proof.
  eexists. split; [reflexivity|].
  refine (proj1 (proj1 (gather_ok (PRS := ref_prometheus_spec) _ _) Metrics.Cmd_get 0)).
  unfold registered_ok, Metrics.collectors. repeat constructor; by_compute.
Defined.
