(* ===== verification/Config.v ===== *)
(** * Configuration (src/config.rs)

    The configuration records with their defaults, and the two ways to load
    them.  A [String] or [PathBuf] is its bytes. *)

From S2P Require Import Prelude RustStd Extern Errors.
#[local] Open Scope petra_scope.

(** A record in the Module named after its [struct], with its [default]. *)
Module ServerConfig.
Record t := {
  listen_addr : bytes;
  max_connections : Z;
  read_buffer_size : Z;
  write_buffer_size : Z;
  worker_threads : Z;
  connection_timeout_secs : Z;
}.

Definition default : t := {|
  listen_addr := str "127.0.0.1:11211";
  max_connections := 10000;
  read_buffer_size := 8192;
  write_buffer_size := 8192;
  worker_threads := 0;
  connection_timeout_secs := 0;
|}.
End ServerConfig.

Module StorageConfig.
Record t := {
  db_path : bytes;
  block_cache_size : Z;
  write_buffer_size : Z;
  max_write_buffer_number : Z;
  target_file_size_base : Z;
  max_background_jobs : Z;
  enable_compression : bool;
  enable_ttl_compaction : bool;
  rocksdb_log_level : bytes;
  rocksdb_max_log_file_size : Z;
  rocksdb_keep_log_file_num : Z;
}.

Definition default : t := {|
  db_path := str "./data/rocksdb";
  block_cache_size := 1024 * 1024 * 1024;
  write_buffer_size := 64 * 1024 * 1024;
  max_write_buffer_number := 3;
  target_file_size_base := 64 * 1024 * 1024;
  max_background_jobs := 4;
  enable_compression := false;
  enable_ttl_compaction := true;
  rocksdb_log_level := str "error";
  rocksdb_max_log_file_size := 10 * 1024 * 1024;
  rocksdb_keep_log_file_num := 5;
|}.
End StorageConfig.

Module MetricsConfig.
Record t := { enabled : bool; listen_addr : bytes }.

Definition default : t := {| enabled := true; listen_addr := str "127.0.0.1:9090" |}.
End MetricsConfig.

Module Config.
Record t := {
  server : ServerConfig.t;
  storage : StorageConfig.t;
  metrics : MetricsConfig.t;
}.

Definition default : t := {|
  server := ServerConfig.default;
  storage := StorageConfig.default;
  metrics := MetricsConfig.default;
|}.

(** Assignments to one field. *)
Definition set_listen_addr (c : t) (addr : bytes) : t :=
  let s := server c in
  {| server := {| ServerConfig.listen_addr := addr;
                  ServerConfig.max_connections := ServerConfig.max_connections s;
                  ServerConfig.read_buffer_size := ServerConfig.read_buffer_size s;
                  ServerConfig.write_buffer_size := ServerConfig.write_buffer_size s;
                  ServerConfig.worker_threads := ServerConfig.worker_threads s;
                  ServerConfig.connection_timeout_secs :=
                    ServerConfig.connection_timeout_secs s |};
     storage := storage c; metrics := metrics c |}.

Definition set_max_connections (c : t) (n : Z) : t :=
  let s := server c in
  {| server := {| ServerConfig.listen_addr := ServerConfig.listen_addr s;
                  ServerConfig.max_connections := n;
                  ServerConfig.read_buffer_size := ServerConfig.read_buffer_size s;
                  ServerConfig.write_buffer_size := ServerConfig.write_buffer_size s;
                  ServerConfig.worker_threads := ServerConfig.worker_threads s;
                  ServerConfig.connection_timeout_secs :=
                    ServerConfig.connection_timeout_secs s |};
     storage := storage c; metrics := metrics c |}.

Definition set_db_path (c : t) (path : bytes) : t :=
  let s := storage c in
  {| server := server c;
     storage := {| StorageConfig.db_path := path;
                   StorageConfig.block_cache_size := StorageConfig.block_cache_size s;
                   StorageConfig.write_buffer_size := StorageConfig.write_buffer_size s;
                   StorageConfig.max_write_buffer_number :=
                     StorageConfig.max_write_buffer_number s;
                   StorageConfig.target_file_size_base := StorageConfig.target_file_size_base s;
                   StorageConfig.max_background_jobs := StorageConfig.max_background_jobs s;
                   StorageConfig.enable_compression := StorageConfig.enable_compression s;
                   StorageConfig.enable_ttl_compaction := StorageConfig.enable_ttl_compaction s;
                   StorageConfig.rocksdb_log_level := StorageConfig.rocksdb_log_level s;
                   StorageConfig.rocksdb_max_log_file_size :=
                     StorageConfig.rocksdb_max_log_file_size s;
                   StorageConfig.rocksdb_keep_log_file_num :=
                     StorageConfig.rocksdb_keep_log_file_num s |};
     metrics := metrics c |}.

Definition set_metrics (c : t) (enabled : bool) (addr : bytes) : t :=
  {| server := server c; storage := storage c;
     metrics := {| MetricsConfig.enabled := enabled; MetricsConfig.listen_addr := addr |} |}.

(** [Config::from_file]: [read_to_string] reads the file and [toml_from_str]
    is the deserializer; the errors of both have a [Display] text. *)
Definition from_file {E IO} (read_to_string : bytes -> result bytes bytes)
    (toml_from_str : bytes -> result t bytes) (path : bytes) : result t (PetraCacheError E IO) :=
  match read_to_string path with
  | Err e => Err (ConfigError (str "Failed to read config file: " ++ e))
  | Ok contents =>
      match toml_from_str contents with
      | Err e => Err (ConfigError (str "Failed to parse config: " ++ e))
      | Ok c => Ok c
      end
  end.

(** [enabled.to_lowercase() == "true" || enabled == "1"].  No character
    outside ASCII has a lowercase letter of "true" as its lowercase form, so
    the comparison is the one of the ASCII lowercase form. *)
Definition parse_enabled (enabled : bytes) : bool :=
  bool_decide (map to_ascii_lowercase enabled = str "true")
  || bool_decide (enabled = str "1").

(** [Config::from_env]; [var] is [std::env::var(..).ok()]. *)
Definition from_env (var : bytes -> option bytes) : t :=
  let config := default in
  let config :=
    match var (str "PETRACACHE_LISTEN_ADDR") with
    | Some addr => set_listen_addr config addr
    | None => config
    end in
  let config :=
    match var (str "PETRACACHE_MAX_CONNECTIONS") with
    | Some max_conn =>
        match parse_unsigned u64_max max_conn with
        | Some n => set_max_connections config n
        | None => config
        end
    | None => config
    end in
  let config :=
    match var (str "PETRACACHE_DB_PATH") with
    | Some path => set_db_path config path
    | None => config
    end in
  let config :=
    match var (str "PETRACACHE_METRICS_ADDR") with
    | Some addr => set_metrics config (MetricsConfig.enabled (metrics config)) addr
    | None => config
    end in
  match var (str "PETRACACHE_METRICS_ENABLED") with
  | Some enabled =>
      set_metrics config (parse_enabled enabled) (MetricsConfig.listen_addr (metrics config))
  | None => config
  end.
End Config.

(** ** Letter case *)

(** Two letters that differ in case at most: an uppercase one is 32 below its
    lowercase form. *)
Definition same_letter (b lower : byte) : Prop :=
  b = lower \/ (in_range 65 90 b = true /\ u8 lower = u8 b + 32).

Lemma lowercase_letter b lower :
  in_range 97 122 lower = true -> to_ascii_lowercase b = lower <-> same_letter b lower.
Proof.
  intros Hl. unfold same_letter, to_ascii_lowercase. destruct (in_range 65 90 b) eqn:Hb.
  - unfold in_range in *. zbool. split.
    + intros <-. right. split; [done|]. rewrite u8_to_u8, Z.mod_small; lia.
    + intros [->|[_ Hu]]; [lia|]. by rewrite <- Hu, to_u8_u8.
  - split; [by left|]. by intros [->|[? _]].
Qed.

Lemma parse_enabled_spec v :
  Config.parse_enabled v = true <-> Forall2 same_letter v (str "true") \/ v = str "1".
Proof.
  unfold Config.parse_enabled. rewrite orb_true_iff, !bool_decide_eq_true. f_equiv.
  assert (Hl : Forall (fun b => in_range 97 122 b = true) (str "true")) by by_compute.
  revert v. generalize (str "true") Hl. intros l Hl'. clear Hl.
  induction Hl' as [|b l Hb _ IH]; intros [|a v]; cbn [map];
    [split; [constructor|done]|split; [done|by inversion 1]|split; [done|by inversion 1]|].
  rewrite Forall2_cons. rewrite <- IH, <- lowercase_letter by done.
  split; [by intros [= <- <-]|by intros [-> ->]].
Qed.

(** ** The properties *)

(** C37 Each environment variable overrides its own setting and nothing else:
    addresses and the path are taken as given, the connection limit when it
    is a number (an unparsable one keeps the default of 10000), and the
    metrics switch is on without the variable, and else exactly if it is "1"
    or "true" in any letter case; every other setting has its documented
    default. *)
Theorem from_env_spec (var : bytes -> option bytes) :
  let get name fallback := default fallback (var (str name)) in
  exists enabled,
    (enabled = true <->
       match var (str "PETRACACHE_METRICS_ENABLED") with
       | None => True
       | Some v => Forall2 same_letter v (str "true") \/ v = str "1"
       end) /\
    Config.from_env var =
    {| Config.server :=
         {| ServerConfig.listen_addr := get "PETRACACHE_LISTEN_ADDR" (str "127.0.0.1:11211");
            ServerConfig.max_connections :=
              default 10000 (var (str "PETRACACHE_MAX_CONNECTIONS") ≫= parse_unsigned u64_max);
            ServerConfig.read_buffer_size := 8192;
            ServerConfig.write_buffer_size := 8192;
            ServerConfig.worker_threads := 0;
            ServerConfig.connection_timeout_secs := 0 |};
       Config.storage :=
         {| StorageConfig.db_path := get "PETRACACHE_DB_PATH" (str "./data/rocksdb");
            StorageConfig.block_cache_size := 2 ^ 30;
            StorageConfig.write_buffer_size := 64 * 2 ^ 20;
            StorageConfig.max_write_buffer_number := 3;
            StorageConfig.target_file_size_base := 64 * 2 ^ 20;
            StorageConfig.max_background_jobs := 4;
            StorageConfig.enable_compression := false;
            StorageConfig.enable_ttl_compaction := true;
            StorageConfig.rocksdb_log_level := str "error";
            StorageConfig.rocksdb_max_log_file_size := 10 * 2 ^ 20;
            StorageConfig.rocksdb_keep_log_file_num := 5 |};
       Config.metrics :=
         {| MetricsConfig.enabled := enabled;
            MetricsConfig.listen_addr := get "PETRACACHE_METRICS_ADDR" (str "127.0.0.1:9090") |} |}.
Proof.
  cbn zeta.
  exists (match var (str "PETRACACHE_METRICS_ENABLED") with
          | None => true
          | Some v => Config.parse_enabled v
          end).
  split; [destruct (var (str "PETRACACHE_METRICS_ENABLED")); [apply parse_enabled_spec|done]|].
  unfold Config.from_env.
  destruct (var (str "PETRACACHE_LISTEN_ADDR")), (var (str "PETRACACHE_DB_PATH")),
    (var (str "PETRACACHE_METRICS_ADDR")), (var (str "PETRACACHE_METRICS_ENABLED")),
    (var (str "PETRACACHE_MAX_CONNECTIONS")) as [n|]; try done; cbn [mbind option_bind];
    by destruct (parse_unsigned u64_max n).
Qed.
