(* ===== verification/Open.v ===== *)
(** * Opening the database (src/storage/rocks.rs, [RocksStorage::open])

    The options the code passes to RocksDB, as the list of its calls on the
    [Options] object, the directory it creates and the storage it returns. *)

From S2P Require Import Prelude RustStd Extern Reference Errors Value Storage Config.
#[local] Open Scope petra_scope.

(** ** [Path::parent] on Unix

    The path without its last component, [None] for the root and the empty
    path; trailing slashes and ["/."] do not count as components. *)
Definition SLASH : byte := x2f.
Definition DOT : byte := x2e.

(** Drop trailing separators from a reversed path, but not the root. *)
Fixpoint trim_back (r : bytes) : bytes :=
  match r with
  | [] => []
  | b :: r' =>
      if bool_decide (b = SLASH) then
        match r' with [] => r | _ :: _ => trim_back r' end
      else if bool_decide (b = DOT) && bool_decide (head r' = Some SLASH) then trim_back r'
      else r
  end.

Fixpoint drop_component (r : bytes) : bytes :=
  match r with
  | [] => []
  | b :: r' => if bool_decide (b = SLASH) then r else drop_component r'
  end.

Definition path_parent (p : bytes) : option bytes :=
  let r := trim_back (rev p) in
  if bool_decide (r = []) || bool_decide (r = [SLASH]) then None
  else Some (rev (trim_back (drop_component r))).

(** ** Options *)

Inductive LogLevel := LogDebug | LogInfo | LogWarn | LogError | LogFatal | LogHeader.

#[export] Instance LogLevel_eq_dec : EqDecision LogLevel.
Proof. solve_decision. Defined.

(** [parse_log_level].  No character outside ASCII has a letter of these
    names as its lowercase form. *)
Definition parse_log_level (level : bytes) : LogLevel :=
  let level := map to_ascii_lowercase level in
  if bool_decide (level = str "debug") then LogDebug
  else if bool_decide (level = str "info") then LogInfo
  else if bool_decide (level = str "warn") then LogWarn
  else if bool_decide (level = str "fatal") then LogFatal
  else if bool_decide (level = str "header") then LogHeader
  else LogError.

Inductive Compression := Lz4 | NoCompression.

(** The calls on [BlockBasedOptions] and on [Options]. *)
Inductive block_option :=
| SetBlockCache (lru_size : Z)
| SetBloomFilter (bits_per_key : Z) (block_based : bool)
| SetCacheIndexAndFilterBlocks (b : bool)
| SetPinL0FilterAndIndexBlocksInCache (b : bool)
| SetBlockSize (n : Z).

Inductive db_option :=
| CreateIfMissing (b : bool)
| SetMaxBackgroundJobs (n : Z)
| SetWriteBufferSize (n : Z)
| SetMaxWriteBufferNumber (n : Z)
| SetTargetFileSizeBase (n : Z)
| SetCompactionStyleLevel
| SetLogLevel (l : LogLevel)
| SetMaxLogFileSize (n : Z)
| SetKeepLogFileNum (n : Z)
| SetCompressionType (c : Compression)
| SetBlockBasedTableFactory (block_opts : list block_option)
| SetCompactionFilter (name : bytes) (filter : CompactionFilter (Clock * Z)).

Definition block_opts (config : StorageConfig.t) : list block_option :=
  [SetBlockCache (StorageConfig.block_cache_size config);
   SetBloomFilter 10 false;
   SetCacheIndexAndFilterBlocks true;
   SetPinL0FilterAndIndexBlocksInCache true;
   SetBlockSize (16 * 1024)].

Definition db_opts (config : StorageConfig.t) : list db_option :=
  [CreateIfMissing true;
   SetMaxBackgroundJobs (StorageConfig.max_background_jobs config);
   SetWriteBufferSize (StorageConfig.write_buffer_size config);
   SetMaxWriteBufferNumber (StorageConfig.max_write_buffer_number config);
   SetTargetFileSizeBase (StorageConfig.target_file_size_base config);
   SetCompactionStyleLevel;
   SetLogLevel (parse_log_level (StorageConfig.rocksdb_log_level config));
   SetMaxLogFileSize (StorageConfig.rocksdb_max_log_file_size config);
   SetKeepLogFileNum (StorageConfig.rocksdb_keep_log_file_num config);
   SetCompressionType
     (if StorageConfig.enable_compression config then Lz4 else NoCompression);
   SetBlockBasedTableFactory (block_opts config)]
  ++ (if StorageConfig.enable_ttl_compaction config
      then [SetCompactionFilter (str "ttl_filter") ttl_compaction_filter] else []).

(** Whether the options install a compaction filter. *)
Definition has_filter (opts : list db_option) : bool :=
  existsb (fun o => match o with SetCompactionFilter _ _ => true | _ => false end) opts.

(** ** open

    [FS] is the file system; creating directories and opening the database
    may fail. *)
Class Disk (FS DB E : Type) := {
  create_dir_all : FS -> bytes -> FS * result unit bytes;
  db_open : FS -> list db_option -> bytes -> FS * result DB E;
}.

Section open.
Context `{R : RocksDB DB WO E} {FS : Type} {D : Disk FS DB E}.

(** The part of [open] after the options. *)
Definition open_db (fs : FS) (config : StorageConfig.t) (opts : list db_option) (c : Clock)
    (expired compacted : Z) : FS * result (Store DB WO) (StorageError E) :=
  let '(fs, r) := db_open fs opts (StorageConfig.db_path config) in
  match r with
  | Err e => (fs, Err (RocksDb e))
  | Ok db =>
      let write_opts := wo_disable_wal wo_default true in
      (fs, Ok {| st_db := db; st_write_opts := write_opts; st_ttl_filter := has_filter opts;
                 st_clock := c; EXPIRED_KEYS_REMOVED := expired;
                 TTL_COMPACTION_REMOVED := compacted |})
  end.

(** [RocksStorage::open], with the clock and the static counters of the
    process. *)
Definition open (fs : FS) (config : StorageConfig.t) (c : Clock) (expired compacted : Z) :
    FS * result (Store DB WO) (StorageError E) :=
  let opts := db_opts config in
  match path_parent (StorageConfig.db_path config) with
  | Some parent =>
      let '(fs, r) := create_dir_all fs parent in
      match r with
      | Err e => (fs, Err (Internal (str "Failed to create directory: " ++ e)))
      | Ok _ => open_db fs config opts c expired compacted
      end
  | None => open_db fs config opts c expired compacted
  end.

End open.

(** ** Facts *)

Lemma has_filter_db_opts config :
  has_filter (db_opts config) = StorageConfig.enable_ttl_compaction config.
Proof. unfold db_opts. by destruct (StorageConfig.enable_ttl_compaction config). Qed.
