(* ===== verification/ServerState.v ===== *)
(** * The state of the server (src/server/mod.rs)

    The [Server] record, shared by all connections, and its creation.  The
    [Arc]s are the one value the record holds: every task that updates it
    updates the state the others see. *)

From S2P Require Import Prelude RustStd Extern Errors Value Storage Metrics Config.
#[local] Open Scope petra_scope.

Module Server.

Record t `{PR : Prometheus} (DB WO S : Type) := {
  config : ServerConfig.t;
  storage : Store DB WO;
  metrics : Metrics.t;
  connection_semaphore : S;
  cancel_token : bool;
}.
Arguments config {PR DB WO S}.
Arguments storage {PR DB WO S}.
Arguments metrics {PR DB WO S}.
Arguments connection_semaphore {PR DB WO S}.
Arguments cancel_token {PR DB WO S}.

Section server.
Context `{PR : Prometheus} {DB WO S : Type} `{SM : Semaphore S}.

(** [Server::new]; the cancellation token is a flag that starts unset. *)
Definition new (config : ServerConfig.t) (storage : Store DB WO) (metrics : Metrics.t) :
    outcome (t DB WO S) :=
  connection_semaphore ← unwrap (sem_new (ServerConfig.max_connections config));
  mret {| config := config; storage := storage; metrics := metrics;
          connection_semaphore := connection_semaphore; cancel_token := false |}.

(** Updates of one component. *)
Definition set_storage (s : t DB WO S) (st : Store DB WO) : t DB WO S :=
  {| config := config s; storage := st; metrics := metrics s;
     connection_semaphore := connection_semaphore s; cancel_token := cancel_token s |}.

Definition set_metrics (s : t DB WO S) (m : Metrics.t) : t DB WO S :=
  {| config := config s; storage := storage s; metrics := m;
     connection_semaphore := connection_semaphore s; cancel_token := cancel_token s |}.

Definition set_semaphore (s : t DB WO S) (sem : S) : t DB WO S :=
  {| config := config s; storage := storage s; metrics := metrics s;
     connection_semaphore := sem; cancel_token := cancel_token s |}.

Definition cancel (s : t DB WO S) : t DB WO S :=
  {| config := config s; storage := storage s; metrics := metrics s;
     connection_semaphore := connection_semaphore s; cancel_token := true |}.

(** [server.metrics.<field>.inc()] and [.inc_by(n)]. *)
Definition inc (s : t DB WO S) (f : Metrics.field) : t DB WO S :=
  set_metrics s (Metrics.inc (metrics s) f).

Definition inc_by (s : t DB WO S) (f : Metrics.field) (n : Z) : t DB WO S :=
  set_metrics s (Metrics.inc_by (metrics s) f n).

End server.
End Server.
