(* ===== verification/Handler.v ===== *)
(** * The command handlers (src/server/handler.rs)

    [execute] runs a parsed command against the shared server state and
    writes its replies. *)

From S2P Require Import Prelude RustStd Extern Errors Command Value Storage Response Metrics.
From S2P Require Import Config ServerState.
#[local] Open Scope petra_scope.

(** [concat!("petracache ", env!("CARGO_PKG_VERSION"))]. *)
Definition version_text : bytes := str "petracache 0.1.0".

Section handler.
Context `{R : RocksDB DB WO E} `{BM : BytesMut B} {IT : Itoa} {PR : Prometheus} {S : Type}.

Abbreviation server := (Server.t DB WO S).
Abbreviation writer := (ResponseWriter.t B).

Definition handle_version (response : writer) : writer :=
  ResponseWriter.version response version_text.

(** The loop over the results of [get_multi]. *)
Fixpoint write_results (s : server) (results : list (bytes * option StoredValue))
    (response : writer) : server * writer :=
  match results with
  | [] => (s, response)
  | (key, value_opt) :: results =>
      match value_opt with
      | Some value =>
          write_results (Server.inc s Metrics.Get_hits) results
            (ResponseWriter.value response key (sv_flags value) (sv_data value))
      | None => write_results (Server.inc s Metrics.Get_misses) results response
      end
  end.

Definition handle_get (s : server) (keys : list bytes) (response : writer) :
    outcome (server * writer) :=
  match keys with
  | [key] =>
      '(st, r) ← RocksStorage.get (Server.storage s) key;
      let s := Server.set_storage s st in
      match r with
      | Ok (Some value) =>
          let s := Server.inc s Metrics.Get_hits in
          mret (s, ResponseWriter.end_
                     (ResponseWriter.value response key (sv_flags value) (sv_data value)))
      | Ok None => mret (Server.inc s Metrics.Get_misses, ResponseWriter.end_ response)
      | Err e =>
          mret (Server.inc s Metrics.Storage_errors,
                ResponseWriter.server_error response (StorageError_display e))
      end
  | _ =>
      '(st, r) ← RocksStorage.get_multi (Server.storage s) keys;
      let s := Server.set_storage s st in
      match r with
      | Ok results =>
          let '(s, response) := write_results s results response in
          mret (s, ResponseWriter.end_ response)
      | Err e =>
          mret (Server.inc s Metrics.Storage_errors,
                ResponseWriter.server_error response (StorageError_display e))
      end
  end.

Definition handle_set (s : server) (key : bytes) (flags exptime : Z) (data : bytes)
    (response : writer) : server * writer :=
  let '(value, c) := stored_value_new (st_clock (Server.storage s)) flags exptime data in
  let '(st, r) := RocksStorage.set (set_clock (Server.storage s) c) key value in
  let s := Server.set_storage s st in
  match r with
  | Ok _ => (s, ResponseWriter.stored response)
  | Err e =>
      (Server.inc s Metrics.Storage_errors,
       ResponseWriter.server_error response (StorageError_display e))
  end.

Definition handle_delete (s : server) (key : bytes) (response : writer) : server * writer :=
  let '(st, r) := RocksStorage.delete (Server.storage s) key in
  let s := Server.set_storage s st in
  match r with
  | Ok true => (s, ResponseWriter.deleted response)
  | Ok false => (s, ResponseWriter.not_found response)
  | Err e =>
      (Server.inc s Metrics.Storage_errors,
       ResponseWriter.server_error response (StorageError_display e))
  end.

Definition execute (s : server) (cmd : Command) (response : writer) : outcome (server * writer) :=
  match cmd with
  | Get keys => handle_get (Server.inc s Metrics.Cmd_get) keys response
  | Set_ key flags exptime data _ =>
      mret (handle_set (Server.inc s Metrics.Cmd_set) key flags exptime data response)
  | Delete key _ => mret (handle_delete (Server.inc s Metrics.Cmd_delete) key response)
  | Version => mret (s, handle_version response)
  | Quit => mret (s, response)
  end.

End handler.
