(* ===== verification/Connection.v ===== *)
(** * Connections (src/server/connection.rs)

    [handle] as a machine: [process] is the inner loop over the commands in
    the buffer, [on_read] the arm of the [select!] that has read from the
    stream, [turn] one round of the outer loop and [run] the outer loop over
    the choices of its [select!]s. *)

From S2P Require Import Prelude RustStd Extern Errors Command Parser Value Storage Response.
From S2P Require Import Metrics Config ServerState Handler.
#[local] Open Scope petra_scope.

Module Connection.

(** The local variables of [handle]. *)
Record conn (T B : Type) := {
  stream : T;
  read_buf : B;
  response : ResponseWriter.t B;
  pending_storage : option PendingStorageCommand;
}.
Arguments stream {T B}.
Arguments read_buf {T B}.
Arguments response {T B}.
Arguments pending_storage {T B}.

(** How a round of the inner loop ends it: [break], [return], or [?] on a
    failed write; [OutOfFuel] is an artefact of the fuel. *)
Inductive exit (IO : Type) :=
| Break
| Return (r : result unit IO)
| OutOfFuel.
Arguments Break {IO}.
Arguments Return {IO}.
Arguments OutOfFuel {IO}.

(** The state of the task after a round of the outer loop. *)
Inductive status (IO : Type) :=
| Running
| Done (r : result unit IO)
| Stuck.
Arguments Running {IO}.
Arguments Done {IO}.
Arguments Stuck {IO}.

Section connection.
Context (pf : profile) {MC : Memchr} `{R : RocksDB DB WO E} `{BM : BytesMut B} {IT : Itoa}.
Context {PR : Prometheus} {S : Type} `{TS : TcpStream T IO}.

Abbreviation server := (Server.t DB WO S).
Abbreviation connection := (conn T B).

Definition find_crlf (buf : bytes) : outcome (option Z) :=
  match memchr CR buf with
  | None => mret None
  | Some i =>
      j ← i +[pf] 1;
      mret (if bool_decide (slice_get buf j = Some LF) then Some i else None)
  end.

(** [response.take()], the count of the bytes written, [write_all] and, when
    it has succeeded, [response.clear()]. *)
Definition send (s : server) (c : connection) : server * connection * result unit IO :=
  let '(buf, response) := ResponseWriter.take (response c) in
  let s := Server.inc_by s Metrics.Bytes_written (len (bm_bytes buf)) in
  let '(t, r) := stream_write_all (stream c) (bm_bytes buf) in
  (s, {| stream := t; read_buf := read_buf c;
         response := match r with Ok _ => ResponseWriter.clear response | Err _ => response end;
         pending_storage := pending_storage c |}, r).

Definition is_quit (cmd : Command) : bool :=
  match cmd with Quit => true | _ => false end.

Definition next_parse (c : connection) : outcome ParseResult :=
  match pending_storage c with
  | Some pending => parse_storage_data pf (bm_bytes (read_buf c)) pending
  | None => parse pf (bm_bytes (read_buf c))
  end.

(** The arm of a completed command. *)
Definition on_complete (s : server) (c : connection) (cmd : Command) (consumed : Z) :
    outcome (server * connection * option (exit IO)) :=
  let should_quit := is_quit cmd in
  let noreply := is_noreply cmd in
  '(s, response) ← execute s cmd (response c);
  '(_, read_buf) ← unwrap (bm_split_to (read_buf c) consumed);
  let c := {| stream := stream c; read_buf := read_buf; response := response;
              pending_storage := None |} in
  let finish s c := mret (s, c, if should_quit then Some (Return (Ok tt)) else None) in
  if negb noreply && negb (ResponseWriter.is_empty response) then
    let '(s, c, r) := send s c in
    match r with
    | Ok _ => finish s c
    | Err e => mret (s, c, Some (Return (Err e)))
    end
  else finish s {| stream := stream c; read_buf := read_buf;
                   response := ResponseWriter.clear response; pending_storage := None |}.

(** The arm of an incomplete command. *)
Definition on_need_more (s : server) (c : connection) :
    outcome (server * connection * option (exit IO)) :=
  pending ←
    match pending_storage c with
    | None =>
        r ← parse_storage_command_line pf (bm_bytes (read_buf c));
        mret (match r with Ok (Some pending) => Some pending | _ => None end)
    | Some pending => mret (Some pending)
    end;
  mret (s, {| stream := stream c; read_buf := read_buf c; response := response c;
              pending_storage := pending |}, Some Break).

(** The arm of a protocol error. *)
Definition on_error (s : server) (c : connection) (e : ProtocolError) :
    outcome (server * connection * option (exit IO)) :=
  let s := Server.inc s Metrics.Protocol_errors in
  let response := ResponseWriter.client_error (response c) (ProtocolError_display e) in
  crlf ← find_crlf (bm_bytes (read_buf c));
  read_buf ←
    match crlf with
    | Some pos =>
        n ← pos +[pf] 2;
        '(_, read_buf) ← unwrap (bm_split_to (read_buf c) n);
        mret read_buf
    | None => mret (bm_clear (read_buf c))
    end;
  let '(s, c, r) := send s {| stream := stream c; read_buf := read_buf; response := response;
                              pending_storage := None |} in
  match r with
  | Ok _ => mret (s, c, Some Break)
  | Err e => mret (s, c, Some (Return (Err e)))
  end.

(** One round of the inner loop; [None] goes on with the next one. *)
Definition process_one (s : server) (c : connection) :
    outcome (server * connection * option (exit IO)) :=
  parse_result ← next_parse c;
  match parse_result with
  | Complete cmd consumed => on_complete s c cmd consumed
  | NeedMoreData => on_need_more s c
  | Error e => on_error s c e
  end.

(** The inner loop. *)
Fixpoint process (fuel : nat) (s : server) (c : connection) :
    outcome (server * connection * exit IO) :=
  match fuel with
  | O => mret (s, c, OutOfFuel)
  | Datatypes.S fuel =>
      '(s, c, e) ← process_one s c;
      match e with
      | Some e => mret (s, c, e)
      | None => process fuel s c
      end
  end.

(** The end of [handle] after the outer loop. *)
Definition leave (s : server) (c : connection) : server * connection * status IO :=
  (Server.set_metrics s (Metrics.dec_active (Server.metrics s)), c, Done (Ok tt)).

(** The arm of the [select!] in which the read has completed with [r]; every
    round of the inner loop consumes at least one byte of the buffer or is
    the last one. *)
Definition on_read (s : server) (c : connection) (r : result bytes IO) :
    outcome (server * connection * status IO) :=
  match r with
  | Ok [] => mret (leave s c)
  | Ok chunk =>
      let s := Server.inc_by s Metrics.Bytes_read (len chunk) in
      let c := {| stream := stream c; read_buf := bm_extend_from_slice (read_buf c) chunk;
                  response := response c; pending_storage := pending_storage c |} in
      '(s, c, e) ← process (Datatypes.S (length (bm_bytes (read_buf c)))) s c;
      match e with
      | Break => mret (s, c, Running)
      | Return r => mret (s, c, Done r)
      | OutOfFuel => mret (s, c, Stuck)
      end
  | Err _ => mret (leave s c)
  end.

(** One round of the outer loop; [cancelled] says that the [select!] has
    taken the arm of the cancellation. *)
Definition turn (s : server) (c : connection) (cancelled : bool) :
    outcome (server * connection * status IO) :=
  if cancelled then mret (leave s c)
  else
    let '(t, r) := stream_read (stream c) in
    on_read s {| stream := t; read_buf := read_buf c; response := response c;
                 pending_storage := pending_storage c |} r.

(** What the read of a round adds to the buffer, and that the buffer has room
    for it: a larger one cannot be allocated. *)
Definition arrival (c : connection) (cancelled : bool) : bytes :=
  if cancelled then []
  else match snd (stream_read (stream c)) with Ok chunk => chunk | Err _ => [] end.

Definition read_fits (c : connection) : Prop :=
  forall chunk, snd (stream_read (stream c)) = Ok chunk ->
  slice_ok (bm_bytes (read_buf c) ++ chunk).

(** The state of [handle] before its loop. *)
Definition start (s : server) (t : T) : connection :=
  {| stream := t;
     read_buf := bm_with_capacity (ServerConfig.read_buffer_size (Server.config s));
     response := ResponseWriter.new (ServerConfig.write_buffer_size (Server.config s));
     pending_storage := None |}.

(** The outer loop, for as many rounds as there are choices. *)
Fixpoint run (choices : list bool) (s : server) (c : connection) :
    outcome (server * connection * status IO) :=
  match choices with
  | [] => mret (s, c, Running)
  | cancelled :: choices =>
      '(s, c, st) ← turn s c cancelled;
      match st with
      | Running => run choices s c
      | _ => mret (s, c, st)
      end
  end.

(** [handle], alone on the server. *)
Definition handle (choices : list bool) (s : server) (t : T) :
    outcome (server * connection * status IO) :=
  run choices s (start s t).

End connection.
End Connection.
