(* ===== verification/Examples.v ===== *)
(** * Concrete states

    The inputs on which the witnesses evaluate the theorems: a clock that
    stands still, a database with one value, a server on it. *)

From S2P Require Import Prelude RustStd Extern Reference Errors Command Value Storage Metrics.
From S2P Require Import Config ServerState.

(** A line with its line end, and a set command. *)
Definition ex_line (s : string) : bytes := str s ++ CRLF.
Definition ex_set : Command := Set_ (str "key") 42 3600 (str "hello") true.

(** A clock that always shows [t] seconds. *)
Definition fixed_clock (t : Z) : Clock := {| now_at _ := t * 10 ^ 9; reads := 0 |}.

Definition ex_store (m : gmap bytes bytes) (t : Z) : Store RefDB bool :=
  {| st_db := {| rd_map := m; rd_down := false |}; st_write_opts := true;
     st_ttl_filter := true; st_clock := fixed_clock t;
     EXPIRED_KEYS_REMOVED := 0; TTL_COMPACTION_REMOVED := 0 |}.

Definition ex_value : StoredValue := with_expire_at 42 1000 (str "hello").
Definition ex_db : gmap bytes bytes := {[ str "k" := encode ex_value ]}.

(** A server on an empty or given database. *)
Definition ex_metrics : Metrics.t :=
  match Metrics.new with
  | Ret m => m
  | Panic =>
      let m := {| rm_name := []; rm_value := 0 |} in
      {| Metrics.registry := [] : registry; Metrics.cmd_get := m; Metrics.cmd_set := m;
         Metrics.cmd_add := m; Metrics.cmd_replace := m; Metrics.cmd_delete := m;
         Metrics.cmd_incr := m; Metrics.cmd_decr := m; Metrics.cmd_touch := m;
         Metrics.cmd_flush := m; Metrics.get_hits := m; Metrics.get_misses := m;
         Metrics.active_connections := m; Metrics.total_connections := m;
         Metrics.rejected_connections := m; Metrics.bytes_read := m;
         Metrics.bytes_written := m; Metrics.cmd_latency := [];
         Metrics.protocol_errors := m; Metrics.storage_errors := m |}
  end.

Definition ex_server (m : gmap bytes bytes) (t permits : Z) : Server.t RefDB bool Z :=
  {| Server.config := ServerConfig.default; Server.storage := ex_store m t;
     Server.metrics := ex_metrics; Server.connection_semaphore := permits;
     Server.cancel_token := false |}.

Lemma fixed_clock_frozen t : 0 <= t -> clock_frozen (fixed_clock t) t.
Proof.
  intros Ht i. unfold unix_secs. cbn [now_at fixed_clock].
  rewrite (proj2 (Z.ltb_ge _ _)) by lia. by rewrite Z.div_mul.
Qed.

(** A stream that accepts ten writes. *)
Definition ex_stream (input : list bytes) : RefStream :=
  {| rs_input := input; rs_got := []; rs_sent := []; rs_writes := 10 |}.
