(* ===== verification/ParserFacts.v ===== *)
(** * Facts about the parser

    The first line of a buffer, [parse] as a function of that line and of
    the buffer, and the data block of a set command; from these the
    properties of [Parser.v] follow. *)

From S2P Require Import Prelude RustStd Extern Reference Errors Command Parser.
#[local] Open Scope petra_scope.

(** ** Specification vocabulary *)

(** What the first carriage return of a buffer says about its first line. *)
Inductive line_view : bytes -> Prop :=
| line_full line rest : CR ∉ line -> line_view (line ++ CRLF ++ rest)
| line_none buf : CR ∉ buf -> line_view buf
| line_half pre : CR ∉ pre -> line_view (pre ++ [CR])
| line_stray pre b rest :
    CR ∉ pre -> b <> LF -> line_view (pre ++ CR :: b :: rest).

(** A buffer whose first carriage return is followed by something else than
    a line feed. *)
Definition stray_cr (buf : bytes) : Prop :=
  exists pre b rest, (CR ∉ pre) /\ b <> LF /\ buf = pre ++ CR :: b :: rest.

(** The arguments of a set command line, as [parse_set] and
    [parse_storage_command_line] read them. *)
Definition set_args (parts : list bytes) (line_end : Z) :
    result PendingStorageCommand ProtocolError :=
  match fst (iter_next parts) with
  | None => Err (InvalidCommand (str "missing key"))
  | Some key =>
    if bool_decide (key = []) then Err (InvalidCommand (str "missing key"))
    else if negb (is_valid_key key) then
      if MAX_KEY_LENGTH <? len key then Err KeyTooLong
      else Err (InvalidKey (from_utf8_lossy key))
    else
    let parts := snd (iter_next parts) in
    match fst (iter_next parts) ≫= parse_u32 with
    | None => Err InvalidFlags
    | Some flags =>
    let parts := snd (iter_next parts) in
    match fst (iter_next parts) ≫= parse_u64 with
    | None => Err InvalidExptime
    | Some exptime =>
    let parts := snd (iter_next parts) in
    match fst (iter_next parts) ≫= parse_usize with
    | None => Err InvalidBytesLength
    | Some nbytes =>
      Ok {| p_key := key; p_flags := flags; p_exptime := exptime; p_bytes := nbytes;
            p_noreply := is_noreply_token (fst (iter_next (snd (iter_next parts))));
            p_command_line_end := line_end |}
    end
    end
    end
  end.

(** The result of the command line [line] alone, or the set command whose
    data block has to be read. *)
Definition parse_line (line : bytes) : PendingStorageCommand + ParseResult :=
  let '(name, parts) := iter_next (slice_split SP line) in
  let consumed := len line + 2 in
  match name with
  | None => inr (Error (InvalidCommand (str "empty command")))
  | Some cmd_name =>
    if bool_decide (cmd_name = []) then inr (Error (InvalidCommand (str "empty command")))
    else if cmd_eq cmd_name (str "get") then inr (parse_get parts consumed)
    else if cmd_eq cmd_name (str "set") then
      match set_args parts (len line) with
      | Ok p => inl p
      | Err e => inr (Error e)
      end
    else if cmd_eq cmd_name (str "delete") then inr (parse_delete parts consumed)
    else if cmd_eq cmd_name (str "version") then inr (Complete Version consumed)
    else if cmd_eq cmd_name (str "quit") then inr (Complete Quit consumed)
    else inr (Error (InvalidCommand (from_utf8_lossy cmd_name)))
  end.

(** The data block [rest] of a set command whose lengths do not overflow. *)
Definition data_block (p : PendingStorageCommand) (rest : bytes) : ParseResult :=
  if len rest <? p_bytes p + 2 then NeedMoreData
  else if bool_decide (take 2 (drop (Z.to_nat (p_bytes p)) rest) = CRLF) then
    Complete (Set_ (p_key p) (p_flags p) (p_exptime p)
                (take (Z.to_nat (p_bytes p)) rest) (p_noreply p))
      (p_command_line_end p + p_bytes p + 4)
  else Error UnexpectedData.

(** The wire form of a command. *)
Definition render (c : Command) : bytes :=
  match c with
  | Get keys => str "get" ++ concat (map (cons SP) keys) ++ CRLF
  | Set_ key flags exptime data noreply =>
      str "set " ++ key ++ SP :: dec flags ++ SP :: dec exptime ++ SP :: dec (len data)
      ++ (if noreply then str " noreply" else []) ++ CRLF ++ data ++ CRLF
  | Delete key noreply =>
      str "delete " ++ key ++ (if noreply then str " noreply" else []) ++ CRLF
  | Version => str "version" ++ CRLF
  | Quit => str "quit" ++ CRLF
  end.

(** ** Command names *)

Lemma cmd_eq_spec cmd expected :
  cmd_eq cmd expected = true <-> map to_ascii_lowercase cmd = expected.
Proof.
  unfold cmd_eq. revert expected. induction cmd as [|a cmd IH]; intros [|b e];
    rewrite ?len_nil, ?len_cons.
  - done.
  - pose proof (len_nonneg e). rewrite (proj2 (Z.eqb_neq _ _)) by lia. done.
  - pose proof (len_nonneg cmd). rewrite (proj2 (Z.eqb_neq _ _)) by lia. done.
  - specialize (IH e). cbn [zip zip_with forallb map].
    replace (1 + len cmd =? 1 + len e) with (len cmd =? len e)
      by (apply eq_true_iff_eq; rewrite !Z.eqb_eq; lia).
    rewrite (andb_comm (bool_decide _)), andb_assoc, andb_true_iff, IH, bool_decide_eq_true.
    split; [by intros [-> ->]|by intros [= -> ->]].
Qed.

(** ** The first line *)

Lemma line_view_total buf : line_view buf.
Proof.
  induction buf as [|b buf IH]; [apply line_none; set_solver|].
  destruct (decide (b = CR)) as [->|Hb].
  - destruct buf as [|c buf]; [by apply (line_half []); set_solver|].
    destruct (decide (c = LF)) as [->|Hc].
    + apply (line_full []). set_solver.
    + apply (line_stray []); set_solver.
  - destruct IH as [line rest H|buf H|pre H|pre c rest H Hc].
    + apply (line_full (b :: line)). set_solver.
    + apply line_none. set_solver.
    + apply (line_half (b :: pre)). set_solver.
    + apply (line_stray (b :: pre)); set_solver.
Qed.

(** Walk along the remaining arguments of a set command. *)
Ltac next_args :=
  repeat match goal with
  | |- context [iter_next ?ps] =>
      is_var ps; destruct ps as [|? ?];
      cbn [iter_next fst snd mbind option_bind]; [done|]
  | |- context [match ?f ?s with Some _ => _ | None => _ end] =>
      is_var s; destruct (f s); [|done]
  end.

Section facts.
Context (pf : profile) `{MCS : MemchrSpec}.

Lemma memchr_first c s t : c ∉ s -> memchr c (s ++ c :: t) = Some (len s).
Proof.
  intros Hs. destruct (memchr c (s ++ c :: t)) as [i|] eqn:E.
  - apply memchr_Some in E as (Hi & Hl & Hn). f_equal. unfold len.
    destruct (Nat.lt_trichotomy (Z.to_nat i) (length s)) as [Hlt|[Heq|Hgt]].
    + rewrite lookup_app_l in Hl by done. apply list_elem_of_lookup_2 in Hl. done.
    + lia.
    + exfalso. apply Hn. rewrite take_app_ge by lia. apply elem_of_app. right.
      destruct (Z.to_nat i - length s)%nat eqn:?; [lia|]. by left.
  - apply memchr_None in E. set_solver.
Qed.

Lemma memchr_absent c s : c ∉ s -> memchr c s = None.
Proof.
  intros Hs. destruct (memchr c s) as [i|] eqn:E; [|done].
  apply memchr_Some in E as (_ & Hl%list_elem_of_lookup_2 & _). done.
Qed.

Lemma find_crlf_first pre rest :
  CR ∉ pre -> slice_ok (pre ++ CR :: rest) ->
  find_crlf pf (pre ++ CR :: rest) =
  Ret (if bool_decide (head rest = Some LF) then Some (len pre) else None).
Proof.
  intros Hp Hok. unfold find_crlf. rewrite memchr_first by done.
  unfold slice_ok in Hok. rewrite len_app, len_cons in Hok. pose proof (len_nonneg rest).
  rewrite usize_add_ok by (unfold_max; lia). cbn. f_equal.
  replace (slice_get _ _) with (head rest); [done|].
  pose proof (len_nonneg pre). rewrite slice_get_lookup by lia. unfold len.
  rewrite lookup_app_r by lia. replace (_ - length pre)%nat with 1%nat by lia.
  by destruct rest.
Qed.

Lemma find_crlf_line line rest :
  CR ∉ line -> slice_ok (line ++ CRLF ++ rest) ->
  find_crlf pf (line ++ CRLF ++ rest) = Ret (Some (len line)).
Proof. intros. unfold CRLF in *. cbn [app] in *. by rewrite find_crlf_first. Qed.

Lemma find_crlf_none buf : CR ∉ buf -> find_crlf pf buf = Ret None.
Proof. intros. unfold find_crlf. by rewrite memchr_absent. Qed.

Lemma find_crlf_half pre :
  CR ∉ pre -> slice_ok (pre ++ [CR]) -> find_crlf pf (pre ++ [CR]) = Ret None.
Proof. intros. by rewrite find_crlf_first. Qed.

Lemma find_crlf_stray pre b rest :
  CR ∉ pre -> b <> LF -> slice_ok (pre ++ CR :: b :: rest) ->
  find_crlf pf (pre ++ CR :: b :: rest) = Ret None.
Proof.
  intros. rewrite find_crlf_first by done. cbn. by rewrite bool_decide_false by congruence.
Qed.

(** Either the buffer starts with a line, or no line end is found. *)
Lemma find_crlf_cases buf :
  slice_ok buf ->
  (exists line rest, buf = line ++ CRLF ++ rest /\ (CR ∉ line) /\
     find_crlf pf buf = Ret (Some (len line))) \/
  find_crlf pf buf = Ret None.
Proof.
  intros Hok. destruct (line_view_total buf) as [line rest H|buf H|pre H|pre b rest H Hb].
  - left. exists line, rest. auto using find_crlf_line.
  - right. by apply find_crlf_none.
  - right. by apply find_crlf_half.
  - right. by apply find_crlf_stray.
Qed.

(** ** The set command line *)

Lemma parse_set_eq parts buf line_end :
  parse_set pf parts buf line_end =
  match set_args parts line_end with
  | Ok p => parse_storage_data pf buf p
  | Err e => Ret (Error e)
  end.
Proof.
  unfold parse_set, set_args, parse_storage_data.
  destruct parts as [|k parts]; cbn [iter_next fst snd]; [done|].
  repeat (case_bool_decide; [done|]).
  destruct (negb _); [by case_match|].
  by next_args.
Qed.

Lemma line_lens line rest :
  slice_ok (line ++ CRLF ++ rest) ->
  0 <= len line /\ 0 <= len rest /\ len line + 2 + len rest <= isize_max.
Proof.
  unfold slice_ok. rewrite !len_app, len_CRLF.
  pose proof (len_nonneg line). pose proof (len_nonneg rest). lia.
Qed.

(** [parse] looks at the first line, and at the rest for a set command. *)
Lemma parse_eq line rest :
  CR ∉ line -> slice_ok (line ++ CRLF ++ rest) ->
  parse pf (line ++ CRLF ++ rest) =
  match parse_line line with
  | inl p => parse_storage_data pf (line ++ CRLF ++ rest) p
  | inr r => Ret r
  end.
Proof.
  intros Hl Hok. unfold parse. rewrite find_crlf_line by done. cbn [mbind outcome_bind].
  rewrite slice_to_app. cbn [mbind outcome_bind]. unfold parse_line.
  apply line_lens in Hok as ?.
  destruct (slice_split SP line) as [|name parts]; cbn [iter_next]; [done|].
  rewrite usize_add_ok by (unfold_max; lia). cbn [mbind outcome_bind].
  do 2 (case_match; [done|]).
  case_match; [rewrite parse_set_eq; by case_match|].
  by repeat (case_match; [done|]).
Qed.

Lemma parse_none buf : find_crlf pf buf = Ret None -> parse pf buf = Ret NeedMoreData.
Proof. intros H. unfold parse. by rewrite H. Qed.

(** [parse_storage_command_line] sees exactly the set lines of [parse]. *)
Lemma parse_storage_command_line_eq line rest :
  CR ∉ line -> slice_ok (line ++ CRLF ++ rest) ->
  parse_storage_command_line pf (line ++ CRLF ++ rest) =
  let '(name, parts) := iter_next (slice_split SP line) in
  Ret match name with
  | None => Err (InvalidCommand (str "empty command"))
  | Some cmd_name =>
    if bool_decide (cmd_name = []) then Err (InvalidCommand (str "empty command"))
    else if negb (cmd_eq cmd_name (str "set")) then Ok None
    else match set_args parts (len line) with
         | Ok p => Ok (Some p)
         | Err e => Err e
         end
  end.
Proof.
  intros Hl Hok. unfold parse_storage_command_line.
  rewrite find_crlf_line by done. cbn [mbind outcome_bind].
  rewrite slice_to_app. cbn [mbind outcome_bind].
  destruct (slice_split SP line) as [|name parts]; cbn [iter_next]; [done|].
  case_bool_decide; [done|]. destruct (negb (cmd_eq _ _)); [done|].
  unfold set_args. destruct parts as [|k parts]; cbn [iter_next fst snd]; [done|].
  case_bool_decide; [done|]. destruct (negb _); [by case_match|].
  by next_args.
Qed.

Lemma cmd_eq_set_not_get name : cmd_eq name (str "set") = true -> cmd_eq name (str "get") = false.
Proof.
  intros H%cmd_eq_spec. apply not_true_is_false. rewrite cmd_eq_spec, H. done.
Qed.

(** A pending set command is the set command of the first line. *)
Lemma parse_storage_command_line_pending buf p :
  slice_ok buf ->
  parse_storage_command_line pf buf = Ret (Ok (Some p)) <->
  exists line rest, buf = line ++ CRLF ++ rest /\ (CR ∉ line) /\ parse_line line = inl p.
Proof.
  intros Hok. split.
  - intros H. destruct (find_crlf_cases buf Hok) as [(line & rest & -> & Hl & _)|E].
    + exists line, rest. split_and!; [done..|].
      rewrite parse_storage_command_line_eq in H by done. unfold parse_line.
      destruct (slice_split SP line) as [|name parts]; cbn [iter_next] in *; [done|].
      case_bool_decide; [done|].
      destruct (cmd_eq name (str "set")) eqn:Es; cbn [negb] in H; [|done].
      rewrite (cmd_eq_set_not_get _ Es). by destruct (set_args _ _); simplify_eq.
    + unfold parse_storage_command_line in H. by rewrite E in H.
  - intros (line & rest & -> & Hl & Hp).
    rewrite parse_storage_command_line_eq by done. unfold parse_line in Hp.
    destruct (slice_split SP line) as [|name parts]; cbn [iter_next] in *; [done|].
    case_bool_decide; [done|]. destruct (cmd_eq name (str "get")); [done|].
    destruct (cmd_eq name (str "set")); [|by repeat case_match].
    cbn [negb]. by destruct (set_args _ _); simplify_eq.
Qed.

(** ** What a command line gives *)

Lemma parse_u32_range s v : parse_u32 s = Some v -> 0 <= v <= u32_max.
Proof.
  unfold parse_u32, from_utf8. case_match; [|done]. cbn.
  intros Hr%parse_unsigned_range; [done|]. by unfold_max.
Qed.

Lemma parse_u64_range s v : parse_u64 s = Some v -> 0 <= v <= u64_max.
Proof.
  unfold parse_u64, from_utf8. case_match; [|done]. cbn.
  intros Hr%parse_unsigned_range; [done|]. by unfold_max.
Qed.

Lemma set_args_inv parts le p :
  set_args parts le = Ok p ->
  wf_key (p_key p) /\ 0 <= p_flags p <= u32_max /\ 0 <= p_exptime p <= u64_max /\
  0 <= p_bytes p <= u64_max /\ p_command_line_end p = le.
Proof.
  unfold set_args. intros H. destruct (fst (iter_next parts)) as [key|]; [|done].
  case_bool_decide; [done|]. destruct (is_valid_key key) eqn:Hk; cbn [negb] in H; [|by case_match].
  apply is_valid_key_spec in Hk.
  destruct (_ ≫= parse_u32) as [flags|] eqn:E1; [|done].
  destruct (_ ≫= parse_u64) as [exptime|] eqn:E2; [|done].
  destruct (_ ≫= parse_usize) as [nbytes|] eqn:E3; [|done].
  simplify_eq. cbn.
  apply bind_Some in E1 as (? & _ & ?%parse_u32_range).
  apply bind_Some in E2 as (? & _ & ?%parse_u64_range).
  apply bind_Some in E3 as (? & _ & ?%parse_u64_range). auto.
Qed.

Lemma parse_line_pending line p :
  parse_line line = inl p ->
  wf_key (p_key p) /\ 0 <= p_flags p <= u32_max /\ 0 <= p_exptime p <= u64_max /\
  0 <= p_bytes p <= u64_max /\ p_command_line_end p = len line.
Proof.
  unfold parse_line. destruct (iter_next _) as [[name|] parts]; [|done].
  intros H. repeat (case_match; [done|]). case_match; [|by repeat case_match].
  destruct (set_args _ _) eqn:E; simplify_eq. by apply set_args_inv in E.
Qed.

(** A set command line has at least a name, a key and four separators. *)
Lemma set_args_tokens parts le p :
  set_args parts le = Ok p -> exists k f e n rest, parts = k :: f :: e :: n :: rest /\ 1 <= len k.
Proof.
  intros H. apply set_args_inv in H as Hwf. destruct Hwf as ((Hk & _) & _). revert H Hk.
  unfold set_args. destruct parts as [|k [|f [|e [|n rest]]]]; cbn [iter_next fst snd];
    try (intros; repeat case_match; done).
  case_bool_decide; [done|]. destruct (negb _); [by case_match|].
  intros Hp [Hk _]. exists k, f, e, n, rest. split; [done|].
  repeat (case_match; [|done]). by simplify_eq.
Qed.

Lemma parse_line_pending_len line p : parse_line line = inl p -> 8 <= len line.
Proof.
  unfold parse_line. pose proof (join_slice_split SP line) as Hj.
  destruct (slice_split SP line) as [|name parts]; cbn [iter_next]; [done|].
  intros H. repeat (case_match; [done|]).
  destruct (cmd_eq name (str "set")) eqn:Hn; [|by repeat case_match].
  apply andb_true_iff in Hn as [Hn%Z.eqb_eq _]. change (len (str "set")) with 3 in Hn.
  destruct (set_args _ _) eqn:E; simplify_eq.
  apply set_args_tokens in E as (k & f & e & n & rest & -> & Hk).
  change (join SP _) with
    (name ++ SP :: k ++ SP :: f ++ SP :: e ++ SP :: join SP (n :: rest)).
  repeat rewrite ?len_app, ?len_cons. pose proof (len_nonneg f). pose proof (len_nonneg e).
  pose proof (len_nonneg (join SP (n :: rest))). lia.
Qed.

Lemma parse_get_loop_wf parts keys keys' :
  Forall wf_key keys -> parse_get_loop parts keys = Ok keys' -> Forall wf_key keys'.
Proof.
  revert keys. induction parts as [|p parts IH]; intros keys Hk; cbn; [by intros [= <-]|].
  case_bool_decide; [by apply IH|].
  destruct (is_valid_key p) eqn:E; cbn; [|by case_match].
  apply IH. apply Forall_app. split; [done|]. by apply Forall_singleton, is_valid_key_spec.
Qed.

Lemma parse_line_complete line c n :
  parse_line line = inr (Complete c n) -> wf_command c /\ n = len line + 2.
Proof.
  unfold parse_line. destruct (iter_next _) as [[name|] parts]; [|done].
  case_bool_decide; [done|]. case_match.
  { unfold parse_get. intros Hg. destruct (parse_get_loop _ _) eqn:E; [|done].
    case_bool_decide; simplify_eq. cbn.
    apply parse_get_loop_wf in E; [auto|constructor]. }
  case_match; [by case_match|]. case_match.
  { unfold parse_delete. intros Hd. destruct (iter_next parts) as [[key|] ps]; [|done].
    case_bool_decide; [done|]. destruct (is_valid_key key) eqn:E; cbn in Hd; [|by case_match].
    simplify_eq. split; [|done]. by apply is_valid_key_spec. }
  repeat (case_match; [by intros; simplify_eq|]). done.
Qed.

Lemma parse_line_not_need_more line : parse_line line <> inr NeedMoreData.
Proof.
  unfold parse_line, parse_get, parse_delete. destruct (iter_next _) as [[name|] parts]; [|done].
  repeat case_match; done.
Qed.

(** ** The data block *)

Ltac add_ok :=
  repeat (rewrite usize_add_ok by lia; cbn [mbind outcome_bind]).

Lemma parse_storage_data_short buf p :
  p_command_line_end p + p_bytes p + 4 <= u64_max -> 0 <= p_bytes p ->
  len buf < p_command_line_end p + p_bytes p + 4 ->
  parse_storage_data pf buf p = Ret NeedMoreData.
Proof.
  intros Hmax Hb Hlen. unfold parse_storage_data. add_ok.
  by rewrite (proj2 (Z.ltb_lt _ _)) by lia.
Qed.

Lemma parse_storage_data_split hd d b0 b1 r p :
  len hd = p_command_line_end p + 2 -> len d = p_bytes p ->
  p_command_line_end p + p_bytes p + 4 <= u64_max ->
  parse_storage_data pf (hd ++ d ++ b0 :: b1 :: r) p =
  Ret (if bool_decide ([b0; b1] = CRLF) then
         Complete (Set_ (p_key p) (p_flags p) (p_exptime p) d (p_noreply p))
           (p_command_line_end p + p_bytes p + 4)
       else Error UnexpectedData).
Proof.
  intros Hhd Hd Hmax. pose proof (len_nonneg d). pose proof (len_nonneg r).
  unfold parse_storage_data. add_ok. rewrite !len_app, !len_cons.
  rewrite (proj2 (Z.ltb_ge _ _)) by lia.
  assert (Hi : forall i, 0 <= i -> slice_index (hd ++ d ++ b0 :: b1 :: r)
    (p_command_line_end p + 2 + p_bytes p + i) = slice_index (b0 :: b1 :: r) i).
  { intros i ?. rewrite app_assoc. rewrite <- Hhd, <- Hd, <- len_app.
    by apply slice_index_app. }
  pose proof (Hi 0 ltac:(lia)) as Hi0. rewrite Z.add_0_r in Hi0.
  rewrite Hi0, (Hi 1), <- Hhd, <- Hd, slice_range_app, to_nat_len, take_app_length
    by (rewrite ?len_app, ?len_cons; lia).
  change (slice_index (b0 :: b1 :: r) 0) with (Ret b0).
  replace (slice_index (b0 :: b1 :: r) 1) with (Ret b1)
    by (unfold slice_index; by rewrite slice_get_lookup).
  cbn [mbind outcome_bind mret outcome_ret]. unfold CRLF.
  repeat case_bool_decide; simplify_eq; try done. do 2 f_equal. lia.
Qed.

Lemma parse_storage_data_ok line rest p :
  slice_ok (line ++ CRLF ++ rest) ->
  p_command_line_end p = len line -> 0 <= p_bytes p ->
  len line + p_bytes p + 4 <= u64_max ->
  parse_storage_data pf (line ++ CRLF ++ rest) p = Ret (data_block p rest).
Proof.
  intros Hok He Hb Hmax. apply line_lens in Hok as (? & ? & ?). unfold data_block.
  rewrite <- He in *. set (n := p_bytes p) in *. zcase.
  { apply parse_storage_data_short; rewrite ?len_app, ?len_CRLF; lia. }
  assert (exists d b0 b1 r, rest = d ++ b0 :: b1 :: r /\ len d = n)
    as (d & b0 & b1 & r & -> & Hd).
  { unfold len in *. exists (take (Z.to_nat n) rest).
    destruct (drop (Z.to_nat n) rest) as [|b0 [|b1 r]] eqn:E;
      apply (f_equal length) in E as E'; rewrite length_drop in E'; cbn in E'; [lia..|].
    exists b0, b1, r. split; [by rewrite <- E, take_drop|]. rewrite length_take. lia. }
  rewrite app_assoc, parse_storage_data_split by (rewrite ?len_app, ?len_CRLF; lia).
  by rewrite <- Hd, to_nat_len, drop_app_length, take_app_length, Hd.
Qed.

(** Reading a data block is stable under more input. *)
Lemma slice_index_more s t i b : slice_index s i = Ret b -> slice_index (s ++ t) i = Ret b.
Proof.
  intros [? Hl]%slice_index_inv. unfold slice_index.
  rewrite slice_get_lookup by lia. by rewrite (lookup_app_l_Some _ _ _ _ Hl).
Qed.

Lemma slice_range_more s t a b d : slice_range s a b = Ret d -> slice_range (s ++ t) a b = Ret d.
Proof.
  unfold slice_range. intros H. case_match; [|done]. zbool. outcome_inv.
  pose proof (len_nonneg t). rewrite len_app.
  rewrite !(proj2 (Z.leb_le _ _)) by lia. cbn [andb]. f_equal. unfold len in *.
  rewrite drop_app_le, take_app_le; [done|rewrite length_drop; lia|lia].
Qed.

Lemma parse_storage_data_more buf more p r :
  parse_storage_data pf buf p = Ret r -> r <> NeedMoreData ->
  parse_storage_data pf (buf ++ more) p = Ret r.
Proof.
  unfold parse_storage_data. intros H Hr.
  destruct (p_command_line_end p +[pf] 2) as [ds|]; cbn in *; [|done].
  destruct (ds +[pf] p_bytes p) as [de|]; cbn in *; [|done].
  destruct (de +[pf] 2) as [total|]; cbn in *; [|done].
  destruct (len buf <? total) eqn:E; [outcome_inv; done|]. zbool.
  pose proof (len_nonneg more). rewrite len_app, (proj2 (Z.ltb_ge _ _)) by lia.
  destruct (slice_index buf de) as [b0|] eqn:E0; cbn in *; [|done].
  rewrite (slice_index_more _ _ _ _ E0). cbn. case_bool_decide; [done|].
  destruct (de +[pf] 1) as [i1|]; cbn in *; [|done].
  destruct (slice_index buf i1) as [b1|] eqn:E1; cbn in *; [|done].
  rewrite (slice_index_more _ _ _ _ E1). cbn. case_bool_decide; [done|].
  destruct (slice_range buf ds de) as [d|] eqn:E2; cbn in *; [|done].
  by rewrite (slice_range_more _ _ _ _ _ E2).
Qed.

End facts.
