(* ===== verification/ParserProps.v ===== *)
(** * Properties of the parser

    Stability under more input, the equivalence of the resumed and the
    one-shot parse of a set command, the round trip with the wire form of
    commands, well-formedness of results, and the exact inputs on which the
    parser panics. *)

From S2P Require Import Prelude RustStd Extern Reference Errors Command Parser ParserFacts Examples.
#[local] Open Scope petra_scope.

(** ** Rendered lines *)

(** The command line of [render c], without its line end. *)
Definition render_line (c : Command) : bytes :=
  match c with
  | Get keys => str "get" ++ concat (map (cons SP) keys)
  | Set_ key flags exptime data noreply =>
      str "set " ++ key ++ SP :: dec flags ++ SP :: dec exptime ++ SP :: dec (len data)
      ++ (if noreply then str " noreply" else [])
  | Delete key noreply => str "delete " ++ key ++ (if noreply then str " noreply" else [])
  | Version => str "version"
  | Quit => str "quit"
  end.

(** What [render c] has after the first line. *)
Definition render_body (c : Command) : bytes :=
  match c with
  | Set_ _ _ _ data _ => data ++ CRLF
  | _ => []
  end.

Lemma render_split c : render c = render_line c ++ CRLF ++ render_body c.
Proof.
  destruct c; cbn [render render_line render_body];
    repeat (rewrite <- ?app_assoc; cbn [app]); rewrite ?app_nil_r; done.
Qed.

Lemma dec_parse_u32 n : 0 <= n <= u32_max -> parse_u32 (dec n) = Some n.
Proof.
  intros Hn. unfold parse_u32, from_utf8.
  rewrite (digits_utf8_valid _ (dec_all_digits n ltac:(lia))). cbn.
  apply parse_unsigned_dec; unfold_max; lia.
Qed.

Lemma dec_parse_u64 n : 0 <= n <= u64_max -> parse_u64 (dec n) = Some n.
Proof.
  intros Hn. unfold parse_u64, from_utf8.
  rewrite (digits_utf8_valid _ (dec_all_digits n ltac:(lia))). cbn.
  apply parse_unsigned_dec; unfold_max; lia.
Qed.

Lemma concat_keys_no_byte b keys :
  u8 b < 32 -> Forall wf_key keys -> b ∉ concat (map (cons SP) keys).
Proof.
  intros Hb. induction 1 as [|k ks Hk _ IH]; cbn; [by apply not_elem_of_nil|].
  rewrite not_elem_of_cons, not_elem_of_app. split_and!; [|apply wf_key_no_byte; [done|lia]|done].
  intros ->. done.
Qed.

Lemma noreply_no_byte b (noreply : bool) :
  b ∉ str " noreply" -> b ∉ (if noreply then str " noreply" else []).
Proof. destruct noreply; [done|]. intros _. apply not_elem_of_nil. Qed.

Ltac solve_no_byte :=
  repeat first
    [ rewrite not_elem_of_app | rewrite not_elem_of_cons | split
    | apply dec_no_byte; [lia|reflexivity]
    | apply wf_key_no_byte; [assumption|by vm_compute]
    | apply noreply_no_byte
    | discriminate
    | by_compute ].

Lemma render_line_no_cr c : wf_command c -> CR ∉ render_line c.
Proof.
  destruct c as [keys|key flags exptime data noreply|key noreply| |];
    intros Hwf; cbn [render_line wf_command] in *.
  - destruct Hwf as [_ Hk]. rewrite not_elem_of_app.
    split; [by_compute|]. by apply concat_keys_no_byte.
  - destruct Hwf as (Hk & ? & ? & _). pose proof (len_nonneg data). solve_no_byte.
  - solve_no_byte.
  - solve_no_byte.
  - solve_no_byte.
Qed.

Lemma render_length c : (0 < length (render c))%nat.
Proof. rewrite render_split, !length_app. cbn. lia. Qed.

(** *** The tokens of a rendered line *)

Lemma split_keys keys :
  Forall wf_key keys -> keys <> [] ->
  forall name, SP ∉ name ->
  slice_split SP (name ++ concat (map (cons SP) keys)) = name :: keys.
Proof.
  induction 1 as [|k ks Hk Hks IH]; [done|]. intros _ name Hname. cbn [map concat app].
  rewrite slice_split_cons by done. f_equal.
  assert (SP ∉ k) by (apply wf_key_no_byte; [done|by vm_compute]).
  destruct ks as [|k' ks]; [cbn; rewrite app_nil_r; by apply slice_split_no_sep|].
  by apply IH.
Qed.

Lemma split_noreply (noreply : bool) p :
  SP ∉ p ->
  slice_split SP (p ++ (if noreply then str " noreply" else [])) =
  p :: (if noreply then [str "noreply"] else []).
Proof.
  intros Hp. destruct noreply.
  - change (str " noreply") with (SP :: str "noreply").
    by rewrite (slice_split_cons SP p (str "noreply")).
  - rewrite app_nil_r. by apply slice_split_no_sep.
Qed.

Lemma parse_get_loop_wf_keys keys acc :
  Forall wf_key keys -> parse_get_loop keys acc = Ok (acc ++ keys).
Proof.
  intros Hk. revert acc. induction Hk as [|k ks Hk _ IH]; intros acc; cbn [parse_get_loop].
  - by rewrite app_nil_r.
  - rewrite bool_decide_false by by apply wf_key_nonempty.
    rewrite (proj2 (is_valid_key_spec k) Hk). cbn [negb]. rewrite IH.
    by rewrite <- app_assoc.
Qed.

(** The result of the first line of a rendered command. *)
Lemma parse_line_render c :
  wf_command c ->
  parse_line (render_line c) =
  match c with
  | Set_ key flags exptime data noreply =>
      inl {| p_key := key; p_flags := flags; p_exptime := exptime; p_bytes := len data;
             p_noreply := noreply; p_command_line_end := len (render_line c) |}
  | _ => inr (Complete c (len (render_line c) + 2))
  end.
Proof.
  destruct c as [keys|key flags exptime data noreply|key noreply| |];
    intros Hwf; [..|done|done]; unfold parse_line;
    set (l := len _); cbn [render_line wf_command] in *.
  - destruct Hwf as [Hne Hk]. rewrite split_keys by
      (done || by_compute). cbn [iter_next].
    rewrite bool_decide_false by done. rewrite (proj2 (cmd_eq_spec _ _)) by done.
    unfold parse_get. rewrite parse_get_loop_wf_keys by done. cbn [app].
    by rewrite bool_decide_false.
  - destruct Hwf as (Hk & Hf & He & Hd). pose proof (len_nonneg data).
    assert (SP ∉ key) by (apply wf_key_no_byte; [done|by vm_compute]).
    change (str "set " ++ ?x) with (str "set" ++ SP :: x).
    rewrite !slice_split_cons, split_noreply by solve_no_byte. cbn [iter_next].
    rewrite bool_decide_false, (cmd_eq_set_not_get (str "set")), (proj2 (cmd_eq_spec _ _)) by done.
    unfold set_args. cbn [iter_next fst snd mbind option_bind].
    rewrite bool_decide_false by by apply wf_key_nonempty.
    rewrite (proj2 (is_valid_key_spec key) Hk), dec_parse_u32 by done. cbn [negb].
    rewrite dec_parse_u64 by done. unfold parse_usize. fold (parse_u64 (dec (len data))).
    rewrite dec_parse_u64 by (unfold_max; lia). by destruct noreply.
  - assert (SP ∉ key) by (apply wf_key_no_byte; [done|by vm_compute]).
    change (str "delete " ++ ?x) with (str "delete" ++ SP :: x).
    rewrite slice_split_cons, split_noreply by solve_no_byte. cbn [iter_next].
    change (bool_decide (str "delete" = [])) with false.
    change (cmd_eq (str "delete") (str "get")) with false.
    change (cmd_eq (str "delete") (str "set")) with false.
    change (cmd_eq (str "delete") (str "delete")) with true. cbn iota.
    unfold parse_delete. cbn [iter_next].
    rewrite bool_decide_false by by apply wf_key_nonempty.
    rewrite (proj2 (is_valid_key_spec key) Hwf). by destruct noreply.
Qed.

(** ** Results of a parse, by the first line *)

Section props.
Context (pf : profile) `{MCS : MemchrSpec}.

(** A result other than [NeedMoreData] has a complete first line. *)
Lemma parse_result_line buf r :
  slice_ok buf -> parse pf buf = Ret r -> r <> NeedMoreData ->
  exists line rest, buf = line ++ CRLF ++ rest /\ (CR ∉ line) /\
    match parse_line line with
    | inl p => parse_storage_data pf buf p = Ret r
    | inr r' => r = r'
    end.
Proof.
  intros Hok Hp Hr.
  destruct (find_crlf_cases pf buf Hok) as [(line & rest & -> & Hl & _)|E].
  - exists line, rest. split_and!; [done..|]. rewrite parse_eq in Hp by done.
    destruct (parse_line line); [done|]. by simplify_eq.
  - rewrite parse_none in Hp by done. by simplify_eq.
Qed.

Lemma parse_more buf more r :
  slice_ok (buf ++ more) -> parse pf buf = Ret r -> r <> NeedMoreData ->
  parse pf (buf ++ more) = Ret r.
Proof.
  intros Hok Hp Hr. apply slice_ok_app_l in Hok as Hok'.
  destruct (parse_result_line _ _ Hok' Hp Hr) as (line & rest & -> & Hl & Hm).
  rewrite <- !app_assoc in *. rewrite parse_eq by done.
  destruct (parse_line line) as [p|r']; [|congruence].
  rewrite (app_assoc CRLF rest), (app_assoc line).
  by apply parse_storage_data_more.
Qed.

Lemma parse_need_more_pending buf p :
  slice_ok buf -> parse_storage_command_line pf buf = Ret (Ok (Some p)) ->
  forall more, slice_ok (buf ++ more) ->
  parse pf (buf ++ more) = parse_storage_data pf (buf ++ more) p.
Proof.
  intros Hok Hp more Hok'.
  apply parse_storage_command_line_pending in Hp as (line & rest & -> & Hl & Hp); [|done|done].
  rewrite <- !app_assoc in *. rewrite parse_eq by done. by rewrite Hp.
Qed.

Lemma parse_storage_data_complete buf p c n :
  0 <= p_command_line_end p -> 0 <= p_bytes p <= u64_max -> slice_ok buf ->
  p_command_line_end p + 2 <= len buf ->
  parse_storage_data pf buf p = Ret (Complete c n) ->
  n = p_command_line_end p + p_bytes p + 4 /\ n <= len buf /\
  exists d, c = Set_ (p_key p) (p_flags p) (p_exptime p) d (p_noreply p) /\ len d = p_bytes p.
Proof.
  intros He Hb Hok Hl. unfold parse_storage_data. intros H.
  destruct (p_command_line_end p +[pf] 2) as [ds|] eqn:E1; cbn in H; [|done].
  destruct (ds +[pf] p_bytes p) as [de|] eqn:E2; cbn in H; [|done].
  destruct (de +[pf] 2) as [total|] eqn:E3; cbn in H; [|done].
  destruct (len buf <? total) eqn:E; [by outcome_inv|]. zbool.
  destruct (slice_index buf de) as [b0|] eqn:E4; cbn in H; [|done].
  case_bool_decide; [by outcome_inv|].
  destruct (de +[pf] 1) as [i1|] eqn:E5; cbn in H; [|done].
  destruct (slice_index buf i1) as [b1|] eqn:E6; cbn in H; [|done].
  case_bool_decide; [by outcome_inv|].
  destruct (slice_range buf ds de) as [d|] eqn:E7; cbn in H; [|done].
  outcome_inv. apply slice_index_inv in E4 as [? _]. unfold slice_ok, isize_max in Hok.
  unfold slice_range in E7. destruct (_ && _) eqn:Er in E7; [|done]. zbool. outcome_inv.
  assert (u64_max = 2 ^ 64 - 1) as Hu by done.
  apply usize_add_inv in E1 as [[? ->]|(? & ? & ?)]; [|lia].
  apply usize_add_inv in E2 as [[? ->]|(? & ? & ->)].
  2:{ rewrite wrap64_sub in * by lia. lia. }
  apply usize_add_inv in E3 as [[? ->]|(? & ? & ->)]; [|lia].
  split_and!; [lia|lia|]. eexists. split; [done|].
  unfold len in *. rewrite length_take, length_drop. lia.
Qed.

(** *** Completed commands *)

Lemma parse_complete_split buf c n :
  slice_ok buf -> parse pf buf = Ret (Complete c n) ->
  exists front rest, buf = front ++ rest /\ n = len front /\ 2 <= n /\ wf_command c /\
    parse pf front = Ret (Complete c n).
Proof.
  intros Hok Hp.
  destruct (parse_result_line _ _ Hok Hp ltac:(done)) as (line & rest & -> & Hl & Hm).
  apply line_lens in Hok as Hlens.
  destruct (parse_line line) as [p|r'] eqn:Eline; [|subst r'].
  - apply parse_line_pending in Eline as Hwf. apply parse_line_pending_len in Eline as Hle.
    destruct Hwf as (? & ? & ? & Hb & He).
    apply parse_storage_data_complete in Hm as Hd; [|lia|lia|done|].
    2:{ rewrite He, !len_app, len_CRLF. lia. }
    destruct Hd as (-> & Hn & d & -> & Hd). rewrite !len_app, len_CRLF in Hn.
    rewrite parse_storage_data_ok in Hm by (unfold_max; lia || done).
    unfold data_block in Hm. case_match; [done|]. zbool.
    case_bool_decide as Hcr; [|done]. simplify_eq.
    set (nb := Z.to_nat (p_bytes p)) in *.
    exists (line ++ CRLF ++ take nb rest ++ CRLF), (drop 2 (drop nb rest)).
    assert (Hlen : len (line ++ CRLF ++ take nb rest ++ CRLF) =
      p_command_line_end p + p_bytes p + 4).
    { rewrite !len_app, len_CRLF, He, Hd. lia. }
    split_and!; [|done|lia| |].
    + rewrite <- !app_assoc. do 2 f_equal. by rewrite <- Hcr, !take_drop.
    + split_and!; [done|lia..|]. rewrite Hd. lia.
    + assert (slice_ok (line ++ CRLF ++ take nb rest ++ CRLF))
        by (unfold slice_ok; rewrite Hlen; lia).
      rewrite parse_eq by done. rewrite Eline.
      rewrite parse_storage_data_ok by (unfold_max; lia || done). unfold data_block.
      rewrite len_app, len_CRLF, Hd, (proj2 (Z.ltb_ge _ _)) by lia.
      fold nb. assert (length (take nb rest) = nb) as Hlt
        by (unfold len in Hd; lia).
      rewrite drop_app_length', take_app_length' by done.
      by rewrite bool_decide_true.
  - destruct (parse_line_complete _ _ _ Eline) as [Hwf ->].
    exists (line ++ CRLF), rest. rewrite len_app, len_CRLF, <- app_assoc.
    split_and!; try done; try lia.
    rewrite <- (app_nil_r CRLF). rewrite parse_eq; [by rewrite Eline|done|done|].
    rewrite app_nil_r. by rewrite app_assoc in Hok; apply slice_ok_app_l in Hok.
Qed.

Lemma parse_complete_render c more :
  wf_command c -> slice_ok (render c ++ more) ->
  parse pf (render c ++ more) = Ret (Complete c (len (render c))).
Proof.
  intros Hwf Hok. rewrite render_split in *. rewrite <- !app_assoc in *.
  pose proof (render_line_no_cr c Hwf). apply line_lens in Hok as ?.
  rewrite parse_eq by done. rewrite parse_line_render by done.
  rewrite !len_app, len_CRLF.
  destruct c as [|key flags exptime data noreply| | |];
    try (cbn [render_body]; rewrite len_nil; do 2 f_equal; lia).
  rewrite len_app in *. cbn [render_body] in *. rewrite len_app, len_CRLF in *.
  pose proof (len_nonneg data). pose proof (len_nonneg more).
  rewrite parse_storage_data_ok by first
    [done|cbn [p_bytes p_command_line_end]; unfold_max; lia].
  unfold data_block. cbn [p_bytes p_key p_flags p_exptime p_noreply p_command_line_end].
  rewrite !len_app, len_CRLF, (proj2 (Z.ltb_ge _ _)) by lia.
  rewrite to_nat_len, <- app_assoc, drop_app_length, take_app_length.
  rewrite bool_decide_true by done. do 2 f_equal. lia.
Qed.

(** *** Errors are one line of text *)

Lemma from_utf8_lossy_no_cr s : CR ∉ s -> CR ∉ from_utf8_lossy s.
Proof.
  intros Hs [H|H]%from_utf8_lossy_elem; [done|]. revert H. by_compute.
Qed.

Lemma parse_get_loop_error parts acc e :
  Forall (fun p => CR ∉ p) parts -> parse_get_loop parts acc = Err e ->
  CR ∉ ProtocolError_display e.
Proof.
  intros Hp. revert acc. induction Hp as [|p ps Hp _ IH]; intros acc; cbn [parse_get_loop]; [done|].
  case_bool_decide; [apply IH|]. destruct (negb _); [|apply IH].
  case_match; intros; simplify_eq; cbn [ProtocolError_display]; [by_compute|].
  rewrite not_elem_of_app. split; [by_compute|]. by apply from_utf8_lossy_no_cr.
Qed.

Lemma Forall_iter_next {A} (P : A -> Prop) l :
  Forall P l -> Forall P (snd (iter_next l)) /\ (forall x, fst (iter_next l) = Some x -> P x).
Proof. intros [|x l' ? ?]; cbn; split; auto; [done|]. intros y [= <-]. done. Qed.

Ltac no_cr_text :=
  cbn [ProtocolError_display]; rewrite ?not_elem_of_app;
  try split; solve [by_compute | by apply from_utf8_lossy_no_cr].

Lemma set_args_error parts le e :
  Forall (fun p => CR ∉ p) parts -> set_args parts le = Err e -> CR ∉ ProtocolError_display e.
Proof.
  intros Hp. unfold set_args. pose proof (proj2 (Forall_iter_next _ _ Hp)) as Hk.
  destruct (fst (iter_next parts)) as [key|]; [specialize (Hk key eq_refl)|];
    repeat case_match; intros; simplify_eq; no_cr_text.
Qed.

Lemma parse_line_error line e :
  CR ∉ line -> parse_line line = inr (Error e) -> CR ∉ ProtocolError_display e.
Proof.
  intros Hl. unfold parse_line.
  assert (Hp : Forall (fun p => CR ∉ p) (slice_split SP line)).
  { apply Forall_forall. intros p Hp Hin. by eapply Hl, slice_split_elem. }
  destruct (slice_split SP line) as [|name parts]; cbn [iter_next].
  { intros; simplify_eq. no_cr_text. }
  apply Forall_cons in Hp as [Hname Hp].
  case_bool_decide; [intros; simplify_eq; no_cr_text|].
  case_match.
  { unfold parse_get. destruct (parse_get_loop _ _) eqn:E; [case_bool_decide|];
      intros; simplify_eq; [no_cr_text|]. by eapply parse_get_loop_error. }
  case_match.
  { destruct (set_args _ _) eqn:E; intros; simplify_eq. by eapply set_args_error. }
  case_match.
  { unfold parse_delete. pose proof (proj2 (Forall_iter_next _ _ Hp)) as Hk.
    destruct (iter_next parts) as [[key|] ps]; [specialize (Hk key eq_refl)|];
      repeat case_match; intros; simplify_eq; no_cr_text. }
  repeat (case_match; [by intros; simplify_eq|]). intros; simplify_eq. no_cr_text.
Qed.

Lemma parse_storage_data_error buf p e :
  parse_storage_data pf buf p = Ret (Error e) -> e = UnexpectedData.
Proof.
  unfold parse_storage_data. intros H. outcome_inv.
  repeat (case_match; outcome_inv; try done).
Qed.

Lemma parse_error_line buf e :
  slice_ok buf -> parse pf buf = Ret (Error e) ->
  (CR ∉ ProtocolError_display e) /\
  exists line rest, buf = line ++ CRLF ++ rest /\ (CR ∉ line) /\
    find_crlf pf buf = Ret (Some (len line)).
Proof.
  intros Hok Hp.
  destruct (parse_result_line _ _ Hok Hp ltac:(done)) as (line & rest & -> & Hl & Hm).
  split; [|exists line, rest; auto using find_crlf_line].
  destruct (parse_line line) eqn:E.
  - apply parse_storage_data_error in Hm as ->. no_cr_text.
  - subst. by eapply parse_line_error.
Qed.

End props.

(** ** Panics *)

Section panics.
Context `{MCS : MemchrSpec}.

Lemma parse_panic_pending pf buf :
  slice_ok buf ->
  parse pf buf = Panic <->
  exists p, parse_storage_command_line pf buf = Ret (Ok (Some p)) /\
    parse_storage_data pf buf p = Panic.
Proof.
  intros Hok. split.
  - intros Hp. destruct (find_crlf_cases pf buf Hok) as [(line & rest & -> & Hl & _)|E].
    + rewrite parse_eq in Hp by done. destruct (parse_line line) as [p|] eqn:El; [|done].
      exists p. split; [|done]. apply parse_storage_command_line_pending; eauto.
    + by rewrite parse_none in Hp.
  - intros (p & Hp & Hd). rewrite <- (app_nil_r buf).
    rewrite (parse_need_more_pending _ _ p) by (rewrite ?app_nil_r; done).
    by rewrite app_nil_r.
Qed.

Lemma storage_data_panic_debug line rest p :
  slice_ok (line ++ CRLF ++ rest) ->
  p_command_line_end p = len line -> 0 <= p_bytes p ->
  parse_storage_data Debug (line ++ CRLF ++ rest) p = Panic <->
  u64_max < len line + p_bytes p + 4.
Proof.
  intros Hok He Hb. apply line_lens in Hok as Hlens.
  destruct (Z.le_gt_cases (len line + p_bytes p + 4) u64_max) as [Hle|Hgt].
  - rewrite parse_storage_data_ok by done. split; [done|lia].
  - split; [done|intros _]. unfold parse_storage_data. rewrite He.
    rewrite usize_add_ok by (unfold_max; lia). cbn [mbind outcome_bind].
    destruct (Z.le_gt_cases (len line + 2 + p_bytes p) u64_max).
    + rewrite usize_add_ok by done. cbn [mbind outcome_bind].
      by rewrite (usize_add_debug _ 2) by lia.
    + by rewrite usize_add_debug by lia.
Qed.

(** The three byte counts at which a release build panics: the data block
    wraps to the line end itself, or its end is one of the two largest
    indices. *)
Definition bad_bytes (line_end nbytes : Z) : Prop :=
  nbytes = 2 ^ 64 - 2 \/ 2 ^ 64 - 2 <= line_end + 2 + nbytes <= 2 ^ 64 - 1.

Lemma slice_index_line line c rest i :
  (CR ∉ line) -> 0 <= i < len line ->
  exists b, slice_index (line ++ c :: rest) i = Ret b /\ b <> CR.
Proof.
  intros Hl Hi. unfold slice_index, len in *. rewrite slice_get_lookup by lia.
  destruct (lookup_lt_is_Some_2 line (Z.to_nat i)) as [b Hb]; [lia|].
  exists b. rewrite (lookup_app_l_Some _ _ _ _ Hb). split; [done|].
  intros ->. by apply list_elem_of_lookup_2 in Hb.
Qed.

Lemma storage_data_panic_release line rest p :
  (CR ∉ line) -> slice_ok (line ++ CRLF ++ rest) ->
  p_command_line_end p = len line -> 0 <= p_bytes p <= u64_max ->
  parse_storage_data Release (line ++ CRLF ++ rest) p = Panic <->
  bad_bytes (len line) (p_bytes p).
Proof.
  intros Hl Hok He Hb. apply line_lens in Hok as Hlens. unfold bad_bytes.
  destruct (Z.le_gt_cases (len line + p_bytes p + 4) u64_max) as [Hle|Hgt].
  { rewrite parse_storage_data_ok by (done || lia). unfold u64_max in *. split; [done|lia]. }
  unfold parse_storage_data. rewrite He.
  rewrite usize_add_ok by (unfold_max; lia). cbn [mbind outcome_bind].
  set (buf := line ++ CRLF ++ rest).
  assert (Hbuf : len buf = len line + 2 + len rest)
    by (unfold buf; rewrite !len_app, len_CRLF; lia).
  assert (Hu : u64_max = 2 ^ 64 - 1) by done. assert (Hi64 : isize_max < 2 ^ 63) by done.
  destruct (Z.le_gt_cases (len line + 2 + p_bytes p) u64_max).
  - (* the end of the block is at the top of the address range *)
    rewrite usize_add_ok by done. cbn [mbind outcome_bind].
    rewrite (usize_add_wraps _ 2) by lia. cbn [mbind outcome_bind].
    rewrite wrap64_sub, (proj2 (Z.ltb_ge _ _)) by lia.
    rewrite slice_index_panic by lia. cbn. split; [lia|done].
  - (* the end of the block wraps around *)
    rewrite usize_add_wraps by lia. cbn [mbind outcome_bind].
    rewrite !wrap64_sub by lia. set (de := len line + 2 + p_bytes p - 2 ^ 64).
    assert (Hde : 0 <= de <= len line + 1) by (unfold de; lia).
    do 2 (rewrite usize_add_ok by lia; cbn [mbind outcome_bind]).
    zcase; [split; [done|unfold de in *; lia]|].
    destruct (Z.lt_total de (len line)) as [Hlt|[Heq|Hgt']].
    + destruct (slice_index_line line CR (LF :: rest) de) as (b & Hi & Hne); [done|lia|].
      unfold buf, CRLF. cbn [app]. rewrite Hi. cbn [mbind outcome_bind].
      rewrite bool_decide_true by done. split; [done|unfold de in *; lia].
    + assert (Hi : forall i, 0 <= i -> slice_index buf (de + i) = slice_index (CRLF ++ rest) i)
        by (intros; rewrite Heq; by apply slice_index_app).
      pose proof (Hi 0 ltac:(lia)) as H0. rewrite Z.add_0_r in H0. rewrite H0, (Hi 1) by lia.
      change (slice_index (CRLF ++ rest) 0) with (Ret CR).
      replace (slice_index (CRLF ++ rest) 1) with (Ret LF)
        by (unfold slice_index; by rewrite slice_get_lookup).
      cbn [mbind outcome_bind]. rewrite !bool_decide_false by auto.
      rewrite slice_range_panic by lia. cbn. split; [unfold de in *; lia|done].
    + replace de with (len line + 1) by lia.
      unfold buf. rewrite slice_index_app by lia.
      replace (slice_index (CRLF ++ rest) 1) with (Ret LF)
        by (unfold slice_index; by rewrite slice_get_lookup).
      cbn [mbind outcome_bind]. rewrite bool_decide_true by done.
      split; [done|unfold de in *; lia].
Qed.

(** Reading the data block waits only in its first test. *)
Lemma storage_data_needs_more pf buf p :
  parse_storage_data pf buf p = Ret NeedMoreData <->
  exists ds de total, p_command_line_end p +[pf] 2 = Ret ds /\ ds +[pf] p_bytes p = Ret de /\
    de +[pf] 2 = Ret total /\ len buf < total.
Proof.
  unfold parse_storage_data. split.
  - destruct (_ +[pf] 2) as [ds|]; [|done]. cbn [mbind outcome_bind].
    destruct (ds +[pf] _) as [de|] eqn:Ede; [|done]. cbn [mbind outcome_bind].
    destruct (de +[pf] 2) as [total|] eqn:Et; [|done]. cbn [mbind outcome_bind].
    zcase; [by exists ds, de, total|]. intros H. exfalso. revert H.
    destruct (slice_index buf de); [|done]. cbn [mbind outcome_bind]. case_bool_decide; [done|].
    destruct (de +[pf] 1); [|done]. cbn [mbind outcome_bind].
    destruct (slice_index buf _); [|done]. cbn [mbind outcome_bind]. case_bool_decide; [done|].
    by destruct (slice_range _ _ _).
  - intros (ds & de & total & -> & Ede & Et & Hlt). cbn [mbind outcome_bind].
    rewrite Ede. cbn [mbind outcome_bind]. rewrite Et. cbn [mbind outcome_bind].
    by rewrite (proj2 (Z.ltb_lt _ _)).
Qed.

(** It waits until the block and its line end are there; in a release build
    also when the sum of the lengths wraps around to the byte after the
    line. *)
Lemma storage_data_waits pf line rest p :
  slice_ok (line ++ CRLF ++ rest) ->
  p_command_line_end p = len line -> 0 <= p_bytes p <= u64_max ->
  parse_storage_data pf (line ++ CRLF ++ rest) p = Ret NeedMoreData <->
  (len line + p_bytes p + 4 <= u64_max /\ len rest < p_bytes p + 2) \/
  (pf = Release /\ p_bytes p = u64_max /\ rest = []).
Proof.
  intros Hok He Hb. apply line_lens in Hok as Hlens. rewrite storage_data_needs_more, He.
  assert (Hu : u64_max = 2 ^ 64 - 1) by done. assert (Hi64 : isize_max < 2 ^ 63) by done.
  rewrite !len_app, len_CRLF. rewrite <- len_zero. split.
  - intros (ds & de & total & Hds & Hde & Ht & Hlt).
    apply usize_add_inv in Hds as [[_ ->]|(_ & ? & _)]; [|lia].
    apply usize_add_inv in Hde as [[? ->]|(-> & ? & ->)];
      apply usize_add_inv in Ht as [[? ->]|(Hr & Hbig & ->)].
    + left. lia.
    + rewrite wrap64_sub in Hlt by lia. lia.
    + rewrite wrap64_sub in Hlt by lia. right. split; [done|]. lia.
    + rewrite (wrap64_sub (len line + 2 + p_bytes p)) in Hbig by lia. lia.
  - intros [[Hsum Hlt]|(-> & Hmax & Hrest)].
    + exists (len line + 2), (len line + 2 + p_bytes p), (len line + 2 + p_bytes p + 2).
      rewrite !usize_add_ok by lia. do 3 (split; [done|]). lia.
    + exists (len line + 2), (len line + 1), (len line + 3).
      rewrite usize_add_ok, usize_add_wraps, wrap64_sub, usize_add_ok by lia.
      split; [done|]. split; f_equal; [f_equal|split; [f_equal|]]; lia.
Qed.

(** A stray carriage return is never passed. *)
Lemma parse_stray pf buf more :
  stray_cr buf -> slice_ok (buf ++ more) -> parse pf (buf ++ more) = Ret NeedMoreData.
Proof.
  intros (pre & b & rest & Hpre & Hb & ->) Hok. rewrite <- app_assoc in *. cbn [app] in *.
  apply parse_none. by apply find_crlf_stray.
Qed.

Lemma parse_panic_iff pf buf (P : PendingStorageCommand -> Prop) :
  slice_ok buf ->
  (forall line rest p, buf = line ++ CRLF ++ rest -> (CR ∉ line) ->
     p_command_line_end p = len line -> 0 <= p_bytes p <= u64_max ->
     parse_storage_data pf buf p = Panic <-> P p) ->
  parse pf buf = Panic <->
  exists p, parse_storage_command_line pf buf = Ret (Ok (Some p)) /\ P p.
Proof.
  intros Hok HP. rewrite parse_panic_pending by done.
  split; intros (p & Hp & Hd); exists p; (split; [done|]);
    apply parse_storage_command_line_pending in Hp as (line & rest & Hbuf & Hl & Hpl);
    try done; apply parse_line_pending in Hpl as (_ & _ & _ & ? & ?); by eapply HP.
Qed.

End panics.

(** ** The properties *)

(** C16 Incremental parsing: once [parse] has produced a command or an error
    from the bytes received so far, it produces the same result, with the
    same number of bytes consumed, however many bytes follow; and when it
    waits for the data block of a set command, resuming with
    [parse_storage_data] on the pending command is the same as parsing the
    longer buffer from scratch, panics included. *)
Theorem parse_incremental pf `{MCS : MemchrSpec} buf more :
  slice_ok (buf ++ more) ->
  (forall r, parse pf buf = Ret r -> r <> NeedMoreData -> parse pf (buf ++ more) = Ret r) /\
  (forall p, parse_storage_command_line pf buf = Ret (Ok (Some p)) ->
     parse_storage_data pf (buf ++ more) p = parse pf (buf ++ more)).
Proof.
  intros Hok. split.
  - intros r. by apply parse_more.
  - intros p Hp. symmetry. apply parse_need_more_pending;
      eauto using slice_ok_app_l.
Qed.

(** C17 Round trip: parsing the wire form of any well-formed command, followed
    by arbitrary further input, gives that command back and consumes exactly
    its wire form. *)
Theorem parse_render pf `{MCS : MemchrSpec} c more :
  wf_command c -> slice_ok (render c ++ more) ->
  parse pf (render c ++ more) = Ret (Complete c (len (render c))).
Proof. by apply parse_complete_render. Qed.

(** C31 A completed parse is safe to act on: the command satisfies the type
    invariant of commands (key lengths and characters, flag and expiry
    ranges), at least two and at most all bytes of the buffer are consumed,
    and the consumed bytes alone already parse to the same command, so no
    byte of a later command has been looked at. *)
Theorem parse_complete_wf pf `{MCS : MemchrSpec} buf c n :
  slice_ok buf -> parse pf buf = Ret (Complete c n) ->
  wf_command c /\ 2 <= n <= len buf /\
  parse pf (take (Z.to_nat n) buf) = Ret (Complete c n).
Proof.
  intros Hok Hp. apply parse_complete_split in Hp as (front & rest & -> & -> & Hn & Hwf & Hp);
    [|done..].
  rewrite len_app, to_nat_len, take_app_length. pose proof (len_nonneg rest).
  split_and!; [done|lia|lia|done].
Qed.

(** C18 The exact crash inputs of a release build (overflow checks off): the
    parser panics precisely when the first line is a complete, valid set
    command whose byte count is 2^64-2, or places the end of the data block
    at one of the two largest addresses; every other input is handled. *)
Theorem parse_panics_release `{MCS : MemchrSpec} buf :
  slice_ok buf ->
  parse Release buf = Panic <->
  exists p, parse_storage_command_line Release buf = Ret (Ok (Some p)) /\
    bad_bytes (p_command_line_end p) (p_bytes p).
Proof.
  intros Hok. apply parse_panic_iff; [done|].
  intros line rest p -> Hl He Hb. rewrite He. by apply storage_data_panic_release.
Qed.

(** C34 In a build with overflow checks the parser panics precisely when the
    first line is a complete, valid set command whose data block would end
    beyond [usize::MAX]. *)
Theorem parse_panics_debug `{MCS : MemchrSpec} buf :
  slice_ok buf ->
  parse Debug buf = Panic <->
  exists p, parse_storage_command_line Debug buf = Ret (Ok (Some p)) /\
    u64_max < p_command_line_end p + p_bytes p + 4.
Proof.
  intros Hok. apply parse_panic_iff; [done|].
  intros line rest p -> Hl He Hb. rewrite He. apply storage_data_panic_debug; auto. lia.
Qed.

(** C33 When the parser waits: [parse] asks for more data exactly if there
    is no carriage return yet, or it is the last byte; if the first carriage
    return is not followed by a line feed - and then the parser waits
    forever, whatever is sent -; or if the first line is a valid set command
    and fewer bytes have come than its line, its data block and their two line
    ends take.  The lengths must not overflow, except that a release build
    also waits for the byte after the line of a set command of [usize::MAX]
    bytes. *)
Theorem parse_waits pf `{MCS : MemchrSpec} buf :
  slice_ok buf ->
  (parse pf buf = Ret NeedMoreData <->
     (CR ∉ buf) \/ (exists pre, (CR ∉ pre) /\ buf = pre ++ [CR]) \/ stray_cr buf \/
     exists p, parse_storage_command_line pf buf = Ret (Ok (Some p)) /\
       let needed := (p_command_line_end p + 2) + p_bytes p + 2 in
       ((needed <= u64_max /\ len buf < needed) \/
        (pf = Release /\ p_bytes p = u64_max /\ len buf = p_command_line_end p + 2))) /\
  (stray_cr buf -> forall more, slice_ok (buf ++ more) ->
     parse pf (buf ++ more) = Ret NeedMoreData).
Proof.
  intros Hok. split; [split|by intros; apply parse_stray].
  - intros Hp. destruct (line_view_total buf) as [line rest Hl|buf Hl|pre Hl|pre b rest Hl Hb];
      [|by left|by right; left; exists pre|by right; right; left; exists pre, b, rest].
    rewrite parse_eq in Hp by done. destruct (parse_line line) as [p|r] eqn:E.
    2:{ simplify_eq. by apply parse_line_not_need_more in E. }
    right; right; right. exists p. split; [apply parse_storage_command_line_pending; eauto|].
    apply parse_line_pending in E as (_ & _ & _ & Hb & He).
    apply storage_data_waits in Hp; [|done..]. rewrite !len_app, len_CRLF, He.
    destruct Hp as [[? ?]|(? & ? & ->)]; [left|right; rewrite len_nil]; lia || auto with lia.
  - intros [Hn|[(pre & Hl & ->)|[Hs|(p & Hp & Hw)]]].
    + by apply parse_none, find_crlf_none.
    + by apply parse_none, find_crlf_half.
    + rewrite <- (app_nil_r buf) in *. by apply parse_stray; rewrite ?app_nil_r in *.
    + apply parse_storage_command_line_pending in Hp as (line & rest & -> & Hl & E); try done.
      rewrite parse_eq, E by done. apply parse_line_pending in E as (_ & _ & _ & Hb & He).
      apply storage_data_waits; [done..|]. rewrite !len_app, len_CRLF, He in Hw.
      rewrite <- len_zero. destruct Hw as [Hw|(? & ? & ?)]; [left|right]; auto with lia.
Qed.

(** C40 Every protocol error the parser reports belongs to a complete first
    line, which recovery can skip, and its text contains no carriage return,
    so the [CLIENT_ERROR] reply is a single line. *)
Theorem parse_error_one_line pf `{MCS : MemchrSpec} buf e :
  slice_ok buf -> parse pf buf = Ret (Error e) ->
  (CR ∉ ProtocolError_display e) /\
  exists i, find_crlf pf buf = Ret (Some i) /\ 0 <= i /\ i + 2 <= len buf.
Proof.
  intros Hok Hp. apply parse_error_line in Hp as (He & line & rest & -> & _ & Hf); [|done..].
  split; [done|]. exists (len line). rewrite !len_app, len_CRLF.
  pose proof (len_nonneg line). pose proof (len_nonneg rest). split_and!; [done|lia|lia].
Qed.

(** C35 Number fields accept exactly an optional plus sign followed by one or
    more decimal digits whose value fits the type; leading zeros are allowed,
    and overflow, signs alone, and any other byte are rejected. *)
Theorem parse_numbers_spec (s : bytes) (v : Z) :
  let denotes max := exists ds, ds <> [] /\ (s = ds \/ s = x2b :: ds) /\
    Forall (fun b => is_digit b = true) ds /\ v = digits_value 0 ds /\ v <= max in
  (parse_u32 s = Some v <-> denotes u32_max) /\
  (parse_u64 s = Some v <-> denotes u64_max) /\
  (parse_usize s = Some v <-> denotes u64_max).
Proof.
  assert (Hu : forall max, 0 <= max ->
    (from_utf8 s ≫= parse_unsigned max) = Some v <-> parse_unsigned max s = Some v).
  { intros max Hmax. unfold from_utf8. case_match eqn:E; [done|]. cbn. split; [done|].
    intros (ds & _ & Hs & Hd & _)%parse_unsigned_spec; [|done].
    destruct Hs as [->| ->].
    - by rewrite digits_utf8_valid in E.
    - rewrite utf8_valid_ascii in E; [done|]. constructor; [done|].
      eapply Forall_impl; [done|]. intros b Hb%is_digit_range. unfold digit_value in Hb. lia. }
  unfold parse_u32, parse_u64, parse_usize.
  rewrite !Hu, !parse_unsigned_spec by by unfold_max. done.
Qed.

(** ** Witnesses *)

Lemma parse_incremental_witness :
  slice_ok (str "set k 0 0 3" ++ CRLF ++ str "fo" ++ str "o" ++ CRLF) /\
  parse Release (str "set k 0 0 3" ++ CRLF ++ str "foo" ++ CRLF) =
    Ret (Complete (Set_ (str "k") 0 0 (str "foo") false) 18).
Proof.
  split; [by vm_compute|].
  change (str "set k 0 0 3" ++ CRLF ++ str "foo" ++ CRLF) with
    ((str "set k 0 0 3" ++ CRLF ++ str "fo") ++ (str "o" ++ CRLF)).
  rewrite <- (proj2 (parse_incremental Release (str "set k 0 0 3" ++ CRLF ++ str "fo")
    (str "o" ++ CRLF) ltac:(by vm_compute))
    {| p_key := str "k"; p_flags := 0; p_exptime := 0; p_bytes := 3;
       p_noreply := false; p_command_line_end := 11 |} ltac:(by vm_compute)).
  vm_compute. reflexivity.
Defined.

Lemma parse_render_witness :
  parse Debug (render ex_set ++ str "get") = Ret (Complete ex_set (len (render ex_set))).
Proof. apply (parse_render Debug ex_set (str "get")); [by_compute|by vm_compute]. Defined.

Lemma parse_complete_wf_witness :
  wf_command (Get [str "a"; str "b"]) /\ 2 <= 9 <= 12 /\
  parse Release (take 9 (ex_line "get a b" ++ str "get")) = Ret (Complete (Get [str "a"; str "b"]) 9).
Proof.
  apply (parse_complete_wf Release (ex_line "get a b" ++ str "get") (Get [str "a"; str "b"]) 9);
    by vm_compute.
Defined.

Lemma parse_panics_release_witness :
  parse Release (ex_line "set a 0 0 18446744073709551614") = Panic.
Proof.
  apply (parse_panics_release (ex_line "set a 0 0 18446744073709551614")); [by vm_compute|].
  exists {| p_key := str "a"; p_flags := 0; p_exptime := 0; p_bytes := 18446744073709551614;
            p_noreply := false; p_command_line_end := 30 |}.
  split; [by vm_compute|left; by vm_compute].
Defined.

Lemma parse_panics_debug_witness :
  parse Debug (ex_line "set a 0 0 18446744073709551615") = Panic.
Proof.
  apply (parse_panics_debug (ex_line "set a 0 0 18446744073709551615")); [by vm_compute|].
  exists {| p_key := str "a"; p_flags := 0; p_exptime := 0; p_bytes := 18446744073709551615;
            p_noreply := false; p_command_line_end := 30 |}.
  split; by vm_compute.
Defined.

Lemma parse_waits_witness :
  parse Release ((str "get a" ++ [CR] ++ str "b") ++ ex_line "get c") = Ret NeedMoreData.
Proof.
  apply (proj2 (parse_waits Release (str "get a" ++ [CR] ++ str "b") ltac:(by vm_compute)));
    [|by vm_compute].
  exists (str "get a"), x62, []. split_and!; [by_compute|done|done].
Defined.

Lemma parse_error_one_line_witness :
  exists i, find_crlf Release (ex_line "bogus") = Ret (Some i) /\ 0 <= i /\
    i + 2 <= len (ex_line "bogus").
Proof.
  apply (proj2 (parse_error_one_line Release (ex_line "bogus") (InvalidCommand (str "bogus"))
    ltac:(by vm_compute) ltac:(by vm_compute))).
Defined.
