(* ===== verification/StorageFacts.v ===== *)
(** * Facts about the storage backend

    The live content of a database at a given time, the equivalence of
    databases that have the same live content from a time on, and what every
    operation of [Storage.v] does to it. *)

From S2P Require Import Prelude RustStd Extern Reference Errors Value Storage.
#[local] Open Scope petra_scope.

(** ** Specification vocabulary *)

(** The value stored under [k], if any. *)
Definition stored (m : gmap bytes bytes) (k : bytes) : option StoredValue :=
  m !! k ≫= decode_spec.

(** A value as a client may see it at time [t]. *)
Definition live_value (t : Z) (v : option StoredValue) : option StoredValue :=
  v ≫= fun v => if expired_at t v then None else Some v.

Definition live (m : gmap bytes bytes) (t : Z) (k : bytes) : option StoredValue :=
  live_value t (stored m k).

(** The invariant of a database the server writes: every value is a slice
    that decodes. *)
Definition wf_db (m : gmap bytes bytes) : Prop :=
  map_Forall (fun _ s => 12 <= len s /\ slice_ok s) m.

(** Two contents no client can tell apart at any time from [t] on. *)
Definition same_live (t : Z) (m1 m2 : gmap bytes bytes) : Prop :=
  forall t', t <= t' -> forall k, live m1 t' k = live m2 t' k.

(** [m'] is [m] without some entries expired at time [t]. *)
Definition expiry_step (t : Z) (m m' : gmap bytes bytes) : Prop :=
  forall k, m' !! k = m !! k \/
    (m' !! k = None /\ exists v, stored m k = Some v /\ expired_at t v = true).

(** The storage as an operation found it: write options, filter and clock
    function are never changed. *)
Definition same_config {DB WO} (s s' : Store DB WO) : Prop :=
  st_write_opts s' = st_write_opts s /\ st_ttl_filter s' = st_ttl_filter s /\
  now_at (st_clock s') = now_at (st_clock s) /\
  (reads (st_clock s) <= reads (st_clock s'))%nat.

(** ** The equivalence of contents *)

#[export] Instance same_live_equiv t : Equivalence (same_live t).
Proof.
  split.
  - by intros m t' _ k.
  - intros m1 m2 H t' Ht k. symmetry. by apply H.
  - intros m1 m2 m3 H1 H2 t' Ht k. rewrite H1 by done. by apply H2.
Qed.

Lemma same_live_later t t' m1 m2 : t <= t' -> same_live t m1 m2 -> same_live t' m1 m2.
Proof. intros Ht H t'' ? k. apply H. lia. Qed.

(** Writing and deleting a key respect the equivalence. *)
#[export] Instance insert_same_live t k v : Proper (same_live t ==> same_live t) (insert k v).
Proof.
  intros m1 m2 H t' Ht k'. specialize (H t' Ht k').
  unfold live, stored in *. destruct (decide (k = k')) as [->|].
  - by rewrite !lookup_insert_eq.
  - by rewrite !lookup_insert_ne.
Qed.

#[export] Instance delete_same_live t k : Proper (same_live t ==> same_live t) (delete k).
Proof.
  intros m1 m2 H t' Ht k'. specialize (H t' Ht k').
  unfold live, stored in *. destruct (decide (k = k')) as [->|].
  - by rewrite !lookup_delete_eq.
  - by rewrite !lookup_delete_ne.
Qed.

Lemma live_value_expired t t' v :
  t <= t' -> expired_at t v = true -> live_value t' (Some v) = None.
Proof. intros Ht Hv. cbn. by rewrite (expired_at_mono t t'). Qed.

(** Dropping expired entries is invisible from then on. *)
Lemma expiry_step_same_live t m m' : expiry_step t m m' -> same_live t m m'.
Proof.
  intros H t' Ht k. unfold live.
  destruct (H k) as [He|(Hn & v & Hv & Hexp)].
  - unfold stored. by rewrite He.
  - rewrite Hv, (live_value_expired t) by done. unfold stored. by rewrite Hn.
Qed.

Lemma expiry_step_refl t m : expiry_step t m m.
Proof. by left. Qed.

Lemma expiry_step_trans t m1 m2 m3 :
  expiry_step t m1 m2 -> expiry_step t m2 m3 -> expiry_step t m1 m3.
Proof.
  intros H1 H2 k. destruct (H2 k) as [E2|(Hn & v & Hv & Hexp)].
  - rewrite E2. apply H1.
  - destruct (H1 k) as [E1|(Hn1 & _)].
    + right. split; [done|]. exists v. unfold stored in *. by rewrite <- E1.
    + unfold stored in Hv. by rewrite Hn1 in Hv.
Qed.

Lemma expiry_step_later t t' m m' : t <= t' -> expiry_step t m m' -> expiry_step t' m m'.
Proof.
  intros Ht H k. destruct (H k) as [?|(? & v & ? & ?)]; [by left|right].
  eauto using expired_at_mono.
Qed.

Lemma expiry_step_wf t m m' : wf_db m -> expiry_step t m m' -> wf_db m'.
Proof.
  intros Hwf H k s Hk. destruct (H k) as [E|[E _]]; rewrite E in Hk; [|done].
  by apply (Hwf k).
Qed.

Lemma delete_expired_step t m m' k v :
  stored m k = Some v -> expired_at t v = true ->
  m' !! k = None \/ m' !! k = m !! k -> (forall k', k' <> k -> m' !! k' = m !! k') ->
  expiry_step t m m'.
Proof.
  intros Hv Hexp Hk Hother k'. destruct (decide (k' = k)) as [->|]; [|by left; apply Hother].
  destruct Hk as [Hk|Hk]; [right|by left]. eauto.
Qed.

Lemma stored_raw m k s v : m !! k = Some s -> decode_spec s = Some v -> stored m k = Some v.
Proof. intros Hk Hv. unfold stored. by rewrite Hk. Qed.

Lemma wf_db_decodes m k s : wf_db m -> m !! k = Some s -> exists v, decode_spec s = Some v.
Proof.
  intros Hwf Hk. specialize (Hwf k s Hk) as [Hwf' _]. unfold decode_spec.
  rewrite (proj2 (Z.ltb_ge _ _)) by lia. eauto.
Qed.

Lemma same_config_refl {DB WO} (s : Store DB WO) : same_config s s.
Proof. by split_and!. Qed.

Lemma same_config_trans {DB WO} (s1 s2 s3 : Store DB WO) :
  same_config s1 s2 -> same_config s2 s3 -> same_config s1 s3.
Proof. unfold same_config. intros (? & ? & ? & ?) (? & ? & ? & ?). split_and!; congruence || lia. Qed.

(** Time does not run backwards between two reads of a monotone clock. *)
Lemma timestamp_mono {DB WO} (s s' : Store DB WO) :
  clock_mono (st_clock s) -> same_config s s' ->
  timestamp (st_clock s) <= timestamp (st_clock s').
Proof.
  intros Hm (_ & _ & Hn & Hr). unfold timestamp. rewrite Hn.
  by apply Hm.
Qed.

#[export] Hint Resolve same_config_refl expiry_step_refl : petra.

(** The configuration of a storage after an operation. *)
Ltac same_config :=
  solve [split_and!; cbn; first [done|congruence|lia]].

(** ** What the operations do *)

Section operations.
Context `{RS : RocksDBSpec DB WO E}.

Abbreviation view s := (db_view (st_db s)).

(** A successful read of the database, as the operations see it. *)
Definition reads_ok (s : Store DB WO) (k : bytes) : Prop :=
  exists v, snd (db_get (st_db s) k) = Ok v.

(** *** get *)

Lemma get_spec s k :
  wf_db (view s) ->
  exists s' r, RocksStorage.get s k = Ret (s', r) /\
    same_config s s' /\ expiry_step (timestamp (st_clock s)) (view s) (view s') /\
    (reads_ok s k -> r = Ok (live (view s) (timestamp (st_clock s)) k)) /\
    (~ reads_ok s k -> exists e, r = Err (RocksDb e)) /\
    TTL_COMPACTION_REMOVED s' = TTL_COMPACTION_REMOVED s.
Proof.
  intros Hwf. unfold RocksStorage.get, reads_ok.
  destruct (db_get (st_db s) k) as [d r] eqn:Eg. apply db_get_view in Eg as [Hd Hr].
  destruct r as [o|e]; cbn [snd].
  2:{ do 2 eexists. split; [done|]. cbn. rewrite Hd.
      split_and!; [same_config|apply expiry_step_refl|by intros [? ?]|eauto|done]. }
  specialize (Hr o eq_refl). destruct o as [raw|]; symmetry in Hr.
  2:{ do 2 eexists. split; [done|]. cbn. rewrite Hd. unfold live, stored. rewrite Hr.
      split_and!; [same_config|apply expiry_step_refl|done| |done].
      intros []. by eexists. }
  destruct (wf_db_decodes _ _ _ Hwf Hr) as [v Hv].
  rewrite decode_eq, Hv. cbn [mbind outcome_bind st_clock set_db].
  pose proof (is_expired_spec (st_clock s) v) as (Hexp & Hnow & Hreads).
  destruct (is_expired (st_clock s) v) as [expired c]. cbn [fst snd] in *.
  pose proof (stored_raw _ _ _ _ Hr Hv) as Hst.
  assert (Hlive : live (view s) (timestamp (st_clock s)) k =
    if expired then None else Some v).
  { unfold live. rewrite Hst. cbn. by rewrite <- Hexp. }
  destruct expired.
  - destruct (db_delete_opt _ k _) as [d' r'] eqn:Ed. apply db_delete_view in Ed.
    cbn in Ed. rewrite Hd in Ed.
    do 2 eexists. split; [done|]. cbn. rewrite Hlive.
    split_and!; [same_config| |done| |done].
    + eapply delete_expired_step; [done|by symmetry| |].
      * destruct Ed as [->|[-> _]]; [left; apply lookup_delete_eq|by right].
      * intros k' ?. destruct Ed as [->|[-> _]]; [by apply lookup_delete_ne|done].
    + intros []. by eexists.
  - do 2 eexists. split; [done|]. cbn. rewrite Hlive, Hd.
    split_and!; [same_config|apply expiry_step_refl|done| |done].
    intros []. by eexists.
Qed.

(** *** get_multi *)

(** What the loop has found about a key: its live value at one of the times
    the clock showed between [t0] and [t1]. *)
Definition found (m : gmap bytes bytes) (t0 t1 : Z) (k : bytes)
    (kv : bytes * option StoredValue) : Prop :=
  fst kv = k /\ exists t, t0 <= t <= t1 /\ snd kv = live m t k.

(** The keys reported as expired are. *)
Definition all_expired (m : gmap bytes bytes) (t : Z) (ks : list bytes) : Prop :=
  Forall (fun k => exists v, stored m k = Some v /\ expired_at t v = true) ks.

Definition ok_reads (l : list (bytes * result (option bytes) E)) : Prop :=
  Forall (fun kr => exists v, snd kr = Ok v) l.

Lemma found_weaken m t0 t1 t0' t1' k kv :
  t0' <= t0 -> t1 <= t1' -> found m t0 t1 k kv -> found m t0' t1' k kv.
Proof. intros ? ? (? & t & ? & ?). split; [done|]. exists t. split; [lia|done]. Qed.

Lemma all_expired_later m t t' ks : t <= t' -> all_expired m t ks -> all_expired m t' ks.
Proof.
  intros Ht Hf. eapply Forall_impl; [done|]. intros k (v & ? & ?). eauto using expired_at_mono.
Qed.

(** The clocks the loop goes through. *)
Definition clock_after (c c' : Clock) : Prop :=
  now_at c' = now_at c /\ (reads c <= reads c')%nat.

Lemma clock_after_mono c c' : clock_mono c -> clock_after c c' -> clock_mono c'.
Proof. intros Hm [Hn _] i j. rewrite Hn. apply Hm. Qed.

Lemma clock_after_timestamp c c' :
  clock_mono c -> clock_after c c' -> timestamp c <= timestamp c'.
Proof.
  intros Hm [Hn Hr]. unfold timestamp. rewrite Hn. by apply Hm.
Qed.

Lemma clock_after_trans c c' c'' : clock_after c c' -> clock_after c' c'' -> clock_after c c''.
Proof. intros [? ?] [? ?]. split; [congruence|lia]. Qed.

Lemma is_expired_after c v : clock_after c (snd (is_expired c v)).
Proof. destruct (is_expired_spec c v) as (_ & ? & ?). split; [done|lia]. Qed.

(** What the loop gives from the clock [c], the entries [l] and the lists it
    has accumulated. *)
Definition loop_post (m : gmap bytes bytes) (c : Clock)
    (l : list (bytes * result (option bytes) E)) results expired
    (out : outcome (Clock * result (list (bytes * option StoredValue) * list bytes)
                              (StorageError E))) : Prop :=
  exists c' r, out = Ret (c', r) /\ clock_after c c' /\
    (ok_reads l -> exists res exp, r = Ok (results ++ res, expired ++ exp) /\
       Forall2 (found m (timestamp c) (timestamp c')) (map fst l) res /\
       all_expired m (timestamp c') exp) /\
    (~ ok_reads l -> exists e, r = Err (RocksDb e)).

Lemma ok_reads_cons k r l : ok_reads ((k, r) :: l) <-> (exists v, r = Ok v) /\ ok_reads l.
Proof. unfold ok_reads. by rewrite Forall_cons. Qed.

Lemma loop_post_step m c c1 k o l results expired kv exp1 out :
  clock_mono c -> clock_after c c1 -> found m (timestamp c) (timestamp c1) k kv ->
  all_expired m (timestamp c1) exp1 ->
  loop_post m c1 l (results ++ [kv]) (expired ++ exp1) out ->
  loop_post m c ((k, Ok o) :: l) results expired out.
Proof.
  intros Hm Hc1 Hkv Hexp1 (c' & r & Hr & Hc' & Hok & Hno).
  pose proof (clock_after_timestamp _ _ Hm Hc1).
  pose proof (clock_after_timestamp _ _ (clock_after_mono _ _ Hm Hc1) Hc').
  exists c', r. split; [done|]. split; [by eapply clock_after_trans|].
  rewrite ok_reads_cons. split.
  - intros [_ Hl']. destruct (Hok Hl') as (res & exp & -> & Hres & Hexp).
    exists (kv :: res), (exp1 ++ exp). rewrite <- !app_assoc. split_and!; [done| |].
    + constructor; [eapply found_weaken; [..|done]; lia|].
      eapply Forall2_impl; [done|]. intros. eapply found_weaken; [..|done]; lia.
    + apply Forall_app. split; [by eapply all_expired_later|done].
  - intros Hn. apply Hno. intros ?. apply Hn. eauto.
Qed.

Lemma get_multi_loop_spec m c l results expired :
  wf_db m -> clock_mono c ->
  Forall (fun kr => forall v, snd kr = Ok v -> v = m !! fst kr) l ->
  loop_post m c l results expired (RocksStorage.get_multi_loop c l results expired).
Proof.
  intros Hwf. revert c results expired.
  induction l as [|[k r] l IH]; intros c results expired Hm Hl; cbn [RocksStorage.get_multi_loop].
  { exists c. eexists. split; [done|]. split; [by split|]. split; [intros _|by intros []; constructor].
    exists [], []. rewrite !app_nil_r. split_and!; [done|constructor|constructor]. }
  apply Forall_cons in Hl as [Hk Hl]. cbn [fst snd] in Hk. destruct r as [o|e].
  2:{ exists c. eexists. split; [done|]. split; [by split|]. rewrite ok_reads_cons.
      split; [by intros [[? ?] _]|eauto]. }
  specialize (Hk o eq_refl). destruct o as [raw|]; symmetry in Hk.
  2:{ eapply (loop_post_step _ _ c _ _ _ _ _ (k, None) []); [done|by split| |constructor|].
      - split; [done|]. exists (timestamp c). split; [lia|]. unfold live, stored. by rewrite Hk.
      - rewrite app_nil_r. by apply IH. }
  destruct (wf_db_decodes _ _ _ Hwf Hk) as [v Hv].
  rewrite decode_eq, Hv. cbn [mbind outcome_bind].
  pose proof (proj1 (is_expired_spec c v)) as Hexp. pose proof (is_expired_after c v) as Hc1.
  destruct (is_expired c v) as [b c1]. cbn [fst snd] in *.
  pose proof (stored_raw _ _ _ _ Hk Hv) as Hst.
  pose proof (clock_after_timestamp _ _ Hm Hc1).
  pose proof (clock_after_mono _ _ Hm Hc1).
  assert (Hlive : live m (timestamp c) k = if b then None else Some v)
    by (unfold live; rewrite Hst; cbn; by rewrite <- Hexp).
  destruct b.
  - eapply (loop_post_step _ _ c1 _ _ _ _ _ (k, None) [k]); [done|done| | |by apply IH].
    + split; [done|]. exists (timestamp c). split; [lia|done].
    + apply Forall_singleton. exists v. eauto using expired_at_mono.
  - eapply (loop_post_step _ _ c1 _ _ _ _ _ (k, Some v) []); [done|done| |constructor|].
    + split; [done|]. exists (timestamp c). split; [lia|done].
    + rewrite app_nil_r. by apply IH.
Qed.

Lemma delete_all_step t d ks w m :
  all_expired m t ks -> expiry_step t m (db_view d) ->
  expiry_step t m (db_view (RocksStorage.delete_all d ks w)).
Proof.
  unfold RocksStorage.delete_all. revert d. induction ks as [|k ks IH]; intros d Hks Hd; [done|].
  apply Forall_cons in Hks as [(v & Hv & Hexp) Hks]. cbn [fold_left].
  apply IH; [done|]. destruct (db_delete_opt d k w) as [d' r] eqn:Ed.
  apply db_delete_view in Ed. cbn [fst]. intros k'.
  destruct Ed as [->|[-> _]]; [|apply Hd].
  destruct (decide (k' = k)) as [->|].
  - right. rewrite lookup_delete_eq. eauto.
  - rewrite lookup_delete_ne by done. apply Hd.
Qed.

Definition multi_reads_ok (s : Store DB WO) (ks : list bytes) : Prop :=
  Forall (fun r => exists v, r = Ok v) (snd (db_multi_get (st_db s) ks)).

Lemma get_multi_spec s ks :
  wf_db (view s) -> clock_mono (st_clock s) ->
  exists s' r, RocksStorage.get_multi s ks = Ret (s', r) /\
    same_config s s' /\ expiry_step (timestamp (st_clock s')) (view s) (view s') /\
    (multi_reads_ok s ks -> exists res, r = Ok res /\
       Forall2 (found (view s) (timestamp (st_clock s)) (timestamp (st_clock s'))) ks res) /\
    (~ multi_reads_ok s ks -> exists e, r = Err (RocksDb e)) /\
    TTL_COMPACTION_REMOVED s' = TTL_COMPACTION_REMOVED s.
Proof.
  intros Hwf Hm. unfold RocksStorage.get_multi, multi_reads_ok.
  destruct (db_multi_get (st_db s) ks) as [d rs] eqn:Eg.
  apply db_multi_get_view in Eg as [Hd Hrs]. cbn [snd].
  assert (Hlen : length ks = length rs) by by eapply Forall2_length.
  assert (Hok : ok_reads (zip ks rs) <-> Forall (fun r => exists v, r = Ok v) rs).
  { clear -Hlen. revert rs Hlen. unfold ok_reads.
    induction ks as [|k ks IH]; intros [|r rs] [=]; cbn; [by split; constructor|].
    rewrite !Forall_cons. by rewrite IH. }
  assert (Hfst : map fst (zip ks rs) = ks).
  { clear -Hlen. revert rs Hlen. induction ks as [|k ks IH]; intros [|r rs] [=]; cbn; [done|].
    by rewrite IH. }
  destruct (get_multi_loop_spec (view s) (st_clock s) (zip ks rs) [] []) as
    (c' & r & Hl & [Hn Hr] & Hyes & Hno); [done|done| |].
  { clear -Hrs. induction Hrs; cbn; constructor; auto. }
  cbn [set_db st_clock]. rewrite Hl. cbn [mbind outcome_bind]. rewrite Hok in Hyes, Hno.
  destruct r as [[results expired]|e].
  2:{ do 2 eexists. split; [done|]. cbn. rewrite Hd.
      split_and!; [same_config|apply expiry_step_refl| | |done].
      2:{ intros Hf. destruct (Hno Hf) as [? [= ->]]. eauto. }
      intros Hf. by destruct (Hyes Hf) as (? & ? & ? & _). }
  assert (Hdec : Forall (fun r : result (option bytes) E => exists v, r = Ok v) rs \/
    ~ Forall (fun r : result (option bytes) E => exists v, r = Ok v) rs).
  { clear. induction rs as [|[v|e] rs [IH|IH]]; [by left; constructor|..].
    - left. constructor; eauto.
    - right. rewrite Forall_cons. by intros [_ ?].
    - right. rewrite Forall_cons. by intros [[? ?] _].
    - right. rewrite Forall_cons. by intros [[? ?] _]. }
  destruct Hdec as [Hf|Hf].
  2:{ by destruct (Hno Hf) as [? ?]. }
  destruct (Hyes Hf) as (res & exp & Heq & Hres & Hexp). cbn in Heq. simplify_eq.
  rewrite Hfst in Hres. case_bool_decide.
  - do 2 eexists. split; [done|]. cbn.
    split_and!; [same_config| |eauto|done|done].
    apply delete_all_step; [done|]. rewrite Hd. apply expiry_step_refl.
  - do 2 eexists. split; [done|]. cbn. rewrite Hd.
    split_and!; [same_config|apply expiry_step_refl|eauto|done|done].
Qed.

(** *** set, delete and compact *)

Lemma set_spec s k v s' r :
  RocksStorage.set s k v = (s', r) ->
  same_config s s' /\ st_clock s' = st_clock s /\
  (view s' = <[k := encode v]> (view s) \/ (view s' = view s /\ exists e, r = Err (RocksDb e))).
Proof.
  unfold RocksStorage.set. destruct (db_put_opt _ _ _ _) as [d r0] eqn:Ep.
  apply db_put_view in Ep. intros [= <- <-]. cbn. split_and!; [same_config|done|].
  destruct Ep as [?|[? Hr]]; [by left|right]. split; [done|].
  destruct r0 as [[]|e]; [done|eauto].
Qed.

Lemma delete_spec s k s' r :
  RocksStorage.delete s k = (s', r) ->
  same_config s s' /\ st_clock s' = st_clock s /\
  (view s' = delete k (view s) \/ (view s' = view s /\ exists e, r = Err (RocksDb e))) /\
  (forall b, r = Ok b -> b = bool_decide (is_Some (view s !! k))).
Proof.
  unfold RocksStorage.delete. destruct (db_get _ _) as [d r0] eqn:Eg.
  apply db_get_view in Eg as [Hd Hr]. destruct r0 as [v|e].
  2:{ intros [= <- <-]. cbn. rewrite Hd. split_and!; [same_config|done|eauto|by intros]. }
  rewrite (Hr v eq_refl). destruct (db_delete_opt _ _ _) as [d' r1] eqn:Ed.
  apply db_delete_view in Ed. cbn in Ed. rewrite Hd in Ed. intros [= <- <-]. cbn.
  split_and!; [same_config|done| |].
  - destruct Ed as [?|[? Hr1]]; [by left|right]. split; [done|].
    destruct r1 as [[]|e]; [done|eauto].
  - destruct r1; intros; simplify_eq; done.
Qed.

(** The compaction filter decides on the encoded expiry time. *)
Lemma filter_eq c n lvl k s :
  ttl_compaction_filter (c, n) lvl k s =
  if (8 <=? len s) && negb (from_le_bytes (take 8 s) =? 0) then
    let '(now, c') := current_timestamp c in
    if from_le_bytes (take 8 s) <=? now then ((c', wrap64 (n + 1)), Remove)
    else ((c', n), Keep)
  else ((c, n), Keep).
Proof.
  unfold ttl_compaction_filter. destruct (8 <=? len s) eqn:Hlen; [|done]. zbool. cbn [andb].
  assert (slice_range s 0 8 = Ret (take 8 s)) as -> by by rewrite slice_range_ok by lia.
  unfold try_into_array. unfold len in *.
  rewrite (proj2 (Z.eqb_eq (Z.of_nat (length (take 8 s))) 8)) by (rewrite length_take; lia).
  done.
Qed.

Lemma filter_clock c n lvl k s :
  clock_after c (fst (fst (ttl_compaction_filter (c, n) lvl k s))).
Proof.
  rewrite filter_eq. destruct (_ && _); cbn; [|by split]. by case_match; cbn; split; cbn; try lia.
Qed.

Lemma filter_remove c n lvl k s v :
  decode_spec s = Some v -> snd (ttl_compaction_filter (c, n) lvl k s) = Remove <->
  expired_at (timestamp c) v = true.
Proof.
  unfold decode_spec. destruct (len s <? 12) eqn:Hlen; [done|]. zbool. intros [= <-].
  rewrite filter_eq. unfold expired_at. cbn [sv_expire_at].
  rewrite (proj2 (Z.leb_le 8 (len s))) by lia. cbn [andb].
  destruct (_ =? 0); cbn; [done|]. unfold timestamp. by case_match.
Qed.

Lemma run_filter_clock c n calls :
  clock_after c (fst (run_filter ttl_compaction_filter (c, n) calls)).
Proof.
  unfold run_filter. revert c n.
  induction calls as [|[[lvl k] v] calls IH]; intros c n; cbn [fold_left]; [by split|].
  pose proof (filter_clock c n lvl k v). destruct (fst (ttl_compaction_filter _ _ _ _)) as [c1 n1].
  by eapply clock_after_trans.
Qed.

Lemma compact_spec s :
  wf_db (view s) -> clock_mono (st_clock s) ->
  let s' := RocksStorage.compact s in
  same_config s s' /\ expiry_step (timestamp (st_clock s')) (view s) (view s') /\
  EXPIRED_KEYS_REMOVED s' = EXPIRED_KEYS_REMOVED s.
Proof.
  intros Hwf Hm. unfold RocksStorage.compact.
  destruct (db_compact_range _ _ _) as [[c n] d] eqn:Ec. cbn.
  destruct (st_ttl_filter s) eqn:Ef.
  2:{ apply db_compact_none in Ec as [[= -> ->] Hd]. rewrite Hd.
      split_and!; [same_config|apply expiry_step_refl|done]. }
  apply db_compact_view in Ec as (calls & Hs & Hk).
  pose proof (run_filter_clock (st_clock s) (TTL_COMPACTION_REMOVED s) calls) as Hc.
  rewrite <- Hs in Hc. cbn [fst] in Hc. destruct Hc as [Hn Hr].
  split_and!; [same_config| |done]. intros k.
  destruct (Hk k) as [?|(Hnone & pre & lvl & v & post & -> & Hv & Hrem)]; [by left|right].
  split; [done|]. destruct (wf_db_decodes _ _ _ Hwf Hv) as [sv Hsv].
  exists sv. split; [by eapply stored_raw|].
  pose proof (run_filter_clock (st_clock s) (TTL_COMPACTION_REMOVED s) pre) as Hpre.
  unfold run_filter in Hs. rewrite fold_left_app in Hs.
  fold (run_filter ttl_compaction_filter (st_clock s, TTL_COMPACTION_REMOVED s) pre) in Hs.
  destruct (run_filter _ _ pre) as [c1 n1]. cbn [fst] in *.
  apply (filter_remove _ _ _ _ _ _ Hsv) in Hrem.
  assert (Hc1 : clock_after c1 c).
  { pose proof (run_filter_clock c1 n1 ((lvl, k, v) :: post)) as H.
    unfold run_filter in H. by rewrite <- Hs in H. }
  eapply expired_at_mono; [|done]. apply clock_after_timestamp; [|done].
  by eapply clock_after_mono.
Qed.

End operations.
