(* ===== verification/StorageProps.v ===== *)
(** * Properties of the storage backend

    The operations against the live content of the database: lookups are
    exact, lazy expiration and compaction are invisible, the batched lookup
    agrees with single lookups, and the invariant of the database is kept. *)

From S2P Require Import Prelude RustStd Extern Reference Errors Value Storage Metrics Config.
From S2P Require Import ServerState Examples StorageFacts.
#[local] Open Scope petra_scope.

Abbreviation view s := (db_view (st_db s)).

Section props.
Context `{RS : RocksDBSpec DB WO E}.

Lemma wf_db_insert m k v : wf_value v -> wf_db m -> wf_db (<[k := encode v]> m).
Proof.
  intros (_ & _ & Hv) H. apply map_Forall_insert_2; [|done]. unfold slice_ok.
  rewrite len_encode. pose proof (len_nonneg (sv_data v)). lia.
Qed.

Lemma wf_db_delete m k : wf_db m -> wf_db (base.delete k m).
Proof. intros H. by apply map_Forall_delete. Qed.

Lemma live_insert m t k v k' :
  wf_value v ->
  live (<[k := encode v]> m) t k' =
  if decide (k' = k) then live_value t (Some v) else live m t k'.
Proof.
  intros Hv. unfold live, stored. case_decide as Hk.
  - subst. rewrite lookup_insert_eq. cbn [mbind option_bind]. by rewrite decode_spec_encode.
  - by rewrite lookup_insert_ne.
Qed.

Lemma live_delete m t k k' :
  live (base.delete k m) t k' = if decide (k' = k) then None else live m t k'.
Proof.
  unfold live, stored. case_decide as Hk.
  - subst. by rewrite lookup_delete_eq.
  - by rewrite lookup_delete_ne.
Qed.

Lemma live_is_stored m t k : is_Some (live m t k) -> is_Some (m !! k).
Proof. unfold live, stored. destruct (m !! k); [by eexists|]. by intros [? ?]. Qed.

End props.

(** C19 A single lookup is exact: it never panics; when the database read
    succeeds it returns precisely the live value of the key at the time of
    the lookup, and otherwise the database error; removing an expired entry
    on the way changes nothing any client can see from that time on. *)
Theorem get_exact `{RS : RocksDBSpec DB WO E} (s : Store DB WO) k :
  wf_db (view s) ->
  exists s' r, RocksStorage.get s k = Ret (s', r) /\
    (reads_ok s k -> r = Ok (live (view s) (timestamp (st_clock s)) k)) /\
    (~ reads_ok s k -> exists e, r = Err (RocksDb e)) /\
    same_live (timestamp (st_clock s)) (view s) (view s') /\
    wf_db (view s').
Proof.
  intros Hwf. destruct (get_spec s k Hwf) as (s' & r & Hg & _ & Hstep & Hok & Hno & _).
  exists s', r. split_and!; [done..| |].
  - by apply expiry_step_same_live.
  - by eapply expiry_step_wf.
Qed.

(** C21 The batched lookup agrees with single lookups: while the clock shows
    one second, [get_multi] answers every key, in the order asked and
    duplicates included, with exactly what [get] answers for it. *)
Theorem get_multi_agrees `{RS : RocksDBSpec DB WO E} (s : Store DB WO) ks t :
  wf_db (view s) -> clock_frozen (st_clock s) t -> multi_reads_ok s ks ->
  (forall k, k ∈ ks -> reads_ok s k) ->
  exists s' res, RocksStorage.get_multi s ks = Ret (s', Ok res) /\
    Forall2 (fun k kv => fst kv = k /\
      exists s1, RocksStorage.get s k = Ret (s1, Ok (snd kv))) ks res.
Proof.
  intros Hwf Hf Hm Hr.
  destruct (get_multi_spec s ks Hwf (clock_frozen_mono _ _ Hf)) as
    (s' & r & Hg & (_ & _ & Hn & _) & _ & Hok & _).
  destruct (Hok Hm) as (res & -> & Hres). exists s', res. split; [done|].
  assert (Ht' : timestamp (st_clock s') = t) by (unfold timestamp; rewrite Hn; apply Hf).
  rewrite Ht', (clock_frozen_timestamp _ _ Hf) in Hres.
  apply Forall2_same_length_lookup. split; [by eapply Forall2_length|].
  intros i k kv Hk Hkv. destruct (Forall2_lookup_lr _ _ _ _ _ _ Hres Hk Hkv) as (Hfst & u & Hu & Hsnd).
  split; [done|]. destruct (get_spec s k Hwf) as (s1 & r1 & Hg1 & _ & _ & Hok1 & _).
  exists s1. rewrite Hg1, (Hok1 (Hr k (list_elem_of_lookup_2 _ _ _ Hk))).
  rewrite (clock_frozen_timestamp _ _ Hf), Hsnd. by replace u with t by lia.
Qed.

(** With a clock that moves during the batch, every answer is still the
    live value of its key at some moment between the start and the end of
    the batch, and dropping the expired entries stays invisible. *)
Theorem get_multi_linear `{RS : RocksDBSpec DB WO E} (s : Store DB WO) ks :
  wf_db (view s) -> clock_mono (st_clock s) -> multi_reads_ok s ks ->
  exists s' res, RocksStorage.get_multi s ks = Ret (s', Ok res) /\
    Forall2 (fun k kv => fst kv = k /\ exists t,
      timestamp (st_clock s) <= t <= timestamp (st_clock s') /\
      snd kv = live (view s) t k) ks res /\
    same_live (timestamp (st_clock s')) (view s) (view s') /\ wf_db (view s').
Proof.
  intros Hwf Hc Hm.
  destruct (get_multi_spec s ks Hwf Hc) as (s' & r & Hg & _ & Hstep & Hok & _).
  destruct (Hok Hm) as (res & -> & Hres). exists s', res.
  split_and!; [done|done|by apply expiry_step_same_live|by eapply expiry_step_wf].
Qed.

(** C20 Read your writes: after a successful [set], a lookup of the key
    returns the value with the flags and data it was stored with until it
    expires and nothing from then on, and a lookup of any other key is not
    affected; the invariant of the database is kept even when the write
    fails. *)
Theorem set_then_get `{RS : RocksDBSpec DB WO E} (s s1 : Store DB WO) k v r1 :
  wf_db (view s) -> wf_value v -> RocksStorage.set s k v = (s1, r1) ->
  wf_db (view s1) /\
  (r1 = Ok tt -> forall k' s2 r, reads_ok s1 k' -> RocksStorage.get s1 k' = Ret (s2, r) ->
     r = Ok (if decide (k' = k) then live_value (timestamp (st_clock s)) (Some v)
             else live (view s) (timestamp (st_clock s)) k')).
Proof.
  intros Hwf Hv Hs. apply set_spec in Hs as (_ & Hc & Hview).
  assert (Hwf1 : wf_db (view s1)).
  { destruct Hview as [->|[-> _]]; [by apply wf_db_insert|done]. }
  split; [done|]. intros -> k' s2 r Hr Hg.
  destruct Hview as [Hview|[_ [e He]]]; [|done].
  destruct (get_spec s1 k' Hwf1) as (s2' & r' & Hg' & _ & _ & Hok & _).
  rewrite Hg' in Hg. injection Hg as <- <-. rewrite (Hok Hr), Hview, Hc.
  by rewrite live_insert.
Qed.

(** C22 Deletion: a successful [delete] removes the key for every later
    lookup and touches no other key; it reports [true] for every live key,
    and reports [false] only for a key that is not live. *)
Theorem delete_correct `{RS : RocksDBSpec DB WO E} (s s1 : Store DB WO) k b :
  wf_db (view s) -> RocksStorage.delete s k = (s1, Ok b) ->
  wf_db (view s1) /\
  (forall t k', live (view s1) t k' = if decide (k' = k) then None else live (view s) t k') /\
  (forall t, is_Some (live (view s) t k) -> b = true) /\
  (b = false -> forall t, live (view s) t k = None).
Proof.
  intros Hwf Hd. apply delete_spec in Hd as (_ & _ & [Hview|[_ [e He]]] & Hb); [|done].
  specialize (Hb b eq_refl). rewrite Hview. split_and!.
  - by apply wf_db_delete.
  - intros. apply live_delete.
  - intros t Hl. subst b. apply bool_decide_eq_true. by eapply live_is_stored.
  - intros -> t. symmetry in Hb. apply bool_decide_eq_false in Hb.
    destruct (live (view s) t k) eqn:El; [|done]. destruct Hb.
    eapply live_is_stored. by rewrite El.
Qed.

(** Deleting an expired entry that is still in the database reports that
    the key existed, although a lookup at the same moment finds nothing. *)
Theorem delete_reports_expired `{RS : RocksDBSpec DB WO E} (s s1 : Store DB WO) k v b :
  wf_db (view s) -> stored (view s) k = Some v ->
  expired_at (timestamp (st_clock s)) v = true -> reads_ok s k ->
  RocksStorage.delete s k = (s1, Ok b) ->
  b = true /\ exists s2, RocksStorage.get s k = Ret (s2, Ok None).
Proof.
  intros Hwf Hv Hexp Hr Hd. apply delete_spec in Hd as (_ & _ & _ & Hb). split.
  - rewrite (Hb b eq_refl). apply bool_decide_eq_true. unfold stored in Hv.
    destruct (view s !! k); [by eexists|done].
  - destruct (get_spec s k Hwf) as (s' & r & Hg & _ & _ & Hok & _).
    exists s'. rewrite Hg, (Hok Hr). unfold live. rewrite Hv. cbn. by rewrite Hexp.
Qed.

(** C30 Compaction is invisible: whatever entries RocksDB presents to the TTL
    filter, in whatever order, the live content of the database is the same
    from the end of the compaction on, and the invariant is kept; without
    the filter installed no entry is removed at all.
    The system clock is assumed never to go back. *)
Theorem compact_invisible `{RS : RocksDBSpec DB WO E} (s : Store DB WO) :
  wf_db (view s) -> clock_mono (st_clock s) ->
  same_live (timestamp (st_clock (RocksStorage.compact s))) (view s)
    (view (RocksStorage.compact s)) /\
  wf_db (view (RocksStorage.compact s)) /\
  (st_ttl_filter s = false -> view (RocksStorage.compact s) = view s).
Proof.
  intros Hwf Hm. destruct (compact_spec s Hwf Hm) as (_ & Hstep & _). split_and!.
  - by apply expiry_step_same_live.
  - by eapply expiry_step_wf.
  - intros Hf. unfold RocksStorage.compact. rewrite Hf.
    destruct (db_compact_range None _ _) as [[c n] d] eqn:Ec. cbn.
    by apply db_compact_none in Ec as [_ ?].
Qed.

(** The compaction filter and lazy expiration decide alike: on the
    encoding of any value the filter answers [Remove], and counts one
    removal, exactly when [is_expired] holds at that moment; it keeps every
    slice too short to hold an expiry time. *)
Theorem ttl_filter_agrees c n lvl k :
  (forall v, wf_value v ->
     (snd (ttl_compaction_filter (c, n) lvl k (encode v)) = Remove <->
      fst (is_expired c v) = true) /\
     snd (fst (ttl_compaction_filter (c, n) lvl k (encode v))) =
       if fst (is_expired c v) then wrap64 (n + 1) else n) /\
  (forall s, len s < 8 -> ttl_compaction_filter (c, n) lvl k s = ((c, n), Keep)).
Proof.
  split.
  - intros v Hv. rewrite (proj1 (is_expired_spec c v)). split.
    + by apply filter_remove, decode_spec_encode.
    + destruct Hv as [He _]. rewrite filter_eq, encode_expire_at, len_encode by done.
      pose proof (len_nonneg (sv_data v)). rewrite (proj2 (Z.leb_le 8 _)) by lia.
      unfold expired_at. destruct (_ =? 0); cbn; [done|]. unfold timestamp. by case_match.
  - intros s Hs. rewrite filter_eq. by rewrite (proj2 (Z.leb_gt 8 _)) by lia.
Qed.

(** ** Witnesses *)

Lemma wf_ex_db t : wf_db (view (ex_store ex_db t)).
Proof.
  change (wf_db ex_db). unfold wf_db, ex_db. apply map_Forall_singleton.
  split; vm_compute; discriminate.
Qed.

Lemma get_exact_witness :
  exists s', RocksStorage.get (ex_store ex_db 999) (str "k") = Ret (s', Ok (Some ex_value)).
Proof.
  destruct (get_exact (ex_store ex_db 999) (str "k") (wf_ex_db _)) as (s' & r & Hg & Hok & _).
  exists s'. rewrite Hg, Hok by by eexists. vm_compute. reflexivity.
Defined.

Lemma get_multi_agrees_witness :
  exists s' res, RocksStorage.get_multi (ex_store ex_db 1000) [str "k"; str "x"; str "k"] =
    Ret (s', Ok res) /\ length res = 3%nat.
Proof.
  destruct (get_multi_agrees (ex_store ex_db 1000) [str "k"; str "x"; str "k"] 1000)
    as (s' & res & Hg & Hres).
  - exact (wf_ex_db _).
  - by apply fixed_clock_frozen.
  - repeat constructor; by eexists.
  - intros. by eexists.
  - exists s', res. split; [done|]. by rewrite <- (Forall2_length _ _ _ Hres).
Defined.

Lemma get_multi_linear_witness :
  exists s' res, RocksStorage.get_multi (ex_store ex_db 1000) [str "k"; str "x"] =
    Ret (s', Ok res) /\ wf_db (view s').
Proof.
  destruct (get_multi_linear (ex_store ex_db 1000) [str "k"; str "x"])
    as (s' & res & Hg & _ & _ & Hwf).
  - exact (wf_ex_db _).
  - by eapply clock_frozen_mono, fixed_clock_frozen.
  - repeat constructor; by eexists.
  - by exists s', res.
Defined.

Lemma set_then_get_witness :
  wf_value ex_value /\
  wf_db (view (fst (RocksStorage.set (ex_store ex_db 5) (str "b") ex_value))).
Proof.
  assert (Hv : wf_value ex_value) by (split_and!; vm_compute; discriminate).
  split; [done|].
  apply (set_then_get (ex_store ex_db 5) _ (str "b") ex_value _ (wf_ex_db _) Hv eq_refl).
Defined.

Lemma delete_correct_witness :
  live (view (fst (RocksStorage.delete (ex_store ex_db 5) (str "k")))) 5 (str "k") = None.
Proof.
  destruct (delete_correct (ex_store ex_db 5)
    (fst (RocksStorage.delete (ex_store ex_db 5) (str "k"))) (str "k") true (wf_ex_db _))
    as (_ & Hl & _); [by vm_compute|]. rewrite Hl. by rewrite decide_True.
Defined.

Lemma delete_reports_expired_witness :
  exists s2, RocksStorage.get (ex_store ex_db 2000) (str "k") = Ret (s2, Ok None).
Proof.
  apply (delete_reports_expired (ex_store ex_db 2000)
    (fst (RocksStorage.delete (ex_store ex_db 2000) (str "k"))) (str "k") ex_value true (wf_ex_db _));
    try by vm_compute. by eexists.
Defined.

Lemma compact_invisible_witness :
  wf_db (view (RocksStorage.compact (ex_store ex_db 2000))).
Proof.
  apply (compact_invisible (ex_store ex_db 2000) (wf_ex_db _)).
  by eapply clock_frozen_mono, fixed_clock_frozen.
Defined.
