(* ===== verification/Spec.v ===== *)
(** * The abstract cache

    What the server promises its clients: a map from keys to items, a
    command as an atomic step on it with the replies it gives, and the
    relation between the map and the content of the database.  The map
    keeps expired items: expiry is a matter of what [get] shows. *)

From S2P Require Import Prelude RustStd Extern Reference Errors Command Value Storage StorageFacts.
From S2P Require Import Response Handler.
#[local] Open Scope petra_scope.

Abbreviation cache := (gmap bytes StoredValue).

(** The replies for the keys of a get that have a value. *)
Definition value_replies (results : list (bytes * option StoredValue)) : list reply :=
  omap (fun '(k, o) => (fun v => RValue k (sv_flags v) (sv_data v)) <$> o) results.

(** [answer c t0 t1 k kv]: [kv] is the key and its live item at some time
    between [t0] and [t1]. *)
Definition answer (c : cache) (t0 t1 : Z) (k : bytes) (kv : bytes * option StoredValue) : Prop :=
  fst kv = k /\ exists t, t0 <= t <= t1 /\ snd kv = live_value t (c !! k).

(** [cache_step fails t0 t1 c cmd c' rs]: the command, executed between the
    times [t0] and [t1], changes [c] to [c'] and gives the replies [rs];
    [fails msg] says that the storage reports an error with the text [msg].
    A failed write may still have taken effect. *)
Inductive cache_step (fails : bytes -> Prop) (t0 t1 : Z) (c : cache) :
    Command -> cache -> list reply -> Prop :=
| step_get keys results :
    (forall msg, ~ fails msg) -> Forall2 (answer c t0 t1) keys results ->
    cache_step fails t0 t1 c (Get keys) c (value_replies results ++ [REnd])
| step_get_error keys msg :
    fails msg -> cache_step fails t0 t1 c (Get keys) c [RServerError msg]
| step_set key flags exptime data noreply :
    (forall msg, ~ fails msg) ->
    cache_step fails t0 t1 c (Set_ key flags exptime data noreply)
      (<[key := with_expire_at flags (expiry_rule t0 exptime) data]> c) [RStored]
| step_set_error key flags exptime data noreply c' msg :
    fails msg ->
    c' = c \/ c' = <[key := with_expire_at flags (expiry_rule t0 exptime) data]> c ->
    cache_step fails t0 t1 c (Set_ key flags exptime data noreply) c' [RServerError msg]
| step_deleted key noreply v :
    (forall msg, ~ fails msg) -> c !! key = Some v ->
    cache_step fails t0 t1 c (Delete key noreply) (base.delete key c) [RDeleted]
| step_not_found key noreply :
    (forall msg, ~ fails msg) -> live_value t0 (c !! key) = None ->
    cache_step fails t0 t1 c (Delete key noreply) (base.delete key c) [RNotFound]
| step_delete_error key noreply c' msg :
    fails msg -> c' = c \/ c' = base.delete key c ->
    cache_step fails t0 t1 c (Delete key noreply) c' [RServerError msg]
| step_version :
    cache_step fails t0 t1 c Version c [RVersion version_text]
| step_quit : cache_step fails t0 t1 c Quit c [].

(** The database [m] holds the cache [c] as far as anyone can see from time
    [t] on; it holds no key the cache does not have. *)
Definition holds (t : Z) (c : cache) (m : gmap bytes bytes) : Prop :=
  (forall t', t <= t' -> forall k, live m t' k = live_value t' (c !! k)) /\
  (forall k, is_Some (m !! k) -> is_Some (c !! k)).

(** ** Facts *)

Lemma holds_later t t' c m : t <= t' -> holds t c m -> holds t' c m.
Proof. intros Ht [Hl Hd]. split; [|done]. intros t'' ?. apply Hl. lia. Qed.

Lemma holds_live t c m k : holds t c m -> live m t k = live_value t (c !! k).
Proof. intros [Hl _]. by apply Hl. Qed.

(** Dropping expired entries keeps the relation. *)
Lemma holds_expiry t t' c m m' :
  t <= t' -> holds t c m -> expiry_step t' m m' -> holds t' c m'.
Proof.
  intros Ht [Hl Hd] Hs. pose proof (expiry_step_same_live _ _ _ Hs) as Hsame. split.
  - intros t'' Ht'' k. rewrite <- Hsame by done. apply Hl. lia.
  - intros k Hk. apply Hd. by destruct (Hs k) as [<-|[E _]]; [|rewrite E in Hk; destruct Hk].
Qed.

Lemma holds_insert t c m k v :
  wf_value v -> holds t c m -> holds t (<[k := v]> c) (<[k := encode v]> m).
Proof.
  intros Hv [Hl Hd]. split.
  - intros t' Ht' k'. unfold live, stored. destruct (decide (k = k')) as [->|?].
    + rewrite !lookup_insert_eq. cbn [mbind option_bind]. by rewrite decode_spec_encode.
    + rewrite !lookup_insert_ne by done. by apply Hl.
  - intros k'. destruct (decide (k = k')) as [->|?].
    + by rewrite !lookup_insert_eq.
    + rewrite !lookup_insert_ne by done. apply Hd.
Qed.

Lemma holds_delete t c m k : holds t c m -> holds t (base.delete k c) (base.delete k m).
Proof.
  intros [Hl Hd]. split.
  - intros t' Ht' k'. unfold live, stored. destruct (decide (k = k')) as [->|?].
    + by rewrite !lookup_delete_eq.
    + rewrite !lookup_delete_ne by done. by apply Hl.
  - intros k'. destruct (decide (k = k')) as [->|?].
    + rewrite !lookup_delete_eq. intros [? ?]; done.
    + rewrite !lookup_delete_ne by done. apply Hd.
Qed.

Lemma holds_missing t c m k : holds t c m -> m !! k = None -> live_value t (c !! k) = None.
Proof. intros H Hk. rewrite <- (holds_live t c m k H). unfold live, stored. by rewrite Hk. Qed.

(** Answers from the database are answers of the cache. *)
Lemma found_answer t0 t1 c m k kv : holds t0 c m -> found m t0 t1 k kv -> answer c t0 t1 k kv.
Proof.
  intros [Hl _] [Hk (t & Ht & Hv)]. split; [done|]. exists t. split; [done|].
  rewrite Hv. apply Hl. lia.
Qed.

Lemma wf_empty_cache t : holds t ∅ ∅.
Proof.
  split; [done|]. intros k. rewrite lookup_empty. by intros [? ?].
Qed.
