(* ===== verification/HandlerProps.v ===== *)
(** * The command handlers implement the abstract cache

    [execute] is a step of [cache_step] for every command and every
    behaviour of the database, errors included. *)

From S2P Require Import Prelude RustStd Extern Reference Errors Command Value.
From S2P Require Import Storage StorageFacts StorageProps Response Metrics Config ServerState.
From S2P Require Import Examples Handler Spec.
#[local] Open Scope petra_scope.

(** ** Specification vocabulary *)

Section vocabulary.
Context `{RS : RocksDBSpec DB WO E}.

(** The database call of the command reports an error. *)
Definition db_error (st : Store DB WO) (cmd : Command) : Prop :=
  match cmd with
  | Get [k] => ~ reads_ok st k
  | Get ks => ~ multi_reads_ok st ks
  | Set_ k flags exptime data _ =>
      let '(v, c) := stored_value_new (st_clock st) flags exptime data in
      exists e, snd (RocksStorage.set (set_clock st c) k v) = Err e
  | Delete k _ => exists e, snd (RocksStorage.delete st k) = Err e
  | Version | Quit => False
  end.

(** The same, with the text of a database error. *)
Definition db_fails (st : Store DB WO) (cmd : Command) (msg : bytes) : Prop :=
  db_error st cmd /\ exists e, msg = StorageError_display (RocksDb e).

(** The storage holds the cache [c] from now on.  This includes the
    assumption that the system clock never goes back, without which no
    cache with expiry is held for longer than a read of the clock. *)
Definition represents (c : cache) (st : Store DB WO) : Prop :=
  wf_db (view st) /\ clock_mono (st_clock st) /\
  holds (timestamp (st_clock st)) c (view st).

#[export] Instance reads_ok_dec (st : Store DB WO) k : Decision (reads_ok st k).
Proof.
  unfold reads_ok. destruct (snd (db_get _ _)) as [v|e]; [left; eauto|right].
  by intros [? ?].
Defined.

#[export] Instance multi_reads_ok_dec (st : Store DB WO) ks : Decision (multi_reads_ok st ks).
Proof.
  unfold multi_reads_ok. apply Forall_dec.
  intros [v|e]; [left; eauto|right]. by intros [? ?].
Defined.

End vocabulary.

(** ** Facts *)

Lemma wf_db_value m k v : wf_db m -> stored m k = Some v -> wf_value v.
Proof.
  intros Hwf (s & Hs & Hv)%bind_Some. specialize (Hwf k s Hs) as [_ Hok].
  by apply encode_decode_spec in Hv as [_ ?].
Qed.

Lemma wf_db_live m t k v : wf_db m -> live m t k = Some v -> wf_value v.
Proof.
  intros Hwf (v' & Hv & Hl)%bind_Some. case_match; simplify_eq. by eapply wf_db_value.
Qed.

Lemma value_fits k v : wf_value v -> reply_fits (RValue k (sv_flags v) (sv_data v)).
Proof. intros (_ & Hf & Hl). split; [done|]. unfold slice_ok. lia. Qed.

Lemma value_replies_fit (results : list (bytes * option StoredValue)) :
  Forall (fun kv => forall v, snd kv = Some v -> wf_value v) results ->
  Forall reply_fits (value_replies results).
Proof.
  induction 1 as [|[k [v|]] results Hv Hr IH]; cbn; [done| |done].
  constructor; [by apply value_fits, Hv|done].
Qed.

Section facts.
Context `{RS : RocksDBSpec DB WO E} `{BMS : BytesMutSpec B} `{ITS : ItoaSpec} {PR : Prometheus}.
Context {S : Type}.

Abbreviation server := (Server.t DB WO S).
Abbreviation text w := (ResponseWriter.buffer w).

(** A command changes neither the configuration of the server and its
    storage nor the connections, and only moves the clock forward. *)
Definition same_server (s s' : server) : Prop :=
  Server.config s' = Server.config s /\
  Server.connection_semaphore s' = Server.connection_semaphore s /\
  Server.cancel_token s' = Server.cancel_token s /\
  Metrics.active_connections (Server.metrics s') = Metrics.active_connections (Server.metrics s) /\
  same_config (Server.storage s) (Server.storage s').

Lemma same_server_refl (s : server) : same_server s s.
Proof. repeat split; lia. Qed.

Lemma write_results_spec (s s' : server) results (w w' : ResponseWriter.t B) :
  Forall (fun kv => forall v, snd kv = Some v -> wf_value v) results ->
  write_results s results w = (s', w') ->
  Server.storage s' = Server.storage s /\ same_server s s' /\
  text w' = text w ++ print_replies (value_replies results).
Proof.
  intros Hwf. revert s w. induction Hwf as [|[k [v|]] results Hv Hr IH]; intros s w; cbn.
  - intros [= <- <-]. split_and!; try done. by rewrite app_nil_r.
  - intros (-> & Hs & ->)%IH. split_and!; [done|apply Hs..|].
    change (ResponseWriter.value w k (sv_flags v) (sv_data v))
      with (write_reply w (RValue k (sv_flags v) (sv_data v))).
    rewrite text_write_reply by by apply value_fits, Hv.
    by rewrite <- app_assoc.
  - intros (-> & Hs & ->)%IH. split_and!; [done|apply Hs..|done].
Qed.

(** The three ways a handler ends: a reply appended to the text. *)
Lemma text_reply (w : ResponseWriter.t B) r :
  reply_fits r -> text (write_reply w r) = text w ++ print_replies [r].
Proof. intros. rewrite text_write_reply by done. unfold print_replies. cbn. by rewrite app_nil_r. Qed.

(** The relation after an operation that only drops expired entries. *)
Lemma represents_expiry c (st st' : Store DB WO) t :
  represents c st -> same_config st st' ->
  timestamp (st_clock st) <= t <= timestamp (st_clock st') ->
  expiry_step t (view st) (view st') -> represents c st'.
Proof.
  intros (Hwf & Hm & Hh) Hc Ht Hs. split_and!.
  - by eapply expiry_step_wf.
  - destruct Hc as (_ & _ & Hn & Hr). by apply (clock_after_mono (st_clock st)).
  - eapply holds_later, holds_expiry; [|..|done]; [|apply Ht|done]. lia.
Qed.

Lemma represents_mono c (st st' : Store DB WO) :
  represents c st -> same_config st st' ->
  clock_mono (st_clock st') /\ timestamp (st_clock st) <= timestamp (st_clock st').
Proof.
  intros (_ & Hm & _) Hc. split; [|by apply timestamp_mono].
  destruct Hc as (_ & _ & Hn & Hr). by apply (clock_after_mono (st_clock st)).
Qed.

(** The errors of the writes are errors of the database. *)
Lemma set_error (st st' : Store DB WO) k v r :
  RocksStorage.set st k v = (st', r) -> forall e, r = Err e -> exists e0, e = RocksDb e0.
Proof.
  unfold RocksStorage.set. destruct (db_put_opt _ _ _ _) as [d [[]|e0]]; intros [= <- <-] e [= <-].
  by exists e0.
Qed.

Lemma delete_error (st st' : Store DB WO) k r :
  RocksStorage.delete st k = (st', r) -> forall e, r = Err e -> exists e0, e = RocksDb e0.
Proof.
  unfold RocksStorage.delete. destruct (db_get _ _) as [d [o|e0]];
    [destruct (db_delete_opt _ _ _) as [d' [[]|e0]]|]; intros [= <- <-] e [= <-]; by exists e0.
Qed.

(** What a handler does for [cmd], from the server state [s]. *)
Definition implements (s : server) (cmd : Command) (w : ResponseWriter.t B) (c : cache)
    (out : outcome (server * ResponseWriter.t B)) : Prop :=
  exists s' w' c' rs, out = Ret (s', w') /\
    cache_step (db_fails (Server.storage s) cmd) (timestamp (st_clock (Server.storage s)))
      (timestamp (st_clock (Server.storage s'))) c cmd c' rs /\
    text w' = text w ++ print_replies rs /\
    represents c' (Server.storage s') /\ same_server s s'.

(** Close an [implements] goal whose outcome is a single reply [r]. *)
Ltac answer c' r :=
  do 2 eexists; exists c', [r]; split; [done|];
  split; [|split; [by apply (text_reply _ r)|]].

Lemma handle_get_single_implements s k w c :
  wf_key k -> represents c (Server.storage s) ->
  implements s (Get [k]) w c (execute s (Get [k]) w).
Proof.
  intros Hk Hrep. pose proof Hrep as (Hwf & Hm & Hh). unfold implements. cbn [execute handle_get].
  destruct (get_spec (Server.storage s) k Hwf) as (st' & r & Hg & Hc & Hs & Hok & Herr & _).
  cbn [Server.storage Server.inc Server.set_metrics]. rewrite Hg. cbn [mbind outcome_bind].
  pose proof (represents_mono c _ _ Hrep Hc) as [_ Ht].
  assert (Hrep' : represents c st') by (eapply represents_expiry; [done..| |done]; lia).
  destruct (decide (reads_ok (Server.storage s) k)) as [Hr|Hr].
  - rewrite (Hok Hr). set (o := live _ _ k).
    assert (Hans : Forall2 (answer c (timestamp (st_clock (Server.storage s)))
      (timestamp (st_clock st'))) [k] [(k, o)]).
    { constructor; [|constructor]. split; [done|]. eexists. split; [|by apply holds_live]. lia. }
    destruct o as [v|] eqn:Ho.
    + apply wf_db_live in Ho; [|done].
      do 2 eexists. exists c, [RValue k (sv_flags v) (sv_data v); REnd]. split; [done|].
      split; [by apply (step_get _ _ _ _ [k] [(k, Some v)]); [by intros ? [[] _]|]|].
      split; [|done].
      apply (text_write_replies w [RValue k (sv_flags v) (sv_data v); REnd]).
      repeat constructor; by apply value_fits.
    + answer c REnd; [|done].
      by apply (step_get _ _ _ _ [k] [(k, None)]); [by intros ? [[] _]|].
  - destruct (Herr Hr) as [e ->]. answer c (RServerError (StorageError_display (RocksDb e))); [|done].
    apply step_get_error. split; [done|by eexists].
Qed.

Lemma handle_get_multi_implements s ks w c :
  length ks <> 1%nat -> represents c (Server.storage s) ->
  implements s (Get ks) w c (execute s (Get ks) w).
Proof.
  intros Hks Hrep. pose proof Hrep as (Hwf & Hm & Hh). unfold implements. cbn [execute].
  destruct (get_multi_spec (Server.storage s) ks Hwf Hm) as (st' & r & Hg & Hc & Hs & Hok & Herr & _).
  assert (Heq : forall (s1 : server) (w1 : ResponseWriter.t B), Server.storage s1 = Server.storage s -> handle_get s1 ks w1 =
    let s1 := Server.set_storage s1 st' in
    match r with
    | Ok results => let '(s2, w2) := write_results s1 results w1 in Ret (s2, ResponseWriter.end_ w2)
    | Err e => Ret (Server.inc s1 Metrics.Storage_errors,
                    ResponseWriter.server_error w1 (StorageError_display e))
    end).
  { intros s1 w1 E1. unfold handle_get. rewrite E1, Hg. by destruct ks as [|k [|k' ks]]. }
  rewrite Heq by done. cbn zeta.
  assert (Hf : db_error (Server.storage s) (Get ks) <-> ~ multi_reads_ok (Server.storage s) ks)
    by by destruct ks as [|k [|k' ks]].
  pose proof (represents_mono c _ _ Hrep Hc) as [_ Ht].
  assert (Hrep' : represents c st') by (eapply represents_expiry; [done..| |done]; lia).
  destruct (decide (multi_reads_ok (Server.storage s) ks)) as [Hr|Hr].
  - destruct (Hok Hr) as (res & -> & Hres).
    destruct (write_results _ _ _) as [s2 w2] eqn:Ew.
    assert (Hvs : Forall (fun kv => forall v, snd kv = Some v -> wf_value v) res).
    { apply Forall_forall. intros kv Hkv v Hv. apply list_elem_of_lookup in Hkv as [i Hi].
      eapply Forall2_lookup_r in Hres as (k & _ & _ & t & _ & Hl); [|done].
      rewrite Hv in Hl. by eapply wf_db_live. }
    apply write_results_spec in Ew as (Est & Hsame & Htext); [|done].
    do 2 eexists. exists c, (value_replies res ++ [REnd]). split; [done|].
    destruct Hsame as (Hs1 & Hs2 & Hs3 & Hs4 & _). unfold same_server. rewrite Est.
    cbn [Server.storage Server.set_storage]. split; [|split; [|split; [done|by repeat split; try apply Hc]]].
    + apply step_get; [by intros ? [Hd%Hf _]|].
      eapply Forall2_impl; [done|]. intros. by eapply found_answer.
    + change (ResponseWriter.end_ w2) with (write_reply w2 REnd).
      rewrite text_write_reply, Htext by done.
      by rewrite print_replies_app, <- app_assoc.
  - destruct (Herr Hr) as [e ->]. answer c (RServerError (StorageError_display (RocksDb e))); [|done].
    apply step_get_error. split; [by apply Hf|by eexists].
Qed.

Lemma handle_set_implements s k flags exptime data noreply w c :
  wf_command (Set_ k flags exptime data noreply) -> represents c (Server.storage s) ->
  implements s (Set_ k flags exptime data noreply) w c
    (execute s (Set_ k flags exptime data noreply) w).
Proof.
  intros (Hk & Hf & He & Hd) Hrep. pose proof Hrep as (Hwf & Hm & Hh).
  unfold implements. cbn [execute handle_set]. unfold handle_set, db_fails, db_error.
  cbn [Server.storage Server.inc Server.set_metrics].
  set (st := Server.storage s) in *.
  pose proof (stored_value_new_spec (st_clock st) flags exptime data) as (Hv & Hn & Hr).
  destruct (stored_value_new _ _ _ _) as [v cl]. cbn [fst snd] in Hv, Hn, Hr. subst v.
  set (v := with_expire_at _ _ _).
  assert (Hwv : wf_value v) by (apply wf_with_expire_at; try done; apply timestamp_nonneg).
  destruct (RocksStorage.set _ _ _) as [st' r] eqn:Eset.
  pose proof (set_error _ _ _ _ _ Eset) as Herr. apply set_spec in Eset as (Hc & Hcl & Hview).
  change (view (set_clock st cl)) with (view st) in Hview.
  assert (Hc' : same_config st st').
  { eapply same_config_trans; [|done]. split_and!; cbn; [done..|lia]. }
  destruct (represents_mono c _ _ Hrep Hc') as [Hm' Ht].
  assert (Hset : view st' = <[k := encode v]> (view st) ->
    represents (<[k := v]> c) st').
  { intros E'. unfold represents. rewrite E'. split_and!; [by apply wf_db_insert|done|].
    by eapply holds_later, holds_insert. }
  destruct r as [[]|e]; cbn [snd].
  - destruct Hview as [Hview|[_ [e He']]]; [|done].
    answer (<[k := v]> c) RStored; [|split; [by apply Hset|done]].
    apply step_set. by intros ? [[e' ?] _].
  - destruct (Herr e eq_refl) as [e0 He0]. set (msg := StorageError_display e).
    assert (Htext : exists e, msg = StorageError_display (RocksDb e)) by (exists e0; unfold msg; by rewrite He0).
    destruct Hview as [Hview|[Hview _]]; [answer (<[k := v]> c) (RServerError msg)
      |answer c (RServerError msg)].
    + apply step_set_error; [split; [by eexists|done]|by right].
    + split; [by apply Hset|done].
    + apply step_set_error; [split; [by eexists|done]|by left].
    + split; [|done]. unfold represents. cbn. rewrite Hview. split_and!; [done..|].
      by eapply holds_later.
Qed.

Lemma handle_delete_implements s k noreply w c :
  represents c (Server.storage s) ->
  implements s (Delete k noreply) w c (execute s (Delete k noreply) w).
Proof.
  intros Hrep. pose proof Hrep as (Hwf & Hm & Hh).
  unfold implements. cbn [execute]. unfold handle_delete, db_fails, db_error.
  cbn [Server.storage Server.inc Server.set_metrics].
  set (st := Server.storage s) in *.
  destruct (RocksStorage.delete st k) as [st' r] eqn:Edel.
  pose proof (delete_error _ _ _ _ Edel) as Herr.
  apply delete_spec in Edel as (Hc & Hcl & Hview & Hb).
  destruct (represents_mono c _ _ Hrep Hc) as [Hm' Ht].
  assert (Hdel : view st' = base.delete k (view st) -> represents (base.delete k c) st').
  { intros E'. unfold represents. rewrite E'. split_and!; [by apply wf_db_delete|done|].
    by eapply holds_later, holds_delete. }
  destruct r as [b|e]; cbn [snd].
  - destruct Hview as [Hview|[_ [e He']]]; [|done]. specialize (Hb b eq_refl).
    destruct b; [answer (base.delete k c) RDeleted|answer (base.delete k c) RNotFound];
      try (split; [by apply Hdel|done]); symmetry in Hb.
    + apply bool_decide_eq_true in Hb. destruct Hh as [_ Hdom].
      destruct (Hdom k Hb) as [v Hv]. eapply step_deleted; [by intros ? [[e ?] _]|done].
    + apply bool_decide_eq_false in Hb. apply step_not_found; [by intros ? [[e ?] _]|].
      eapply holds_missing; [done|]. by apply eq_None_not_Some.
  - destruct (Herr e eq_refl) as [e0 He0]. set (msg := StorageError_display e).
    assert (Htext : exists e, msg = StorageError_display (RocksDb e)) by (exists e0; unfold msg; by rewrite He0).
    destruct Hview as [Hview|[Hview _]]; [answer (base.delete k c) (RServerError msg)
      |answer c (RServerError msg)].
    + apply step_delete_error; [split; [by eexists|done]|by right].
    + split; [by apply Hdel|done].
    + apply step_delete_error; [split; [by eexists|done]|by left].
    + split; [|done]. unfold represents. cbn. rewrite Hview. split_and!; [done..|].
      by eapply holds_later.
Qed.

Lemma execute_implements s cmd w c :
  wf_command cmd -> represents c (Server.storage s) ->
  implements s cmd w c (execute s cmd w).
Proof.
  intros Hcmd Hrep. destruct cmd as [ks|k f e d n|k n| |].
  - destruct Hcmd as [_ Hks]. destruct (decide (length ks = 1%nat)) as [Hl|Hl].
    + destruct ks as [|k [|]]; try done. apply handle_get_single_implements; [|done].
      by inversion Hks.
    + by apply handle_get_multi_implements.
  - by apply handle_set_implements.
  - by apply handle_delete_implements.
  - answer c (RVersion version_text); [apply step_version|done].
  - do 2 eexists. exists c, []. split; [done|]. split; [apply step_quit|].
    split; [by rewrite app_nil_r|done].
Qed.

End facts.

(** ** The properties *)

(** C5 Refinement: from any state that represents an abstract cache, every
    well-formed command runs to its end without panicking, and is one atomic
    step of that cache: get answers every key, in order, with its live item;
    set and delete update exactly their key; an error reply is given exactly
    when the database fails, with the text of a database error, and the write
    has then either happened or not.  The replies of the step are appended to
    the response, the new state represents the new cache, time has not run
    backwards, and configuration, connections and the connection gauge are
    not touched.
    The system clock is assumed never to go back. *)
Theorem execute_refines `{RS : RocksDBSpec DB WO E} `{BMS : BytesMutSpec B} `{ITS : ItoaSpec}
    {PR : Prometheus} {S : Type} (s : Server.t DB WO S) cmd (w : ResponseWriter.t B) c :
  wf_command cmd -> represents c (Server.storage s) ->
  exists s' w' c' rs, execute s cmd w = Ret (s', w') /\
    cache_step (db_fails (Server.storage s) cmd) (timestamp (st_clock (Server.storage s)))
      (timestamp (st_clock (Server.storage s'))) c cmd c' rs /\
    ResponseWriter.buffer w' = ResponseWriter.buffer w ++ print_replies rs /\
    represents c' (Server.storage s') /\ same_server s s'.
Proof. apply execute_implements. Qed.

(** ** Witness *)

Lemma represents_empty t permits :
  0 <= t -> represents ∅ (Server.storage (ex_server ∅ t permits)).
Proof.
  intros Ht. split_and!.
  - intros k s Hk. cbn in Hk. by rewrite lookup_empty in Hk.
  - eapply clock_frozen_mono. by apply fixed_clock_frozen.
  - apply wf_empty_cache.
Qed.

Lemma execute_refines_witness :
  exists s' w', execute (ex_server ∅ 5 1) (Set_ (str "k") 1 0 (str "v") false)
    (ResponseWriter.new (B := bytes) 0) = Ret (s', w') /\
    ResponseWriter.buffer w' = str "STORED" ++ CRLF.
Proof.
  destruct (execute_refines (ex_server ∅ 5 1) (Set_ (str "k") 1 0 (str "v") false)
    (ResponseWriter.new (B := bytes) 0) ∅) as (s' & w' & c' & rs & He & Hs & Ht & _).
  - by_compute.
  - by apply represents_empty.
  - exists s', w'. split; [done|]. rewrite Ht. inversion Hs; subst; [done|].
    exfalso. match goal with H : db_fails _ _ _ |- _ => by destruct H as [[? [=]] _] end.
Defined.
