(* ===== verification/Interleave.v ===== *)
(** * Commands, one database call at a time
    (src/server/handler.rs, src/storage/rocks.rs)

    Connections run in parallel: between two calls of one command to the
    database or the clock, any other command may make its own.  Here each
    storage operation and each handler is the sequence of its calls to the
    database, the clock and the counters, and a pool of commands steps
    through them in any order. *)

From S2P Require Import Prelude RustStd Extern Errors Command Value Storage Response Metrics Config.
From S2P Require Import ServerState Handler Spec.
#[local] Open Scope petra_scope.

(** An update of the metrics, in which each counter is atomic. *)
Inductive meter :=
| MInc (f : Metrics.field)
| MIncBy (f : Metrics.field) (n : Z)
| MDecActive.

Section interleave.
Context `{R : RocksDB DB WO E}.

Abbreviation store := (Store DB WO).
Abbreviation error := (StorageError E).

(** What is left of a computation: its next call, and how it goes on with
    the answer. *)
Inductive prog (A : Type) : Type :=
| Finish (a : A)
| Crash
| DbGet (key : bytes) (next : result (option bytes) E -> prog A)
| DbMultiGet (keys : list bytes) (next : list (result (option bytes) E) -> prog A)
| DbPut (key value : bytes) (next : result unit E -> prog A)
| DbDelete (key : bytes) (next : result unit E -> prog A)
| Now (next : Z -> prog A)
| AddExpired (n : Z) (next : prog A)
| Count (u : meter) (next : prog A).
#[global] Arguments Finish {A} a.
#[global] Arguments Crash {A}.
#[global] Arguments DbGet {A} key next.
#[global] Arguments DbMultiGet {A} keys next.
#[global] Arguments DbPut {A} key value next.
#[global] Arguments DbDelete {A} key next.
#[global] Arguments Now {A} next.
#[global] Arguments AddExpired {A} n next.
#[global] Arguments Count {A} u next.

Fixpoint prog_bind {A B} (f : A -> prog B) (p : prog A) : prog B :=
  match p with
  | Finish a => f a
  | Crash => Crash
  | DbGet key next => DbGet key (fun r => prog_bind f (next r))
  | DbMultiGet keys next => DbMultiGet keys (fun rs => prog_bind f (next rs))
  | DbPut key value next => DbPut key value (fun r => prog_bind f (next r))
  | DbDelete key next => DbDelete key (fun r => prog_bind f (next r))
  | Now next => Now (fun now => prog_bind f (next now))
  | AddExpired n next => AddExpired n (prog_bind f next)
  | Count u next => Count u (prog_bind f next)
  end.

#[export] Instance prog_mret : MRet prog := @Finish.
#[export] Instance prog_mbind : MBind prog := @prog_bind.

(** ** The storage operations *)

(** [decode] and [is_expired] of a raw value. *)
Definition decode_prog (raw : bytes) : prog (result StoredValue error) :=
  match decode raw with
  | Panic => Crash
  | Ret r => Finish r
  end.

Definition is_expired_prog (v : StoredValue) : prog bool :=
  if sv_expire_at v =? 0 then Finish false
  else Now (fun now => Finish (sv_expire_at v <=? now)).

Definition get_prog (key : bytes) : prog (result (option StoredValue) error) :=
  DbGet key (fun r =>
    match r with
    | Err e => mret (Err (RocksDb e))
    | Ok None => mret (Ok None)
    | Ok (Some raw) =>
        dec ← decode_prog raw;
        match dec with
        | Err e => mret (Err e)
        | Ok value =>
            expired ← is_expired_prog value;
            if expired : bool
            then AddExpired 1 (DbDelete key (fun _ => mret (Ok None)))
            else mret (Ok (Some value))
        end
    end).

Fixpoint delete_all_prog {A} (keys : list bytes) (next : prog A) : prog A :=
  match keys with
  | [] => next
  | key :: keys => DbDelete key (fun _ => delete_all_prog keys next)
  end.

Fixpoint get_multi_loop_prog (l : list (bytes * result (option bytes) E))
    (results : list (bytes * option StoredValue)) (expired_keys : list bytes) :
    prog (result (list (bytes * option StoredValue) * list bytes) error) :=
  match l with
  | [] => mret (Ok (results, expired_keys))
  | (key, raw) :: l =>
      match raw with
      | Err e => mret (Err (RocksDb e))
      | Ok None => get_multi_loop_prog l (results ++ [(key, None)]) expired_keys
      | Ok (Some raw) =>
          dec ← decode_prog raw;
          match dec with
          | Err e => mret (Err e)
          | Ok value =>
              expired ← is_expired_prog value;
              if expired : bool
              then get_multi_loop_prog l (results ++ [(key, None)]) (expired_keys ++ [key])
              else get_multi_loop_prog l (results ++ [(key, Some value)]) expired_keys
          end
      end
  end.

Definition get_multi_prog (keys : list bytes) :
    prog (result (list (bytes * option StoredValue)) error) :=
  DbMultiGet keys (fun raw_results =>
    r ← get_multi_loop_prog (zip keys raw_results) [] [];
    match r with
    | Err e => mret (Err e)
    | Ok (results, expired_keys) =>
        if bool_decide (expired_keys <> []) then
          AddExpired (len expired_keys) (delete_all_prog expired_keys (mret (Ok results)))
        else mret (Ok results)
    end).

Definition set_prog (key : bytes) (value : StoredValue) : prog (result unit error) :=
  DbPut key (encode value) (fun r =>
    mret (match r with Ok _ => Ok tt | Err e => Err (RocksDb e) end)).

Definition delete_prog (key : bytes) : prog (result bool error) :=
  DbGet key (fun r =>
    match r with
    | Err e => mret (Err (RocksDb e))
    | Ok v =>
        let existed := bool_decide (is_Some v) in
        DbDelete key (fun r =>
          mret (match r with Ok _ => Ok existed | Err e => Err (RocksDb e) end))
    end).

(** ** The handlers *)

(** [StoredValue::new]. *)
Definition new_value_prog (flags exptime : Z) (data : bytes) : prog StoredValue :=
  let value expire_at := {| sv_expire_at := expire_at; sv_flags := flags; sv_data := data |} in
  if exptime =? 0 then mret (value 0)
  else if exptime <=? MAX_RELATIVE_TTL then
    Now (fun now => mret (value (u64_saturating_add now exptime)))
  else mret (value exptime).

(** The reply to a storage error, and its count. *)
Definition error_replies (e : error) : list reply := [RServerError (StorageError_display e)].

Definition error_prog (e : error) : prog (list reply) :=
  Count (MInc Metrics.Storage_errors) (mret (error_replies e)).

(** The counts of the loop over the results of [get_multi]. *)
Fixpoint count_results {A} (results : list (bytes * option StoredValue)) (next : prog A) :
    prog A :=
  match results with
  | [] => next
  | (_, Some _) :: results => Count (MInc Metrics.Get_hits) (count_results results next)
  | (_, None) :: results => Count (MInc Metrics.Get_misses) (count_results results next)
  end.

(** What the handlers do with the results of the storage. *)
Definition on_get (key : bytes) (r : result (option StoredValue) error) : prog (list reply) :=
  match r with
  | Ok (Some value) =>
      Count (MInc Metrics.Get_hits) (mret [RValue key (sv_flags value) (sv_data value); REnd])
  | Ok None => Count (MInc Metrics.Get_misses) (mret [REnd])
  | Err e => error_prog e
  end.

Definition on_get_multi (r : result (list (bytes * option StoredValue)) error) :
    prog (list reply) :=
  match r with
  | Ok results => count_results results (mret (value_replies results ++ [REnd]))
  | Err e => error_prog e
  end.

Definition on_set (r : result unit error) : prog (list reply) :=
  match r with Ok _ => mret [RStored] | Err e => error_prog e end.

Definition on_delete (r : result bool error) : prog (list reply) :=
  match r with
  | Ok true => mret [RDeleted]
  | Ok false => mret [RNotFound]
  | Err e => error_prog e
  end.

(** [execute], with the replies it writes as its result. *)
Definition command_prog (cmd : Command) : prog (list reply) :=
  match cmd with
  | Get keys =>
      Count (MInc Metrics.Cmd_get)
        (match keys with
         | [key] => r ← get_prog key; on_get key r
         | _ => r ← get_multi_prog keys; on_get_multi r
         end)
  | Set_ key flags exptime data _ =>
      Count (MInc Metrics.Cmd_set) (
        value ← new_value_prog flags exptime data;
        r ← set_prog key value;
        on_set r)
  | Delete key _ => Count (MInc Metrics.Cmd_delete) (r ← delete_prog key; on_delete r)
  | Version => mret [RVersion version_text]
  | Quit => mret []
  end.

(** ** Steps *)

(** The next call of a computation, on the shared storage; a count leaves it
    alone. *)
Definition prog_step {A} (s : store) (p : prog A) : option (store * prog A) :=
  match p with
  | Finish _ | Crash => None
  | DbGet key next =>
      let '(d, r) := db_get (st_db s) key in Some (set_db s d, next r)
  | DbMultiGet keys next =>
      let '(d, rs) := db_multi_get (st_db s) keys in Some (set_db s d, next rs)
  | DbPut key value next =>
      let '(d, r) := db_put_opt (st_db s) key value (st_write_opts s) in
      Some (set_db s d, next r)
  | DbDelete key next =>
      let '(d, r) := db_delete_opt (st_db s) key (st_write_opts s) in
      Some (set_db s d, next r)
  | Now next =>
      let '(now, c) := current_timestamp (st_clock s) in Some (set_clock s c, next now)
  | AddExpired n next => Some (add_expired s n, next)
  | Count _ next => Some (s, next)
  end.

(** A computation that nobody interrupts. *)
Fixpoint run_alone {A} (p : prog A) (s : store) : outcome (store * A) :=
  match p with
  | Finish a => mret (s, a)
  | Crash => Panic
  | DbGet key next =>
      let '(d, r) := db_get (st_db s) key in run_alone (next r) (set_db s d)
  | DbMultiGet keys next =>
      let '(d, rs) := db_multi_get (st_db s) keys in run_alone (next rs) (set_db s d)
  | DbPut key value next =>
      let '(d, r) := db_put_opt (st_db s) key value (st_write_opts s) in
      run_alone (next r) (set_db s d)
  | DbDelete key next =>
      let '(d, r) := db_delete_opt (st_db s) key (st_write_opts s) in
      run_alone (next r) (set_db s d)
  | Now next =>
      let '(now, c) := current_timestamp (st_clock s) in run_alone (next now) (set_clock s c)
  | AddExpired n next => run_alone next (add_expired s n)
  | Count _ next => run_alone next s
  end.

(** ** On the server

    The same with the metrics of the server. *)
Section server.
Context {PR : Prometheus} {S : Type}.

Abbreviation server := (Server.t DB WO S).

Definition apply_meter (s : server) (u : meter) : server :=
  match u with
  | MInc f => Server.inc s f
  | MIncBy f n => Server.inc_by s f n
  | MDecActive => Server.set_metrics s (Metrics.dec_active (Server.metrics s))
  end.

Definition server_step {A} (s : server) (p : prog A) : option (server * prog A) :=
  match p with
  | Count u next => Some (apply_meter s u, next)
  | _ => '(st, p) ← prog_step (Server.storage s) p; Some (Server.set_storage s st, p)
  end.

Fixpoint run_server {A} (p : prog A) (s : server) : outcome (server * A) :=
  match p with
  | Finish a => mret (s, a)
  | Crash => Panic
  | DbGet key next =>
      let '(d, r) := db_get (st_db (Server.storage s)) key in
      run_server (next r) (Server.set_storage s (set_db (Server.storage s) d))
  | DbMultiGet keys next =>
      let '(d, rs) := db_multi_get (st_db (Server.storage s)) keys in
      run_server (next rs) (Server.set_storage s (set_db (Server.storage s) d))
  | DbPut key value next =>
      let st := Server.storage s in
      let '(d, r) := db_put_opt (st_db st) key value (st_write_opts st) in
      run_server (next r) (Server.set_storage s (set_db st d))
  | DbDelete key next =>
      let st := Server.storage s in
      let '(d, r) := db_delete_opt (st_db st) key (st_write_opts st) in
      run_server (next r) (Server.set_storage s (set_db st d))
  | Now next =>
      let '(now, c) := current_timestamp (st_clock (Server.storage s)) in
      run_server (next now) (Server.set_storage s (set_clock (Server.storage s) c))
  | AddExpired n next =>
      run_server next (Server.set_storage s (add_expired (Server.storage s) n))
  | Count u next => run_server next (apply_meter s u)
  end.

End server.

(** ** Pools

    A pool is a storage and the commands in progress, each with what is left
    of it.  A step is the next call of one of them. *)
Abbreviation pool := (store * list (Command * prog (list reply)))%type.

Definition spawn (s : store) (cmds : list Command) : pool :=
  (s, map (fun cmd => (cmd, command_prog cmd)) cmds).

Inductive pool_step : pool -> pool -> Prop :=
| pool_step_thread s s' ts i cmd p p' :
    ts !! i = Some (cmd, p) -> prog_step s p = Some (s', p') ->
    pool_step (s, ts) (s', <[i := (cmd, p')]> ts).

Inductive pool_reaches (w : pool) : pool -> Prop :=
| pool_refl : pool_reaches w w
| pool_next w1 w2 : pool_reaches w w1 -> pool_step w1 w2 -> pool_reaches w w2.

(** The pool after the commands numbered by a schedule have stepped in turn;
    [None] when one of them cannot. *)
Fixpoint schedule (l : list nat) (w : pool) : option pool :=
  match l with
  | [] => Some w
  | i :: l =>
      '(cmd, p) ← snd w !! i;
      '(s, p) ← prog_step (fst w) p;
      schedule l (s, <[i := (cmd, p)]> (snd w))
  end.

End interleave.
Arguments prog E A : clear implicits.
