(* ===== verification/InterleaveFacts.v ===== *)
(** * Facts about interleaved commands

    A command that runs alone is the handler of [Handler.v]; what every
    interleaving of commands keeps true of the database and of what is left
    of them; and how many calls a command makes. *)

From S2P Require Import Prelude RustStd Extern Reference Errors Command ParserProps Value Storage.
From S2P Require Import StorageFacts StorageProps Response Metrics Config ServerState Examples.
From S2P Require Import Handler Spec HandlerProps Interleave.
#[local] Open Scope petra_scope.

(** ** Alone *)

Section alone.
Context `{R : RocksDB DB WO E}.

Abbreviation store := (Store DB WO).

Lemma set_clock_same (s : store) : set_clock s (st_clock s) = s.
Proof. by destruct s. Qed.

Lemma run_alone_bind {A B} (f : A -> prog E B) p (s : store) :
  run_alone (p ≫= f) s = ('(s, a) ← run_alone p s; run_alone (f a) s).
Proof.
  unfold mbind at 1, prog_mbind. revert s.
  induction p as [a| |k next IH|ks next IH|k v next IH|k next IH|next IH|n p IH|u p IH]; intros s;
    cbn [prog_bind run_alone]; [done..| | | | | | |];
    first [apply IH | case_match; apply IH].
Qed.

Lemma run_decode raw (s : store) :
  run_alone (decode_prog raw) s = (r ← decode raw; mret (s, r)).
Proof. unfold decode_prog. by destruct (decode raw). Qed.

Lemma run_is_expired v (s : store) :
  run_alone (is_expired_prog v) s =
  let '(b, c) := is_expired (st_clock s) v in mret (set_clock s c, b).
Proof.
  unfold is_expired_prog, is_expired. destruct (sv_expire_at v =? 0).
  - cbn. by rewrite set_clock_same.
  - cbn [run_alone]. by destruct (current_timestamp (st_clock s)).
Qed.

Lemma run_delete_all {A} keys (next : prog E A) (s : store) :
  run_alone (delete_all_prog keys next) s =
  run_alone next (set_db s (RocksStorage.delete_all (st_db s) keys (st_write_opts s))).
Proof.
  revert s. induction keys as [|k keys IH]; intros s; cbn [delete_all_prog run_alone].
  - unfold RocksStorage.delete_all. cbn. by destruct s.
  - destruct (db_delete_opt (st_db s) k (st_write_opts s)) as [d r] eqn:Ed.
    rewrite IH. unfold RocksStorage.delete_all. cbn [fold_left set_db st_db st_write_opts].
    by rewrite Ed.
Qed.

Lemma run_get k (s : store) : run_alone (get_prog k) s = RocksStorage.get s k.
Proof.
  unfold get_prog, RocksStorage.get. cbn [run_alone].
  destruct (db_get (st_db s) k) as [d [[raw|]|e]]; [|done..].
  rewrite run_alone_bind, run_decode.
  destruct (decode raw) as [[v|e]|]; cbn [mbind outcome_bind mret outcome_ret]; [|done..].
  rewrite run_alone_bind, run_is_expired. destruct (is_expired _ v) as [[] c];
    cbn [mbind outcome_bind mret outcome_ret run_alone]; [|done].
  cbn [add_expired set_clock set_db st_db st_write_opts].
  by destruct (db_delete_opt d k (st_write_opts s)).
Qed.

Lemma run_get_multi_loop l results expired (s : store) :
  run_alone (get_multi_loop_prog l results expired) s =
  ('(c, r) ← RocksStorage.get_multi_loop (st_clock s) l results expired; mret (set_clock s c, r)).
Proof.
  revert results expired s. induction l as [|[k [[raw|]|e]] l IH]; intros results expired s;
    cbn [get_multi_loop_prog RocksStorage.get_multi_loop].
  - cbn. by rewrite set_clock_same.
  - rewrite run_alone_bind, run_decode.
    destruct (decode raw) as [[v|e]|]; cbn [mbind outcome_bind mret outcome_ret run_alone];
      [|by rewrite set_clock_same|done].
    rewrite run_alone_bind, run_is_expired. destruct (is_expired (st_clock s) v) as [[] c];
      cbn [mbind outcome_bind mret outcome_ret]; by rewrite IH.
  - apply IH.
  - cbn. by rewrite set_clock_same.
Qed.

Lemma run_get_multi ks (s : store) : run_alone (get_multi_prog ks) s = RocksStorage.get_multi s ks.
Proof.
  unfold get_multi_prog, RocksStorage.get_multi. cbn [run_alone].
  destruct (db_multi_get (st_db s) ks) as [d rs].
  rewrite run_alone_bind, run_get_multi_loop. cbn [set_db st_clock].
  destruct (RocksStorage.get_multi_loop _ _ _ _) as [[c [[res exp]|e]]|];
    cbn [mbind outcome_bind mret outcome_ret]; [|done..].
  destruct (bool_decide _); [|done]. cbn [run_alone]. by rewrite run_delete_all.
Qed.

Lemma run_set k v (s : store) : run_alone (set_prog k v) s = Ret (RocksStorage.set s k v).
Proof.
  unfold set_prog, RocksStorage.set. cbn [run_alone].
  by destruct (db_put_opt _ _ _ _) as [d [[]|e]].
Qed.

Lemma run_delete k (s : store) : run_alone (delete_prog k) s = Ret (RocksStorage.delete s k).
Proof.
  unfold delete_prog, RocksStorage.delete. cbn [run_alone].
  destruct (db_get (st_db s) k) as [d [v|e]]; [|done]. cbn [run_alone set_db st_db st_write_opts].
  by destruct (db_delete_opt _ _ _) as [d' [[]|e]].
Qed.

Lemma run_new_value flags exptime data (s : store) :
  run_alone (new_value_prog flags exptime data) s =
  let '(v, c) := stored_value_new (st_clock s) flags exptime data in mret (set_clock s c, v).
Proof.
  unfold new_value_prog, stored_value_new, calculate_expire_at.
  destruct (exptime =? 0); [cbn; by rewrite set_clock_same|].
  destruct (exptime <=? MAX_RELATIVE_TTL); [|cbn; by rewrite set_clock_same].
  cbn [run_alone]. by destruct (current_timestamp (st_clock s)).
Qed.

(** What is left of a computation that counts nothing. *)
Fixpoint uncounted {A} (p : prog E A) : Prop :=
  match p with
  | Finish _ | Crash => True
  | DbGet _ next => forall r, uncounted (next r)
  | DbMultiGet _ next => forall rs, uncounted (next rs)
  | DbPut _ _ next => forall r, uncounted (next r)
  | DbDelete _ next => forall r, uncounted (next r)
  | Now next => forall now, uncounted (next now)
  | AddExpired _ next => uncounted next
  | Count _ _ => False
  end.

Lemma uncounted_bind {A B} p (f : A -> prog E B) :
  uncounted p -> (forall a, uncounted (f a)) -> uncounted (p ≫= f).
Proof.
  unfold mbind, prog_mbind. intros Hp Hf.
  induction p; cbn [uncounted prog_bind] in *; auto.
Qed.

Lemma uncounted_decode raw : uncounted (decode_prog (E := E) raw).
Proof. unfold decode_prog. by destruct (decode raw). Qed.

Lemma uncounted_is_expired v : uncounted (is_expired_prog (E := E) v).
Proof. unfold is_expired_prog. by destruct (sv_expire_at v =? 0). Qed.

Lemma uncounted_delete_all {A} keys (next : prog E A) :
  uncounted next -> uncounted (delete_all_prog keys next).
Proof. intros H. induction keys; [done|]. by intros _. Qed.

Lemma uncounted_get k : uncounted (get_prog (E := E) k).
Proof.
  intros [[raw|]|e]; [|done..]. apply uncounted_bind; [apply uncounted_decode|].
  intros [v|e]; [|done]. apply uncounted_bind; [apply uncounted_is_expired|by intros []].
Qed.

Lemma uncounted_get_multi_loop l results expired :
  uncounted (get_multi_loop_prog (E := E) l results expired).
Proof.
  revert results expired. induction l as [|[k [[raw|]|e]] l IH]; intros results expired;
    cbn [get_multi_loop_prog]; [done| |apply IH|done].
  apply uncounted_bind; [apply uncounted_decode|]. intros [v|e]; [|done].
  apply uncounted_bind; [apply uncounted_is_expired|]. intros []; apply IH.
Qed.

Lemma uncounted_get_multi ks : uncounted (get_multi_prog (E := E) ks).
Proof.
  intros rs. apply uncounted_bind; [apply uncounted_get_multi_loop|].
  intros [[results expired]|e]; [|done]. destruct (bool_decide _); [|done].
  by apply uncounted_delete_all.
Qed.

Lemma uncounted_new_value flags exptime data : uncounted (new_value_prog (E := E) flags exptime data).
Proof. unfold new_value_prog. destruct (_ =? _); [done|]. by destruct (_ <=? _). Qed.

Lemma uncounted_delete k : uncounted (delete_prog (E := E) k).
Proof. by intros []. Qed.

(** A schedule is a run of the pool. *)
Lemma schedule_cons i l (s s1 : store) ts cmd p p1 :
  ts !! i = Some (cmd, p) -> prog_step s p = Some (s1, p1) ->
  schedule (i :: l) (s, ts) = schedule l (s1, <[i := (cmd, p1)]> ts).
Proof. intros Hi Hp. cbn [schedule fst snd]. rewrite Hi. cbn [mbind option_bind]. by rewrite Hp. Qed.

Lemma schedule_reaches l (w w' : store * list (Command * prog E (list reply))) :
  schedule l w = Some w' -> pool_reaches w w'.
Proof.
  assert (Hext : forall w0 w1 w2 : store * list (Command * prog E (list reply)),
    pool_step w0 w1 -> pool_reaches w1 w2 -> pool_reaches w0 w2).
  { intros w0 w1 w2 H1 H2. induction H2; [eapply pool_next; [apply pool_refl|done]|].
    by eapply pool_next. }
  revert w. induction l as [|i l IH]; intros [s ts]; cbn [schedule fst snd].
  { intros [= <-]. apply pool_refl. }
  destruct (ts !! i) as [[cmd p]|] eqn:Ei; [|done]. cbn [mbind option_bind].
  destruct (prog_step s p) as [[s1 p1]|] eqn:Ep; [|done]. cbn [mbind option_bind].
  intros H. eapply Hext; [by eapply pool_step_thread|by apply IH].
Qed.

End alone.

(** *** A command *)

Section command.
Context `{R : RocksDB DB WO E} `{BM : BytesMut B} {IT : Itoa} {PR : Prometheus} {S : Type}.

Abbreviation server := (Server.t DB WO S).

Lemma write_results_replies (s : server) results (w : ResponseWriter.t B) :
  exists s', write_results s results w = (s', fold_left write_reply (value_replies results) w) /\
    Server.storage s' = Server.storage s.
Proof.
  revert s w. induction results as [|[k [v|]] results IH]; intros s w; cbn [write_results].
  - by exists s.
  - destruct (IH (Server.inc s Metrics.Get_hits)
      (ResponseWriter.value w k (sv_flags v) (sv_data v))) as (s' & -> & Hs). by exists s'.
  - destruct (IH (Server.inc s Metrics.Get_misses) w) as (s' & -> & Hs). by exists s'.
Qed.

Lemma set_storage_same (s : server) : Server.set_storage s (Server.storage s) = s.
Proof. by destruct s. Qed.

Lemma run_server_bind {A C} (f : A -> prog E C) p (s : server) :
  run_server (p ≫= f) s = ('(s, a) ← run_server p s; run_server (f a) s).
Proof.
  unfold mbind at 1, prog_mbind. revert s.
  induction p as [a| |k next IH|ks next IH|k v next IH|k next IH|next IH|n p IH|u p IH]; intros s;
    cbn [prog_bind run_server]; [done..| | | | | | |];
    first [apply IH | case_match; apply IH].
Qed.

Lemma run_server_uncounted {A} (p : prog E A) (s : server) :
  uncounted p ->
  run_server p s =
    ('(st, a) ← run_alone p (Server.storage s); mret (Server.set_storage s st, a)).
Proof.
  revert s. induction p as [a| |k next IH|ks next IH|k v next IH|k next IH|next IH|n p IH|u p IH];
    intros s; cbn [uncounted run_server run_alone]; intros Hp; try done;
    try (case_match; rewrite IH by done; done).
  - cbn. by rewrite set_storage_same.
  - by rewrite IH.
Qed.

Lemma run_server_count_results {A} results (next : prog E A) (s : server) (w : ResponseWriter.t B) :
  run_server (count_results results next) s = run_server next (fst (write_results s results w)).
Proof.
  revert s w. induction results as [|[k [v|]] results IH]; intros s w;
    cbn [count_results run_server write_results]; [done|by rewrite <- IH..].
Qed.

(** The handler runs the calls of the command and writes its replies. *)
Lemma run_command (s : server) cmd (w : ResponseWriter.t B) :
  ('(s', rs) ← run_server (command_prog cmd) s; mret (s', fold_left write_reply rs w)) =
  execute s cmd w.
Proof.
  destruct cmd as [ks|k flags exptime data noreply|k noreply| |]; cbn [execute]; [| | |done..].
  - cbn [command_prog run_server apply_meter].
    assert (Hmulti : forall ks, length ks <> 1%nat ->
      ('(s', rs) ← run_server (r ← get_multi_prog ks; on_get_multi r)
          (Server.inc s Metrics.Cmd_get); mret (s', fold_left write_reply rs w)) =
      handle_get (Server.inc s Metrics.Cmd_get) ks w).
    { intros ks0 Hks. rewrite run_server_bind, run_server_uncounted, run_get_multi
        by apply uncounted_get_multi.
      unfold handle_get. destruct ks0 as [|? [|]]; [|done|];
      (destruct (RocksStorage.get_multi _ _) as [[st [results|e]]|];
        cbn [mbind outcome_bind mret outcome_ret on_get_multi]; [|done..];
       rewrite (run_server_count_results _ _ _ w);
       destruct (write_results_replies (Server.set_storage (Server.inc s Metrics.Cmd_get) st)
         results w) as (s' & -> & _); cbn; by rewrite fold_left_app). }
    destruct ks as [|k [|k' ks]]; [by apply Hmulti| |by apply Hmulti].
    rewrite run_server_bind, run_server_uncounted, run_get by apply uncounted_get. unfold handle_get.
    by destruct (RocksStorage.get _ k) as [[st [[v|]|e]]|].
  - cbn [command_prog run_server apply_meter].
    rewrite run_server_bind, run_server_uncounted, run_new_value by apply uncounted_new_value.
    unfold handle_set. destruct (stored_value_new _ _ _ _) as [v c].
    cbn [mbind outcome_bind mret outcome_ret].
    rewrite run_server_bind, run_server_uncounted, run_set by done.
    cbn [mbind outcome_bind mret outcome_ret Server.storage Server.set_storage].
    by destruct (RocksStorage.set _ k v) as [st [[]|e]].
  - cbn [command_prog run_server apply_meter].
    rewrite run_server_bind, run_server_uncounted, run_delete by apply uncounted_delete.
    unfold handle_delete. cbn [mbind outcome_bind mret outcome_ret].
    by destruct (RocksStorage.delete _ k) as [st [[]|e]].
Qed.

End command.

(** ** In a pool *)

Section pools.
Context `{RS : RocksDBSpec DB WO E}.

Abbreviation store := (Store DB WO).
Abbreviation view s := (db_view (st_db s)).
Abbreviation threads := (list (Command * prog E (list reply))).

Section origin.
Context (m0 : gmap bytes bytes) (t0 : Z) (cmds : list Command).

(** Where a value under [k] can come from: it was there at the start, or one
    of the commands stores it, with an expiry time reckoned from a moment
    since the start. *)
Definition origin (k : bytes) (v : StoredValue) : Prop :=
  stored m0 k = Some v \/
  exists flags exptime data noreply now, Set_ k flags exptime data noreply ∈ cmds /\
    t0 <= now /\ v = with_expire_at flags (expiry_rule now exptime) data.

(** Why [k] can be gone at time [t]: a command deletes it, or one of the
    values stored under it has expired. *)
Definition removable (k : bytes) (t : Z) : Prop :=
  (exists noreply, Delete k noreply ∈ cmds) \/ exists v, origin k v /\ expired_at t v = true.

Lemma removable_later k t t' : t <= t' -> removable k t -> removable k t'.
Proof.
  intros Ht [H|(v & Ho & He)]; [by left|right]. exists v. split; [done|].
  by eapply expired_at_mono.
Qed.

(** A raw value of a known origin, and an answer that holds no other. *)
Definition raw_ok (k raw : bytes) : Prop := exists v, decode_spec raw = Some v /\ origin k v.

Definition read_ok (k : bytes) (r : result (option bytes) E) : Prop :=
  forall raw, r = Ok (Some raw) -> raw_ok k raw.

(** The results of a lookup have an origin; the values a command shows are
    the data and flags of such. *)
Definition results_ok (results : list (bytes * option StoredValue)) : Prop :=
  forall k v, (k, Some v) ∈ results -> origin k v.

Definition replies_ok (rs : list reply) : Prop :=
  forall k flags data, RValue k flags data ∈ rs ->
    exists v, origin k v /\ flags = sv_flags v /\ data = sv_data v.

(** What is left of a computation does nothing wrong, whatever the answers
    to its calls from time [t] on: it does not crash, writes only values of
    known origin, removes only what may go, and ends with a
    result in [Q]. *)
Fixpoint safe {A} (Q : Z -> A -> Prop) (t : Z) (p : prog E A) : Prop :=
  match p with
  | Finish a => Q t a
  | Crash => False
  | DbGet k next => forall r, read_ok k r -> safe Q t (next r)
  | DbMultiGet ks next => forall rs, Forall2 read_ok ks rs -> safe Q t (next rs)
  | DbPut k raw next =>
      (exists v, raw = encode v /\ wf_value v /\ origin k v) /\ forall r, safe Q t (next r)
  | DbDelete k next => removable k t /\ forall r, safe Q t (next r)
  | Now next => forall now, t <= now -> safe Q now (next now)
  | AddExpired _ next => safe Q t next
  | Count _ next => safe Q t next
  end.

Lemma safe_later {A} (Q : Z -> A -> Prop) t t' p :
  (forall t t' a, t <= t' -> Q t a -> Q t' a) -> t <= t' -> safe Q t p -> safe Q t' p.
Proof.
  intros HQ Ht. revert t t' Ht.
  induction p as [r| |k next IH|ks next IH|k v next IH|k next IH|next IH|n p IH|u p IH];
    intros t t' Ht; cbn [safe]; eauto.
  - intros [Hv H1]. eauto.
  - intros [Hv H1]. split; [by eapply removable_later|eauto].
  - intros H1 now Hnow. apply H1. lia.
Qed.

Lemma safe_bind {A B} (Q : Z -> A -> Prop) (Q' : Z -> B -> Prop) t p (f : A -> prog E B) :
  safe Q t p -> (forall a t', t <= t' -> Q t' a -> safe Q' t' (f a)) -> safe Q' t (p ≫= f).
Proof.
  unfold mbind, prog_mbind. revert t.
  induction p as [r| |k next IH|ks next IH|k v next IH|k next IH|next IH|n p IH|u p IH];
    intros t; cbn [safe prog_bind]; intros Hp Hf; [|done|eauto|eauto| | | |eauto|eauto].
  - apply Hf; [lia|done].
  - destruct Hp as [Hv Hp]. eauto.
  - destruct Hp as [Hv Hp]. eauto.
  - intros now Hnow. apply IH; [by apply Hp|]. intros a t' Ht. apply Hf. lia.
Qed.

Lemma safe_decode t k raw :
  raw_ok k raw -> safe (fun _ r => exists v, r = Ok v /\ origin k v) t (decode_prog (E := E) raw).
Proof.
  intros (v & Hv & Ho). unfold decode_prog. rewrite decode_eq, Hv. cbn. by exists v.
Qed.

Lemma safe_expired {A} (Q : Z -> A -> Prop) t k v f :
  origin k v -> (forall t', t <= t' -> removable k t' -> safe Q t' (f true)) ->
  (forall t', t <= t' -> safe Q t' (f false)) -> safe Q t (is_expired_prog v ≫= f).
Proof.
  intros Ho Htrue Hfalse. unfold is_expired_prog. destruct (sv_expire_at v =? 0) eqn:E0.
  { apply Hfalse. lia. }
  intros now Hnow. change (safe Q now (f (sv_expire_at v <=? now))).
  destruct (sv_expire_at v <=? now) eqn:E1; [|by apply Hfalse].
  apply Htrue; [done|]. right. exists v. split; [done|]. unfold expired_at. by rewrite E0, E1.
Qed.

Lemma safe_delete_all {A} (Q : Z -> A -> Prop) t keys next :
  Forall (fun k => removable k t) keys -> safe Q t next -> safe Q t (delete_all_prog keys next).
Proof. induction 1; intros; cbn [delete_all_prog safe]; auto. Qed.

(** *** The operations *)

Definition lookup_ok (k : bytes) (r : result (option StoredValue) (StorageError E)) : Prop :=
  forall v, r = Ok (Some v) -> origin k v.

Lemma safe_get t k : safe (fun _ => lookup_ok k) t (get_prog k).
Proof.
  intros [[raw|]|e] Hr; [|done..].
  eapply safe_bind; [by apply safe_decode, Hr|]. intros ? t' _ (v & -> & Hv).
  eapply safe_expired; [done| |].
  - intros t'' _ Hrem. by split.
  - intros t'' _ v' [= <-]. exact Hv.
Qed.

Definition loop_ok t (r : result (list (bytes * option StoredValue) * list bytes) (StorageError E)) :
    Prop :=
  forall results expired, r = Ok (results, expired) ->
    results_ok results /\ Forall (fun k => removable k t) expired.

Lemma results_ok_snoc results k o :
  results_ok results -> (forall v, o = Some v -> origin k v) -> results_ok (results ++ [(k, o)]).
Proof.
  intros Hr Ho k' v [H1|H1]%elem_of_app; [by apply Hr|].
  apply list_elem_of_singleton in H1 as [= -> <-]. by apply Ho.
Qed.

Lemma safe_get_multi_loop t l results expired :
  Forall (fun '(k, r) => read_ok k r) l -> results_ok results ->
  Forall (fun k => removable k t) expired ->
  safe loop_ok t (get_multi_loop_prog l results expired).
Proof.
  assert (Hlater : forall t t' keys, t <= t' ->
    Forall (fun k => removable k t) keys -> Forall (fun k => removable k t') keys).
  { intros t1 t2 keys Hle. rewrite !Forall_forall. intros H1 k Hk.
    eapply removable_later; [exact Hle|by apply H1]. }
  intros Hl. revert t results expired.
  induction Hl as [|[k [[raw|]|e]] l Hk Hl IH]; intros t results expired Hr He;
    cbn [get_multi_loop_prog].
  - by intros ?? [= <- <-].
  - eapply safe_bind; [by apply (safe_decode _ k), Hk|]. intros ? t1 Ht1 (v & -> & Hv).
    eapply safe_expired; [done| |].
    + intros t2 Ht2 Hrem. apply IH; [by apply results_ok_snoc|]. apply Forall_app.
      split; [|by constructor]. eapply Hlater; [|done]. lia.
    + intros t2 Ht2. apply IH.
      * apply results_ok_snoc; [done|]. by intros ? [= <-].
      * eapply Hlater; [|done]. lia.
  - apply IH; [by apply results_ok_snoc|done].
  - done.
Qed.

Lemma safe_get_multi t ks :
  safe (fun _ r => forall results, r = Ok results -> results_ok results) t (get_multi_prog ks).
Proof.
  intros rs Hrs. eapply safe_bind.
  { apply safe_get_multi_loop; [|by intros ?? ?%not_elem_of_nil|done].
    induction Hrs as [|k r ks rs Hk _ IH]; cbn [zip zip_with]; [by apply Forall_nil|].
    apply Forall_cons. split; [exact Hk|exact IH]. }
  intros [[results expired]|e] t' _ H1; [|done].
  destruct (H1 _ _ eq_refl) as [Hres Hexp]. cbn beta iota.
  assert (Hdone : safe (fun _ r => forall results, r = Ok results -> results_ok results) t'
    (mret (Ok results) : prog E (result _ (StorageError E)))) by by intros ? [= <-].
  case_bool_decide; [|done]. by apply safe_delete_all.
Qed.

Lemma safe_new_value t flags exptime data :
  safe (fun _ v => exists now, t <= now /\ v = with_expire_at flags (expiry_rule now exptime) data)
    t (new_value_prog (E := E) flags exptime data).
Proof.
  unfold new_value_prog, expiry_rule. destruct (exptime =? 0); [by exists t|].
  destruct (exptime <=? MAX_RELATIVE_TTL); [|by exists t].
  intros now Hnow. by exists now.
Qed.

(** *** The commands *)

Lemma error_replies_ok e : replies_ok (error_replies e).
Proof. intros ??? [=]%list_elem_of_singleton. Qed.

Lemma value_replies_ok results : results_ok results -> replies_ok (value_replies results ++ [REnd]).
Proof.
  intros Hr k flags data [Hin|[=]%list_elem_of_singleton]%elem_of_app.
  apply list_elem_of_omap in Hin as ([k' [v|]] & Hin & [= <- <- <-]). exists v. eauto.
Qed.

Lemma safe_count_results {A} (Q : Z -> A -> Prop) t results next :
  safe Q t next -> safe Q t (count_results results next).
Proof. induction results as [|[k [v|]] results IH]; intros; cbn; auto. Qed.

(** Every command of the pool starts safe. *)
Lemma safe_command cmd t :
  0 <= t0 <= t -> cmd ∈ cmds -> wf_command cmd ->
  safe (fun _ => replies_ok) t (command_prog (E := E) cmd).
Proof.
  intros Ht Hin Hwf. destruct cmd as [ks|k flags exptime data noreply|k noreply| |];
    cbn [command_prog safe].
  - assert (Hmulti : forall ks, safe (fun _ => replies_ok) t
      (r ← get_multi_prog (E := E) ks; on_get_multi r)).
    { intros ks0. eapply safe_bind; [apply safe_get_multi|]. intros [results|e] t' _ H1.
      - apply safe_count_results. by apply value_replies_ok, H1.
      - apply error_replies_ok. }
    destruct ks as [|k [|]]; [apply Hmulti| |apply Hmulti].
    eapply safe_bind; [apply safe_get|]. intros [[v|]|e] t' _ H1; cbn.
    + intros ??? [[= -> -> ->]|[=]%list_elem_of_singleton]%elem_of_cons. exists v.
      split; [by apply H1|done].
    + intros ??? [=]%list_elem_of_singleton.
    + apply error_replies_ok.
  - destruct Hwf as (_ & Hflags & Hexp & Hdata).
    eapply safe_bind; [apply safe_new_value|]. intros v t' _ (now & Hnow & ->).
    unfold set_prog. split.
    + eexists. split; [done|]. split; [apply wf_with_expire_at; try done; lia|].
      right. exists flags, exptime, data, noreply, now. split; [done|]. split; [lia|done].
    + intros [?|?]; [intros ??? [=]%list_elem_of_singleton|apply error_replies_ok].
  - intros [v|e] _; [|apply error_replies_ok]. split; [left; by exists noreply|].
    intros [?|e]; [|apply error_replies_ok]. cbn.
    case_bool_decide; intros ??? [=]%list_elem_of_singleton.
  - intros ??? [=]%list_elem_of_singleton.
  - by intros ??? ?%not_elem_of_nil.
Qed.

(** *** The invariant *)

(** A set that has been acknowledged. *)
Definition acked (ts : threads) (k : bytes) : Prop :=
  exists flags exptime data noreply,
    (Set_ k flags exptime data noreply, Finish [RStored]) ∈ ts.

(** What is left only counts, and then reports a failure. *)
Fixpoint reports_failure (p : prog E (list reply)) : Prop :=
  match p with
  | Finish rs => rs <> [RStored]
  | Count _ next => reports_failure next
  | _ => False
  end.

(** A set that has not made its write yet: the write is to its key, and only
    a successful one is acknowledged. *)
Fixpoint before_put (k : bytes) (p : prog E (list reply)) : Prop :=
  match p with
  | DbPut k' _ next => k' = k /\
      forall r, match r with
                | Ok _ => next r = Finish [RStored]
                | Err _ => reports_failure (next r)
                end
  | Now next => forall now, before_put k (next now)
  | Count _ next => before_put k next
  | _ => False
  end.

Definition set_shape (cmd : Command) (p : prog E (list reply)) : Prop :=
  match cmd with
  | Set_ k _ _ _ _ => before_put k p \/ reports_failure p \/ p = Finish [RStored]
  | _ => True
  end.

Lemma set_starts k flags exptime data noreply :
  before_put k (command_prog (Set_ k flags exptime data noreply)).
Proof.
  cbn [command_prog before_put].
  assert (Hput : forall v, before_put k (r ← set_prog k v; on_set r)).
  { intros v. split; [done|]. by intros [[]|e]. }
  unfold new_value_prog. destruct (exptime =? 0); [apply Hput|].
  destruct (exptime <=? MAX_RELATIVE_TTL); [|apply Hput]. intros now. apply Hput.
Qed.

Lemma set_shape_start cmd : set_shape cmd (command_prog cmd).
Proof. destruct cmd; try done. left. apply set_starts. Qed.

Record pool_ok (w : store * threads) : Prop := {
  po_content k raw : view (fst w) !! k = Some raw -> raw_ok k raw;
  po_lost k : is_Some (m0 !! k) \/ acked (snd w) k -> view (fst w) !! k = None ->
    removable k (timestamp (st_clock (fst w)));
  po_threads : Forall (fun '(cmd, p) =>
    safe (fun _ => replies_ok) (timestamp (st_clock (fst w))) p /\ set_shape cmd p) (snd w);
  po_clock : clock_mono (st_clock (fst w));
}.

(** How a step changes the content. *)
Lemma prog_step_spec {A} (Q : Z -> A -> Prop) (s s' : store) (p p' : prog E A) :
  (forall t t' a, t <= t' -> Q t a -> Q t' a) ->
  clock_mono (st_clock s) -> (forall k raw, view s !! k = Some raw -> raw_ok k raw) ->
  safe Q (timestamp (st_clock s)) p -> prog_step s p = Some (s', p') ->
  clock_mono (st_clock s') /\ timestamp (st_clock s) <= timestamp (st_clock s') /\
  safe Q (timestamp (st_clock s')) p' /\
  (forall k raw, view s' !! k = Some raw -> raw_ok k raw) /\
  (forall k, view s' !! k = None -> view s !! k = None \/ removable k (timestamp (st_clock s))).
Proof.
  intros HQ Hm Hc Hsafe Hstep. destruct p as [r| |k next|ks next|k v next|k next|next|n p|u p];
    cbn [prog_step safe] in *; [done..| | | | | | |].
  - destruct (db_get _ _) as [d r] eqn:Ed. injection Hstep as <- <-.
    apply db_get_view in Ed as [Hd Hr]. cbn. rewrite Hd. split_and!; [done|lia| |done|auto].
    apply Hsafe. intros raw ->. apply Hc. by rewrite <- (Hr _ eq_refl).
  - destruct (db_multi_get _ _) as [d rs] eqn:Ed. injection Hstep as <- <-.
    apply db_multi_get_view in Ed as [Hd Hr]. cbn. rewrite Hd. split_and!; [done|lia| |done|auto].
    apply Hsafe. eapply Forall2_impl; [exact Hr|]. intros k r H1 raw ->. apply Hc.
    by rewrite <- (H1 _ eq_refl).
  - destruct (db_put_opt _ _ _ _) as [d r] eqn:Ed. injection Hstep as <- <-.
    destruct Hsafe as [(sv & -> & Hwf & Ho) Hnext]. apply db_put_view in Ed. cbn.
    split_and!; [done|lia|done| |].
    + intros k' raw Hk'. destruct Ed as [Ed|[Ed _]]; rewrite Ed in Hk'; [|by apply Hc].
      apply (lookup_insert_Some (M := gmap bytes)) in Hk' as [[<- <-]|[_ Hk']]; [|by apply Hc].
      exists sv. split; [by apply decode_spec_encode|done].
    + intros k' Hk'. left. destruct Ed as [Ed|[Ed _]]; rewrite Ed in Hk'; [|done].
      by apply (lookup_insert_None (M := gmap bytes)) in Hk' as [? _].
  - destruct (db_delete_opt _ _ _) as [d r] eqn:Ed. injection Hstep as <- <-.
    destruct Hsafe as [Hrem Hnext]. apply db_delete_view in Ed. cbn.
    split_and!; [done|lia|done| |].
    + intros k' raw Hk'. destruct Ed as [Ed|[Ed _]]; rewrite Ed in Hk'; [|by apply Hc].
      apply (lookup_delete_Some (M := gmap bytes)) in Hk' as [_ Hk']. by apply Hc.
    + intros k' Hk'. destruct Ed as [Ed|[Ed _]]; rewrite Ed in Hk'; [|by left].
      apply (lookup_delete_None (M := gmap bytes)) in Hk' as [<-|?]; [by right|by left].
  - unfold current_timestamp, system_time_now in Hstep. injection Hstep as <- <-.
    set (c' := {| now_at := _; reads := _ |}).
    assert (Ht : timestamp (st_clock s) <= timestamp c') by (apply Hm; cbn; lia).
    cbn [set_clock st_clock st_db]. split_and!; [exact Hm|exact Ht| |exact Hc|auto].
    eapply safe_later; [exact HQ|exact Ht|]. apply (Hsafe (timestamp (st_clock s))). lia.
  - injection Hstep as <- <-. cbn. split_and!; [done|lia|done|done|auto].
  - injection Hstep as <- <-. split_and!; [done|lia|done|done|auto].
Qed.

(** The step of a set: it keeps its shape, and acknowledges only its key and
    only when the key is there. *)
Lemma set_step (s s' : store) cmd (p p' : prog E (list reply)) k flags exptime data noreply :
  cmd = Set_ k flags exptime data noreply -> set_shape cmd p -> prog_step s p = Some (s', p') ->
  set_shape cmd p' /\ (p' = Finish [RStored] -> is_Some (view s' !! k)).
Proof.
  intros -> [Hp|[Hp| ->]] Hstep; [| |done].
  - destruct p as [| | | |k' v next| |next| |u p]; try done; cbn [before_put prog_step] in *.
    + destruct Hp as [-> Hp]. destruct (db_put_opt _ _ _ _) as [d r] eqn:Ed.
      injection Hstep as <- <-. specialize (Hp r). destruct r as [[]|e].
      * rewrite Hp. split; [by right; right|]. intros _. apply db_put_view in Ed. cbn.
        destruct Ed as [->|[_ Hne]]; [by rewrite lookup_insert_eq|done].
      * split; [by right; left|]. intros Hf. by rewrite Hf in Hp.
    + destruct (current_timestamp (st_clock s)) as [now c]. injection Hstep as <- <-.
      split; [by left|]. intros Hf. specialize (Hp now). by rewrite Hf in Hp.
    + injection Hstep as <- <-. split; [by left|]. intros ->. done.
  - destruct p as [| | | | | | | |u p]; try done. injection Hstep as <- <-.
    split; [by right; left|]. by intros ->.
Qed.

Lemma set_shape_step (s s' : store) cmd (p p' : prog E (list reply)) :
  set_shape cmd p -> prog_step s p = Some (s', p') -> set_shape cmd p'.
Proof.
  intros Hp Hstep. destruct cmd as [|k flags exptime data noreply| | |]; try done.
  by eapply set_step.
Qed.

(** Only the step of its own set acknowledges a set. *)
Lemma acked_step (s s' : store) (ts : threads) i cmd p p' k :
  ts !! i = Some (cmd, p) -> set_shape cmd p -> prog_step s p = Some (s', p') ->
  acked (<[i := (cmd, p')]> ts) k -> acked ts k \/ is_Some (view s' !! k).
Proof.
  intros Hi Hshape Hstep (flags & exptime & data & noreply & Hin).
  apply list_elem_of_lookup in Hin as [j Hj].
  destruct (decide (i = j)) as [->|Hne].
  - rewrite list_lookup_insert_eq in Hj by by eapply lookup_lt_Some. injection Hj as -> ->.
    right. by eapply (set_step s s').
  - rewrite list_lookup_insert_ne in Hj by done. left. exists flags, exptime, data, noreply.
    by eapply list_elem_of_lookup_2.
Qed.

Lemma pool_step_ok (w w' : store * threads) : pool_ok w -> pool_step w w' -> pool_ok w'.
Proof.
  intros [Hc Hl Ht Hm] Hstep. destruct Hstep as [s s' ts i cmd p p' Hi Hp]. cbn [fst snd] in *.
  rewrite Forall_forall in Ht. pose proof (list_elem_of_lookup_2 _ _ _ Hi) as Hin.
  destruct (Ht _ Hin) as [Hsafe Hshape].
  destruct (prog_step_spec (fun _ => replies_ok) s s' p p' ltac:(done) Hm Hc Hsafe Hp)
    as (Hm' & Htime & Hsafe' & Hc' & Hlost).
  split; cbn [fst snd]; [exact Hc'| | |exact Hm'].
  - intros k Hk Hnone. assert (Hk' : is_Some (m0 !! k) \/ acked ts k).
    { destruct Hk as [Hk|Hk]; [by left|].
      destruct (acked_step _ _ _ _ _ _ _ _ Hi Hshape Hp Hk) as [?|[? Hs]]; [by right|congruence]. }
    eapply removable_later; [exact Htime|].
    destruct (Hlost k Hnone) as [Hnone'|?]; [by apply Hl|done].
  - apply Forall_insert.
    + apply Forall_forall. intros [o1 p1] H1. destruct (Ht _ H1). split; [|done].
      by eapply safe_later.
    + split; [done|by eapply set_shape_step].
Qed.

End origin.

Lemma spawn_ok (s : store) cmds :
  wf_db (view s) -> clock_mono (st_clock s) -> Forall wf_command cmds ->
  pool_ok (view s) (timestamp (st_clock s)) cmds (spawn s cmds).
Proof.
  intros Hwf Hm Hcmds. split; cbn [spawn fst snd].
  - intros k raw Hk. destruct (wf_db_decodes _ _ _ Hwf Hk) as [v Hv]. exists v.
    split; [done|]. left. by eapply stored_raw.
  - intros k [[raw Hk]|(flags & exptime & data & noreply & Hin)] Hnone; [congruence|].
    apply list_elem_of_fmap in Hin as (cmd & [= <- Hp] & _).
    exfalso. pose proof (set_starts k flags exptime data noreply) as Hs. by rewrite <- Hp in Hs.
  - apply Forall_forall. intros [cmd p] (cmd' & [= -> ->] & Hin)%list_elem_of_fmap.
    rewrite Forall_forall in Hcmds. split; [|apply set_shape_start].
    apply (safe_command _ _ cmds); [|done|by apply Hcmds].
    split; [apply timestamp_nonneg|lia].
  - done.
Qed.

Lemma pool_reaches_ok (s : store) cmds (w : store * threads) :
  wf_db (view s) -> clock_mono (st_clock s) -> Forall wf_command cmds ->
  pool_reaches (spawn s cmds) w -> pool_ok (view s) (timestamp (st_clock s)) cmds w.
Proof. intros Hwf Hm Hcmds. induction 1; [by apply spawn_ok|by eapply pool_step_ok]. Qed.

Lemma pool_step_time m0 t0 cmds (w w' : store * threads) :
  pool_ok m0 t0 cmds w -> pool_step w w' ->
  timestamp (st_clock (fst w)) <= timestamp (st_clock (fst w')).
Proof.
  intros [Hc _ Hs Hm] Hstep. destruct Hstep as [s s' ts i cmd p p' Hi Hp]. cbn [fst snd] in *.
  rewrite Forall_forall in Hs. destruct (Hs _ (list_elem_of_lookup_2 _ _ _ Hi)) as [Hsafe _].
  by destruct (prog_step_spec m0 t0 cmds (fun _ => replies_ok m0 t0 cmds) s s' p p'
    ltac:(done) Hm Hc Hsafe Hp) as (_ & ? & _).
Qed.

End pools.

(** ** Termination *)

Section calls.
Context `{R : RocksDB DB WO E}.

Abbreviation threads := (list (Command * prog E (list reply))).

(** A computation that makes at most [n] calls, whatever the answers, and
    ends with a result in [Q]. *)
Fixpoint within {A} (Q : A -> Prop) (p : prog E A) (n : nat) : Prop :=
  match p, n with
  | Finish a, _ => Q a
  | Crash, _ => True
  | _, O => False
  | DbGet _ next, Datatypes.S n => forall r, within Q (next r) n
  | DbMultiGet _ next, Datatypes.S n => forall rs, within Q (next rs) n
  | DbPut _ _ next, Datatypes.S n => forall r, within Q (next r) n
  | DbDelete _ next, Datatypes.S n => forall r, within Q (next r) n
  | Now next, Datatypes.S n => forall now, within Q (next now) n
  | AddExpired _ next, Datatypes.S n => within Q next n
  | Count _ next, Datatypes.S n => within Q next n
  end.

Lemma within_more {A} (Q : A -> Prop) p n m : (n <= m)%nat -> within Q p n -> within Q p m.
Proof.
  revert n m. induction p as [r| |k next IH|ks next IH|k v next IH|k next IH|next IH|n0 p IH|u p IH];
    intros [|n] [|m] Hle H; cbn [within] in *; try done; try lia;
    (intros; eapply IH; [|by apply H]; lia).
Qed.

Lemma within_bind {A B} (Q : A -> Prop) (Q' : B -> Prop) p (f : A -> prog E B) n m :
  within Q p n -> (forall a, Q a -> within Q' (f a) m) -> within Q' (p ≫= f) (n + m).
Proof.
  intros Hp Hf. unfold mbind, prog_mbind. revert n Hp.
  induction p as [r| |k next IH|ks next IH|k v next IH|k next IH|next IH|n0 p IH|u p IH];
    intros [|n] H; cbn [within prog_bind Nat.add] in *; try done; eauto.
  - eapply (within_more _ _ m); [lia|by apply Hf].
Qed.

Lemma within_decode raw : within (fun _ => True) (decode_prog (E := E) raw) 0.
Proof. unfold decode_prog. by destruct (decode raw). Qed.

Lemma within_is_expired v : within (fun _ => True) (is_expired_prog (E := E) v) 1.
Proof. unfold is_expired_prog. by destruct (sv_expire_at v =? 0). Qed.

Lemma within_delete_all {A} (Q : A -> Prop) keys next n :
  within Q next n -> within Q (delete_all_prog (E := E) keys next) (length keys + n).
Proof. intros H. induction keys as [|k keys IH]; cbn; [done|]. by intros _. Qed.

(** The calls a command makes at most. *)
Definition calls (cmd : Command) : nat :=
  match cmd with
  | Get keys => 4 + 3 * length keys
  | Set_ _ _ _ _ _ | Delete _ _ => 4
  | Version | Quit => 0
  end.

Lemma within_get k : within (fun _ => True) (get_prog k) 4.
Proof.
  intros [[raw|]|e]; [|done..]. apply (within_bind (fun _ => True) _ _ _ 0 3).
  { apply within_decode. }
  intros [v|e] _; [|done]. apply (within_bind (fun _ => True) _ _ _ 1 2).
  { apply within_is_expired. }
  by intros [] _.
Qed.

Lemma within_get_multi_loop l results expired m :
  (length results + length l <= m)%nat -> (length expired + length l <= m)%nat ->
  within (fun r => forall res exp, r = Ok (res, exp) ->
      (length res <= m)%nat /\ (length exp <= m)%nat)
    (get_multi_loop_prog l results expired) (length l).
Proof.
  revert results expired. induction l as [|[k [[raw|]|e]] l IH]; intros results expired Hm Hm';
    cbn [get_multi_loop_prog length] in *.
  - intros ?? [= <- <-]. lia.
  - apply (within_bind (fun _ => True) _ _ _ 0 (Datatypes.S (length l))); [apply within_decode|].
    intros [v|e] _; [|done].
    apply (within_bind (fun _ => True) _ _ _ 1 (length l)); [apply within_is_expired|].
    intros [] _; apply IH; rewrite ?length_app; cbn; lia.
  - eapply within_more; [|apply IH]; rewrite ?length_app; cbn; lia.
  - done.
Qed.

Lemma within_get_multi ks :
  within (fun r => forall results, r = Ok results -> (length results <= length ks)%nat)
    (get_multi_prog ks) (2 + 2 * length ks).
Proof.
  intros rs. set (l := zip ks rs).
  assert (Hl : (length l <= length ks)%nat) by (unfold l; rewrite length_zip_with; lia).
  eapply (within_more _ _ (length l + (1 + length l))); [lia|].
  eapply within_bind; [by apply (within_get_multi_loop _ _ _ (length l))|].
  intros [[results expired]|e] H1; [|done]. specialize (H1 _ _ eq_refl). cbn beta iota.
  assert (Hres : within (fun r => forall results, r = Ok results -> (length results <= length ks)%nat)
    (mret (Ok results) : prog E (result _ (StorageError E))) 0) by (intros ? [= <-]; lia).
  case_bool_decide; [|by apply (within_more _ _ 0); [lia|]]. cbn [within Nat.add].
  apply (within_more _ _ (length expired + 0)); [lia|]. by apply within_delete_all.
Qed.

Lemma within_count_results {A} (Q : A -> Prop) results next n :
  within Q next n -> within Q (count_results (E := E) results next) (length results + n).
Proof. intros H. by induction results as [|[k [v|]] results IH]. Qed.

Lemma within_command cmd : within (fun _ => True) (command_prog cmd) (calls cmd).
Proof.
  destruct cmd as [ks|k flags exptime data noreply|k noreply| |]; cbn [command_prog]; try done.
  - change (within (fun _ => True) (match ks with
      | [key] => r ← get_prog (E := E) key; on_get key r
      | _ => r ← get_multi_prog ks; on_get_multi r end) (3 + 3 * length ks)).
    assert (Hmulti : forall ks, within (fun _ => True)
      (r ← get_multi_prog (E := E) ks; on_get_multi r) (3 + 3 * length ks)).
    { intros ks0. apply (within_more _ _ ((2 + 2 * length ks0) + (1 + length ks0))); [lia|].
      eapply within_bind; [apply within_get_multi|]. intros [results|e] Hl; [|done].
      apply (within_more _ _ (length results + 0)); [specialize (Hl _ eq_refl); lia|].
      by apply within_count_results. }
    destruct ks as [|k [|]]; [apply Hmulti| |apply Hmulti].
    apply (within_bind (fun _ => True) _ _ _ 4 2); [apply within_get|by intros [[]|]].
  - apply (within_bind (fun _ => True) _ _ _ 1 2); [|by intros v _ []]. unfold new_value_prog.
    destruct (exptime =? 0); [done|]. by destruct (exptime <=? MAX_RELATIVE_TTL).
  - change (within (fun _ => True) (r ← delete_prog (E := E) k; on_delete r) (2 + 1)).
    apply (within_bind (fun _ => True)); [by intros []|by intros [[]|] _].
Qed.

(** The calls the commands of a pool have left at most. *)
Definition pool_within (ts : threads) (n : nat) : Prop :=
  exists ns, Forall2 (fun cp m => within (fun _ => True) (snd cp) m) ts ns /\ sum_list ns = n.

Lemma prog_step_within {A} (Q : A -> Prop) (s s' : Store DB WO) p p' n :
  within Q p n -> prog_step s p = Some (s', p') ->
  exists m, n = Datatypes.S m /\ within Q p' m.
Proof.
  intros Hp Hstep. destruct p, n as [|n]; cbn [within prog_step] in *; try done;
    repeat case_match; simplify_eq; exists n; auto.
Qed.

Lemma pool_step_within (w w' : Store DB WO * threads) n :
  pool_within (snd w) n -> pool_step w w' ->
  exists m, n = Datatypes.S m /\ pool_within (snd w') m.
Proof.
  intros (ns & Hns & <-) Hstep. destruct Hstep as [s s' ts i cmd p p' Hi Hp]. cbn [fst snd] in *.
  destruct (Forall2_lookup_l _ _ _ _ _ Hns Hi) as (n & Hn & Hw).
  destruct (prog_step_within _ _ _ _ _ _ Hw Hp) as (m & -> & Hw').
  exists (sum_list (<[i := m]> ns)). split.
  - clear -Hn. revert i Hn. induction ns as [|n ns IH]; intros [|i] Hn; try done; cbn in *.
    + by injection Hn as ->.
    + rewrite (IH i Hn). apply Nat.add_succ_r.
  - exists (<[i := m]> ns). split; [|done]. by apply Forall2_insert.
Qed.

Lemma spawn_within (s : Store DB WO) cmds :
  pool_within (snd (spawn s cmds)) (sum_list (map calls cmds)).
Proof.
  exists (map calls cmds). split; [|done]. cbn [spawn snd].
  induction cmds as [|cmd cmds IH]; cbn; constructor; [apply within_command|done].
Qed.

Lemma run_within (w w' : Store DB WO * threads) n k :
  pool_within (snd w) n -> nsteps pool_step k w w' ->
  (k <= n)%nat /\ pool_within (snd w') (n - k).
Proof.
  intros Hw Hrun. revert n Hw. induction Hrun as [w|k w w1 w' Hstep _ IH]; intros n Hw.
  - split; [lia|]. by rewrite Nat.sub_0_r.
  - destruct (pool_step_within _ _ _ Hw Hstep) as (m & -> & Hm).
    destruct (IH m Hm) as [Hk Hw']. split; [lia|]. by replace (Datatypes.S m - _)%nat with (m - k)%nat by lia.
Qed.

(** What has a next call can make it. *)
Lemma prog_progress {A} (s : Store DB WO) (p : prog E A) :
  (exists a, p = Finish a) \/ p = Crash \/ is_Some (prog_step s p).
Proof.
  destruct p; cbn [prog_step]; [by eauto|by auto|..]; right; right;
    repeat case_match; by eexists.
Qed.

End calls.
