(* ===== verification/InterleaveLinear.v ===== *)
(** * Interleaved commands as a sequence of atomic steps

    While nothing expires and nobody deletes, each command of a pool takes
    effect at one of its calls: the pool, at the granularity of database
    calls, is a run of the abstract cache, one step per command. *)

From S2P Require Import Prelude RustStd Extern Reference Errors Command Value Storage.
From S2P Require Import StorageFacts StorageProps Response Handler Spec HandlerProps.
From S2P Require Import Interleave InterleaveFacts.
#[local] Open Scope petra_scope.

(** [linear t0 T c log c']: the commands of [log], in this order and each
    executed between [t0] and [T], lead the cache from [c] to [c'].  An entry
    has the number of the command in the pool and its replies; whether a
    storage error occurs is a matter of each entry. *)
Inductive linear (t0 T : Z) (c : cache) : list (nat * (Command * list reply)) -> cache -> Prop :=
| linear_nil : linear t0 T c [] c
| linear_snoc log c1 i fails a b cmd rs c2 :
    linear t0 T c log c1 -> t0 <= a <= b -> b <= T -> cache_step fails a b c1 cmd c2 rs ->
    linear t0 T c (log ++ [(i, (cmd, rs))]) c2.

Section linear.
Context `{RS : RocksDBSpec DB WO E}.

Abbreviation store := (Store DB WO).
Abbreviation view s := (db_view (st_db s)).
Abbreviation threads := (list (Command * prog E (list reply))).

(** What is left makes no database call and ends with [a], as long as the
    clock shows no more than [T]. *)
Fixpoint settled {A} (T : Z) (a : A) (p : prog E A) : Prop :=
  match p with
  | Finish a' => a' = a
  | Now next => forall now, now <= T -> settled T a (next now)
  | Count _ next => settled T a next
  | _ => False
  end.

Lemma settled_bind {A B} T (a : A) (b : B) p (f : A -> prog E B) :
  settled T a p -> settled T b (f a) -> settled T b (p ≫= f).
Proof.
  unfold mbind, prog_mbind. intros Hp Hf.
  induction p as [a'| | | | | |next IH| |u p IH]; cbn [settled prog_bind] in *; try done.
  - by rewrite Hp.
  - intros now Hnow. by apply IH, Hp.
  - by apply IH.
Qed.

Lemma settled_decode T raw v :
  decode_spec raw = Some v -> settled T (Ok v) (decode_prog (E := E) raw).
Proof. intros Hv. unfold decode_prog. by rewrite decode_eq, Hv. Qed.

Lemma settled_is_expired T v :
  expired_at T v = false -> settled T false (is_expired_prog (E := E) v).
Proof.
  unfold expired_at, is_expired_prog. destruct (sv_expire_at v =? 0); [done|].
  intros He now Hnow. cbn in *. apply Z.leb_gt. apply Z.leb_gt in He. lia.
Qed.

(** A raw value that decodes to one that is alive until [T]. *)
Definition alive (T : Z) (o : option bytes) : Prop :=
  forall raw, o = Some raw -> exists v, decode_spec raw = Some v /\ expired_at T v = false.

Lemma settled_loop T ks (os : list (result (option bytes) E)) results expired :
  length ks = length os ->
  Forall (fun r => forall o, r = Ok o -> alive T o) os ->
  (exists e, settled T (Err (RocksDb e)) (get_multi_loop_prog (zip ks os) results expired)) \/
  exists res, settled T (Ok (results ++ res, expired))
      (get_multi_loop_prog (zip ks os) results expired) /\
    Forall2 (fun '(k, r) '(k', v) => k' = k /\ exists o, r = Ok o /\ v = o ≫= decode_spec)
      (zip ks os) res.
Proof.
  intros Hl Ha. revert ks Hl results.
  induction Ha as [|r os Hr _ IH]; intros [|k ks] [=] results; cbn [zip zip_with get_multi_loop_prog].
  { right. exists []. by rewrite app_nil_r. }
  destruct r as [[raw|]|e]; [| |by left; exists e].
  - destruct (Hr _ eq_refl raw eq_refl) as (v & Hv & He).
    specialize (IH ks ltac:(done) (results ++ [(k, Some v)])).
    destruct IH as [[e Hs]|(res & Hs & Hres)]; [left; exists e|right; exists ((k, Some v) :: res)].
    + eapply settled_bind; [by apply settled_decode|].
      eapply settled_bind; [by apply settled_is_expired|done].
    + split; [|constructor; [split; [done|by exists (Some raw)]|done]].
      rewrite cons_middle, app_assoc.
      eapply settled_bind; [by apply settled_decode|].
      eapply settled_bind; [by apply settled_is_expired|done].
  - destruct (IH ks ltac:(done) (results ++ [(k, None)])) as [[e Hs]|(res & Hs & Hres)].
    + left. by exists e.
    + right. exists ((k, None) :: res). rewrite cons_middle, app_assoc. split; [done|].
      constructor; [|done]. split; [done|]. by exists None.
Qed.

(** ** Commands before their database call *)

(** The write of a set, and what follows it. *)
Definition put_prog (k : bytes) (v : StoredValue) : prog E (list reply) :=
  r ← set_prog k v; on_set r.

(** The lookup of a get, and what follows it. *)
Definition lookup_prog (ks : list bytes) : prog E (list reply) :=
  match ks with
  | [k] => r ← get_prog k; on_get k r
  | _ => r ← get_multi_prog ks; on_get_multi r
  end.

(** What is left of a command that has not made its database call at time
    [t]; a delete, which makes two, is left out. *)
Definition before_call (t0 t : Z) (cmd : Command) (p : prog E (list reply)) : Prop :=
  match cmd with
  | Get ks => p = command_prog cmd \/ p = lookup_prog ks
  | Set_ k flags exptime data _ =>
      p = command_prog cmd \/
      p = (v ← new_value_prog flags exptime data; put_prog k v) \/
      exists now, t0 <= now <= t /\
        p = put_prog k (with_expire_at flags (expiry_rule now exptime) data)
  | Delete _ _ => False
  | _ => p = command_prog cmd
  end.

Lemma before_call_later t0 t t' cmd p : t <= t' -> before_call t0 t cmd p -> before_call t0 t' cmd p.
Proof.
  intros Ht. destruct cmd; try done. intros [?|[?|(now & ? & ->)]]; [by left|by right; left|].
  right; right. exists now. split; [lia|done].
Qed.

Lemma before_call_start t0 cmd :
  (forall k noreply, cmd <> Delete k noreply) -> before_call t0 t0 cmd (command_prog cmd).
Proof. intros Hd. destruct cmd as [| |k noreply| |]; cbn; auto. by destruct (Hd k noreply). Qed.

Lemma settled_count_results {A} T (a : A) results next :
  settled T a next -> settled T a (count_results (E := E) results next).
Proof. intros H. by induction results as [|[k [v|]] results IH]. Qed.

(** ** Steps *)

Lemma settled_step {A} T (a : A) (s s' : store) p p' :
  timestamp (st_clock s) <= T -> settled T a p -> prog_step s p = Some (s', p') ->
  settled T a p' /\ st_db s' = st_db s.
Proof.
  intros Ht Hp Hstep. destruct p; cbn [settled prog_step] in *; try done.
  - unfold current_timestamp, system_time_now in Hstep. injection Hstep as <- <-.
    split; [by apply Hp|done].
  - by injection Hstep as <- <-.
Qed.

(** What the database call of a command does to the cache. *)
Definition takes_effect (t0 T : Z) (c : cache) (cmd : Command) (s' : store)
    (p' : prog E (list reply)) : Prop :=
  exists fails a b c' rs, t0 <= a <= b /\ b <= T /\ cache_step fails a b c cmd c' rs /\
    settled T rs p' /\ holds (timestamp (st_clock s')) c' (view s').

Context (t0 T : Z) (c : cache) (s : store).
Context (Hholds : holds (timestamp (st_clock s)) c (view s)).
Context (Halive : forall k, alive T (view s !! k)).
Context (Ht : t0 <= timestamp (st_clock s) <= T) (Ht0 : 0 <= t0).

Lemma read_answer k :
  answer c (timestamp (st_clock s)) (timestamp (st_clock s)) k (k, view s !! k ≫= decode_spec).
Proof.
  split; [done|]. exists (timestamp (st_clock s)). split; [lia|]. cbn [snd].
  rewrite <- (holds_live _ _ _ k Hholds). unfold live, stored.
  destruct (view s !! k) as [raw|] eqn:Ek; [|done]. cbn [mbind option_bind].
  destruct (Halive k raw Ek) as (v & Hv & He). rewrite Hv.
  unfold live_value. cbn [mbind option_bind].
  destruct (expired_at (timestamp (st_clock s)) v) eqn:Ev; [|done].
  eapply expired_at_mono in Ev; [|apply Ht]. by rewrite Ev in He.
Qed.

Lemma get_takes_effect k s' p' :
  prog_step s (lookup_prog [k]) = Some (s', p') -> takes_effect t0 T c (Get [k]) s' p'.
Proof.
  cbn [lookup_prog]. unfold get_prog. cbn [mbind prog_mbind prog_bind prog_step].
  destruct (db_get (st_db s) k) as [d r] eqn:Ed. intros [= <- <-].
  apply db_get_view in Ed as [Hd Hr]. set (t := timestamp (st_clock s)).
  assert (Hh : holds t c (db_view d)) by by rewrite Hd.
  pose proof (read_answer k) as Hans.
  destruct r as [[raw|]|e].
  - specialize (Hr _ eq_refl). destruct (Halive k raw (eq_sym Hr)) as (v & Hv & He).
    exists (fun _ => False), t, t, c, (value_replies [(k, Some v)] ++ [REnd]).
    split; [lia|]. split; [lia|]. split_and!; [| |done].
    + apply step_get; [by intros ??|]. constructor; [|done].
      by rewrite <- Hr in Hans; cbn [mbind option_bind] in Hans; rewrite Hv in Hans.
    + apply (settled_bind T (Ok (Some v)) _ (dec ← decode_prog raw; _)); [|done].
      eapply settled_bind; [by apply settled_decode|].
      by eapply settled_bind; [by apply settled_is_expired|].
  - specialize (Hr _ eq_refl). exists (fun _ => False), t, t, c, (value_replies [(k, None)] ++ [REnd]).
    split; [lia|]. split; [lia|]. split_and!; [|done|done].
    apply step_get; [by intros ??|]. constructor; [|done]. by rewrite <- Hr in Hans.
  - exists (fun msg => msg = StorageError_display (RocksDb e)), t, t, c, (error_replies (RocksDb e)).
    split; [lia|]. split; [lia|]. split_and!; [by apply step_get_error|done|done].
Qed.

Lemma get_multi_takes_effect ks s' p' :
  length ks <> 1%nat ->
  prog_step s (lookup_prog ks) = Some (s', p') -> takes_effect t0 T c (Get ks) s' p'.
Proof.
  intros Hks.
  assert (lookup_prog ks = (r ← get_multi_prog ks; on_get_multi r)) as ->
    by by destruct ks as [|? [|]].
  unfold get_multi_prog. cbn [mbind prog_mbind prog_bind prog_step].
  destruct (db_multi_get (st_db s) ks) as [d os] eqn:Ed. intros [= <- <-].
  apply db_multi_get_view in Ed as [Hd Hr]. set (t := timestamp (st_clock s)).
  assert (Hh : holds t c (db_view d)) by by rewrite Hd.
  destruct (settled_loop T ks os [] []) as [[e Hs]|(res & Hs & Hres)].
  - by eapply Forall2_length.
  - clear -Hr Halive. induction Hr as [|k r ks os Hk _ IH]; constructor; [|exact IH].
    intros o ->. rewrite (Hk o eq_refl). apply Halive.
  - exists (fun msg => msg = StorageError_display (RocksDb e)), t, t, c, (error_replies (RocksDb e)).
    split; [lia|]. split; [lia|]. split_and!; [by apply step_get_error| |done].
    eapply (settled_bind T (Err (RocksDb e))); [|done].
    by eapply settled_bind; [exact Hs|].
  - exists (fun _ => False), t, t, c, (value_replies res ++ [REnd]).
    split; [lia|]. split; [lia|]. split_and!; [| |done].
    + apply step_get; [by intros ??|]. clear Hs Hks. revert res Hres.
      induction Hr as [|k r ks rs Hk _ IH]; intros res Hres; cbn [zip zip_with] in Hres.
      { apply Forall2_nil_inv_l in Hres as ->. by apply Forall2_nil. }
      apply Forall2_cons_inv_l in Hres as ([k' v] & res' & [-> (o & -> & ->)] & Hres & ->).
      apply Forall2_cons. split; [|by apply IH].
      rewrite (Hk o eq_refl). apply read_answer.
    + eapply (settled_bind T (Ok res)); [by eapply settled_bind; [exact Hs|]|].
      by apply settled_count_results.
Qed.

Lemma put_takes_effect k flags exptime data noreply now s' p' :
  wf_command (Set_ k flags exptime data noreply) -> t0 <= now <= timestamp (st_clock s) ->
  prog_step s (put_prog k (with_expire_at flags (expiry_rule now exptime) data)) = Some (s', p') ->
  takes_effect t0 T c (Set_ k flags exptime data noreply) s' p'.
Proof.
  intros (_ & Hflags & Hexp & Hdata) Hnow. unfold put_prog, set_prog.
  cbn [mbind prog_mbind prog_bind prog_step]. set (v := with_expire_at _ _ _).
  assert (Hv : wf_value v) by (apply wf_with_expire_at; (done || lia)).
  destruct (db_put_opt (st_db s) k (encode v) (st_write_opts s)) as [d r] eqn:Ed.
  intros [= <- <-]. apply db_put_view in Ed. set (t := timestamp (st_clock s)).
  destruct r as [[]|e].
  - exists (fun _ => False), now, t, (<[k := v]> c), [RStored].
    split; [lia|]. split; [lia|]. split_and!; [apply step_set; by intros ??|done|].
    destruct Ed as [Ed|[_ Hne]]; [|by destruct Hne]. cbn. rewrite Ed. by apply holds_insert.
  - destruct Ed as [Ed|[Ed _]].
    + exists (fun msg => msg = StorageError_display (RocksDb e)), now, t, (<[k := v]> c),
        (error_replies (RocksDb e)).
      split; [lia|]. split; [lia|]. split_and!; [apply step_set_error; auto|done|].
      cbn. rewrite Ed. by apply holds_insert.
    + exists (fun msg => msg = StorageError_display (RocksDb e)), now, t, c,
        (error_replies (RocksDb e)).
      split; [lia|]. split; [lia|]. split_and!; [apply step_set_error; auto|done|].
      cbn. by rewrite Ed.
Qed.

(** A command that waits still waits after its next call, or that call was
    its effect. *)
Lemma before_call_step cmd p s' p' :
  wf_command cmd -> timestamp (st_clock s) <= timestamp (st_clock s') ->
  before_call t0 (timestamp (st_clock s)) cmd p -> prog_step s p = Some (s', p') ->
  (before_call t0 (timestamp (st_clock s')) cmd p' /\ st_db s' = st_db s) \/
  takes_effect t0 T c cmd s' p'.
Proof.
  intros Hwf Htime Hw Hstep. destruct cmd as [ks|k flags exptime data noreply|k noreply| |].
  - destruct Hw as [->| ->].
    { left. cbn [command_prog prog_step] in Hstep. injection Hstep as <- <-.
      split; [by right|done]. }
    right. destruct (decide (length ks = 1%nat)) as [Hl|Hl].
    + destruct ks as [|k [|]]; try done. by apply get_takes_effect.
    + by apply get_multi_takes_effect.
  - destruct Hw as [->|[->|(now & Hnow & ->)]].
    + left. cbn [command_prog prog_step] in Hstep. injection Hstep as <- <-.
      split; [by right; left|done].
    + assert (Hput : forall now, t0 <= now <= timestamp (st_clock s) ->
        prog_step s (put_prog k (with_expire_at flags (expiry_rule now exptime) data)) =
          Some (s', p') -> takes_effect t0 T c (Set_ k flags exptime data noreply) s' p').
      { intros now Hnow. by apply put_takes_effect. }
      unfold new_value_prog in Hstep. specialize (Hput (timestamp (st_clock s)) ltac:(lia)).
      unfold expiry_rule in Hput. destruct (exptime =? 0) eqn:E0; [right; by apply Hput|].
      destruct (exptime <=? MAX_RELATIVE_TTL) eqn:E1; [|right; by apply Hput]. left.
      cbn [mbind prog_mbind prog_bind prog_step] in Hstep.
      unfold current_timestamp, system_time_now in Hstep. injection Hstep as <- <-.
      split; [|done]. right; right. exists (timestamp (st_clock s)). split; [lia|].
      unfold expiry_rule. by rewrite E0, E1.
    + right. by eapply put_takes_effect.
  - done.
  - cbn [before_call] in Hw. by subst p.
  - cbn [before_call] in Hw. by subst p.
Qed.

End linear.

(** ** Pools *)

Section pools.
Context `{RS : RocksDBSpec DB WO E}.

Abbreviation store := (Store DB WO).
Abbreviation view s := (db_view (st_db s)).
Abbreviation threads := (list (Command * prog E (list reply))).

(** A log of the commands that have taken effect: each of the others waits. *)
Definition thread_ok (t0 T : Z) (s : store) (log : list (nat * (Command * list reply))) (i : nat)
    (cmd : Command) (p : prog E (list reply)) : Prop :=
  (i ∉ map fst log /\ before_call t0 (timestamp (st_clock s)) cmd p) \/
  exists rs, (i, (cmd, rs)) ∈ log /\ settled T rs p.

Definition log_ok (t0 T : Z) (c0 : cache) (w : store * threads)
    (log : list (nat * (Command * list reply))) (c : cache) : Prop :=
  linear t0 T c0 log c /\ holds (timestamp (st_clock (fst w))) c (view (fst w)) /\
  NoDup (map fst log) /\
  (forall i cmd p, snd w !! i = Some (cmd, p) -> thread_ok t0 T (fst w) log i cmd p) /\
  (forall i cmd rs, (i, (cmd, rs)) ∈ log -> exists p, snd w !! i = Some (cmd, p) /\ settled T rs p).

Lemma log_ok_start (T : Z) (c0 : cache) (s : store) cmds :
  holds (timestamp (st_clock s)) c0 (view s) -> (forall k noreply, Delete k noreply ∉ cmds) ->
  log_ok (timestamp (st_clock s)) T c0 (spawn s cmds) [] c0.
Proof.
  intros Hh Hd. split_and!; [constructor|done|constructor| |by intros ??? ?%not_elem_of_nil].
  intros i cmd p Hi. left. split; [apply not_elem_of_nil|].
  apply list_lookup_fmap_Some in Hi as (cmd' & [= -> ->] & Hi). apply before_call_start.
  intros k noreply ->. by eapply Hd, list_elem_of_lookup_2.
Qed.

(** The other threads of a step. *)
Lemma thread_ok_later (t0 T : Z) (s s' : store) log i cmd p en :
  timestamp (st_clock s) <= timestamp (st_clock s') -> fst en <> i ->
  thread_ok t0 T s log i cmd p ->
  thread_ok t0 T s' log i cmd p /\ thread_ok t0 T s' (log ++ [en]) i cmd p.
Proof.
  intros Ht Hne [[Hi Hw]|(rs & Hin & Hs)].
  - pose proof (before_call_later _ _ _ _ _ Ht Hw) as Hw'. split; left; [done|]. split; [|done].
    rewrite map_app. intros [?|H1%list_elem_of_singleton]%elem_of_app; done.
  - split; right; exists rs; split; try done. apply elem_of_app. by left.
Qed.

(** A step of the thread [i] that has no effect on the cache. *)
Lemma log_ok_silent t0 (T : Z) c0 (s s' : store) ts i cmd p p' log c :
  log_ok t0 T c0 (s, ts) log c -> ts !! i = Some (cmd, p) ->
  timestamp (st_clock s) <= timestamp (st_clock s') -> st_db s' = st_db s ->
  thread_ok t0 T s' log i cmd p' ->
  (forall rs, (i, (cmd, rs)) ∈ log -> settled T rs p') ->
  log_ok t0 T c0 (s', <[i := (cmd, p')]> ts) log c.
Proof.
  intros (Hlin & Hh & Hnd & Hts & Hlog) Hi Htime Hdb Hp' Hset. cbn [fst snd] in *.
  assert (Hlt : (i < length ts)%nat) by by eapply lookup_lt_Some.
  split_and!; cbn [fst snd]; [done| |done|..].
  - rewrite Hdb. by eapply holds_later.
  - intros j cmd1 p1. destruct (decide (i = j)) as [<-|Hne].
    + rewrite list_lookup_insert_eq by done. by intros [= <- <-].
    + rewrite list_lookup_insert_ne by done. intros Hj.
      by apply (thread_ok_later t0 T s s' log j cmd1 p1 (i, (cmd, []))); [| |apply Hts].
  - intros j cmd1 rs1 Hin. destruct (Hlog _ _ _ Hin) as (p1 & Hj & Hs1).
    destruct (decide (i = j)) as [<-|Hne].
    + rewrite list_lookup_insert_eq by done. rewrite Hi in Hj. injection Hj as <- <-. eauto.
    + rewrite list_lookup_insert_ne by done. eauto.
Qed.

(** A step of the thread [i] in which its command takes effect. *)
Lemma log_ok_effect t0 (T : Z) c0 (s s' : store) ts i cmd p p' log c :
  log_ok t0 T c0 (s, ts) log c -> ts !! i = Some (cmd, p) -> i ∉ map fst log ->
  timestamp (st_clock s) <= timestamp (st_clock s') -> takes_effect t0 T c cmd s' p' ->
  exists en c', log_ok t0 T c0 (s', <[i := (cmd, p')]> ts) (log ++ [en]) c'.
Proof.
  intros (Hlin & Hh & Hnd & Hts & Hlog) Hi Hfresh Htime
    (fails & a & b & c' & rs & Ha & Hb & Hstep & Hset & Hh'). cbn [fst snd] in *.
  assert (Hlt : (i < length ts)%nat) by by eapply lookup_lt_Some.
  exists (i, (cmd, rs)), c'. split_and!; cbn [fst snd]; [by econstructor|done|..].
  - rewrite map_app. apply NoDup_app. split; [done|]. split; [|apply NoDup_singleton].
    intros j Hj ->%list_elem_of_singleton. done.
  - intros j cmd1 p1. destruct (decide (i = j)) as [<-|Hne].
    + rewrite list_lookup_insert_eq by done. intros [= <- <-]. right. exists rs.
      split; [|done]. apply elem_of_app. right. by apply list_elem_of_singleton.
    + rewrite list_lookup_insert_ne by done. intros Hj.
      by apply (thread_ok_later t0 T s s' log j cmd1 p1 (i, (cmd, rs))); [| |apply Hts].
  - intros j cmd1 rs1 [Hin|[= -> -> ->]%list_elem_of_singleton]%elem_of_app.
    + destruct (decide (i = j)) as [<-|Hne].
      * destruct Hfresh. by apply (list_elem_of_fmap_2 fst) in Hin.
      * rewrite list_lookup_insert_ne by done. by apply Hlog.
    + exists p'. by rewrite list_lookup_insert_eq.
Qed.

Lemma log_ok_step t0 (T : Z) c0 cmds m0 (w w' : store * threads) log c :
  pool_ok m0 t0 cmds w -> pool_step w w' -> Forall wf_command (map fst (snd w)) ->
  (forall k v, origin m0 t0 cmds k v -> expired_at T v = false) ->
  0 <= t0 <= timestamp (st_clock (fst w)) -> timestamp (st_clock (fst w')) <= T ->
  log_ok t0 T c0 w log c -> exists log' c', log_ok t0 T c0 w' log' c'.
Proof.
  intros Hok Hstep Hwf Hexp Ht0 HT Hlog. pose proof (pool_step_time _ _ _ _ _ Hok Hstep) as Htime.
  destruct Hstep as [s s' ts i cmd p p' Hi Hp]. cbn [fst snd] in *.
  assert (Halive : forall k, alive T (view s !! k)).
  { intros k raw Hk. destruct (po_content _ _ _ _ Hok k raw Hk) as (v & ? & ?). eauto. }
  assert (Hcmd : wf_command cmd).
  { rewrite Forall_map, Forall_forall in Hwf. apply (Hwf (cmd, p)). by eapply list_elem_of_lookup_2. }
  pose proof Hlog as (_ & Hh & _ & Hts & Hin). destruct (Hts _ _ _ Hi) as [[Hfresh Hw]|(rs & Hrs & Hs)].
  - destruct (before_call_step t0 T c s Hh Halive ltac:(cbn [fst]; lia) (proj1 Ht0) cmd p s' p' Hcmd Htime Hw Hp)
      as [[Hw' Hdb]|Heff].
    + exists log, c. eapply log_ok_silent; [done..|by left|].
      intros rs Hrs. destruct Hfresh. by apply (list_elem_of_fmap_2 fst) in Hrs.
    + destruct (log_ok_effect _ _ _ _ _ _ _ _ _ _ _ _ Hlog Hi Hfresh Htime Heff) as (en & c' & ?).
      eauto.
  - assert (Hle : timestamp (st_clock s) <= T) by lia.
    destruct (settled_step T rs s s' p p' Hle Hs Hp) as [Hs' Hdb].
    exists log, c. eapply log_ok_silent; [done..|right; by exists rs|].
    intros rs1 Hrs1. destruct (Hin _ _ _ Hrs1) as (p1 & Hp1 & Hs1). cbn [snd] in Hp1.
    rewrite Hi in Hp1. injection Hp1 as <-. by eapply settled_step.
Qed.

Lemma pool_commands (w w' : store * threads) : pool_step w w' -> map fst (snd w') = map fst (snd w).
Proof.
  intros [s s' ts i cmd p p' Hi Hp]. cbn [snd]. rewrite list_fmap_insert. cbn [fst].
  apply list_insert_id. change (fmap fst ts !! i = Some cmd). by rewrite list_lookup_fmap, Hi.
Qed.

Lemma spawn_commands (s : store) cmds : map fst (snd (spawn s cmds)) = cmds.
Proof. cbn [spawn snd]. rewrite map_map. apply map_id. Qed.

(** Every pool has a log up to the time [T]. *)
Lemma pool_log (T : Z) c0 (s : store) cmds (w : store * threads) :
  represents c0 s -> Forall wf_command cmds -> (forall k noreply, Delete k noreply ∉ cmds) ->
  (forall k v, origin (view s) (timestamp (st_clock s)) cmds k v -> expired_at T v = false) ->
  pool_reaches (spawn s cmds) w ->
  timestamp (st_clock s) <= timestamp (st_clock (fst w)) /\ map fst (snd w) = cmds /\
  (timestamp (st_clock (fst w)) <= T ->
   exists log c, log_ok (timestamp (st_clock s)) T c0 w log c).
Proof.
  intros (Hwf & Hm & Hh) Hcmds Hd Hexp Hreach. induction Hreach as [|w w' Hreach (Ht & Hc & IH) Hstep].
  - cbn [spawn fst]. split; [lia|]. split; [apply spawn_commands|]. intros _. exists [], c0.
    by apply log_ok_start.
  - assert (Hok : pool_ok (view s) (timestamp (st_clock s)) cmds w) by by apply pool_reaches_ok.
    pose proof (pool_step_time _ _ _ _ _ Hok Hstep) as Htime.
    split; [lia|]. split; [by rewrite (pool_commands _ _ Hstep)|]. intros HT.
    destruct IH as (log & c & Hlog); [lia|].
    eapply log_ok_step; [done|done| |done| |done|done].
    + by rewrite Hc.
    + split; [apply timestamp_nonneg|lia].
Qed.

End pools.
