(* ===== verification/InterleaveProps.v ===== *)
(** * Commands under interleaving

    In every interleaving of any commands no value is invented, no key is
    lost but by a delete or through an expired value, and all commands come
    to an end; and the one race there is: a lazy expiration can remove a
    value that has been set since. *)

From S2P Require Import Prelude RustStd Extern Reference Errors Command ParserProps Value Storage.
From S2P Require Import StorageFacts StorageProps Response Metrics Config ServerState Examples.
From S2P Require Import Handler Spec HandlerProps Interleave InterleaveFacts InterleaveLinear.
#[local] Open Scope petra_scope.

(** ** The race *)

Section race.
Context `{RS : RocksDBSpec DB WO E}.

Abbreviation store := (Store DB WO).
Abbreviation view s := (db_view (st_db s)).

(** A state of the database in which no call fails, now or later. *)
Definition reliable (up : DB -> Prop) : Prop :=
  (forall d k, up d -> up (fst (db_get d k)) /\ exists o, snd (db_get d k) = Ok o) /\
  (forall d k v w, up d ->
     up (fst (db_put_opt d k v w)) /\ snd (db_put_opt d k v w) = Ok tt) /\
  (forall d k w, up d -> up (fst (db_delete_opt d k w)) /\ snd (db_delete_opt d k w) = Ok tt).

(** A set of a value that never expires. *)
Lemma set_acked (s s' : store) k flags data noreply :
  run_alone (command_prog (Set_ k flags 0 data noreply)) s = Ret (s', [RStored]) ->
  view s' !! k = Some (encode (with_expire_at flags 0 data)).
Proof.
  cbn [command_prog run_alone]. rewrite run_alone_bind, run_new_value.
  cbn [stored_value_new calculate_expire_at Z.eqb mbind outcome_bind mret outcome_ret].
  rewrite run_alone_bind, run_set. cbn [mbind outcome_bind mret outcome_ret].
  destruct (RocksStorage.set _ _ _) as [s1 r] eqn:Es. apply set_spec in Es as (_ & _ & Hv).
  destruct r as [[]|e]; cbn [run_alone on_set error_prog mret outcome_ret]; [|by intros [=]].
  intros [= <-]. destruct Hv as [->|[_ [e ?]]]; [|done]. by rewrite lookup_insert_eq.
Qed.

Lemma get_keeps (s s' : store) k v rs :
  wf_db (view s) -> wf_value v -> sv_expire_at v = 0 -> view s !! k = Some (encode v) ->
  run_alone (command_prog (Get [k])) s = Ret (s', rs) -> view s' !! k = Some (encode v).
Proof.
  intros Hwf Hv H0 Hk.
  change (run_alone (command_prog (Get [k])) s) with (run_alone (r ← get_prog k; on_get k r) s).
  rewrite run_alone_bind, run_get.
  destruct (get_spec s k Hwf) as (s1 & r1 & -> & _ & Hstep & _).
  cbn [mbind outcome_bind mret outcome_ret run_alone]. intros Hret.
  assert (s' = s1) as ->.
  { destruct r1 as [[v1|]|e]; cbn in Hret; by injection Hret. }
  destruct (Hstep k) as [->|(_ & v' & Hst & Hexp)]; [done|].
  unfold stored in Hst. rewrite Hk in Hst. cbn [mbind option_bind] in Hst.
  rewrite decode_spec_encode in Hst by done.
  injection Hst as <-. unfold expired_at in Hexp. by rewrite H0 in Hexp.
Qed.

(** A get that has read an expired value and a set in the middle of it. *)
Lemma race_run (up : DB -> Prop) (s : store) k old flags data noreply :
  reliable up -> up (st_db s) -> view s !! k = Some (encode old) -> wf_value old ->
  expired_at (timestamp (st_clock s)) old = true ->
  exists s',
    schedule [0; 0; 0; 1; 1; 0; 0; 0]%nat (spawn s [Get [k]; Set_ k flags 0 data noreply]) =
    Some (s', [(Get [k], Finish [REnd]);
               (Set_ k flags 0 data noreply, Finish [RStored])]) /\
  view s' !! k = None.
Proof.
  intros (Hget & Hput & Hdel) Hup Hk Hold Hexp.
  unfold expired_at in Hexp. apply andb_true_iff in Hexp as [Hne Hle]. apply negb_true_iff in Hne.
  destruct (Hget (st_db s) k Hup) as [Hup1 [o Ho]].
  destruct (db_get (st_db s) k) as [d1 r1] eqn:Eg. cbn [fst snd] in Hup1, Ho. subst r1.
  pose proof Eg as [Hv1 Ho]%db_get_view. specialize (Ho o eq_refl). rewrite Hk in Ho. subst o.
  set (v := with_expire_at flags 0 data).
  destruct (Hput d1 k (encode v) (st_write_opts s) Hup1) as [Hup2 Hr2].
  destruct (db_put_opt d1 k (encode v) (st_write_opts s)) as [d2 r2] eqn:Ep.
  cbn [fst snd] in Hup2, Hr2. subst r2.
  destruct (Hdel d2 k (st_write_opts s) Hup2) as [Hup3 Hr3].
  destruct (db_delete_opt d2 k (st_write_opts s)) as [d3 r3] eqn:Ed.
  cbn [fst snd] in Hup3, Hr3. subst r3.
  eexists. split.
  - unfold spawn. cbn [map].
    erewrite schedule_cons; [|reflexivity|reflexivity].
    erewrite schedule_cons;
      [|reflexivity|unfold get_prog; cbn [mbind prog_mbind prog_bind prog_step];
        rewrite Eg; reflexivity].
    unfold decode_prog. rewrite decode_eq, decode_spec_encode by done.
    unfold is_expired_prog. cbn [mbind prog_mbind prog_bind mret prog_mret]. rewrite Hne.
    erewrite schedule_cons; [|reflexivity|reflexivity].
    change (unix_secs (now_at (st_clock (set_db s d1)) (reads (st_clock (set_db s d1)))))
      with (timestamp (st_clock s)). rewrite Hle.
    erewrite schedule_cons; [|reflexivity|reflexivity].
    erewrite schedule_cons;
      [|reflexivity|unfold new_value_prog, set_prog;
        cbn [Z.eqb mbind prog_mbind prog_bind mret prog_mret prog_step set_clock set_db st_db
             st_write_opts]; fold (with_expire_at flags 0 data); fold v; rewrite Ep; reflexivity].
    erewrite schedule_cons; [|reflexivity|reflexivity].
    erewrite schedule_cons;
      [|reflexivity|cbn [prog_step add_expired set_clock set_db st_db st_write_opts];
        rewrite Ed; reflexivity].
    erewrite schedule_cons; [|reflexivity|reflexivity].
    reflexivity.
  - cbn [set_db st_db]. apply db_delete_view in Ed as [->|[_ ?]]; [|done].
    by rewrite lookup_delete_eq.
Qed.

(** Two deletes that both read before either deletes. *)
Lemma double_delete_run (up : DB -> Prop) (s : store) k nr1 nr2 :
  reliable up -> up (st_db s) -> is_Some (view s !! k) ->
  exists s', schedule [0; 0; 1; 1; 0; 1]%nat (spawn s [Delete k nr1; Delete k nr2]) =
    Some (s', [(Delete k nr1, Finish [RDeleted]); (Delete k nr2, Finish [RDeleted])]).
Proof.
  intros (Hget & Hput & Hdel) Hup Hk.
  destruct (Hget (st_db s) k Hup) as [Hup1 [o1 Ho1]].
  destruct (db_get (st_db s) k) as [d1 r1] eqn:Eg1. cbn [fst snd] in Hup1, Ho1. subst r1.
  pose proof Eg1 as [Hv1 Ho1]%db_get_view. specialize (Ho1 o1 eq_refl).
  destruct (Hget d1 k Hup1) as [Hup2 [o2 Ho2]].
  destruct (db_get d1 k) as [d2 r2] eqn:Eg2. cbn [fst snd] in Hup2, Ho2. subst r2.
  pose proof Eg2 as [Hv2 Ho2]%db_get_view. specialize (Ho2 o2 eq_refl). rewrite Hv1 in Ho2.
  destruct (Hdel d2 k (st_write_opts s) Hup2) as [Hup3 Hr3].
  destruct (db_delete_opt d2 k (st_write_opts s)) as [d3 r3] eqn:Ed3.
  cbn [fst snd] in Hup3, Hr3. subst r3.
  destruct (Hdel d3 k (st_write_opts s) Hup3) as [Hup4 Hr4].
  destruct (db_delete_opt d3 k (st_write_opts s)) as [d4 r4] eqn:Ed4.
  cbn [fst snd] in Hr4. subst r4.
  subst o1 o2. eexists. unfold spawn. cbn [map].
  erewrite schedule_cons; [|reflexivity|reflexivity].
  erewrite schedule_cons;
    [|reflexivity|unfold delete_prog; cbn [mbind prog_mbind prog_bind prog_step];
      rewrite Eg1; reflexivity].
  erewrite schedule_cons; [|reflexivity|reflexivity].
  erewrite schedule_cons;
    [|reflexivity|unfold delete_prog; cbn [mbind prog_mbind prog_bind prog_step
      set_db st_db]; rewrite Eg2; reflexivity].
  rewrite (bool_decide_true (is_Some _)) by done.
  erewrite schedule_cons;
    [|reflexivity|cbn [mbind prog_mbind prog_bind prog_step set_db st_db st_write_opts]; rewrite Ed3; reflexivity].
  erewrite schedule_cons;
    [|reflexivity|cbn [mbind prog_mbind prog_bind prog_step set_db st_db st_write_opts]; rewrite Ed4; reflexivity].
  reflexivity.
Qed.

(** A delete that runs alone and reports a deletion has found the key, and
    removes it. *)
Lemma delete_alone (s s' : store) k noreply :
  run_alone (command_prog (Delete k noreply)) s = Ret (s', [RDeleted]) ->
  is_Some (view s !! k) /\ view s' !! k = None.
Proof.
  cbn [command_prog run_alone]. rewrite run_alone_bind, run_delete. cbn [mbind outcome_bind mret outcome_ret].
  destruct (RocksStorage.delete s k) as [s1 r] eqn:Ed. apply delete_spec in Ed as (_ & _ & Hv & Hb).
  destruct r as [[]|e]; cbn [run_alone mret outcome_ret error_replies]; [|by intros [=]..].
  intros [= <-]. specialize (Hb true eq_refl). symmetry in Hb. apply bool_decide_eq_true in Hb.
  split; [done|]. destruct Hv as [->|[_ [e ?]]]; [|done]. by rewrite lookup_delete_eq.
Qed.

End race.

(** ** The properties *)

(** C27 Commands at the granularity of their database calls: alone, the calls
    of a command with its replies are exactly what the handler does; and in
    every interleaving of any commands, none panics, a lookup shows only
    values that were there at the start or that a command of the pool sets
    under that key, the database holds only such values, and a key that was
    there or whose set has been acknowledged can be gone only if a command
    deletes it or a value stored under it has expired.
    The system clock is assumed never to go back. *)
Theorem interleaving_safe `{RS : RocksDBSpec DB WO E} `{BM : BytesMut B} {IT : Itoa}
    {PR : Prometheus} {S} (s s' : Store DB WO) cmds (ts : list (Command * prog E (list reply))) :
  wf_db (db_view (st_db s)) -> clock_mono (st_clock s) -> Forall wf_command cmds ->
  pool_reaches (spawn s cmds) (s', ts) ->
  let m0 := db_view (st_db s) in
  let t0 := timestamp (st_clock s) in
  (forall (srv : Server.t DB WO S) cmd (w : ResponseWriter.t B),
     ('(srv', rs) ← run_server (command_prog cmd) srv; mret (srv', fold_left write_reply rs w)) =
     execute srv cmd w) /\
  (forall cmd p, (cmd, p) ∈ ts -> p <> Crash) /\
  (forall cmd rs, (cmd, Finish rs) ∈ ts -> replies_ok m0 t0 cmds rs) /\
  (forall k raw, db_view (st_db s') !! k = Some raw ->
     exists v, decode_spec raw = Some v /\ origin m0 t0 cmds k v) /\
  (forall k, is_Some (m0 !! k) \/ acked ts k -> db_view (st_db s') !! k = None ->
     removable m0 t0 cmds k (timestamp (st_clock s'))).
Proof.
  intros Hwf Hm Hcmds Hreach m0 t0.
  assert (Hok : pool_ok m0 t0 cmds (s', ts)) by by apply pool_reaches_ok.
  destruct Hok as [Hc Hl Ht _]. rewrite Forall_forall in Ht.
  split; [intros; apply run_command|]. split; [|split; [|by split]].
  - intros cmd p Hin ->. by destruct (Ht _ Hin).
  - intros cmd rs Hin. by destruct (Ht _ Hin).
Qed.

(** However the commands of a pool interleave and whatever the database
    answers, the pool makes at most the calls its commands add up to: three
    for each key of a get and four more, four for a set or a delete, none for
    the others; as long as one has neither answered nor panicked some command
    can go on, so no command waits for another. *)
Theorem commands_finish `{R : RocksDB DB WO E} (s : Store DB WO) cmds n
    (w : Store DB WO * list (Command * prog E (list reply))) :
  nsteps pool_step n (spawn s cmds) w ->
  (n <= sum_list (map calls cmds))%nat /\
  (forall i cmd p, snd w !! i = Some (cmd, p) ->
     (exists rs, p = Finish rs) \/ p = Crash \/
     exists s' p', prog_step (fst w) p = Some (s', p') /\
       pool_step w (s', <[i := (cmd, p')]> (snd w))) /\
  (n = sum_list (map calls cmds) ->
     forall cmd p, (cmd, p) ∈ snd w -> (exists rs, p = Finish rs) \/ p = Crash).
Proof.
  intros Hrun. destruct (run_within _ _ _ _ (spawn_within s cmds) Hrun) as [Hn Hw].
  split; [done|]. assert (Hgo : forall i cmd p, snd w !! i = Some (cmd, p) ->
     (exists rs, p = Finish rs) \/ p = Crash \/
     exists s' p', prog_step (fst w) p = Some (s', p') /\
       pool_step w (s', <[i := (cmd, p')]> (snd w))).
  { intros i cmd p Hi. destruct (prog_progress (fst w) p) as [?|[?|[[s' p'] Hp]]]; [auto..|].
    right; right. exists s', p'. split; [done|]. destruct w as [s1 ts]. by eapply pool_step_thread. }
  split; [exact Hgo|]. intros -> cmd p [i Hi]%list_elem_of_lookup.
  destruct (Hgo i cmd p Hi) as [?|[?|(s' & p' & _ & Hstep)]]; [auto..|].
  destruct (pool_step_within _ _ _ Hw Hstep) as (m & Hm & _). lia.
Qed.

(** While nothing expires and nobody deletes, the commands are atomic
    although they interleave call by call: for every pool of gets, sets and
    the other commands, and every state it reaches, there is an order of the
    commands that have taken effect in which each is one step of the abstract
    cache, executed between the start and now, such that the cache at the end
    is what the database holds and every command that has finished has given
    exactly the replies of its step. *)
Theorem pool_linearizable `{RS : RocksDBSpec DB WO E} c0 (s s' : Store DB WO) cmds
    (ts : list (Command * prog E (list reply))) :
  represents c0 s -> Forall wf_command cmds -> (forall k noreply, Delete k noreply ∉ cmds) ->
  let t0 := timestamp (st_clock s) in
  let T := timestamp (st_clock s') in
  (forall k v, origin (db_view (st_db s)) t0 cmds k v -> expired_at T v = false) ->
  pool_reaches (spawn s cmds) (s', ts) ->
  exists log c', linear t0 T c0 log c' /\ holds T c' (db_view (st_db s')) /\
    NoDup (map fst log) /\
    (forall i cmd rs, (i, (cmd, rs)) ∈ log -> cmds !! i = Some cmd) /\
    (forall i cmd rs, ts !! i = Some (cmd, Finish rs) ->
       (i, (cmd, rs)) ∈ log \/ command_prog (E := E) cmd = Finish rs).
Proof.
  intros Hrep Hcmds Hd t0 T Hexp Hreach.
  destruct (pool_log T c0 s cmds (s', ts) Hrep Hcmds Hd Hexp Hreach) as (_ & Hc & Hlog).
  destruct Hlog as (log & c & Hlin & Hh & Hnd & Hts & Hin); [cbn; lia|]. cbn [fst snd] in *.
  exists log, c. split_and!; [done..| |].
  - intros i cmd rs H1. destruct (Hin _ _ _ H1) as (p & Hi & _). rewrite <- Hc.
    change (fst <$> ts !! i = Some cmd) || change ((fst <$> ts) !! i = Some cmd).
    by rewrite list_lookup_fmap, Hi.
  - intros i cmd rs Hi. destruct (Hts _ _ _ Hi) as [[_ Hw]|(rs1 & H1 & Hs)].
    + right. destruct cmd as [ks|k flags exptime data noreply|k noreply| |]; try done.
      * destruct Hw as [[=]|Hw]. by destruct ks as [|? [|]].
      * destruct Hw as [[=]|[Hw|(now & _ & [=])]]. unfold new_value_prog in Hw.
        destruct (exptime =? 0); [done|]. by destruct (exptime <=? MAX_RELATIVE_TTL).
    + left. cbn in Hs. by subst rs1.
Qed.

(** C28 A lazy expiration can remove a fresh value: while an expired value is
    stored under a key, a get of the key and a set of a value that never
    expires can interleave so that the get finds nothing, the set is
    acknowledged, and the key is gone; in either sequential order the value
    would stay.
    The system clock is assumed never to go back. *)
Theorem lazy_delete_race `{RS : RocksDBSpec DB WO E} (up : DB -> Prop) (s : Store DB WO)
    k old flags data noreply :
  let set := Set_ k flags 0 data noreply in
  let fresh := with_expire_at flags 0 data in
  reliable (WO := WO) up -> up (st_db s) -> clock_mono (st_clock s) -> wf_db (db_view (st_db s)) ->
  db_view (st_db s) !! k = Some (encode old) -> wf_value old ->
  expired_at (timestamp (st_clock s)) old = true -> wf_command set ->
  (exists s', pool_reaches (spawn s [Get [k]; set])
     (s', [(Get [k], Finish [REnd]); (set, Finish [RStored])]) /\
     db_view (st_db s') !! k = None) /\
  (forall s1 s2 rs, run_alone (command_prog (Get [k])) s = Ret (s1, rs) ->
     run_alone (command_prog set) s1 = Ret (s2, [RStored]) ->
     db_view (st_db s2) !! k = Some (encode fresh)) /\
  (forall s1 s2 rs, run_alone (command_prog set) s = Ret (s1, [RStored]) ->
     run_alone (command_prog (Get [k])) s1 = Ret (s2, rs) ->
     db_view (st_db s2) !! k = Some (encode fresh)).
Proof.
  intros set fresh Hrel Hup Hm Hwf Hk Hold Hexp (_ & Hflags & _ & Hdata).
  assert (Hfresh : wf_value fresh)
    by (apply (wf_with_expire_at flags 0 0 data); [done|unfold u64_max; lia|lia|done]).
  split; [|split].
  - destruct (race_run up s k old flags data noreply Hrel Hup Hk Hold Hexp) as (s' & Hs & Hnone).
    exists s'. split; [by apply (schedule_reaches [0; 0; 0; 1; 1; 0; 0; 0]%nat)|done].
  - intros s1 s2 rs _. apply set_acked.
  - intros s1 s2 rs Hset. pose proof (set_acked _ _ _ _ _ _ Hset) as Hk1.
    apply get_keeps; [|done|done|done]. revert Hset. unfold set. cbn [command_prog run_alone].
    rewrite run_alone_bind, run_new_value.
    cbn [stored_value_new calculate_expire_at Z.eqb mbind outcome_bind mret outcome_ret].
    rewrite run_alone_bind, run_set. cbn [mbind outcome_bind mret outcome_ret].
    destruct (RocksStorage.set _ _ _) as [s1' r] eqn:Es. apply set_spec in Es as (_ & _ & Hv).
    intros Hret. assert (s1' = s1) as <- by (destruct r; by injection Hret).
    destruct Hv as [->|[-> _]]; [by apply wf_db_insert|done].
Qed.

(** C29 Two deletes of a key can both report that they have deleted it: each
    first reads whether the key exists, and both may read before either
    deletes; one after the other, the second would not find it.  The comment
    on [RocksStorage::delete] allows for this. *)
Theorem double_delete_race `{RS : RocksDBSpec DB WO E} (up : DB -> Prop) (s : Store DB WO)
    k nr1 nr2 :
  reliable (WO := WO) up -> up (st_db s) -> is_Some (db_view (st_db s) !! k) ->
  (exists s', pool_reaches (spawn s [Delete k nr1; Delete k nr2])
     (s', [(Delete k nr1, Finish [RDeleted]); (Delete k nr2, Finish [RDeleted])])) /\
  (forall s1 s2 rs, run_alone (command_prog (Delete k nr1)) s = Ret (s1, [RDeleted]) ->
     run_alone (command_prog (Delete k nr2)) s1 = Ret (s2, rs) -> rs <> [RDeleted]).
Proof.
  intros Hrel Hup Hk. split.
  - destruct (double_delete_run up s k nr1 nr2 Hrel Hup Hk) as [s' Hs]. exists s'.
    by apply (schedule_reaches [0; 0; 1; 1; 0; 1]%nat).
  - intros s1 s2 rs [_ Hnone]%delete_alone H2 ->. apply delete_alone in H2 as [[? H2] _]. congruence.
Qed.

(** ** Witnesses *)

Lemma ex_db_wf t : wf_db (db_view (st_db (ex_store ex_db t))).
Proof.
  intros k s Hk. unfold ex_db in Hk. cbn in Hk.
  apply (lookup_singleton_Some (M := gmap bytes)) in Hk as [_ <-]. split; vm_compute; discriminate.
Qed.

Definition ex_cmds : list Command :=
  [Get [str "k"]; Set_ (str "k") 1 60 (str "new") false; Get [str "k"; str "j"]].

(** Two lookups and a set of a key: nobody acknowledges another key. *)
Lemma interleaving_safe_witness :
  exists s' ts, pool_reaches (spawn (ex_store ex_db 5) ex_cmds) (s', ts) /\ ~ acked ts (str "j").
Proof.
  assert (Hreach : exists w, schedule [0; 0; 1; 1; 1; 2; 2]%nat (spawn (ex_store ex_db 5) ex_cmds) = Some w)
    by (eexists; reflexivity).
  destruct Hreach as [[s' ts] Hs]. apply schedule_reaches in Hs as Hreach.
  destruct (interleaving_safe (RS := ref_rocksdb_spec) (BM := ref_bytes_mut) (IT := ref_itoa)
    (PR := ref_prometheus) (S := Z) (ex_store ex_db 5) s' ex_cmds ts (ex_db_wf 5))
    as (_ & _ & _ & _ & Hlost); [| |exact Hreach|].
  - by eapply clock_frozen_mono, fixed_clock_frozen.
  - apply (bool_decide_unpack _). by vm_compute.
  - exists s', ts. split; [done|]. intros Hack.
    assert (Hnone : db_view (st_db s') !! str "j" = None) by (injection Hs as <- _; reflexivity).
    destruct (Hlost (str "j") (or_intror Hack) Hnone)
      as [[nr H]|(v & [H|(f & e & d & nr & now & H & _)] & _)].
    + by repeat (apply elem_of_cons in H as [[=]|H]); apply not_elem_of_nil in H.
    + discriminate H.
    + by repeat (apply elem_of_cons in H as [[=]|H]); apply not_elem_of_nil in H.
Defined.

(** The pool of the witness above: twenty-one calls at most. *)
Lemma commands_finish_witness :
  exists w : Store RefDB bool * list (Command * prog bytes (list reply)),
    nsteps pool_step 1 (spawn (ex_store ex_db 5) ex_cmds) w /\ (1 <= 21)%nat.
Proof.
  assert (Hstep : exists w, pool_step (spawn (ex_store ex_db 5) ex_cmds) w).
  { eexists. eapply (pool_step_thread _ _ _ 0%nat); reflexivity. }
  destruct Hstep as [w Hw]. exists w. assert (Hrun : nsteps pool_step 1 (spawn (ex_store ex_db 5) ex_cmds) w).
  { by apply nsteps_once. }
  split; [done|]. exact (proj1 (commands_finish _ _ _ _ Hrun)).
Defined.

Lemma lazy_delete_race_witness :
  exists s' : Store RefDB bool,
    pool_reaches (spawn (ex_store ex_db 2000) [Get [str "k"]; Set_ (str "k") 0 0 (str "new") false])
      (s', [(Get [str "k"], Finish [REnd]);
            (Set_ (str "k") 0 0 (str "new") false, Finish [RStored])]) /\
    db_view (st_db s') !! str "k" = None.
Proof.
  destruct (lazy_delete_race (RS := ref_rocksdb_spec) (fun d => rd_down d = false)
    (ex_store ex_db 2000) (str "k") ex_value 0 (str "new") false)
    as [(s' & Hs & Hn) _].
  - split; [|split]; cbn; unfold ref_read, ref_write; intros; rewrite H; cbn; eauto.
  - done.
  - by eapply clock_frozen_mono, fixed_clock_frozen.
  - apply ex_db_wf.
  - reflexivity.
  - repeat split; vm_compute; discriminate.
  - by vm_compute.
  - apply (bool_decide_unpack _). by vm_compute.
  - by exists s'.
Defined.

(** A set and a lookup of its key on a database with a value that is still
    alive; the lookup goes first. *)
Lemma pool_linearizable_witness :
  exists s' : Store RefDB bool, exists log c',
    linear 5 5 {[str "k" := ex_value]} log c' /\ holds 5 c' (db_view (st_db s')) /\
    log <> [].
Proof.
  set (cmds := [Set_ (str "k") 1 0 (str "new") false; Get [str "k"]]).
  set (s := ex_store ex_db 5).
  assert (Hreach : exists s' ts, schedule [1; 1; 1; 0; 0]%nat (spawn s cmds) = Some (s', ts) /\
    timestamp (st_clock s') = 5 /\
    ts !! 0%nat = Some (Set_ (str "k") 1 0 (str "new") false, Finish [RStored]))
    by (do 2 eexists; split; [reflexivity|split; reflexivity]).
  destruct Hreach as (s' & ts & Hs & HT & H0). apply schedule_reaches in Hs.
  destruct (pool_linearizable (RS := ref_rocksdb_spec) {[str "k" := ex_value]} s s' cmds ts)
    as (log & c' & Hlin & Hh & _ & _ & Hfin).
  - split_and!; [apply ex_db_wf|by eapply clock_frozen_mono, fixed_clock_frozen|].
    rewrite <- (insert_empty (M := gmap bytes) (str "k") ex_value).
    change (db_view (st_db s)) with (<[str "k" := encode ex_value]> (∅ : gmap bytes bytes)).
    apply holds_insert; [repeat split; vm_compute; discriminate|apply wf_empty_cache].
  - apply (bool_decide_unpack _). by vm_compute.
  - intros k nr H. by repeat (apply elem_of_cons in H as [[=]|H]); apply not_elem_of_nil in H.
  - rewrite HT. intros k v [Hst|(f & e & d & nr & now & H & _ & ->)].
    + unfold stored in Hst. destruct (db_view (st_db s) !! k) as [raw|] eqn:Ek; [|done].
      change (({[ str "k" := encode ex_value ]} : gmap bytes bytes) !! k = Some raw) in Ek.
      apply (lookup_singleton_Some (M := gmap bytes)) in Ek as [_ <-].
      assert (decode_spec (encode ex_value) = Some ex_value) as He by reflexivity.
      cbn [mbind option_bind] in Hst. rewrite He in Hst. by injection Hst as <-.
    + apply elem_of_cons in H as [[= -> -> -> -> ->]|H]; [done|].
      by repeat (apply elem_of_cons in H as [[=]|H]); apply not_elem_of_nil in H.
  - exact Hs.
  - rewrite HT in Hlin, Hh. exists s', log, c'. split_and!; [exact Hlin|exact Hh|].
    intros ->. by destruct (Hfin _ _ _ H0) as [?%not_elem_of_nil|[=]].
Defined.

Lemma double_delete_race_witness :
  exists s' : Store RefDB bool,
    pool_reaches (spawn (ex_store ex_db 5) [Delete (str "k") false; Delete (str "k") false])
      (s', [(Delete (str "k") false, Finish [RDeleted]); (Delete (str "k") false, Finish [RDeleted])]).
Proof.
  destruct (double_delete_race (RS := ref_rocksdb_spec) (fun d => rd_down d = false)
    (ex_store ex_db 5) (str "k") false false) as [[s' Hs] _].
  - split; [|split]; cbn; unfold ref_read, ref_write; intros; rewrite H; cbn; eauto.
  - done.
  - by eexists.
  - by exists s'.
Defined.
