(* ===== verification/OpenProps.v ===== *)
(** * Properties of opening the database

    What the storage returned by [open] is, on every branch, and that it
    represents a cache. *)

From S2P Require Import Prelude RustStd Extern Reference Errors Value Storage StorageFacts.
From S2P Require Import Config Open Examples StorageProps Spec HandlerProps.
#[local] Open Scope petra_scope.

(** The cache a database holds: every value that decodes. *)
Definition contents (m : gmap bytes bytes) : cache := omap decode_spec m.

Lemma holds_contents t m : wf_db m -> holds t (contents m) m.
Proof.
  intros Hwf. split.
  - intros t' _ k. unfold live, stored, contents. by rewrite lookup_omap.
  - intros k [s Hs]. destruct (wf_db_decodes _ _ _ Hwf Hs) as [v Hv].
    exists v. unfold contents. by rewrite lookup_omap, Hs.
Qed.

(** ** The parent directory *)

(** A component of a path, and a path that ends with a component that is not
    a mere ["."]. *)
Definition component (name : bytes) : Prop := name <> [] /\ SLASH ∉ name.

Definition ends_plain (dir : bytes) : Prop :=
  dir <> [] /\ last dir <> Some SLASH /\ ~ [SLASH; DOT] `suffix_of` dir.

(** The parent directory of a path: the root and the empty path have none,
    that of a single component is the empty path, and a slash at the end of
    a path does not count. *)
Inductive parent_dir : bytes -> option bytes -> Prop :=
| parent_empty : parent_dir [] None
| parent_root : parent_dir [SLASH] None
| parent_single name : component name -> parent_dir name (Some [])
| parent_in_root name : component name -> name <> [DOT] -> parent_dir (SLASH :: name) (Some [SLASH])
| parent_in dir name :
    component name -> name <> [DOT] -> ends_plain dir -> parent_dir (dir ++ SLASH :: name) (Some dir)
| parent_slash p d : p <> [] -> parent_dir p d -> parent_dir (p ++ [SLASH]) d.

Lemma drop_component_app r s :
  (SLASH ∉ r) -> drop_component (r ++ SLASH :: s) = SLASH :: s.
Proof.
  induction r as [|b r IH]; cbn; intros Hr; [done|].
  apply not_elem_of_cons in Hr as [? Hr]. rewrite bool_decide_false by done. by apply IH.
Qed.

Lemma drop_component_all r : (SLASH ∉ r) -> drop_component r = [].
Proof.
  induction r as [|b r IH]; cbn; intros Hr; [done|].
  apply not_elem_of_cons in Hr as [? Hr]. rewrite bool_decide_false by done. by apply IH.
Qed.

Lemma rev_component name : component name -> (SLASH ∉ rev name) /\ rev name <> [].
Proof.
  intros [Hne Hn]. rewrite list_elem_of_In, <- in_rev, <- list_elem_of_In. split; [done|].
  intros H. apply (f_equal (@rev _)) in H. by rewrite rev_involutive in H.
Qed.

(** Nothing is trimmed after a component that is not ["."]. *)
Lemma trim_back_plain r :
  head r <> Some SLASH -> ~ [DOT; SLASH] `prefix_of` r -> trim_back r = r.
Proof.
  destruct r as [|b r]; [done|]. cbn [trim_back head]. intros Hs Hd.
  rewrite bool_decide_false by congruence.
  destruct (bool_decide (b = DOT)) eqn:Eb; [|done]. apply bool_decide_eq_true in Eb as ->.
  rewrite bool_decide_false; [done|]. intros Hr. apply Hd. destruct r as [|c r]; [done|].
  injection Hr as ->. by exists r.
Qed.

Lemma trim_back_component name s :
  component name -> name <> [DOT] \/ s = [] -> trim_back (rev name ++ s) = rev name ++ s.
Proof.
  intros Hname Hd. destruct (rev_component name Hname) as [Hr Hne].
  assert (Hd' : rev name <> [DOT] \/ s = []).
  { destruct Hd as [Hd|Hd]; [left|by right]. intros H. apply Hd.
    apply (f_equal (@rev _)) in H. by rewrite rev_involutive in H. }
  destruct (rev name) as [|b r]; [done|]. apply not_elem_of_cons in Hr as [Hb Hr]. apply trim_back_plain.
  - cbn. congruence.
  - intros [k H]. destruct r as [|c r]; cbn in H; simplify_eq; [|by apply Hr; left].
    by destruct Hd' as [?|?].
Qed.

Lemma path_parent_spec p d : parent_dir p d -> path_parent p = d.
Proof.
  unfold path_parent. induction 1 as [| |name Hn|name Hn Hd|dir name Hn Hd Hdir|p d Hp _ IH]; [done|done|..].
  - destruct (rev_component name Hn) as [Hs Hne]. pose proof (trim_back_component name [] Hn) as Ht.
    rewrite app_nil_r in Ht. rewrite Ht by by right. rewrite !bool_decide_false by (done || (intros E; apply Hs; rewrite E; by left)).
    cbn [orb]. by rewrite drop_component_all.
  - destruct (rev_component name Hn) as [Hs Hne]. cbn [rev]. rewrite trim_back_component by auto.
    rewrite !bool_decide_false by (by destruct (rev name) as [|? []]).
    cbn [orb]. by rewrite drop_component_app.
  - destruct (rev_component name Hn) as [Hs Hne]. destruct Hdir as (Hdne & Hl & Hdot).
    rewrite rev_app_distr. cbn [rev]. rewrite <- app_assoc. cbn [app].
    rewrite trim_back_component by auto.
    rewrite !bool_decide_false by (by destruct (rev name) as [|? []]).
    cbn [orb]. rewrite drop_component_app by done. do 2 f_equal.
    destruct (rev dir) as [|b r] eqn:Er.
    { by apply (f_equal (@rev _)) in Er; rewrite rev_involutive in Er. }
    change (trim_back (SLASH :: b :: r)) with (trim_back (b :: r)).
    assert (Ed : dir = rev (b :: r)) by (by rewrite <- Er, rev_involutive).
    rewrite trim_back_plain; [by rewrite <- Ed| |].
    + intros [= ->]. apply Hl. rewrite Ed. cbn [rev]. by rewrite last_snoc.
    + intros [k H]. apply Hdot. exists (rev k). rewrite Ed, H. by rewrite rev_app_distr.
  - rewrite rev_app_distr. cbn [rev app].
    assert (Ht : trim_back (SLASH :: rev p) = trim_back (rev p)).
    { destruct (rev p) eqn:Er; [|done]. by apply (f_equal (@rev _)) in Er; rewrite rev_involutive in Er. }
    by rewrite Ht.
Qed.

(** A disk with one database, on which nothing fails. *)
#[export] Instance ref_disk : Disk RefDB RefDB bytes := {|
  create_dir_all fs _ := (fs, Ok tt);
  db_open fs _ _ := (fs, Ok fs);
|}.

(** C39 Opening the storage: if the path has a parent directory it is created
    first, and when this fails the database is not opened and the error says
    so; the root and the empty path have none, and a single component has the
    empty path.  Otherwise the result is RocksDB's, opened once under the
    configured path with the configured options.  On success every write
    bypasses the log, the TTL filter is installed exactly when the
    configuration enables it, the counters are as before, and the storage
    represents the cache of everything the database held.  This is for the
    paths of [parent_dir], which leaves out only those with a doubled slash
    or a component ["."] at their last component.  The system clock is
    assumed never to go back. *)
Theorem open_spec `{RS : RocksDBSpec DB WO E} {FS : Type} {D : Disk FS DB E}
    (fs fs' : FS) config parent c expired compacted (r : result (Store DB WO) (StorageError E)) :
  parent_dir (StorageConfig.db_path config) parent -> clock_mono c ->
  open fs config c expired compacted = (fs', r) ->
  let '(fs1, created) :=
    match parent with Some dir => create_dir_all fs dir | None => (fs, Ok tt) end in
  let '(fs2, opened) := db_open fs1 (db_opts config) (StorageConfig.db_path config) in
  match created, opened with
  | Err e, _ => fs' = fs1 /\ r = Err (Internal (str "Failed to create directory: " ++ e))
  | Ok _, Err e => fs' = fs2 /\ r = Err (RocksDb e)
  | Ok _, Ok db => fs' = fs2 /\ exists st, r = Ok st /\ st_db st = db /\
      st_write_opts st = wo_disable_wal wo_default true /\
      st_ttl_filter st = StorageConfig.enable_ttl_compaction config /\
      RocksStorage.ttl_stats st = {| stats_expired_removed := expired; stats_compaction_removed := compacted |} /\
      (wf_db (db_view db) -> represents (contents (db_view db)) st)
  end.
Proof.
  intros Hp Hc. unfold open. rewrite (path_parent_spec _ _ Hp).
  assert (Hdb : forall fs1 : FS, open_db fs1 config (db_opts config) c expired compacted = (fs', r) ->
    let '(fs2, opened) := db_open fs1 (db_opts config) (StorageConfig.db_path config) in
    match opened with
    | Err e => fs' = fs2 /\ r = Err (RocksDb e)
    | Ok db => fs' = fs2 /\ exists st, r = Ok st /\ st_db st = db /\
        st_write_opts st = wo_disable_wal wo_default true /\
        st_ttl_filter st = StorageConfig.enable_ttl_compaction config /\
        RocksStorage.ttl_stats st =
          {| stats_expired_removed := expired; stats_compaction_removed := compacted |} /\
        (wf_db (db_view db) -> represents (contents (db_view db)) st)
    end).
  { intros fs1. unfold open_db. destruct (db_open fs1 _ _) as [fs2 [db|e]]; intros [= <- <-]; [|done].
    split; [done|]. eexists. split; [done|]. split; [done|]. split; [done|].
    split; [apply has_filter_db_opts|]. split; [done|].
    intros Hwf. split; [done|]. split; [done|]. by apply holds_contents. }
  destruct parent as [dir|]; [|apply Hdb].
  destruct (create_dir_all fs dir) as [fs1 [[]|e]]; [apply Hdb|].
  intros [= <- <-]. by destruct (db_open _ _ _).
Qed.

Lemma open_spec_witness :
  exists st : Store RefDB bool,
    open (FS := RefDB) {| rd_map := ex_db; rd_down := false |} StorageConfig.default
      (fixed_clock 5) 0 0 = ({| rd_map := ex_db; rd_down := false |}, Ok st) /\
    st_ttl_filter st = true.
Proof.
  exists (ex_store ex_db 5). split; [reflexivity|].
  destruct (open_spec (RS := ref_rocksdb_spec) (FS := RefDB) {| rd_map := ex_db; rd_down := false |}
    {| rd_map := ex_db; rd_down := false |} StorageConfig.default (Some (str "./data"))
    (fixed_clock 5) 0 0 (Ok (ex_store ex_db 5))) as (_ & st & Hst & _ & _ & Hf & _).
  - apply (parent_in (str "./data") (str "rocksdb")); [split; by_compute|done|].
    split; [done|]. split; [by vm_compute|]. intros [k Hk].
    apply (f_equal last) in Hk. change [SLASH; DOT] with ([SLASH] ++ [DOT]) in Hk.
    rewrite app_assoc, last_snoc in Hk. discriminate Hk.
  - by eapply clock_frozen_mono, fixed_clock_frozen.
  - reflexivity.
  - injection Hst as <-. exact Hf.
Defined.
