(* ===== verification/ConnectionFacts.v ===== *)
(** * Facts about the connection loop

    The invariant that relates the pending command to the buffer, and what
    every arm of the inner loop does to the connection. *)

From S2P Require Import Prelude RustStd Extern Reference Errors Command Parser ParserFacts ParserProps.
From S2P Require Import Value Storage StorageFacts StorageProps Response Metrics Config ServerState.
From S2P Require Import Handler Spec HandlerProps Connection.
#[local] Open Scope petra_scope.

Section facts.
Context (pf : profile) `{MCS : MemchrSpec} `{RS : RocksDBSpec DB WO E} `{BMS : BytesMutSpec B}.
Context `{ITS : ItoaSpec} {PR : Prometheus} {S : Type} `{TSS : TcpStreamSpec T IO}.

Abbreviation server := (Server.t DB WO S).
Abbreviation connection := (Connection.conn T B).

(** The bytes waiting in the read buffer, the bytes of the replies not yet
    sent and the bytes sent. *)
Definition waiting (c : connection) : bytes := bm_bytes (Connection.read_buf c).
Definition unsent (c : connection) : bytes := ResponseWriter.buffer (Connection.response c).
Definition sent (c : connection) : bytes := stream_sent (Connection.stream c).

(** The invariant between two rounds: a pending command is the set command
    whose line the buffer starts with. *)
Definition conn_ok (c : connection) : Prop :=
  match Connection.pending_storage c with
  | Some p => parse_storage_command_line pf (waiting c) = Ret (Ok (Some p))
  | None => True
  end.

(** A task between two rounds. *)
Definition task_ok (c : connection) : Prop :=
  conn_ok c /\ slice_ok (waiting c) /\ unsent c = [].

(** The connection without the memory of its pending command. *)
Definition forget (c : connection) : connection :=
  {| Connection.stream := Connection.stream c; Connection.read_buf := Connection.read_buf c;
     Connection.response := Connection.response c; Connection.pending_storage := None |}.

(** What the client sees of the response [w] to [cmd]. *)
Definition visible (cmd : Command) (out : bytes) : bytes :=
  if is_noreply cmd then [] else out.

(** ** The next parse *)

Lemma next_parse_ok (c : connection) :
  conn_ok c -> slice_ok (waiting c) -> Connection.next_parse pf c = parse pf (waiting c).
Proof.
  unfold conn_ok, Connection.next_parse, waiting. intros Hc Hok.
  destruct (Connection.pending_storage c) as [p|]; [|done].
  rewrite <- (app_nil_r (bm_bytes _)) in Hok |- * at 2.
  rewrite (parse_need_more_pending pf _ p); [by rewrite app_nil_r| |done|done].
  by apply slice_ok_app_l in Hok.
Qed.

Lemma process_one_forget (s : server) (c : connection) :
  conn_ok c -> slice_ok (waiting c) ->
  Connection.process_one pf s c = Connection.process_one pf s (forget c).
Proof.
  intros Hc Hok. unfold Connection.process_one.
  rewrite (next_parse_ok c), (next_parse_ok (forget c)) by done. change (waiting (forget c)) with (waiting c).
  destruct (parse pf (waiting c)) as [[cmd n| |e]|]; cbn [mbind outcome_bind]; [done| |done|done].
  unfold Connection.on_need_more, conn_ok, waiting in *. cbn.
  destruct (Connection.pending_storage c) as [p|]; [by rewrite Hc|done].
Qed.

(** ** Sending *)

Lemma bm_split_to_app (b : B) s t :
  bm_bytes b = s ++ t ->
  exists front rest, bm_split_to b (len s) = Some (front, rest) /\ bm_bytes rest = t.
Proof. intros H. destruct (bm_split_to_ok b s t H) as (f & r & ? & _ & ?). eauto. Qed.

(** What sending leaves alone. *)
Definition same_state (s s' : server) : Prop :=
  Server.storage s' = Server.storage s /\ same_server s s'.

Lemma same_state_refl s : same_state s s.
Proof. by split_and!. Qed.

Lemma same_server_trans (s1 s2 s3 : server) :
  same_server s1 s2 -> same_server s2 s3 -> same_server s1 s3.
Proof.
  unfold same_server. intros (? & ? & ? & ? & ?) (? & ? & ? & ? & ?).
  repeat split; try congruence; by eapply same_config_trans.
Qed.

Lemma same_state_trans s1 s2 s3 : same_state s1 s2 -> same_state s2 s3 -> same_state s1 s3.
Proof.
  intros [H1 Hs1] [H2 Hs2]. split; [congruence|by eapply same_server_trans].
Qed.

Lemma send_spec (s : server) (c : connection) s' c' r :
  Connection.send s c = (s', c', r) ->
  same_state s s' /\ waiting c' = waiting c /\
  Connection.pending_storage c' = Connection.pending_storage c /\
  (exists part, sent c' = sent c ++ part /\ part `prefix_of` unsent c /\
     (r = Ok tt -> part = unsent c)) /\ unsent c' = [].
Proof.
  unfold Connection.send. destruct (ResponseWriter.take _) as [b w] eqn:Et.
  pose proof (text_take (Connection.response c)) as [Hb Hw]. rewrite Et in Hb, Hw. cbn in Hb, Hw.
  destruct (stream_write_all _ _) as [t r'] eqn:Ew. intros [= <- <- <-].
  apply stream_write_sent in Ew as (part & Hp & Hpre & Hr). rewrite Hb in Hpre, Hr.
  split; [by split_and!|]. split; [done|]. split; [done|]. split.
  - exists part. split_and!; [done|done|done].
  - unfold unsent. cbn. destruct r'; [by rewrite text_clear|done].
Qed.

(** ** The arms *)

(** How an arm ends, by what it had to send and has sent. *)
Definition arm_end (quit : bool) (out part : bytes) (e : option (Connection.exit IO)) : Prop :=
  match e with
  | None => quit = false /\ part = out
  | Some (Connection.Return (Ok _)) => quit = true /\ part = out
  | Some (Connection.Return (Err _)) => part `prefix_of` out
  | Some _ => False
  end.

Lemma on_complete_spec (s : server) (c : connection) cmd front rest s1 w :
  waiting c = front ++ rest -> execute s cmd (Connection.response c) = Ret (s1, w) ->
  exists s' c' e part, Connection.on_complete s c cmd (len front) = Ret (s', c', e) /\
    same_state s1 s' /\ waiting c' = rest /\ Connection.pending_storage c' = None /\
    unsent c' = [] /\ sent c' = sent c ++ part /\
    arm_end (Connection.is_quit cmd) (visible cmd (ResponseWriter.buffer w)) part e.
Proof.
  intros Hb He. unfold Connection.on_complete. rewrite He. cbn [mbind outcome_bind].
  destruct (bm_split_to_app (Connection.read_buf c) front rest Hb) as (f & rb & -> & Hrb).
  cbn [unwrap mbind outcome_bind]. rewrite is_empty_text. unfold visible.
  destruct (negb (is_noreply cmd) && negb (bool_decide (ResponseWriter.buffer w = []))) eqn:Ec.
  - apply andb_true_iff in Ec as [Hn Hne]. zbool. rewrite Hn.
    destruct (Connection.send _ _) as [[s' c'] r] eqn:Es. apply send_spec in Es
      as (Hst & Hw & Hp & (part & Hpart & Hpre & Hr) & Hu).
    change (unsent _) with (ResponseWriter.buffer w) in Hpre, Hr at 1.
    destruct r as [[]|err]; (do 3 eexists; exists part; split; [done|]).
    + split_and!; try done; [apply Hst..|by rewrite Hw|].
      rewrite (Hr eq_refl). by destruct (Connection.is_quit cmd).
    + split_and!; try done; [apply Hst..|by rewrite Hw].
  - do 3 eexists. exists []. split; [done|]. split_and!; try done.
    + unfold unsent. cbn. apply text_clear.
    + by rewrite app_nil_r.
    + assert ((if is_noreply cmd then [] else ResponseWriter.buffer w) = []) as ->.
      { destruct (is_noreply cmd); [done|]. cbn in Ec. zbool. by apply bool_decide_eq_true in Ec. }
      by destruct (Connection.is_quit cmd).
Qed.

Lemma on_need_more_spec (s : server) (c : connection) s' c' (e : option (Connection.exit IO)) :
  conn_ok c -> Connection.on_need_more pf s c = Ret (s', c', e) ->
  s' = s /\ e = Some Connection.Break /\ waiting c' = waiting c /\ conn_ok c' /\
  unsent c' = unsent c /\ sent c' = sent c.
Proof.
  unfold Connection.on_need_more, conn_ok, waiting. intros Hc H.
  destruct (Connection.pending_storage c) as [p|].
  - cbn [mbind outcome_bind] in H. outcome_inv. split_and!; done.
  - destruct (parse_storage_command_line _ _) as [r|] eqn:Er; [|done].
    cbn [mbind outcome_bind mret outcome_ret] in H. outcome_inv. split_and!; try done. cbn.
    by destruct r as [[p|]|err].
Qed.

Lemma connection_find_crlf buf : Connection.find_crlf pf buf = find_crlf pf buf.
Proof. done. Qed.

(** Recovery drops the first line, the one the error belongs to. *)
Lemma on_error_spec (s : server) (c : connection) line rest err :
  waiting c = line ++ CRLF ++ rest -> (CR ∉ line) -> slice_ok (waiting c) ->
  exists s' c' e part, Connection.on_error pf s c err = Ret (s', c', e) /\
    same_state s s' /\ waiting c' = rest /\ Connection.pending_storage c' = None /\
    unsent c' = [] /\ sent c' = sent c ++ part /\
    (let out := unsent c ++ print_reply (RClientError (ProtocolError_display err)) in
     (e = Some Connection.Break /\ part = out) \/
     (exists io, e = Some (Connection.Return (Err io)) /\ part `prefix_of` out)).
Proof.
  intros Hb Hl Hok. unfold Connection.on_error. rewrite connection_find_crlf.
  change (bm_bytes (Connection.read_buf c)) with (waiting c). rewrite Hb in *.
  apply line_lens in Hok as ?. rewrite find_crlf_line by done. cbn [mbind outcome_bind].
  rewrite usize_add_ok by (unfold_max; lia). cbn [mbind outcome_bind].
  replace (len line + 2) with (len (line ++ CRLF)) by (by rewrite len_app, len_CRLF).
  destruct (bm_split_to_app (Connection.read_buf c) (line ++ CRLF) rest) as (f & rb & -> & Hrb).
  { change (waiting c = (line ++ CRLF) ++ rest). by rewrite Hb, <- app_assoc. }
  cbn [unwrap mbind outcome_bind mret outcome_ret].
  destruct (Connection.send _ _) as [[s' c'] r] eqn:Es. apply send_spec in Es
    as (Hst & Hw & Hp & (part & Hpart & Hpre & Hr) & Hu).
  change (ResponseWriter.client_error ?w ?m) with (write_reply w (RClientError m)) in Hpre, Hr.
  unfold unsent in Hpre, Hr at 1. cbn [Connection.response] in Hpre, Hr.
  rewrite text_write_reply in Hpre, Hr by done.
  destruct r as [[]|io]; (do 3 eexists; exists part; split; [done|]);
    (split_and!; try done; [apply Hst..|by rewrite Hw|]).
  - left. split; [done|]. by apply Hr.
  - right. by exists io.
Qed.

(** ** One round of the inner loop *)

Lemma parse_storage_command_line_total buf :
  slice_ok buf -> exists r, parse_storage_command_line pf buf = Ret r.
Proof.
  intros Hok. destruct (find_crlf_cases pf buf Hok) as [(line & rest & -> & Hl & _)|Hn].
  - rewrite parse_storage_command_line_eq by done. destruct (iter_next _); eauto.
  - unfold parse_storage_command_line. rewrite Hn. cbn. eauto.
Qed.

(** The invariant of the loop: the connection between two rounds, on a
    storage that holds the cache [ca]. *)
Definition ready (s : server) (c : connection) (ca : cache) : Prop :=
  conn_ok c /\ slice_ok (waiting c) /\ unsent c = [] /\ represents ca (Server.storage s).

(** The four ways a round can go, by what the buffer parses to. *)
Inductive round (s : server) (c : connection) (ca : cache) :
    outcome (server * connection * option (Connection.exit IO)) -> Prop :=
| round_panic : parse pf (waiting c) = Panic -> round s c ca Panic
| round_command cmd front s' c' ca' rs e part :
    waiting c = front ++ waiting c' -> front <> [] ->
    parse pf (waiting c) = Ret (Complete cmd (len front)) ->
    cache_step (db_fails (Server.storage s) cmd) (timestamp (st_clock (Server.storage s)))
      (timestamp (st_clock (Server.storage s'))) ca cmd ca' rs ->
    same_server s s' -> ready s' c' ca' -> sent c' = sent c ++ part ->
    arm_end (Connection.is_quit cmd) (visible cmd (print_replies rs)) part e ->
    round s c ca (Ret (s', c', e))
| round_wait c' :
    parse pf (waiting c) = Ret NeedMoreData -> waiting c' = waiting c -> sent c' = sent c ->
    ready s c' ca -> round s c ca (Ret (s, c', Some Connection.Break))
| round_error err line s' c' e part :
    waiting c = line ++ CRLF ++ waiting c' -> (CR ∉ line) ->
    parse pf (waiting c) = Ret (Error err) ->
    same_state s s' -> ready s' c' ca -> sent c' = sent c ++ part ->
    (let out := print_reply (RClientError (ProtocolError_display err)) in
     (e = Some Connection.Break /\ part = out) \/
     (exists io, e = Some (Connection.Return (Err io)) /\ part `prefix_of` out)) ->
    round s c ca (Ret (s', c', e)).

Lemma slice_ok_app_r (s t : bytes) : slice_ok (s ++ t) -> slice_ok t.
Proof. unfold slice_ok. rewrite len_app. pose proof (len_nonneg s). lia. Qed.

Lemma process_one_round s c ca :
  ready s c ca -> round s c ca (Connection.process_one pf s c).
Proof.
  intros (Hc & Hok & Hu & Hrep). unfold Connection.process_one. rewrite next_parse_ok by done.
  destruct (parse pf (waiting c)) as [[cmd n| |err]|] eqn:Ep; cbn [mbind outcome_bind].
  - destruct (parse_complete_split pf _ _ _ Hok Ep) as (front & rest & Hb & -> & Hn & Hwf & _).
    destruct (execute_implements s cmd (Connection.response c) ca Hwf Hrep)
      as (s1 & w & ca' & rs & He & Hstep & Htext & Hrep' & Hsame).
    destruct (on_complete_spec s c cmd front rest s1 w Hb He)
      as (s' & c' & e & part & -> & [Hst Hsame'] & Hw & Hp & Hu' & Hsent & Hend).
    change (ResponseWriter.buffer (Connection.response c)) with (unsent c) in Htext.
    rewrite Hu in Htext. rewrite Htext in Hend. rewrite <- Hw in Hb.
    eapply round_command; [exact Hb| |done|..|exact Hsent|exact Hend].
    + intros ->. by rewrite len_nil in Hn.
    + rewrite Hst. exact Hstep.
    + by eapply same_server_trans.
    + split_and!; [by unfold conn_ok; rewrite Hp| |done|by rewrite Hst].
      rewrite Hb in Hok. by apply slice_ok_app_r in Hok.
  - destruct (Connection.on_need_more pf s c) as [[[s' c'] e]|] eqn:En.
    + apply on_need_more_spec in En as (-> & -> & Hw & Hc' & Hu' & Hs); [|done].
      apply round_wait; [done..|]. split_and!; [done|by rewrite Hw|by rewrite Hu'|done].
    + exfalso. unfold Connection.on_need_more in En.
      destruct (Connection.pending_storage c); [done|].
      destruct (parse_storage_command_line_total _ Hok) as [r Hr].
      unfold waiting in Hr. by rewrite Hr in En.
  - destruct (parse_error_line pf _ _ Hok Ep) as (_ & line & rest & Hb & Hl & _).
    destruct (on_error_spec s c line rest err Hb Hl Hok)
      as (s' & c' & e & part & -> & Hst & Hw & Hp & Hu' & Hsent & Hend).
    rewrite Hu in Hend. rewrite <- Hw in Hb.
    eapply round_error; [exact Hb|done|done|done| |done|exact Hend].
    split_and!; [by unfold conn_ok; rewrite Hp| |done|].
    + rewrite Hb in Hok. by apply slice_ok_app_r, slice_ok_app_r in Hok.
    + destruct Hst as [-> _]. done.
  - by apply round_panic.
Qed.

End facts.
