(* ===== verification/Script.v ===== *)
(** * Connections as scripts of commands (src/server/connection.rs)

    A round of a connection, as seen by the storage, is a sequence of
    commands with the connection's own computation in between: what it does
    next depends on the stream and on the replies alone.  A script is that
    computation; [execute] of a command is a call, which other connections
    may interleave.  The functions are those of [Connection.v]. *)

From S2P Require Import Prelude RustStd Extern Errors Command Parser Value Storage Response.
From S2P Require Import Metrics Config ServerState Handler Spec Interleave Connection.
#[local] Open Scope petra_scope.

(** What is left of a round: it has ended with a result, or panicked, or
    updates the metrics, or executes a command and goes on with its replies. *)
Inductive script (A : Type) : Type :=
| Stop (a : A)
| Fault
| Meter (u : meter) (next : script A)
| Call (cmd : Command) (next : list reply -> script A).
Arguments Stop {A} a.
Arguments Fault {A}.
Arguments Meter {A} u next.
Arguments Call {A} cmd next.

Fixpoint script_bind {A B} (f : A -> script B) (p : script A) : script B :=
  match p with
  | Stop a => f a
  | Fault => Fault
  | Meter u next => Meter u (script_bind f next)
  | Call cmd next => Call cmd (fun rs => script_bind f (next rs))
  end.

#[export] Instance script_mret : MRet script := @Stop.
#[export] Instance script_mbind : MBind script := @script_bind.

(** The connection's own computation. *)
Definition pure_script {A} (o : outcome A) : script A :=
  match o with
  | Ret a => Stop a
  | Panic => Fault
  end.

Module Script.
Section script.
Context (pf : profile) {MC : Memchr} `{BM : BytesMut B} {IT : Itoa} `{TS : TcpStream T IO}.

Abbreviation connection := (Connection.conn T B).

Definition send (c : connection) : script (connection * result unit IO) :=
  let '(buf, response) := ResponseWriter.take (Connection.response c) in
  Meter (MIncBy Metrics.Bytes_written (len (bm_bytes buf)))
    (let '(t, r) := stream_write_all (Connection.stream c) (bm_bytes buf) in
     mret ({| Connection.stream := t; Connection.read_buf := Connection.read_buf c;
              Connection.response :=
                match r with Ok _ => ResponseWriter.clear response | Err _ => response end;
              Connection.pending_storage := Connection.pending_storage c |}, r)).

Definition on_complete (c : connection) (cmd : Command) (consumed : Z) :
    script (connection * option (Connection.exit IO)) :=
  let should_quit := Connection.is_quit cmd in
  let noreply := is_noreply cmd in
  Call cmd (fun rs =>
    let response := fold_left write_reply rs (Connection.response c) in
    '(_, read_buf) ← pure_script (unwrap (bm_split_to (Connection.read_buf c) consumed));
    let c := {| Connection.stream := Connection.stream c; Connection.read_buf := read_buf;
                Connection.response := response; Connection.pending_storage := None |} in
    let finish c :=
      mret (c, if should_quit then Some (Connection.Return (Ok tt)) else None) in
    if negb noreply && negb (ResponseWriter.is_empty response) then
      '(c, r) ← send c;
      match r with
      | Ok _ => finish c
      | Err e => mret (c, Some (Connection.Return (Err e)))
      end
    else finish {| Connection.stream := Connection.stream c; Connection.read_buf := read_buf;
                   Connection.response := ResponseWriter.clear response;
                   Connection.pending_storage := None |}).

Definition on_need_more (c : connection) : script (connection * option (Connection.exit IO)) :=
  pending ← pure_script
    match Connection.pending_storage c with
    | None =>
        r ← parse_storage_command_line pf (bm_bytes (Connection.read_buf c));
        mret (match r with Ok (Some pending) => Some pending | _ => None end)
    | Some pending => mret (Some pending)
    end;
  mret ({| Connection.stream := Connection.stream c; Connection.read_buf := Connection.read_buf c;
           Connection.response := Connection.response c;
           Connection.pending_storage := pending |}, Some Connection.Break).

Definition on_error (c : connection) (e : ProtocolError) :
    script (connection * option (Connection.exit IO)) :=
  Meter (MInc Metrics.Protocol_errors) (
  let response := ResponseWriter.client_error (Connection.response c) (ProtocolError_display e) in
  read_buf ← pure_script (
    crlf ← Connection.find_crlf pf (bm_bytes (Connection.read_buf c));
    match crlf with
    | Some pos =>
        n ← pos +[pf] 2;
        '(_, read_buf) ← unwrap (bm_split_to (Connection.read_buf c) n);
        mret read_buf
    | None => mret (bm_clear (Connection.read_buf c))
    end);
  '(c, r) ← send {| Connection.stream := Connection.stream c; Connection.read_buf := read_buf;
                    Connection.response := response; Connection.pending_storage := None |};
  match r with
  | Ok _ => mret (c, Some Connection.Break)
  | Err e => mret (c, Some (Connection.Return (Err e)))
  end).

Definition process_one (c : connection) : script (connection * option (Connection.exit IO)) :=
  parse_result ← pure_script (Connection.next_parse pf c);
  match parse_result with
  | Complete cmd consumed => on_complete c cmd consumed
  | NeedMoreData => on_need_more c
  | Error e => on_error c e
  end.

Fixpoint process (fuel : nat) (c : connection) : script (connection * Connection.exit IO) :=
  match fuel with
  | O => mret (c, Connection.OutOfFuel)
  | S fuel =>
      '(c, e) ← process_one c;
      match e with
      | Some e => mret (c, e)
      | None => process fuel c
      end
  end.

Definition leave (c : connection) : script (connection * Connection.status IO) :=
  Meter MDecActive (mret (c, Connection.Done (Ok tt))).

Definition on_read (c : connection) (r : result bytes IO) :
    script (connection * Connection.status IO) :=
  match r with
  | Ok [] => leave c
  | Ok chunk =>
      Meter (MIncBy Metrics.Bytes_read (len chunk)) (
      let c := {| Connection.stream := Connection.stream c;
                  Connection.read_buf := bm_extend_from_slice (Connection.read_buf c) chunk;
                  Connection.response := Connection.response c;
                  Connection.pending_storage := Connection.pending_storage c |} in
      '(c, e) ← process (Datatypes.S (length (bm_bytes (Connection.read_buf c)))) c;
      mret match e with
           | Connection.Break => (c, Connection.Running)
           | Connection.Return r => (c, Connection.Done r)
           | Connection.OutOfFuel => (c, Connection.Stuck)
           end)
  | Err _ => leave c
  end.

Definition turn (c : connection) (cancelled : bool) : script (connection * Connection.status IO) :=
  if cancelled then leave c
  else
    let '(t, r) := stream_read (Connection.stream c) in
    on_read {| Connection.stream := t; Connection.read_buf := Connection.read_buf c;
               Connection.response := Connection.response c;
               Connection.pending_storage := Connection.pending_storage c |} r.

End script.

(** A script that nobody interrupts. *)
Section run.
Context `{R : RocksDB DB WO E} {PR : Prometheus} {S : Type}.

Fixpoint run {A} (p : script A) (s : Server.t DB WO S) : outcome (Server.t DB WO S * A) :=
  match p with
  | Stop a => mret (s, a)
  | Fault => Panic
  | Meter u next => run next (apply_meter s u)
  | Call cmd next =>
      '(s, rs) ← run_server (command_prog cmd) s;
      run (next rs) s
  end.

End run.
End Script.
