(* ===== verification/ScriptFacts.v ===== *)
(** * Facts about scripts

    A script that nobody interrupts is the round of [Connection.v]; and what
    every script of a round does to its connection, whatever the replies. *)

From S2P Require Import Prelude RustStd Extern Reference Errors Command Parser ParserFacts ParserProps.
From S2P Require Import Value Storage StorageFacts StorageProps Response Metrics Config ServerState.
From S2P Require Import Handler Spec HandlerProps Interleave InterleaveFacts Connection.
From S2P Require Import ConnectionFacts Script.
#[local] Open Scope petra_scope.

(** ** Alone *)

Section alone.
Context (pf : profile) {MC : Memchr} `{R : RocksDB DB WO E} `{BM : BytesMut B} {IT : Itoa}.
Context {PR : Prometheus} {S : Type} `{TS : TcpStream T IO}.

Abbreviation server := (Server.t DB WO S).
Abbreviation connection := (Connection.conn T B).

(** The result of a function of [Connection.v], as a script gives it. *)
Definition paired {A} (o : outcome (server * connection * A)) :
    outcome (server * (connection * A)) :=
  '(s, c, a) ← o; mret (s, (c, a)).

Lemma script_run_bind {A C} (f : A -> script C) p (s : server) :
  Script.run (p ≫= f) s = ('(s, a) ← Script.run p s; Script.run (f a) s).
Proof.
  unfold mbind at 1, script_mbind. revert s.
  induction p as [a| |u p IH|cmd next IH]; intros s; cbn [script_bind Script.run]; [done..|apply IH|].
  destruct (run_server _ s) as [[s' rs]|]; [|done]. apply IH.
Qed.

Lemma script_run_pure {A} (o : outcome A) (s : server) :
  Script.run (pure_script o) s = (a ← o; mret (s, a)).
Proof. by destruct o. Qed.

Lemma script_run_send (c : connection) (s : server) :
  Script.run (Script.send c) s = paired (mret (Connection.send s c)).
Proof.
  unfold Script.send, Connection.send. destruct (ResponseWriter.take _) as [buf w].
  cbn [Script.run]. by destruct (stream_write_all _ _) as [t r].
Qed.

Lemma script_run_on_complete (c : connection) cmd consumed (s : server) :
  Script.run (Script.on_complete c cmd consumed) s =
  paired (Connection.on_complete s c cmd consumed).
Proof.
  unfold Script.on_complete, Connection.on_complete. cbn [Script.run].
  rewrite <- run_command. destruct (run_server _ s) as [[s1 rs]|]; [|done].
  cbn [mbind outcome_bind mret outcome_ret]. rewrite script_run_bind, script_run_pure.
  destruct (unwrap _) as [[b rb]|]; [|done]. cbn [mbind outcome_bind mret outcome_ret].
  destruct (_ && _); [|done]. rewrite script_run_bind, script_run_send.
  by destruct (Connection.send _ _) as [[s2 c2] [[]|e]].
Qed.

Lemma script_run_on_need_more (c : connection) (s : server) :
  Script.run (Script.on_need_more (IO := IO) pf c) s = paired (Connection.on_need_more pf s c).
Proof.
  unfold Script.on_need_more, Connection.on_need_more. rewrite script_run_bind, script_run_pure.
  destruct (Connection.pending_storage c) as [p|]; [done|].
  by destruct (parse_storage_command_line _ _) as [[[p|]|e]|].
Qed.

Lemma script_run_on_error (c : connection) e (s : server) :
  Script.run (Script.on_error pf c e) s = paired (Connection.on_error pf s c e).
Proof.
  unfold Script.on_error, Connection.on_error. cbn [Script.run apply_meter].
  rewrite script_run_bind, script_run_pure.
  destruct (Connection.find_crlf _ _) as [[pos|]|]; cbn [mbind outcome_bind mret outcome_ret]; [| |done].
  - destruct (_ +[pf] _) as [n|]; cbn [mbind outcome_bind mret outcome_ret]; [|done].
    destruct (unwrap _) as [[b rb]|]; cbn [mbind outcome_bind mret outcome_ret]; [|done].
    rewrite script_run_bind, script_run_send. by destruct (Connection.send _ _) as [[s2 c2] [[]|e']].
  - rewrite script_run_bind, script_run_send. by destruct (Connection.send _ _) as [[s2 c2] [[]|e']].
Qed.

Lemma script_run_process_one (c : connection) (s : server) :
  Script.run (Script.process_one pf c) s = paired (Connection.process_one pf s c).
Proof.
  unfold Script.process_one, Connection.process_one. rewrite script_run_bind, script_run_pure.
  destruct (Connection.next_parse pf c) as [[cmd n| |e]|]; cbn [mbind outcome_bind mret outcome_ret];
    [apply script_run_on_complete|apply script_run_on_need_more|apply script_run_on_error|done].
Qed.

Lemma script_run_process fuel (c : connection) (s : server) :
  Script.run (Script.process pf fuel c) s = paired (Connection.process pf fuel s c).
Proof.
  revert c s. induction fuel as [|fuel IH]; intros c s; cbn [Script.process Connection.process]; [done|].
  rewrite script_run_bind, script_run_process_one.
  destruct (Connection.process_one pf s c) as [[[s1 c1] [e|]]|];
    cbn [paired mbind outcome_bind mret outcome_ret]; [done|apply IH|done].
Qed.

Lemma script_run_turn (c : connection) cancelled (s : server) :
  Script.run (Script.turn pf c cancelled) s = paired (Connection.turn pf s c cancelled).
Proof.
  unfold Script.turn, Connection.turn. destruct cancelled; [done|].
  destruct (stream_read _) as [t [[|b k]|e]]; [done| |done]. cbn [Script.on_read Connection.on_read].
  cbn [Script.run apply_meter]. rewrite script_run_bind, script_run_process.
  by destruct (Connection.process _ _ _ _) as [[[s1 c1] [|r|]]|].
Qed.

End alone.
