(* ===== verification/Trace.v ===== *)
(** * Logs of what the server has done

    A log lists the events of one or of many connections in the order in
    which they took effect, with the replies to each.  [scan] reads the
    events a client has asked for off the bytes it has sent; [history] says
    that a log is a run of the abstract cache; [explains] and [shown_log]
    tie a log to the bytes a connection has received and sent. *)

From S2P Require Import Prelude RustStd Extern Reference Errors Command Parser ParserFacts ParserProps.
From S2P Require Import Value Storage StorageFacts StorageProps Response Metrics Config ServerState.
From S2P Require Import Handler Spec HandlerProps Connection ConnectionFacts.
#[local] Open Scope petra_scope.

(** A command that has been executed, or a line that has been rejected. *)
Inductive event :=
| EvCommand (cmd : Command)
| EvError (e : ProtocolError).

(** An event with the replies to it. *)
Abbreviation entry := (event * list reply)%type.

(** What the client sees of an entry, and of a log. *)
Definition shown (en : entry) : bytes :=
  match en with
  | (EvCommand cmd, rs) => visible cmd (print_replies rs)
  | (EvError _, rs) => print_replies rs
  end.

Definition shown_log (log : list entry) : bytes := concat (map shown log).

Lemma shown_log_app log1 log2 : shown_log (log1 ++ log2) = shown_log log1 ++ shown_log log2.
Proof. unfold shown_log. by rewrite map_app, concat_app. Qed.

Lemma shown_log_single en : shown_log [en] = shown en.
Proof. apply app_nil_r. Qed.

(** The last entry of a log satisfies [P]. *)
Definition ends_with (P : entry -> Prop) (log : list entry) : Prop :=
  exists en, last log = Some en /\ P en.

Lemma ends_with_app P log1 log2 : ends_with P log2 -> ends_with P (log1 ++ log2).
Proof. intros (en & Hl & HP). exists en. by rewrite last_app, Hl. Qed.

Lemma ends_with_cons P en log : ends_with P log -> ends_with P (en :: log).
Proof. apply (ends_with_app P [en]). Qed.

Definition is_error (en : entry) : Prop := exists e, fst en = EvError e.
Definition is_quit_entry (en : entry) : Prop := fst en = EvCommand Quit.

(** ** Logs of many connections *)

(** The entries of one connection in a log of entries tagged with their
    connection. *)
Definition of_conn (id : nat) (log : list (nat * entry)) : list entry :=
  omap (fun '(i, en) => if decide (i = id) then Some en else None) log.

Lemma of_conn_app id log1 log2 : of_conn id (log1 ++ log2) = of_conn id log1 ++ of_conn id log2.
Proof. apply omap_app. Qed.

Lemma of_conn_own id (l : list entry) : of_conn id (map (pair id) l) = l.
Proof.
  unfold of_conn. induction l as [|en l IH]; [done|].
  cbn. rewrite decide_True by done. cbn. by rewrite IH.
Qed.

Lemma of_conn_other id id' (l : list entry) : id <> id' -> of_conn id' (map (pair id) l) = [].
Proof.
  intros Hne. unfold of_conn. induction l as [|en l IH]; [done|].
  cbn. by rewrite decide_False by done.
Qed.

Lemma of_conn_absent id log : Forall (fun x => fst x <> id) log -> of_conn id log = [].
Proof.
  unfold of_conn. induction 1 as [|[i en] log Hi _ IH]; [done|].
  cbn. by rewrite decide_False by done.
Qed.

Lemma untag id (l : list entry) : map (snd (A := nat)) (map (pair id) l) = l.
Proof. rewrite map_map. apply map_id. Qed.

(** A log that a connection has extended. *)
Lemma of_conn_extend_own id log l : of_conn id (log ++ map (pair id) l) = of_conn id log ++ l.
Proof. by rewrite of_conn_app, of_conn_own. Qed.

Lemma of_conn_extend_other id id' log l :
  id <> id' -> of_conn id' (log ++ map (pair id) l) = of_conn id' log.
Proof. intros. by rewrite of_conn_app, of_conn_other, app_nil_r. Qed.

Lemma ids_extend (Q Q' : nat -> Prop) id log (l : list entry) :
  Forall (fun x => Q (fst x)) log -> Q' id -> (forall i, Q i -> Q' i) ->
  Forall (fun x => Q' (fst x)) (log ++ map (pair id) l).
Proof.
  intros Hlog Hid HQ. apply Forall_app. split.
  - eapply Forall_impl; [exact Hlog|]. intros x. apply HQ.
  - apply Forall_forall. intros x [en [-> _]]%list_elem_of_fmap. done.
Qed.

(** ** Reading events off the input *)

Section scan.
Context (pf : profile) `{MC : Memchr}.

(** The first event of the input and what follows it: a command takes the
    bytes the parser says, an error its line. *)
Definition next_event (buf : bytes) : option (event * bytes) :=
  match parse pf buf with
  | Ret (Complete cmd n) => Some (EvCommand cmd, drop (Z.to_nat n) buf)
  | Ret (Error e) => '(_, rest) ← read_line buf; Some (EvError e, rest)
  | Ret NeedMoreData | Panic => None
  end.

(** The first [k] events of the input. *)
Fixpoint scan (k : nat) (buf : bytes) : option (list event * bytes) :=
  match k with
  | O => Some ([], buf)
  | S k =>
      '(ev, buf) ← next_event buf;
      '(evs, buf) ← scan k buf;
      Some (ev :: evs, buf)
  end.

(** The events of the log are the first ones of the input [got], of which
    [rest] is left. *)
Definition explains (log : list entry) (got rest : bytes) : Prop :=
  scan (length log) got = Some (map fst log, rest).

Lemma scan_app k1 k2 buf evs1 buf1 evs2 buf2 :
  scan k1 buf = Some (evs1, buf1) -> scan k2 buf1 = Some (evs2, buf2) ->
  scan (k1 + k2) buf = Some (evs1 ++ evs2, buf2).
Proof.
  revert buf evs1. induction k1 as [|k1 IH]; intros buf evs1; cbn [scan Nat.add].
  - by intros [= <- ->].
  - destruct (next_event buf) as [[ev buf']|]; [|done]. cbn [mbind option_bind].
    destruct (scan k1 buf') as [[evs buf'']|] eqn:E; [|done]. cbn [mbind option_bind].
    intros [= <- ->] H2. by rewrite (IH buf' evs E H2).
Qed.

Lemma explains_app log1 log2 got mid rest :
  explains log1 got mid -> explains log2 mid rest -> explains (log1 ++ log2) got rest.
Proof. unfold explains. rewrite length_app, map_app. apply scan_app. Qed.

Lemma explains_cons ev rs log got mid rest :
  next_event got = Some (ev, mid) -> explains log mid rest ->
  explains ((ev, rs) :: log) got rest.
Proof.
  intros H1 H2. apply (explains_app [(ev, rs)] log got mid); [|done].
  unfold explains. cbn. by rewrite H1.
Qed.

Lemma explains_nil got : explains [] got got.
Proof. done. Qed.

End scan.

Section more.
Context (pf : profile) `{MCS : MemchrSpec}.

Lemma next_event_command front rest cmd :
  parse pf (front ++ rest) = Ret (Complete cmd (len front)) ->
  next_event pf (front ++ rest) = Some (EvCommand cmd, rest).
Proof. intros H. unfold next_event. by rewrite H, to_nat_len, drop_app_length. Qed.

Lemma next_event_error line rest e :
  (CR ∉ line) -> parse pf (line ++ CRLF ++ rest) = Ret (Error e) ->
  next_event pf (line ++ CRLF ++ rest) = Some (EvError e, rest).
Proof. intros Hl H. unfold next_event. by rewrite H, read_line_app. Qed.

(** What follows an event is the end of the input. *)
Lemma next_event_split buf ev rest :
  slice_ok buf -> next_event pf buf = Some (ev, rest) -> exists pre, buf = pre ++ rest.
Proof.
  unfold next_event. intros Hok H. destruct (parse pf buf) as [[cmd n| |e]|] eqn:Ep; try done.
  - injection H as _ <-. exists (take (Z.to_nat n) buf). by rewrite take_drop.
  - destruct (parse_error_line pf _ _ Hok Ep) as (_ & line & tail & -> & Hl & _).
    rewrite read_line_app in H by done. injection H as _ <-.
    exists (line ++ CRLF). by rewrite <- app_assoc.
Qed.

(** An event is the same however much follows it. *)
Lemma next_event_more buf more ev rest :
  slice_ok (buf ++ more) -> next_event pf buf = Some (ev, rest) ->
  next_event pf (buf ++ more) = Some (ev, rest ++ more).
Proof.
  intros Hok H. pose proof (slice_ok_app_l _ _ Hok) as Hokb. unfold next_event in H.
  destruct (parse pf buf) as [[cmd n| |e]|] eqn:Ep; try done.
  - injection H as <- <-.
    destruct (parse_complete_split pf _ _ _ Hokb Ep) as (front & rest & -> & -> & _).
    rewrite to_nat_len, drop_app_length, <- app_assoc in *.
    apply next_event_command. rewrite app_assoc. apply (parse_more pf _ more); [|done|done].
    by rewrite <- app_assoc.
  - destruct (parse_error_line pf _ _ Hokb Ep) as (_ & line & tail & -> & Hl & _).
    rewrite read_line_app in H by done. cbn in H. injection H as <- <-.
    pose proof (parse_more pf _ more _ Hok Ep ltac:(done)) as Hp.
    rewrite <- !app_assoc in *. by apply next_event_error.
Qed.

Lemma scan_more k buf more evs rest :
  slice_ok (buf ++ more) -> scan pf k buf = Some (evs, rest) ->
  scan pf k (buf ++ more) = Some (evs, rest ++ more).
Proof.
  revert buf evs. induction k as [|k IH]; intros buf evs Hok; cbn [scan].
  - by intros [= <- ->].
  - destruct (next_event pf buf) as [[ev buf1]|] eqn:En; [|done]. cbn [mbind option_bind].
    destruct (scan pf k buf1) as [[evs1 buf2]|] eqn:Es; [|done]. cbn [mbind option_bind].
    intros [= <- ->]. rewrite (next_event_more _ more _ _ Hok En). cbn [mbind option_bind].
    destruct (next_event_split _ _ _ (slice_ok_app_l _ _ Hok) En) as [pre ->].
    rewrite (IH buf1 evs1); [done| |done].
    rewrite <- app_assoc in Hok. by apply slice_ok_app_r in Hok.
Qed.

Lemma scan_split k buf evs rest :
  slice_ok buf -> scan pf k buf = Some (evs, rest) -> exists pre, buf = pre ++ rest.
Proof.
  revert buf evs. induction k as [|k IH]; intros buf evs Hok; cbn [scan].
  - intros [= <- ->]. by exists [].
  - destruct (next_event pf buf) as [[ev buf1]|] eqn:En; [|done]. cbn [mbind option_bind].
    destruct (scan pf k buf1) as [[evs1 buf2]|] eqn:Es; [|done]. cbn [mbind option_bind].
    intros [= <- <-]. destruct (next_event_split _ _ _ Hok En) as [pre ->].
    apply slice_ok_app_r in Hok. destruct (IH _ _ Hok Es) as [pre' ->].
    exists (pre ++ pre'). by rewrite app_assoc.
Qed.

Lemma explains_split log buf rest :
  slice_ok buf -> explains pf log buf rest -> exists pre, buf = pre ++ rest.
Proof. apply scan_split. Qed.

Lemma explains_more log got rest more :
  slice_ok (got ++ more) -> explains pf log got rest ->
  explains pf log (got ++ more) (rest ++ more).
Proof. apply scan_more. Qed.

End more.

(** ** Runs of the abstract cache *)

Section history.
Context `{RS : RocksDBSpec DB WO E}.

(** An event on a storage that holds the cache [ca]: a command is a step of
    the cache, a rejected line changes nothing. *)
Inductive event_step (st : Store DB WO) (ca : cache) :
    event -> list reply -> Store DB WO -> cache -> Prop :=
| event_command cmd st' ca' rs :
    cache_step (db_fails st cmd) (timestamp (st_clock st)) (timestamp (st_clock st'))
      ca cmd ca' rs ->
    event_step st ca (EvCommand cmd) rs st' ca'
| event_error e :
    event_step st ca (EvError e) [RClientError (ProtocolError_display e)] st ca.

(** [history st ca log st' ca']: from the storage [st], which holds [ca], the
    events of [log] lead in this order to [st'], which holds [ca'], with
    compactions in between; the clock never runs backwards. *)
Inductive history : Store DB WO -> cache -> list entry -> Store DB WO -> cache -> Prop :=
| history_nil st ca : history st ca [] st ca
| history_event st ca ev rs st1 ca1 log st2 ca2 :
    event_step st ca ev rs st1 ca1 -> same_config st st1 ->
    timestamp (st_clock st) <= timestamp (st_clock st1) -> represents ca1 st1 ->
    history st1 ca1 log st2 ca2 -> history st ca ((ev, rs) :: log) st2 ca2
| history_compact st ca log st2 ca2 :
    history (RocksStorage.compact st) ca log st2 ca2 -> history st ca log st2 ca2.

Lemma history_app st ca log1 st1 ca1 log2 st2 ca2 :
  history st ca log1 st1 ca1 -> history st1 ca1 log2 st2 ca2 ->
  history st ca (log1 ++ log2) st2 ca2.
Proof. induction 1; intros; [done|econstructor; eauto|apply history_compact; eauto]. Qed.

Lemma history_single st ca ev rs st1 ca1 :
  event_step st ca ev rs st1 ca1 -> represents ca st -> same_config st st1 -> represents ca1 st1 ->
  history st ca [(ev, rs)] st1 ca1.
Proof.
  intros H (_ & Hm & _) Hc Hrep. apply (history_event st ca ev rs st1 ca1); [done..| |done|].
  - by apply timestamp_mono.
  - apply history_nil.
Qed.

Lemma compact_represents ca (st : Store DB WO) :
  represents ca st -> represents ca (RocksStorage.compact st).
Proof.
  intros Hrep. pose proof Hrep as (Hwf & Hm & _).
  destruct (compact_spec st Hwf Hm) as (Hc & Hs & _).
  eapply represents_expiry; [done|done| |done]. split; [by apply timestamp_mono|lia].
Qed.

End history.

(** ** What a client can read *)

(** The replies a client is shown. *)
Definition shown_replies (en : entry) : list reply :=
  match en with
  | (EvCommand cmd, rs) => if is_noreply cmd then [] else rs
  | (EvError _, rs) => rs
  end.

Lemma shown_log_replies (log : list entry) :
  shown_log log = print_replies (concat (map shown_replies log)).
Proof.
  induction log as [|[[cmd|e] rs] log IH]; [done|..];
    change (shown_log (?en :: log)) with (shown en ++ shown_log log);
    cbn [map concat]; rewrite print_replies_app, IH; f_equal.
  unfold shown, shown_replies, visible. by destruct (is_noreply cmd).
Qed.

(** An event with a well-formed command or a text of one line. *)
Definition wf_event (ev : event) : Prop :=
  match ev with
  | EvCommand cmd => wf_command cmd
  | EvError e => CR ∉ ProtocolError_display e
  end.

Lemma next_event_wf pf `{MCS : MemchrSpec} buf ev rest :
  slice_ok buf -> next_event pf buf = Some (ev, rest) -> wf_event ev.
Proof.
  unfold next_event. intros Hok H. destruct (parse pf buf) as [[cmd n| |e]|] eqn:Ep; try done.
  - injection H as <- _.
    by destruct (parse_complete_split pf _ _ _ Hok Ep) as (_ & _ & _ & _ & _ & Hwf & _).
  - destruct (read_line buf) as [[l r]|]; [|done]. injection H as <- _.
    by destruct (parse_error_line pf _ _ Hok Ep).
Qed.

Lemma explains_wf pf `{MCS : MemchrSpec} log buf rest :
  slice_ok buf -> explains pf log buf rest -> Forall wf_event (map fst log).
Proof.
  unfold explains. generalize (length log) (map fst log). intros k. revert buf.
  induction k as [|k IH]; intros buf evs Hok; cbn [scan].
  - intros [= <- _]. constructor.
  - destruct (next_event pf buf) as [[ev buf1]|] eqn:En; [|done]. cbn [mbind option_bind].
    destruct (scan pf k buf1) as [[evs1 buf2]|] eqn:Es; [|done]. cbn [mbind option_bind].
    intros [= <- ->]. constructor; [by eapply next_event_wf|].
    destruct (next_event_split pf _ _ _ Hok En) as [pre ->].
    eapply IH; [by eapply slice_ok_app_r|done].
Qed.

Section replies.
Context `{RS : RocksDBSpec DB WO E}.

(** A reply that the protocol can carry: an error text is one line. *)
Definition one_line (r : reply) : Prop :=
  match r with
  | RServerError msg => CR ∉ msg
  | _ => True
  end.

Lemma value_replies_wf (ca : cache) (st : Store DB WO) t1 keys results :
  represents ca st -> Forall wf_key keys ->
  Forall2 (answer ca (timestamp (st_clock st)) t1) keys results ->
  Forall wf_reply (value_replies results).
Proof.
  intros (Hwf & _ & Hl & _) Hkeys Hans. revert Hkeys.
  induction Hans as [|k [k' o] keys results [Hk (t & Ht & Hv)] _ IH]; intros Hkeys; [constructor|].
  apply Forall_cons in Hkeys as [Hkey Hkeys]. cbn [fst snd] in Hk, Hv. subst k'.
  destruct o as [v|]; cbn; [|by apply IH]. constructor; [|by apply IH].
  rewrite <- Hl in Hv by lia. symmetry in Hv. apply wf_db_live in Hv as Hwv; [|done].
  split; [done|]. by apply (value_fits k).
Qed.

Lemma event_replies_wf (st st' : Store DB WO) ca ca' ev rs :
  represents ca st -> wf_event ev -> event_step st ca ev rs st' ca' ->
  Forall one_line rs -> Forall wf_reply rs.
Proof.
  intros Hrep Hev Hstep Hone. destruct Hstep as [cmd st' ca' rs Hstep|e]; [|by repeat constructor].
  inversion Hstep; subst; cbn [wf_event] in Hev;
    try (repeat constructor; first [by inversion Hone | by_compute | done]).
  apply Forall_app. split; [|by repeat constructor].
  destruct Hev as [_ Hkeys]. by eapply value_replies_wf.
Qed.

(** The only server errors are those of the database. *)
Definition database_error (r : reply) : Prop :=
  match r with
  | RServerError msg => exists e : E, msg = StorageError_display (RocksDb e)
  | _ => True
  end.

Lemma event_errors (st st' : Store DB WO) ca ca' ev rs :
  event_step st ca ev rs st' ca' -> Forall database_error rs.
Proof.
  intros Hstep. destruct Hstep as [cmd st' ca' rs Hstep|e]; [|by repeat constructor].
  assert (Hfail : forall msg, db_fails st cmd msg -> database_error (RServerError msg))
    by (intros msg [_ [e ->]]; by exists e).
  inversion Hstep; subst; try (repeat constructor; by eauto).
  apply Forall_app. split; [|by repeat constructor].
  apply Forall_forall. intros r ([k [v|]] & _ & [= <-])%list_elem_of_omap. done.
Qed.

Lemma history_errors (st st' : Store DB WO) ca ca' log :
  history st ca log st' ca' -> Forall database_error (concat (map shown_replies log)).
Proof.
  intros Hh. induction Hh as [st ca|st ca ev rs st1 ca1 log st2 ca2 Hstep Hc Ht Hrep1 Hh IH
    |st ca log st2 ca2 Hh IH]; cbn [map concat]; [done| |done].
  apply Forall_app. split; [|done]. apply event_errors in Hstep. unfold shown_replies.
  destruct ev as [cmd|e]; [|done]. by destruct (is_noreply cmd).
Qed.

(** The replies of a run that a client is shown. *)
Definition readable (en : entry) : Prop :=
  Forall one_line (shown_replies en) -> Forall wf_reply (shown_replies en).

Lemma history_readable (st st' : Store DB WO) ca ca' log :
  history st ca log st' ca' -> represents ca st -> Forall wf_event (map fst log) ->
  Forall readable log.
Proof.
  intros Hh. induction Hh as [st ca|st ca ev rs st1 ca1 log st2 ca2 Hstep Hc Ht Hrep1 Hh IH
    |st ca log st2 ca2 Hh IH]; intros Hrep Hev.
  - constructor.
  - cbn [map fst] in *. apply Forall_cons in Hev as [Hev Hevs].
    constructor; [|by apply IH]. unfold readable, shown_replies.
    destruct ev as [cmd|e]; [destruct (is_noreply cmd); [constructor|]|]; by eapply event_replies_wf.
  - apply IH; [by apply compact_represents|done].
Qed.

Lemma readable_replies log :
  Forall readable log -> Forall one_line (concat (map shown_replies log)) ->
  Forall wf_reply (concat (map shown_replies log)).
Proof.
  induction 1 as [|en log Hen _ IH]; cbn [map concat]; [done|].
  intros [H1 H2]%Forall_app. apply Forall_app. auto.
Qed.

End replies.
