(* ===== verification/Relaxed.v ===== *)
(** * The cache between its database calls

    What the server promises when the calls of its commands interleave: a
    get takes a snapshot and replies from it, a delete decides its reply on
    a snapshot and removes the key later, and a get that has seen an expired
    item may later remove whatever its key then holds; a set is atomic.
    [race_free] says where this is no more than atomic commands, in the order
    [atomize] gives. *)

From S2P Require Import Prelude RustStd Extern Reference Errors Command Value Storage StorageFacts.
From S2P Require Import Response Handler Spec Trace.
#[local] Open Scope petra_scope.

(** ** The abstract machine *)

(** The cache, the time of the last action, and what the command in progress
    of each connection has seen, with the time at which it did. *)
Record rstate := {
  r_cache : cache;
  r_time : Z;
  r_seen : gmap nat (cache * Z);
}.

(** A command looks at the cache (a set, at the clock), drops a key it has
    seen expired, or takes effect and replies; or a line is rejected. *)
Inductive action :=
| Look
| Drop (k : bytes)
| Log (en : entry).

Section machine.
Context (msg_ok : bytes -> Prop).

Definition error_reply (rs : list reply) : Prop := exists msg, msg_ok msg /\ rs = [RServerError msg].

(** The replies of a command that changes nothing, at time [t]. *)
Definition reply_of (seen : option (cache * Z)) (t : Z) (cmd : Command) (rs : list reply) : Prop :=
  match cmd with
  | Get keys => exists c0 t0, seen = Some (c0, t0) /\
      (error_reply rs \/
       exists results, Forall2 (answer c0 t0 t) keys results /\
         rs = value_replies results ++ [REnd])
  | Set_ _ _ _ _ _ => False
  | Delete _ _ => error_reply rs
  | Version => rs = [RVersion version_text]
  | Quit => rs = []
  end.

(** The effect of a write on the cache [c] at time [t]; a failed one may have
    happened. *)
Definition effect (seen : option (cache * Z)) (t : Z) (c : cache) (cmd : Command) (c' : cache)
    (rs : list reply) : Prop :=
  match cmd with
  | Set_ key flags exptime data _ => exists a, (a = t \/ exists c0, seen = Some (c0, a)) /\
      let c1 := <[key := with_expire_at flags (expiry_rule a exptime) data]> c in
      (rs = [RStored] /\ c' = c1 \/ error_reply rs /\ (c' = c \/ c' = c1))
  | Delete key _ => exists c0 t0, seen = Some (c0, t0) /\
      let c1 := base.delete key c in
      (rs = [RDeleted] /\ is_Some (c0 !! key) /\ c' = c1 \/
       rs = [RNotFound] /\ live_value t0 (c0 !! key) = None /\ c' = c1 \/
       error_reply rs /\ (c' = c \/ c' = c1))
  | _ => False
  end.

(** An action of the connection [id] at a time [t]. *)
Inductive rstep (st : rstate) (id : nat) (t : Z) : action -> rstate -> Prop :=
| r_look :
    r_seen st !! id = None ->
    rstep st id t Look
      {| r_cache := r_cache st; r_time := t; r_seen := <[id := (r_cache st, t)]> (r_seen st) |}
| r_drop k c0 t0 v :
    r_seen st !! id = Some (c0, t0) -> c0 !! k = Some v -> expired_at t v = true ->
    rstep st id t (Drop k)
      {| r_cache := base.delete k (r_cache st); r_time := t; r_seen := r_seen st |}
| r_reply cmd rs :
    reply_of (r_seen st !! id) t cmd rs ->
    rstep st id t (Log (EvCommand cmd, rs))
      {| r_cache := r_cache st; r_time := t; r_seen := base.delete id (r_seen st) |}
| r_effect cmd c' rs :
    effect (r_seen st !! id) t (r_cache st) cmd c' rs ->
    rstep st id t (Log (EvCommand cmd, rs))
      {| r_cache := c'; r_time := t; r_seen := base.delete id (r_seen st) |}
| r_line e :
    r_seen st !! id = None ->
    rstep st id t (Log (EvError e, [RClientError (ProtocolError_display e)]))
      {| r_cache := r_cache st; r_time := t; r_seen := r_seen st |}.

(** A run: the actions of all connections, each with the state after it. *)
Abbreviation trace := (list (nat * action * rstate)).

Fixpoint valid_run (st : rstate) (tr : trace) : Prop :=
  match tr with
  | [] => True
  | (id, a, st') :: tr =>
      (exists t, r_time st <= t /\ rstep st id t a st') /\ valid_run st' tr
  end.

Fixpoint final (st : rstate) (tr : trace) : rstate :=
  match tr with
  | [] => st
  | (_, _, st') :: tr => final st' tr
  end.

Definition start_state (c : cache) (t : Z) : rstate :=
  {| r_cache := c; r_time := t; r_seen := ∅ |}.

(** The events of one connection in a run. *)
Definition entries_of (id : nat) (tr : trace) : list entry :=
  omap (fun '(i, a, _) =>
    match a with
    | Log en => if decide (i = id) then Some en else None
    | _ => None
    end) tr.

(** ** Races *)

(** The action changes nothing that the command has not seen: the item it
    drops has itself expired, and a key is as present at its removal as when
    the delete has looked. *)
Definition calm (st st' : rstate) (a : action) : Prop :=
  match a with
  | Drop k => live_value (r_time st') (r_cache st !! k) = None
  | Log (EvCommand (Delete k _), [RDeleted]) => is_Some (r_cache st !! k)
  | Log (EvCommand (Delete k _), [RNotFound]) => live_value (r_time st') (r_cache st !! k) = None
  | _ => True
  end.

Fixpoint race_free (st : rstate) (tr : trace) : Prop :=
  match tr with
  | [] => True
  | (id, a, st') :: tr => calm st st' a /\ race_free st' tr
  end.

(** The order of the commands as atomic ones: a get comes where it has
    looked, all others where they have replied. *)
Definition next_entry (id : nat) (tr : trace) : option entry := head (entries_of id tr).

Definition is_get (en : entry) : bool :=
  match en with (EvCommand (Get _), _) => true | _ => false end.

Fixpoint atomize (tr : trace) : list (nat * entry) :=
  match tr with
  | [] => []
  | (id, a, _) :: tr =>
      match a with
      | Look =>
          match next_entry id tr with
          | Some en => if is_get en then (id, en) :: atomize tr else atomize tr
          | None => atomize tr
          end
      | Drop _ => atomize tr
      | Log en => if is_get en then atomize tr else (id, en) :: atomize tr
      end
  end.

(** Atomic commands, each executed between [t0] and [T]. *)
Inductive atomic_run (t0 T : Z) : cache -> list (nat * entry) -> cache -> Prop :=
| atomic_nil c : atomic_run t0 T c [] c
| atomic_command c id cmd rs fails a b c1 log c2 :
    t0 <= a <= b -> b <= T -> (forall msg, fails msg -> msg_ok msg) ->
    cache_step fails a b c cmd c1 rs -> atomic_run t0 T c1 log c2 ->
    atomic_run t0 T c ((id, (EvCommand cmd, rs)) :: log) c2
| atomic_line c id e log c2 :
    atomic_run t0 T c log c2 ->
    atomic_run t0 T c
      ((id, (EvError e, [RClientError (ProtocolError_display e)])) :: log) c2.

End machine.
