(* ===== verification/RelaxedFacts.v ===== *)
(** * Facts about the relaxed cache

    Runs can be extended, and a run without races is a run of atomic
    commands in the order of [atomize]. *)

From S2P Require Import Prelude RustStd Extern Reference Errors Command Value Storage StorageFacts.
From S2P Require Import Response Handler Spec Trace Relaxed.
#[local] Open Scope petra_scope.

Section facts.
Context (msg_ok : bytes -> Prop).

(** ** Runs *)

Lemma final_app st tr1 tr2 : final st (tr1 ++ tr2) = final (final st tr1) tr2.
Proof. revert st. induction tr1 as [|[[id a] st'] tr1 IH]; intros st; [done|apply IH]. Qed.

Lemma valid_run_app st tr1 tr2 :
  valid_run msg_ok st tr1 -> valid_run msg_ok (final st tr1) tr2 ->
  valid_run msg_ok st (tr1 ++ tr2).
Proof.
  revert st. induction tr1 as [|[[id a] st'] tr1 IH]; intros st; cbn [valid_run final app]; [done|].
  intros [? ?] ?. auto.
Qed.

Lemma valid_run_split st tr1 tr2 :
  valid_run msg_ok st (tr1 ++ tr2) -> valid_run msg_ok st tr1 /\ valid_run msg_ok (final st tr1) tr2.
Proof.
  revert st. induction tr1 as [|[[id a] st'] tr1 IH]; intros st; cbn [valid_run final app]; [done|].
  intros [? [? ?]%IH]. auto.
Qed.

Lemma race_free_app st tr1 tr2 :
  race_free st tr1 -> race_free (final st tr1) tr2 -> race_free st (tr1 ++ tr2).
Proof.
  revert st. induction tr1 as [|[[id a] st'] tr1 IH]; intros st; cbn [race_free final app]; [done|].
  intros [? ?] ?. auto.
Qed.

Lemma rstep_time st id t a st' : rstep msg_ok st id t a st' -> r_time st' = t.
Proof. by destruct 1. Qed.

Lemma final_time st tr : valid_run msg_ok st tr -> r_time st <= r_time (final st tr).
Proof.
  revert st. induction tr as [|[[id a] st'] tr IH]; intros st; cbn [valid_run final]; [lia|].
  intros [(t & Ht & Hstep) Hrun%IH]. apply rstep_time in Hstep. lia.
Qed.

Lemma entries_of_app id tr1 tr2 : entries_of id (tr1 ++ tr2) = entries_of id tr1 ++ entries_of id tr2.
Proof. apply omap_app. Qed.

Lemma entries_of_other id id' a st tr :
  id <> id' -> entries_of id ((id', a, st) :: tr) = entries_of id tr.
Proof. intros Hne. unfold entries_of. cbn. destruct a; [done|done|]. by rewrite decide_False. Qed.

Lemma entries_of_log id en st tr : entries_of id ((id, Log en, st) :: tr) = en :: entries_of id tr.
Proof. unfold entries_of. cbn. by rewrite decide_True. Qed.

Lemma entries_of_quiet id id' a st tr :
  (forall en, a <> Log en) -> entries_of id ((id', a, st) :: tr) = entries_of id tr.
Proof. intros Ha. unfold entries_of. cbn. destruct a as [| |en]; [done|done|]. by destruct (Ha en). Qed.

(** What a step leaves alone: the view of the other connections. *)
Lemma rstep_seen_other st id t a st' id' :
  rstep msg_ok st id t a st' -> id' <> id -> r_seen st' !! id' = r_seen st !! id'.
Proof.
  intros Hstep Hne. destruct Hstep; cbn [r_seen]; try done.
  - by apply (lookup_insert_ne (M := gmap nat)).
  - by apply (lookup_delete_ne (M := gmap nat)).
  - by apply (lookup_delete_ne (M := gmap nat)).
Qed.

(** A view is an old one, or has just been taken. *)
Lemma rstep_seen st id t a st' id' c b :
  rstep msg_ok st id t a st' -> r_seen st' !! id' = Some (c, b) ->
  r_seen st !! id' = Some (c, b) \/ b = t.
Proof.
  intros Hstep Hb. destruct Hstep; cbn [r_seen] in *; [| by left| | |by left].
  - apply (lookup_insert_Some (M := gmap nat)) in Hb as [[_ [= _ <-]]|[_ Hb]]; auto.
  - apply (lookup_delete_Some (M := gmap nat)) in Hb as [_ Hb]. by left.
  - apply (lookup_delete_Some (M := gmap nat)) in Hb as [_ Hb]. by left.
Qed.

(** ** Atomic commands *)

(** No one can tell the two caches apart from [t] on; the second has at least
    the keys of the first. *)
Definition shadows (t : Z) (c1 c2 : cache) : Prop :=
  forall k, (forall t', t <= t' -> live_value t' (c1 !! k) = live_value t' (c2 !! k)) /\
    (is_Some (c1 !! k) -> is_Some (c2 !! k)).

Lemma shadows_refl t c : shadows t c c.
Proof. done. Qed.

Lemma shadows_later t t' c1 c2 : t <= t' -> shadows t c1 c2 -> shadows t' c1 c2.
Proof. intros Ht H k. destruct (H k) as [Hl Hd]. split; [|done]. intros t'' ?. apply Hl. lia. Qed.

Lemma shadows_insert t c1 c2 k v : shadows t c1 c2 -> shadows t (<[k := v]> c1) (<[k := v]> c2).
Proof.
  intros H k'. destruct (decide (k = k')) as [<-|Hne].
  - by rewrite !lookup_insert_eq.
  - rewrite !lookup_insert_ne by done. apply H.
Qed.

Lemma shadows_delete t c1 c2 k : shadows t c1 c2 -> shadows t (base.delete k c1) (base.delete k c2).
Proof.
  intros H k'. destruct (decide (k = k')) as [<-|Hne].
  - by rewrite !lookup_delete_eq.
  - rewrite !lookup_delete_ne by done. apply H.
Qed.

Lemma live_value_none t t' o : t <= t' -> live_value t o = None -> live_value t' o = None.
Proof.
  destruct o as [v|]; [|done]. unfold live_value. cbn [mbind option_bind]. intros Ht.
  destruct (expired_at t v) eqn:Ee; [|done]. intros _. by rewrite (expired_at_mono t t').
Qed.

(** An item that has expired may be gone. *)
Lemma shadows_drop t c1 c2 k :
  live_value t (c1 !! k) = None -> shadows t c1 c2 -> shadows t (base.delete k c1) c2.
Proof.
  intros Hk H k'. destruct (H k') as [Hl Hd]. destruct (decide (k = k')) as [<-|Hne].
  - rewrite lookup_delete_eq. split; [|by intros [? ?]]. intros t' Ht'. rewrite <- Hl by done.
    symmetry. by eapply live_value_none.
  - by rewrite lookup_delete_ne.
Qed.

(** A write on two caches no one can tell apart. *)
Lemma effect_atomic t0 seen t c1 c2 cmd c1' rs :
  effect msg_ok seen t c1 cmd c1' rs -> shadows t c1 c2 ->
  calm {| r_cache := c1; r_time := t0; r_seen := ∅ |} {| r_cache := c1'; r_time := t; r_seen := ∅ |}
    (Log (EvCommand cmd, rs)) ->
  t0 <= t -> (forall c0 a, seen = Some (c0, a) -> t0 <= a <= t) ->
  exists a fails c2', t0 <= a <= t /\ (forall msg, fails msg -> msg_ok msg) /\
    cache_step fails a t c2 cmd c2' rs /\ shadows t c1' c2'.
Proof.
  destruct cmd as [ks|k flags exptime data noreply|k noreply| |]; cbn [effect]; [done| | |done..].
  - intros (a & Ha & Hcase) Hs _ Ht Hseen.
    assert (t0 <= a <= t) by (destruct Ha as [->|[c0 Ha]]; [lia|by eapply Hseen]).
    set (v := with_expire_at flags (expiry_rule a exptime) data) in *.
    destruct Hcase as [[-> ->]|[(msg & Hm & ->) Hc]].
    + exists a, (fun _ => False), (<[k := v]> c2). split; [done|]. split; [done|].
      split; [apply step_set; by intros ??|by apply shadows_insert].
    + destruct Hc as [->| ->].
      * exists a, (fun m => m = msg), c2. split; [done|]. split; [by intros ? ->|].
        split; [by apply step_set_error; [|left]|done].
      * exists a, (fun m => m = msg), (<[k := v]> c2). split; [done|]. split; [by intros ? ->|].
        split; [by apply step_set_error; [|right]|by apply shadows_insert].
  - intros (c0 & ts & Hseen & Hcase) Hs Hcalm Ht _. cbn zeta in Hcase.
    destruct Hcase as [(-> & _ & ->)|[(-> & _ & ->)|[(msg & Hm & ->) Hc]]]; cbn [calm r_cache r_time] in Hcalm.
    + destruct (Hs k) as [_ Hd]. destruct (Hd Hcalm) as [v Hv].
      exists t, (fun _ => False), (base.delete k c2). split; [lia|]. split; [done|].
      split; [by eapply step_deleted; [by intros ??|]|by apply shadows_delete].
    + exists t, (fun _ => False), (base.delete k c2). split; [lia|]. split; [done|].
      split; [apply step_not_found; [by intros ??|]|by apply shadows_delete].
      destruct (Hs k) as [Hl _]. by rewrite <- Hl by lia.
    + destruct Hc as [->| ->].
      * exists t, (fun m => m = msg), c2. split; [lia|]. split; [by intros ? ->|].
        split; [by apply step_delete_error; [|left]|done].
      * exists t, (fun m => m = msg), (base.delete k c2). split; [lia|]. split; [by intros ? ->|].
        split; [by apply step_delete_error; [|right]|by apply shadows_delete].
Qed.

(** The replies of a get are those of an atomic one where it has looked. *)
Lemma get_atomic c0 t0 t keys rs c :
  reply_of msg_ok (Some (c0, t0)) t (Get keys) rs -> shadows t0 c0 c ->
  exists fails, (forall msg, fails msg -> msg_ok msg) /\ cache_step fails t0 t c (Get keys) c rs.
Proof.
  intros (? & ? & [= <- <-] & [(msg & Hm & ->)|(results & Hres & ->)]) Hs.
  - exists (fun m => m = msg). split; [by intros ? ->|]. by apply step_get_error.
  - exists (fun _ => False). split; [done|]. apply step_get; [by intros ??|].
    eapply Forall2_impl; [exact Hres|]. intros k kv [Hk (t' & Ht' & Hv)]. split; [done|].
    exists t'. split; [done|]. rewrite Hv. apply Hs. lia.
Qed.

(** The next entry of a connection that has looked, when it is a get. *)
Lemma next_get st tr id c0 t0 keys rs :
  valid_run msg_ok st tr -> r_seen st !! id = Some (c0, t0) ->
  next_entry id tr = Some (EvCommand (Get keys), rs) ->
  exists t, r_time st <= t <= r_time (final st tr) /\
    reply_of msg_ok (Some (c0, t0)) t (Get keys) rs.
Proof.
  revert st. induction tr as [|[[id' a] st'] tr IH]; intros st; [done|]. cbn [valid_run final].
  intros [(tt & Ht & Hstep) Hrun] Hseen Hnext. pose proof (final_time _ _ Hrun) as Hf.
  pose proof (rstep_time _ _ _ _ _ Hstep) as Htt.
  assert (Hgo : r_seen st' !! id = Some (c0, t0) ->
    next_entry id tr = Some (EvCommand (Get keys), rs) ->
    exists t, r_time st <= t <= r_time (final st' tr) /\
      reply_of msg_ok (Some (c0, t0)) t (Get keys) rs).
  { intros H1 H2. destruct (IH st' Hrun H1 H2) as (t & ? & ?). exists t. split; [lia|done]. }
  destruct (decide (id = id')) as [<-|Hne].
  - destruct Hstep as [Hn|k c1 t1 v H1 H2 H3|cmd rs1 Hr|cmd c' rs1 He|e Hn]; [congruence| | | |congruence].
    + apply Hgo; [done|]. unfold next_entry in *. by rewrite entries_of_quiet in Hnext.
    + unfold next_entry in Hnext. rewrite entries_of_log in Hnext. injection Hnext as -> ->.
      rewrite Hseen in Hr. cbn [r_time] in *. eexists. split; [|exact Hr]. lia.
    + unfold next_entry in Hnext. rewrite entries_of_log in Hnext. by injection Hnext as -> ->.
  - apply Hgo; [by rewrite (rstep_seen_other _ _ _ _ _ id Hstep)|].
    unfold next_entry in *. by rewrite entries_of_other in Hnext.
Qed.

(** ** The theorem *)

Lemma atomize_run (t0 T : Z) st tr c :
  valid_run msg_ok st tr -> race_free st tr -> shadows (r_time st) (r_cache st) c ->
  t0 <= r_time st -> r_time (final st tr) <= T ->
  (forall id c1 a, r_seen st !! id = Some (c1, a) -> t0 <= a <= r_time st) ->
  exists c', atomic_run msg_ok t0 T c (atomize tr) c' /\
    shadows (r_time (final st tr)) (r_cache (final st tr)) c'.
Proof.
  revert st c. induction tr as [|[[id a] st'] tr IH]; intros st c; cbn [valid_run race_free final atomize].
  { intros _ _ Hs _ _ _. exists c. split; [constructor|done]. }
  intros [(tt & Ht & Hstep) Hrun] [Hcalm Hfree] Hs Ht0 HT Hseen.
  pose proof (final_time _ _ Hrun) as Hf. pose proof (rstep_time _ _ _ _ _ Hstep) as Htt.
  assert (Hseen' : forall id' c1 b, r_seen st' !! id' = Some (c1, b) -> t0 <= b <= r_time st').
  { intros id' c1 b Hb. destruct (rstep_seen _ _ _ _ _ _ _ _ Hstep Hb) as [Hb'| ->]; [|lia].
    apply Hseen in Hb'. lia. }
  assert (Hgo : forall c1, shadows (r_time st') (r_cache st') c1 ->
    exists c', atomic_run msg_ok t0 T c1 (atomize tr) c' /\
      shadows (r_time (final st' tr)) (r_cache (final st' tr)) c').
  { intros c1 H1. apply IH; [done..|lia|lia|done]. }
  assert (Hs' : shadows tt (r_cache st) c) by by eapply shadows_later.
  assert (Hcommand : forall cmd rs fails b1 b2 c1, t0 <= b1 <= b2 -> b2 <= T ->
    (forall msg, fails msg -> msg_ok msg) -> cache_step fails b1 b2 c cmd c1 rs ->
    shadows (r_time st') (r_cache st') c1 ->
    exists c', atomic_run msg_ok t0 T c ((id, (EvCommand cmd, rs)) :: atomize tr) c' /\
      shadows (r_time (final st' tr)) (r_cache (final st' tr)) c').
  { intros cmd rs fails b1 b2 c1 H1 H2 H3 H4 H5. destruct (Hgo c1 H5) as (c' & Hrun' & Hsh).
    exists c'. split; [by eapply atomic_command|done]. }
  destruct Hstep as [Hn|k c1 t1 v H1 H2 H3|cmd rs Hr|cmd c1 rs He|e Hn]; cbn [r_time r_cache r_seen] in *.
  - destruct (next_entry id tr) as [[[cmd|e] rs]|] eqn:En; cbn [is_get]; [|by apply Hgo..].
    destruct cmd as [keys| | | |]; cbn [is_get]; [|by apply Hgo..].
    destruct (next_get _ _ _ (r_cache st) tt _ _ Hrun
      ltac:(cbn [r_seen]; by rewrite lookup_insert_eq) En) as (b & Hb & Hr). cbn [r_time] in Hb.
    destruct (get_atomic _ _ _ _ _ c Hr Hs') as (fails & Hfails & Hcs).
    eapply (Hcommand _ _ fails tt b c); [lia|lia|done..].
  - apply Hgo. by apply shadows_drop.
  - destruct cmd as [keys|k f e d nr|k nr| |]; cbn [is_get]; [by apply Hgo|done|..].
    + destruct Hr as (msg & Hm & ->).
      apply (Hcommand _ _ (fun m => m = msg) tt tt c); [lia|lia|by intros ? ->| |done].
      by apply step_delete_error; [|left].
    + cbn in Hr. subst rs. apply (Hcommand _ _ (fun _ => False) tt tt c); [lia|lia|done|constructor|done].
    + cbn in Hr. subst rs. apply (Hcommand _ _ (fun _ => False) tt tt c); [lia|lia|done|constructor|done].
  - assert (is_get (EvCommand cmd, rs) = false) as -> by by destruct cmd.
    destruct (effect_atomic t0 _ _ _ _ _ _ _ He Hs') as (b & fails & c2 & Hb & Hfails & Hcs & Hsh).
    + exact Hcalm.
    + lia.
    + intros c0 b Hb. apply Hseen in Hb. lia.
    + by eapply (Hcommand _ _ fails b tt c2); [lia|lia|..].
  - destruct (Hgo c Hs') as (c' & Hrun' & Hsh). exists c'. split; [by constructor|done].
Qed.

(** The order of [atomize] keeps that of each connection. *)
Lemma atomize_entries st tr id :
  valid_run msg_ok st tr ->
  of_conn id (atomize tr) =
    match r_seen st !! id, next_entry id tr with
    | Some _, Some en => if is_get en then tail (entries_of id tr) else entries_of id tr
    | _, _ => entries_of id tr
    end.
Proof.
  revert st. induction tr as [|[[id' a] st'] tr IH]; intros st; cbn [valid_run atomize].
  { intros _. by destruct (r_seen st !! id). }
  intros [(t & _ & Hstep) Hrun]. specialize (IH st' Hrun).
  destruct (decide (id = id')) as [<-|Hne].
  - destruct Hstep as [Hn|k c1 t1 v H1 H2 H3|cmd rs Hr|cmd c1 rs He|e Hn]; cbn [r_seen] in *;
      unfold next_entry in *.
    + rewrite lookup_insert_eq in IH. rewrite Hn, entries_of_quiet by done.
      destruct (entries_of id tr) as [|en ens] eqn:Ee; cbn [head tail] in *; [done|].
      destruct (is_get en); [|done]. unfold of_conn. cbn. rewrite decide_True by done. cbn.
      unfold of_conn in IH. by rewrite IH.
    + rewrite entries_of_quiet by done. exact IH.
    + rewrite lookup_delete_eq in IH. rewrite entries_of_log. cbn [head tail].
      destruct cmd as [keys|k f e d nr|k nr| |]; cbn [is_get]; [|done|..].
      * destruct Hr as (c0 & t0 & -> & _). exact IH.
      * unfold of_conn in *. cbn. rewrite decide_True by done. cbn. rewrite IH. by case_match.
      * unfold of_conn in *. cbn. rewrite decide_True by done. cbn. rewrite IH. by case_match.
      * unfold of_conn in *. cbn. rewrite decide_True by done. cbn. rewrite IH. by case_match.
    + rewrite lookup_delete_eq in IH. rewrite entries_of_log. cbn [head tail].
      assert (is_get (EvCommand cmd, rs) = false) as -> by by destruct cmd.
      unfold of_conn in *. cbn. rewrite decide_True by done. cbn. rewrite IH. by case_match.
    + rewrite Hn in *. rewrite entries_of_log. cbn [is_get].
      unfold of_conn in *. cbn. rewrite decide_True by done. cbn. by rewrite IH.
  - rewrite (rstep_seen_other _ _ _ _ _ id Hstep Hne) in IH.
    unfold next_entry in *. rewrite entries_of_other by done. rewrite <- IH.
    assert (Hskip : forall en log, of_conn id ((id', en) :: log) = of_conn id log).
    { intros en log. unfold of_conn. cbn. by rewrite decide_False. }
    destruct a as [|k|en]; [|done|].
    + destruct (head (entries_of id' tr)) as [en|]; [|exact eq_refl]. destruct (is_get en); [apply Hskip|done].
    + destruct (is_get en); [done|apply Hskip].
Qed.

Lemma atomize_order st tr id :
  valid_run msg_ok st tr -> r_seen st !! id = None -> of_conn id (atomize tr) = entries_of id tr.
Proof. intros H Hn. by rewrite (atomize_entries _ _ id H), Hn. Qed.

(** The order of a run extends that of its beginning, in which the
    connections that are not in the middle of a command have all their
    entries. *)
Lemma atomize_split st tr1 tr2 :
  valid_run msg_ok st (tr1 ++ tr2) -> (forall id, r_seen st !! id = None) ->
  exists log, atomize (tr1 ++ tr2) = log ++ atomize tr2 /\
    forall id, r_seen (final st tr1) !! id = None -> of_conn id log = entries_of id tr1.
Proof.
  intros Hrun Hn.
  assert (exists log, atomize (tr1 ++ tr2) = log ++ atomize tr2) as [log Hlog].
  { clear Hrun. induction tr1 as [|[[id a] st'] tr1 [log IH]]; [by exists []|].
    cbn [app atomize]. rewrite IH. destruct a as [|k|en]; repeat case_match;
      first [by exists log|by eexists (_ :: log)]. }
  exists log. split; [done|]. intros id Hid.
  pose proof (atomize_order _ _ id Hrun (Hn id)) as Hall.
  apply valid_run_split in Hrun as [_ Hrun2].
  pose proof (atomize_order _ _ id Hrun2 Hid) as Htail.
  rewrite Hlog, of_conn_app, Htail, entries_of_app in Hall. by apply app_inv_tail in Hall.
Qed.

End facts.
