(* ===== verification/ConnectionProps.v ===== *)
(** * Properties of connections

    Termination and safety of the command loop, whole sessions cut into
    arbitrary chunks, error recovery, and the ends of a connection. *)

From S2P Require Import Prelude RustStd Extern Reference Errors Command Parser ParserFacts ParserProps.
From S2P Require Import Value Storage StorageFacts StorageProps Response Metrics Config ServerState.
From S2P Require Import Examples Handler Spec HandlerProps Connection ConnectionFacts.
#[local] Open Scope petra_scope.

(** ** Specification vocabulary *)

Section vocabulary.
Context `{RS : RocksDBSpec DB WO E}.

(** The commands [cmds], executed in order from a storage that represents a
    cache, as steps of that cache; the replies to each command. *)
Inductive cache_runs : Store DB WO -> cache -> list Command -> Store DB WO -> cache ->
    list (list reply) -> Prop :=
| runs_nil st ca : cache_runs st ca [] st ca []
| runs_cons st ca cmd st1 ca1 rs cmds st2 ca2 rss :
    cache_step (db_fails st cmd) (timestamp (st_clock st)) (timestamp (st_clock st1)) ca cmd ca1 rs ->
    cache_runs st1 ca1 cmds st2 ca2 rss ->
    cache_runs st ca (cmd :: cmds) st2 ca2 (rs :: rss).

Lemma cache_runs_app st ca cmds1 st1 ca1 rss1 cmds2 st2 ca2 rss2 :
  cache_runs st ca cmds1 st1 ca1 rss1 -> cache_runs st1 ca1 cmds2 st2 ca2 rss2 ->
  cache_runs st ca (cmds1 ++ cmds2) st2 ca2 (rss1 ++ rss2).
Proof. induction 1; intros; [done|]. econstructor; eauto. Qed.

Lemma cache_runs_length st ca cmds st' ca' rss :
  cache_runs st ca cmds st' ca' rss -> length cmds = length rss.
Proof. induction 1; cbn; congruence. Qed.

End vocabulary.

(** What a client that sent [cmds] receives for the replies [rss]. *)
Definition session_output (cmds : list Command) (rss : list (list reply)) : bytes :=
  concat (zip_with (fun cmd rs => visible cmd (print_replies rs)) cmds rss).

Lemma session_output_app cmds1 rss1 cmds2 rss2 :
  length cmds1 = length rss1 ->
  session_output (cmds1 ++ cmds2) (rss1 ++ rss2) =
  session_output cmds1 rss1 ++ session_output cmds2 rss2.
Proof. intros H. unfold session_output. by rewrite zip_with_app, concat_app. Qed.

Section process.
Context (pf : profile) `{MCS : MemchrSpec} `{RS : RocksDBSpec DB WO E} `{BMS : BytesMutSpec B}.
Context `{ITS : ItoaSpec} {PR : Prometheus} {S : Type} `{TSS : TcpStreamSpec T IO}.

Abbreviation server := (Server.t DB WO S).
Abbreviation connection := (Connection.conn T B).

(** ** Safety and termination *)

(** The result of a loop that goes right: it has consumed a part of the
    buffer and is ready for the next one. *)
Definition safe_result (s : server) (c : connection)
    (out : outcome (server * connection * Connection.exit IO)) : Prop :=
  match out with
  | Panic => exists pre rest, waiting c = pre ++ rest /\ parse pf rest = Panic
  | Ret (s', c', e) =>
      e <> Connection.OutOfFuel /\ same_server s s' /\
      (exists pre, waiting c = pre ++ waiting c') /\ exists ca, ready pf s' c' ca
  end.

Lemma process_safe fuel s c ca :
  ready pf s c ca -> (length (waiting c) < fuel)%nat ->
  safe_result s c (Connection.process pf fuel s c).
Proof.
  revert s c ca. induction fuel as [|fuel IH]; intros s c ca Hr Hf; [lia|].
  cbn [Connection.process].
  destruct (process_one_round pf s c ca Hr) as [Hp|cmd front s' c' ca' rs e part Hb Hfr _ _ Hs Hr' _ He
    |c' _ Hw _ Hr'|err line s' c' e part Hb _ _ [_ Hs] Hr' _ He]; cbn [mbind outcome_bind].
  - exists [], (waiting c). by split.
  - destruct e as [e|].
    + split; [by destruct e as [|[]|]|]. split; [exact Hs|]. split; by eexists.
    + assert (Hlen : (length (waiting c') < fuel)%nat).
      { rewrite Hb, length_app in Hf. destruct front; [done|]. cbn in Hf. lia. }
      specialize (IH s' c' ca' Hr' Hlen).
      destruct (Connection.process pf fuel s' c') as [[[s2 c2] e2]|]; cbn [safe_result] in *.
      * destruct IH as (Hne & Hs2 & (pre & Hpre) & Hr2).
        split; [done|]. split; [by eapply same_server_trans|]. split; [|done].
        exists (front ++ pre). by rewrite Hb, Hpre, <- app_assoc.
      * destruct IH as (pre & rest & Hpre & Hp). exists (front ++ pre), rest.
        split; [|done]. by rewrite Hb, Hpre, <- app_assoc.
  - split; [done|]. split; [apply same_server_refl|].
    split; [by exists []; rewrite Hw|by eexists].
  - assert (exists e', e = Some e' /\ e' <> Connection.OutOfFuel) as (e' & -> & ?)
      by (destruct He as [[-> _]|(io & -> & _)]; eauto).
    split; [done|]. split; [done|].
    split; [|by eexists]. exists (line ++ CRLF). by rewrite Hb, <- app_assoc.
Qed.

(** From here, [n] rounds end the loop, and more fuel makes no difference. *)
Definition ends_within (n : nat) (s : server) (c : connection) : Prop :=
  (forall s' c', Connection.process (IO := IO) pf n s c <> Ret (s', c', Connection.OutOfFuel)) /\
  forall fuel, (n <= fuel)%nat ->
  Connection.process (IO := IO) pf fuel s c = Connection.process pf n s c.

Lemma ends_within_step n (s : server) (c : connection) :
  match Connection.process_one (IO := IO) pf s c with
  | Ret (s1, c1, None) => ends_within n s1 c1
  | Ret (_, _, Some e) => e <> Connection.OutOfFuel
  | Panic => True
  end -> ends_within (Datatypes.S n) s c.
Proof.
  unfold ends_within. cbn [Connection.process].
  destruct (Connection.process_one pf s c) as [[[s1 c1] [e|]]|] eqn:E1; intros H.
  - cbn [mbind outcome_bind mret outcome_ret]. split; [by intros s' c' [=]|].
    intros [|fuel] Hf; [lia|]. cbn [Connection.process]. by rewrite E1.
  - destruct H as [Hne Heq]. split; [exact Hne|].
    intros [|fuel] Hf; [lia|]. cbn [Connection.process]. rewrite E1. cbn [mbind outcome_bind].
    apply Heq. lia.
  - split; [done|]. intros [|fuel] Hf; [lia|]. cbn [Connection.process]. by rewrite E1.
Qed.

(** A round that does not end the loop consumes at least two bytes. *)
Lemma process_ends_within n s c ca :
  ready pf s c ca -> (length (waiting c) < 2 * n)%nat -> ends_within n s c.
Proof.
  revert s c ca. induction n as [|n IH]; intros s c ca Hr Hn; [lia|]. apply ends_within_step.
  pose proof Hr as (_ & Hok & _).
  destruct (process_one_round pf s c ca Hr) as [Hp|cmd front s1 c1 ca' rs e part Hb Hfr Hp _ _ Hr' _ He
    |c1 _ Hw _ Hr'|err line s1 c1 e part Hb _ _ _ _ _ He]; [done| |done|].
  - destruct e as [e|]; [by destruct e as [|[]|]|]. apply (IH _ _ _ Hr').
    destruct (parse_complete_split pf _ _ _ Hok Hp) as (_ & _ & _ & _ & H2 & _).
    rewrite Hb, length_app in Hn. unfold len in H2. lia.
  - by destruct He as [[-> _]|(io & -> & _)].
Qed.

(** The connection after a read of [chunk]. *)
Definition received (c : connection) (chunk : bytes) : connection :=
  {| Connection.stream := Connection.stream c;
     Connection.read_buf := bm_extend_from_slice (Connection.read_buf c) chunk;
     Connection.response := Connection.response c;
     Connection.pending_storage := Connection.pending_storage c |}.

Lemma waiting_received (c : connection) chunk : waiting (received c chunk) = waiting c ++ chunk.
Proof. apply bm_bytes_extend. Qed.

Lemma received_conn_ok (c : connection) chunk :
  conn_ok pf c -> slice_ok (waiting c) -> slice_ok (waiting c ++ chunk) ->
  conn_ok pf (received c chunk).
Proof.
  unfold conn_ok. cbn [Connection.pending_storage received]. rewrite waiting_received.
  destruct (Connection.pending_storage c) as [p|]; [|done]. intros Hc Hok Hok'.
  apply (parse_storage_command_line_pending pf _ _ Hok) in Hc as (line & rest & Hb & Hl & Hp).
  rewrite Hb, <- !app_assoc in *. apply (parse_storage_command_line_pending pf _ _ Hok').
  by exists line, (rest ++ chunk).
Qed.

(** More input keeps the connection ready. *)
Lemma ready_received (s s1 : server) (c : connection) ca chunk :
  ready pf s c ca -> slice_ok (waiting c ++ chunk) -> Server.storage s1 = Server.storage s ->
  ready pf s1 (received c chunk) ca.
Proof.
  intros (Hc & Hok & Hu & Hrep) Hok' Hst. split; [by apply received_conn_ok|].
  split; [by rewrite waiting_received|]. split; [done|by rewrite Hst].
Qed.

(** A round of the outer loop after a read of some bytes. *)
Lemma on_read_eq (s : server) (c : connection) chunk :
  chunk <> [] ->
  Connection.on_read (IO := IO) pf s c (Ok chunk) =
  ('(s, c, e) ←
     Connection.process pf (Datatypes.S (length (waiting c ++ chunk)))
       (Server.inc_by s Metrics.Bytes_read (len chunk)) (received c chunk);
   match e with
   | Connection.Break => mret (s, c, Connection.Running)
   | Connection.Return r => mret (s, c, Connection.Done r)
   | Connection.OutOfFuel => mret (s, c, Connection.Stuck)
   end).
Proof. intros Hne. rewrite <- waiting_received. by destruct chunk. Qed.

(** The effect of a round on the connections of the server. *)
Definition same_connections (s s' : server) : Prop :=
  Server.config s' = Server.config s /\
  Server.connection_semaphore s' = Server.connection_semaphore s /\
  Server.cancel_token s' = Server.cancel_token s.

Definition active (s : server) : gauge := Metrics.active_connections (Server.metrics s).

(** The gauge is decremented at the end of the stream and on a read error;
    a round that has read something leaves it alone, even when it ends the
    connection. *)
Definition gauge_effect (s s' : server) (r : result bytes IO) (st : Connection.status IO) : Prop :=
  match r with
  | Ok (_ :: _) => active s' = active s
  | _ => active s' = gauge_dec (active s) /\ st = Connection.Done (Ok tt)
  end.

Lemma on_read_safe (s : server) (c : connection) ca r :
  ready pf s c ca -> (forall chunk, r = Ok chunk -> slice_ok (waiting c ++ chunk)) ->
  match Connection.on_read pf s c r with
  | Panic => exists chunk pre rest, r = Ok chunk /\ waiting c ++ chunk = pre ++ rest /\
      parse pf rest = Panic
  | Ret (s', c', st) =>
      st <> Connection.Stuck /\ same_connections s s' /\ (exists ca', ready pf s' c' ca') /\
      gauge_effect s s' r st
  end.
Proof.
  intros Hr Hok. destruct r as [[|b k]|e]; try (by split_and!; [done..|exists ca|]).
  set (chunk := b :: k) in *. rewrite on_read_eq by done. specialize (Hok chunk eq_refl).
  set (s1 := Server.inc_by _ _ _).
  pose proof (ready_received s s1 c ca chunk Hr Hok eq_refl) as Hr1.
  pose proof (process_safe (Datatypes.S (length (waiting c ++ chunk))) s1 _ ca Hr1) as Hp.
  rewrite waiting_received in Hp. specialize (Hp (Nat.lt_succ_diag_r _)).
  destruct (Connection.process _ _ _ _) as [[[s' c'] e]|]; cbn [mbind outcome_bind safe_result] in *.
  - destruct Hp as (He & (H1 & H2 & H3 & H4 & _) & _ & Hr').
    destruct e; cbn [mret outcome_ret]; try done; by split_and!.
  - rewrite waiting_received in Hp. destruct Hp as (pre & rest & ? & ?). by exists chunk, pre, rest.
Qed.

End process.

(** ** Sessions *)

Section session.
Context (pf : profile) `{MCS : MemchrSpec} `{RS : RocksDBSpec DB WO E} `{BMS : BytesMutSpec B}.
Context `{ITS : ItoaSpec} {PR : Prometheus} {S : Type} `{TSS : TcpStreamSpec T IO}.

Abbreviation server := (Server.t DB WO S).
Abbreviation connection := (Connection.conn T B).

(** A command that has not arrived completely makes the loop wait. *)
Lemma parse_partial cmd buf x :
  wf_command cmd -> slice_ok (render cmd) -> render cmd = buf ++ x -> x <> [] ->
  parse pf buf = Ret NeedMoreData.
Proof.
  intros Hwf Hok Hb Hx. pose proof (render_line_no_cr cmd Hwf) as Hcr.
  assert (Hokb : slice_ok buf) by (rewrite Hb in Hok; by apply slice_ok_app_l in Hok).
  destruct (find_crlf_cases pf buf Hokb) as [(line & body & -> & Hl & _)|Hn];
    [|by apply parse_none].
  rewrite render_split, <- !app_assoc in Hb.
  apply not_elem_of_app_cons_inv_l in Hb as (<- & _ & Hb); [|done..].
  injection Hb as Hb. rewrite parse_eq by done. rewrite (parse_line_render cmd Hwf).
  apply line_lens in Hokb as ?.
  destruct cmd as [ks|key f e d n|key n| |]; cbn [render_body] in Hb; try (by destruct body, x).
  pose proof (len_nonneg d). destruct Hwf as (_ & _ & _ & Hd). cbn iota.
  rewrite parse_storage_data_ok; [|done|done|done|cbn [p_bytes]; unfold_max; lia].
  unfold data_block. cbn [p_bytes]. apply (f_equal len) in Hb.
  rewrite !len_app, len_CRLF in Hb. destruct x as [|b x]; [done|].
  rewrite len_cons in Hb. pose proof (len_nonneg x).
  by rewrite (proj2 (Z.ltb_lt _ _)) by lia.
Qed.

(** Executing some of [cmds], whose text the buffer starts with and [future]
    goes on with: either the connection goes on ([ok]), everything visible
    has been sent and the rest of the commands is still to come, or a write
    has failed ([broken]) and a part has been sent. *)
Definition progress (s : server) (c : connection) (ca : cache) (cmds : list Command)
    (future : bytes) (s' : server) (c' : connection) (ok broken : Prop) : Prop :=
  exists finished rest ca' rss part, cmds = finished ++ rest /\
    cache_runs (Server.storage s) ca finished (Server.storage s') ca' rss /\
    ready pf s' c' ca' /\ sent c' = sent c ++ part /\
    ((ok /\ part = session_output finished rss /\
      waiting c' ++ future = concat (map render rest) /\ (future = [] -> rest = [])) \/
     (broken /\ part `prefix_of` session_output finished rss)).

Lemma progress_app s c ca cmds1 s1 c1 ca1 rss1 cmds2 future s' c' ok broken :
  cache_runs (Server.storage s) ca cmds1 (Server.storage s1) ca1 rss1 ->
  sent c1 = sent c ++ session_output cmds1 rss1 ->
  progress s1 c1 ca1 cmds2 future s' c' ok broken ->
  progress s c ca (cmds1 ++ cmds2) future s' c' ok broken.
Proof.
  intros Hr1 Hs1 (finished & rest & ca' & rss & part & -> & Hr & Hrdy & Hs & Hcase).
  pose proof (cache_runs_length _ _ _ _ _ _ Hr1) as Hlen.
  exists (cmds1 ++ finished), rest, ca', (rss1 ++ rss), (session_output cmds1 rss1 ++ part).
  rewrite session_output_app by done. split; [by rewrite app_assoc|].
  split; [by eapply cache_runs_app|]. split; [done|]. split; [by rewrite Hs, Hs1, app_assoc|].
  destruct Hcase as [(? & -> & ? & ?)|(? & ?)]; [left; done|right].
  split; [done|]. by apply prefix_app.
Qed.

Lemma app_eq_cases (a b l r : bytes) :
  a ++ b = l ++ r ->
  (exists k, a = l ++ k /\ r = k ++ b) \/ (exists k, k <> [] /\ l = a ++ k /\ b = k ++ r).
Proof.
  intros [(k & -> & ->)|(k & -> & ->)]%app_eq_inv; [left; by exists k|].
  destruct k as [|x k]; [left; exists []; by rewrite !app_nil_r|right; by exists (x :: k)].
Qed.

(** A buffer without a complete event makes the loop stop at once. *)
Lemma process_waits fuel s c ca cmds future :
  ready pf s c ca -> parse pf (waiting c) = Ret NeedMoreData ->
  waiting c ++ future = concat (map render cmds) -> (future = [] -> cmds = []) ->
  exists s' c' e, Connection.process (IO := IO) pf (Datatypes.S fuel) s c = Ret (s', c', e) /\
    progress s c ca cmds future s' c' (e = Connection.Break)
      (exists io, e = Connection.Return (Err io)).
Proof.
  intros Hrdy Hp Hb Hend. cbn [Connection.process].
  destruct (process_one_round pf s c ca Hrdy) as [Hp'|cmd front s' c' ca' rs e part _ _ Hp' _ _ _ _ _
    |c' _ Hw Hs Hr'|err line s' c' e part _ _ Hp' _ _ _ _]; try congruence.
  do 3 eexists. split; [done|]. exists [], cmds, ca, [], [].
  split; [done|]. split; [apply runs_nil|]. split; [done|]. split; [by rewrite app_nil_r|].
  left. by rewrite Hw.
Qed.

Lemma process_session fuel s c ca cmds future :
  Forall wf_command cmds -> Quit ∉ cmds ->
  waiting c ++ future = concat (map render cmds) -> slice_ok (waiting c ++ future) ->
  ready pf s c ca -> (length (waiting c) < fuel)%nat ->
  exists s' c' e, Connection.process pf fuel s c = Ret (s', c', e) /\
    progress s c ca cmds future s' c' (e = Connection.Break)
      (exists io, e = Connection.Return (Err io)).
Proof.
  intros Hwf. revert fuel s c ca. induction Hwf as [|cmd cmds Hcmd Hwf IH];
    intros fuel s c ca Hq Hb Hok Hrdy Hf; (destruct fuel as [|fuel]; [lia|]); cbn [map concat] in *.
  - apply (process_waits fuel s c ca [] future); [done| |done|done].
    apply app_eq_nil in Hb as [-> _]. by apply parse_none, find_crlf_none, not_elem_of_nil.
  - apply not_elem_of_cons in Hq as [Hq1 Hq].
    apply app_eq_cases in Hb as [(more & Hw & Hmore)|(x & Hne & Hx & Hfut)].
    + rewrite Hw, <- app_assoc in Hok. symmetry in Hmore.
      assert (Hp : parse pf (waiting c) = Ret (Complete cmd (len (render cmd))))
        by (rewrite Hw; apply (parse_complete_render pf _ _ Hcmd); rewrite app_assoc in Hok;
            by apply slice_ok_app_l in Hok).
      cbn [Connection.process].
      destruct (process_one_round pf s c ca Hrdy) as [Hp'|cmd' front s1 c1 ca1 rs e part Hw' _ Hp' Hstep _ Hr1 Hs1 He
        |c' Hp' _ _ _|err line s' c' e part _ _ Hp' _ _ _ _]; try congruence.
      rewrite Hp in Hp'. injection Hp' as <- Hlen.
      rewrite Hw in Hw'. apply app_inj_1 in Hw' as [<- ->]; [|unfold len in Hlen; lia].
      cbn [mbind outcome_bind].
      assert (Hrun : cache_runs (Server.storage s) ca [cmd] (Server.storage s1) ca1 [rs])
        by (econstructor; [done|constructor]).
      assert (Hout : session_output [cmd] [rs] = visible cmd (print_replies rs))
        by (unfold session_output; cbn; apply app_nil_r).
      destruct e as [[|r|]|]; cbn [arm_end] in He; try done.
      * destruct r as [[]|io]; [destruct He as [Hq' _]; by destruct cmd|].
        do 3 eexists. split; [done|]. exists [cmd], cmds, ca1, [rs], part.
        split_and!; try done. right. rewrite Hout. split; [by eexists|done].
      * destruct He as [_ ->]. destruct (IH fuel s1 c1 ca1 Hq) as (s' & c' & e & Hproc & Hprog);
          [done| |done| |].
        { by apply slice_ok_app_r in Hok. }
        { rewrite Hw, length_app in Hf. pose proof (render_length cmd). lia. }
        exists s', c', e. split; [done|]. apply (progress_app s c ca [cmd] s1 c1 ca1 [rs]); [done| |done].
        by rewrite Hout.
    + apply process_waits; [done| |by rewrite Hfut, app_assoc, <- Hx|by intros ->; destruct x].
      apply (parse_partial cmd _ x Hcmd); [|done..]. rewrite Hfut, app_assoc, <- Hx in Hok.
      by apply slice_ok_app_l in Hok.
Qed.

(** The rounds of the outer loop that read the given chunks one by one. *)
Fixpoint feed (s : server) (c : connection) (chunks : list bytes) :
    outcome (server * connection * Connection.status IO) :=
  match chunks with
  | [] => mret (s, c, Connection.Running)
  | chunk :: chunks =>
      '(s, c, st) ← Connection.on_read pf s c (Ok chunk);
      match st with
      | Connection.Running => feed s c chunks
      | _ => mret (s, c, st)
      end
  end.

Lemma feed_session chunks s c ca cmds :
  Forall wf_command cmds -> Quit ∉ cmds -> Forall (fun k => k <> []) chunks ->
  waiting c ++ concat chunks = concat (map render cmds) -> slice_ok (waiting c ++ concat chunks) ->
  ready pf s c ca -> (concat chunks = [] -> cmds = []) ->
  exists s' c' st, feed s c chunks = Ret (s', c', st) /\
    progress s c ca cmds [] s' c' (st = Connection.Running)
      (exists io, st = Connection.Done (Err io)).
Proof.
  revert s c ca cmds. induction chunks as [|k chunks IH]; intros s c ca cmds Hwf Hq Hne Hb Hok Hrdy Hend.
  - rewrite (Hend eq_refl) in *. do 3 eexists. split; [done|]. exists [], [], ca, [], [].
    split; [done|]. split; [apply runs_nil|]. split; [done|]. split; [by rewrite app_nil_r|]. by left.
  - apply Forall_cons in Hne as [Hk Hne]. cbn [concat feed] in *. rewrite app_assoc in Hb, Hok.
    rewrite on_read_eq by done. set (s1 := Server.inc_by _ _ _).
    pose proof (ready_received pf s s1 c ca k Hrdy (slice_ok_app_l _ _ Hok) eq_refl) as Hrdy1.
    rewrite <- waiting_received in Hb, Hok |- *.
    destruct (process_session (Datatypes.S (length (waiting (received c k)))) s1 _ ca cmds (concat chunks)
      Hwf Hq Hb Hok Hrdy1 (Nat.lt_succ_diag_r _)) as (s2 & c2 & e & Hp & Hprog).
    rewrite Hp. cbn [mbind outcome_bind].
    destruct Hprog as (finished & rest & ca2 & rss & part & -> & Hrun & Hr2 & Hs2 & Hcase).
    destruct Hcase as [(-> & -> & Hb2 & Hend2)|([io ->] & Hpre)]; cbn [mret outcome_ret mbind outcome_bind].
    + apply Forall_app in Hwf as [_ Hwf]. rewrite elem_of_app in Hq.
      destruct (IH s2 c2 ca2 rest Hwf ltac:(tauto) Hne Hb2) as (s' & c' & st & Hf & Hprog);
        [|done|done|].
      { rewrite Hb2. rewrite Hb, map_app, concat_app in Hok. by apply slice_ok_app_r in Hok. }
      do 3 eexists. split; [done|]. by eapply (progress_app s c ca finished s2 c2 ca2 rss).
    + do 3 eexists. split; [done|]. exists finished, rest, ca2, rss, part.
      split; [done|]. split; [done|]. split; [done|]. split; [done|]. right. eauto.
Qed.

Lemma concat_nil_cmds cmds : concat (map render cmds) = [] -> cmds = [].
Proof.
  destruct cmds as [|cmd cmds]; [done|]. cbn. intros [H _]%app_eq_nil.
  pose proof (render_length cmd). rewrite H in *. cbn in *. lia.
Qed.

(** The connection [handle] starts with. *)
Lemma waiting_start (s : server) t :
  waiting (Connection.start (T := T) (B := B) s t) = [].
Proof. apply bm_bytes_with_capacity. Qed.

Lemma start_ready (s : server) t ca :
  represents ca (Server.storage s) -> ready pf s (Connection.start (T := T) (B := B) s t) ca.
Proof.
  intros Hrep. split; [done|]. rewrite waiting_start. split; [done|].
  split; [apply text_new|done].
Qed.

End session.

(** ** The properties *)

(** C4 Whole sessions: however the network cuts the text of well-formed
    commands (none of them quit) into chunks - in the middle of a line, of a
    number or of a data block - a connection that starts on a storage that
    represents a cache executes exactly those commands, once each and in
    order, as steps of that cache, waits for more with an empty buffer, and
    has sent exactly the replies of the commands without noreply; if the
    client stops reading, it has executed the commands of a prefix of the
    list and sent a prefix of their replies.
    The system clock is assumed never to go back. *)
Theorem session_correct pf `{MCS : MemchrSpec} `{RS : RocksDBSpec DB WO E} `{BMS : BytesMutSpec B}
    `{ITS : ItoaSpec} {PR : Prometheus} {S : Type} `{TSS : TcpStreamSpec T IO}
    (s : Server.t DB WO S) (t : T) ca cmds chunks :
  represents ca (Server.storage s) -> Forall wf_command cmds -> Quit ∉ cmds ->
  Forall (fun k => k <> []) chunks -> concat chunks = concat (map render cmds) ->
  slice_ok (concat chunks) ->
  exists s' c' st finished rest ca' rss part,
    feed pf s (Connection.start (B := B) s t) chunks = Ret (s', c', st) /\
    cmds = finished ++ rest /\
    cache_runs (Server.storage s) ca finished (Server.storage s') ca' rss /\
    represents ca' (Server.storage s') /\ stream_sent (Connection.stream c') = stream_sent t ++ part /\
    ((st = Connection.Running /\ rest = [] /\ waiting c' = [] /\ part = session_output cmds rss) \/
     (exists io, st = Connection.Done (Err io) /\ part `prefix_of` session_output finished rss)).
Proof.
  intros Hrep Hwf Hq Hne Hb Hok.
  destruct (feed_session pf chunks s (Connection.start (B := B) s t) ca cmds Hwf Hq Hne)
    as (s' & c' & st & Hf & finished & rest & ca' & rss & part & -> & Hrun & Hr' & Hs & Hcase).
  - by rewrite waiting_start.
  - by rewrite waiting_start.
  - by apply start_ready.
  - rewrite Hb. apply concat_nil_cmds.
  - exists s', c', st, finished, rest, ca', rss, part.
    split; [done|]. split; [done|]. split; [done|]. split; [apply Hr'|]. split; [done|].
    destruct Hcase as [(-> & -> & Hw & Hend)|([io ->] & Hpre)]; [left|right; eauto].
    specialize (Hend eq_refl) as ->. rewrite app_nil_r in *. done.
Qed.

(** C10 The loop is safe: from any state its invariant allows, a round of the
    outer loop never gets stuck (the inner loop terminates, consuming at
    least a byte for every command), keeps the invariant and the server's
    configuration, and can panic only when a part of the received bytes is
    one of the crash inputs of the parser.
    The system clock is assumed never to go back. *)
Theorem turn_safe pf `{MCS : MemchrSpec} `{RS : RocksDBSpec DB WO E} `{BMS : BytesMutSpec B}
    `{ITS : ItoaSpec} {PR : Prometheus} {S : Type} `{TSS : TcpStreamSpec T IO}
    (s : Server.t DB WO S) (c : Connection.conn T B) ca cancelled :
  ready pf s c ca ->
  (forall chunk, snd (stream_read (Connection.stream c)) = Ok chunk -> slice_ok (waiting c ++ chunk)) ->
  match Connection.turn pf s c cancelled with
  | Panic => exists chunk pre rest, snd (stream_read (Connection.stream c)) = Ok chunk /\
      waiting c ++ chunk = pre ++ rest /\ parse pf rest = Panic
  | Ret (s', c', st) =>
      st <> Connection.Stuck /\ same_connections s s' /\ exists ca', ready pf s' c' ca'
  end.
Proof.
  intros Hr Hok. unfold Connection.turn. destruct cancelled.
  { split; [done|]. split; [done|]. by exists ca. }
  destruct (stream_read _) as [t r]. cbn [snd] in *.
  pose proof (on_read_safe pf s {| Connection.stream := t;
    Connection.read_buf := Connection.read_buf c; Connection.response := Connection.response c;
    Connection.pending_storage := Connection.pending_storage c |} ca r Hr) as H.
  specialize (H ltac:(by intros chunk ->; apply Hok)).
  destruct (Connection.on_read _ _ _ _) as [[[s' c'] st]|]; [|done]. tauto.
Qed.

(** C11 Termination: from any state the loop's invariant allows, the inner
    loop ends within one round for every two bytes of the buffer and one
    more; with that much fuel or any more it gives one and the same result -
    value, panic and final state - and never the artefact of running out.
    In particular the fuel [on_read] gives it is enough.
    The system clock is assumed never to go back. *)
Theorem process_terminates pf `{MCS : MemchrSpec} `{RS : RocksDBSpec DB WO E} `{BMS : BytesMutSpec B}
    `{ITS : ItoaSpec} {PR : Prometheus} {S : Type} `{TSS : TcpStreamSpec T IO}
    (s : Server.t DB WO S) (c : Connection.conn T B) ca :
  ready pf s c ca ->
  let rounds := Datatypes.S (length (waiting c) / 2) in
  (rounds <= Datatypes.S (length (waiting c)))%nat /\
  (forall fuel, (rounds <= fuel)%nat ->
     Connection.process (IO := IO) pf fuel s c = Connection.process pf rounds s c) /\
  (forall s' c', Connection.process (IO := IO) pf rounds s c <> Ret (s', c', Connection.OutOfFuel)).
Proof.
  intros Hr rounds. pose proof (Nat.mul_succ_div_gt (length (waiting c)) 2 ltac:(lia)).
  pose proof (Nat.Div0.div_le_upper_bound (length (waiting c)) 2 (length (waiting c)) ltac:(lia)).
  destruct (process_ends_within pf rounds s c ca Hr) as [Hne Heq]; [unfold rounds; lia|].
  split; [unfold rounds; lia|done].
Qed.

(** C25 Transparent resumption: the pending set command a connection keeps
    between reads is only a cache of its first line - the loop with it and
    the loop that parses the buffer from scratch are the same, panics,
    replies and the next state included. *)
Theorem pending_transparent pf `{MCS : MemchrSpec} `{RS : RocksDBSpec DB WO E} `{BMS : BytesMutSpec B}
    `{ITS : ItoaSpec} {PR : Prometheus} {S : Type} `{TSS : TcpStreamSpec T IO}
    (s : Server.t DB WO S) (c : Connection.conn T B) fuel :
  conn_ok pf c -> slice_ok (waiting c) -> (0 < fuel)%nat ->
  Connection.process pf fuel s c = Connection.process pf fuel s (forget c).
Proof.
  intros Hc Hok Hf. destruct fuel as [|fuel]; [lia|]. cbn [Connection.process].
  by rewrite process_one_forget.
Qed.

(** C26 Error recovery: when the buffer starts with a line that is an error,
    the loop sends exactly one CLIENT_ERROR line, drops that line and
    nothing else, executes nothing, and then stops - so that complete
    commands behind the line stay in the buffer, unexecuted, until more
    bytes arrive - or it ends because the write has failed.
    The system clock is assumed never to go back. *)
Theorem error_recovery pf `{MCS : MemchrSpec} `{RS : RocksDBSpec DB WO E} `{BMS : BytesMutSpec B}
    `{ITS : ItoaSpec} {PR : Prometheus} {S : Type} `{TSS : TcpStreamSpec T IO}
    (s : Server.t DB WO S) (c : Connection.conn T B) ca err fuel :
  ready pf s c ca -> parse pf (waiting c) = Ret (Error err) -> (0 < fuel)%nat ->
  exists s' c' e line part, Connection.process pf fuel s c = Ret (s', c', e) /\
    waiting c = line ++ CRLF ++ waiting c' /\ (CR ∉ line) /\ ready pf s' c' ca /\
    Server.storage s' = Server.storage s /\ sent c' = sent c ++ part /\
    let out := str "CLIENT_ERROR " ++ ProtocolError_display err ++ CRLF in
    (e = Connection.Break /\ part = out) \/
    (exists io, e = Connection.Return (Err io) /\ part `prefix_of` out).
Proof.
  intros Hr Hp Hf. destruct fuel as [|fuel]; [lia|]. cbn [Connection.process].
  destruct (process_one_round pf s c ca Hr) as [Hp'|cmd front s' c' ca' rs e part _ _ Hp' _ _ _ _ _
    |c' Hp' _ _ _|err' line s' c' e part Hb Hl Hp' [Hst _] Hr' Hs He]; try congruence.
  rewrite Hp in Hp'. injection Hp' as <-. cbn [mbind outcome_bind].
  destruct He as [[-> ->]|(io & -> & Hpre)]; do 3 eexists; exists line; eexists;
    (split; [done|]); (split; [done|]); (split; [done|]); (split; [done|]); (split; [done|]);
    (split; [done|]); [by left|right; eauto].
Qed.

(** C32 The connection gauge leaks: a connection that ends at the end of the
    stream, on a read error or by cancellation decrements
    [active_connections], but one that ends while commands are processed -
    quit and every failed write - ends without the decrement.
    The system clock is assumed never to go back. *)
Theorem gauge_leak pf `{MCS : MemchrSpec} `{RS : RocksDBSpec DB WO E} `{BMS : BytesMutSpec B}
    `{ITS : ItoaSpec} {PR : Prometheus} {S : Type} `{TSS : TcpStreamSpec T IO}
    (s : Server.t DB WO S) (c : Connection.conn T B) ca r :
  ready pf s c ca -> (forall chunk, r = Ok chunk -> slice_ok (waiting c ++ chunk)) ->
  forall s' c' st, Connection.on_read pf s c r = Ret (s', c', st) ->
  ((r = Ok [] \/ exists e, r = Err e) ->
     active s' = gauge_dec (active s) /\ st = Connection.Done (Ok tt)) /\
  (forall chunk, r = Ok chunk -> chunk <> [] ->
     active s' = active s /\
     (forall rest, waiting c ++ chunk = render Quit ++ rest -> exists r, st = Connection.Done r)).
Proof.
  intros Hr Hok s' c' st Hread. pose proof (on_read_safe pf s c ca r Hr Hok) as H.
  rewrite Hread in H. destruct H as (_ & _ & _ & Hg). split.
  - intros [->|[e ->]]; done.
  - intros chunk -> Hne. split; [by destruct chunk|]. intros rest Hq.
    rewrite on_read_eq in Hread by done. specialize (Hok chunk eq_refl).
    set (s1 := Server.inc_by _ _ _) in Hread.
    pose proof (ready_received pf s s1 c ca chunk Hr Hok eq_refl) as Hr1.
    rewrite <- waiting_received in Hq, Hok. cbn [Connection.process] in Hread.
    assert (Hp : parse pf (waiting (received c chunk)) = Ret (Complete Quit (len (render Quit))))
      by (rewrite Hq in *; by apply (parse_complete_render pf Quit rest)).
    destruct (process_one_round pf s1 (received c chunk) ca Hr1)
      as [Hp'|cmd front s2 c2 ca' rs e part _ _ Hp' _ _ _ _ He|c2 Hp' _ _ _
         |err' line s2 c2 e part _ _ Hp' _ _ _ _]; try congruence.
    rewrite Hp in Hp'. injection Hp' as <- _. cbn [mbind outcome_bind Connection.is_quit] in *.
    destruct e as [[|r|]|]; cbn [arm_end mbind outcome_bind mret outcome_ret] in *; try done;
      [|by destruct He].
    outcome_inv. by eexists.
Qed.

(** ** Witnesses *)

(** A new connection on a server with an empty database, having received
    [buf]. *)
Definition ex_conn (buf : bytes) (input : list bytes) : Connection.conn RefStream bytes :=
  {| Connection.stream := ex_stream input; Connection.read_buf := buf;
     Connection.response := ResponseWriter.new 16; Connection.pending_storage := None |}.

Lemma ex_ready pf buf input :
  slice_ok buf -> ready (S := Z) (RS := ref_rocksdb_spec) pf (ex_server ∅ 5 1) (ex_conn buf input) ∅.
Proof. intros H. split; [done|]. split; [done|]. split; [done|]. by apply represents_empty. Qed.

Lemma session_correct_witness :
  exists s' c' st, feed (IO := bytes) Release (ex_server ∅ 5 1)
    (Connection.start (B := bytes) (ex_server ∅ 5 1) (ex_stream []))
    [str "set k 7 0 2" ++ [CR]; LF :: str "h"; str "i" ++ CRLF ++ str "get k" ++ CRLF] =
    Ret (s', c', st).
Proof.
  destruct (session_correct (RS := ref_rocksdb_spec) (TSS := ref_stream_spec) (B := bytes) Release
    (ex_server ∅ 5 1) (ex_stream []) ∅
    [Set_ (str "k") 7 0 (str "hi") false; Get [str "k"]]
    [str "set k 7 0 2" ++ [CR]; LF :: str "h"; str "i" ++ CRLF ++ str "get k" ++ CRLF])
    as (s' & c' & st & ? & ? & ? & ? & ? & Hf & _).
  - by apply represents_empty.
  - repeat constructor; by_compute.
  - by_compute.
  - repeat constructor; done.
  - by vm_compute.
  - vm_compute. discriminate.
  - by exists s', c', st.
Defined.

Lemma turn_safe_witness :
  match Connection.turn (IO := bytes) Release (ex_server ∅ 5 1)
    (ex_conn (str "ge") [str "t k" ++ CRLF]) false with
  | Panic => exists rest, parse Release rest = Panic
  | Ret (_, _, st) => st <> Connection.Stuck
  end.
Proof.
  pose proof (turn_safe (RS := ref_rocksdb_spec) (TSS := ref_stream_spec) Release
    (ex_server ∅ 5 1) (ex_conn (str "ge") [str "t k" ++ CRLF]) ∅ false) as H.
  specialize (H (ex_ready Release (str "ge") [str "t k" ++ CRLF] ltac:(vm_compute; discriminate))).
  specialize (H ltac:(intros chunk [= <-]; vm_compute; discriminate)).
  destruct (Connection.turn _ _ _ _) as [[[s' c'] st]|]; [apply H|].
  destruct H as (_ & _ & rest & _ & _ & Hp). by exists rest.
Defined.

Lemma process_terminates_witness :
  Connection.process (IO := bytes) Release 17 (ex_server ∅ 5 1)
    (ex_conn (str "version" ++ CRLF ++ str "quit" ++ CRLF) []) =
  Connection.process Release 8 (ex_server ∅ 5 1)
    (ex_conn (str "version" ++ CRLF ++ str "quit" ++ CRLF) []).
Proof.
  set (c := ex_conn (str "version" ++ CRLF ++ str "quit" ++ CRLF) []).
  destruct (process_terminates (RS := ref_rocksdb_spec) (TSS := ref_stream_spec) Release
    (ex_server ∅ 5 1) c ∅) as (_ & Hfuel & _).
  - apply ex_ready. vm_compute. discriminate.
  - change (Datatypes.S (length (waiting c) / 2)) with 8%nat in Hfuel. apply Hfuel. lia.
Defined.

Lemma pending_transparent_witness :
  exists p, parse_storage_command_line Release (str "set k 0 0 2" ++ CRLF ++ str "h") = Ret (Ok (Some p)) /\
  let c := {| Connection.stream := ex_stream []; Connection.response := ResponseWriter.new 16;
              Connection.read_buf := str "set k 0 0 2" ++ CRLF ++ str "h";
              Connection.pending_storage := Some p |} in
  Connection.process (IO := bytes) Release 1 (ex_server ∅ 5 1) c =
  Connection.process Release 1 (ex_server ∅ 5 1) (forget c).
Proof.
  eexists. split; [by vm_compute|]. cbn zeta.
  apply (pending_transparent (RS := ref_rocksdb_spec) (TSS := ref_stream_spec) Release).
  - by vm_compute.
  - vm_compute. discriminate.
  - lia.
Defined.

Lemma error_recovery_witness :
  exists s' c' e, Connection.process (IO := bytes) Release 3 (ex_server ∅ 5 1)
    (ex_conn (str "bogus" ++ CRLF ++ str "get k" ++ CRLF) []) = Ret (s', c', e) /\
    Server.storage s' = Server.storage (ex_server ∅ 5 1).
Proof.
  destruct (error_recovery (RS := ref_rocksdb_spec) (TSS := ref_stream_spec) Release
    (ex_server ∅ 5 1) (ex_conn (str "bogus" ++ CRLF ++ str "get k" ++ CRLF) []) ∅
    (InvalidCommand (str "bogus")) 3) as (s' & c' & e & line & part & Hp & _ & _ & _ & Hst & _).
  - apply ex_ready. vm_compute. discriminate.
  - by vm_compute.
  - lia.
  - by exists s', c', e.
Defined.

Lemma gauge_leak_witness :
  match Connection.on_read (IO := bytes) Release (ex_server ∅ 5 1) (ex_conn [] [])
    (Ok (str "quit" ++ CRLF)) with
  | Ret (s', _, st) =>
      active s' = active (ex_server ∅ 5 1) /\ exists r, st = Connection.Done r
  | Panic => False
  end.
Proof.
  assert (Hr : ready (RS := ref_rocksdb_spec) Release (ex_server ∅ 5 1) (ex_conn [] []) ∅)
    by (apply ex_ready; vm_compute; discriminate).
  assert (Hok : forall chunk, Ok (str "quit" ++ CRLF) = Ok (E := bytes) chunk ->
    slice_ok (waiting (ex_conn [] []) ++ chunk))
    by (intros chunk [= <-]; vm_compute; discriminate).
  pose proof (gauge_leak (RS := ref_rocksdb_spec) (TSS := ref_stream_spec) Release
    (ex_server ∅ 5 1) (ex_conn [] []) ∅ (Ok (str "quit" ++ CRLF)) Hr Hok) as H.
  assert (Hret : match Connection.on_read (IO := bytes) Release (ex_server ∅ 5 1) (ex_conn [] [])
    (Ok (str "quit" ++ CRLF)) with Ret _ => true | Panic => false end = true)
    by (vm_compute; reflexivity).
  destruct (Connection.on_read _ _ _ _) as [[[s' c'] st]|]; [|discriminate Hret].
  destruct (H s' c' st eq_refl) as [_ H']. destruct (H' _ eq_refl) as [Ha Hq]; [done|].
  split; [done|]. by apply (Hq []).
Defined.
