(* ===== verification/TraceProps.v ===== *)
(** * Whole connections on arbitrary input

    Everything a connection does is explained by a log: its events are read
    off the bytes received by the parser alone, its replies are the ones of
    the abstract cache, and the bytes sent are the replies that are shown. *)

From S2P Require Import Prelude RustStd Extern Reference Errors Command Parser ParserFacts ParserProps.
From S2P Require Import Value Storage StorageFacts StorageProps Response Metrics Config ServerState.
From S2P Require Import Examples Handler Spec HandlerProps Connection ConnectionFacts Trace.
From S2P Require Import ConnectionProps.
#[local] Open Scope petra_scope.

Section facts.
Context (pf : profile) `{MCS : MemchrSpec} `{RS : RocksDBSpec DB WO E} `{BMS : BytesMutSpec B}.
Context `{ITS : ItoaSpec} {PR : Prometheus} {S : Type} `{TSS : TcpStreamSpec T IO}.

Abbreviation server := (Server.t DB WO S).
Abbreviation connection := (Connection.conn T B).

(** The bytes received so far. *)
Definition got (c : connection) : bytes := stream_got (Connection.stream c).

(** Nothing is left to do with [buf] after [log]: it holds no complete
    event, or the last event was an error, which ends a round. *)
Definition settled (log : list entry) (buf : bytes) : Prop :=
  parse pf buf = Ret NeedMoreData \/ ends_with is_error log.

(** How the inner loop ends after [log], with [buf] left and [part] sent. *)
Definition loop_end (log : list entry) (buf part : bytes) (e : Connection.exit IO) : Prop :=
  match e with
  | Connection.Break => part = shown_log log /\ settled log buf
  | Connection.Return (Ok _) => part = shown_log log /\ ends_with is_quit_entry log
  | Connection.Return (Err _) => part `prefix_of` shown_log log
  | Connection.OutOfFuel => part = shown_log log
  end.

Lemma loop_end_cons en log buf part e :
  loop_end log buf part e -> loop_end (en :: log) buf (shown en ++ part) e.
Proof.
  change (shown_log (en :: log)) with (shown en ++ shown_log log).
  destruct e as [|[]|]; cbn [loop_end].
  - intros [-> [H|H]]; (split; [done|]); [by left|right; by apply ends_with_cons].
  - intros [-> H]. split; [done|by apply ends_with_cons].
  - intros H. by apply prefix_app.
  - by intros ->.
Qed.

(** What [process] has done between two states. *)
Definition accounted (s : server) (c : connection) (ca : cache) (s' : server) (c' : connection)
    (ending : list entry -> bytes -> Prop) : Prop :=
  exists log ca' part, explains pf log (waiting c) (waiting c') /\
    history (Server.storage s) ca log (Server.storage s') ca' /\
    ready pf s' c' ca' /\ sent c' = sent c ++ part /\ ending log part.

Lemma same_server_config (s s' : server) :
  same_server s s' -> same_config (Server.storage s) (Server.storage s').
Proof. intros (_ & _ & _ & _ & H). exact H. Qed.

(** The arm of a command, in terms of the log of that command. *)
Lemma command_accounted (s s' : server) (c c' : connection) ca ca' cmd front rs part :
  waiting c = front ++ waiting c' -> parse pf (waiting c) = Ret (Complete cmd (len front)) ->
  cache_step (db_fails (Server.storage s) cmd) (timestamp (st_clock (Server.storage s)))
    (timestamp (st_clock (Server.storage s'))) ca cmd ca' rs ->
  same_server s s' -> ready pf s c ca -> ready pf s' c' ca' -> sent c' = sent c ++ part ->
  accounted s c ca s' c' (fun log out => log = [(EvCommand cmd, rs)] /\ out = part).
Proof.
  intros Hb Hp Hstep Hs Hr Hr' Hsent. exists [(EvCommand cmd, rs)], ca', part.
  split; [|split; [|by split_and!]].
  - rewrite Hb in *. eapply explains_cons; [by apply next_event_command|apply explains_nil].
  - apply history_single; [by constructor|apply Hr|by apply same_server_config|apply Hr'].
Qed.

Lemma error_accounted (s s' : server) (c c' : connection) ca err line part :
  waiting c = line ++ CRLF ++ waiting c' -> (CR ∉ line) ->
  parse pf (waiting c) = Ret (Error err) -> same_state s s' -> ready pf s c ca ->
  ready pf s' c' ca -> sent c' = sent c ++ part ->
  accounted s c ca s' c' (fun log out =>
    log = [(EvError err, [RClientError (ProtocolError_display err)])] /\ out = part).
Proof.
  intros Hb Hl Hp [Hst _] Hr Hr' Hsent. eexists _, ca, part.
  split; [|split; [|by split_and!]].
  - rewrite Hb in *. eapply explains_cons; [by apply next_event_error|apply explains_nil].
  - rewrite Hst. apply history_single; [constructor|apply Hr|by split_and!|apply Hr].
Qed.

(** Accounts compose. *)
Lemma accounted_trans s c ca s1 c1 ca1 log1 out1 s2 c2 (ending : list entry -> bytes -> Prop) :
  explains pf log1 (waiting c) (waiting c1) ->
  history (Server.storage s) ca log1 (Server.storage s1) ca1 -> sent c1 = sent c ++ out1 ->
  accounted s1 c1 ca1 s2 c2 (fun log out => ending (log1 ++ log) (out1 ++ out)) ->
  accounted s c ca s2 c2 ending.
Proof.
  intros He1 Hh1 Hs1 (log & ca2 & out & He & Hh & Hr & Hs & Hend).
  exists (log1 ++ log), ca2, (out1 ++ out). split; [by eapply explains_app|].
  split; [by eapply history_app|]. split; [done|]. split; [by rewrite Hs, Hs1, app_assoc|done].
Qed.

Lemma accounted_weaken s c ca s' c' (end1 end2 : list entry -> bytes -> Prop) :
  (forall log out, end1 log out -> end2 log out) ->
  accounted s c ca s' c' end1 -> accounted s c ca s' c' end2.
Proof. intros H (log & ca' & out & ? & ? & ? & ? & ?). exists log, ca', out. auto 6. Qed.

Lemma process_accounted fuel (s : server) (c : connection) ca s' c' e :
  ready pf s c ca -> Connection.process pf fuel s c = Ret (s', c', e) ->
  accounted s c ca s' c' (fun log out => loop_end log (waiting c') out e).
Proof.
  revert s c ca. induction fuel as [|fuel IH]; intros s c ca Hr; cbn [Connection.process].
  { intros [= <- <- <-]. exists [], ca, []. split; [done|]. split; [apply history_nil|].
    split; [done|]. by rewrite app_nil_r. }
  destruct (process_one_round pf s c ca Hr)
    as [Hp|cmd front s1 c1 ca1 rs e1 part Hb _ Hp Hstep Hs1 Hr1 Hsent He
    |c1 Hp Hw Hsent Hr1|err line s1 c1 e1 part Hb Hl Hp Hs1 Hr1 Hsent He]; cbn [mbind outcome_bind].
  - done.
  - pose proof (command_accounted _ _ _ _ _ _ _ _ _ _ Hb Hp Hstep Hs1 Hr Hr1 Hsent) as Hacc.
    destruct e1 as [e1|]; cbn [arm_end] in He.
    + intros [= <- <- <-]. eapply accounted_weaken; [|done]. intros log out [-> ->].
      destruct e1 as [|[[]|io]|]; cbn [loop_end] in *; rewrite ?shown_log_single; try done.
      destruct He as [Hq ->]. split; [done|]. eexists. split; [done|]. by destruct cmd.
    + intros Hproc. destruct He as [_ ->].
      destruct Hacc as (log1 & ca1' & out1 & Hex & Hh & Hr1' & Hs' & -> & ->).
      eapply (accounted_trans s c ca s1 c1 ca1'); [done..|].
      eapply accounted_weaken; [|by apply (IH s1 c1 ca1' Hr1')].
      intros log out. apply (loop_end_cons (EvCommand cmd, rs)).
  - intros [= <- <- <-]. exists [], ca, []. rewrite Hw. split; [done|]. split; [apply history_nil|].
    split; [done|]. split; [by rewrite Hsent, app_nil_r|]. split; [done|by left].
  - pose proof (error_accounted _ _ _ _ _ _ _ _ Hb Hl Hp Hs1 Hr Hr1 Hsent) as Hacc.
    destruct He as [[-> ->]|(io & -> & Hpre)]; cbn [mbind outcome_bind]; intros [= <- <- <-];
      (eapply accounted_weaken; [|done]); intros log out [-> ->]; cbn [loop_end];
      rewrite shown_log_single; unfold shown, print_replies; cbn [map concat]; rewrite app_nil_r.
    + split; [done|]. right. eexists. split; [done|by eexists].
    + done.
Qed.

(** ** The bytes received *)

Lemma send_got (s : server) (c : connection) s' c' r :
  Connection.send s c = (s', c', r) -> got c' = got c.
Proof.
  unfold Connection.send. destruct (ResponseWriter.take _) as [b w].
  destruct (stream_write_all _ _) as [t r'] eqn:Ew. intros [= <- <- <-].
  by apply stream_write_got in Ew.
Qed.

Lemma process_one_got (s : server) (c : connection) s' c' (e : option (Connection.exit IO)) :
  Connection.process_one pf s c = Ret (s', c', e) -> got c' = got c.
Proof.
  unfold Connection.process_one, Connection.on_complete, Connection.on_need_more,
    Connection.on_error, mbind, outcome_bind, mret, outcome_ret.
  repeat first [progress intros | case_match]; simplify_eq; try done;
    match goal with H : Connection.send _ _ = _ |- _ => by apply send_got in H end.
Qed.

Lemma process_got fuel (s : server) (c : connection) s' c' e :
  Connection.process pf fuel s c = Ret (s', c', e) -> got c' = got c.
Proof.
  revert s c. induction fuel as [|fuel IH]; intros s c; cbn [Connection.process].
  - by intros [= <- <- <-].
  - destruct (Connection.process_one pf s c) as [[[s1 c1] e1]|] eqn:E1; [|done].
    cbn [mbind outcome_bind]. apply process_one_got in E1 as <-.
    destruct e1 as [e1|]; [by intros [= <- <- <-]|apply IH].
Qed.

(** ** Rounds of the outer loop *)

(** How a round of the outer loop ends. *)
Definition turn_end (log : list entry) (buf part : bytes) (st : Connection.status IO) : Prop :=
  match st with
  | Connection.Running => part = shown_log log /\ settled log buf
  | Connection.Done (Ok _) => part = shown_log log /\ (log = [] \/ ends_with is_quit_entry log)
  | Connection.Done (Err _) => part `prefix_of` shown_log log
  | Connection.Stuck => False
  end.

Lemma turn_got (s : server) (c : connection) cancelled s' c' st :
  Connection.turn pf s c cancelled = Ret (s', c', st) -> got c' = got c ++ Connection.arrival c cancelled.
Proof.
  unfold Connection.turn, Connection.arrival. destruct cancelled.
  { intros [= <- <- <-]. by rewrite app_nil_r. }
  destruct (stream_read _) as [t r] eqn:Et. apply stream_read_got in Et. cbn [snd].
  change (stream_got (Connection.stream c)) with (got c) in Et. rewrite <- Et.
  destruct r as [[|b k]|e]; cbn [Connection.on_read]; try by intros [= <- <- <-].
  destruct (Connection.process _ _ _ _) as [[[s2 c2] e]|] eqn:Ep; [|done].
  apply process_got in Ep. cbn [mbind outcome_bind]. intros Hret. assert (c' = c2) as -> by (by destruct e; outcome_inv).
  exact Ep.
Qed.

(** What a round that has read [chunk] has done. *)
Definition turn_accounted (s : server) (c : connection) (ca : cache) (chunk : bytes)
    (s' : server) (c' : connection) (st : Connection.status IO) : Prop :=
  exists log ca' part, got c' = got c ++ chunk /\
    explains pf log (waiting c ++ chunk) (waiting c') /\
    history (Server.storage s) ca log (Server.storage s') ca' /\
    ready pf s' c' ca' /\ sent c' = sent c ++ part /\ turn_end log (waiting c') part st.

(** A round that only ends the connection. *)
Lemma leave_accounted (s : server) (c c' : connection) ca :
  ready pf s c ca -> got c' = got c -> waiting c' = waiting c -> sent c' = sent c ->
  ready pf s c' ca ->
  turn_accounted s c ca [] (fst (fst (Connection.leave (IO := IO) s c'))) c'
    (Connection.Done (Ok tt)).
Proof.
  intros Hr Hg Hw Hs Hr'. exists [], ca, []. rewrite Hg, Hw, Hs, !app_nil_r.
  split; [done|]. split; [done|]. split; [apply history_nil|]. split; [done|].
  split; [done|]. split; [done|by left].
Qed.

Lemma turn_accounts (s : server) (c : connection) ca cancelled s' c' st :
  ready pf s c ca ->
  slice_ok (waiting c ++ Connection.arrival c cancelled) ->
  Connection.turn pf s c cancelled = Ret (s', c', st) ->
  turn_accounted s c ca (Connection.arrival c cancelled) s' c' st.
Proof.
  unfold Connection.arrival. intros Hr Hok. unfold Connection.turn. destruct cancelled.
  { intros [= <- <- <-]. by apply (leave_accounted s c c). }
  destruct (stream_read _) as [t r] eqn:Et. cbn [snd] in Hok.
  pose proof (stream_read_sent _ _ _ Et) as Hsent. pose proof (stream_read_got _ _ _ Et) as Hgot.
  set (c1 := {| Connection.stream := t; Connection.read_buf := Connection.read_buf c;
    Connection.response := Connection.response c;
    Connection.pending_storage := Connection.pending_storage c |}).
  destruct r as [[|b k]|e]; cbn [Connection.on_read];
    try (intros [= <- <- <-]; apply (leave_accounted s c c1); [done| |done|done|done];
         unfold got, c1; cbn [Connection.stream]; by rewrite Hgot, app_nil_r).
  set (chunk := b :: k) in *. pose proof (on_read_eq pf s c1 chunk ltac:(done)) as Heq. cbn [Connection.on_read] in Heq.
  unfold chunk in Heq at 1. rewrite Heq. clear Heq. set (s1 := Server.inc_by _ _ _).
  destruct (Connection.process _ _ _ _) as [[[s2 c2] e]|] eqn:Ep; [|done].
  pose proof (ready_received pf s s1 c1 ca chunk Hr Hok eq_refl) as Hr1.
  pose proof (process_safe pf _ s1 _ ca Hr1 (Nat.lt_succ_diag_r _)) as Hsafe.
  rewrite waiting_received in Hsafe. change (waiting c1) with (waiting c) in *.
  rewrite Ep in Hsafe. destruct Hsafe as [Hfuel _].
  pose proof (process_got _ _ _ _ _ _ Ep) as Hg2.
  apply (process_accounted _ _ _ ca _ _ _ Hr1) in Ep as (log & ca' & part & Hex & Hh & Hr2 & Hs2 & Hend).
  rewrite waiting_received in Hex. cbn [mbind outcome_bind]. intros Hret.
  exists log, ca', part.
  assert (s' = s2 /\ c' = c2) as [-> ->] by (by destruct e; outcome_inv).
  split; [rewrite Hg2; exact Hgot|]. split; [done|]. split; [done|]. split; [done|].
  split; [rewrite Hs2; unfold sent at 1; cbn; by rewrite Hsent|].
  destruct e as [|[]|]; cbn [loop_end] in Hend; outcome_inv; cbn [turn_end]; try done.
  destruct Hend. auto.
Qed.

(** ** The life of a connection *)

(** The log [log] explains what the connection has received and sent. *)
Definition explained (log : list entry) (c : connection) : Prop :=
  explains pf log (got c) (waiting c) /\ sent c = shown_log log.

(** The same of a connection that has ended with [r]. *)
Definition explained_end (log : list entry) (c : connection) (r : result unit IO) : Prop :=
  explains pf log (got c) (waiting c) /\
  match r with
  | Ok _ => sent c = shown_log log
  | Err _ => sent c `prefix_of` shown_log log
  end.

(** The log of a round extends the log of the connection. *)
Lemma turn_explained s c ca chunk s' c' st :
  turn_accounted s c ca chunk s' c' st ->
  exists log2 ca', history (Server.storage s) ca log2 (Server.storage s') ca' /\
    ready pf s' c' ca' /\
    forall log1, explained log1 c -> slice_ok (got c') ->
    match st with
    | Connection.Running => explained (log1 ++ log2) c' /\ settled (log1 ++ log2) (waiting c')
    | Connection.Done r => explained_end (log1 ++ log2) c' r
    | Connection.Stuck => False
    end.
Proof.
  intros (log2 & ca' & part & Hg & Hex2 & Hh & Hr & Hs2 & Hend).
  exists log2, ca'. split; [done|]. split; [done|]. intros log1 [Hex Hs] Hok.
  assert (explains pf (log1 ++ log2) (got c') (waiting c')).
  { rewrite Hg in *. eapply explains_app; [|done]. by apply explains_more. }
  unfold explained, explained_end. rewrite shown_log_app, Hs2, Hs.
  destruct st as [|[]|]; cbn [turn_end] in Hend; [destruct Hend as [-> Hset]|destruct Hend as [-> _]| |];
    (repeat split; try done).
  - destruct Hset; [by left|right; by apply ends_with_app].
  - by apply prefix_app.
Qed.

Lemma explained_fits log c chunk :
  explained log c -> slice_ok (got c ++ chunk) -> slice_ok (waiting c ++ chunk).
Proof.
  intros [Hex _] Hok. pose proof (explains_split pf log _ _ (slice_ok_app_l _ _ Hok) Hex) as [pre E1].
  rewrite E1, <- app_assoc in Hok. by apply slice_ok_app_r in Hok.
Qed.

Lemma run_got choices (s : server) (c : connection) s' c' st :
  Connection.run pf choices s c = Ret (s', c', st) -> got c `prefix_of` got c'.
Proof.
  revert s c. induction choices as [|cancelled choices IH]; intros s c; cbn [Connection.run].
  { by intros [= <- <- <-]. }
  destruct (Connection.turn pf s c cancelled) as [[[s1 c1] st1]|] eqn:Et; [|done].
  apply turn_got in Et. cbn [mbind outcome_bind].
  assert (got c `prefix_of` got c1) by (rewrite Et; by apply prefix_app_r).
  destruct st1; [intros H1%IH; by etrans|by intros [= <- <- <-]..].
Qed.

Lemma run_explained choices log1 (s : server) (c : connection) ca s' c' st :
  ready pf s c ca -> explained log1 c -> settled log1 (waiting c) ->
  Connection.run pf choices s c = Ret (s', c', st) -> slice_ok (got c') ->
  exists log2 ca', history (Server.storage s) ca log2 (Server.storage s') ca' /\
    ready pf s' c' ca' /\
    match st with
    | Connection.Running => explained (log1 ++ log2) c' /\ settled (log1 ++ log2) (waiting c')
    | Connection.Done r => explained_end (log1 ++ log2) c' r
    | Connection.Stuck => False
    end.
Proof.
  intros Hr Hex Hset Hrun Hok. revert log1 s c ca Hr Hex Hset Hrun.
  induction choices as [|cancelled choices IH]; intros log1 s c ca Hr Hex Hset; cbn [Connection.run].
  { intros [= <- <- <-]. exists [], ca. rewrite app_nil_r. split; [apply history_nil|done]. }
  destruct (Connection.turn pf s c cancelled) as [[[s1 c1] st1]|] eqn:Et; [|done].
  cbn [mbind outcome_bind]. intros Hrun.
  assert (Hok1 : slice_ok (got c1)).
  { assert (got c1 `prefix_of` got c') as [k Hk]
      by (destruct st1; [by eapply run_got|by outcome_inv..]).
    rewrite Hk in Hok. by apply slice_ok_app_l in Hok. }
  pose proof (turn_got _ _ _ _ _ _ Et) as Hg. rewrite Hg in Hok1.
  apply (turn_accounts s c ca) in Et as Hacc; [|done|by eapply explained_fits].
  destruct (turn_explained _ _ _ _ _ _ _ Hacc) as (log2 & ca1 & Hh & Hr1 & Hcase).
  specialize (Hcase log1 Hex ltac:(by rewrite Hg)).
  destruct st1 as [|r|]; [|outcome_inv; by exists log2, ca1|done].
  destruct Hcase as [Hex1 Hset1].
  destruct (IH _ _ _ _ Hr1 Hex1 Hset1 Hrun) as (log3 & ca3 & Hh3 & Hr3 & Hcase3).
  exists (log2 ++ log3), ca3. rewrite app_assoc. split; [by eapply history_app|done].
Qed.

Lemma start_explained (s : server) t :
  stream_got t = [] -> stream_sent t = [] -> explained [] (Connection.start (B := B) s t).
Proof.
  intros Hg Hs. split; [|exact Hs]. unfold got. rewrite waiting_start. cbn. by rewrite Hg.
Qed.

Lemma start_task (s : server) (t : T) : task_ok pf (Connection.start (B := B) s t).
Proof. split; [done|]. rewrite waiting_start. split; [done|apply text_new]. Qed.

Lemma handle_explained choices (s s' : server) t (c' : connection) ca st :
  represents ca (Server.storage s) -> stream_got t = [] -> stream_sent t = [] ->
  Connection.handle pf choices s t = Ret (s', c', st) -> slice_ok (got c') ->
  exists log ca', history (Server.storage s) ca log (Server.storage s') ca' /\
    ready pf s' c' ca' /\
    match st with
    | Connection.Running => explained log c' /\ settled log (waiting c')
    | Connection.Done r => explained_end log c' r
    | Connection.Stuck => False
    end.
Proof.
  intros Hrep Hg Hs Hrun Hok.
  apply (run_explained choices [] s (Connection.start s t) ca s' c' st);
    [by apply start_ready|by apply start_explained| |done|done].
  left. rewrite waiting_start. by apply parse_none, find_crlf_none, not_elem_of_nil.
Qed.

End facts.

(** ** The properties *)

(** C6 Every connection, whatever bytes it receives - well-formed or not,
    cut in any way, ended by the client, by an error or by cancellation - is
    explained by a log: the events of the log are exactly the commands and
    the rejected lines that the parser alone reads off the bytes received,
    in order and once each; they are a run of the abstract cache from the
    first storage to the last; the bytes sent are exactly their visible
    replies (a prefix of them if a write has failed); and a connection that
    goes on has left in its buffer only input without a complete event,
    unless the last event was an error.
    The system clock is assumed never to go back. *)
Theorem connection_history pf `{MCS : MemchrSpec} `{RS : RocksDBSpec DB WO E} `{BMS : BytesMutSpec B}
    `{ITS : ItoaSpec} {PR : Prometheus} {S : Type} `{TSS : TcpStreamSpec T IO}
    (s s' : Server.t DB WO S) (t : T) (c' : Connection.conn T B) ca choices st :
  represents ca (Server.storage s) -> stream_got t = [] -> stream_sent t = [] ->
  Connection.handle pf choices s t = Ret (s', c', st) -> slice_ok (got c') ->
  exists log ca', explains pf log (got c') (waiting c') /\
    history (Server.storage s) ca log (Server.storage s') ca' /\
    represents ca' (Server.storage s') /\
    match st with
    | Connection.Running => sent c' = shown_log log /\ settled pf log (waiting c')
    | Connection.Done (Ok _) => sent c' = shown_log log
    | Connection.Done (Err _) => sent c' `prefix_of` shown_log log
    | Connection.Stuck => False
    end.
Proof.
  intros Hrep Hg Hs Hrun Hok.
  destruct (handle_explained pf choices s s' t c' ca st Hrep Hg Hs Hrun Hok)
    as (log & ca' & Hh & (_ & _ & _ & Hrep') & Hcase).
  exists log, ca'. destruct st as [|r|]; [|destruct Hcase as [Hex Hcase]|done].
  - destruct Hcase as [[Hex Hs'] Hset]. auto.
  - auto.
Qed.

(** C7 End to end: a connection that has not been ended by a failed write is
    explained by a log, and a client that reads what it has been sent with the
    reader of memcached replies gets back exactly the replies of this log,
    command by command and line by line, without those to noreply commands -
    whatever bytes it has sent and whatever bytes the values contain - up to
    the first error text of the database that contains a carriage return,
    which the server sends as it is (the only server errors are the texts of
    database errors): after reading the replies of the part of
    the log before it, what is left is the text of the rest.  The system
    clock is assumed never to go back. *)
Theorem client_reads_replies pf `{MCS : MemchrSpec} `{RS : RocksDBSpec DB WO E}
    `{BMS : BytesMutSpec B} `{ITS : ItoaSpec} {PR : Prometheus} {S : Type}
    `{TSS : TcpStreamSpec T IO} (s s' : Server.t DB WO S) (t : T) (c' : Connection.conn T B)
    ca choices st :
  represents ca (Server.storage s) -> stream_got t = [] -> stream_sent t = [] ->
  Connection.handle pf choices s t = Ret (s', c', st) -> slice_ok (got c') ->
  (forall io, st <> Connection.Done (Err io)) ->
  exists log ca', explains pf log (got c') (waiting c') /\
    history (Server.storage s) ca log (Server.storage s') ca' /\
    (forall msg, RServerError msg ∈ concat (map shown_replies log) ->
       exists e : E, msg = StorageError_display (RocksDb e)) /\
    (forall log1 log2, log = log1 ++ log2 ->
       let replies := concat (map shown_replies log1) in
       (forall msg, RServerError msg ∈ replies -> CR ∉ msg) ->
       read_replies (length replies) (sent c') = (replies, shown_log log2)) /\
    (let replies := concat (map shown_replies log) in
     (forall msg, RServerError msg ∈ replies -> CR ∉ msg) ->
     forall fuel, (length replies <= fuel)%nat -> read_replies fuel (sent c') = (replies, [])).
Proof.
  intros Hrep Hg Hs Hrun Hok Hst.
  destruct (handle_explained pf choices s s' t c' ca st Hrep Hg Hs Hrun Hok)
    as (log & ca' & Hh & _ & Hcase).
  assert (explained pf log c') as [Hex Hsent].
  { destruct st as [|[[]|io]|]; [apply Hcase|exact Hcase|by destruct (Hst io)|done]. }
  assert (Hread : Forall readable log)
    by (eapply history_readable; [exact Hh|done|by eapply explains_wf]).
  assert (Hwf : forall l, Forall readable l ->
    (forall msg, RServerError msg ∈ concat (map shown_replies l) -> CR ∉ msg) ->
    Forall wf_reply (concat (map shown_replies l))).
  { intros l Hl Hmsg. apply readable_replies; [done|]. apply Forall_forall.
    intros [] Hin; try done. by apply Hmsg. }
  exists log, ca'. split; [done|]. split; [done|]. split; [|split].
  - intros msg Hin. apply history_errors in Hh. rewrite Forall_forall in Hh. by apply (Hh _ Hin).
  - intros log1 log2 -> replies Hmsg. rewrite Hsent, shown_log_app, (shown_log_replies log1).
    apply Forall_app in Hread as [Hread _]. by apply read_replies_front, Hwf.
  - intros replies Hmsg fuel Hf. rewrite Hsent, shown_log_replies, <- (app_nil_r (print_replies _)).
    by apply read_replies_print; [apply Hwf| |].
Qed.

(** ** Witnesses *)


Lemma connection_history_witness :
  exists s' c' log, Connection.handle (IO := bytes) Release [false; false] (ex_server ∅ 5 1)
      (ex_stream [str "version" ++ CRLF ++ str "bogus"; CRLF ++ str "get"]) =
    Ret (s', c', Connection.Running) /\
  explains Release log (str "version" ++ CRLF ++ str "bogus" ++ CRLF ++ str "get")
    (waiting (B := bytes) c') /\
  stream_sent (Connection.stream c') = shown_log log.
Proof.
  set (t := ex_stream _).
  assert (Hret : match Connection.handle (B := bytes) (IO := bytes) Release [false; false]
      (ex_server ∅ 5 1) t with
    | Ret (_, c', Connection.Running) =>
        bool_decide (got c' = str "version" ++ CRLF ++ str "bogus" ++ CRLF ++ str "get")
    | _ => false end = true) by (vm_compute; reflexivity).
  destruct (Connection.handle _ _ _ _) as [[[s' c'] [| |]]|] eqn:Eh; try discriminate Hret.
  apply bool_decide_eq_true in Hret as Hgot.
  destruct (connection_history (RS := ref_rocksdb_spec) (TSS := ref_stream_spec) Release
    (ex_server ∅ 5 1) s' t c' ∅ [false; false] Connection.Running)
    as (log & ca' & Hex & _ & _ & Hs & _).
  - by apply represents_empty.
  - reflexivity.
  - reflexivity.
  - exact Eh.
  - rewrite Hgot. vm_compute. discriminate.
  - exists s', c', log. split; [done|]. by rewrite Hgot in Hex.
Defined.

Lemma client_reads_replies_witness :
  exists s' (c' : Connection.conn RefStream bytes) log,
    Connection.handle (IO := bytes) Release [false; false] (ex_server ∅ 5 1)
      (ex_stream [str "version" ++ CRLF ++ str "bogus"; CRLF ++ str "get"]) =
    Ret (s', c', Connection.Running) /\
  read_replies (length (concat (map shown_replies log))) (sent c') =
    (concat (map shown_replies log), []).
Proof.
  set (t := ex_stream _).
  assert (Hret : match Connection.handle (B := bytes) (IO := bytes) Release [false; false]
      (ex_server ∅ 5 1) t with
    | Ret (_, c', Connection.Running) =>
        bool_decide (got c' = str "version" ++ CRLF ++ str "bogus" ++ CRLF ++ str "get")
    | _ => false end = true) by (vm_compute; reflexivity).
  destruct (Connection.handle _ _ _ _) as [[[s' c'] [| |]]|] eqn:Eh; try discriminate Hret.
  apply bool_decide_eq_true in Hret as Hgot.
  exists s', c'.
  destruct (client_reads_replies (RS := ref_rocksdb_spec) (TSS := ref_stream_spec) Release
    (ex_server ∅ 5 1) s' t c' ∅ [false; false] Connection.Running) as (log & ca' & _ & _ & Herr & _ & Hr).
  - by apply represents_empty.
  - reflexivity.
  - reflexivity.
  - exact Eh.
  - rewrite Hgot. vm_compute. discriminate.
  - by intros io.
  - exists log. split; [done|]. apply Hr; [|done]. intros msg Hmsg.
    destruct (Herr msg Hmsg) as [e ->]. cbn [StorageError_display]. apply not_elem_of_app.
    split; [by_compute|]. intros [H _]%list_elem_of_filter. by apply H.
Defined.
