(* ===== verification/Server.v ===== *)
(** * The server (src/server/mod.rs)

    The beginning of [run] and the admission of a connection.  The loop of
    [run] with the tasks it spawns is in [Concurrent.v]. *)

From S2P Require Import Prelude RustStd Extern Errors Command Parser Value Storage StorageFacts.
From S2P Require Import Response Metrics Config ServerState Handler Connection.
#[local] Open Scope petra_scope.

Section server.
Context `{R : RocksDB DB WO E} `{BM : BytesMut B}.
Context {PR : Prometheus} `{SM : Semaphore SEM} `{TS : TcpStream T IO}.

Abbreviation server := (Server.t DB WO SEM).
Abbreviation connection := (Connection.conn T B).

(** [handle_new_connection]: the new task, if there is a permit for it. *)
Definition handle_new_connection (s : server) (stream : T) : server * option connection :=
  match sem_try_acquire (Server.connection_semaphore s) with
  | Some sem =>
      let s := Server.set_semaphore s sem in
      let s := Server.inc s Metrics.Total_connections in
      let s := Server.set_metrics s (Metrics.inc_active (Server.metrics s)) in
      (s, Some (Connection.start s stream))
  | None => (Server.inc s Metrics.Rejected_connections, None)
  end.

(** The beginning of [run]: [parse_addr] is the parser of [SocketAddr] and
    [bind] binds a listener to an address; both errors end [run], which
    otherwise enters its loop. *)
Definition run_listen {A} (parse_addr : bytes -> result A bytes) (bind : A -> result unit bytes)
    (s : server) : result unit bytes :=
  match parse_addr (ServerConfig.listen_addr (Server.config s)) with
  | Err e => Err e
  | Ok addr =>
      match bind addr with
      | Err e => Err e
      | Ok _ => Ok tt
      end
  end.

End server.
