(* ===== verification/ScriptTrace.v ===== *)
(** * What the script of a round does

    Whatever the replies to its commands, a round asks for the commands the
    parser reads off the bytes received, in order, and sends exactly what
    their replies show. *)

From S2P Require Import Prelude RustStd Extern Reference Errors Command Parser ParserFacts ParserProps.
From S2P Require Import Value Storage StorageFacts StorageProps Response Metrics Config ServerState.
From S2P Require Import Handler Spec HandlerProps Interleave Connection ConnectionFacts Script Trace.
From S2P Require Import ConnectionProps TraceProps.
#[local] Open Scope petra_scope.

(** Where the streams start [clean], with nothing received or sent, the input
    [g] of a connection that fits a slice is what its buffer has held. *)
Definition legible (clean : Prop) (g : bytes) : Prop := clean /\ slice_ok g.

Lemma legible_app_l clean g1 g2 : legible clean (g1 ++ g2) -> legible clean g1.
Proof. intros [Hc Hg]. split; [done|by apply slice_ok_app_l in Hg]. Qed.

Section spec.
Context (pf : profile) (clean : Prop) `{MCS : MemchrSpec}.

Abbreviation legible := (legible clean).

(** The parser is where the log says in the input [g]: its events are the
    first ones of [g]. *)
Definition asked (log : list entry) (g : bytes) : Prop :=
  legible g -> exists rest, explains pf log g rest.

(** What is left of a round of a connection that has received [g], after the
    events of [log]: it ends in [Q]; or the parser panics on what the log
    leaves of [g]; or it executes the command that comes next there, which is
    well-formed, and does the same after any replies that fit a response. *)
Fixpoint script_spec {A : Type} (g : bytes) (Q : list entry -> A -> Prop) (log : list entry)
    (p : script A) : Prop :=
  match p with
  | Stop a => Q log a
  | Fault => legible g -> exists rest, explains pf log g rest /\ parse pf rest = Panic
  | Meter _ next => script_spec g Q log next
  | Call cmd next => wf_command cmd /\
      (legible g -> exists rest rest', explains pf log g rest /\
         next_event pf rest = Some (EvCommand cmd, rest')) /\
      forall rs, Forall reply_fits rs -> script_spec g Q (log ++ [(EvCommand cmd, rs)]) (next rs)
  end.

Lemma script_spec_bind {A C : Type} g (Q : list entry -> A -> Prop)
    (Q' : list entry -> C -> Prop) log p (f : A -> script C) :
  script_spec g Q log p -> (forall log' a, Q log' a -> script_spec g Q' log' (f a)) ->
  script_spec g Q' log (p ≫= f).
Proof.
  unfold mbind, script_mbind. intros Hp Hf. revert log Hp.
  induction p as [a| |u p IH|cmd next IH]; intros log; cbn [script_spec script_bind]; [auto..|].
  intros (Hwf & Hnext & Hp). split; [done|]. split; [done|]. intros rs Hrs. apply IH. by apply Hp.
Qed.

Lemma script_spec_weaken {A : Type} g (Q Q' : list entry -> A -> Prop) log p :
  (forall log' a, Q log' a -> Q' log' a) -> script_spec g Q log p -> script_spec g Q' log p.
Proof.
  intros HQ. revert log. induction p as [a| |u p IH|cmd next IH]; intros log;
    cbn [script_spec]; [auto..|].
  intros (Hwf & Hnext & Hp). split; [done|]. split; [done|]. intros rs Hrs. apply IH. by apply Hp.
Qed.

(** A log before the round, which leaves [g2] of the input. *)
Lemma script_spec_shift {A : Type} g g2 (Q : list entry -> A -> Prop) log p :
  (legible g -> explains pf log g g2) ->
  script_spec g2 Q [] p ->
  script_spec g (fun log' a => exists log2, log' = log ++ log2 /\ Q log2 a) log p.
Proof.
  intros Hg.
  assert (Hok : legible g -> explains pf log g g2 /\ legible g2).
  { intros [Hcl Hok]. specialize (Hg (conj Hcl Hok)). split; [done|]. split; [done|].
    destruct (explains_split pf log g g2 Hok Hg) as [pre ->]. by apply slice_ok_app_r in Hok. }
  assert (Hgen : forall log2, script_spec g2 Q log2 p ->
    script_spec g (fun log' a => exists log2, log' = log ++ log2 /\ Q log2 a) (log ++ log2) p).
  { induction p as [a| |u p IH|cmd next IH]; intros log2; cbn [script_spec].
    - intros H. by exists log2.
    - intros Hf [Hex Hok2]%Hok. destruct (Hf Hok2) as (rest & Hr & Hp). exists rest.
      split; [by eapply explains_app|done].
    - auto.
    - intros (Hwf & Hnext & Hp). split; [done|]. split.
      + intros [Hex Hok2]%Hok. destruct (Hnext Hok2) as (rest & rest' & Hr & Hn).
        exists rest, rest'. split; [by eapply explains_app|done].
      + intros rs Hrs. rewrite <- app_assoc. by apply IH, Hp. }
  intros H. specialize (Hgen [] H). by rewrite app_nil_r in Hgen.
Qed.

(** The reply to the next event. *)
Lemma asked_next log g cmd rs :
  (legible g -> exists rest rest', explains pf log g rest /\
     next_event pf rest = Some (EvCommand cmd, rest')) -> asked (log ++ [(EvCommand cmd, rs)]) g.
Proof.
  intros H Hok. destruct (H Hok) as (rest & rest' & Hex & Hn). exists rest'.
  eapply explains_app; [exact Hex|]. eapply explains_cons; [exact Hn|apply explains_nil].
Qed.

End spec.

Section arms.
Context (pf : profile) (clean : Prop) `{MCS : MemchrSpec} `{BMS : BytesMutSpec B} `{ITS : ItoaSpec}.
Context `{TSS : TcpStreamSpec T IO}.

Abbreviation connection := (Connection.conn T B).

Lemma script_send_spec (c : connection) :
  exists u c' (r : result unit IO), Script.send c = Meter u (mret (c', r)) /\
    waiting c' = waiting c /\ got c' = got c /\
    Connection.pending_storage c' = Connection.pending_storage c /\
    (exists part, sent c' = sent c ++ part /\ part `prefix_of` unsent c /\
       (r = Ok tt -> part = unsent c)) /\ unsent c' = [].
Proof.
  unfold Script.send. destruct (ResponseWriter.take _) as [b w] eqn:Et.
  pose proof (text_take (Connection.response c)) as [Hb Hw]. rewrite Et in Hb, Hw. cbn in Hb, Hw.
  destruct (stream_write_all _ _) as [t r] eqn:Ew. pose proof (stream_write_got _ _ _ _ Ew) as Hg.
  apply stream_write_sent in Ew as (part & Hp & Hpre & Hr). rewrite Hb in Hpre, Hr.
  do 3 eexists. split; [done|]. split; [done|]. split; [exact Hg|]. split; [done|]. split.
  - exists part. split_and!; [done|done|done].
  - unfold unsent. cbn. destruct r; [by rewrite text_clear|done].
Qed.

(** The ways a round of the inner loop can go: the entries of the log after
    it, the connection and how it goes on. *)
Inductive arm (c : connection) (log : list entry) :
    list entry -> connection * option (Connection.exit IO) -> Prop :=
| arm_command cmd rs c' e part :
    explains pf [(EvCommand cmd, rs)] (waiting c) (waiting c') ->
    (length (waiting c') < length (waiting c))%nat -> got c' = got c -> task_ok pf c' ->
    sent c' = sent c ++ part ->
    arm_end (Connection.is_quit cmd) (visible cmd (print_replies rs)) part e ->
    arm c log (log ++ [(EvCommand cmd, rs)]) (c', e)
| arm_wait c' :
    parse pf (waiting c) = Ret NeedMoreData -> waiting c' = waiting c -> got c' = got c ->
    sent c' = sent c -> task_ok pf c' -> arm c log log (c', Some Connection.Break)
| arm_error err c' e part :
    explains pf [(EvError err, [RClientError (ProtocolError_display err)])]
      (waiting c) (waiting c') ->
    got c' = got c -> task_ok pf c' -> sent c' = sent c ++ part ->
    (let out := print_reply (RClientError (ProtocolError_display err)) in
     (e = Connection.Break /\ part = out) \/
     (exists io, e = Connection.Return (Err io) /\ part `prefix_of` out)) ->
    arm c log log (c', Some e).

Lemma script_on_complete g (c : connection) log cmd front rest :
  task_ok pf c -> explains pf log g (waiting c) ->
  waiting c = front ++ rest -> front <> [] -> wf_command cmd ->
  parse pf (waiting c) = Ret (Complete cmd (len front)) ->
  script_spec pf clean g (arm c log) log (Script.on_complete c cmd (len front)).
Proof.
  intros (Hc & Hok & Hu) Hex Hb Hne Hwf Hp. split; [done|]. split.
  { intros _. exists (waiting c), rest. split; [done|]. rewrite Hb in *. by apply next_event_command. }
  intros rs Hfit.
  destruct (bm_split_to_app (Connection.read_buf c) front rest Hb) as (f & rb & -> & Hrb).
  cbn [unwrap pure_script mbind script_mbind script_bind].
  set (w := fold_left write_reply rs _).
  assert (Hw : ResponseWriter.buffer w = print_replies rs).
  { unfold w. rewrite text_write_replies by done.
    change (ResponseWriter.buffer (Connection.response c)) with (unsent c). by rewrite Hu. }
  assert (Hdone : forall c' e part, waiting c' = rest -> got c' = got c ->
    Connection.pending_storage c' = None -> unsent c' = [] -> sent c' = sent c ++ part ->
    arm_end (Connection.is_quit cmd) (visible cmd (print_replies rs)) part e ->
    arm c log (log ++ [(EvCommand cmd, rs)]) (c', e)).
  { intros c' e part H1 H2 H3 H4 H5 H6. apply (arm_command c log cmd rs c' e part); try done.
    - rewrite H1, Hb in *. eapply explains_cons; [by apply next_event_command|apply explains_nil].
    - rewrite H1, Hb, length_app. destruct front; [done|]. cbn. lia.
    - split; [by unfold conn_ok; rewrite H3|]. split; [|done].
      rewrite H1. rewrite Hb in Hok. by apply slice_ok_app_r in Hok. }
  rewrite is_empty_text. unfold visible in Hdone.
  destruct (negb (is_noreply cmd) && negb (bool_decide (ResponseWriter.buffer w = []))) eqn:Ec.
  - apply andb_true_iff in Ec as [Hn _]. zbool. rewrite Hn in Hdone.
    destruct (script_send_spec {| Connection.stream := Connection.stream c;
      Connection.read_buf := rb; Connection.response := w; Connection.pending_storage := None |})
      as (u & c' & r & -> & H1 & H2 & H3 & (part & Hpart & Hpre & Hr) & H4).
    unfold unsent in Hpre, Hr. cbn [Connection.response] in Hpre, Hr. rewrite Hw in Hpre, Hr.
    destruct r as [[]|io]; cbn [mbind script_mbind script_bind mret script_mret script_spec];
      apply (Hdone _ _ part); try done; [by rewrite H1|..|by rewrite H1].
    rewrite (Hr eq_refl). by destruct (Connection.is_quit cmd).
  - apply (Hdone _ _ []); try done; [unfold unsent; cbn; apply text_clear|by rewrite app_nil_r|].
    assert ((if is_noreply cmd then [] else print_replies rs) = []) as ->.
    { rewrite <- Hw. destruct (is_noreply cmd); [done|]. cbn in Ec. zbool.
      by apply bool_decide_eq_true in Ec. }
    by destruct (Connection.is_quit cmd).
Qed.

Lemma script_on_need_more g (c : connection) log :
  task_ok pf c -> parse pf (waiting c) = Ret NeedMoreData ->
  script_spec pf clean g (arm c log) log (Script.on_need_more pf c).
Proof.
  intros (Hc & Hok & Hu) Hp. unfold Script.on_need_more.
  assert (Hdone : forall pending, match pending with
      | Some p => parse_storage_command_line pf (waiting c) = Ret (Ok (Some p))
      | None => True end ->
    arm c log log ({| Connection.stream := Connection.stream c;
      Connection.read_buf := Connection.read_buf c; Connection.response := Connection.response c;
      Connection.pending_storage := pending |}, Some Connection.Break)) by by intros; apply arm_wait.
  unfold conn_ok in Hc. destruct (Connection.pending_storage c) as [p|]; [by apply Hdone|].
  destruct (parse_storage_command_line_total pf _ Hok) as [r Hr]. unfold waiting in Hr.
  rewrite Hr. cbn [pure_script mbind outcome_bind mret outcome_ret script_mbind script_bind].
  apply Hdone. by destruct r as [[p|]|e].
Qed.

Lemma script_on_error g (c : connection) log err :
  task_ok pf c -> parse pf (waiting c) = Ret (Error err) ->
  script_spec pf clean g (arm c log) log (Script.on_error pf c err).
Proof.
  intros (Hc & Hok & Hu) Hp.
  destruct (parse_error_line pf _ _ Hok Hp) as (_ & line & rest & Hb & Hl & Hcrlf).
  unfold Script.on_error. cbn [script_spec]. rewrite connection_find_crlf.
  change (bm_bytes (Connection.read_buf c)) with (waiting c). rewrite Hcrlf.
  cbn [mbind outcome_bind]. rewrite Hb in Hok. apply line_lens in Hok as ?.
  rewrite usize_add_ok by (unfold_max; lia). cbn [mbind outcome_bind].
  replace (len line + 2) with (len (line ++ CRLF)) by (by rewrite len_app, len_CRLF).
  destruct (bm_split_to_app (Connection.read_buf c) (line ++ CRLF) rest) as (f & rb & -> & Hrb).
  { change (waiting c = (line ++ CRLF) ++ rest). by rewrite Hb, <- app_assoc. }
  cbn [unwrap pure_script mbind outcome_bind mret outcome_ret script_mbind script_bind].
  set (w := ResponseWriter.client_error _ _).
  assert (Hw : ResponseWriter.buffer w = print_reply (RClientError (ProtocolError_display err))).
  { change w with (write_reply (Connection.response c) (RClientError (ProtocolError_display err))).
    rewrite text_write_reply by done.
    change (ResponseWriter.buffer (Connection.response c)) with (unsent c). by rewrite Hu. }
  destruct (script_send_spec {| Connection.stream := Connection.stream c;
    Connection.read_buf := rb; Connection.response := w; Connection.pending_storage := None |})
    as (u & c' & r & -> & H1 & H2 & H3 & (part & Hpart & Hpre & Hr) & H4).
  unfold unsent in Hpre, Hr. cbn [Connection.response] in Hpre, Hr. rewrite Hw in Hpre, Hr.
  change (waiting c' = bm_bytes rb) in H1. rewrite Hrb in H1.
  assert (Hdone : forall e,
    (let out := print_reply (RClientError (ProtocolError_display err)) in
     (e = Connection.Break /\ part = out) \/
     (exists io, e = Connection.Return (Err io) /\ part `prefix_of` out)) ->
    arm c log log (c', Some e)).
  { intros e He. eapply (arm_error c log err c' e part); try done.
    - rewrite H1, Hb in *. eapply explains_cons; [by apply next_event_error|apply explains_nil].
    - split; [by unfold conn_ok; rewrite H3|]. split; [|done].
      rewrite H1. by apply slice_ok_app_r, slice_ok_app_r in Hok. }
  destruct r as [[]|io]; cbn [mbind script_mbind script_bind mret script_mret script_spec];
    apply Hdone; [left|right].
  - split; [done|by apply Hr].
  - by exists io.
Qed.

Lemma script_process_one g (c : connection) log :
  task_ok pf c -> explains pf log g (waiting c) ->
  script_spec pf clean g (arm c log) log (Script.process_one pf c).
Proof.
  intros Hc Hex. pose proof Hc as (Hok & Hs & _). unfold Script.process_one.
  rewrite next_parse_ok by done.
  destruct (parse pf (waiting c)) as [[cmd n| |err]|] eqn:Ep; cbn [pure_script mbind script_mbind script_bind].
  - destruct (parse_complete_split pf _ _ _ Hs Ep) as (front & rest & Hb & -> & Hn & Hwf & _).
    eapply script_on_complete; [done|done|exact Hb| |done|done].
    intros ->. by rewrite len_nil in Hn.
  - by apply script_on_need_more.
  - by apply script_on_error.
  - intros _. by exists (waiting c).
Qed.

(** ** The inner loop *)

(** An error is the last event of a round, and is logged at its end. *)
Definition line_tail (tail : list entry) : Prop :=
  tail = [] \/ exists e, tail = [(EvError e, [RClientError (ProtocolError_display e)])].

(** From the connection [c0], the events of [log] have led to [c]; [part]
    has been sent. *)
Definition follows (c0 : connection) (log : list entry) (c : connection) (part : bytes) : Prop :=
  explains pf log (waiting c0) (waiting c) /\ got c = got c0 /\ sent c = sent c0 ++ part /\
  task_ok pf c.

(** How the inner loop has ended. *)
Definition processed (c0 : connection) (log : list entry)
    (ce : connection * Connection.exit IO) : Prop :=
  let '(c, e) := ce in
  e <> Connection.OutOfFuel /\
  exists tail part, line_tail tail /\ follows c0 (log ++ tail) c part /\
    loop_end pf (log ++ tail) (waiting c) part e.

Lemma follows_app c0 log c part en c' part' :
  follows c0 log c part -> explains pf [en] (waiting c) (waiting c') -> got c' = got c ->
  sent c' = sent c ++ part' -> task_ok pf c' -> follows c0 (log ++ [en]) c' (part ++ part').
Proof.
  intros (Hex & Hg & Hs & _) He Hg' Hs' Hc'. split; [by eapply explains_app|].
  split; [congruence|]. split; [by rewrite Hs', Hs, app_assoc|done].
Qed.

Lemma arm_processed c0 log c log' c' e :
  follows c0 log c (shown_log log) -> arm c log log' (c', e) ->
  match e with
  | Some e => processed c0 log' (c', e)
  | None => follows c0 log' c' (shown_log log') /\ (length (waiting c') < length (waiting c))%nat
  end.
Proof.
  intros Hf Harm. inversion Harm as [cmd rs ? ? part Hex Hlt Hg Hc' Hs Hend| ? Hp Hw Hg Hs Hc'
    |err ? e' part Hex Hg Hc' Hs Hend]; subst.
  - pose proof (follows_app _ _ _ _ _ _ _ Hf Hex Hg Hs Hc') as Hf'.
    destruct e as [e|]; cbn [arm_end] in Hend.
    + split; [by destruct e as [|[]|]|]. exists [], (shown_log log ++ part).
      split; [by left|]. rewrite app_nil_r. split; [done|].
      destruct e as [|[[]|io]|]; cbn [loop_end]; try done; rewrite shown_log_app, shown_log_single.
      * destruct Hend as [Hq ->]. split; [done|]. apply ends_with_app. eexists.
        split; [done|]. by destruct cmd.
      * by apply prefix_app.
    + destruct Hend as [_ ->]. split; [|done]. by rewrite shown_log_app, shown_log_single.
  - split; [done|]. exists [], (shown_log log'). split; [by left|]. rewrite app_nil_r.
    destruct Hf as (Hex & Hg' & Hs' & _). split; [|split; [done|left; by rewrite Hw]].
    split; [by rewrite Hw|]. split; [congruence|]. split; [congruence|done].
  - set (en := (EvError err, [RClientError (ProtocolError_display err)])) in *.
    pose proof (follows_app _ _ _ _ _ _ _ Hf Hex Hg Hs Hc') as Hf'.
    split; [by destruct Hend as [[-> _]|(io & -> & _)]|].
    exists [en], (shown_log log' ++ part). split; [by right; exists err|]. split; [done|].
    assert (Hshown : shown en = print_reply (RClientError (ProtocolError_display err))).
    { unfold shown, en, print_replies. cbn [map concat]. apply app_nil_r. }
    destruct Hend as [[-> ->]|(io & -> & Hpre)]; cbn [loop_end];
      rewrite shown_log_app, shown_log_single, Hshown.
    + split; [done|]. right. apply ends_with_app. eexists. split; [done|by eexists].
    + by apply prefix_app.
Qed.

Lemma script_process fuel c0 (c : connection) log :
  follows c0 log c (shown_log log) -> (length (waiting c) < fuel)%nat ->
  script_spec pf clean (waiting c0) (processed c0) log (Script.process pf fuel c).
Proof.
  revert c log. induction fuel as [|fuel IH]; intros c log Hf Hlt; [lia|]. cbn [Script.process].
  eapply script_spec_bind; [apply script_process_one; apply Hf|]. intros log' [c' e] Harm.
  pose proof (arm_processed _ _ _ _ _ _ Hf Harm) as H.
  destruct e as [e|]; [done|]. apply IH; [apply H|]. destruct H. lia.
Qed.

(** ** Rounds *)

(** How a round has ended, of a connection that has received [g]. *)
Definition round_ended (g : bytes) (log : list entry) (cs : connection * Connection.status IO) :
    Prop :=
  let '(c, st) := cs in
  got c = g /\ exists tail, line_tail tail /\ task_ok pf c /\ st <> Connection.Stuck /\
    (legible clean (got c) ->
     match st with
     | Connection.Done r => explained_end pf (log ++ tail) c r
     | _ => explained pf (log ++ tail) c
     end).

Lemma received_task_ok (c : connection) chunk :
  task_ok pf c -> slice_ok (waiting c ++ chunk) -> task_ok pf (received c chunk).
Proof.
  intros (Hc & Hok & Hu) Hok'. split; [by apply received_conn_ok|]. by rewrite waiting_received.
Qed.

(** A round that only ends the connection. *)
Lemma script_leave (c c' : connection) log :
  task_ok pf c' -> got c' = got c -> waiting c' = waiting c -> sent c' = sent c ->
  (legible clean (got c) -> explained pf log c) ->
  script_spec pf clean (got c) (round_ended (got c)) log (Script.leave c').
Proof.
  intros Hc' Hg Hw Hs Hexp. split; [done|]. exists []. split; [by left|]. split; [done|]. split; [done|].
  rewrite app_nil_r, Hg. intros Hok. destruct (Hexp Hok) as [Hex Hsent].
  split; [by rewrite Hg, Hw|by rewrite Hs].
Qed.

(** Whatever the replies, a round asks for what its connection has received
    and sends what it is told. *)
Lemma script_turn (c : connection) log cancelled :
  task_ok pf c -> Connection.read_fits c -> (legible clean (got c) -> explained pf log c) ->
  let g := got c ++ Connection.arrival c cancelled in
  script_spec pf clean g (round_ended g) log (Script.turn pf c cancelled).
Proof.
  intros Hc Hfit Hexp. unfold Script.turn, Connection.arrival. destruct cancelled.
  { cbn zeta. rewrite app_nil_r. by apply (script_leave c c). }
  unfold Connection.read_fits in Hfit. destruct (stream_read _) as [t r] eqn:Et. cbn [snd] in *.
  pose proof (stream_read_sent _ _ _ Et) as Hsent. pose proof (stream_read_got _ _ _ Et) as Hgot.
  set (c1 := {| Connection.stream := t; Connection.read_buf := Connection.read_buf c;
    Connection.response := Connection.response c;
    Connection.pending_storage := Connection.pending_storage c |}).
  destruct r as [[|b k]|e]; cbn [Script.on_read] in *; cbn zeta;
    try (rewrite app_nil_r; apply (script_leave c c1); [done| |done|done|done];
         unfold got, c1; cbn [Connection.stream]; by rewrite Hgot, app_nil_r).
  set (chunk := b :: k) in *. change (bm_extend_from_slice (Connection.read_buf c1) (b :: k))
    with (Connection.read_buf (received c1 chunk)). fold (received c1 chunk).
  specialize (Hfit chunk eq_refl). set (c2 := received c1 chunk).
  assert (Hc2 : task_ok pf c2) by by apply received_task_ok.
  eapply script_spec_bind.
  { apply (script_spec_shift pf clean _ (waiting c2) (processed c2) log);
      [|apply script_process; [|apply Nat.lt_succ_diag_r]].
    - intros Hok. unfold c2. rewrite waiting_received. change (waiting c1) with (waiting c).
      apply (explains_more pf); [apply Hok|]. by eapply Hexp, legible_app_l.
    - split; [apply explains_nil|]. split; [done|]. split; [by rewrite app_nil_r|done]. }
  intros log' [c' e] (log2 & -> & He & tail & part & Htail & (Hex & Hg & Hs & Hc') & Hend).
  change (got c2) with (stream_got t) in Hg. rewrite Hgot in Hg. change (stream_got _) with (got c) in Hg.
  change (sent c2) with (stream_sent t) in Hs. rewrite Hsent in Hs. change (stream_sent _) with (sent c) in Hs.
  unfold c2 in Hex. rewrite waiting_received in Hex. change (waiting c1) with (waiting c) in Hex.
  assert (Hout : forall st, st <> Connection.Stuck ->
    match st with
    | Connection.Done (Err _) => part `prefix_of` shown_log (log2 ++ tail)
    | _ => part = shown_log (log2 ++ tail)
    end -> round_ended (got c ++ chunk) (log ++ log2) (c', st)).
  { intros st Hne Hpart. split; [done|]. exists tail. split; [done|]. split; [done|]. split; [done|].
    rewrite Hg. intros Hok. destruct (Hexp (legible_app_l _ _ _ Hok)) as [Hex0 Hs0].
    assert (Hex' : explains pf ((log ++ log2) ++ tail) (got c') (waiting c')).
    { rewrite <- app_assoc, Hg. eapply explains_app; [|exact Hex]. apply (explains_more pf); [apply Hok|done]. }
    unfold explained, explained_end. rewrite <- app_assoc in *. rewrite shown_log_app, Hs, Hs0.
    destruct st as [|[]|]; (split; [done|]); [by subst part..|by apply prefix_app|done]. }
  destruct e as [|r|]; cbn [loop_end] in Hend; [by apply Hout; [|apply Hend]| |done].
  apply Hout; [done|]. destruct r; [apply Hend|done].
Qed.

End arms.
