(* ===== verification/Actions.v ===== *)
(** * Commands as actions of the relaxed cache

    What is left of a command, given what it has seen: it reads before it
    replies, removes only what it has seen expired, writes at most once, and
    replies what [Relaxed.v] allows.  Every step of it is an action of the
    relaxed cache or none. *)

From S2P Require Import Prelude RustStd Extern Reference Errors Command ParserProps Value Storage.
From S2P Require Import StorageFacts StorageProps Response Metrics Config ServerState Examples.
From S2P Require Import Handler Spec HandlerProps Interleave InterleaveFacts Trace Relaxed.
From S2P Require Import RelaxedFacts.
#[local] Open Scope petra_scope.

Section actions.
Context `{RS : RocksDBSpec DB WO E}.

Abbreviation store := (Store DB WO).
Abbreviation error := (StorageError E).
Abbreviation view s := (db_view (st_db s)).

(** The texts of the errors a client can be sent. *)
Definition db_message (msg : bytes) : Prop := exists e : E, msg = StorageError_display (RocksDb e).

(** The answer [r] to a read of [k] from a database that holds [c] at [t]. *)
Definition read_of (c : cache) (t : Z) (k : bytes) (r : result (option bytes) E) : Prop :=
  match r with
  | Ok (Some raw) => exists v, decode_spec raw = Some v /\ wf_value v /\ is_Some (c !! k) /\
      forall t', t <= t' -> live_value t' (Some v) = live_value t' (c !! k)
  | Ok None => live_value t (c !! k) = None
  | Err _ => True
  end.

(** The reply to a removal with the answer [r], of a key that [c0] had. *)
Definition delete_reply (c0 : cache) (t0 : Z) (k : bytes) (r : result unit E)
    (rs : list reply) : Prop :=
  match r with
  | Ok _ => rs = [RDeleted] /\ is_Some (c0 !! k) \/
            rs = [RNotFound] /\ live_value t0 (c0 !! k) = None
  | Err _ => error_reply db_message rs
  end.

Definition set_reply (r : result unit E) (rs : list reply) : Prop :=
  match r with
  | Ok _ => rs = [RStored]
  | Err _ => error_reply db_message rs
  end.

(** The expiry time [e] is the one of a set with [exptime], by the clock the
    command has seen if it needs one. *)
Definition stamped (seen : option (cache * Z)) (exptime e : Z) : Prop :=
  (exists c0 a, seen = Some (c0, a) /\ e = expiry_rule a exptime) \/
  forall a, e = expiry_rule a exptime.

(** [plan Q D cmd seen t p]: what is left of the command [cmd] at time [t],
    after it has [seen] a cache: it ends with a result in [Q], or with its
    write, after which [D] holds of the replies and what is left. *)
Fixpoint plan {A} (Q : option (cache * Z) -> Z -> A -> Prop) (D : list reply -> prog E A -> Prop)
    (cmd : Command) (seen : option (cache * Z)) (t : Z) (p : prog E A) : Prop :=
  match p with
  | Finish a => Q seen t a
  | Crash => False
  | DbGet k next => seen = None /\
      forall c t' r, t <= t' -> read_of c t' k r -> plan Q D cmd (Some (c, t')) t' (next r)
  | DbMultiGet ks next => seen = None /\
      forall c t' rs, t <= t' -> Forall2 (read_of c t') ks rs ->
        plan Q D cmd (Some (c, t')) t' (next rs)
  | DbPut k raw next =>
      match cmd with
      | Set_ k' flags exptime data _ => k = k' /\
          (exists e, let v := with_expire_at flags e data in
             raw = encode v /\ wf_value v /\ stamped seen exptime e) /\
          forall r, exists rs, set_reply r rs /\ D rs (next r)
      | _ => False
      end
  | DbDelete k next =>
      exists c0 t0, seen = Some (c0, t0) /\
      match cmd with
      | Get _ => (exists v, c0 !! k = Some v /\ expired_at t v = true) /\
          forall r, plan Q D cmd seen t (next r)
      | Delete k' _ => k = k' /\ forall r, exists rs, delete_reply c0 t0 k r rs /\ D rs (next r)
      | _ => False
      end
  | Now next =>
      match cmd with
      | Set_ _ _ _ _ _ => seen = None /\
          forall c now, t <= now -> plan Q D cmd (Some (c, now)) now (next now)
      | _ => forall now, t <= now -> plan Q D cmd seen now (next now)
      end
  | AddExpired _ next => plan Q D cmd seen t next
  | Count _ next => plan Q D cmd seen t next
  end.

(** What is left only counts, and ends with [rs]. *)
Fixpoint ends_in (rs : list reply) (p : prog E (list reply)) : Prop :=
  match p with
  | Finish rs' => rs' = rs
  | Count _ next => ends_in rs next
  | _ => False
  end.

(** The replies of a command that has not written. *)
Definition replied (cmd : Command) (seen : option (cache * Z)) (t : Z) (rs : list reply) : Prop :=
  reply_of db_message seen t cmd rs /\ Forall reply_fits rs.

Abbreviation command_plan cmd := (plan (replied cmd) ends_in cmd).

(** ** Composition *)

(** Results that stay right as time goes by. *)
Definition lasting {A} (Q : option (cache * Z) -> Z -> A -> Prop) : Prop :=
  forall seen t t' a, t <= t' -> Q seen t a -> Q seen t' a.

Lemma plan_later {A : Type} (Q : option (cache * Z) -> Z -> A -> Prop) D cmd seen t t' p :
  lasting Q -> t <= t' -> plan Q D cmd seen t p -> plan Q D cmd seen t' p.
Proof.
  intros HQ. revert seen t t'.
  induction p as [a| |k next IH|ks next IH|k v next IH|k next IH|next IH|n p IH|u p IH];
    intros seen t t' Ht; cbn [plan].
  - by apply HQ.
  - done.
  - intros [-> H]. split; [done|]. intros c t'' r Ht''. apply H. lia.
  - intros [-> H]. split; [done|]. intros c t'' rs Ht''. apply H. lia.
  - done.
  - intros (c0 & t0 & -> & H). exists c0, t0. split; [done|]. destruct cmd; try done.
    destruct H as [(v & Hv & He) H]. split; [|eauto]. exists v. split; [done|].
    by eapply expired_at_mono.
  - destruct cmd; [|intros [-> H]; split; [done|]; intros c|..]; intros; apply H; lia.
  - eauto.
  - eauto.
Qed.

(** A get never writes. *)
Lemma plan_bind {A C : Type} (Q : option (cache * Z) -> Z -> A -> Prop)
    (Q' : option (cache * Z) -> Z -> C -> Prop) D ks seen t p (f : A -> prog E C) :
  plan Q (fun _ _ => False) (Get ks) seen t p ->
  (forall seen' t' a, t <= t' -> Q seen' t' a -> plan Q' D (Get ks) seen' t' (f a)) ->
  plan Q' D (Get ks) seen t (p ≫= f).
Proof.
  unfold mbind, prog_mbind. revert seen t.
  induction p as [a| |k next IH|ks0 next IH|k v next IH|k next IH|next IH|n p IH|u p IH];
    intros seen t; cbn [plan prog_bind]; intros Hp Hf; try done.
  - apply Hf; [lia|done].
  - destruct Hp as [-> Hp]. split; [done|]. intros c t' r Ht Hr. apply IH; [by apply Hp|].
    intros. apply Hf; [lia|done].
  - destruct Hp as [-> Hp]. split; [done|]. intros c t' r Ht Hr. apply IH; [by apply Hp|].
    intros. apply Hf; [lia|done].
  - destruct Hp as (c0 & t0 & -> & Hv & Hp). exists c0, t0. split; [done|]. split; [done|]. eauto.
  - intros now Hnow. apply IH; [by apply Hp|]. intros. apply Hf; [lia|done].
  - eauto.
  - eauto.
Qed.

(** ** The reads *)

(** The key is seen to have expired. *)
Definition gone (c0 : cache) (t : Z) (k : bytes) : Prop :=
  exists v, c0 !! k = Some v /\ expired_at t v = true.

Definition wf_result (kv : bytes * option StoredValue) : Prop :=
  forall v, snd kv = Some v -> wf_value v.

Lemma gone_later c0 t t' k : t <= t' -> gone c0 t k -> gone c0 t' k.
Proof. intros Ht (v & ? & ?). exists v. eauto using expired_at_mono. Qed.

Lemma answer_later c t0 t t' k kv : t <= t' -> answer c t0 t k kv -> answer c t0 t' k kv.
Proof. intros Ht (? & t1 & ? & ?). split; [done|]. exists t1. split; [lia|done]. Qed.

Lemma plan_expired {A : Type} (Q : option (cache * Z) -> Z -> A -> Prop) D ks c0 t0 t k raw v f :
  t0 <= t -> read_of c0 t0 k (Ok (Some raw)) -> decode_spec raw = Some v ->
  (forall t', t <= t' -> answer c0 t0 t' k (k, None) -> gone c0 t' k ->
     plan Q D (Get ks) (Some (c0, t0)) t' (f true)) ->
  (forall t', t <= t' -> answer c0 t0 t' k (k, Some v) ->
     plan Q D (Get ks) (Some (c0, t0)) t' (f false)) ->
  plan Q D (Get ks) (Some (c0, t0)) t (is_expired_prog v ≫= f).
Proof.
  intros Ht (v' & Hv & _ & [v0 Hk] & Hl) Hd Htrue Hfalse.
  rewrite Hd in Hv. injection Hv as <-. rewrite Hk in Hl.
  unfold is_expired_prog. destruct (sv_expire_at v =? 0) eqn:E0.
  { apply Hfalse; [lia|]. split; [done|]. exists t0. split; [lia|]. cbn [snd].
    rewrite Hk, <- Hl by lia. unfold live_value, expired_at. cbn [mbind option_bind]. by rewrite E0. }
  intros now Hnow. change (plan Q D (Get ks) (Some (c0, t0)) now (f (sv_expire_at v <=? now))).
  specialize (Hl now ltac:(lia)).
  unfold live_value at 1, expired_at in Hl. cbn [mbind option_bind] in Hl. rewrite E0 in Hl.
  destruct (sv_expire_at v <=? now) eqn:E1; cbn [negb andb] in Hl.
  - apply Htrue; [done| |].
    + split; [done|]. exists now. split; [lia|]. by rewrite Hk.
    + exists v0. split; [done|]. unfold live_value in Hl. cbn [mbind option_bind] in Hl.
      by destruct (expired_at now v0).
  - apply Hfalse; [done|]. split; [done|]. exists now. split; [lia|]. by rewrite Hk.
Qed.

(** The result of a lookup in the cache the command has seen. *)
Definition looked_up (k : bytes) (seen : option (cache * Z)) (t : Z)
    (r : result (option StoredValue) error) : Prop :=
  exists c0 t0, seen = Some (c0, t0) /\
  match r with
  | Ok o => answer c0 t0 t k (k, o) /\ wf_result (k, o)
  | Err e => exists e', e = RocksDb e'
  end.

Lemma plan_decode {A : Type} (Q : option (cache * Z) -> Z -> A -> Prop) D cmd seen t raw v f :
  decode_spec raw = Some v -> plan Q D cmd seen t (f (Ok v)) ->
  plan Q D cmd seen t (decode_prog raw ≫= f).
Proof. intros Hv Hf. unfold decode_prog. by rewrite decode_eq, Hv. Qed.

Lemma plan_get ks k t :
  plan (looked_up k) (fun _ _ => False) (Get ks) None t (get_prog k).
Proof.
  split; [done|]. intros c t' [[raw|]|e] Ht Hr.
  - pose proof Hr as (v & Hv & Hwf & _). eapply plan_decode; [exact Hv|].
    eapply (plan_expired _ _ _ _ _ _ k raw v); [lia|exact Hr|exact Hv| |].
    + intros t1 Ht1 Ha Hg. exists c, t'. split; [done|]. split; [done|].
      intros _. exists c, t'. split; [done|]. by split.
    + intros t1 Ht1 Ha. exists c, t'. split; [done|]. split; [done|]. by intros ? [= <-].
  - exists c, t'. split; [done|]. split; [|done]. split; [done|]. exists t'. split; [lia|done].
  - exists c, t'. split; [done|]. by exists e.
Qed.

(** The lists the loop over several keys has gathered. *)
Definition gathered (c0 : cache) (t0 : Z) (keys : list bytes) (t : Z)
    (results : list (bytes * option StoredValue)) (expired : list bytes) : Prop :=
  Forall2 (answer c0 t0 t) keys results /\ Forall wf_result results /\ Forall (gone c0 t) expired.

Lemma gathered_snoc c0 t0 keys t t' results expired k o gone' :
  gathered c0 t0 keys t results expired -> t <= t' -> answer c0 t0 t' k (k, o) ->
  wf_result (k, o) -> Forall (gone c0 t') gone' ->
  gathered c0 t0 (keys ++ [k]) t' (results ++ [(k, o)]) (expired ++ gone').
Proof.
  intros (H1 & H2 & H3) Ht Ha Hwf Hg. split; [|split].
  - apply Forall2_app; [|by constructor]. eapply Forall2_impl; [exact H1|].
    intros ??. by apply answer_later.
  - apply Forall_app. split; [done|by constructor].
  - apply Forall_app. split; [|done]. eapply Forall_impl; [exact H3|].
    intros ?. by apply gone_later.
Qed.

Definition loop_result (c0 : cache) (t0 : Z) (keys : list bytes) (seen : option (cache * Z)) (t : Z)
    (r : result (list (bytes * option StoredValue) * list bytes) error) : Prop :=
  seen = Some (c0, t0) /\ t0 <= t /\
  match r with
  | Ok (results, expired) => gathered c0 t0 keys t results expired
  | Err e => exists e', e = RocksDb e'
  end.

Lemma plan_get_multi_loop c0 t0 t ks keys l results expired :
  t0 <= t -> Forall (fun '(k, r) => read_of c0 t0 k r) l ->
  gathered c0 t0 keys t results expired ->
  plan (loop_result c0 t0 (keys ++ map fst l)) (fun _ _ => False) (Get ks) (Some (c0, t0)) t
    (get_multi_loop_prog l results expired).
Proof.
  intros Ht Hl. revert t keys results expired Ht.
  induction Hl as [|[k [[raw|]|e]] l Hk Hl IH]; intros t keys results expired Ht Hg;
    cbn [get_multi_loop_prog map fst].
  - rewrite app_nil_r. by split.
  - pose proof Hk as (v & Hv & Hwf & _). eapply plan_decode; [exact Hv|].
    rewrite (cons_middle k keys), app_assoc.
    eapply (plan_expired _ _ _ _ _ _ k raw v); [lia|exact Hk|exact Hv| |].
    + intros t1 Ht1 Ha Hgone. apply IH; [lia|]. eapply gathered_snoc; [exact Hg|done..|by constructor].
    + intros t1 Ht1 Ha. apply IH; [lia|]. rewrite <- (app_nil_r expired).
      eapply gathered_snoc; [exact Hg|done..| |constructor]. by intros ? [= <-].
  - rewrite (cons_middle k keys), app_assoc. apply IH; [lia|]. rewrite <- (app_nil_r expired).
    eapply gathered_snoc; [exact Hg|done| |done|constructor].
    split; [done|]. exists t0. split; [lia|done].
  - split; [done|]. split; [lia|]. by exists e.
Qed.

Lemma plan_delete_all {A : Type} (Q : option (cache * Z) -> Z -> A -> Prop) D ks c0 t0 t keys next :
  Forall (gone c0 t) keys -> plan Q D (Get ks) (Some (c0, t0)) t next ->
  plan Q D (Get ks) (Some (c0, t0)) t (delete_all_prog keys next).
Proof.
  intros Hk Hn. induction Hk as [|k keys Hk _ IH]; [done|]. exists c0, t0. split; [done|]. by split.
Qed.

Definition looked_up_all (keys : list bytes) (seen : option (cache * Z)) (t : Z)
    (r : result (list (bytes * option StoredValue)) error) : Prop :=
  exists c0 t0, seen = Some (c0, t0) /\
  match r with
  | Ok results => Forall2 (answer c0 t0 t) keys results /\ Forall wf_result results
  | Err e => exists e', e = RocksDb e'
  end.

Lemma plan_get_multi ks t :
  plan (looked_up_all ks) (fun _ _ => False) (Get ks) None t (get_multi_prog ks).
Proof.
  split; [done|]. intros c t' rs Ht Hrs.
  assert (Hl : Forall (fun '(k, r) => read_of c t' k r) (zip ks rs)).
  { induction Hrs; cbn [zip zip_with]; constructor; eauto. }
  assert (Hfst : map fst (zip ks rs) = ks).
  { clear -Hrs. induction Hrs; cbn [zip zip_with map fst]; [done|]. by f_equal. }
  eapply plan_bind.
  { apply (plan_get_multi_loop c t' t' ks []); [lia|exact Hl|]. split; [constructor|by split]. }
  intros seen t1 [[results expired]|e] Ht1 (-> & Ht1' & Hr).
  - destruct Hr as (Hans & Hwf & Hgone). cbn [app] in Hans. rewrite Hfst in Hans.
    assert (Hdone : plan (looked_up_all ks) (fun _ _ => False) (Get ks) (Some (c, t')) t1
      (mret (Ok results))) by by exists c, t'.
    cbn beta iota. case_bool_decide; [|exact Hdone]. by apply plan_delete_all.
  - by exists c, t'.
Qed.

(** ** The commands *)

Lemma db_error_reply e : error_reply db_message (error_replies (RocksDb e)).
Proof. exists (StorageError_display (RocksDb e)). split; [by exists e|done]. Qed.

Lemma replied_error ks c0 t0 t e :
  replied (Get ks) (Some (c0, t0)) t (error_replies (RocksDb e)).
Proof.
  split; [|by repeat constructor]. exists c0, t0. split; [done|]. left. apply db_error_reply.
Qed.

Lemma replied_values ks c0 t0 t results :
  Forall2 (answer c0 t0 t) ks results -> Forall wf_result results ->
  replied (Get ks) (Some (c0, t0)) t (value_replies results ++ [REnd]).
Proof.
  intros Hans Hwf. split.
  - exists c0, t0. split; [done|]. right. by exists results.
  - apply Forall_app. split; [by apply value_replies_fit|by repeat constructor].
Qed.

Lemma replied_lasting cmd : lasting (replied cmd).
Proof.
  intros seen t t' rs Ht [H Hf]. split; [|done]. destruct cmd; try done.
  destruct H as (c0 & t0 & -> & H). exists c0, t0. split; [done|].
  destruct H as [H|(results & Hans & ->)]; [by left|right]. exists results. split; [|done].
  eapply Forall2_impl; [exact Hans|]. intros ??. by apply answer_later.
Qed.

Lemma plan_count_results ks seen t results p :
  command_plan (Get ks) seen t p -> command_plan (Get ks) seen t (count_results results p).
Proof. induction results as [|[k [v|]] results IH]; cbn; auto. Qed.

Lemma plan_on_get ks t :
  command_plan (Get ks) None t
    (match ks with
     | [key] => r ← get_prog (E := E) key; on_get key r
     | _ => r ← get_multi_prog ks; on_get_multi r
     end).
Proof.
  assert (Hmulti : forall ks, command_plan (Get ks) None t
    (r ← get_multi_prog (E := E) ks; on_get_multi r)).
  { intros ks0. eapply plan_bind; [apply plan_get_multi|].
    intros seen t1 [results|e] _ (c0 & t2 & -> & Hr); cbn [on_get_multi].
    - apply plan_count_results, replied_values; apply Hr.
    - destruct Hr as [e' ->]. apply replied_error. }
  destruct ks as [|k [|]]; [apply Hmulti| |apply Hmulti].
  eapply plan_bind; [apply plan_get|].
  intros seen t1 [o|e] _ (c0 & t2 & -> & Hr); cbn [on_get].
  - assert (Hrep : replied (Get [k]) (Some (c0, t2)) t1 (value_replies [(k, o)] ++ [REnd])).
    { apply replied_values; (constructor; [apply Hr|constructor]). }
    by destruct o.
  - destruct Hr as [e' ->]. apply replied_error.
Qed.

Lemma plan_put k flags exptime data noreply seen t e :
  wf_value (with_expire_at flags e data) -> stamped seen exptime e ->
  command_plan (Set_ k flags exptime data noreply) seen t
    (r ← set_prog (E := E) k (with_expire_at flags e data); on_set r).
Proof.
  intros Hv Hs. split; [done|]. split; [by exists e|]. intros [[]|err]; [by exists [RStored]|].
  exists (error_replies (RocksDb err)). split; [apply db_error_reply|done].
Qed.

Lemma plan_set k flags exptime data noreply t :
  0 <= t -> wf_command (Set_ k flags exptime data noreply) ->
  command_plan (Set_ k flags exptime data noreply) None t
    (value ← new_value_prog (E := E) flags exptime data; r ← set_prog k value; on_set r).
Proof.
  intros Ht (_ & Hflags & Hexp & Hdata).
  assert (Hwfv : forall now, 0 <= now ->
    wf_value (with_expire_at flags (expiry_rule now exptime) data)).
  { intros now Hnow. by apply wf_with_expire_at. }
  unfold new_value_prog, expiry_rule in *. destruct (exptime =? 0) eqn:E0.
  { apply plan_put; [by apply (Hwfv 0)|]. right. intros a. unfold expiry_rule. by rewrite E0. }
  destruct (exptime <=? MAX_RELATIVE_TTL) eqn:E1.
  - split; [done|]. intros c now Hnow. apply plan_put; [by apply Hwfv; lia|].
    left. exists c, now. split; [done|]. unfold expiry_rule. by rewrite E0, E1.
  - apply plan_put; [by apply (Hwfv 0)|]. right. intros a. unfold expiry_rule. by rewrite E0, E1.
Qed.

Lemma plan_delete k noreply t :
  command_plan (Delete k noreply) None t (r ← delete_prog (E := E) k; on_delete r).
Proof.
  split; [done|]. intros c t' [v|e] Ht' Hr; [|split; [apply db_error_reply|by repeat constructor]].
  exists c, t'. split; [done|]. split; [done|]. intros [[]|err].
  2:{ exists (error_replies (RocksDb err)). split; [apply db_error_reply|done]. }
  exists (if bool_decide (is_Some v) then [RDeleted] else [RNotFound]).
  split; [|cbn; by case_bool_decide]. case_bool_decide as Hv; [left|right]; (split; [done|]).
  - destruct Hv as [raw ->]. by destruct Hr as (? & _ & _ & ? & _).
  - by destruct v as [raw|]; [destruct Hv|].
Qed.

Lemma plan_command cmd t :
  0 <= t -> wf_command cmd -> command_plan cmd None t (command_prog cmd).
Proof.
  intros Ht Hwf. destruct cmd as [ks|k flags exptime data noreply|k noreply| |];
    cbn [command_prog plan].
  - apply plan_on_get.
  - by apply plan_set.
  - apply plan_delete.
  - by split; [|repeat constructor].
  - by split.
Qed.

(** ** The steps *)

(** The next call of [p] removes nothing the command has not seen, from the
    cache [c] at time [t]: what a get drops has itself expired, and the key of
    a delete is as present as the reply to a success says. *)
Definition quiet_call (c : cache) (t : Z) (cmd : Command) (p : prog E (list reply)) : Prop :=
  match p, cmd with
  | DbDelete k _, Get _ => live_value t (c !! k) = None
  | DbDelete k next, Delete _ _ =>
      (ends_in [RDeleted] (next (Ok tt)) -> is_Some (c !! k)) /\
      (ends_in [RNotFound] (next (Ok tt)) -> live_value t (c !! k) = None)
  | _, _ => True
  end.

(** What the command of [id] has seen is still there, but for what a get has
    dropped itself. *)
Definition undisturbed (cmd : Command) (st : rstate) (id : nat) : Prop :=
  forall c0 t0, r_seen st !! id = Some (c0, t0) -> t0 <= r_time st /\
  forall k, r_cache st !! k = c0 !! k \/ (exists ks, cmd = Get ks) /\ r_cache st !! k = None.

(** [moves q id st st' log]: actions of the connection [id] lead from [st] to
    [st'], and log the entries [log]; there is no race if [q] holds. *)
Definition moves (q : Prop) (id : nat) (st st' : rstate) (log : list entry) : Prop :=
  exists tr, valid_run db_message st tr /\ final st tr = st' /\
    Forall (fun x => fst (fst x) = id) tr /\ entries_of id tr = log /\ (q -> race_free st tr).

Lemma moves_refl q id st : moves q id st st [].
Proof. exists []. by split_and!. Qed.

Lemma moves_once (q : Prop) id st t a st' :
  r_time st <= t -> rstep db_message st id t a st' -> (q -> calm st st' a) ->
  moves q id st st' (match a with Log en => [en] | _ => [] end).
Proof.
  intros Ht H Hq. exists [(id, a, st')]. split; [split; [by exists t|done]|].
  split; [done|]. split; [by constructor|]. split; [|by split; [apply Hq|]]. unfold entries_of. cbn.
  destruct a; [done|done|]. by rewrite decide_True.
Qed.

(** What the step of a command makes of the cache and of the command. *)
Inductive stepped (q : Prop) (id : nat) (cmd : Command) (st : rstate) (s' : store) :
    prog E (list reply) -> Prop :=
| stepped_goes_on st' p' :
    moves q id st st' [] -> represents (r_cache st') s' -> r_time st' <= timestamp (st_clock s') ->
    (undisturbed cmd st id -> undisturbed cmd st' id) ->
    command_plan cmd (r_seen st' !! id) (timestamp (st_clock s')) p' -> stepped q id cmd st s' p'
| stepped_replies st' rs p' :
    moves q id st st' [(EvCommand cmd, rs)] -> represents (r_cache st') s' ->
    r_time st' <= timestamp (st_clock s') -> r_seen st' !! id = None ->
    Forall reply_fits rs -> ends_in rs p' -> stepped q id cmd st s' p'.

Lemma represents_read c (s : store) k r :
  represents c s -> (forall v, r = Ok v -> v = view s !! k) ->
  read_of c (timestamp (st_clock s)) k r.
Proof.
  intros (Hwf & _ & Hl & Hd) Hr. destruct r as [[raw|]|e]; cbn [read_of]; [| |done];
    pose proof (Hr _ eq_refl) as Hk; symmetry in Hk.
  - destruct (wf_db_decodes _ _ _ Hwf Hk) as [v Hv]. exists v. split; [done|].
    pose proof (stored_raw _ _ _ _ Hk Hv) as Hst.
    split; [by eapply wf_db_value|]. split; [apply Hd; by exists raw|].
    intros t' Ht'. rewrite <- Hl by done. unfold live. by rewrite Hst.
  - rewrite <- Hl by lia. unfold live, stored. by rewrite Hk.
Qed.

(** A write of the value of a set, and a removal. *)
Lemma represents_put c (s : store) d k v :
  represents c s -> wf_value v -> db_view d = <[k := encode v]> (view s) ->
  represents (<[k := v]> c) (set_db s d).
Proof.
  intros (Hwf & Hm & Hh) Hv Hd. unfold represents. cbn [set_db st_db st_clock]. rewrite Hd.
  split_and!; [by apply wf_db_insert|done|by apply holds_insert].
Qed.

Lemma represents_delete c (s : store) d k :
  represents c s -> db_view d = base.delete k (view s) ->
  represents (base.delete k c) (set_db s d).
Proof.
  intros (Hwf & Hm & Hh) Hd. unfold represents. cbn [set_db st_db st_clock]. rewrite Hd.
  split_and!; [by apply wf_db_delete|done|by apply holds_delete].
Qed.

Lemma represents_set_db c (s : store) d :
  represents c s -> db_view d = view s -> represents c (set_db s d).
Proof. intros Hrep Hd. unfold represents. cbn [set_db st_db st_clock]. by rewrite Hd. Qed.

Lemma represents_now c (s : store) :
  represents c s ->
  let s' := set_clock s (snd (current_timestamp (st_clock s))) in
  represents c s' /\ timestamp (st_clock s) <= timestamp (st_clock s').
Proof.
  intros Hrep. pose proof Hrep as (_ & Hm & _). cbn zeta.
  assert (Hc : same_config s (set_clock s (snd (current_timestamp (st_clock s))))).
  { split_and!; cbn; try done; lia. }
  pose proof (timestamp_mono _ _ Hm Hc). split; [|done].
  eapply (represents_expiry c s); [done|done| |apply expiry_step_refl]. split; [|done]. lia.
Qed.

Lemma set_reply_fits r rs : set_reply r rs -> Forall reply_fits rs.
Proof. destruct r as [u|e]; [intros ->|intros (msg & _ & ->)]; by repeat constructor. Qed.

Lemma delete_reply_fits c0 t0 k r rs : delete_reply c0 t0 k r rs -> Forall reply_fits rs.
Proof.
  destruct r as [u|e]; [intros [[-> _]|[-> _]]|intros (msg & _ & ->)]; by repeat constructor.
Qed.

Section step.
Context (q : Prop) (id : nat) (st : rstate) (s : store).
Hypothesis Hrep : represents (r_cache st) s.
Hypothesis Htime : r_time st <= timestamp (st_clock s).

Abbreviation now := (timestamp (st_clock s)).

(** A look at the cache, in which [s'] is the storage after it. *)
Lemma stepped_look cmd s' p' :
  r_seen st !! id = None -> represents (r_cache st) s' -> now <= timestamp (st_clock s') ->
  command_plan cmd (Some (r_cache st, now)) (timestamp (st_clock s')) p' -> stepped q id cmd st s' p'.
Proof.
  intros Hn Hrep' Hnow Hp.
  apply (stepped_goes_on q id cmd st s' {| r_cache := r_cache st; r_time := now;
    r_seen := <[id := (r_cache st, now)]> (r_seen st) |}); [|done|done| |].
  - by apply (moves_once q id st now Look); [|apply r_look|].
  - intros _ c0 t0. cbn [r_seen r_time r_cache]. rewrite lookup_insert_eq. intros [= <- <-].
    split; [lia|]. intros k. by left.
  - cbn [r_seen]. by rewrite lookup_insert_eq.
Qed.

Lemma stepped_silent cmd s' p' :
  represents (r_cache st) s' -> now <= timestamp (st_clock s') ->
  command_plan cmd (r_seen st !! id) (timestamp (st_clock s')) p' -> stepped q id cmd st s' p'.
Proof. intros. apply (stepped_goes_on q id cmd st s' st); [apply moves_refl|done|lia|done|done]. Qed.

Lemma stepped_effect cmd c' s' rs p' :
  effect db_message (r_seen st !! id) now (r_cache st) cmd c' rs -> represents c' s' ->
  now <= timestamp (st_clock s') -> Forall reply_fits rs -> ends_in rs p' ->
  (q -> calm st {| r_cache := c'; r_time := now; r_seen := base.delete id (r_seen st) |}
     (Log (EvCommand cmd, rs))) -> stepped q id cmd st s' p'.
Proof.
  intros He Hrep' Hnow Hfit Hend Hcalm.
  apply (stepped_replies q id cmd st s' {| r_cache := c'; r_time := now;
    r_seen := base.delete id (r_seen st) |} rs); [|done|done| |done|done].
  - by apply (moves_once q id st now (Log (EvCommand cmd, rs))); [|apply r_effect|].
  - cbn [r_seen]. by rewrite lookup_delete_eq.
Qed.

Lemma stepped_put cmd k raw next d r :
  command_plan cmd (r_seen st !! id) now (DbPut k raw next) ->
  db_put_opt (st_db s) k raw (st_write_opts s) = (d, r) -> stepped q id cmd st (set_db s d) (next r).
Proof.
  destruct cmd as [|k' flags exptime data noreply| | |]; try done.
  intros (<- & (e & -> & Hwf & Hstamp) & Hr) Hd. destruct (Hr r) as (rs & Hrs & Hend).
  apply db_put_view in Hd.
  assert (Ha : exists a, (a = now \/ exists c0, r_seen st !! id = Some (c0, a)) /\ e = expiry_rule a exptime).
  { destruct Hstamp as [(c0 & a & Hs & He)|He]; [exists a|exists now]; eauto. }
  destruct Ha as (a & Ha & ->). pose proof (set_reply_fits r rs Hrs) as Hfit.
  assert (Heff : forall c', (r = Ok tt -> c' = <[k := with_expire_at flags (expiry_rule a exptime) data]> (r_cache st)) ->
    c' = r_cache st \/ c' = <[k := with_expire_at flags (expiry_rule a exptime) data]> (r_cache st) ->
    effect db_message (r_seen st !! id) now (r_cache st) (Set_ k flags exptime data noreply) c' rs).
  { intros c' Hok Hc'. exists a. split; [done|]. destruct r as [[]|err]; cbn [set_reply] in Hrs.
    - left. split; [done|by apply Hok].
    - by right. }
  destruct Hd as [Hd|[Hd Hne]].
  - eapply stepped_effect; [apply Heff; [done|by right]|by apply represents_put|cbn; lia|done|done|done].
  - apply (stepped_effect _ (r_cache st) _ rs); [apply Heff; [done|by left]|by apply represents_set_db|cbn; lia|done|done|done].
Qed.

Lemma undisturbed_drop ks k :
  r_time st <= now -> undisturbed (Get ks) st id ->
  undisturbed (Get ks) {| r_cache := base.delete k (r_cache st); r_time := now;
    r_seen := r_seen st |} id.
Proof.
  intros Ht Hu c0 t0 Hs. cbn [r_seen r_time r_cache] in *. destruct (Hu c0 t0 Hs) as [H1 H2].
  split; [lia|]. intros k'. destruct (decide (k = k')) as [<-|Hne].
  - right. rewrite lookup_delete_eq. eauto.
  - rewrite lookup_delete_ne by done. apply H2.
Qed.

(** The reply says whether the key was there. *)
Lemma calm_delete c0 t0 k noreply (next : result unit E -> prog E (list reply)) r rs c' :
  quiet_call (r_cache st) now (Delete k noreply) (DbDelete k next) ->
  delete_reply c0 t0 k r rs -> ends_in rs (next r) ->
  calm st {| r_cache := c'; r_time := now; r_seen := base.delete id (r_seen st) |}
    (Log (EvCommand (Delete k noreply), rs)).
Proof.
  intros [H1 H2] Hrs Hend. destruct r as [[]|err]; cbn [delete_reply] in Hrs.
  - destruct Hrs as [[-> _]|[-> _]]; cbn [calm r_time]; auto.
  - by destruct Hrs as (msg & _ & ->).
Qed.

Lemma stepped_delete cmd k next d r :
  command_plan cmd (r_seen st !! id) now (DbDelete k next) ->
  (q -> quiet_call (r_cache st) now cmd (DbDelete k next)) ->
  db_delete_opt (st_db s) k (st_write_opts s) = (d, r) -> stepped q id cmd st (set_db s d) (next r).
Proof.
  intros (c0 & t0 & Hseen & Hp) Hquiet Hd. apply db_delete_view in Hd.
  destruct cmd as [ks| |k' noreply| |]; try done.
  - destruct Hp as [(v & Hv & He) Hp]. destruct Hd as [Hd|[Hd _]].
    + apply (stepped_goes_on q id _ st _ {| r_cache := base.delete k (r_cache st); r_time := now;
        r_seen := r_seen st |}); [|by apply represents_delete|cbn; lia| |apply Hp].
      * by apply (moves_once q id st now (Drop k)); [done|eapply r_drop|].
      * by apply undisturbed_drop.
    + apply stepped_silent; [by apply represents_set_db|cbn; lia|apply Hp].
  - destruct Hp as [<- Hr]. destruct (Hr r) as (rs & Hrs & Hend).
    pose proof (delete_reply_fits c0 t0 k r rs Hrs) as Hfit.
    assert (Heff : forall c', (r = Ok tt -> c' = base.delete k (r_cache st)) ->
      c' = r_cache st \/ c' = base.delete k (r_cache st) ->
      effect db_message (r_seen st !! id) now (r_cache st) (Delete k noreply) c' rs).
    { intros c' Hok Hc'. exists c0, t0. split; [done|]. destruct r as [[]|err]; cbn [delete_reply] in Hrs.
      - specialize (Hok eq_refl). destruct Hrs as [[? ?]|[? ?]]; [by left|by right; left].
      - by right; right. }
    destruct Hd as [Hd|[Hd Hne]].
    + eapply stepped_effect; [apply Heff; [done|by right]|by apply represents_delete|cbn; lia|done|done|].
      intros Hq. by eapply calm_delete; [apply Hquiet|exact Hrs|].
    + apply (stepped_effect _ (r_cache st) _ rs); [apply Heff; [done|by left]|by apply represents_set_db|cbn; lia|done|done|].
      intros Hq. by eapply calm_delete; [apply Hquiet|exact Hrs|].
Qed.

(** A step of what is left of a command is an action of the relaxed cache,
    or none. *)
Lemma plan_step cmd s' (p p' : prog E (list reply)) :
  (q -> quiet_call (r_cache st) now cmd p) ->
  command_plan cmd (r_seen st !! id) now p -> prog_step s p = Some (s', p') ->
  stepped q id cmd st s' p' /\ now <= timestamp (st_clock s').
Proof.
  intros Hquiet Hp Hstep. destruct p as [rs| |k next|ks next|k v next|k next|next|n p|u p];
    cbn [prog_step] in *; [done..| | | | | | |].
  - destruct (db_get _ _) as [d r] eqn:Ed. injection Hstep as <- <-.
    apply db_get_view in Ed as [Hd Hr]. destruct Hp as [Hn Hp]. split; [|cbn; lia].
    apply stepped_look; [done|by apply represents_set_db|cbn; lia|]. apply (Hp _ now); [lia|].
    by apply represents_read.
  - destruct (db_multi_get _ _) as [d rs] eqn:Ed. injection Hstep as <- <-.
    apply db_multi_get_view in Ed as [Hd Hr]. destruct Hp as [Hn Hp]. split; [|cbn; lia].
    apply stepped_look; [done|by apply represents_set_db|cbn; lia|]. apply (Hp _ now); [lia|].
    eapply Forall2_impl; [exact Hr|]. intros k r. by apply represents_read.
  - destruct (db_put_opt _ _ _ _) as [d r] eqn:Ed. injection Hstep as <- <-.
    split; [by eapply stepped_put|cbn; lia].
  - destruct (db_delete_opt _ _ _) as [d r] eqn:Ed. injection Hstep as <- <-.
    split; [by eapply stepped_delete|cbn; lia].
  - pose proof (represents_now _ _ Hrep) as [Hrep' Hnow].
    destruct (current_timestamp (st_clock s)) as [n c] eqn:Ec. cbn [snd] in *.
    assert (n = now) as -> by (unfold timestamp; by injection Ec as <- _).
    injection Hstep as <- <-. split; [|done].
    destruct cmd as [ks|k flags exptime data noreply|k noreply| |]; cbn [plan] in Hp.
    2:{ destruct Hp as [Hn Hp]. apply stepped_look; [done..|].
        eapply plan_later; [apply replied_lasting|exact Hnow|apply Hp; lia]. }
    all: apply stepped_silent; [done..|];
      eapply plan_later; [apply replied_lasting|exact Hnow|apply Hp; lia].
  - injection Hstep as <- <-. split; [|cbn; lia]. apply stepped_silent; [done|cbn; lia|done].
  - injection Hstep as <- <-. split; [|lia]. apply stepped_silent; [done|lia|done].
Qed.

End step.

(** Nothing is removed unseen while nobody else changes the cache. *)
Lemma ends_in_unique rs rs' p : ends_in rs p -> ends_in rs' p -> rs = rs'.
Proof. induction p; cbn [ends_in]; try done. congruence. Qed.

Lemma undisturbed_quiet cmd st id t p :
  command_plan cmd (r_seen st !! id) t p -> undisturbed cmd st id -> r_time st <= t ->
  quiet_call (r_cache st) t cmd p.
Proof.
  intros Hp Hu Ht. destruct p as [| | | | |k next| | |]; try done.
  destruct Hp as (c0 & t0 & Hs & Hp). destruct (Hu c0 t0 Hs) as [Ht0 Hk]. specialize (Hk k).
  destruct cmd as [ks| |k' noreply| |]; cbn [quiet_call]; try done.
  - destruct Hp as [(v & Hv & He) _]. destruct Hk as [-> |[_ ->]]; [|done].
    rewrite Hv. unfold live_value. cbn [mbind option_bind]. by rewrite He.
  - destruct Hp as [<- Hr]. destruct Hk as [-> |[[ks [=]] _]].
    destruct (Hr (Ok tt)) as (rs & Hrs & Hend). cbn [delete_reply] in Hrs.
    split; intros Hend'; pose proof (ends_in_unique _ _ _ Hend Hend') as ->;
      destruct Hrs as [[Heq Hkey]|[Heq Hkey]]; try discriminate Heq; [done|].
    eapply live_value_none; [|exact Hkey]. lia.
Qed.

(** The same of the database: the next call of [p] removes nothing from it
    that the command has not seen. *)
Definition quiet_db (s : store) (cmd : Command) (p : prog E (list reply)) : Prop :=
  let now := timestamp (st_clock s) in
  match p, cmd with
  | DbDelete k _, Get _ => live (view s) now k = None
  | DbDelete k next, Delete _ _ =>
      (ends_in [RDeleted] (next (Ok tt)) -> is_Some (view s !! k)) /\
      (ends_in [RNotFound] (next (Ok tt)) -> live (view s) now k = None)
  | _, _ => True
  end.

Lemma quiet_db_call c (s : store) cmd p :
  represents c s -> quiet_db s cmd p -> quiet_call c (timestamp (st_clock s)) cmd p.
Proof.
  intros (_ & _ & Hl & Hd). destruct p as [| | | | |k next| | |]; try done.
  destruct cmd; cbn [quiet_db quiet_call]; try done.
  - by rewrite Hl by lia.
  - intros [H1 H2]. split; [auto|]. intros H. rewrite <- Hl by lia. auto.
Qed.

End actions.
