(* ===== verification/Concurrent.v ===== *)
(** * The server and its tasks (src/server/mod.rs, src/server/connection.rs)

    The loop of [run] and the tasks it spawns.  A step is an accept of the
    main loop, one call of a task to the database, the clock or the metrics,
    or one move of its connection between two of them; between any two steps
    of a task all other tasks and the background compaction may make theirs. *)

From S2P Require Import Prelude RustStd Extern Errors Command Parser Value Storage StorageFacts.
From S2P Require Import Response Metrics Config ServerState Handler Spec Interleave Connection.
From S2P Require Import Script Server.
#[local] Open Scope petra_scope.

Module Concurrent.
Section concurrent.
Context (pf : profile) {MC : Memchr} `{R : RocksDB DB WO E} `{BM : BytesMut B} {IT : Itoa}.
Context {PR : Prometheus} `{SM : Semaphore SEM} `{TS : TcpStream T IO}.

(** The streams the listener hands out. *)
Context (fresh : T -> Prop).

Abbreviation server := (Server.t DB WO SEM).
Abbreviation connection := (Connection.conn T B).
Abbreviation round := (script (connection * Connection.status IO)).

(** A task between two rounds, in the connection's own code, or in a command
    with what the connection does next. *)
Inductive task :=
| Idle (c : connection)
| Talking (p : round)
| Executing (cmd : Command) (p : prog E (list reply)) (next : list reply -> round).

(** The server with its tasks.  [accepting] is whether [run] is in its loop,
    [aborted] whether a panic has ended the process.  Three fields are
    ghosts, which no step looks at: the tasks that have ended, as they left
    their connection, with their result ([closed]); those that have panicked
    ([crashed]); and the bytes each connection has received ([received]). *)
Record world := {
  shared : server;
  tasks : gmap nat task;
  closed : gmap nat (connection * result unit IO);
  crashed : gset nat;
  received : gmap nat bytes;
  next_id : nat;
  accepting : bool;
  aborted : bool;
}.

Definition with_shared (w : world) (s : server) : world :=
  {| shared := s; tasks := tasks w; closed := closed w; crashed := crashed w;
     received := received w; next_id := next_id w; accepting := accepting w;
     aborted := aborted w |}.

Definition with_task (w : world) (id : nat) (s : server) (k : task) : world :=
  {| shared := s; tasks := <[id := k]> (tasks w); closed := closed w; crashed := crashed w;
     received := received w; next_id := next_id w; accepting := accepting w;
     aborted := aborted w |}.

(** The bytes the connection [id] has received. *)
Definition input (w : world) (id : nat) : bytes := default [] (received w !! id).

(** The next step of a task; one that waits for its stream, has ended or has
    panicked has none. *)
Definition task_step (s : server) (k : task) : option (server * task) :=
  match k with
  | Talking (Meter u p) => Some (apply_meter s u, Talking p)
  | Talking (Call cmd next) => Some (s, Executing cmd (command_prog cmd) next)
  | Talking (Stop (c, Connection.Running)) => Some (s, Idle c)
  | Executing cmd (Finish rs) next => Some (s, Talking (next rs))
  | Executing cmd p next => '(s, p) ← server_step s p; Some (s, Executing cmd p next)
  | _ => None
  end.

(** A task that panics now, and one that waits for its stream or has returned
    from [handle]. *)
Definition panicking (k : task) : bool :=
  match k with
  | Talking Fault | Executing _ Crash _ => true
  | _ => false
  end.

Definition at_rest (k : task) : bool :=
  match k with
  | Idle _ | Talking (Stop (_, Connection.Done _)) => true
  | _ => false
  end.

Definition executing (k : task) : bool :=
  match k with
  | Executing _ _ _ => true
  | _ => false
  end.

(** An accepted stream, and the task that is spawned for it if there is a
    permit. *)
Definition accept (w : world) (stream : T) : world :=
  let '(s, c) := handle_new_connection (shared w) stream in
  match c with
  | Some c =>
      {| shared := s; tasks := <[next_id w := Idle c]> (tasks w); closed := closed w;
         crashed := crashed w; received := received w; next_id := Datatypes.S (next_id w);
         accepting := accepting w; aborted := aborted w |}
  | None => with_shared w s
  end.

(** A task at its [select!] takes an arm: the cancellation or the read. *)
Definition wake (w : world) (id : nat) (c : connection) (cancelled : bool) : world :=
  {| shared := shared w; tasks := <[id := Talking (Script.turn pf c cancelled)]> (tasks w);
     closed := closed w; crashed := crashed w;
     received := <[id := input w id ++ Connection.arrival c cancelled]> (received w);
     next_id := next_id w; accepting := accepting w; aborted := aborted w |}.

(** The permit of a task comes back when the task is dropped. *)
Definition release (s : server) : server :=
  Server.set_semaphore s (sem_release (Server.connection_semaphore s)).

(** The end of the task [id]. *)
Definition close (w : world) (id : nat) (c : connection) (r : result unit IO) : world :=
  {| shared := release (shared w); tasks := base.delete id (tasks w);
     closed := <[id := (c, r)]> (closed w); crashed := crashed w; received := received w;
     next_id := next_id w; accepting := accepting w; aborted := aborted w |}.

(** A panic in the task [id]: a development build unwinds, which drops the
    task with its permit and its stream and leaves the rest of the server
    alone; a release build aborts the process. *)
Definition panic (w : world) (id : nat) : world :=
  match pf with
  | Debug =>
      {| shared := release (shared w); tasks := base.delete id (tasks w); closed := closed w;
         crashed := {[id]} ∪ crashed w; received := received w; next_id := next_id w;
         accepting := accepting w; aborted := aborted w |}
  | Release =>
      {| shared := shared w; tasks := tasks w; closed := closed w;
         crashed := {[id]} ∪ crashed w; received := received w; next_id := next_id w;
         accepting := accepting w; aborted := true |}
  end.

(** The steps of a server that has not been aborted, each labelled with the
    task whose step it is. *)
Inductive action (w : world) : option nat -> world -> Prop :=
| act_accept stream : accepting w = true -> fresh stream -> action w None (accept w stream)
| act_accept_error : accepting w = true -> action w None w
| act_wake id c cancelled :
    tasks w !! id = Some (Idle c) -> Connection.read_fits c ->
    (cancelled = true -> Server.cancel_token (shared w) = true) ->
    action w (Some id) (wake w id c cancelled)
| act_task id k s k' :
    tasks w !! id = Some k -> task_step (shared w) k = Some (s, k') ->
    action w (Some id) (with_task w id s k')
| act_close id c r :
    tasks w !! id = Some (Talking (Stop (c, Connection.Done r))) ->
    action w (Some id) (close w id c r)
| act_panic id k :
    tasks w !! id = Some k -> panicking k = true -> action w (Some id) (panic w id)
| act_compact :
    action w None (with_shared w
      (Server.set_storage (shared w) (RocksStorage.compact (Server.storage (shared w)))))
| act_cancel : action w None (with_shared w (Server.cancel (shared w)))
| act_stop :
    Server.cancel_token (shared w) = true ->
    action w None {| shared := shared w; tasks := tasks w; closed := closed w;
                     crashed := crashed w; received := received w; next_id := next_id w;
                     accepting := false; aborted := aborted w |}.

Definition step (l : option nat) (w w' : world) : Prop := aborted w = false /\ action w l w'.

(** The world when [run] enters its loop. *)
Definition initial (s : server) : world :=
  {| shared := s; tasks := ∅; closed := ∅; crashed := ∅; received := ∅; next_id := 0;
     accepting := true; aborted := false |}.

(** [execution P w0 w]: steps that all satisfy [P] in the world in which they
    are made lead from [w0] to [w]. *)
Inductive execution (P : option nat -> world -> Prop) (w0 : world) : world -> Prop :=
| execution_refl : execution P w0 w0
| execution_step l w w' : execution P w0 w -> P l w -> step l w w' -> execution P w0 w'.

Definition reachable : world -> world -> Prop := execution (fun _ _ => True).

End concurrent.
Arguments world DB WO E B {PR} SEM T IO.
Arguments task E B T IO : clear implicits.
End Concurrent.
