(* ===== verification/ConcurrentFacts.v ===== *)
(** * Facts about the concurrent server

    Executions of a task that nobody interrupts, and the end of every round. *)

From S2P Require Import Prelude RustStd Extern Errors Command Parser Value Storage StorageFacts.
From S2P Require Import Response Metrics Config ServerState Handler Spec Interleave Connection.
From S2P Require Import Script Server Concurrent.
#[local] Open Scope petra_scope.

(** ** Executions *)

Section executions.
Context (pf : profile) {MC : Memchr} `{R : RocksDB DB WO E} `{BM : BytesMut B} {IT : Itoa}.
Context {PR : Prometheus} `{SM : Semaphore SEM} `{TS : TcpStream T IO}.
Context (fresh : T -> Prop).

Abbreviation server := (Server.t DB WO SEM).
Abbreviation cworld := (Concurrent.world DB WO E B SEM T IO).
Abbreviation ctask := (Concurrent.task E B T IO).
Abbreviation execution := (Concurrent.execution (E := E) pf fresh).

Lemma execution_trans P (w1 w2 w3 : cworld) :
  execution P w1 w2 -> execution P w2 w3 -> execution P w1 w3.
Proof. intros H12 H23. induction H23; [done|]. by eapply Concurrent.execution_step. Qed.

Lemma execution_weaken (P Q : option nat -> cworld -> Prop) w1 w2 :
  (forall l w, P l w -> Q l w) -> execution P w1 w2 -> execution Q w1 w2.
Proof.
  intros HPQ H. induction H; [apply Concurrent.execution_refl|].
  eapply Concurrent.execution_step; eauto.
Qed.

Lemma execution_reachable P (w1 w2 : cworld) :
  execution P w1 w2 -> Concurrent.reachable pf fresh w1 w2.
Proof. by apply execution_weaken. Qed.

(** What holds of a world and is kept by every step holds of all worlds that
    are reached from it. *)
Lemma execution_ind_step P (I : cworld -> Prop) w1 w2 :
  I w1 -> (forall l w w', I w -> P l w -> Concurrent.step pf fresh l w w' -> I w') ->
  execution P w1 w2 -> I w2.
Proof. intros H1 Hstep H. induction H; [done|]. eauto. Qed.

Lemma with_task_id (w : cworld) id k :
  Concurrent.tasks w !! id = Some k -> Concurrent.with_task w id (Concurrent.shared w) k = w.
Proof. intros Hid. unfold Concurrent.with_task. rewrite insert_id by done. by destruct w. Qed.

(** [n] steps of a task in a row, each in a state that [ok] allows. *)
Fixpoint advance (ok : ctask -> bool) (n : nat) (s : server) (k : ctask) : option (server * ctask) :=
  match n with
  | O => Some (s, k)
  | S n => if ok k then '(s, k) ← Concurrent.task_step s k; advance ok n s k else None
  end.

Lemma advance_execution P ok n w0 (w : cworld) id s k s' k' :
  Concurrent.aborted w = false ->
  (forall s k, ok k = true -> P (Some id) (Concurrent.with_task w id s k)) ->
  execution P w0 (Concurrent.with_task w id s k) -> advance ok n s k = Some (s', k') ->
  execution P w0 (Concurrent.with_task w id s' k').
Proof.
  intros Hab HP. revert s k. induction n as [|n IH]; intros s k Hex; cbn [advance].
  - by intros [= <- <-].
  - destruct (ok k) eqn:Eok; [|done].
    destruct (Concurrent.task_step s k) as [[s1 k1]|] eqn:Es; [|done]. cbn [mbind option_bind].
    apply IH. eapply Concurrent.execution_step; [exact Hex|by apply HP|]. split; [done|].
    replace (Concurrent.with_task w id s1 k1)
      with (Concurrent.with_task (Concurrent.with_task w id s k) id s1 k1)
      by (unfold Concurrent.with_task; cbn; by rewrite insert_insert_eq).
    eapply Concurrent.act_task; [|exact Es]. cbn. by rewrite lookup_insert_eq.
Qed.

End executions.

(** ** Rounds come to an end *)

Section rounds.
Context `{R : RocksDB DB WO E} {PR : Prometheus} {SEM B T IO : Type}.

Abbreviation server := (Server.t DB WO SEM).
Abbreviation ctask := (Concurrent.task E B T IO).

(** [k'] comes after [k], in whatever state the others have left the server. *)
Definition task_next (k' k : ctask) : Prop :=
  exists s s' : server, Concurrent.task_step s k = Some (s', k').

Lemma idle_terminates c : Acc task_next (Concurrent.Idle c).
Proof. constructor. by intros k' (s & s' & H). Qed.

Lemma executing_terminates cmd (p : prog E (list reply)) next :
  (forall rs, Acc task_next (Concurrent.Talking (next rs))) ->
  Acc task_next (Concurrent.Executing cmd p next).
Proof.
  intros Hnext.
  induction p as [a| |k next0 IH|ks next0 IH|k v next0 IH|k next0 IH|next0 IH|n p IH|u p IH];
    constructor; intros k' (s & s' & H);
    cbn [Concurrent.task_step server_step prog_step] in H; repeat case_match;
    cbn [mbind option_bind] in *; simplify_eq; auto.
Qed.

Lemma talking_terminates p : Acc task_next (Concurrent.Talking p).
Proof.
  induction p as [[c st]| |u p IH|cmd next IH]; constructor; intros k' (s & s' & H);
    cbn [Concurrent.task_step] in H.
  - destruct st; simplify_eq. apply idle_terminates.
  - done.
  - by simplify_eq.
  - simplify_eq. by apply executing_terminates.
Qed.

Lemma task_terminates (k : ctask) : Acc task_next k.
Proof.
  destruct k as [c|p|cmd p next]; [apply idle_terminates|apply talking_terminates|].
  apply executing_terminates. intros rs. apply talking_terminates.
Qed.

(** A task that is not at rest can go on, has panicked, or is stuck. *)
Definition task_stuck (k : ctask) : bool :=
  match k with
  | Concurrent.Talking (Stop (_, Connection.Stuck)) => true
  | _ => false
  end.

Lemma task_progress (s : server) (k : ctask) :
  Concurrent.at_rest k = true \/ Concurrent.panicking k = true \/ task_stuck k = true \/
  is_Some (Concurrent.task_step s k).
Proof.
  destruct k as [c|[[c [|r|]]| |u p|cmd next]|cmd p next]; cbn; eauto.
  destruct p; cbn; eauto; right; right; right; repeat case_match; cbn; eauto.
Qed.

End rounds.
