(* ===== verification/Rounds.v ===== *)
(** * Rounds come to an end

    A bound on the steps of a round of [Concurrent.v], whatever the other
    tasks and the database do: a command takes a number of calls that depends
    on its keys alone, and every command a round executes shortens the
    buffer. *)

From S2P Require Import Prelude RustStd Extern Reference Errors Command Parser ParserFacts ParserProps.
From S2P Require Import Value Storage StorageFacts StorageProps Response Metrics Config ServerState.
From S2P Require Import Handler Spec HandlerProps Interleave InterleaveFacts Connection.
From S2P Require Import ConnectionFacts Script Trace ConnectionProps TraceProps Concurrent.
From S2P Require Import ConcurrentFacts.
#[local] Open Scope petra_scope.
#[local] Open Scope nat_scope.

(** ** Commands *)

Section commands.
Context `{R : RocksDB DB WO E}.

(** [prog_within Q n p]: at most [n] calls are left of [p], whatever they
    answer; with [m] of them to spare and the result [a], [Q m a] holds. *)
Fixpoint prog_within {A : Type} (Q : nat -> A -> Prop) (n : nat) (p : prog E A) : Prop :=
  match p with
  | Finish a => Q n a
  | Crash => True
  | DbGet _ next => exists m, m < n /\ forall r, prog_within Q m (next r)
  | DbMultiGet _ next => exists m, m < n /\ forall rs, prog_within Q m (next rs)
  | DbPut _ _ next => exists m, m < n /\ forall r, prog_within Q m (next r)
  | DbDelete _ next => exists m, m < n /\ forall r, prog_within Q m (next r)
  | Now next => exists m, m < n /\ forall t, prog_within Q m (next t)
  | AddExpired _ next => exists m, m < n /\ prog_within Q m next
  | Count _ next => exists m, m < n /\ prog_within Q m next
  end.

Lemma prog_within_bind {A C : Type} (Q : nat -> A -> Prop) (Q' : nat -> C -> Prop) n p
    (f : A -> prog E C) :
  prog_within Q n p -> (forall m a, Q m a -> prog_within Q' m (f a)) ->
  prog_within Q' n (p ≫= f).
Proof.
  unfold mbind, prog_mbind. revert n.
  induction p; intros n0; cbn [prog_within prog_bind]; intros Hp Hf; auto;
    destruct Hp as (m & Hm & Hp); exists m; eauto.
Qed.

(** The calls of a command. *)
Definition calls (cmd : Command) : nat :=
  match cmd with
  | Get keys => 3 * length keys + 3
  | Set_ _ _ _ _ _ | Delete _ _ => 4
  | Version | Quit => 0
  end.

Lemma prog_within_decode {A : Type} (Q : nat -> A -> Prop) n raw (f : result StoredValue (StorageError E) -> prog E A) :
  (forall r, prog_within Q n (f r)) -> prog_within Q n (decode_prog raw ≫= f).
Proof. intros Hf. unfold decode_prog. destruct (decode raw); [apply Hf|done]. Qed.

Lemma within_expired {A : Type} (Q : nat -> A -> Prop) n v (f : bool -> prog E A) :
  0 < n -> prog_within Q (pred n) (f true) ->
  (forall m, pred n <= m -> prog_within Q m (f false)) ->
  prog_within Q n (is_expired_prog v ≫= f).
Proof.
  intros Hn Ht Hf. unfold is_expired_prog. destruct (_ =? _)%Z; [apply Hf; lia|].
  exists (pred n). split; [lia|]. intros t. cbn. destruct (_ <=? _)%Z; [done|by apply Hf].
Qed.

(** The lists that the loop over [l] gathers, with [k] calls to spare. *)
Definition gathered_within (k a b : nat) (m : nat)
    (r : result (list (bytes * option StoredValue) * list bytes) (StorageError E)) : Prop :=
  k <= m /\
  match r with
  | Ok (results, expired) => length results <= a /\ length expired <= b
  | Err _ => True
  end.

Lemma within_multi_loop k a b l results expired n :
  length results + length l <= a -> length expired + length l <= b -> length l + k <= n ->
  prog_within (gathered_within k a b) n (get_multi_loop_prog l results expired).
Proof.
  revert results expired n. induction l as [|[key [[raw|]|e]] l IH]; intros results expired n Ha Hb Hn;
    cbn [length get_multi_loop_prog] in *.
  - split; [lia|]. cbn. lia.
  - apply prog_within_decode. intros [v|e]; [|by split; [lia|]]. apply within_expired; [lia| |].
    + apply IH; rewrite ?length_app; cbn; lia.
    + intros m Hm. apply IH; rewrite ?length_app; cbn; lia.
  - apply IH; rewrite ?length_app; cbn; lia.
  - split; [lia|done].
Qed.

Lemma prog_within_delete_all {A : Type} (Q : nat -> A -> Prop) n keys next :
  length keys <= n -> (forall m, n - length keys <= m -> prog_within Q m next) ->
  prog_within Q n (delete_all_prog keys next).
Proof.
  revert n. induction keys as [|k keys IH]; intros n Hn Hnext; cbn [length delete_all_prog] in *.
  - apply Hnext. lia.
  - exists (pred n). split; [lia|]. intros _. apply IH; [lia|]. intros m Hm. apply Hnext. lia.
Qed.

Lemma within_results {A : Type} (Q : nat -> A -> Prop) n results next :
  length results <= n -> (forall m, prog_within Q m next) ->
  prog_within Q n (count_results results next).
Proof.
  intros Hn Hnext. revert n Hn. induction results as [|[k [v|]] results IH]; intros n Hn;
    cbn [length count_results] in *; [apply Hnext|..];
    (exists (pred n); split; [lia|]; apply IH; lia).
Qed.

Lemma within_error n e : 0 < n -> prog_within (fun _ _ => True) n (error_prog e).
Proof. intros Hn. exists (pred n). split; [lia|done]. Qed.

Lemma prog_within_get_multi ks n :
  3 * length ks + 2 <= n ->
  prog_within (fun _ _ => True) n (r ← get_multi_prog (E := E) ks; on_get_multi r).
Proof.
  intros Hn. exists (pred n). split; [lia|]. intros rs.
  assert (Hz : length (zip ks rs) <= length ks) by (rewrite length_zip_with; lia).
  apply (prog_within_bind (fun m r => match r with
    | Ok results => length results <= length ks /\ length ks <= m
    | Err _ => 0 < m end)).
  - eapply prog_within_bind;
      [apply (within_multi_loop (2 * length ks + 1) (length ks) (length ks)); cbn; lia|].
    intros m [[results expired]|e] [Hm Hr]; [|cbn; lia]. cbn beta iota.
    case_bool_decide; [|split; lia]. exists (pred m). split; [lia|].
    apply prog_within_delete_all; [lia|]. intros m' Hm'. split; lia.
  - intros m [results|e] Hr; [|by apply within_error]. by apply within_results; [lia|].
Qed.

Lemma prog_within_get k n :
  5 <= n -> prog_within (fun _ _ => True) n (r ← get_prog (E := E) k; on_get k r).
Proof.
  intros Hn. exists (pred n). split; [lia|]. intros r.
  apply (prog_within_bind (fun m _ => 0 < m)).
  - destruct r as [[raw|]|e]; [|cbn; lia..]. apply prog_within_decode. intros [v|e]; [|cbn; lia].
    apply within_expired; [lia| |intros m Hm; cbn; lia].
    exists (pred (pred (pred n))). split; [lia|]. exists (pred (pred (pred (pred n)))).
    split; [lia|]. intros _. cbn. lia.
  - intros m [[v|]|e] Hm; (exists (pred m); split; [lia|done]).
Qed.

Lemma prog_within_command cmd n :
  calls cmd <= n -> prog_within (fun _ _ => True) n (command_prog (E := E) cmd).
Proof.
  destruct cmd as [ks|k flags exptime data noreply|k noreply| |]; cbn [calls command_prog];
    intros Hn; [| | |done..]; (exists (pred n); split; [lia|]).
  - destruct ks as [|k [|k' ks]]; [apply prog_within_get_multi|apply prog_within_get|apply prog_within_get_multi];
      cbn [length] in *; lia.
  - apply (prog_within_bind (fun m _ => 2 <= m)).
    + unfold new_value_prog. repeat case_match; cbn; [lia| |lia].
      exists (pred (pred n)). split; [lia|]. intros _. lia.
    + intros m v Hm. exists (pred m). split; [lia|]. intros [u|e]; [done|].
      apply within_error. lia.
  - exists (pred (pred n)). split; [lia|]. intros [v|e]; [|apply within_error; lia].
    exists (pred (pred (pred n))). split; [lia|]. intros [u|e]; [|apply within_error; lia].
    cbn. by case_bool_decide.
Qed.

End commands.

(** ** Scripts *)

(** The same of a script: a command counts its calls, and one step before
    and after them. *)
Fixpoint within {A : Type} (Q : nat -> A -> Prop) (n : nat) (p : script A) : Prop :=
  match p with
  | Stop a => Q n a
  | Fault => True
  | Meter _ next => exists m, m < n /\ within Q m next
  | Call cmd next => exists m, m + calls cmd + 2 <= n /\ forall rs, within Q m (next rs)
  end.

Lemma script_within_bind {A C : Type} (Q : nat -> A -> Prop) (Q' : nat -> C -> Prop) n p (f : A -> script C) :
  within Q n p -> (forall m a, Q m a -> within Q' m (f a)) -> within Q' n (p ≫= f).
Proof.
  unfold mbind, script_mbind. revert n.
  induction p as [a| |u p IH|cmd next IH]; intros n; cbn [within script_bind]; intros Hp Hf; auto;
    destruct Hp as (m & Hm & Hp); exists m; auto.
Qed.

(** ** Keys *)

Lemma slice_split_length sep s : length (slice_split sep s) <= Datatypes.S (length s).
Proof.
  induction s as [|b s IH]; cbn [slice_split]; [done|].
  case_bool_decide; cbn [length]; [lia|]. destruct (slice_split sep s); cbn [length] in *; lia.
Qed.

Lemma parse_get_loop_length parts keys keys' :
  parse_get_loop parts keys = Ok keys' -> length keys' <= length keys + length parts.
Proof.
  revert keys. induction parts as [|p parts IH]; intros keys; cbn [parse_get_loop length].
  - intros [= <-]. lia.
  - case_bool_decide; [intros Hk%IH; lia|]. destruct (negb _); [by case_match|].
    intros Hk%IH. rewrite length_app in Hk. cbn in Hk. lia.
Qed.

Section rounds.
Context (pf : profile) `{MCS : MemchrSpec} `{BMS : BytesMutSpec B} {IT : Itoa} `{TS : TcpStream T IO}.

Abbreviation connection := (Connection.conn T B).

(** A get command has fewer keys than bytes. *)
Lemma parse_keys front keys :
  slice_ok front -> parse pf front = Ret (Complete (Get keys) (len front)) ->
  length keys <= length front.
Proof.
  intros Hok Hp. destruct (parse_result_line pf _ _ Hok Hp ltac:(done)) as (line & rest & -> & Hl & Hm).
  destruct (parse_line line) as [p|r] eqn:Eline.
  - apply parse_line_pending in Eline as Hwf. apply line_lens in Hok as ?.
    apply parse_storage_data_complete in Hm as (_ & _ & d & [=] & _);
      [lia|apply Hwf|done|]. destruct Hwf as (_ & _ & _ & _ & ->). rewrite !len_app, len_CRLF. lia.
  - subst r. unfold parse_line in Eline. pose proof (slice_split_length SP line) as Hs.
    destruct (slice_split SP line) as [|name parts]; [done|]. cbn [iter_next length] in *.
    case_bool_decide; [done|]. case_match.
    + injection Eline as Hg. unfold parse_get in Hg.
      destruct (parse_get_loop parts []) eqn:Eg; [|done]. case_bool_decide; [done|].
      injection Hg as -> _. apply parse_get_loop_length in Eg. cbn in Eg.
      rewrite length_app. lia.
    + repeat (case_match; simplify_eq); unfold parse_delete in *; repeat (case_match; simplify_eq).
Qed.

(** A command costs at most six steps for each of its bytes. *)
Lemma command_cost front cmd :
  slice_ok front -> parse pf front = Ret (Complete cmd (len front)) -> 2 <= length front ->
  calls cmd + 3 <= 6 * length front.
Proof.
  intros Hok Hp Hf. destruct cmd; cbn [calls]; [|lia..].
  pose proof (parse_keys _ _ Hok Hp). lia.
Qed.

(** ** Rounds *)

(** A connection in the inner loop, with [n] steps left. *)
Definition steady (n : nat) (c : connection) : Prop :=
  conn_ok pf c /\ slice_ok (waiting c) /\ 6 * length (waiting c) + 3 <= n.

(** How a round of the inner loop goes on with [n] steps left. *)
Definition loop_within (c : connection) (n : nat)
    (ce : connection * option (Connection.exit IO)) : Prop :=
  let '(c', e) := ce in
  match e with
  | None => steady n c' /\ length (waiting c') < length (waiting c)
  | Some Connection.OutOfFuel => False
  | Some _ => 0 < n
  end.

Lemma within_send {A : Type} (Q : nat -> A -> Prop) n (c : connection) f :
  0 < n ->
  (forall c' r, waiting c' = waiting c ->
     Connection.pending_storage c' = Connection.pending_storage c -> within Q (pred n) (f (c', r))) ->
  within Q n (Script.send c ≫= f).
Proof.
  intros Hn Hf. unfold Script.send. destruct (ResponseWriter.take _) as [b w].
  exists (pred n). split; [lia|]. destruct (stream_write_all _ _) as [t r].
  cbn [mbind script_mbind script_bind mret script_mret]. by apply Hf.
Qed.

Lemma within_on_complete n (c : connection) cmd front rest :
  steady n c -> waiting c = front ++ rest -> 2 <= length front ->
  parse pf front = Ret (Complete cmd (len front)) ->
  within (loop_within c) n (Script.on_complete c cmd (len front)).
Proof.
  intros (Hc & Hok & Hn) Hb Hf Hp. rewrite Hb in Hok, Hn. rewrite length_app in Hn.
  pose proof (command_cost front cmd (slice_ok_app_l _ _ Hok) Hp Hf).
  exists (n - calls cmd - 2). split; [lia|]. intros rs.
  destruct (bm_split_to_app (Connection.read_buf c) front rest Hb) as (f & rb & -> & Hrb).
  cbn [unwrap pure_script mbind script_mbind script_bind].
  apply slice_ok_app_r in Hok.
  assert (Hfin : forall m (c' : connection) (q : bool), 6 * length rest + 3 <= m -> waiting c' = rest ->
    Connection.pending_storage c' = None ->
    within (loop_within c) m
      (mret (c', if q then Some (Connection.Return (IO := IO) (Ok tt)) else None))).
  { intros m c' q Hm Hw Hpend. destruct q; cbn [within mret script_mret loop_within]; [lia|].
    split; [|rewrite Hw, Hb, length_app; lia]. split; [by unfold conn_ok; rewrite Hpend|].
    by rewrite Hw. }
  destruct (_ && _); [|apply Hfin; [lia|exact Hrb|done]].
  apply within_send; [lia|]. intros c' [u|e] Hw Hpend; [|cbn; lia].
  apply Hfin; [lia|by rewrite Hw|done].
Qed.

Lemma within_pure {A C : Type} (Q : nat -> C -> Prop) n (o : outcome A) f :
  (forall a, within Q n (f a)) -> within Q n (pure_script o ≫= f).
Proof. by destruct o; cbn. Qed.

Lemma within_on_need_more n (c : connection) :
  steady n c -> within (loop_within c) n (Script.on_need_more (IO := IO) pf c).
Proof.
  intros (_ & _ & Hn). unfold Script.on_need_more. apply within_pure. intros pending. cbn. lia.
Qed.

Lemma within_on_error n (c : connection) e :
  steady n c -> within (loop_within c) n (Script.on_error pf c e).
Proof.
  intros (_ & _ & Hn). exists (pred n). split; [lia|]. apply within_pure. intros rb.
  apply within_send; [lia|]. intros c' [u|io] _ _; cbn; lia.
Qed.

Lemma within_process_one n (c : connection) :
  steady n c -> within (loop_within c) n (Script.process_one pf c).
Proof.
  intros Hc. pose proof Hc as (Hok & Hs & _). unfold Script.process_one.
  rewrite next_parse_ok by done.
  destruct (parse pf (waiting c)) as [[cmd k| |err]|] eqn:Ep; cbn [pure_script mbind script_mbind script_bind].
  - destruct (parse_complete_split pf _ _ _ Hs Ep) as (front & rest & Hb & -> & Hk & _ & Hf).
    eapply within_on_complete; [done|exact Hb| |done]. unfold len in Hk. lia.
  - by apply within_on_need_more.
  - by apply within_on_error.
  - done.
Qed.

Lemma within_process fuel n (c : connection) :
  steady n c -> length (waiting c) < fuel ->
  within (fun m ce => snd ce <> Connection.OutOfFuel (IO := IO) /\ 0 < m) n (Script.process pf fuel c).
Proof.
  revert n c. induction fuel as [|fuel IH]; intros n c Hc Hf; [lia|]. cbn [Script.process].
  eapply script_within_bind; [by apply within_process_one|]. intros m [c' [e|]] Hloop; cbn [loop_within] in Hloop.
  - by destruct e; cbn.
  - destruct Hloop. apply IH; [done|lia].
Qed.

(** How many steps a round of the connection [c] can take. *)
Definition round_bound (c : connection) (cancelled : bool) : nat :=
  6 * length (waiting c ++ Connection.arrival c cancelled) + 4.

(** The result of a round, with [n] steps left. *)
Definition round_within (n : nat) (cs : connection * Connection.status IO) : Prop :=
  match snd cs with
  | Connection.Running => 0 < n
  | Connection.Done _ => True
  | Connection.Stuck => False
  end.

Lemma within_turn (c : connection) cancelled :
  conn_ok pf c -> slice_ok (waiting c) -> Connection.read_fits c ->
  within round_within (round_bound c cancelled) (Script.turn pf c cancelled).
Proof.
  intros Hc Hok Hfit. unfold Script.turn, round_bound, Connection.arrival.
  assert (Hleave : forall n (c : connection), 0 < n -> within round_within n (Script.leave c)).
  { intros n c0 Hn. exists (pred n). split; [lia|done]. }
  destruct cancelled; [apply Hleave; lia|]. unfold Connection.read_fits in Hfit.
  destruct (stream_read _) as [t [[|b k]|e]]; [apply Hleave; lia| |apply Hleave; lia].
  cbn [snd Script.on_read] in *. specialize (Hfit (b :: k) eq_refl).
  exists (6 * length (waiting c ++ b :: k) + 3). split; [lia|].
  set (c1 := {| Connection.stream := t; Connection.read_buf := Connection.read_buf c;
    Connection.response := Connection.response c;
    Connection.pending_storage := Connection.pending_storage c |}).
  eapply script_within_bind; [apply (within_process _ _ (received c1 (b :: k))); [|apply Nat.lt_succ_diag_r]|].
  - split; [by apply received_conn_ok|]. rewrite waiting_received. by split.
  - intros m [c' [|r|]] [Hne Hm]; cbn in *; done.
Qed.

End rounds.

(** ** Tasks *)

Section tasks.
Context `{R : RocksDB DB WO E} {PR : Prometheus} {SEM B T IO : Type}.

Abbreviation server := (Server.t DB WO SEM).
Abbreviation ctask := (Concurrent.task E B T IO).

(** At most [n] steps are left of the round of the task. *)
Definition task_within (n : nat) (k : ctask) : Prop :=
  match k with
  | Concurrent.Idle _ => True
  | Concurrent.Talking p => within round_within n p
  | Concurrent.Executing cmd p next => exists a b, a + b + 1 <= n /\
      prog_within (fun _ _ => True) a p /\ forall rs, within round_within b (next rs)
  end.

Lemma task_within_step n (s s' : server) (k k' : ctask) :
  task_within n k -> Concurrent.task_step s k = Some (s', k') ->
  exists m, m < n /\ task_within m k'.
Proof.
  destruct k as [c|[[c st]| |u p|cmd next]|cmd p next]; cbn [Concurrent.task_step task_within];
    intros Hk H; try done.
  - destruct st; simplify_eq. by exists 0.
  - simplify_eq. exact Hk.
  - simplify_eq. destruct Hk as (m & Hm & Hk). exists (m + calls cmd + 1). split; [lia|].
    exists (calls cmd), m. split; [lia|]. split; [by apply prog_within_command|done].
  - destruct Hk as (a & b & Hn & Hp & Hk).
    assert (Hgo : forall p', (exists m, m < a /\ prog_within (fun _ _ => True) m p') ->
      exists m, m < n /\ task_within m (Concurrent.Executing cmd p' next)).
    { intros p' (m & Hm & Hp'). exists (m + b + 1). split; [lia|]. exists m, b. split; [lia|done]. }
    destruct p; cbn [server_step prog_step prog_within] in *; repeat case_match;
      cbn [mbind option_bind] in *; simplify_eq;
      try (apply Hgo; destruct Hp as (m & Hm & Hp); by eauto).
    exists b. split; [lia|apply Hk].
Qed.

(** A task that is at rest, panics or can go on is not stuck. *)
Lemma task_within_goes_on n (k : ctask) :
  task_within n k -> Concurrent.at_rest k = true \/ Concurrent.panicking k = true \/
    forall s : server, is_Some (Concurrent.task_step s k).
Proof.
  intros Hk. destruct (Concurrent.at_rest k) eqn:E1; [by left|].
  destruct (Concurrent.panicking k) eqn:E2; [by right; left|]. right; right. intros s.
  destruct (task_progress s k) as [?|[?|[Hs|?]]]; [congruence|congruence| |done].
  by destruct k as [|[[c []]| | |]|].
Qed.

(** [n] steps of a task, in whatever states of the server the others leave. *)
Inductive task_run : nat -> ctask -> ctask -> Prop :=
| task_run_0 k : task_run 0 k k
| task_run_S n k k1 (s s' : server) k2 :
    task_run n k k1 -> Concurrent.task_step s k1 = Some (s', k2) -> task_run (Datatypes.S n) k k2.

Lemma task_run_within b n k k' :
  task_within b k -> task_run n k k' -> exists m, n + m <= b /\ task_within m k'.
Proof.
  intros Hk Hrun. induction Hrun as [k|n k k1 s s' k2 _ IH Hstep]; [by exists b|].
  destruct (IH Hk) as (m & Hm & Hk1). destruct (task_within_step _ _ _ _ _ Hk1 Hstep) as (m' & ? & ?).
  exists m'. split; [lia|done].
Qed.

End tasks.
