(* ===== verification/Accounts.v ===== *)
(** * What the concurrent server has done

    The invariant that accounts for every world of [Concurrent.v] with a run
    of the relaxed cache of [Relaxed.v]: the state of every task, ended,
    panicked or in progress, follows from the part of the run that belongs to
    its connection. *)

From S2P Require Import Prelude RustStd Extern Reference Errors Command Parser ParserFacts ParserProps.
From S2P Require Import Value Storage StorageFacts StorageProps Response Metrics Config ServerState.
From S2P Require Import Examples Handler Spec HandlerProps Interleave InterleaveFacts Connection.
From S2P Require Import ConnectionFacts Script ScriptFacts Trace Relaxed RelaxedFacts ConnectionProps.
From S2P Require Import TraceProps Server ScriptTrace Actions Concurrent ConcurrentFacts.
#[local] Open Scope petra_scope.

Section facts.
Context (pf : profile) `{MCS : MemchrSpec} `{RS : RocksDBSpec DB WO E} `{BMS : BytesMutSpec B}.
Context `{ITS : ItoaSpec} {PR : Prometheus} `{SM : Semaphore SEM} `{TSS : TcpStreamSpec T IO}.
Context (fresh : T -> Prop) (clean : Prop).
Hypothesis Hfresh : clean -> forall t, fresh t -> stream_got t = [] /\ stream_sent t = [].

Abbreviation server := (Server.t DB WO SEM).
Abbreviation connection := (Connection.conn T B).
Abbreviation cworld := (Concurrent.world DB WO E B SEM T IO).
Abbreviation ctask := (Concurrent.task E B T IO).
Abbreviation round := (script (connection * Connection.status IO)).
Abbreviation time_of s := (timestamp (st_clock (Server.storage s))).
Abbreviation now w := (time_of (Concurrent.shared w)).
Abbreviation command_plan cmd := (plan (replied cmd) ends_in cmd).

(** ** The conditions under which there is no race *)

(** The step [l] removes nothing from the database that its command has not
    seen. *)
Definition quiet (l : option nat) (w : cworld) : Prop :=
  forall id cmd p next, l = Some id ->
  Concurrent.tasks w !! id = Some (Concurrent.Executing cmd p next) ->
  quiet_db (Server.storage (Concurrent.shared w)) cmd p.

(** The same of the cache of the state [st]. *)
Definition quiet_in (st : rstate) (l : option nat) (w : cworld) : Prop :=
  forall id cmd p next, l = Some id ->
  Concurrent.tasks w !! id = Some (Concurrent.Executing cmd p next) ->
  quiet_call (r_cache st) (now w) cmd p.

(** No task makes a step while another is in the middle of a command. *)
Definition exclusive (l : option nat) (w : cworld) : Prop :=
  forall id id' k, l = Some id -> id' <> id -> Concurrent.tasks w !! id' = Some k ->
  Concurrent.executing k = false.

(** ** The invariant *)

(** What the log and the view of a connection that has received [g] say of
    its task. *)
Inductive task_accounted (log : list entry) (seen : option (cache * Z)) (t : Z) (g : bytes) :
    ctask -> Prop :=
| acc_idle c :
    seen = None -> task_ok pf c -> got c = g -> (legible clean g -> explained pf log c) ->
    task_accounted log seen t g (Concurrent.Idle c)
| acc_talking p :
    seen = None -> asked pf clean log g -> script_spec pf clean g (round_ended pf clean g) log p ->
    task_accounted log seen t g (Concurrent.Talking p)
| acc_executing cmd p next :
    command_plan cmd seen t p ->
    (legible clean g -> exists rest rest', explains pf log g rest /\
       next_event pf rest = Some (EvCommand cmd, rest')) ->
    (forall rs, Forall reply_fits rs ->
       script_spec pf clean g (round_ended pf clean g) (log ++ [(EvCommand cmd, rs)]) (next rs)) ->
    task_accounted log seen t g (Concurrent.Executing cmd p next)
| acc_replied cmd rs p next :
    seen = None -> asked pf clean log g -> ends_in rs p ->
    script_spec pf clean g (round_ended pf clean g) log (next rs) ->
    task_accounted log seen t g (Concurrent.Executing cmd p next).

Lemma task_accounted_later log seen t t' g k :
  t <= t' -> task_accounted log seen t g k -> task_accounted log seen t' g k.
Proof.
  intros Ht H. destruct H; [by apply acc_idle|by apply acc_talking| |by eapply acc_replied].
  apply acc_executing; [|done..]. eapply plan_later; [apply replied_lasting|done|done].
Qed.

(** The log of a task is what the parser reads off its input. *)
Lemma task_asked log seen t g k : task_accounted log seen t g k -> asked pf clean log g.
Proof.
  intros H. destruct H as [c _ _ <- He|p _ Ha _|cmd p next _ He _|cmd rs p next _ Ha _ _];
    intros Hok; [|by apply Ha| |by apply Ha].
  - destruct (He Hok) as [Hex _]. by eexists.
  - destruct (He Hok) as (rest & _ & Hex & _). by eexists.
Qed.

(** A task panics where the parser does. *)
Lemma task_panics log seen t g k :
  task_accounted log seen t g k -> Concurrent.panicking k = true -> legible clean g ->
  exists rest, explains pf log g rest /\ parse pf rest = Panic.
Proof.
  intros H Hp Hok. destruct H as [c _ _ _ _|p _ _ Hs|cmd p next Hplan _ _|cmd rs p next _ _ Hend _].
  - done.
  - destruct p; try done. by apply Hs.
  - by destruct p.
  - by destruct p.
Qed.

(** The run [tr] accounts for the world [w], from the state [st0]; it has no
    race if [q] holds, and no command in progress has been disturbed if [x]
    does. *)
Record accounts (q x : Prop) (st0 : rstate) (w : cworld)
    (tr : list (nat * action * rstate)) : Prop := {
  ac_run : valid_run (db_message (E := E)) st0 tr;
  ac_cache : represents (r_cache (final st0 tr)) (Server.storage (Concurrent.shared w));
  ac_time : r_time (final st0 tr) <= now w;
  ac_quiet : q -> race_free st0 tr;
  ac_alone id cmd p next : x ->
    Concurrent.tasks w !! id = Some (Concurrent.Executing cmd p next) ->
    undisturbed cmd (final st0 tr) id;
  ac_tasks id k : Concurrent.tasks w !! id = Some k -> (id < Concurrent.next_id w)%nat /\
    exists g, (clean -> Concurrent.input w id = g) /\
    task_accounted (entries_of id tr) (r_seen (final st0 tr) !! id) (now w) g k;
  ac_closed id c r : Concurrent.closed w !! id = Some (c, r) ->
    (id < Concurrent.next_id w)%nat /\ Concurrent.tasks w !! id = None /\
    r_seen (final st0 tr) !! id = None /\ (clean -> Concurrent.input w id = got c) /\
    (legible clean (got c) -> explained_end pf (entries_of id tr) c r);
  ac_crashed id : id ∈ Concurrent.crashed w ->
    (id < Concurrent.next_id w)%nat /\
    (Concurrent.tasks w !! id = None \/ Concurrent.aborted w = true) /\
    (legible clean (Concurrent.input w id) -> exists rest,
       explains pf (entries_of id tr) (Concurrent.input w id) rest /\ parse pf rest = Panic);
  ac_new id : (Concurrent.next_id w <= id)%nat ->
    entries_of id tr = [] /\ r_seen (final st0 tr) !! id = None /\ Concurrent.input w id = [];
}.

(** What the actions of one connection leave alone. *)
Lemma moves_others q id id' st st' log :
  moves (E := E) q id st st' log -> id' <> id -> r_seen st' !! id' = r_seen st !! id'.
Proof.
  intros (tr & Hrun & <- & Hids & _) Hne. revert st Hrun.
  induction Hids as [|[[i a] st1] tr Hi _ IH]; intros st; cbn [valid_run final fst] in *; [done|].
  intros [(t & _ & Hstep) Hrun]. rewrite (IH st1 Hrun). subst i.
  by eapply rstep_seen_other.
Qed.

Lemma entries_of_others id id' tr :
  Forall (fun x : nat * action * rstate => fst (fst x) = id) tr -> id' <> id ->
  entries_of id' tr = [].
Proof.
  intros Hids Hne. induction Hids as [|[[i a] st1] tr Hi _ IH]; [done|]. cbn in Hi. subst i.
  by rewrite entries_of_other.
Qed.

(** A world in which only the task [id] and what belongs to it differ. *)
Record moved (id : nat) (w w' : cworld) : Prop := {
  mv_next : Concurrent.next_id w' = Concurrent.next_id w;
  mv_crashed id' : id' <> id -> id' ∈ Concurrent.crashed w' -> id' ∈ Concurrent.crashed w;
  mv_tasks id' : id' <> id -> Concurrent.tasks w' !! id' = Concurrent.tasks w !! id';
  mv_closed id' : id' <> id -> Concurrent.closed w' !! id' = Concurrent.closed w !! id';
  mv_input id' : id' <> id -> Concurrent.input w' id' = Concurrent.input w id';
}.

(** The task [id] has moved from [w] to [w']. *)
Lemma accounts_moves (q x qc : Prop) st0 (w w' : cworld) tr id k0 st' log :
  accounts q x st0 w tr -> Concurrent.aborted w = false -> Concurrent.tasks w !! id = Some k0 ->
  moves (E := E) qc id (final st0 tr) st' log ->
  represents (r_cache st') (Server.storage (Concurrent.shared w')) ->
  r_time st' <= now w' -> now w <= now w' -> moved id w w' ->
  (x -> forall cmd p next, Concurrent.tasks w' !! id = Some (Concurrent.Executing cmd p next) ->
     undisturbed cmd st' id) ->
  (forall k, Concurrent.tasks w' !! id = Some k ->
     exists g, (clean -> Concurrent.input w' id = g) /\
     task_accounted (entries_of id tr ++ log) (r_seen st' !! id) (now w') g k) ->
  (forall c r, Concurrent.closed w' !! id = Some (c, r) -> Concurrent.tasks w' !! id = None /\
     r_seen st' !! id = None /\ (clean -> Concurrent.input w' id = got c) /\
     (legible clean (got c) -> explained_end pf (entries_of id tr ++ log) c r)) ->
  (id ∈ Concurrent.crashed w' ->
     (Concurrent.tasks w' !! id = None \/ Concurrent.aborted w' = true) /\
     (legible clean (Concurrent.input w' id) -> exists rest,
        explains pf (entries_of id tr ++ log) (Concurrent.input w' id) rest /\
        parse pf rest = Panic)) ->
  exists tr2, accounts (q /\ qc) (x /\ exclusive (Some id) w) st0 w' (tr ++ tr2).
Proof.
  intros [Hrun Hc Ht Hq Hx Htasks Hclosed Hcrash Hnew] Hab Hid0 Hmoves Hc' Ht' Hnow
    [Hn Mcrash Mtasks Mclosed Minput] Halone Hown Hend Hpanic.
  destruct (Htasks id k0 Hid0) as [Hid _].
  pose proof (fun id' => moves_others qc id id' _ _ _ Hmoves) as Hseen.
  destruct Hmoves as (tr2 & Hrun2 & Hfinal & Hids & Hlog & Hqc).
  assert (Hent : forall id', id' <> id -> entries_of id' (tr ++ tr2) = entries_of id' tr).
  { intros id' Hne. by rewrite entries_of_app, (entries_of_others id id' tr2 Hids Hne), app_nil_r. }
  exists tr2. split; rewrite ?final_app, ?Hfinal, ?Hn.
  - by apply valid_run_app.
  - done.
  - done.
  - intros [? ?]. apply race_free_app; auto.
  - intros id' cmd p next [Hx1 Hx2] Hk. destruct (decide (id' = id)) as [->|Hne]; [by eapply Halone|].
    rewrite Mtasks in Hk by done. by specialize (Hx2 id id' _ eq_refl Hne Hk).
  - intros id' k Hk. destruct (decide (id' = id)) as [->|Hne].
    + split; [done|]. rewrite entries_of_app, Hlog. by apply Hown.
    + rewrite Mtasks in Hk by done. destruct (Htasks id' k Hk) as (? & g & Hg & Hacc).
      split; [done|]. exists g. rewrite Hent, Hseen, Minput by done. split; [done|].
      by eapply task_accounted_later.
  - intros id' c r Hcl. destruct (decide (id' = id)) as [->|Hne].
    + rewrite entries_of_app, Hlog. split; [done|]. by apply Hend.
    + rewrite Mclosed in Hcl by done. rewrite Mtasks, Hent, Hseen, Minput by done. by apply Hclosed.
  - intros id' Hcr. destruct (decide (id' = id)) as [->|Hne].
    + rewrite entries_of_app, Hlog. split; [done|]. by apply Hpanic.
    + destruct (Hcrash id' (Mcrash id' Hne Hcr)) as (? & [Hno|?] & ?); [|congruence].
      rewrite Mtasks, Hent, Minput by done. split_and!; [done|by left|done].
  - intros id' Hid'. destruct (Hnew id' Hid') as (He & Hs & Hi).
    assert (id' <> id) by lia. by rewrite Hent, Hseen, Minput.
Qed.

(** ** The steps *)

Lemma accounts_weaken (q q' x x' : Prop) st0 (w : cworld) tr :
  (q' -> q) -> (x' -> x) -> accounts q x st0 w tr -> accounts q' x' st0 w tr.
Proof. intros Hq Hx []. split; eauto. Qed.

(** A step that leaves the tasks alone. *)
Lemma accounts_same q x st0 (w w' : cworld) tr :
  accounts q x st0 w tr -> Concurrent.tasks w' = Concurrent.tasks w ->
  Concurrent.closed w' = Concurrent.closed w -> Concurrent.crashed w' = Concurrent.crashed w ->
  Concurrent.received w' = Concurrent.received w -> Concurrent.next_id w' = Concurrent.next_id w ->
  Concurrent.aborted w' = Concurrent.aborted w ->
  represents (r_cache (final st0 tr)) (Server.storage (Concurrent.shared w')) ->
  now w <= now w' -> accounts q x st0 w' tr.
Proof.
  intros [Hrun Hc Ht Hq Hx Htasks Hclosed Hcrash Hnew] E1 E2 E3 E4 E5 E6 Hc' Hnow.
  assert (Hi : forall id, Concurrent.input w' id = Concurrent.input w id)
    by (intros; unfold Concurrent.input; by rewrite E4).
  split; rewrite ?E1, ?E2, ?E3, ?E5, ?E6; try done.
  - lia.
  - intros id k Hk. rewrite Hi. destruct (Htasks id k Hk) as (? & g & Hg & Hacc). split; [done|].
    exists g. split; [done|]. by eapply task_accounted_later.
  - intros id c r. rewrite Hi. apply Hclosed.
  - intros id. rewrite Hi. apply Hcrash.
  - intros id. rewrite Hi. apply Hnew.
Qed.

Lemma accept_accounts q x st0 (w : cworld) tr t :
  accounts q x st0 w tr -> fresh t -> accounts q x st0 (Concurrent.accept w t) tr.
Proof.
  intros Hacc Hf. unfold Concurrent.accept, handle_new_connection.
  destruct (sem_try_acquire _) as [sem|];
    [|apply (accounts_same q x st0 w); [done..|apply (ac_cache _ _ _ _ _ Hacc)|apply Z.le_refl]].
  destruct Hacc as [Hrun Hc Ht Hq Hx Htasks Hclosed Hcrash Hnew].
  split; cbn [Concurrent.shared Concurrent.tasks Concurrent.closed Concurrent.crashed
    Concurrent.next_id Concurrent.aborted]; try done.
  - intros id cmd p next Hxx Hk.
    apply (lookup_insert_Some (M := gmap nat)) in Hk as [[_ [=]]|[_ Hk]]. by eapply Hx.
  - intros id k Hid. apply (lookup_insert_Some (M := gmap nat)) in Hid as [[<- <-]|[Hne Hid]].
    + split; [lia|]. destruct (Hnew (Concurrent.next_id w) ltac:(lia)) as (-> & Hs & Hi).
      set (c := Connection.start _ t). exists (got c). unfold Concurrent.input in *.
      cbn [Concurrent.received]. rewrite Hi.
      split; [intros Hcl; by destruct (Hfresh Hcl t Hf)|].
      apply acc_idle; [done|by apply (start_task pf)|done|]. intros [Hcl _].
      destruct (Hfresh Hcl t Hf). by apply start_explained.
    + destruct (Htasks id k Hid). split; [lia|done].
  - intros id c r Hid. destruct (Hclosed id c r Hid) as (? & ? & ?). split; [lia|].
    split; [|done]. by rewrite lookup_insert_ne by lia.
  - intros id Hid. destruct (Hcrash id Hid) as (? & [?|?] & ?); (split; [lia|]); (split; [|done]).
    + left. by rewrite lookup_insert_ne by lia.
    + by right.
  - intros id Hid. apply Hnew. lia.
Qed.

Lemma moved_with_task (w : cworld) id s k : moved id w (Concurrent.with_task w id s k).
Proof. split; try done. intros id' Hne. cbn. by rewrite lookup_insert_ne. Qed.

(** A step of a task. *)
Lemma accounts_task (q x qc : Prop) st0 (w : cworld) tr id k s' k' st' log :
  accounts q x st0 w tr -> Concurrent.aborted w = false -> Concurrent.tasks w !! id = Some k ->
  moves (E := E) qc id (final st0 tr) st' log -> represents (r_cache st') (Server.storage s') ->
  r_time st' <= time_of s' -> now w <= time_of s' ->
  (x -> forall cmd p next, k' = Concurrent.Executing cmd p next -> undisturbed cmd st' id) ->
  (exists g, (clean -> Concurrent.input w id = g) /\
     task_accounted (entries_of id tr ++ log) (r_seen st' !! id) (time_of s') g k') ->
  exists tr2, accounts (q /\ qc) (x /\ exclusive (Some id) w) st0
    (Concurrent.with_task w id s' k') (tr ++ tr2).
Proof.
  intros Hacc Hab Hid Hmoves Hc Ht Hnow Hx Hk'.
  eapply (accounts_moves q x qc st0 w _ tr id k st' log);
    [done..|apply moved_with_task| | | |]; cbn [Concurrent.with_task Concurrent.tasks
      Concurrent.closed Concurrent.crashed Concurrent.aborted Concurrent.shared].
  - intros Hxx cmd p next. rewrite lookup_insert_eq. intros [= ->]. by eapply Hx.
  - intros k2. rewrite lookup_insert_eq. by intros [= <-].
  - intros c r Hcl. destruct (ac_closed _ _ _ _ _ Hacc id c r Hcl) as (_ & Hnone & _). congruence.
  - intros Hcr. destruct (ac_crashed _ _ _ _ _ Hacc id Hcr) as (_ & [?|?] & _); congruence.
Qed.

(** The same without an action. *)
Lemma accounts_task_silent (q x qc : Prop) st0 (w : cworld) tr id k s' k' :
  accounts q x st0 w tr -> Concurrent.aborted w = false -> Concurrent.tasks w !! id = Some k ->
  Server.storage s' = Server.storage (Concurrent.shared w) ->
  (x -> forall cmd p next, k' = Concurrent.Executing cmd p next ->
     undisturbed cmd (final st0 tr) id) ->
  (exists g, (clean -> Concurrent.input w id = g) /\
     task_accounted (entries_of id tr) (r_seen (final st0 tr) !! id) (now w) g k') ->
  exists tr2, accounts (q /\ qc) (x /\ exclusive (Some id) w) st0
    (Concurrent.with_task w id s' k') (tr ++ tr2).
Proof.
  intros Hacc Hab Hid Hs Hx (g & Hg & Hk). eapply accounts_task; [exact Hacc|exact Hab|exact Hid|apply moves_refl|rewrite Hs; apply Hacc|
    rewrite Hs; apply Hacc|rewrite Hs; lia|done|].
  exists g. split; [done|]. by rewrite app_nil_r, Hs.
Qed.

(** The rejected line at the end of a round. *)
Lemma moves_tail q id st t tail :
  line_tail tail -> r_seen st !! id = None -> r_time st <= t ->
  exists st', moves (E := E) q id st st' tail /\ r_cache st' = r_cache st /\ r_time st' <= t /\
    r_seen st' !! id = None.
Proof.
  intros [->|[e ->]] Hn Ht; [exists st; by split; [apply moves_refl|]|].
  eexists. split; [|split; [|split]].
  - eapply (moves_once q id st t (Log (EvError e, _))); [done|by apply r_line|done].
  - done.
  - cbn. lia.
  - done.
Qed.

Lemma apply_meter_storage (s : server) u : Server.storage (apply_meter s u) = Server.storage s.
Proof. by destruct u. Qed.

Lemma server_step_cases {A : Type} (s s' : server) (p p' : prog E A) :
  server_step s p = Some (s', p') ->
  (exists u, p = Count u p' /\ s' = apply_meter s u) \/
  (exists st, prog_step (Server.storage s) p = Some (st, p') /\ s' = Server.set_storage s st /\
     forall u q, p <> Count u q).
Proof.
  destruct p; cbn [server_step]; intros H;
    try (destruct (prog_step _ _) as [[st p1]|] eqn:Ep; [|done];
         cbn [mbind option_bind] in H; injection H as <- <-; right; by exists st).
  injection H as <- <-. left. by eexists.
Qed.

(** Nothing has been seen, or everything is as it was seen. *)
Lemma undisturbed_none cmd st id : r_seen st !! id = None -> undisturbed cmd st id.
Proof. intros Hn c0 t0 Hs. congruence. Qed.

Lemma executing_accounts q x st0 (w : cworld) tr id cmd p next s' p' :
  accounts q x st0 w tr -> Concurrent.aborted w = false ->
  Concurrent.tasks w !! id = Some (Concurrent.Executing cmd p next) ->
  server_step (Concurrent.shared w) p = Some (s', p') ->
  exists tr2, accounts (q /\ quiet_in (final st0 tr) (Some id) w)
    (x /\ exclusive (Some id) w) st0
    (Concurrent.with_task w id s' (Concurrent.Executing cmd p' next)) (tr ++ tr2).
Proof.
  intros Hacc Hab Hid Hstep. destruct (ac_tasks _ _ _ _ _ Hacc id _ Hid) as (_ & g & Hg & Hk).
  pose proof (ac_alone _ _ _ _ _ Hacc id cmd p next) as Hx.
  apply server_step_cases in Hstep as [(u & -> & ->)|(st & Hstep & -> & Hne)].
  { eapply accounts_task_silent; [exact Hacc|exact Hab|exact Hid|apply apply_meter_storage| |].
    - intros Hxx ??? [= <- _ _]. by apply Hx.
    - exists g. split; [done|]. inversion Hk; subst; [by apply acc_executing|by eapply acc_replied]. }
  inversion Hk as [| |? ? ? Hp Hnext Hrest|? rs ? ? Hs Ha Hp Hrest]; subst;
    [|by destruct p; try done; destruct (Hne u p)].
  destruct (plan_step (quiet_in (final st0 tr) (Some id) w) id (final st0 tr) _
    (ac_cache _ _ _ _ _ Hacc) (ac_time _ _ _ _ _ Hacc) cmd st p p') as [Hst Hnow];
    [intros Hq; by apply (Hq id cmd p next)|done|done|].
  destruct Hst as [st' p1 Hm Hc Ht Hund Hp'|st' rs p1 Hm Hc Ht Hs Hfit Hp'].
  - eapply accounts_task; [exact Hacc|exact Hab|exact Hid|exact Hm|done..| |].
    + intros Hxx ??? [= <- _ _]. by apply Hund, Hx.
    + exists g. split; [done|]. rewrite app_nil_r. by apply acc_executing.
  - eapply accounts_task; [exact Hacc|exact Hab|exact Hid|exact Hm|done..| |].
    + intros _ ??? _. by apply undisturbed_none.
    + exists g. split; [done|]. apply (acc_replied _ _ _ _ _ rs); [done|by eapply (asked_next pf)|done|by apply Hrest].
Qed.

Lemma finished_accounts q x st0 (w : cworld) tr id cmd rs next :
  accounts q x st0 w tr -> Concurrent.aborted w = false ->
  Concurrent.tasks w !! id = Some (Concurrent.Executing cmd (Finish rs) next) ->
  exists tr2, accounts (q /\ quiet_in (final st0 tr) (Some id) w) (x /\ exclusive (Some id) w) st0
    (Concurrent.with_task w id (Concurrent.shared w) (Concurrent.Talking (next rs))) (tr ++ tr2).
Proof.
  intros Hacc Hab Hid. destruct (ac_tasks _ _ _ _ _ Hacc id _ Hid) as (_ & g & Hg & Hk).
  inversion Hk as [| |? ? ? Hp Hnext Hrest|? rs' ? ? Hs Ha Hp Hrest]; subst.
  - cbn [plan] in Hp. destruct Hp as [Hr Hfit]. set (st' := {| r_cache := r_cache (final st0 tr);
      r_time := now w; r_seen := base.delete id (r_seen (final st0 tr)) |}).
    eapply (accounts_task q x _ st0 w tr id _ (Concurrent.shared w) _ st' [(EvCommand cmd, rs)]
      Hacc Hab Hid); [|apply Hacc|apply Z.le_refl|apply Z.le_refl|done|].
    + apply (moves_once _ id _ (now w) (Log (EvCommand cmd, rs)));
        [apply Hacc|by apply r_reply|intros _].
      destruct cmd; try done. cbn in Hr. by destruct Hr as (msg & _ & ->).
    + exists g. split; [done|]. apply acc_talking; [apply (lookup_delete_eq (M := gmap nat))|by apply asked_next|by apply Hrest].
  - eapply accounts_task_silent; [exact Hacc|exact Hab|exact Hid|done|done|].
    exists g. split; [done|]. cbn in Hp. subst rs'. by apply acc_talking.
Qed.

Lemma stopped_accounts q x qc st0 (w : cworld) tr id c :
  accounts q x st0 w tr -> Concurrent.aborted w = false ->
  Concurrent.tasks w !! id = Some (Concurrent.Talking (Stop (c, Connection.Running))) ->
  exists tr2, accounts (q /\ qc) (x /\ exclusive (Some id) w) st0
    (Concurrent.with_task w id (Concurrent.shared w) (Concurrent.Idle c)) (tr ++ tr2).
Proof.
  intros Hacc Hab Hid. destruct (ac_tasks _ _ _ _ _ Hacc id _ Hid) as (_ & g & Hg & Hk).
  inversion Hk as [|? Hs _ Hp| |]; subst. destruct Hp as (Hgot & tail & Htail & Hc & _ & Hexp).
  destruct (moves_tail qc id _ (now w) tail Htail Hs (ac_time _ _ _ _ _ Hacc))
    as (st' & Hm & Hca & Ht & Hs').
  eapply accounts_task; [exact Hacc|exact Hab|exact Hid|exact Hm|rewrite Hca; apply Hacc|exact Ht|
    apply Z.le_refl|done|]. exists g. split; [done|].
  apply acc_idle; [done|done|done|]. by rewrite <- Hgot.
Qed.

Lemma task_step_accounts q x st0 (w : cworld) tr id k s' k' :
  accounts q x st0 w tr -> Concurrent.aborted w = false -> Concurrent.tasks w !! id = Some k ->
  Concurrent.task_step (Concurrent.shared w) k = Some (s', k') ->
  exists tr2, accounts (q /\ quiet_in (final st0 tr) (Some id) w) (x /\ exclusive (Some id) w) st0
    (Concurrent.with_task w id s' k') (tr ++ tr2).
Proof.
  intros Hacc Hab Hid Hstep. destruct k as [c|[[c st]| |u p|cmd next]|cmd p next];
    cbn [Concurrent.task_step] in Hstep; [done| |done|..].
  - destruct st as [|r|]; [|done..]. injection Hstep as <- <-. by apply stopped_accounts.
  - injection Hstep as <- <-. destruct (ac_tasks _ _ _ _ _ Hacc id _ Hid) as (_ & g & Hg & Hk).
    eapply accounts_task_silent; [exact Hacc|exact Hab|exact Hid|apply apply_meter_storage|done|].
    exists g. split; [done|]. inversion Hk; subst. by apply acc_talking.
  - injection Hstep as <- <-. destruct (ac_tasks _ _ _ _ _ Hacc id _ Hid) as (_ & g & Hg & Hk).
    inversion Hk as [|? Hs _ Hp| |]; subst. cbn [script_spec] in Hp.
    destruct Hp as (Hwf & Hnext & Hrest).
    eapply accounts_task_silent; [exact Hacc|exact Hab|exact Hid|done| |].
    + intros _ ??? _. by apply undisturbed_none.
    + exists g. split; [done|]. rewrite Hs. apply acc_executing; [|done..].
      apply plan_command; [apply timestamp_nonneg|done].
  - assert (Hgo : ('(s, p) ← server_step (Concurrent.shared w) p;
      Some (s, Concurrent.Executing cmd p next)) = Some (s', k') ->
      exists tr2, accounts (q /\ quiet_in (final st0 tr) (Some id) w)
        (x /\ exclusive (Some id) w) st0 (Concurrent.with_task w id s' k') (tr ++ tr2)).
    { destruct (server_step _ p) as [[s1 p1]|] eqn:Es; [|done]. intros [= <- <-].
      by eapply executing_accounts. }
    destruct p; try by apply Hgo. injection Hstep as <- <-. by eapply finished_accounts.
Qed.

(** The end of a task. *)
Lemma close_accounts q x qc st0 (w : cworld) tr id c r :
  accounts q x st0 w tr -> Concurrent.aborted w = false ->
  Concurrent.tasks w !! id = Some (Concurrent.Talking (Stop (c, Connection.Done r))) ->
  exists tr2, accounts (q /\ qc) (x /\ exclusive (Some id) w) st0
    (Concurrent.close w id c r) (tr ++ tr2).
Proof.
  intros Hacc Hab Hid. destruct (ac_tasks _ _ _ _ _ Hacc id _ Hid) as (_ & g & Hg & Hk).
  inversion Hk as [|? Hs _ Hp| |]; subst. destruct Hp as (Hgot & tail & Htail & Hc & _ & Hexp).
  destruct (moves_tail qc id _ (now w) tail Htail Hs (ac_time _ _ _ _ _ Hacc))
    as (st' & Hm & Hca & Ht & Hs').
  eapply (accounts_moves q x qc st0 w _ tr id _ st' tail); [exact Hacc|exact Hab|exact Hid|exact Hm|
    rewrite Hca; apply Hacc|exact Ht|apply Z.le_refl| | | | |]; cbn.
  - split; try done; intros id' Hne; cbn; [by rewrite lookup_delete_ne|by rewrite lookup_insert_ne].
  - intros _ cmd p next. by rewrite lookup_delete_eq.
  - intros k. by rewrite lookup_delete_eq.
  - intros c' r'. rewrite lookup_insert_eq, lookup_delete_eq. intros [= <- <-].
    split; [done|]. split; [done|]. split; [by rewrite Hgot|done].
  - intros Hcr. destruct (ac_crashed _ _ _ _ _ Hacc id Hcr) as (_ & [?|?] & _); congruence.
Qed.

(** A panic. *)
Lemma panic_accounts q x qc st0 (w : cworld) tr id k :
  accounts q x st0 w tr -> Concurrent.aborted w = false ->
  Concurrent.tasks w !! id = Some k -> Concurrent.panicking k = true ->
  exists tr2, accounts (q /\ qc) (x /\ exclusive (Some id) w) st0
    (Concurrent.panic pf w id) (tr ++ tr2).
Proof.
  intros Hacc Hab Hid Hp. destruct (ac_tasks _ _ _ _ _ Hacc id _ Hid) as (_ & g & Hg & Hk).
  pose proof (ac_cache _ _ _ _ _ Hacc). pose proof (ac_time _ _ _ _ _ Hacc).
  pose proof (task_panics _ _ _ _ _ Hk Hp) as Hpanic.
  assert (Hin : legible clean (Concurrent.input w id) -> exists rest,
    explains pf (entries_of id tr) (Concurrent.input w id) rest /\ parse pf rest = Panic).
  { intros Hl. pose proof (Hg (proj1 Hl)) as Hi. rewrite Hi in Hl |- *. by apply Hpanic. }
  assert (Hclosed : forall c r, Concurrent.closed w !! id = Some (c, r) -> False).
  { intros c r Hcl. destruct (ac_closed _ _ _ _ _ Hacc id c r Hcl) as (_ & ? & _). congruence. }
  assert (Hids : forall id', id' <> id -> id' ∈ {[id]} ∪ Concurrent.crashed w ->
    id' ∈ Concurrent.crashed w) by set_solver.
  eapply (accounts_moves q x qc st0 w _ tr id _ (final st0 tr) []); [exact Hacc|exact Hab|exact Hid|
    apply moves_refl|unfold Concurrent.panic; destruct pf; cbn..]; rewrite ?app_nil_r; try done;
    try by intros c r Hcl; destruct (Hclosed c r Hcl).
  - split; try done. intros id' Hne. cbn. by rewrite lookup_delete_ne.
  - intros Hxx cmd p next. by rewrite lookup_delete_eq.
  - intros Hxx cmd p next Hk2. by eapply (ac_alone _ _ _ _ _ Hacc).
  - intros k2. by rewrite lookup_delete_eq.
  - intros k2 Hk2. by destruct (ac_tasks _ _ _ _ _ Hacc id k2 Hk2).
  - intros _. split; [left; by rewrite lookup_delete_eq|exact Hin].
  - intros _. split; [by right|exact Hin].
Qed.

Lemma wake_accounts q x qc st0 (w : cworld) tr id c cancelled :
  accounts q x st0 w tr -> Concurrent.aborted w = false ->
  Concurrent.tasks w !! id = Some (Concurrent.Idle c) -> Connection.read_fits c ->
  exists tr2, accounts (q /\ qc) (x /\ exclusive (Some id) w) st0
    (Concurrent.wake pf w id c cancelled) (tr ++ tr2).
Proof.
  intros Hacc Hab Hid Hfit. destruct (ac_tasks _ _ _ _ _ Hacc id _ Hid) as (_ & g & Hg & Hk).
  inversion Hk as [? Hs Hc Hgot Hexp| | |]; subst.
  assert (Hin : clean -> Concurrent.input (Concurrent.wake pf w id c cancelled) id =
    got c ++ Connection.arrival c cancelled).
  { intros Hcl. unfold Concurrent.input at 1. cbn. by rewrite lookup_insert_eq, (Hg Hcl). }
  eapply (accounts_moves q x qc st0 w _ tr id _ (final st0 tr) []); [exact Hacc|exact Hab|exact Hid|
    apply moves_refl|apply Hacc|apply Hacc|apply Z.le_refl| | | | |]; rewrite ?app_nil_r.
  - split; try done; intros id' Hne; cbn; [by rewrite lookup_insert_ne|].
    unfold Concurrent.input. cbn. by rewrite lookup_insert_ne.
  - intros _ cmd p next. cbn. by rewrite lookup_insert_eq.
  - intros k. cbn [Concurrent.wake Concurrent.tasks]. rewrite lookup_insert_eq. intros [= <-].
    eexists. split; [exact Hin|]. apply acc_talking; [done| |by apply script_turn].
    intros Hok. destruct (Hexp (legible_app_l _ _ _ Hok)) as [Hex _]. eexists.
    apply (explains_more pf); [apply Hok|exact Hex].
  - intros c' r' Hcl. destruct (ac_closed _ _ _ _ _ Hacc id c' r' Hcl) as (_ & ? & _). congruence.
  - intros Hcr. destruct (ac_crashed _ _ _ _ _ Hacc id Hcr) as (_ & [?|?] & _); congruence.
Qed.

Lemma step_accounts q x st0 l (w w' : cworld) tr :
  accounts q x st0 w tr -> Concurrent.step pf fresh l w w' ->
  exists tr2, accounts (q /\ quiet_in (final st0 tr) l w) (x /\ exclusive l w) st0 w' (tr ++ tr2).
Proof.
  intros Hacc [Hab Hstep].
  assert (Hsame : accounts q x st0 w' tr -> exists tr2,
    accounts (q /\ quiet_in (final st0 tr) l w) (x /\ exclusive l w) st0 w' (tr ++ tr2)).
  { intros H. exists []. rewrite app_nil_r. by eapply accounts_weaken; [..|exact H]; intros []. }
  destruct Hstep as [t _ Hf|_|id c cancelled Hid Hfit _|id k s k' Hid Hk
    |id c r Hid|id k Hid Hp| | |_].
  - by apply Hsame, accept_accounts.
  - by apply Hsame.
  - by apply wake_accounts.
  - by eapply task_step_accounts.
  - by eapply close_accounts.
  - by eapply panic_accounts.
  - pose proof (ac_cache _ _ _ _ _ Hacc) as Hrep. pose proof Hrep as (Hwf & Hm & _).
    apply Hsame, (accounts_same q x st0 w); [done..|by apply compact_represents|].
    apply timestamp_mono; [done|]. by apply compact_spec.
  - apply Hsame, (accounts_same q x st0 w); [done..|apply Hacc|apply Z.le_refl].
  - apply Hsame, (accounts_same q x st0 w); [done..|apply Hacc|apply Z.le_refl].
Qed.

(** An execution in which every step is quiet and exclusive where this is
    asked for. *)
Lemma execution_accounts (q x : Prop) P st0 (w1 w2 : cworld) tr :
  (forall l w tr, P l w -> accounts q x st0 w tr -> q -> quiet_in (final st0 tr) l w) ->
  (forall l w, P l w -> x -> exclusive l w) ->
  accounts q x st0 w1 tr -> Concurrent.execution pf fresh P w1 w2 ->
  exists tr2, accounts q x st0 w2 (tr ++ tr2).
Proof.
  intros Hq Hx Hacc Hex. induction Hex as [|l w w' _ (tr1 & IH) HP Hstep].
  - exists []. by rewrite app_nil_r.
  - destruct (step_accounts _ _ _ _ _ _ _ IH Hstep) as (tr2 & Hacc2). exists (tr1 ++ tr2).
    rewrite app_assoc. eapply accounts_weaken; [..|exact Hacc2]; [|by eauto].
    intros Hqq. split; [done|]. by eapply Hq.
Qed.

Lemma initial_accounts q x config (st : Store DB WO) m (s0 : server) ca :
  Server.new config st m = Ret s0 -> represents ca st ->
  accounts q x (start_state ca (timestamp (st_clock st))) (Concurrent.initial s0) [].
Proof.
  intros Hnew Hrep. assert (Hst : Server.storage s0 = st).
  { unfold Server.new in Hnew. destruct (sem_new _) as [sem|]; [|done]. by injection Hnew as <-. }
  by split; cbn; rewrite ?Hst.
Qed.

(** *** The three kinds of execution *)

Lemma reachable_accounts st0 (w1 w2 : cworld) tr :
  accounts False False st0 w1 tr -> Concurrent.reachable pf fresh w1 w2 ->
  exists tr2, accounts False False st0 w2 (tr ++ tr2).
Proof. intros Hacc Hex. by eapply execution_accounts; [..|exact Hex]. Qed.

Lemma quiet_accounts st0 (w1 w2 : cworld) tr :
  accounts True False st0 w1 tr -> Concurrent.execution pf fresh quiet w1 w2 ->
  exists tr2, accounts True False st0 w2 (tr ++ tr2).
Proof.
  intros Hacc Hex. eapply execution_accounts; [| |exact Hacc|exact Hex]; [|done].
  intros l w tr' Hq Hacc' _ id cmd p next Hl Hid.
  apply quiet_db_call; [apply Hacc'|by eapply Hq].
Qed.

Lemma exclusive_accounts st0 (w1 w2 : cworld) tr :
  accounts True True st0 w1 tr -> Concurrent.execution pf fresh exclusive w1 w2 ->
  exists tr2, accounts True True st0 w2 (tr ++ tr2).
Proof.
  intros Hacc Hex. eapply execution_accounts; [| |exact Hacc|exact Hex]; [|done].
  intros l w tr' Hx Hacc' _ id cmd p next Hl Hid.
  destruct (ac_tasks _ _ _ _ _ Hacc' id _ Hid) as (_ & g & Hg & Hk).
  pose proof (ac_alone _ _ _ _ _ Hacc' id cmd p next I Hid) as Hund.
  inversion Hk as [| |? ? ? Hp Hnext Hrest|? rs' ? ? Hs Ha Hp Hrest]; subst.
  - eapply undisturbed_quiet; [exact Hp|done|apply Hacc'].
  - by destruct p.
Qed.

End facts.
