(* ===== verification/ServerProps.v ===== *)
(** * Properties of the server

    The invariant of all interleavings of the tasks: the limit on
    connections and their permits, the connection gauge, and the state of
    every task and of the storage. *)

From S2P Require Import Prelude RustStd Extern Reference Errors Command Parser ParserProps Value Storage.
From S2P Require Import StorageFacts StorageProps Response Metrics Config ServerState Examples.
From S2P Require Import Handler Spec HandlerProps Interleave Connection ConnectionFacts Script Trace.
From S2P Require Import Relaxed ConnectionProps TraceProps Server ScriptTrace Actions Concurrent.
From S2P Require Import ConcurrentFacts Accounts.
#[local] Open Scope petra_scope.

(** ** Permits *)

Section limit.
Context (pf : profile) {MC : Memchr} `{R : RocksDB DB WO E} `{BM : BytesMut B} {IT : Itoa}.
Context {PR : Prometheus} `{SMS : SemaphoreSpec SEM} `{TS : TcpStream T IO} (fresh : T -> Prop).

Abbreviation server := (Server.t DB WO SEM).
Abbreviation cworld := (Concurrent.world DB WO E B SEM T IO).
Abbreviation ctask := (Concurrent.task E B T IO).

(** The number of tasks, and the free permits. *)
Definition population (w : cworld) : Z := Z.of_nat (size (Concurrent.tasks w)).

Definition free (w : cworld) : Z :=
  sem_permits (Server.connection_semaphore (Concurrent.shared w)).

(** Every task holds one of the [limit] permits; only a release build is
    ever aborted. *)
Record permits_ok (limit : Z) (w : cworld) : Prop := {
  pm_sum : free w + population w = limit;
  pm_free : 0 <= free w;
  pm_ids id : is_Some (Concurrent.tasks w !! id) -> (id < Concurrent.next_id w)%nat;
  pm_aborted : Concurrent.aborted w = true -> pf = Release;
}.

Lemma task_step_semaphore (s s' : server) (k k' : ctask) :
  Concurrent.task_step s k = Some (s', k') ->
  Server.connection_semaphore s' = Server.connection_semaphore s /\
  Server.cancel_token s' = Server.cancel_token s.
Proof.
  destruct k as [c|[[c [|r|]]| |u p|cmd next]|cmd p next]; cbn [Concurrent.task_step];
    intros H; try done; simplify_eq; try done; [by destruct u|].
  destruct p as [| |k next0|ks next0|k v next0|k next0|next0|n p|u p];
    cbn [server_step prog_step] in H; repeat case_match; cbn [mbind option_bind] in *;
    simplify_eq; try done. by destruct u.
Qed.

Lemma new_id_free limit (w : cworld) :
  permits_ok limit w -> Concurrent.tasks w !! Concurrent.next_id w = None.
Proof. intros Hok. apply eq_None_not_Some. intros Hi. apply Hok in Hi. lia. Qed.

(** The task [id] goes on as [k], or is dropped with its permit. *)
Lemma permits_update limit (w w' : cworld) id k :
  permits_ok limit w -> is_Some (Concurrent.tasks w !! id) ->
  Concurrent.tasks w' = <[id := k]> (Concurrent.tasks w) ->
  Concurrent.next_id w' = Concurrent.next_id w -> Concurrent.aborted w' = Concurrent.aborted w ->
  free w' = free w -> permits_ok limit w'.
Proof.
  intros [Hsum Hfree Hids Hab] Hid E1 E2 E3 E4. unfold population in *.
  split; unfold population; rewrite ?E1, ?E2, ?E3, ?E4; [|done| |done].
  - by rewrite map_size_insert_Some.
  - intros i. rewrite (lookup_insert_is_Some (M := gmap nat)). intros [<-|[_ Hi]]; by apply Hids.
Qed.

Lemma permits_drop limit (w w' : cworld) id :
  permits_ok limit w -> is_Some (Concurrent.tasks w !! id) ->
  Concurrent.tasks w' = base.delete id (Concurrent.tasks w) ->
  Concurrent.next_id w' = Concurrent.next_id w -> Concurrent.aborted w' = Concurrent.aborted w ->
  Concurrent.shared w' = Concurrent.release (Concurrent.shared w) -> permits_ok limit w'.
Proof.
  intros [Hsum Hfree Hids Hab] Hid E1 E2 E3 E4. unfold population, free in *.
  pose proof (map_size_delete_Some (M := gmap nat) id (Concurrent.tasks w) Hid) as Hsize.
  pose proof (map_size_ne_0_lookup_2 (M := gmap nat) (Concurrent.tasks w) id Hid).
  split; unfold population, free; rewrite ?E1, ?E2, ?E3, ?E4; cbn; rewrite ?sem_release_permits;
    [lia|lia| |done].
  intros i. rewrite (lookup_delete_is_Some (M := gmap nat)). intros [_ Hi]. by apply Hids.
Qed.

Lemma permits_accept limit (w : cworld) t :
  permits_ok limit w -> permits_ok limit (Concurrent.accept w t).
Proof.
  intros Hok. pose proof (new_id_free _ _ Hok) as Hnew. destruct Hok as [Hsum Hfree Hids Hab].
  unfold Concurrent.accept, handle_new_connection, free, population in *.
  destruct (sem_try_acquire _) as [sem|] eqn:Es; [|by split].
  apply sem_try_acquire_Some in Es as [Hpos Hsem].
  split; unfold free, population; cbn [Concurrent.shared Concurrent.tasks Concurrent.next_id
    Concurrent.aborted Server.connection_semaphore Server.set_metrics Server.set_semaphore Server.inc].
  - rewrite map_size_insert_None by done. lia.
  - lia.
  - intros i. rewrite (lookup_insert_is_Some (M := gmap nat)).
    intros [<-|[_ Hi]]; [lia|]. apply Hids in Hi. lia.
  - done.
Qed.

Lemma permits_step limit l (w w' : cworld) :
  permits_ok limit w -> Concurrent.step pf fresh l w w' -> permits_ok limit w'.
Proof.
  intros Hok [Hab Hstep]. destruct Hstep as [t _ _|_|id c cancelled Hid _ _|id k s k' Hid Hk
    |id c r Hid|id k Hid Hp| | |_].
  - by apply permits_accept.
  - done.
  - by eapply permits_update; [exact Hok|by eexists|..].
  - eapply permits_update; [exact Hok|by eexists|done..|].
    apply task_step_semaphore in Hk as [Hk _]. unfold free. cbn. by rewrite Hk.
  - by eapply permits_drop; [exact Hok|by eexists|..].
  - unfold Concurrent.panic. destruct pf eqn:Epf; [by eapply permits_drop; [exact Hok|by eexists|..]|].
    destruct Hok as [Hsum Hfree Hids _]. by split.
  - destruct Hok. by split.
  - destruct Hok. by split.
  - destruct Hok. by split.
Qed.

Lemma permits_initial config (st : Store DB WO) m (s : server) :
  Server.new config st m = Ret s -> 0 <= ServerConfig.max_connections config ->
  permits_ok (ServerConfig.max_connections config) (Concurrent.initial s).
Proof.
  intros Hnew Hmax. unfold Server.new in Hnew.
  destruct (Z_le_gt_dec (ServerConfig.max_connections config) MAX_PERMITS) as [Hl|Hl];
    [|by rewrite sem_new_panic in Hnew by lia].
  destruct (sem_new_ok _ (conj Hmax Hl)) as (sem & Hsem & Hn).
  rewrite Hsem in Hnew. cbn in Hnew. injection Hnew as <-.
  split; unfold free, population; cbn; [by rewrite map_size_empty, Hn, Z.add_0_r|by rewrite Hn| |done].
  intros id. rewrite lookup_empty. by intros [? ?].
Qed.

Lemma permits_reachable limit (w w' : cworld) :
  permits_ok limit w -> Concurrent.reachable pf fresh w w' -> permits_ok limit w'.
Proof. intros Hok. apply (execution_ind_step pf fresh _ (permits_ok limit)); [done|]. eauto using permits_step. Qed.

(** A stream is accepted where there are fewer than [limit] tasks. *)
Lemma try_acquire_limit limit (w : cworld) :
  permits_ok limit w ->
  match sem_try_acquire (Server.connection_semaphore (Concurrent.shared w)) with
  | Some _ => population w < limit
  | None => population w = limit
  end.
Proof.
  intros [Hsum Hfree _ _]. unfold free in *. destruct (sem_try_acquire _) as [sem|] eqn:Es.
  - apply sem_try_acquire_Some in Es as [Hpos _]. lia.
  - apply sem_try_acquire_None in Es. lia.
Qed.

(** The end of a task makes room for one more connection. *)
Lemma drop_makes_room limit (w w2 : cworld) id t :
  permits_ok limit w -> is_Some (Concurrent.tasks w !! id) ->
  Concurrent.tasks w2 = base.delete id (Concurrent.tasks w) -> permits_ok limit w2 ->
  population (Concurrent.accept w2 t) = population w.
Proof.
  intros Hok Hid E1 Hok2.
  pose proof (map_size_delete_Some (M := gmap nat) id (Concurrent.tasks w) Hid) as Hsize.
  pose proof (map_size_ne_0_lookup_2 (M := gmap nat) (Concurrent.tasks w) id Hid).
  rewrite <- E1 in Hsize. pose proof (try_acquire_limit limit w2 Hok2) as Hacq.
  pose proof (new_id_free limit w2 Hok2) as Hnone.
  destruct Hok as [Hsum Hfree _ _]. unfold population in *.
  unfold Concurrent.accept, handle_new_connection. destruct (sem_try_acquire _).
  - cbn [Concurrent.tasks]. rewrite map_size_insert_None by done. lia.
  - lia.
Qed.

End limit.

(** ** The gauge *)

Section gauge.
Context (pf : profile) {MC : Memchr} `{R : RocksDB DB WO E} `{BM : BytesMut B} {IT : Itoa}.
Context `{PRS : PrometheusSpec} `{SMS : SemaphoreSpec SEM} `{TS : TcpStream T IO} (fresh : T -> Prop).

Abbreviation server := (Server.t DB WO SEM).
Abbreviation connection := (Connection.conn T B).
Abbreviation cworld := (Concurrent.world DB WO E B SEM T IO).
Abbreviation ctask := (Concurrent.task E B T IO).
Abbreviation round := (script (connection * Connection.status IO)).


































End gauge.

(** ** Safety *)

Section safety.
Context (pf : profile) `{MCS : MemchrSpec} `{RS : RocksDBSpec DB WO E} `{BMS : BytesMutSpec B}.
Context `{ITS : ItoaSpec} `{PRS : PrometheusSpec} `{SMS : SemaphoreSpec SEM} `{TSS : TcpStreamSpec T IO}.
Context (fresh : T -> Prop).

Abbreviation cworld := (Concurrent.world DB WO E B SEM T IO).



End safety.

(** ** The properties *)


(** C9 Admission: in every state the server can reach there are at most
    [max_connections] tasks; a new connection gets a task with empty buffers
    and an id never used before, is counted and raises the gauge by one
    exactly if there are fewer, and otherwise changes nothing but the counter
    of rejections.  The end of a task makes room for one more connection, and
    in a build that unwinds so does a panic, which is visible in no other
    task, while a release build is aborted by it. *)
Theorem concurrent_limit pf {MC : Memchr} `{R : RocksDB DB WO E} `{BMS : BytesMutSpec B} {IT : Itoa}
    `{PRS : PrometheusSpec} `{SMS : SemaphoreSpec SEM} `{TS : TcpStream T IO} (fresh : T -> Prop)
    config (st : Store DB WO) m (s0 : Server.t DB WO SEM)
    (w : Concurrent.world DB WO E B SEM T IO) (t : T) :
  Server.new config st m = Ret s0 -> 0 <= ServerConfig.max_connections config ->
  Concurrent.reachable pf fresh (Concurrent.initial s0) w ->
  let limit := ServerConfig.max_connections config in
  let population (w : Concurrent.world DB WO E B SEM T IO) :=
    Z.of_nat (size (Concurrent.tasks w)) in
  let count (w : Concurrent.world DB WO E B SEM T IO) f :=
    counter_get (Metrics.get (Server.metrics (Concurrent.shared w)) f) in
  let gauge (w : Concurrent.world DB WO E B SEM T IO) := gauge_get (active (Concurrent.shared w)) in
  let w' := Concurrent.accept w t in
  population w <= limit /\
  (population w < limit -> exists c : Connection.conn T B,
     Concurrent.tasks w !! Concurrent.next_id w = None /\
     Concurrent.tasks w' = <[Concurrent.next_id w := Concurrent.Idle c]> (Concurrent.tasks w) /\
     Connection.stream c = t /\ waiting c = [] /\ unsent c = [] /\
     gauge w' = wrap_i64 (gauge w + 1) /\
     forall f, count w' f =
       if decide (f = Metrics.Total_connections) then wrap64 (count w f + 1) else count w f) /\
  (population w = limit ->
     Concurrent.tasks w' = Concurrent.tasks w /\ gauge w' = gauge w /\
     forall f, count w' f =
       if decide (f = Metrics.Rejected_connections) then wrap64 (count w f + 1) else count w f) /\
  (forall id c r, Concurrent.tasks w !! id = Some (Concurrent.Talking (Stop (c, Connection.Done r))) ->
     population (Concurrent.accept (Concurrent.close w id c r) t) = population w) /\
  (forall id k, Concurrent.tasks w !! id = Some k -> Concurrent.panicking k = true ->
     match pf with
     | Debug =>
         let w2 := Concurrent.panic pf w id in
         population (Concurrent.accept w2 t) = population w /\ Concurrent.tasks w2 !! id = None /\
         (forall id', id' <> id -> Concurrent.tasks w2 !! id' = Concurrent.tasks w !! id') /\
         Concurrent.aborted w2 = false
     | Release => forall l w2, ~ Concurrent.step pf fresh l (Concurrent.panic pf w id) w2
     end).
Proof.
  intros Hnew Hmax Hreach limit pop count gauge w'.
  assert (Hok : permits_ok pf limit w)
    by (eapply permits_reachable; [by eapply permits_initial|exact Hreach]).
  pose proof (fun w2 id => drop_makes_room pf limit w w2 id t Hok) as Hdrop.
  pose proof (try_acquire_limit pf limit w Hok) as Hacq.
  change (population w) with (pop w) in Hacq. split; [|split; [|split; [|split]]].
  - destruct Hok as [Hsum Hfree _ _]. unfold population in Hsum. unfold pop. lia.
  - intros Hlt. unfold w', count, gauge, Concurrent.accept, handle_new_connection.
    destruct (sem_try_acquire _) as [sem|]; [|lia]. eexists.
    split; [by eapply new_id_free|]. split; [done|]. split; [done|].
    split; [apply bm_bytes_with_capacity|]. split; [apply text_new|].
    cbn [Concurrent.shared Server.metrics Server.set_metrics Server.inc]. split; [apply gauge_inc_get|].
    intros f. unfold Metrics.inc_active, Metrics.inc. rewrite get_modify_active, get_modify.
    destruct (decide _), (decide _); simplify_eq; [apply counter_inc_get|done].
  - intros Hlt. unfold w', count, gauge, Concurrent.accept, handle_new_connection.
    destruct (sem_try_acquire _) as [sem|]; [lia|]. split; [done|]. split; [done|].
    intros f. cbn [Concurrent.shared Concurrent.with_shared]. unfold Server.inc, Metrics.inc.
    cbn [Server.metrics Server.set_metrics]. rewrite get_modify.
    destruct (decide _), (decide _); simplify_eq; [apply counter_inc_get|done].
  - intros id c r Hid. apply (Hdrop _ id); [by eexists|done|].
    by eapply permits_drop; [exact Hok|by eexists|..].
  - intros id k Hid _. destruct pf; [|by intros l w2 [Hab _]].
    assert (Hab : Concurrent.aborted w = false).
    { destruct (Concurrent.aborted w) eqn:Eab; [|done]. discriminate (pm_aborted _ _ _ Hok Eab). }
    cbn zeta. split; [|split; [|split]].
    + apply (Hdrop _ id); [by eexists|done|]. by eapply permits_drop; [exact Hok|by eexists|..].
    + cbn. by rewrite lookup_delete_eq.
    + intros id' Hne. cbn. by rewrite lookup_delete_ne.
    + done.
Qed.

(** ** Witnesses *)

(** A server with two permits and one connection. *)
Definition ex_world : Concurrent.world RefDB bool bytes bytes Z RefStream bytes :=
  Concurrent.initial (ex_server ∅ 5 2).

Lemma ex_accept_reachable limit t :
  Concurrent.reachable Release (fun _ => True) (Concurrent.initial (ex_server ∅ 5 limit))
    (Concurrent.accept (E := bytes) (B := bytes) (IO := bytes)
       (Concurrent.initial (ex_server ∅ 5 limit)) t).
Proof.
  eapply Concurrent.execution_step; [apply Concurrent.execution_refl|done|].
  split; [done|]. by apply Concurrent.act_accept.
Qed.


Lemma concurrent_limit_witness :
  let w := Concurrent.accept (E := bytes) (B := bytes) (IO := bytes)
    (Concurrent.initial (ex_server ∅ 5 10000)) (ex_stream []) in
  exists c, Concurrent.tasks (Concurrent.accept w (ex_stream [])) !! 1%nat = Some (Concurrent.Idle c).
Proof.
  cbn zeta.
  destruct (concurrent_limit (SMS := ref_semaphore_spec) (PRS := ref_prometheus_spec) Release
    (fun _ => True) ServerConfig.default (ex_store ∅ 5) ex_metrics (ex_server ∅ 5 10000)
    (Concurrent.accept (Concurrent.initial (ex_server ∅ 5 10000)) (ex_stream [])) (ex_stream []))
    as (_ & H & _); [reflexivity|by compute|apply ex_accept_reachable|].
  destruct H as (c & _ & -> & _); [by vm_compute|]. exists c. apply lookup_insert_eq.
Defined.
