(* ===== verification/ConcurrentProps.v ===== *)
(** * Theorems about the concurrent server

    Whatever the interleaving of the calls, the actions of all connections
    are a run of the relaxed cache of [Relaxed.v], of which every connection
    has asked for and received its own part; it is a run of the atomic cache
    where no removal races, and in particular with one worker thread; and
    every round of every connection ends. *)

From S2P Require Import Prelude RustStd Extern Reference Errors Command Parser ParserFacts ParserProps.
From S2P Require Import Value Storage StorageFacts StorageProps Response Metrics Config ServerState.
From S2P Require Import Examples Handler Spec HandlerProps Interleave InterleaveFacts Connection.
From S2P Require Import ConnectionFacts Script ScriptFacts Trace Relaxed RelaxedFacts ConnectionProps.
From S2P Require Import TraceProps Server ScriptTrace Actions Concurrent ConcurrentFacts Accounts.
From S2P Require Import Rounds.
#[local] Open Scope petra_scope.

Section vocabulary.
Context (pf : profile) `{MCS : MemchrSpec} `{RS : RocksDBSpec DB WO E} `{BMS : BytesMutSpec B}.
Context `{ITS : ItoaSpec} {PR : Prometheus} `{SM : Semaphore SEM} `{TSS : TcpStreamSpec T IO}.
Context (fresh : T -> Prop).

Abbreviation cworld := (Concurrent.world DB WO E B SEM T IO).
Abbreviation now w := (timestamp (st_clock (Server.storage (Concurrent.shared w)))).

(** [log] is the log of all connections: of those that wait for their stream
    and those that have ended it explains what they have received and sent. *)
Definition logged (w : cworld) (log : list (nat * entry)) : Prop :=
  (forall id c, Concurrent.tasks w !! id = Some (Concurrent.Idle c) -> slice_ok (got c) ->
     explained pf (of_conn id log) c) /\
  (forall id c r, Concurrent.closed w !! id = Some (c, r) -> slice_ok (got c) ->
     explained_end pf (of_conn id log) c r) /\
  (forall id, (Concurrent.next_id w <= id)%nat -> of_conn id log = []).

(** From the storage [st], which holds the cache [ca], through the world [w1]
    to [w2], the server has been one cache with atomic commands: there is an
    order of everything that has happened, of which what had happened when
    [w1] was reached is the beginning - so that a command that had been
    answered then comes before every later one -, that is a run of atomic
    commands from [ca] to a cache no client can tell from the database, and
    of which each connection has asked for and been sent its own part. *)
Definition linearized (st : Store DB WO) (ca : cache) (w1 w2 : cworld) : Prop :=
  exists log1 log2 ca',
    atomic_run (db_message (E := E)) (timestamp (st_clock st)) (now w2) ca (log1 ++ log2) ca' /\
    logged w1 log1 /\ logged w2 (log1 ++ log2) /\
    (forall id, is_Some (Concurrent.tasks w2 !! id) \/ id ∈ Concurrent.crashed w2 ->
       slice_ok (Concurrent.input w2 id) ->
       exists rest, explains pf (of_conn id (log1 ++ log2)) (Concurrent.input w2 id) rest) /\
    forall t k, now w2 <= t ->
      live (db_view (st_db (Server.storage (Concurrent.shared w2)))) t k = live_value t (ca' !! k).

Lemma accounts_logged q x st0 (w : cworld) tr log :
  accounts pf True q x st0 w tr ->
  (forall id, r_seen (final st0 tr) !! id = None -> of_conn id log = entries_of id tr) ->
  logged w log.
Proof.
  intros Hacc Hlog. split; [|split].
  - intros id c Hid Hok. destruct (ac_tasks _ _ _ _ _ _ _ Hacc id _ Hid) as (_ & g & Hg & Hk).
    inversion Hk as [? Hs _ Hgot Hexp| | |]; subst. rewrite (Hlog id Hs). by apply Hexp.
  - intros id c r Hid Hok.
    destruct (ac_closed _ _ _ _ _ _ _ Hacc id c r Hid) as (_ & _ & Hs & _ & Hexp).
    rewrite (Hlog id Hs). by apply Hexp.
  - intros id Hid. destruct (ac_new _ _ _ _ _ _ _ Hacc id Hid) as (He & Hs & _).
    by rewrite (Hlog id Hs).
Qed.

(** Every task, whatever it is doing, and every one that has panicked. *)
Lemma accounts_input q x st0 (w : cworld) tr id :
  accounts pf True q x st0 w tr ->
  is_Some (Concurrent.tasks w !! id) \/ id ∈ Concurrent.crashed w ->
  slice_ok (Concurrent.input w id) ->
  exists rest, explains pf (entries_of id tr) (Concurrent.input w id) rest.
Proof.
  intros Hacc [[k Hid]|Hid] Hok.
  - destruct (ac_tasks _ _ _ _ _ _ _ Hacc id _ Hid) as (_ & g & Hg & Hk).
    apply task_asked in Hk. rewrite (Hg I) in *. by apply Hk.
  - destruct (ac_crashed _ _ _ _ _ _ _ Hacc id Hid) as (_ & _ & Hp).
    destruct (Hp (conj I Hok)) as (rest & Hex & _). by exists rest.
Qed.

(** A run without races is linearized. *)
Lemma accounts_linearized x (st : Store DB WO) ca (w1 w2 : cworld) tr1 tr2 :
  let start := start_state ca (timestamp (st_clock st)) in
  accounts pf True True x start w1 tr1 -> accounts pf True True x start w2 (tr1 ++ tr2) ->
  linearized st ca w1 w2.
Proof.
  intros start Hacc1 Hacc2. pose proof (ac_run _ _ _ _ _ _ _ Hacc2) as Hrun.
  assert (Hn : forall id, r_seen start !! id = None) by (intros id; apply lookup_empty).
  destruct (atomize_split _ start tr1 tr2 Hrun Hn) as (log1 & Hlog & Hlog1).
  assert (Hall : forall id, of_conn id (log1 ++ atomize tr2) = entries_of id (tr1 ++ tr2)).
  { intros id. rewrite <- Hlog. by eapply atomize_order. }
  pose proof (ac_time _ _ _ _ _ _ _ Hacc2) as Ht.
  destruct (atomize_run db_message (timestamp (st_clock st)) (now w2) start (tr1 ++ tr2) ca
    Hrun (ac_quiet _ _ _ _ _ _ _ Hacc2 I)) as (ca' & Hat & Hsh); [done|apply Z.le_refl|done|..].
  { intros id c1 a Hs. by rewrite Hn in Hs. }
  exists log1, (atomize tr2), ca'. rewrite <- Hlog. split; [done|]. split; [by eapply accounts_logged|].
  rewrite Hlog. split; [by eapply accounts_logged|]. split.
  - intros id Hid Hok. rewrite Hall. by eapply accounts_input.
  - intros t k Hk. destruct (ac_cache _ _ _ _ _ _ _ Hacc2) as (_ & _ & Hl & _). rewrite Hl by done.
    destruct (Hsh k) as [H _]. apply H. lia.
Qed.

End vocabulary.

(** ** The properties *)

(** C1 Concurrency, whatever the interleaving: in every state the server can
    reach from its start when the calls of all connections to the database,
    the clock and the metrics, the compactions, new connections and the
    shutdown interleave freely, what has happened is a run of the relaxed
    cache of [Relaxed.v].  Every get shows one snapshot, every set is atomic,
    and a delete removes its key once but decides its reply when it looks.
    The database holds the cache at the end of the run.  The part of the run
    of a connection - one that waits for its stream, has ended, is in the
    middle of a round, or has panicked - is exactly what the parser reads off
    the beginning of the bytes this connection has received; the first two
    have been sent exactly what their replies show; and a connection panics
    only where the parser panics on what is left of its own bytes.  The
    system clock is assumed never to go back. *)
Theorem concurrent_relaxed pf `{MCS : MemchrSpec} `{RS : RocksDBSpec DB WO E} `{BMS : BytesMutSpec B}
    `{ITS : ItoaSpec} {PR : Prometheus} `{SM : Semaphore SEM} `{TSS : TcpStreamSpec T IO}
    (fresh : T -> Prop) config (st : Store DB WO) m (s0 : Server.t DB WO SEM) ca
    (w : Concurrent.world DB WO E B SEM T IO) :
  Server.new config st m = Ret s0 -> represents ca st ->
  (forall t, fresh t -> stream_got t = [] /\ stream_sent t = []) ->
  Concurrent.reachable pf fresh (Concurrent.initial s0) w ->
  exists tr,
    let start := start_state ca (timestamp (st_clock st)) in
    valid_run (db_message (E := E)) start tr /\
    r_time (final start tr) <= timestamp (st_clock (Server.storage (Concurrent.shared w))) /\
    represents (r_cache (final start tr)) (Server.storage (Concurrent.shared w)) /\
    (forall id, (Concurrent.next_id w <= id)%nat -> entries_of id tr = []) /\
    (forall id c, Concurrent.tasks w !! id = Some (Concurrent.Idle c) ->
       Concurrent.input w id = got c /\
       (slice_ok (got c) -> explained pf (entries_of id tr) c)) /\
    (forall id c r, Concurrent.closed w !! id = Some (c, r) ->
       Concurrent.input w id = got c /\
       (slice_ok (got c) -> explained_end pf (entries_of id tr) c r)) /\
    (forall id k, Concurrent.tasks w !! id = Some k -> slice_ok (Concurrent.input w id) ->
       exists rest, explains pf (entries_of id tr) (Concurrent.input w id) rest /\
         (Concurrent.panicking k = true -> parse pf rest = Panic)) /\
    (forall id, id ∈ Concurrent.crashed w -> slice_ok (Concurrent.input w id) ->
       exists rest, explains pf (entries_of id tr) (Concurrent.input w id) rest /\
         parse pf rest = Panic).
Proof.
  intros Hnew Hrep Hfresh Hreach.
  destruct (reachable_accounts pf fresh True (fun _ => Hfresh)
    (start_state ca (timestamp (st_clock st))) (Concurrent.initial s0) w [])
    as [tr Hacc]; [by eapply initial_accounts|done|]. cbn [app] in Hacc.
  exists tr. split; [apply Hacc|]. split; [apply Hacc|]. split; [apply Hacc|].
  split; [by intros id Hid; apply Hacc|]. split; [|split; [|split]].
  - intros id c Hid. destruct (ac_tasks _ _ _ _ _ _ _ Hacc id _ Hid) as (_ & g & Hg & Hk).
    inversion Hk as [? _ _ Hgot Hexp| | |]; subst. split; [by apply Hg|]. intros Hok. by apply Hexp.
  - intros id c r Hid. destruct (ac_closed _ _ _ _ _ _ _ Hacc id c r Hid) as (_ & _ & _ & Hg & Hexp).
    split; [by apply Hg|]. intros Hok. by apply Hexp.
  - intros id k Hid Hok. destruct (ac_tasks _ _ _ _ _ _ _ Hacc id _ Hid) as (_ & g & Hg & Hk).
    rewrite (Hg I) in *. destruct (Concurrent.panicking k) eqn:Ep.
    + destruct (task_panics _ _ _ _ _ _ _ Hk Ep) as (rest & Hex & Hp); [done|]. by exists rest.
    + destruct (task_asked _ _ _ _ _ _ _ Hk) as (rest & Hex); [done|]. by exists rest.
  - intros id Hid Hok. destruct (ac_crashed _ _ _ _ _ _ _ Hacc id Hid) as (_ & _ & Hp). by apply Hp.
Qed.

(** C2 Linearizability where no removal races: take any execution in which
    no call removes from the database an item its command has not seen - when
    a get removes an item it has found expired, its key holds no live item,
    and when a delete removes its key, the key is as present as its reply
    says.  Then the whole server is one cache with atomic commands: there is
    one order of the commands and rejected lines of all connections that is
    a run of atomic commands from the initial cache to one no client can
    tell from the database; the order is that of each connection, of which
    it explains what it has received and been sent; and whatever has been
    answered when some world [w1] is reached comes before whatever is asked
    later.  The system clock is assumed never to go back. *)
Theorem concurrent_linearizable pf `{MCS : MemchrSpec} `{RS : RocksDBSpec DB WO E}
    `{BMS : BytesMutSpec B} `{ITS : ItoaSpec} {PR : Prometheus} `{SM : Semaphore SEM}
    `{TSS : TcpStreamSpec T IO} (fresh : T -> Prop) config (st : Store DB WO) m
    (s0 : Server.t DB WO SEM) ca (w1 w2 : Concurrent.world DB WO E B SEM T IO) :
  Server.new config st m = Ret s0 -> represents ca st ->
  (forall t, fresh t -> stream_got t = [] /\ stream_sent t = []) ->
  Concurrent.execution pf fresh quiet (Concurrent.initial s0) w1 ->
  Concurrent.execution pf fresh quiet w1 w2 ->
  linearized pf st ca w1 w2.
Proof.
  intros Hnew Hrep Hfresh Hex1 Hex2. set (start := start_state ca (timestamp (st_clock st))).
  destruct (quiet_accounts pf fresh True (fun _ => Hfresh) start (Concurrent.initial s0) w1 [])
    as [tr1 Hacc1]; [by eapply initial_accounts|done|]. cbn [app] in Hacc1.
  destruct (quiet_accounts pf fresh True (fun _ => Hfresh) start w1 w2 tr1 Hacc1 Hex2) as [tr2 Hacc2].
  by eapply accounts_linearized.
Qed.

(** C3 One worker thread: the handlers of commands do not wait for anything,
    so a runtime with a single worker thread ([worker_threads = 1]) executes
    each command to its end before a task does anything else, while the main
    loop and the compaction of the database still run at any time.  All
    executions of this kind are linearizable, without any further condition:
    whatever the clients send, delete and let expire, the server is one cache
    with atomic commands, as in the theorem above.  The system clock is
    assumed never to go back. *)
Theorem one_worker_linearizable pf `{MCS : MemchrSpec} `{RS : RocksDBSpec DB WO E}
    `{BMS : BytesMutSpec B} `{ITS : ItoaSpec} {PR : Prometheus} `{SM : Semaphore SEM}
    `{TSS : TcpStreamSpec T IO} (fresh : T -> Prop) config (st : Store DB WO) m
    (s0 : Server.t DB WO SEM) ca (w1 w2 : Concurrent.world DB WO E B SEM T IO) :
  Server.new config st m = Ret s0 -> represents ca st ->
  (forall t, fresh t -> stream_got t = [] /\ stream_sent t = []) ->
  Concurrent.execution pf fresh exclusive (Concurrent.initial s0) w1 ->
  Concurrent.execution pf fresh exclusive w1 w2 ->
  linearized pf st ca w1 w2.
Proof.
  intros Hnew Hrep Hfresh Hex1 Hex2. set (start := start_state ca (timestamp (st_clock st))).
  destruct (exclusive_accounts pf fresh True (fun _ => Hfresh) start (Concurrent.initial s0) w1 [])
    as [tr1 Hacc1]; [by eapply initial_accounts|done|]. cbn [app] in Hacc1.
  destruct (exclusive_accounts pf fresh True (fun _ => Hfresh) start w1 w2 tr1 Hacc1 Hex2)
    as [tr2 Hacc2].
  by eapply accounts_linearized.
Qed.

(** C12 Rounds come to an end: a round of a connection with [N] bytes in its
    buffer, those that have just arrived included, takes at most [6 N + 4]
    steps before the connection waits for its stream again or its task ends,
    whatever the other tasks do to the server between its steps and whatever
    the database answers; and until then it can make its next step in every
    state of the server - no task waits for another, and the inner loop never
    runs out of rounds - unless it panics. *)
Theorem rounds_terminate pf `{MCS : MemchrSpec} `{R : RocksDB DB WO E} `{BMS : BytesMutSpec B}
    {IT : Itoa} {PR : Prometheus} {SEM : Type} `{TS : TcpStream T IO} (c : Connection.conn T B)
    cancelled n (k : Concurrent.task E B T IO) :
  task_ok pf c -> Connection.read_fits c ->
  task_run (SEM := SEM) n (Concurrent.Talking (Script.turn pf c cancelled)) k ->
  (n <= 6 * length (waiting c ++ Connection.arrival c cancelled) + 4)%nat /\
  (Concurrent.at_rest k = true \/ Concurrent.panicking k = true \/
   forall s : Server.t DB WO SEM, is_Some (Concurrent.task_step s k)).
Proof.
  intros (Hc & Hok & _) Hfit Hrun.
  pose proof (within_turn pf c cancelled Hc Hok Hfit) as Hk.
  change (task_within (E := E) (round_bound c cancelled)
    (Concurrent.Talking (Script.turn pf c cancelled))) in Hk.
  destruct (task_run_within _ _ _ _ Hk Hrun) as (m & Hm & Hk'). unfold round_bound in Hm.
  split; [lia|]. by eapply task_within_goes_on.
Qed.

(** ** Witnesses *)

Abbreviation ex_fresh := (fun t : RefStream => rs_got t = [] /\ rs_sent t = []).
Abbreviation ex_cworld := (Concurrent.world RefDB bool bytes bytes Z RefStream bytes).

(** The task is not about to remove anything. *)
Definition no_removal (k : Concurrent.task bytes bytes RefStream bytes) : bool :=
  match k with
  | Concurrent.Executing _ (DbDelete _ _) _ => false
  | _ => true
  end.

Definition ex_input : bytes := ex_line "set k 1 0 1" ++ ex_line "v" ++ ex_line "get k".

(** Of a single task that removes nothing, every step is quiet and nobody
    else's command is in progress. *)
Lemma ex_quiet_exclusive (w : ex_cworld) id s k :
  (forall id', id' <> id -> Concurrent.tasks w !! id' = None) -> no_removal k = true ->
  quiet (RS := ref_rocksdb_spec) (Some id) (Concurrent.with_task w id s k) /\
  exclusive (Some id) (Concurrent.with_task w id s k).
Proof.
  intros Hone Hk. split.
  - intros id' cmd p next [= <-]. cbn [Concurrent.with_task Concurrent.tasks].
    rewrite lookup_insert_eq. intros [= ->]. by destruct p.
  - intros id' id2 k2 [= <-] Hne. cbn [Concurrent.with_task Concurrent.tasks].
    rewrite lookup_insert_ne, Hone by done. done.
Qed.

(** A connection has stored an item and read it. *)
Lemma ex_execution :
  let P l w := quiet (RS := ref_rocksdb_spec) l w /\ exclusive l w in
  exists (w1 w2 : ex_cworld) c,
    Concurrent.execution Release ex_fresh P (Concurrent.initial (ex_server ∅ 5 10000)) w1 /\
    Concurrent.execution Release ex_fresh P w1 w2 /\
    Concurrent.tasks w2 !! 0%nat = Some (Concurrent.Idle c) /\ got c = ex_input.
Proof.
  cbn zeta. set (s := ex_server ∅ 5 10000). set (t := ex_stream [ex_input]).
  set (w1 := Concurrent.accept (Concurrent.initial s) t : ex_cworld).
  destruct (Concurrent.tasks w1 !! 0%nat) as [k0|] eqn:Ek0; [|exfalso; revert Ek0; by vm_compute].
  assert (Hk0 : k0 = Concurrent.Idle (Connection.start (B := bytes) s t))
    by (injection Ek0 as <-; reflexivity).
  set (c0 := Connection.start (B := bytes) s t) in *. rewrite Hk0 in Ek0. clear k0 Hk0.
  assert (Hret : match advance no_removal 13 (Concurrent.shared w1)
      (Concurrent.Talking (Script.turn Release c0 false)) with
    | Some (_, Concurrent.Idle c') => bool_decide (got c' = ex_input)
    | _ => false end = true) by (vm_compute; reflexivity).
  destruct (advance _ _ _ _) as [[s' [c'|p|cmd p next]]|] eqn:Ea; try discriminate Hret.
  apply bool_decide_eq_true in Hret as Hgot.
  set (w2 := Concurrent.wake Release w1 0 c0 false).
  assert (Hone : forall id, id <> 0%nat -> Concurrent.tasks w2 !! id = None).
  { intros id Hne. unfold w2, w1. cbn. by rewrite !lookup_insert_ne by done. }
  exists w1, (Concurrent.with_task w2 0 s' (Concurrent.Idle c')), c'.
  split; [|split; [|split; [cbn; by rewrite lookup_insert_eq|done]]].
  - eapply (Concurrent.execution_step _ _ _ _ None); [apply Concurrent.execution_refl| |].
    + split; [intros ???? [=]|intros ??? [=]].
    + split; [done|]. by apply Concurrent.act_accept.
  - eapply (advance_execution Release ex_fresh _ no_removal 13); [done| | |exact Ea].
    { intros s1 k1. by apply ex_quiet_exclusive. }
    replace (Concurrent.with_task w2 0 (Concurrent.shared w1) _) with w2
      by (unfold w2, Concurrent.wake, Concurrent.with_task; cbn; by rewrite insert_insert_eq).
    eapply (Concurrent.execution_step _ _ _ _ (Some 0%nat)); [apply Concurrent.execution_refl| |].
    + rewrite <- (with_task_id w1 0 _ Ek0). apply ex_quiet_exclusive; [|done].
      intros id Hne. unfold w1. cbn. by rewrite lookup_insert_ne.
    + split; [done|]. apply Concurrent.act_wake; [exact Ek0| |done].
      intros chunk [= <-]. vm_compute. discriminate.
Qed.

Lemma concurrent_relaxed_witness :
  exists (w : ex_cworld) tr c,
    Concurrent.reachable Release ex_fresh (Concurrent.initial (ex_server ∅ 5 10000)) w /\
    valid_run (db_message (E := bytes)) (start_state ∅ 5) tr /\
    Concurrent.tasks w !! 0%nat = Some (Concurrent.Idle c) /\
    got c = ex_input /\ explained Release (entries_of 0 tr) c.
Proof.
  destruct ex_execution as (w1 & w & c & Hex1 & Hex2 & Hid & Hgot).
  assert (Hreach : Concurrent.reachable Release ex_fresh (Concurrent.initial (ex_server ∅ 5 10000)) w)
    by (eapply execution_reachable, execution_trans; [exact Hex1|exact Hex2]).
  destruct (concurrent_relaxed (RS := ref_rocksdb_spec) (TSS := ref_stream_spec) Release ex_fresh
    ServerConfig.default (ex_store ∅ 5) ex_metrics (ex_server ∅ 5 10000) ∅ w)
    as (tr & Hrun & _ & _ & _ & Htasks & _).
  - reflexivity.
  - by apply (represents_empty 5 0).
  - done.
  - exact Hreach.
  - exists w, tr, c. split; [done|]. split; [exact Hrun|]. split; [done|]. split; [done|].
    apply (Htasks 0%nat c Hid). rewrite Hgot. vm_compute. discriminate.
Defined.

Lemma concurrent_linearizable_witness :
  exists (w1 w2 : ex_cworld) c,
    linearized (RS := ref_rocksdb_spec) (TSS := ref_stream_spec) Release (ex_store ∅ 5) ∅ w1 w2 /\
    Concurrent.tasks w2 !! 0%nat = Some (Concurrent.Idle c) /\ got c = ex_input.
Proof.
  destruct ex_execution as (w1 & w2 & c & Hex1 & Hex2 & Hid & Hgot). exists w1, w2, c.
  split; [|done].
  apply (concurrent_linearizable (RS := ref_rocksdb_spec) (TSS := ref_stream_spec) Release ex_fresh
    ServerConfig.default (ex_store ∅ 5) ex_metrics (ex_server ∅ 5 10000) ∅ w1 w2).
  - reflexivity.
  - by apply (represents_empty 5 0).
  - done.
  - by eapply execution_weaken; [|exact Hex1]; intros l w [H _].
  - by eapply execution_weaken; [|exact Hex2]; intros l w [H _].
Defined.

Lemma one_worker_linearizable_witness :
  exists (w1 w2 : ex_cworld) c,
    linearized (RS := ref_rocksdb_spec) (TSS := ref_stream_spec) Release (ex_store ∅ 5) ∅ w1 w2 /\
    Concurrent.tasks w2 !! 0%nat = Some (Concurrent.Idle c) /\ got c = ex_input.
Proof.
  destruct ex_execution as (w1 & w2 & c & Hex1 & Hex2 & Hid & Hgot). exists w1, w2, c.
  split; [|done].
  apply (one_worker_linearizable (RS := ref_rocksdb_spec) (TSS := ref_stream_spec) Release ex_fresh
    ServerConfig.default (ex_store ∅ 5) ex_metrics (ex_server ∅ 5 10000) ∅ w1 w2).
  - reflexivity.
  - by apply (represents_empty 5 0).
  - done.
  - by eapply execution_weaken; [|exact Hex1]; intros l w [_ H].
  - by eapply execution_weaken; [|exact Hex2]; intros l w [_ H].
Defined.

Lemma advance_task_run ok n (s s' : Server.t RefDB bool Z)
    (k k' : Concurrent.task bytes bytes RefStream bytes) m k0 :
  task_run (SEM := Z) m k0 k -> advance ok n s k = Some (s', k') ->
  task_run (SEM := Z) (m + n) k0 k'.
Proof.
  revert m s k. induction n as [|n IH]; intros m s k Hrun; cbn [advance].
  - intros [= <- <-]. by rewrite Nat.add_0_r.
  - destruct (ok k); [|done].
    destruct (Concurrent.task_step s k) as [[s1 k1]|] eqn:Es; [|done]. cbn [mbind option_bind].
    intros Ha. replace (m + Datatypes.S n)%nat with (Datatypes.S m + n)%nat by lia.
    eapply IH; [|exact Ha]. by eapply task_run_S.
Qed.

(** Thirteen steps for twenty-nine bytes. *)
Lemma rounds_terminate_witness :
  let c := Connection.start (B := bytes) (ex_server ∅ 5 1) (ex_stream [ex_input]) in
  exists c', task_run (E := bytes) (DB := RefDB) (WO := bool) (SEM := Z) 13
      (Concurrent.Talking (Script.turn (IO := bytes) Release c false)) (Concurrent.Idle c') /\
    (13 <= 6 * length ex_input + 4)%nat.
Proof.
  cbn zeta. set (c := Connection.start _ _).
  assert (Hret : match advance (fun _ => true) 13 (ex_server ∅ 5 1)
      (Concurrent.Talking (Script.turn (IO := bytes) Release c false)) with
    | Some (_, Concurrent.Idle c') => true
    | _ => false end = true) by (vm_compute; reflexivity).
  destruct (advance _ _ _ _) as [[s' [c'|p|cmd p next]]|] eqn:Ea; try discriminate Hret.
  apply (advance_task_run _ _ _ _ _ _ 0 _ (task_run_0 _)) in Ea. exists c'. split; [exact Ea|].
  destruct (rounds_terminate (SEM := Z) Release c false 13 (Concurrent.Idle c')) as [H _]; [..|exact H].
  - split; [done|]. split; [done|reflexivity].
  - intros chunk [= <-]. vm_compute. discriminate.
  - exact Ea.
Defined.
