(* ===== verification/Shutdown.v ===== *)
(** * Shutdown

    What happens after the cancellation token has been set: under a fair
    schedule the server stops accepting, every task ends, and all permits
    come back. *)

From S2P Require Import Prelude RustStd Extern Reference Errors Command Parser ParserProps Value Storage.
From S2P Require Import StorageFacts StorageProps Response Metrics Config ServerState Examples.
From S2P Require Import Handler Spec HandlerProps Interleave Connection ConnectionFacts Script Trace.
From S2P Require Import Relaxed ConnectionProps TraceProps Server ScriptTrace Actions Concurrent.
From S2P Require Import ConcurrentFacts Accounts ServerProps.
#[local] Open Scope petra_scope.

Section facts.
Context (pf : profile) `{MCS : MemchrSpec} `{RS : RocksDBSpec DB WO E} `{BMS : BytesMutSpec B}.
Context `{ITS : ItoaSpec} {PR : Prometheus} `{SMS : SemaphoreSpec SEM} `{TSS : TcpStreamSpec T IO}.
Context (fresh : T -> Prop).

Abbreviation cworld := (Concurrent.world DB WO E B SEM T IO).
Abbreviation ctask := (Concurrent.task E B T IO).
Abbreviation step := (Concurrent.step (E := E) pf fresh).

(** ** Specification vocabulary *)

(** An infinite run of the server, which may stand still. *)
Definition infinite_run (f : nat -> cworld) : Prop :=
  forall n, f (S n) = f n \/ exists l, step l (f n) (f (S n)).

Definition cancelled (w : cworld) : Prop :=
  Server.cancel_token (Concurrent.shared w) = true.

Definition is_idle (k : ctask) : bool :=
  match k with Concurrent.Idle _ => true | _ => false end.

(** The task [id] is at its [select!] with the token set. *)
Definition can_cancel (id : nat) (w : cworld) : Prop :=
  Concurrent.aborted w = false /\ cancelled w /\
  exists c, Concurrent.tasks w !! id = Some (Concurrent.Idle c).

(** It takes the arm of the cancellation. *)
Definition cancels (id : nat) (w w' : cworld) : Prop :=
  exists c, Concurrent.tasks w !! id = Some (Concurrent.Idle c) /\
    w' = Concurrent.wake pf w id c true.

(** Fairness.  The main loop: there is always a later moment at which its
    cancellation arm is not enabled or is taken.  A task that is not at its
    [select!]: the same of its next step.  A task at its [select!], which
    chooses at random between the arms that are ready: it takes the
    cancellation arm again and again, unless there is a moment from which on
    it does not find it ready any more. *)
Record fair (f : nat -> cworld) : Prop := {
  fair_stop n : exists m, (n <= m)%nat /\
    (Concurrent.aborted (f m) = false -> cancelled (f m) ->
     Concurrent.accepting (f m) = true -> Concurrent.accepting (f (S m)) = false);
  fair_task id n : exists m, (n <= m)%nat /\
    forall k w', Concurrent.tasks (f m) !! id = Some k -> is_idle k = false ->
      step (Some id) (f m) w' -> step (Some id) (f m) (f (S m));
  fair_select id n : exists m, (n <= m)%nat /\
    (cancels id (f m) (f (S m)) \/ forall m', (m <= m')%nat -> ~ can_cancel id (f m'));
}.

(** ** Facts *)

(** The token, once set, stays set. *)
Lemma step_cancelled l (w w' : cworld) : step l w w' -> cancelled w -> cancelled w'.
Proof.
  unfold cancelled. intros [_ Hstep]. destruct Hstep as [t _ _|_|id c b _ _ _|id k s k' _ Hk
    |id c r _|id k _ _| | |_]; try done.
  - unfold Concurrent.accept, handle_new_connection. by destruct (sem_try_acquire _).
  - apply task_step_semaphore in Hk as [_ Hk]. cbn. by rewrite Hk.
  - unfold Concurrent.panic. by destruct pf.
Qed.

(** A server that has stopped accepting gets no new tasks. *)
Lemma step_stopped l (w w' : cworld) :
  step l w w' -> Concurrent.accepting w = false ->
  Concurrent.accepting w' = false /\
  forall id, Concurrent.tasks w !! id = None -> Concurrent.tasks w' !! id = None.
Proof.
  intros [_ Hstep] Hacc. destruct Hstep as [t Ht _|_|id c b Hid _ _|id k s k' Hid Hk
    |id c r Hid|id k Hid _| | |_]; try done; [congruence|..];
    try (unfold Concurrent.panic; destruct pf); (split; [done|]); intros id' Hid'; cbn;
    first [ done | by rewrite lookup_insert_ne by congruence
          | rewrite lookup_delete_None; by right ].
Qed.

(** The task [id] has gone on from [k], is gone, or the process is. *)
Definition gone_on (id : nat) (k : ctask) (w : cworld) : Prop :=
  Concurrent.aborted w = true \/ Concurrent.tasks w !! id = None \/
  exists k', Concurrent.tasks w !! id = Some k' /\ task_next (DB := DB) (WO := WO) (SEM := SEM) k' k.

(** A step of the task, and a step of another one. *)
Lemma step_own id (w w' : cworld) k :
  step (Some id) w w' -> Concurrent.tasks w !! id = Some k -> is_idle k = false -> gone_on id k w'.
Proof.
  intros [_ Hstep] Hid Hk. inversion Hstep as [| |id0 c b Hid0 _ _|id0 k0 s k' Hid0 Hk0
    |id0 c r Hid0|id0 k0 Hid0 _| | |]; subst id0; simplify_eq.
  - right; right. exists k'. cbn. rewrite lookup_insert_eq. split; [done|]. by eexists _, s.
  - right; left. cbn. by rewrite lookup_delete_eq.
  - unfold Concurrent.panic. destruct pf; [|by left]. right; left. cbn. by rewrite lookup_delete_eq.
Qed.

Lemma step_task id l (w w' : cworld) k :
  step l w w' -> Concurrent.tasks w !! id = Some k -> is_idle k = false ->
  (forall id', is_Some (Concurrent.tasks w !! id') -> (id' < Concurrent.next_id w)%nat) ->
  Concurrent.tasks w' !! id = Some k \/ gone_on id k w'.
Proof.
  intros Hstep Hid Hk Hids. destruct (decide (l = Some id)) as [->|Hl]; [right; by eapply step_own|].
  left. destruct Hstep as [_ Hstep]. destruct Hstep as [t _ _|_|id0 c b _ _ _|id0 k0 s k' _ _
    |id0 c r _|id0 k0 _ _| | |_]; try done.
  - unfold Concurrent.accept. destruct (handle_new_connection _ _) as [s [c|]]; [|done].
    cbn. rewrite lookup_insert_ne; [done|]. specialize (Hids id ltac:(by eexists)). lia.
  - cbn. by rewrite lookup_insert_ne by congruence.
  - cbn. by rewrite lookup_insert_ne by congruence.
  - cbn. by rewrite lookup_delete_ne by congruence.
  - unfold Concurrent.panic. destruct pf; [|done]. cbn. by rewrite lookup_delete_ne by congruence.
Qed.

(** A map with fewer keys is smaller. *)
Lemma fewer_keys {A} (m1 m2 : gmap nat A) id :
  (forall i, m1 !! i = None -> m2 !! i = None) -> is_Some (m1 !! id) -> m2 !! id = None ->
  (size m2 < size m1)%nat.
Proof.
  intros Hsub [a Ha] Hnone. rewrite <- !(size_dom (D := gset nat)). apply subset_size.
  split.
  - intros i. rewrite !elem_of_dom, <- !not_eq_None_Some. intros H1 H2. by apply H1, Hsub.
  - intros Hsup. assert (id ∈ dom m1) as Hin by (by apply elem_of_dom).
    apply Hsup, elem_of_dom in Hin as [b Hb]. congruence.
Qed.

(** The invariants of the worlds of a run. *)
Definition sound (limit : Z) (w : cworld) : Prop :=
  permits_ok pf limit w /\ exists st0 tr, accounts pf False False False st0 w tr.

Lemma sound_step limit l (w w' : cworld) : sound limit w -> step l w w' -> sound limit w'.
Proof.
  intros [Hp (st0 & tr & Hacc)] Hstep. split; [by eapply permits_step|].
  destruct (step_accounts pf fresh False (fun H => False_ind _ H) _ _ _ _ _ _ _ Hacc Hstep)
    as (tr2 & Hacc2). exists st0, (tr ++ tr2). by eapply accounts_weaken; [..|exact Hacc2].
Qed.

(** A task that is not at its [select!] can make its next step. *)
Lemma sound_enabled limit (w : cworld) id k :
  sound limit w -> Concurrent.aborted w = false -> Concurrent.tasks w !! id = Some k ->
  is_idle k = false -> exists w', step (Some id) w w'.
Proof.
  intros [_ (st0 & tr & Hacc)] Hab Hid Hk.
  destruct (task_progress (Concurrent.shared w) k) as [Hr|[Hp|[Hs|[[s k'] Hn]]]].
  - destruct k as [c|[[c [|r|]]| | |]|]; try done.
    eexists. split; [done|by eapply Concurrent.act_close].
  - eexists. split; [done|by eapply Concurrent.act_panic].
  - destruct (ac_tasks _ _ _ _ _ _ _ Hacc id _ Hid) as (_ & g & _ & Ha).
    destruct Ha as [|p _ _ Hp| |]; [done| |done..]. destruct p as [[c []]| | |]; try done.
    by destruct Hp as (_ & tail & _ & _ & Hst & _).
  - eexists. split; [done|by eapply Concurrent.act_task].
Qed.

Section run.
Context (f : nat -> cworld) (limit : Z).
Context (Hrun : infinite_run f) (Hok : sound limit (f 0)) (Hfair : fair f).

Lemma run_sound n : sound limit (f n).
Proof.
  induction n as [|n IH]; [done|]. destruct (Hrun n) as [->|[l Hstep]]; [done|].
  by eapply sound_step.
Qed.

Lemma run_cancelled n m : (n <= m)%nat -> cancelled (f n) -> cancelled (f m).
Proof.
  intros Hle Hc. induction Hle as [|m _ IH]; [done|].
  destruct (Hrun m) as [->|[l Hstep]]; [done|]. by eapply step_cancelled.
Qed.

Lemma run_stopped n m :
  (n <= m)%nat -> Concurrent.accepting (f n) = false ->
  Concurrent.accepting (f m) = false /\
  forall id, Concurrent.tasks (f n) !! id = None -> Concurrent.tasks (f m) !! id = None.
Proof.
  intros Hle Hn. induction Hle as [|m _ [Hacc Hsub]]; [done|].
  destruct (Hrun m) as [->|[l Hstep]]; [done|].
  destruct (step_stopped _ _ _ Hstep Hacc) as [Hacc' Hsub']. auto.
Qed.

(** A task keeps its state until it goes on. *)
Lemma run_task id k n m :
  (n <= m)%nat -> Concurrent.tasks (f n) !! id = Some k -> is_idle k = false ->
  Concurrent.tasks (f m) !! id = Some k \/ exists j, (n <= j)%nat /\ gone_on id k (f j).
Proof.
  intros Hle Hid Hk. induction Hle as [|m Hle [IH|IH]]; [by left| |by right].
  destruct (Hrun m) as [->|[l Hstep]]; [by left|].
  destruct (step_task id l _ _ k Hstep IH Hk) as [?|Hg]; [apply (run_sound m)|by left|].
  right. exists (S m). split; [lia|done].
Qed.

Lemma run_goes_on id k n :
  Concurrent.tasks (f n) !! id = Some k -> is_idle k = false ->
  exists m, (n <= m)%nat /\ gone_on id k (f m).
Proof.
  intros Hid Hk. destruct (fair_task _ Hfair id n) as (m & Hm & Hstep).
  destruct (run_task id k n m Hm Hid Hk) as [Hid'|?]; [|done].
  destruct (Concurrent.aborted (f m)) eqn:Eab; [exists m; split; [done|by left]|].
  destruct (sound_enabled limit (f m) id k (run_sound m) Eab Hid' Hk) as [w' Hw'].
  exists (S m). split; [lia|]. eapply step_own; [|exact Hid'|exact Hk]. by eapply Hstep.
Qed.

(** Every round ends. *)
Lemma run_rests id k n :
  Concurrent.tasks (f n) !! id = Some k ->
  exists m, (n <= m)%nat /\ (Concurrent.aborted (f m) = true \/ Concurrent.tasks (f m) !! id = None \/
    exists c, Concurrent.tasks (f m) !! id = Some (Concurrent.Idle c)).
Proof.
  revert n. induction (task_terminates (DB := DB) (WO := WO) (SEM := SEM) k) as [k _ IH]. intros n Hid.
  destruct (is_idle k) eqn:Ek; [exists n; split; [done|]; right; right; destruct k; by eauto|].
  destruct (run_goes_on id k n Hid Ek) as (m & Hm & [?|[?|(k' & Hid' & Hn)]]); [by eauto..|].
  destruct (IH k' Hn m Hid') as (m' & Hm' & Hend). exists m'. split; [lia|done].
Qed.

(** A task that has taken the cancellation arm ends. *)
Lemma run_leaves id c n :
  Concurrent.tasks (f n) !! id = Some (Concurrent.Talking (Script.leave c)) ->
  exists m, (n <= m)%nat /\ (Concurrent.aborted (f m) = true \/ Concurrent.tasks (f m) !! id = None).
Proof.
  intros Hid. destruct (run_goes_on id _ n Hid eq_refl) as (m & Hm & [?|[?|(k & Hid' & s & s' & Hn)]]);
    [by eauto..|].
  injection Hn as _ <-.
  destruct (run_goes_on id _ m Hid' eq_refl) as (m' & Hm' & [?|[?|(k & _ & s1 & s2 & Hn)]]);
    [exists m'; split; [lia|by auto]..|done].
Qed.

Lemma run_ends id n :
  cancelled (f n) ->
  exists m, (n <= m)%nat /\ (Concurrent.aborted (f m) = true \/ Concurrent.tasks (f m) !! id = None).
Proof.
  intros Hc. destruct (fair_select _ Hfair id n) as (m & Hm & [(c & Hid & Hw)|Hnever]).
  - destruct (run_leaves id c (S m)) as (m' & Hm' & Hend); [|exists m'; split; [lia|done]].
    rewrite Hw. cbn. by rewrite lookup_insert_eq.
  - destruct (Concurrent.tasks (f m) !! id) as [k|] eqn:Hid; [|by eauto].
    destruct (run_rests id k m Hid) as (m' & Hm' & [?|[?|[c Hidle]]]);
      [exists m'; split; [lia|by auto]..|].
    exists m'. split; [lia|]. left. destruct (Concurrent.aborted (f m')) eqn:Eab; [done|].
    destruct (Hnever m' Hm'). split; [done|]. split; [|by exists c].
    apply (run_cancelled n); [lia|done].
Qed.

Lemma run_drains n :
  cancelled (f n) -> Concurrent.accepting (f n) = false ->
  exists m, (n <= m)%nat /\ (Concurrent.aborted (f m) = true \/
    forall m', (m <= m')%nat -> Concurrent.tasks (f m') = ∅).
Proof.
  intros Hc Hacc. remember (size (Concurrent.tasks (f n))) as k eqn:Hk. revert n Hk Hc Hacc.
  induction (lt_wf k) as [k _ IH]. intros n -> Hc Hacc.
  destruct (map_choose_or_empty (Concurrent.tasks (f n))) as [(id & c & Hid)|Hempty].
  - destruct (run_ends id n Hc) as (m' & Hnm' & [?|Hnone]); [by eauto|].
    destruct (run_stopped n m' Hnm' Hacc) as [Hacc' Hsub].
    destruct (IH (size (Concurrent.tasks (f m')))) with m' as (m2 & ? & Hend);
      [by eapply fewer_keys|done|by apply (run_cancelled n)|done|].
    exists m2. split; [lia|done].
  - exists n. split; [done|]. right. intros m' Hm'. apply map_empty. intros id.
    apply (run_stopped n m' Hm' Hacc). by rewrite Hempty, lookup_empty.
Qed.

End run.
End facts.

(** ** The property *)

(** C13 Shutdown completes: once the cancellation token is set, every run of
    the server from its start that is fair - whatever connections still
    arrive before the main loop sees the token, and whatever commands are
    still executed, call by call, in whatever interleaving - reaches a point
    from which on the server accepts nothing, no task is left, and every
    permit is back in the semaphore; unless a panic aborts the process first,
    which happens in a release build only.  The system clock is assumed never
    to go back. *)
Theorem shutdown_completes pf `{MCS : MemchrSpec} `{RS : RocksDBSpec DB WO E} `{BMS : BytesMutSpec B}
    `{ITS : ItoaSpec} {PR : Prometheus} `{SMS : SemaphoreSpec SEM} `{TSS : TcpStreamSpec T IO}
    (fresh : T -> Prop) config (st : Store DB WO) m (s0 : Server.t DB WO SEM) ca
    (f : nat -> Concurrent.world DB WO E B SEM T IO) n :
  Server.new config st m = Ret s0 -> 0 <= ServerConfig.max_connections config -> represents ca st ->
  Concurrent.reachable pf fresh (Concurrent.initial s0) (f 0%nat) ->
  infinite_run pf fresh f -> fair pf fresh f -> cancelled (f n) ->
  exists m, (n <= m)%nat /\
    ((pf = Release /\ Concurrent.aborted (f m) = true) \/
     forall m', (m <= m')%nat ->
       Concurrent.accepting (f m') = false /\ Concurrent.tasks (f m') = ∅ /\
       sem_permits (Server.connection_semaphore (Concurrent.shared (f m'))) =
         ServerConfig.max_connections config).
Proof.
  intros Hnew Hmax Hrep Hreach Hrun Hfair Hc. set (limit := ServerConfig.max_connections config).
  assert (Hok : sound pf limit (f 0%nat)).
  { eapply (execution_ind_step pf fresh _ (sound pf limit)); [|by intros; eapply sound_step|exact Hreach].
    split; [by eapply permits_initial|]. do 2 eexists. by eapply initial_accounts. }
  pose proof (run_sound pf fresh f limit Hrun Hok) as Hsound.
  assert (Habort : forall m, Concurrent.aborted (f m) = true -> pf = Release)
    by (intros m1; apply (Hsound m1)).
  destruct (fair_stop _ _ _ Hfair n) as (m0 & Hm0 & Hstop).
  destruct (Concurrent.aborted (f m0)) eqn:Eab; [exists m0; split; [done|]; left; by eauto|].
  assert (exists m1, (n <= m1)%nat /\ Concurrent.accepting (f m1) = false) as (m1 & Hm1 & Hacc).
  { destruct (Concurrent.accepting (f m0)) eqn:Ea; [|by exists m0].
    exists (S m0). split; [lia|]. apply Hstop; [done| |done].
    by apply (run_cancelled pf fresh f Hrun n). }
  destruct (run_drains pf fresh f limit Hrun Hok Hfair m1) as (m2 & Hm2 & [Hab|Hend]);
    [by apply (run_cancelled pf fresh f Hrun n)|done|exists m2; split; [lia|]; left; by eauto|].
  exists m2. split; [lia|]. right. intros m' Hm'. split; [|split].
  - apply (run_stopped pf fresh f Hrun m1 m'); [lia|done].
  - by apply Hend.
  - destruct (Hsound m') as [[Hp _ _ _] _]. unfold free, population in Hp.
    rewrite (Hend m' Hm'), map_size_empty in Hp. cbn in Hp. lia.
Qed.

(** ** Witness *)

(** A connection arrives, the token is set, the main loop stops, and the
    task takes its cancellation arm and ends. *)
Definition ex_shutdown (n : nat) : Concurrent.world RefDB bool bytes bytes Z RefStream bytes :=
  let w0 := Concurrent.initial (ex_server ∅ 5 10000) in
  let w1 := Concurrent.accept w0 (ex_stream []) in
  let w2 := Concurrent.with_shared w1 (Server.cancel (Concurrent.shared w1)) in
  let w3 := {| Concurrent.shared := Concurrent.shared w2; Concurrent.tasks := Concurrent.tasks w2;
    Concurrent.closed := Concurrent.closed w2; Concurrent.crashed := Concurrent.crashed w2;
    Concurrent.received := Concurrent.received w2; Concurrent.next_id := Concurrent.next_id w2;
    Concurrent.accepting := false; Concurrent.aborted := Concurrent.aborted w2 |} in
  let c := Connection.start (B := bytes) (ex_server ∅ 5 10000) (ex_stream []) in
  let w4 := Concurrent.wake Release w3 0 c true in
  let w5 := Concurrent.with_task w4 0 (apply_meter (Concurrent.shared w4) MDecActive)
    (Concurrent.Talking (Stop (c, Connection.Done (Ok tt)))) in
  match n with
  | 0 => w0 | 1 => w1 | 2 => w2 | 3 => w3 | 4 => w4 | 5 => w5
  | _ => Concurrent.close w5 0 c (Ok tt)
  end%nat.

Lemma shutdown_completes_witness :
  exists m, forall m', (m <= m')%nat ->
    Concurrent.tasks (ex_shutdown m') = ∅ /\
    Server.connection_semaphore (Concurrent.shared (ex_shutdown m')) = 10000.
Proof.
  assert (Hdone : forall n, (6 <= n)%nat -> ex_shutdown n = ex_shutdown 6)
    by (intros [|[|[|[|[|[|n]]]]]] ?; (lia || done)).
  assert (Hnone : forall n id, (6 <= n)%nat -> Concurrent.tasks (ex_shutdown n) !! id = None)
    by (intros n id Hn; rewrite Hdone by lia; by destruct id).
  destruct (shutdown_completes (RS := ref_rocksdb_spec) (SMS := ref_semaphore_spec)
    (TSS := ref_stream_spec) Release (fun _ => True) ServerConfig.default (ex_store ∅ 5) ex_metrics
    (ex_server ∅ 5 10000) ∅ ex_shutdown 2%nat) as (m & _ & [[_ Hab]|Hm]).
  - reflexivity.
  - done.
  - by apply (represents_empty 5 0).
  - apply Concurrent.execution_refl.
  - intros [|[|[|[|[|[|n]]]]]]; [right; eexists; (split; [done|])..|by left].
    + by apply Concurrent.act_accept.
    + apply Concurrent.act_cancel.
    + by apply Concurrent.act_stop.
    + apply (Concurrent.act_wake _ _ (ex_shutdown 3)); [reflexivity| |done].
      intros chunk [= <-]. vm_compute. discriminate.
    + eapply (Concurrent.act_task _ _ (ex_shutdown 4)); reflexivity.
    + eapply (Concurrent.act_close _ _ (ex_shutdown 5)). reflexivity.
  - split.
    + intros n. exists (n `max` 6)%nat. split; [lia|]. by rewrite Hdone by lia.
    + intros id n. exists (n `max` 6)%nat. split; [lia|]. intros k w' Hk. by rewrite Hnone in Hk by lia.
    + intros id n. exists (n `max` 6)%nat. split; [lia|]. right. intros m' Hm' (_ & _ & c & Hc).
      by rewrite Hnone in Hc by lia.
  - reflexivity.
  - exfalso. revert Hab. by destruct m as [|[|[|[|[|[|m]]]]]].
  - exists m. intros m' Hm'. by destruct (Hm m' Hm') as (_ & ? & ?).
Defined.
