(* ===== verification/Health.v ===== *)
(** * The health and metrics endpoint (src/health.rs)

    One request line in, one HTTP response out.  The specification is the
    reader of an HTTP client: every request line that is UTF-8 is answered
    with one response whose length is right. *)

From S2P Require Import Prelude RustStd Extern Reference Errors Response Metrics Config ServerState.
From S2P Require Import Examples.
#[local] Open Scope petra_scope.

(** ** Blocking streams

    [http_read_until_lf] is what [BufRead::read_line] reads: the bytes up to
    a line feed or the end of the stream; [io_invalid_data] is its error for
    bytes that are not UTF-8. *)
Class HttpStream (T IO : Type) := {
  http_set_nonblocking : T -> bool -> T * result unit IO;
  http_read_until_lf : T -> T * result bytes IO;
  http_write_all : T -> bytes -> T * result unit IO;
  http_flush : T -> T * result unit IO;
  io_invalid_data : IO;
}.

Module HealthServer.
Section health.
Context {PR : Prometheus} `{HS : HttpStream T IO}.

Record t := {
  metrics : Metrics.t;
  ready : bool;
  running : bool;
}.

Definition new (metrics : Metrics.t) : t :=
  {| metrics := metrics; ready := false; running := true |}.

Definition set_ready (h : t) (b : bool) : t :=
  {| metrics := metrics h; ready := b; running := running h |}.

Definition is_ready (h : t) : bool := ready h.

Definition stop (h : t) : t :=
  {| metrics := metrics h; ready := ready h; running := false |}.

Definition status_text (status : Z) : bytes :=
  if status =? 200 then str "OK"
  else if status =? 400 then str "Bad Request"
  else if status =? 404 then str "Not Found"
  else if status =? 405 then str "Method Not Allowed"
  else if status =? 503 then str "Service Unavailable"
  else str "Unknown".

(** The [format!] of [send_response]. *)
Definition response_text (status : Z) (content_type body : bytes) : bytes :=
  str "HTTP/1.1 " ++ dec status ++ str " " ++ status_text status ++ CRLF
  ++ str "Content-Type: " ++ content_type ++ CRLF
  ++ str "Content-Length: " ++ dec (len body) ++ CRLF
  ++ str "Connection: close" ++ CRLF
  ++ CRLF
  ++ body.

Definition send_response (stream : T) (status : Z) (content_type body : bytes) :
    T * result unit IO :=
  let '(stream, r) := http_write_all stream (response_text status content_type body) in
  match r with
  | Err e => (stream, Err e)
  | Ok _ => http_flush stream
  end.

(** [BufReader::read_line] into an empty [String]. *)
Definition read_request_line (stream : T) : T * result bytes IO :=
  let '(stream, r) := http_read_until_lf stream in
  (stream, match r with
           | Err e => Err e
           | Ok s => match from_utf8 s with Some s => Ok s | None => Err io_invalid_data end
           end).

Definition bad_request (stream : T) : outcome (T * result unit IO) :=
  mret (send_response stream 400 (str "text/plain") (str "Bad Request")).

(** [handle_connection]; [expired] and [compacted] are the static counters
    [gather] reads. *)
Definition handle_connection (h : t) (expired compacted : Z) (stream : T) :
    outcome (T * result unit IO) :=
  let '(stream, r) := http_set_nonblocking stream false in
  match r with
  | Err e => mret (stream, Err e)
  | Ok _ =>
  let '(stream, r) := read_request_line stream in
  match r with
  | Err e => mret (stream, Err e)
  | Ok request_line =>
  match split_whitespace request_line with
  | method :: path :: _ =>
      if bool_decide (method <> str "GET") then
        mret (send_response stream 405 (str "text/plain") (str "Method Not Allowed"))
      else if bool_decide (path = str "/health") || bool_decide (path = str "/healthz") then
        mret (send_response stream 200 (str "application/json")
                (str "{" ++ [x22] ++ str "status" ++ [x22] ++ str ":" ++ [x22] ++ str "healthy"
                 ++ [x22] ++ str "}"))
      else if bool_decide (path = str "/ready") || bool_decide (path = str "/readyz") then
        if is_ready h then
          mret (send_response stream 200 (str "application/json")
                  (str "{" ++ [x22] ++ str "status" ++ [x22] ++ str ":" ++ [x22] ++ str "ready"
                   ++ [x22] ++ str "}"))
        else
          mret (send_response stream 503 (str "application/json")
                  (str "{" ++ [x22] ++ str "status" ++ [x22] ++ str ":" ++ [x22]
                   ++ str "not ready" ++ [x22] ++ str "}"))
      else if bool_decide (path = str "/metrics") then
        page ← Metrics.gather (metrics h) expired compacted;
        mret (send_response stream 200 (str "text/plain; version=0.0.4") page)
      else mret (send_response stream 404 (str "text/plain") (str "Not Found"))
  | [] | [_] => bad_request stream
  end
  end
  end.

(** What [listener.accept()] returns. *)
Inductive accepted :=
| Accepted (stream : T)
| WouldBlock
| AcceptError (e : IO).

(** The loop of [run]: each round reads [running] and the state of the
    server anew, so the rounds come with the state they find; an error of a
    connection or of [accept] is logged.  The result is the streams served. *)
Fixpoint serve (rounds : list (t * Z * Z * accepted)) : outcome (list T) :=
  match rounds with
  | [] => mret []
  | (h, expired, compacted, a) :: rounds =>
      if running h then
        match a with
        | Accepted stream =>
            '(stream, _) ← handle_connection h expired compacted stream;
            served ← serve rounds;
            mret (stream :: served)
        | WouldBlock | AcceptError _ => serve rounds
        end
      else mret []
  end.

(** [run]: the results of binding the listener and of making it
    non-blocking, then the loop. *)
Definition run (bound nonblocking : result unit IO) (rounds : list (t * Z * Z * accepted)) :
    outcome (result (list T) IO) :=
  match bound, nonblocking with
  | Err e, _ | Ok _, Err e => mret (Err e)
  | Ok _, Ok _ => served ← serve rounds; mret (Ok served)
  end.

End health.
End HealthServer.

(** ** Specification vocabulary: an HTTP client *)

Record http_response := { hr_status : Z; hr_content_type : bytes; hr_body : bytes }.

Definition read_http (s : bytes) : option http_response :=
  '(status_line, s) ← read_line s;
  '(type_line, s) ← read_line s;
  '(length_line, s) ← read_line s;
  '(close_line, s) ← read_line s;
  '(empty_line, body) ← read_line s;
  status ← strip_word (str "HTTP/1.1") status_line;
  code ← head (slice_split SP status);
  code ← parse_unsigned u32_max code;
  content_type ← strip_word (str "Content-Type:") type_line;
  n ← strip_word (str "Content-Length:") length_line ≫= parse_unsigned u64_max;
  if bool_decide (close_line = str "Connection: close") && bool_decide (empty_line = [])
     && (n =? len body)
  then Some {| hr_status := code; hr_content_type := content_type; hr_body := body |}
  else None.

(** The streams on which nothing fails and that have received [line]. *)
Class HttpStreamSpec (T IO : Type) {H : HttpStream T IO} := {
  http_sent : T -> bytes;
  http_up : T -> bytes -> Prop;
  http_set_up t b line :
    http_up t line ->
    exists t', http_set_nonblocking t b = (t', Ok tt) /\ http_up t' line /\ http_sent t' = http_sent t;
  http_read_up t line :
    http_up t line ->
    exists t', http_read_until_lf t = (t', Ok line) /\ http_up t' [] /\ http_sent t' = http_sent t;
  http_write_up t s :
    http_up t [] ->
    exists t', http_write_all t s = (t', Ok tt) /\ http_up t' [] /\ http_sent t' = http_sent t ++ s;
  http_flush_up t :
    http_up t [] ->
    exists t', http_flush t = (t', Ok tt) /\ http_sent t' = http_sent t;
}.

(** A stream that holds one line and collects what is written. *)
Record RefHttp := { rh_line : bytes; rh_out : bytes }.

#[export] Instance ref_http : HttpStream RefHttp bytes := {|
  http_set_nonblocking t _ := (t, Ok tt);
  http_read_until_lf t := ({| rh_line := []; rh_out := rh_out t |}, Ok (rh_line t));
  http_write_all t s := ({| rh_line := rh_line t; rh_out := rh_out t ++ s |}, Ok tt);
  http_flush t := (t, Ok tt);
  io_invalid_data := str "stream did not contain valid UTF-8";
|}.

#[export] Instance ref_http_spec : HttpStreamSpec RefHttp bytes.
Proof.
  refine {| http_sent := rh_out; http_up t line := rh_line t = line |}; cbn; intros.
  - by eexists.
  - eexists. by rewrite H.
  - by eexists.
  - by eexists.
Defined.

(** ** Facts *)

(** The known paths. *)
Definition health_paths : list bytes := [str "/health"; str "/healthz"].
Definition ready_paths : list bytes := [str "/ready"; str "/readyz"].

Lemma status_text_line status : CR ∉ HealthServer.status_text status.
Proof. unfold HealthServer.status_text. repeat case_match; by_compute. Qed.

Lemma read_http_response status ct body :
  0 <= status <= u32_max -> (CR ∉ ct) -> slice_ok body ->
  read_http (HealthServer.response_text status ct body) =
  Some {| hr_status := status; hr_content_type := ct; hr_body := body |}.
Proof.
  intros Hs Hct Hb. pose proof (len_nonneg body). unfold read_http, HealthServer.response_text.
  set (l0 := str "HTTP/1.1" ++ SP :: dec status ++ SP :: HealthServer.status_text status).
  set (l1 := str "Content-Type:" ++ SP :: ct).
  set (l2 := str "Content-Length:" ++ SP :: dec (len body)).
  replace (str "HTTP/1.1 " ++ _) with
    (l0 ++ CRLF ++ l1 ++ CRLF ++ l2 ++ CRLF ++ str "Connection: close" ++ CRLF ++ [] ++ CRLF ++ body).
  2:{ unfold l0, l1, l2. change (str "HTTP/1.1 ") with (str "HTTP/1.1" ++ [SP]).
      change (str " ") with [SP]. change (str "Content-Type: ") with (str "Content-Type:" ++ [SP]).
      change (str "Content-Length: ") with (str "Content-Length:" ++ [SP]).
      by repeat (rewrite <- !app_assoc; cbn [app]). }
  assert (Hd : forall n, 0 <= n -> CR ∉ dec n) by (intros; by apply dec_no_byte).
  assert (Hcr : (CR ∉ l0) /\ (CR ∉ l1) /\ (CR ∉ l2)).
  { unfold l0, l1, l2. pose proof (status_text_line status).
    repeat first [rewrite not_elem_of_app | rewrite not_elem_of_cons].
    split_and!; first [done | by apply Hd; lia | by_compute]. }
  destruct Hcr as (H0 & H1 & H2).
  repeat (rewrite read_line_app by first [done | by_compute | apply not_elem_of_nil];
    cbn [mbind option_bind]).
  change (read_line (CRLF ++ body)) with (Some ([] : bytes, body)).
  cbn [mbind option_bind]. unfold l0, l1, l2. rewrite !strip_word_app. cbn [mbind option_bind].
  rewrite slice_split_cons by (apply dec_no_byte; [lia|done]). cbn [head mbind option_bind].
  rewrite !parse_unsigned_dec by (unfold_max; lia). cbn [mbind option_bind].
  rewrite !bool_decide_true by done. cbn [andb]. by rewrite Z.eqb_refl.
Qed.

Section facts.
Context {PR : Prometheus} `{HSS : HttpStreamSpec T IO}.

(** A response with this status and body has been sent in full. *)
Definition responded (t : T) (out : outcome (T * result unit IO)) (status : Z) (body : bytes) : Prop :=
  exists t' text ct, out = Ret (t', Ok tt) /\ http_sent t' = http_sent t ++ text /\
    read_http text = Some {| hr_status := status; hr_content_type := ct; hr_body := body |}.

Lemma send_responded (t : T) status ct body :
  http_up t [] -> 0 <= status <= u32_max -> (CR ∉ ct) -> slice_ok body ->
  responded t (mret (HealthServer.send_response t status ct body)) status body.
Proof.
  intros Hup Hs Hct Hb. unfold HealthServer.send_response.
  destruct (http_write_up t (HealthServer.response_text status ct body) Hup) as (t1 & -> & Hup1 & Hs1).
  destruct (http_flush_up t1 Hup1) as (t2 & -> & Hs2).
  exists t2, (HealthServer.response_text status ct body), ct. split; [done|].
  split; [by rewrite Hs2|]. by apply read_http_response.
Qed.

Lemma responded_from (t t' : T) out status body :
  http_sent t' = http_sent t -> responded t' out status body -> responded t out status body.
Proof.
  intros E (t2 & text & ct & -> & Hs & Hr). exists t2, text, ct. split; [done|].
  split; [by rewrite <- E|done].
Qed.

End facts.

(** ** The properties *)

(** C38 The endpoint answers every request line that is UTF-8 with exactly
    one HTTP response, which a client reads back with a right Content-Length:
    400 without a path, 405 for another method than GET, 200 for the liveness
    paths whatever the state, 200 or 503 for the readiness paths according
    to the ready flag alone, the current metrics page for /metrics, and 404
    for every other path.  A request line that is not UTF-8 gets no response
    at all: reading it is an error, with which the connection ends. *)
Theorem health_responses `{PRS : PrometheusSpec} `{HSS : HttpStreamSpec T IO}
    (h : HealthServer.t) expired compacted (t : T) line page :
  http_up t line ->
  Metrics.gather (HealthServer.metrics h) expired compacted = Ret page -> slice_ok page ->
  let out := HealthServer.handle_connection h expired compacted t in
  if utf8_valid line then
    match split_whitespace line with
    | method :: path :: _ =>
        (method <> str "GET" -> responded t out 405 (str "Method Not Allowed")) /\
        (method = str "GET" ->
           (path ∈ health_paths -> exists body, responded t out 200 body) /\
           (path ∈ ready_paths ->
              exists body, responded t out (if HealthServer.ready h then 200 else 503) body) /\
           (path = str "/metrics" -> responded t out 200 page) /\
           (path ∉ str "/metrics" :: health_paths ++ ready_paths ->
              responded t out 404 (str "Not Found")))
    | _ => responded t out 400 (str "Bad Request")
    end
  else exists t', out = Ret (t', Err io_invalid_data) /\ http_sent t' = http_sent t.
Proof.
  intros Hup Hpage Hok out. unfold out, HealthServer.handle_connection.
  destruct (http_set_up t false line Hup) as (t1 & -> & Hup1 & Hs1).
  unfold HealthServer.read_request_line.
  destruct (http_read_up t1 line Hup1) as (t2 & -> & Hup2 & Hs2).
  unfold from_utf8. destruct (utf8_valid line); [|exists t2; by rewrite Hs2, Hs1]. rewrite Hpage.
  assert (Hsend : forall status ct body, (0 <=? status) && (status <=? u32_max) = true ->
    (CR ∉ ct) -> slice_ok body ->
    responded t (mret (HealthServer.send_response t2 status ct body)) status body).
  { intros status ct body Hst Hct Hbody. zbool. eapply responded_from; [by rewrite Hs2, Hs1|].
    by apply send_responded. }
  destruct (split_whitespace line) as [|method [|path rest]];
    [apply Hsend; [done|by_compute|done]..|].
  split.
  - intros Hm. rewrite bool_decide_true by done. apply Hsend; [done|by_compute|done].
  - intros ->. rewrite bool_decide_false by (intros Hg; by apply Hg).
    unfold health_paths, ready_paths. rewrite !elem_of_cons. split; [|split; [|split]].
    + intros Hp. assert (bool_decide (path = str "/health") || bool_decide (path = str "/healthz") = true) as ->.
      { destruct Hp as [->|[->|[]%elem_of_nil]]; by_compute. }
      eexists. apply Hsend; [done|by_compute|done].
    + intros [->|[->|[]%elem_of_nil]]; cbn [bool_decide]; unfold HealthServer.is_ready;
        destruct (HealthServer.ready h); eexists; apply Hsend; try done; by_compute.
    + intros ->. apply Hsend; [done|by_compute|done].
    + intros Hp. rewrite !bool_decide_false by set_solver. apply Hsend; [done|by_compute|done].
Qed.

(** ** Witness *)

Lemma health_responses_witness :
  responded {| rh_line := str "GET /nowhere HTTP/1.1" ++ CRLF; rh_out := [] |}
    (HealthServer.handle_connection (HealthServer.new ex_metrics) 0 0
       {| rh_line := str "GET /nowhere HTTP/1.1" ++ CRLF; rh_out := [] |})
    404 (str "Not Found").
Proof.
  assert (Hpage : exists page, Metrics.gather ex_metrics 0 0 = Ret page /\ slice_ok page)
    by (eexists; split; [reflexivity|vm_compute; discriminate]).
  destruct Hpage as (page & Hpage & Hok).
  pose proof (health_responses (PRS := ref_prometheus_spec) (HSS := ref_http_spec)
    (HealthServer.new ex_metrics) 0 0 {| rh_line := str "GET /nowhere HTTP/1.1" ++ CRLF; rh_out := [] |}
    (str "GET /nowhere HTTP/1.1" ++ CRLF) page eq_refl Hpage Hok) as H.
  assert (E : split_whitespace (str "GET /nowhere HTTP/1.1" ++ CRLF) =
    [str "GET"; str "/nowhere"; str "HTTP/1.1"]) by by vm_compute.
  assert (Hutf : utf8_valid (str "GET /nowhere HTTP/1.1" ++ CRLF) = true) by by vm_compute.
  cbn zeta in H. rewrite Hutf, E in H. destruct H as [_ H]. destruct (H eq_refl) as (_ & _ & _ & H').
  apply H'. by_compute.
Defined.
