(* ===== verification/Main.v ===== *)
(** * The program (src/main.rs)

    [main]: the configuration, the runtime, the start of every component in
    order, the signal handlers and the end of the process. *)

From S2P Require Import Prelude RustStd Extern Errors Command Parser Value Storage Response Metrics.
From S2P Require Import Config Open ServerState Handler Connection Server Concurrent Health.
#[local] Open Scope petra_scope.

(** What the process finds: its arguments, the environment, the file system
    as far as configuration files go, the TOML deserializer, tokio's runtime
    builder with the number of worker threads when one is set, the parser of
    socket addresses and the binding of a listener.  Errors are their
    texts. *)
Record Host (A : Type) := {
  args : list bytes;
  var : bytes -> option bytes;
  read_to_string : bytes -> result bytes bytes;
  toml_from_str : bytes -> result Config.t bytes;
  runtime_build : option Z -> result unit bytes;
  parse_addr : bytes -> result A bytes;
  bind : A -> result unit bytes;
}.
Arguments args {A}.
Arguments var {A}.
Arguments read_to_string {A}.
Arguments toml_from_str {A}.
Arguments runtime_build {A}.
Arguments parse_addr {A}.
Arguments bind {A}.

Section main.
Context (pf : profile) {MC : Memchr} `{R : RocksDB DB WO E} `{BM : BytesMut B} {IT : Itoa}.
Context {PR : Prometheus} `{SM : Semaphore SEM} `{TS : TcpStream T IO}.
Context {FS A : Type} {D : Disk FS DB E} (host : Host A).

Abbreviation server := (Server.t DB WO SEM).
Abbreviation world := (Concurrent.world DB WO E B SEM T IO).

(** The process once it serves: the server, and the health server if there
    is one.  The metrics are shared ([Arc]): those of the server are
    current. *)
Record app := { a_world : world; a_health : option HealthServer.t }.

(** The process is serving, [main] has returned, or a panic of a task has
    aborted the process. *)
Inductive process :=
| Serving (a : app)
| Exited (r : result unit bytes)
| Aborted (w : world).

(** [std::env::args().nth(n)]: the iteration panics on an argument that is
    not valid Unicode, be it only skipped. *)
Fixpoint args_nth (n : nat) (args : list bytes) {struct args} : outcome (option bytes) :=
  match args with
  | [] => mret None
  | arg :: args =>
      if utf8_valid arg then
        match n with
        | O => mret (Some arg)
        | Datatypes.S n => args_nth n args
        end
      else Panic
  end.

(** The configuration: the file named by the first argument, or the
    environment.  [std::env::args] starts with the name of the program. *)
Definition load_config : outcome (result Config.t bytes) :=
  arg ← args_nth 1 (args host);
  mret match arg with
       | Some config_path =>
           match Config.from_file (E := E) (IO := bytes) (read_to_string host) (toml_from_str host)
                   config_path with
           | Err e => Err (PetraCacheError_display id e)
           | Ok config => Ok config
           end
       | None => Ok (Config.from_env (var host))
       end.

(** The runtime, with the configured number of worker threads. *)
Definition build_runtime (config : Config.t) : result unit bytes :=
  let n := ServerConfig.worker_threads (Config.server config) in
  runtime_build host (if 0 <? n then Some n else None).

(** [async_main] up to [server.run()]: the server and the health server,
    which is made ready here. *)
Definition init (fs : FS) (clock : Clock) (config : Config.t) :
    outcome (FS * result (server * option HealthServer.t) bytes) :=
  let '(fs, storage) := open fs (Config.storage config) clock 0 0 in
  match storage with
  | Err e => mret (fs, Err (str "Failed to open RocksDB: " ++ StorageError_display e))
  | Ok storage =>
      metrics ← Metrics.new;
      let health :=
        if MetricsConfig.enabled (Config.metrics config) then Some (HealthServer.new metrics)
        else None in
      server ← Server.new (Config.server config) storage metrics;
      let health := (fun h => HealthServer.set_ready h true) <$> health in
      mret (fs, Ok (server, health))
  end.

(** [async_main]: an error of [server.run()] is logged. *)
Definition async_main (fs : FS) (clock : Clock) (config : Config.t) : outcome (FS * process) :=
  '(fs, r) ← init fs clock config;
  match r with
  | Err e => mret (fs, Exited (Err e))
  | Ok (server, health) =>
      match run_listen (parse_addr host) (bind host) server with
      | Err _ => mret (fs, Exited (Ok tt))
      | Ok _ => mret (fs, Serving {| a_world := Concurrent.initial server; a_health := health |})
      end
  end.

Definition main (fs : FS) (clock : Clock) : outcome (FS * process) :=
  loaded ← load_config;
  match loaded with
  | Err e => mret (fs, Exited (Err e))
  | Ok config =>
      match build_runtime config with
      | Err e => mret (fs, Exited (Err e))
      | Ok _ => async_main fs clock config
      end
  end.

(** The task of the signal handlers, when SIGINT or SIGTERM arrives. *)
Definition on_signal (a : app) : app :=
  {| a_world := Concurrent.with_shared (a_world a)
                  (Server.cancel (Concurrent.shared (a_world a)));
     a_health := HealthServer.stop <$> a_health a |}.

(** The health server as a request finds it: its metrics are the server's. *)
Definition health_now (a : app) : option HealthServer.t :=
  (fun h => {| HealthServer.metrics := Server.metrics (Concurrent.shared (a_world a));
               HealthServer.ready := HealthServer.ready h;
               HealthServer.running := HealthServer.running h |}) <$> a_health a.

(** A step of the process: of the server - the token is set by a signal
    only - or a signal; [main] returns when the main loop has ended, and a
    panic that aborts the process ends it. *)
Inductive process_step (fresh : T -> Prop) : process -> process -> Prop :=
| process_server a l w' :
    Concurrent.step pf fresh l (a_world a) w' -> Concurrent.aborted w' = false ->
    Server.cancel_token (Concurrent.shared w') =
      Server.cancel_token (Concurrent.shared (a_world a)) ->
    process_step fresh (Serving a) (Serving {| a_world := w'; a_health := a_health a |})
| process_signal a : process_step fresh (Serving a) (Serving (on_signal a))
| process_return a :
    Concurrent.accepting (a_world a) = false -> process_step fresh (Serving a) (Exited (Ok tt))
| process_abort a l w' :
    Concurrent.step pf fresh l (a_world a) w' -> Concurrent.aborted w' = true ->
    process_step fresh (Serving a) (Aborted w').

Inductive process_reaches (fresh : T -> Prop) (p0 : process) : process -> Prop :=
| process_refl : process_reaches fresh p0 p0
| process_next p p' :
    process_reaches fresh p0 p -> process_step fresh p p' -> process_reaches fresh p0 p'.

End main.
Arguments app DB WO E B {PR} SEM T IO.
Arguments process DB WO E B {PR} SEM T IO.
