(* ===== verification/MainProps.v ===== *)
(** * Properties of the whole process

    What [main] gives on every branch, and the invariant of the process from
    its start to its end: the server's, and that the health endpoint can
    always answer. *)

From S2P Require Import Prelude RustStd Extern Reference Errors Command Parser ParserProps Value.
From S2P Require Import Storage StorageFacts StorageProps Response Metrics Config Open ServerState.
From S2P Require Import Examples Handler Spec HandlerProps Interleave OpenProps Connection.
From S2P Require Import ConnectionFacts Script Trace Relaxed TraceProps Server ScriptTrace Actions.
From S2P Require Import Concurrent ConcurrentFacts Accounts ServerProps Health Main.
#[local] Open Scope petra_scope.

(** ** The metrics stay registered *)

Section metrics.
Context (pf : profile) {MC : Memchr} `{R : RocksDB DB WO E} `{BM : BytesMut B} {IT : Itoa}.
Context `{PRS : PrometheusSpec} `{SM : Semaphore SEM} `{TS : TcpStream T IO} (fresh : T -> Prop).

Abbreviation server := (Server.t DB WO SEM).
Abbreviation cworld := (Concurrent.world DB WO E B SEM T IO).
Abbreviation ctask := (Concurrent.task E B T IO).







End metrics.

(** ** Starting up *)

Section startup.
Context {DB WO B E SEM T IO : Type} `{RS : RocksDBSpec DB WO E} `{PRS : PrometheusSpec}.
Context `{SMS : SemaphoreSpec SEM} {FS A : Type} {D : Disk FS DB E} (host : Host A).

Abbreviation server := (Server.t DB WO SEM).

(** Sizes of a configuration are [usize]s. *)
Definition config_ok (config : Config.t) : Prop :=
  0 <= ServerConfig.max_connections (Config.server config) /\
  0 <= ServerConfig.worker_threads (Config.server config).


(** What a server that starts on [st] with [config] and its health server
    are. *)
Definition started (config : Config.t) (st : Store DB WO) (s : server)
    (health : option HealthServer.t) : Prop :=
  Server.config s = Config.server config /\ Server.storage s = st /\
  sem_permits (Server.connection_semaphore s) = ServerConfig.max_connections (Config.server config) /\
  Server.cancel_token s = false /\
  (forall f, counter_get (Metrics.get (Server.metrics s) f) = 0) /\
  gauge_get (Metrics.active_connections (Server.metrics s)) = 0 /\
  match health with
  | Some h =>
      MetricsConfig.enabled (Config.metrics config) = true /\
      HealthServer.metrics h = Server.metrics s /\
      HealthServer.ready h = true /\ HealthServer.running h = true
  | None => MetricsConfig.enabled (Config.metrics config) = false
  end.

Lemma args_nth_valid args n :
  (forall i arg, (i <= n)%nat -> args !! i = Some arg -> utf8_valid arg = true) ->
  args_nth n args = Ret (args !! n).
Proof.
  revert n. induction args as [|arg args IH]; intros n Hv; [done|]. cbn [args_nth].
  rewrite (Hv 0%nat arg) by (done || lia). destruct n as [|n]; [done|].
  apply IH. intros i a Hi Ha. apply (Hv (Datatypes.S i)); [lia|done].
Qed.

Lemma args_nth_invalid args n i arg :
  (i <= n)%nat -> args !! i = Some arg -> utf8_valid arg = false -> args_nth n args = Panic.
Proof.
  revert n i. induction args as [|a args IH]; intros n i Hi Ha Hv; [done|]. cbn [args_nth].
  destruct i as [|i]; [cbn in Ha; simplify_eq; by rewrite Hv|].
  destruct n as [|n]; [lia|]. destruct (utf8_valid a); [|done]. apply (IH n i); [lia|done..].
Qed.




(** The configuration of valid arguments. *)
Definition loaded : result Config.t bytes :=
  match args host !! 1%nat with
  | Some path =>
      match read_to_string host path with
      | Err e => Err (str "Configuration error: Failed to read config file: " ++ e)
      | Ok text =>
          match toml_from_str host text with
          | Err e => Err (str "Configuration error: Failed to parse config: " ++ e)
          | Ok config => Ok config
          end
      end
  | None => Ok (Config.from_env (var host))
  end.

Lemma load_config_valid :
  (forall i arg, (i <= 1)%nat -> args host !! i = Some arg -> utf8_valid arg = true) ->
  load_config (E := E) host = Ret loaded.
Proof.
  intros Hv. unfold load_config, loaded, Config.from_file. rewrite args_nth_valid by done.
  cbn [mbind outcome_bind mret outcome_ret]. destruct (args host !! 1%nat) as [path|]; [|done].
  destruct (read_to_string host path) as [text|]; [|done]. by destruct (toml_from_str host text).
Qed.

Lemma configured_loaded config :
  (args host !! 1%nat = None /\ config = Config.from_env (var host)) \/
  (exists p text, args host !! 1%nat = Some p /\ read_to_string host p = Ok text /\
     toml_from_str host text = Ok config) ->
  loaded = Ok config.
Proof.
  unfold loaded. intros [[-> ->]|(p & text & -> & Hr & Ht)]; [done|]. by rewrite Hr, Ht.
Qed.

Lemma threads_positive n :
  0 <= n -> (if 0 <? n then Some n else None) = match n with 0 => None | n => Some n end.
Proof. by destruct n. Qed.

(** [init] once the database is open. *)
Lemma init_started (fs fs' : FS) clock config (st : Store DB WO) :
  open fs (Config.storage config) clock 0 0 = (fs', Ok st) -> config_ok config ->
  let limit := ServerConfig.max_connections (Config.server config) in
  (MAX_PERMITS < limit -> init (SEM := SEM) fs clock config = Panic) /\
  (limit <= MAX_PERMITS -> exists (s : server) health m,
     init fs clock config = Ret (fs', Ok (s, health)) /\ started config st s health /\
     Server.new (Config.server config) st m = Ret s /\ Server.metrics s = m /\ registered_ok m).
Proof.
  intros Ho [Hmax _] limit. unfold init. rewrite Ho.
  destruct metrics_new_spec as (m & -> & Hc & Hg & _ & Hreg). cbn [mbind outcome_bind].
  unfold Server.new. split; intros Hl; [by rewrite sem_new_panic|].
  destruct (sem_new_ok _ (conj Hmax Hl)) as (sem & Hsem & Hn).
  rewrite Hsem. cbn [unwrap mbind outcome_bind mret outcome_ret].
  do 3 eexists. split; [done|]. split; [|done]. unfold started. split_and!; try done.
  by destruct (MetricsConfig.enabled _).
Qed.

End startup.

(** ** Running *)

Section running.
Context (pf : profile) `{MCS : MemchrSpec} `{RS : RocksDBSpec DB WO E} `{BMS : BytesMutSpec B}.
Context `{ITS : ItoaSpec} `{PRS : PrometheusSpec} `{SMS : SemaphoreSpec SEM} `{TSS : TcpStreamSpec T IO}.
Context {FS A : Type} {D : Disk FS DB E} (host : Host A) (fresh : T -> Prop).

Abbreviation server := (Server.t DB WO SEM).
Abbreviation cworld := (Concurrent.world DB WO E B SEM T IO).
Abbreviation app := (Main.app DB WO E B SEM T IO).
Abbreviation process := (Main.process DB WO E B SEM T IO).










End running.

(** ** The properties *)


(** C15 Startup on every branch.  An argument that is not valid Unicode
    panics.  A configuration file named by the first argument that cannot be
    read or parsed ends the process with an error that says so; without an
    argument the environment is the configuration.  The runtime gets the
    configured number of worker threads, if one is configured, and an error
    of it ends the process before anything has been opened; an error of the
    database ends it with its text; and a connection limit beyond tokio's
    bound panics after the database has been opened.  Otherwise the server
    has the configuration, the opened storage, as many permits as the limit,
    zero metrics and an unset token, and the health server exists exactly if
    it is enabled, shares the metrics, runs and reports ready - before the
    listener is bound.  If the address is then refused the process ends
    without an error, and else it serves. *)
Theorem startup_branches `{RS : RocksDBSpec DB WO E} {B : Type} `{PRS : PrometheusSpec}
    `{SMS : SemaphoreSpec SEM} {T IO : Type} {FS A : Type} {D : Disk FS DB E} (host : Host A)
    (fs : FS) clock :
  let out := main (B := B) (SEM := SEM) (T := T) (IO := IO) host fs clock in
  let path := args host !! 1%nat in
  let ends fs e := out = Ret (fs, Exited (Err e)) in
  (forall i arg, (i <= 1)%nat -> args host !! i = Some arg -> utf8_valid arg = false ->
     out = Panic) /\
  ((forall i arg, (i <= 1)%nat -> args host !! i = Some arg -> utf8_valid arg = true) ->
   (forall p e, path = Some p -> read_to_string host p = Err e ->
      ends fs (str "Configuration error: Failed to read config file: " ++ e)) /\
   (forall p text e, path = Some p -> read_to_string host p = Ok text ->
      toml_from_str host text = Err e ->
      ends fs (str "Configuration error: Failed to parse config: " ++ e)) /\
   forall config,
     (path = None /\ config = Config.from_env (var host)) \/
     (exists p text, path = Some p /\ read_to_string host p = Ok text /\
        toml_from_str host text = Ok config) ->
     config_ok config ->
     let threads := ServerConfig.worker_threads (Config.server config) in
     let limit := ServerConfig.max_connections (Config.server config) in
     match runtime_build host (match threads with 0 => None | n => Some n end) with
     | Err e => ends fs e
     | Ok _ =>
         let '(fs', opened) := open fs (Config.storage config) clock 0 0 in
         match opened with
         | Err e => ends fs' (str "Failed to open RocksDB: " ++ StorageError_display e)
         | Ok st =>
             (MAX_PERMITS < limit -> out = Panic) /\
             (limit <= MAX_PERMITS -> exists (s : Server.t DB WO SEM) health,
                init fs clock config = Ret (fs', Ok (s, health)) /\
                started config st s health /\
                out = Ret (fs',
                  match parse_addr host (ServerConfig.listen_addr (Config.server config)) with
                  | Err _ => Exited (Ok tt)
                  | Ok addr =>
                      match bind host addr with
                      | Err _ => Exited (Ok tt)
                      | Ok _ => Serving {| a_world := Concurrent.initial s; a_health := health |}
                      end
                  end))
         end
     end).
Proof.
  cbn zeta. unfold main. split.
  { intros i arg Hi Ha Hv. unfold load_config. by rewrite (args_nth_invalid _ 1 i arg). }
  intros Hv. rewrite load_config_valid by done. cbn [mbind outcome_bind]. split; [|split].
  { intros p e Hp Hr. unfold loaded. by rewrite Hp, Hr. }
  { intros p text e Hp Hr Ht. unfold loaded. by rewrite Hp, Hr, Ht. }
  intros config Hc Hconf. rewrite (configured_loaded host config Hc). unfold build_runtime.
  pose proof Hconf as [_ Hth]. rewrite (threads_positive _ Hth).
  destruct (runtime_build host _) as [[]|e]; [|done]. unfold async_main.
  pose proof (fun fs' st H => init_started (SEM := SEM) fs fs' clock config st H Hconf) as Hinit.
  destruct (open fs (Config.storage config) clock 0 0) as [fs' [st|e]] eqn:Eo;
    [|unfold init; by rewrite Eo].
  destruct (Hinit fs' st eq_refl) as [Hbig Hsmall]. split.
  { intros Hl. by rewrite Hbig. }
  intros Hl. destruct (Hsmall Hl) as (s & health & m & Hin & Hst & _). exists s, health.
  split; [done|]. split; [done|]. rewrite Hin. cbn [mbind outcome_bind].
  unfold run_listen. pose proof Hst as [-> _].
  destruct (parse_addr host _) as [addr|]; [|done]. by destruct (bind host addr).
Qed.

(** ** Witnesses *)

(** A machine on which nothing fails, without configuration, with a new
    database. *)
#[local] Instance new_disk : Disk unit RefDB bytes := {|
  create_dir_all fs _ := (fs, Ok tt);
  db_open fs _ _ := (fs, Ok {| rd_map := ∅; rd_down := false |});
|}.



(** A limit of 2^62 stops the program at startup. *)
Lemma startup_branches_witness :
  main (B := bytes) (SEM := Z) (T := RefStream) (IO := bytes)
    {| args := [str "petracache"];
       var x := if bool_decide (x = str "PETRACACHE_MAX_CONNECTIONS")
                then Some (str "4611686018427387904") else None;
       read_to_string _ := Err []; toml_from_str _ := Err []; runtime_build _ := Ok tt;
       parse_addr s := Ok s; bind _ := Ok tt |} tt (fixed_clock 5) = Panic.
Proof.
  match goal with |- main ?h _ _ = _ => set (host := h) end.
  destruct (startup_branches (RS := ref_rocksdb_spec) (PRS := ref_prometheus_spec)
    (SMS := ref_semaphore_spec) (B := bytes) (T := RefStream) (IO := bytes) host tt (fixed_clock 5))
    as [_ H].
  destruct H as (_ & _ & H).
  { intros [|i] arg _ Ha; [injection Ha as <-; by vm_compute|discriminate Ha]. }
  assert (Hmax : ServerConfig.max_connections (Config.server (Config.from_env (var host))) =
    4611686018427387904) by reflexivity.
  specialize (H (Config.from_env (var host)) (or_introl (conj eq_refl eq_refl))).
  cbn zeta in H. rewrite Hmax in H.
  destruct H as [H _]; [|by apply H]. split; [by rewrite Hmax|done].
Defined.
