(* ===== verification/UnitTests.v ===== *)
(** * The unit tests of the repository, on the model

    Every test of the [tests] modules under src/src whose code is modelled: a
    test is a computation that panics when an assertion fails, as in the
    source.  The build profile, the clock [c] and the file system [fs] are
    arguments; the database is the one of [Reference.v]. *)

From S2P Require Import Prelude RustStd Extern Reference Errors Command Parser Value Storage.
From S2P Require Import Response Metrics Config Open OpenProps Examples Health.
#[local] Open Scope petra_scope.

Abbreviation test := (outcome unit).

(** [assert!], a group of them, and [unwrap] of a [Result]. *)
Definition assert (b : bool) : test := if b then mret tt else Panic.
Definition asserts (bs : list bool) : test := assert (forallb id bs).
Definition ok {A E : Type} (r : result A E) : outcome A :=
  match r with Ok a => Ret a | Err _ => Panic end.

Definition same (a b : bytes) : bool := bool_decide (a = b).

(** ** protocol/command.rs *)

Definition test_is_valid_key : test :=
  asserts [is_valid_key (str "valid_key"); is_valid_key (str "key-with-dashes");
    is_valid_key (str "key:with:colons"); negb (is_valid_key []);
    negb (is_valid_key (str "key with space"));
    negb (is_valid_key (str "key" ++ [x09] ++ str "with" ++ [x09] ++ str "tab"));
    negb (is_valid_key (replicate 251 x61))].

Definition test_is_noreply : test :=
  let cmd := Set_ (str "key") 0 0 (str "data") true in
  assert (is_noreply cmd);;
  let cmd := Get [str "key"] in
  assert (negb (is_noreply cmd)).

(** ** protocol/parser.rs *)

Section parser.
Context (pf : profile).

Definition test_parse_get : test :=
  let buf := ex_line "get foo bar baz" in
  r ← parse pf buf;
  match r with
  | Complete (Get keys) consumed =>
      asserts [len keys =? 3; bool_decide (keys !! 0%nat = Some (str "foo"));
        bool_decide (keys !! 1%nat = Some (str "bar"));
        bool_decide (keys !! 2%nat = Some (str "baz")); consumed =? len buf]
  | _ => Panic
  end.

Definition test_parse_set : test :=
  let buf := ex_line "set mykey 42 3600 5" ++ ex_line "hello" in
  r ← parse pf buf;
  match r with
  | Complete (Set_ key flags exptime data noreply) consumed =>
      asserts [same key (str "mykey"); flags =? 42; exptime =? 3600; same data (str "hello");
        negb noreply; consumed =? len buf]
  | _ => Panic
  end.

Definition test_parse_set_noreply : test :=
  let buf := ex_line "set mykey 0 0 3 noreply" ++ ex_line "foo" in
  r ← parse pf buf;
  match r with
  | Complete (Set_ _ _ _ _ noreply) _ => assert noreply
  | _ => Panic
  end.

Definition test_parse_delete : test :=
  let buf := ex_line "delete mykey" in
  r ← parse pf buf;
  match r with
  | Complete (Delete key noreply) _ => asserts [same key (str "mykey"); negb noreply]
  | _ => Panic
  end.

Definition test_parse_delete_noreply : test :=
  let buf := ex_line "delete mykey noreply" in
  r ← parse pf buf;
  match r with
  | Complete (Delete _ noreply) _ => assert noreply
  | _ => Panic
  end.

Definition test_parse_delete_with_exptime : test :=
  let buf := ex_line "delete mykey 0" in
  r ← parse pf buf;
  match r with
  | Complete (Delete key noreply) _ => asserts [same key (str "mykey"); negb noreply]
  | _ => Panic
  end;;
  let buf := ex_line "delete mykey 300 noreply" in
  r ← parse pf buf;
  match r with
  | Complete (Delete key noreply) _ => asserts [same key (str "mykey"); noreply]
  | _ => Panic
  end.

Definition test_parse_quit : test :=
  let buf := ex_line "quit" in
  r ← parse pf buf;
  match r with Complete Quit _ => mret tt | _ => Panic end.

Definition test_parse_version : test :=
  let buf := ex_line "version" in
  r ← parse pf buf;
  match r with Complete Version consumed => assert (consumed =? len buf) | _ => Panic end;;
  let buf := ex_line "VERSION" in
  r ← parse pf buf;
  match r with Complete Version _ => mret tt | _ => Panic end.

Definition test_parse_need_more_data : test :=
  let buf := str "get foo" in
  r ← parse pf buf;
  match r with NeedMoreData => mret tt | _ => Panic end.

Definition test_parse_invalid_command : test :=
  let buf := ex_line "invalid" in
  r ← parse pf buf;
  match r with Error (InvalidCommand _) => mret tt | _ => Panic end.

Definition test_parse_key_too_long : test :=
  let long_key := replicate 251 x61 in
  let buf := str "get " in
  let buf := buf ++ long_key in
  let buf := buf ++ CRLF in
  r ← parse pf buf;
  match r with Error KeyTooLong => mret tt | _ => Panic end.

Definition test_case_insensitive_commands : test :=
  let buf := ex_line "GET foo" in
  r ← parse pf buf;
  match r with Complete (Get _) _ => mret tt | _ => Panic end;;
  let buf := ex_line "SET mykey 0 0 3" ++ ex_line "bar" in
  r ← parse pf buf;
  match r with Complete (Set_ _ _ _ _ _) _ => mret tt | _ => Panic end.

End parser.

(** ** protocol/response.rs *)

Abbreviation writer := (ResponseWriter.t bytes).

Definition test_value : test :=
  let w : writer := ResponseWriter.new 256 in
  let w := ResponseWriter.value w (str "mykey") 42 (str "hello") in
  assert (same (ResponseWriter.buffer w) (ex_line "VALUE mykey 42 5" ++ ex_line "hello")).

Definition test_get_response : test :=
  let w : writer := ResponseWriter.new 256 in
  let w := ResponseWriter.value w (str "key1") 0 (str "value1") in
  let w := ResponseWriter.value w (str "key2") 1 (str "value2") in
  let w := ResponseWriter.end_ w in
  let expected := ex_line "VALUE key1 0 6" ++ ex_line "value1"
    ++ ex_line "VALUE key2 1 6" ++ ex_line "value2" ++ ex_line "END" in
  assert (same (ResponseWriter.buffer w) expected).

Definition test_simple_responses : test :=
  let w : writer := ResponseWriter.new 256 in
  let w := ResponseWriter.stored w in
  let '(b, w) := ResponseWriter.take w in
  assert (same b (ex_line "STORED"));;
  let w := ResponseWriter.deleted w in
  let '(b, w) := ResponseWriter.take w in
  assert (same b (ex_line "DELETED"));;
  let w := ResponseWriter.not_found w in
  let '(b, w) := ResponseWriter.take w in
  assert (same b (ex_line "NOT_FOUND")).

Definition test_errors : test :=
  let w : writer := ResponseWriter.new 256 in
  let w := ResponseWriter.client_error w (str "bad command line format") in
  let '(b, w) := ResponseWriter.take w in
  assert (same b (ex_line "CLIENT_ERROR bad command line format"));;
  let w := ResponseWriter.server_error w (str "out of memory") in
  let '(b, w) := ResponseWriter.take w in
  assert (same b (ex_line "SERVER_ERROR out of memory")).

Definition test_version : test :=
  let w : writer := ResponseWriter.new 256 in
  let w := ResponseWriter.version w (str "rocksproxy 0.1.0") in
  assert (same (ResponseWriter.buffer w) (ex_line "VERSION rocksproxy 0.1.0")).

(** ** storage/value.rs *)

Definition test_encode_decode : test :=
  let value := with_expire_at 42 1234567890 (str "hello") in
  let encoded := encode value in
  r ← decode (E := bytes) encoded;
  decoded ← ok r;
  asserts [sv_expire_at decoded =? 1234567890; sv_flags decoded =? 42;
    same (sv_data decoded) (str "hello")].

Definition test_numeric_value : test :=
  let value := with_expire_at 0 0 (str "123") in
  n ← ok (as_u64 (E := bytes) value);
  assert (n =? 123);;
  let value := set_numeric value 456 in
  assert (same (sv_data value) (str "456"));;
  n ← ok (as_u64 (E := bytes) value);
  assert (n =? 456).

Definition test_invalid_numeric : test :=
  let value := with_expire_at 0 0 (str "hello") in
  assert (match as_u64 (E := bytes) value with Err _ => true | Ok _ => false end).

Definition test_decode_too_short : test :=
  result ← decode (E := bytes) [x00; x01; x02];
  assert (match result with Err _ => true | Ok _ => false end).

Section clock.
Context (c : Clock).

Definition test_never_expire : test :=
  let '(value, c) := stored_value_new c 0 0 (str "data") in
  assert (sv_expire_at value =? 0);;
  assert (negb (fst (is_expired c value))).

Definition test_relative_ttl : test :=
  let '(now, c) := current_timestamp c in
  let '(value, c) := stored_value_new c 0 60 (str "data") in
  assert ((now + 59 <=? sv_expire_at value) && (sv_expire_at value <=? now + 61)).

Definition test_absolute_timestamp : test :=
  let '(now, c) := current_timestamp c in
  let future := now + 3000000 in
  let '(value, c) := stored_value_new c 0 future (str "data") in
  assert (sv_expire_at value =? future).

Definition test_expired : test :=
  let value := with_expire_at 0 1 (str "data") in
  assert (fst (is_expired c value)).

(** ** storage/rocks.rs *)

Definition test_config (tmp_dir : bytes) : StorageConfig.t := {|
  StorageConfig.db_path := tmp_dir ++ str "/test_db";
  StorageConfig.block_cache_size := 8 * 1024 * 1024;
  StorageConfig.write_buffer_size := 4 * 1024 * 1024;
  StorageConfig.max_write_buffer_number := 2;
  StorageConfig.target_file_size_base := 4 * 1024 * 1024;
  StorageConfig.max_background_jobs := 2;
  StorageConfig.enable_compression := false;
  StorageConfig.enable_ttl_compaction := false;
  StorageConfig.rocksdb_log_level := str "error";
  StorageConfig.rocksdb_max_log_file_size := 10 * 1024 * 1024;
  StorageConfig.rocksdb_keep_log_file_num := 5;
|}.

Context (fs : RefDB) (tmp_dir : bytes).

Definition opened : outcome (Store RefDB bool) :=
  ok (snd (open fs (test_config tmp_dir) c 0 0)).

Definition test_set_get : test :=
  storage ← opened;
  let '(value, c) := stored_value_new (st_clock storage) 42 0 (str "hello") in
  let '(storage, r) := RocksStorage.set (set_clock storage c) (str "test_key") value in
  _ ← ok r;
  '(storage, r) ← RocksStorage.get storage (str "test_key");
  result ← ok r;
  v ← unwrap result;
  asserts [sv_flags v =? 42; same (sv_data v) (str "hello")].

Definition test_get_nonexistent : test :=
  storage ← opened;
  '(storage, r) ← RocksStorage.get storage (str "nonexistent");
  result ← ok r;
  assert (bool_decide (result = None)).

Definition test_delete : test :=
  storage ← opened;
  let '(storage, r) := RocksStorage.delete storage (str "nonexistent") in
  b ← ok r;
  assert (negb b);;
  let '(value, c) := stored_value_new (st_clock storage) 0 0 (str "data") in
  let '(storage, r) := RocksStorage.set (set_clock storage c) (str "key") value in
  _ ← ok r;
  let '(storage, r) := RocksStorage.delete storage (str "key") in
  b ← ok r;
  assert b;;
  '(storage, r) ← RocksStorage.get storage (str "key");
  result ← ok r;
  assert (bool_decide (result = None)).

(** The decision of the filter, which also counts and reads the clock. *)
Definition decision (value : bytes) : CompactionDecision :=
  snd (ttl_compaction_filter (c, 0) 0 (str "key") value).

Definition is_remove (d : CompactionDecision) : bool :=
  match d with Remove => true | _ => false end.

Definition is_keep (d : CompactionDecision) : bool :=
  match d with Keep => true | _ => false end.

Definition test_compaction_filter_expired_key : test :=
  let value := with_expire_at 0 1 (str "old") in
  let encoded := encode value in
  assert (is_remove (decision encoded)).

Definition test_compaction_filter_valid_key : test :=
  let value := with_expire_at 0 u64_max (str "fresh") in
  let encoded := encode value in
  assert (is_keep (decision encoded)).

Definition test_compaction_filter_never_expire : test :=
  let value := with_expire_at 0 0 (str "permanent") in
  let encoded := encode value in
  assert (is_keep (decision encoded)).

Definition test_compaction_filter_short_value : test :=
  assert (is_keep (decision [x00; x01; x02])).

End clock.

(** ** health.rs and metrics.rs *)

Definition test_ready_state : test :=
  metrics ← Metrics.new;
  let server := HealthServer.new metrics in
  assert (negb (HealthServer.is_ready server));;
  let server := HealthServer.set_ready server true in
  assert (HealthServer.is_ready server);;
  let server := HealthServer.set_ready server false in
  assert (negb (HealthServer.is_ready server)).

Definition test_atomic_counters : test :=
  let counters := AtomicCounters.new in
  let counters := AtomicCounters.inc_cmd_get counters in
  let counters := AtomicCounters.inc_cmd_get counters in
  let counters := AtomicCounters.inc_get_hits counters in
  asserts [AtomicCounters.cmd_get counters =? 2; AtomicCounters.get_hits counters =? 1].

(** ** The test run *)

Definition tests (pf : profile) (c : Clock) (fs : RefDB) (tmp_dir : bytes) : list test :=
  [test_is_valid_key; test_is_noreply;
   test_parse_get pf; test_parse_set pf; test_parse_set_noreply pf; test_parse_delete pf;
   test_parse_delete_noreply pf; test_parse_delete_with_exptime pf; test_parse_quit pf;
   test_parse_version pf; test_parse_need_more_data pf; test_parse_invalid_command pf;
   test_parse_key_too_long pf; test_case_insensitive_commands pf;
   test_value; test_get_response; test_simple_responses; test_errors; test_version;
   test_encode_decode; test_numeric_value; test_invalid_numeric; test_decode_too_short;
   test_never_expire c; test_relative_ttl c; test_absolute_timestamp c; test_expired c;
   test_set_get c fs tmp_dir; test_get_nonexistent c fs tmp_dir; test_delete c fs tmp_dir;
   test_compaction_filter_expired_key c; test_compaction_filter_valid_key c;
   test_compaction_filter_never_expire c; test_compaction_filter_short_value c;
   test_ready_state; test_atomic_counters].

Definition passes (t : test) : bool := match t with Ret _ => true | Panic => false end.

(** In both build profiles, at 1700000000 seconds, on an empty disk. *)
Lemma unit_tests_pass pf :
  forallb passes (tests pf (fixed_clock 1700000000) {| rd_map := ∅; rd_down := false |}
    (str "/tmp/test")) = true.
Proof. by destruct pf; vm_compute. Qed.
